(* ===== verification/_CoqProject ===== *)
-Q . S2P
Prelude.v
Octets.v
Status.v
Metadata.v
ServerTransport.v
Frame.v
Timeout.v
DeadlineHeap.v
IntrusiveQueues.v
HeaderText.v
CallHeaders.v
TypedCall.v
BoundedExecutor.v
RequestStream.v
Registration.v
TypedResponse.v
AdmissionGate.v
SyncService.v
ClientTransport.v
BlockingCall.v
ClientLoop.v
CallInvariant.v
CallLogic.v
CallSafety.v
ClientCalls.v
EarlyClose.v
Doubles.v
Rounding.v
ContextDeadline.v
AbiOptions.v
ChannelConstruction.v
Reconnect.v
ChannelAdmission.v
OperationalStats.v
Handles.v
HandleSafety.v
UbLogic.v
ServerReactor.v
ServerFlush.v
ServerInvariant.v
ServerCallbacks.v
ServerLifecycle.v
ServerSafety.v
ServerRequests.v
ServerCoordinator.v
ServerRuns.v
ServerShutdown.v
ServerLinger.v
