(* ===== verification/Prelude.v ===== *)
(** * A verification library for grpc-lite

    grpc-lite is a gRPC transport with a C interface (written in Zig) and a C++
    layer over it.  A server hands each call to callbacks of the application; on
    top of these callbacks the C++ layer builds typed calls, request streams and a
    synchronous service API.  A client opens streams on a channel; on top of the
    stream callbacks the C++ layer builds blocking calls with the interface of
    grpc++.  This library models both sides, from the generated-code interface down
    to the bytes of frames and header fields, and proves what each layer
    guarantees to the one above.  Paths below are under [src/].

    ** Files

    - [Prelude]: record update, the error/step notations, tactics, hint databases
      and the lemmas on lists, maps and integers that the other files share.
    - [Octets]: byte strings and arithmetic on their values.
    - [Status]: [include/grpc_lite/cpp/status.hpp],
      [include/grpcpp/support/status.h], [status_code_enum.h], the error codes of
      [include/grpc_lite/grpc_lite.h] and the conversions between them.
    - [Metadata]: the metadata handles of [src/metadata.zig] and [src/c_api.zig]
      on a heap, with [include/grpc_lite/cpp/metadata.hpp].
    - [ServerTransport]: a retained server call of [src/server.zig], the C
      functions on it and [grpc_lite::ServerCall].
    - [Frame]: [src/frame.zig], encoder and incremental decoder.
    - [Timeout]: [src/deadline.zig].
    - [HeaderText]: [src/message.zig] and the wire form of metadata.
    - [CallHeaders]: request headers, response headers and trailers from the end
      that builds them ([src/channel.zig], [src/server.zig]) to the state of the
      end that reads them.
    - [TypedCall], [RequestStream], [Registration], [TypedResponse]:
      [include/grpc_lite/cpp/typed_service.hpp], that is, the state behind a typed
      call, the request mailbox, the callbacks and table of a registered method,
      and the four call classes.
    - [AdmissionGate], [SyncService]: [include/grpc_lite/cpp/sync_service.hpp]
      with [include/grpcpp/server_context.h] and the server half of
      [include/grpcpp/support/sync_stream.h].
    - [ClientTransport]: one [ClientStreamState] of [src/channel.zig], the
      operations of the application and the steps of the loop on it.
    - [BlockingCall]: [include/grpcpp/impl/blocking_call.h] with
      [include/grpc_lite/cpp/client_stream.hpp] and
      [include/grpcpp/client_context.h].  [ClientLoop], [CallInvariant],
      [CallLogic] and [CallSafety] hold its proofs: what the loop keeps, what every
      thread keeps, a program logic for threads, and the guarantees.
    - [ClientCalls]: [include/grpcpp/channel.h],
      [include/grpcpp/impl/client_unary_call.h], [client_streaming_call.h] and the
      client half of [sync_stream.h].
    - [EarlyClose]: clients whose peer answers before they have finished writing.
    - [Doubles], [ChannelConstruction]: the doubles and integers of
      [include/grpcpp/channel_arguments.h], [create_channel.h],
      [security/credentials.h] and the constructor of [grpc::Channel].
    - [AbiOptions]: the options of channels and servers, from
      [include/grpc_lite/cpp/channel.hpp] and [server.hpp] through the versioned
      structures of [grpc_lite.h] to the checks of [src/c_api.zig],
      [src/channel.zig] and [src/server.zig].
    - [Rounding], [ContextDeadline]: rounding errors of binary floats, and the
      deadline of [include/grpcpp/client_context.h] with the timeout that
      [impl/blocking_call.h] makes of it, in [long double].
    - [DeadlineHeap], [IntrusiveQueues]: the heap of deadlines with its timer, and
      the linked queues of [src/channel.zig] and [src/server.zig].
    - [BoundedExecutor]: [examples/cpp_bounded_executor/main.cc], a worker thread
      that answers retained calls.
    - [Reconnect], [ChannelAdmission]: the reconnect delays and the admission
      accounts of [src/channel.zig].
    - [OperationalStats]: the statistics of channels and servers as the C
      interface and the C++ classes hand them out.
    - [Handles], [HandleSafety]: the classes of [include/grpc_lite/cpp/] that own
      native handles ([Runtime], [Channel], [ClientStream], [Server],
      [ServerCall]), with the callbacks on their user data, and their safety.
    - [UbLogic]: total correctness of computations that may be undefined.
    - [ServerReactor]: the connections of one reactor of [src/server.zig], from
      accepting to destruction, with its listener, its timers, draining and
      stopping.  [ServerFlush] compares its batched writes with a reference;
      [ServerInvariant], [ServerCallbacks], [ServerLifecycle] and [ServerSafety]
      have its invariant and one specification for each callback, [ServerRequests]
      how far a request to shut down has got after each.
    - [ServerCoordinator]: [start], [shutdown], [shutdownGracefully] and [wait] of
      [src/server.zig] for a server with several reactors.  [ServerRuns] has the
      invariant of its runs, [ServerShutdown] the theorems, [ServerLinger] what
      becomes of a drained connection whose last stream the peer has reset.

    ** State and steps

    An object of the code is a record with the fields of the code; ghost fields
    (histories of commands, callbacks made) are named as such where they are
    declared.  An operation is a function on that record; one that can fail
    returns the error of the code.  Allocation results, the clock and what a peer
    sends are arguments.

    Where threads meet, one step is one section under a mutex or one atomic
    access, and a world ([CallWorld], [StreamWorld], [GateWorld], [DispatchWorld],
    [BlockingWorld], [BoundedExecutor.World], [ServerCoordinator.Server]) is run by the
    transitive closure of a step relation, in any order.  The code of a thread ([TypedResponse.Thread], [BlockingCall.CThread])
    is given together with a schedule: the list of what the others do before each
    of its sections.  A schedule that ends before the thread does leaves the thread
    running; statements about results are about schedules that are long enough,
    and the loops of the code ([Write] while the transport would block) go on
    exactly as long as the schedule does, so no bound of the model cuts a loop of
    the code short.

    In [ServerReactor] memory is explicit: using a connection that was freed, adding a
    completion to the event loop that is active already, and a failed assertion are
    undefined, and the theorems show that they do not happen.  A callback runs to its
    end; requests of other threads come in where it takes the lock of the reactor.
    [loop.run] may fail at any time ([CbEnd true]), after which the connections of the
    loop stay where they are; [ServerRuns.stranded] is such a reactor.

    The callbacks of a registered method look the call up and retain it first, which
    fails without memory: [TypedCall.lose_callback] is what they do then, and the worlds
    of [RequestStream] and [Registration] have a step for it.

    ** Fuel

    [Frame.drain] takes as many messages as the buffer has bytes, plus one; each
    message takes at least the five bytes of its header.  Decimal printing in
    [Timeout] and [CallHeaders] has fuel for 20 digits, enough for 64 bits.  Sifting
    in [DeadlineHeap] has one round for each entry, [expire_loop] one more than
    there are entries, [schedule_loop] two, since expiring leaves nothing due, and
    [scheduleDeadlineTimer] is called from within itself at most once for each entry;
    walking a queue in [IntrusiveQueues] and [ServerReactor] one more than there are
    nodes; to run out there is undefined, which the theorems exclude.  Other recursion
    is structural.

    ** What is shown

    - Server calls: the commands a call sends follow the response protocol
      whatever its threads and the reactor do; outcomes and cancellations are
      reported once; a writer that waits is woken.
    - Requests: one message at a time reaches the application, in order, with
      back pressure that never stalls a reader; a registered method gets one
      verdict per call, at most one where its callbacks could not retain it.
    - Dispatch: a handler starts at most once and not after it has been stopped,
      the gate terminates, a served call sends the handler's messages, metadata and
      status, and no metadata handle leaks, on the error paths included.
    - Client calls: a unary call returns the one message of the peer or an error,
      streams give all messages in order before OK, the outcome is final and a
      cancellation is not lost.
    - Wire: frames survive any fragmentation and decode to what was sent; the
      decoder implements a specification on the whole byte stream and keeps
      within its buffer; timeouts lose less than their unit; metadata, status messages,
      request headers and responses survive the way to the other end.
    - Flaws: [EarlyClose] shows a write and a [Finish] that wait for ever when the
      peer answers early; [CallHeaders] shows that one trailer name makes a call fail;
      [ServerLinger] shows a connection without streams that is left open in a
      graceful shutdown; [ServerShutdown] shows that a loop that fails with
      connections in it makes [wait] fail an assertion.
    - Setting up: no conversion of a setter's double is undefined and a channel
      comes up with exactly the options that were set (multiplier and jitter
      truncated: [jitter_0_29]); structures of older callers are read
      only as far as they reach, and statistics written only that far.
    - Connections: reconnect delays stay within their bounds without overflow; the
      admission account is exactly the calls that exist.
    - Deadlines: no conversion between clocks is undefined and a timeout is right up
      to nanoseconds; the heap of deadlines implements a map, and no deadline in it
      is without an armed timer, also when the clock goes on and the timer is scheduled again while
      entries are handled.
    - Queues: the linked queues implement lists.
    - Executor: each call is accepted or refused, answered in full unless cut
      short, and [Join] returns.
    - Servers: no callback of a reactor uses freed memory or fails an assertion,
      whatever peers, system calls and other threads do, and nor does [wait] unless a
      loop has failed; what is written is what the
      session produced, in order and within the watermark, and batching changes nothing
      but where buffers end; connections are counted
      exactly; a request to shut down reaches every reactor, also one that is still to
      be launched, is noticed, and ends a reactor after a bounded number of completions.
    - Ownership: in programs that keep the documented rules, each native handle and
      each user data belongs to one C++ object that holds it, is destroyed once, and
      user data outlives every use of it.

    ** Parameters

    The serialisation of messages is the class [Message] ([Prelude] and users), the
    gzip codec is [Frame.Flate] with the law that inflating undoes compressing;
    the application's handlers, executors and admission hooks are arbitrary
    functions or programs.  What handling a due deadline does to the call or the
    connection ([expireDeadlines] of [src/channel.zig]) is a parameter of
    [DeadlineHeap]: the deadlines it arms and removes, whether it schedules the timer
    again from within or stops the channel, and whether it fails; the same for the
    [flush] that follows.

    ** Not modelled

    - HTTP/2 framing and HPACK (nghttp2), TLS ([src/tls_record.zig]), name
      resolution ([src/cares_adapter.zig]), sockets and the event loop
      (libxev): other people's code or direct use of it.  Header blocks and stream
      data arrive in the order in which they were sent.  What nghttp2 checks of a
      header field before it hands it on is not in [CallHeaders], whose fields are those
      the two ends build.
    - Connection management in [src/channel.zig]: opening and closing connections (of
      reconnecting, only the delays are modelled), GOAWAY, keeping several streams of a
      connection apart; the models of calls have one call or stream.
    - Of a server, the set-up of the listening socket and the pool of write requests
      (so that of [retireStream] only its assertion on the queue of commands is there);
      its reactors are those of a build without TLS.  What nghttp2 makes of received
      bytes is any list of the events that reach the code, and what a stream does to
      the connection is in them, so that [ServerReactor] and the model of a call in
      [ServerTransport] meet in these events only.
    - The unary operation and the Zig API ([src/root.zig], [service.zig],
      [stream.zig], [call.zig]) and [src/protobuf_adapter.zig].
    - How the library counts its statistics, and the text of log messages.
    - Native objects in [Handles] are the handles and user data they hold.  That a
      destroy function returns only after the last callback is built into the
      model: [Channel.deinit] and [Server.deinit] shut down and wait, and
      [clientStreamRelease] takes the callback mutex and suppresses what follows.
      Callbacks are single steps, so destroying an owner inside its own callback,
      which [grpc_lite.h] forbids, is outside the model.
    - The code generator ([tools/protoc-gen-grpc-lite-cpp]), benchmarks and
      examples other than those above. *)

From Stdlib Require Export ZArith Lia Sorting.Sorted.
From stdpp Require Export base tactics numbers list strings gmap fin_maps sets relations.

(** ** Record update

    [s <| f := v |>] is the record [s] with field [f] replaced by [v].  A
    record opts in by giving its eta-expansion as an [Eta] instance; the update
    itself is derived. *)

Class Eta (R : Type) := eta_expand : R → R.

Class FieldUpdate {R T : Type} (f : R → T) := field_update : (T → T) → R → R.
Arguments field_update {R T} f {_} _ _.

Ltac derive_field_update f :=
  lazymatch type of f with
  | ?R → _ =>
      let g := fresh "g" in
      let r := fresh "r" in
      let e := constr:(_ : Eta R) in
      refine (λ g r, _);
      let t := eval hnf in (e r) in
      let p := eval pattern (f r) in t in
      lazymatch p with ?F _ => exact (F (g (f r))) end
  end.

#[export] Hint Extern 0 (FieldUpdate ?f) => derive_field_update f : typeclass_instances.

Declare Scope grpc_scope.
Delimit Scope grpc_scope with grpc.
Notation "r <| f := v |>" := (field_update f (λ _, v) r)
  (at level 1, left associativity, format "r  <| f  :=  v |>") : grpc_scope.
#[global] Open Scope grpc_scope.

(** ** Fixed-width integers

    A C or C++ integer of a given width is a [Z]; the ranges and the places
    where a value is converted are written out. *)

Definition u8_max : Z := 2 ^ 8 - 1.
Definition u16_max : Z := 2 ^ 16 - 1.
Definition u32_max : Z := 2 ^ 32 - 1.
Definition u64_max : Z := 2 ^ 64 - 1.
Definition int32_min : Z := - 2 ^ 31.
Definition int32_max : Z := 2 ^ 31 - 1.

(** [size_t] and [usize] on the supported LP64 targets. *)
Definition usize_max : Z := u64_max.

Definition in_u32 (z : Z) : Prop := (0 ≤ z ≤ u32_max)%Z.
Definition in_u64 (z : Z) : Prop := (0 ≤ z ≤ u64_max)%Z.
Definition in_int32 (z : Z) : Prop := (int32_min ≤ z ≤ int32_max)%Z.

(** [static_cast] to an unsigned type reduces modulo 2^w. *)
Definition cast_u32 (z : Z) : Z := (z mod 2 ^ 32)%Z.
Definition cast_u64 (z : Z) : Z := (z mod 2 ^ 64)%Z.

(** A C++ [bool] stored in a [uint32_t] field. *)
Definition u32_of_bool (b : bool) : Z := if b then 1%Z else 0%Z.

(** Zig's [std.math.add(usize, a, b)]: [None] on overflow. *)
Definition add_usize (a b : Z) : option Z :=
  if (a + b <=? usize_max)%Z then Some (a + b)%Z else None.

(** Zig's saturating subtraction on an unsigned type. *)
Definition sat_sub (a b : Z) : Z := Z.max 0 (a - b).

(** The length of a byte string as a [size_t]. *)
Definition zlen (s : string) : Z := Z.of_nat (String.length s).

Lemma zlen_nonneg s : (0 ≤ zlen s)%Z.
Proof. unfold zlen. lia. Qed.

Lemma cast_u32_small z : in_u32 z → cast_u32 z = z.
Proof. unfold in_u32, u32_max, cast_u32. intros. apply Z.mod_small. lia. Qed.

(** ** Computations that may have undefined behaviour

    A call on shared state [S] returns a value and the new state, or [None] when
    the program's behaviour is undefined (a handle used after it was destroyed). *)

Definition UB (S A : Type) : Type := S → option (A * S).

#[export] Instance ub_ret S : MRet (UB S) := λ A a s, Some (a, s).
#[export] Instance ub_bind S : MBind (UB S) :=
  λ A B k m s, match m s with Some (a, s') => k a s' | None => None end.

Definition get {S} : UB S S := λ s, Some (s, s).
Definition put {S} (s : S) : UB S () := λ _, Some ((), s).
Definition undefined {S A} : UB S A := λ _, None.

Lemma ub_bind_ret_l {S A B} (a : A) (k : A → UB S B) s :
  (mret a ≫= k) s = k a s.
Proof. reflexivity. Qed.

Lemma ub_bind_assoc {S A B C} (m : UB S A) (k : A → UB S B) (h : B → UB S C) s :
  ((m ≫= k) ≫= h) s = (m ≫= λ a, k a ≫= h) s.
Proof. unfold mbind, ub_bind. destruct (m s) as [[a s']|]; reflexivity. Qed.

Lemma ub_bind_Some {S A B} (m : UB S A) (k : A → UB S B) s b s' :
  (m ≫= k) s = Some (b, s') ↔ ∃ a s1, m s = Some (a, s1) ∧ k a s1 = Some (b, s').
Proof.
  unfold mbind, ub_bind. destruct (m s) as [[a s1]|].
  - split; [eauto|]. by intros (? & ? & [= <- <-] & ?).
  - split; [done|]. by intros (? & ? & ? & _).
Qed.

(** ** [std::string] order and [std::multimap]

    [std::string::operator<] compares bytes as unsigned characters.  A
    [std::multimap<std::string, std::string>] is the list of its entries in
    iteration order; [emplace] puts a new entry after the entries whose key is
    not greater. *)

Fixpoint str_ltb (a b : string) : bool :=
  match a, b with
  | _, EmptyString => false
  | EmptyString, String _ _ => true
  | String x a', String y b' =>
      if (Ascii.N_of_ascii x <? Ascii.N_of_ascii y)%N then true
      else if (Ascii.N_of_ascii y <? Ascii.N_of_ascii x)%N then false
      else str_ltb a' b'
  end.

Abbreviation multimap := (list (string * string)).

Fixpoint mm_emplace (k v : string) (m : multimap) : multimap :=
  match m with
  | [] => [(k, v)]
  | e :: m' => if str_ltb k e.1 then (k, v) :: m else e :: mm_emplace k v m'
  end.

(** [for (entry : entries) m.emplace(entry.first, entry.second)] *)
Definition mm_emplace_all (es : list (string * string)) (m : multimap) : multimap :=
  fold_left (λ m e, mm_emplace e.1 e.2 m) es m.

(** The values stored under a key, in iteration order. *)
Definition mm_values (k : string) (m : multimap) : list string :=
  (filter (λ e, e.1 = k) m).*2.

Definition mm_sorted (m : multimap) : Prop :=
  StronglySorted (λ a b, str_ltb b.1 a.1 = false) m.

Lemma str_ltb_irrefl a : str_ltb a a = false.
Proof. induction a as [|x a IH]; [done|]. simpl. by rewrite N.ltb_irrefl. Qed.

Lemma str_ltb_trans a b c : str_ltb a b = true → str_ltb b c = true → str_ltb a c = true.
Proof.
  revert b c. induction a as [|x a IH]; intros [|y b] [|z c]; simpl; try done.
  repeat case_match; rewrite ?N.ltb_lt, ?N.ltb_ge in *; intros; try done; try lia.
  by eapply IH.
Qed.

Lemma str_ltb_total a b : str_ltb a b = false → str_ltb b a = false → a = b.
Proof.
  revert b. induction a as [|x a IH]; intros [|y b]; simpl; try done.
  repeat case_match; rewrite ?N.ltb_lt, ?N.ltb_ge in *; intros; try done; try lia.
  f_equal; [|by apply IH].
  rewrite <- (Ascii.ascii_N_embedding x), <- (Ascii.ascii_N_embedding y). f_equal. lia.
Qed.

Lemma mm_emplace_perm k v m : mm_emplace k v m ≡ₚ (k, v) :: m.
Proof.
  induction m as [|e m IH]; [done|]. simpl. case_match; [done|].
  rewrite IH. by constructor.
Qed.

Lemma mm_emplace_sorted k v m : mm_sorted m → mm_sorted (mm_emplace k v m).
Proof.
  unfold mm_sorted. induction 1 as [|e m Hs IH Hall]; simpl; [by repeat constructor|].
  destruct (str_ltb k e.1) eqn:E.
  - repeat constructor; try done; simpl.
    + destruct (str_ltb e.1 k) eqn:E'; [|done].
      pose proof (str_ltb_trans _ _ _ E E') as C. by rewrite str_ltb_irrefl in C.
    + eapply Forall_impl; [exact Hall|]. intros e' He'. simpl in *.
      destruct (str_ltb e'.1 k) eqn:E'; [|done].
      by rewrite (str_ltb_trans _ _ _ E' E) in He'.
  - constructor; [done|]. rewrite mm_emplace_perm. by constructor.
Qed.

Lemma mm_values_cons k e m :
  mm_values k (e :: m) =
  if decide (e.1 = k) then e.2 :: mm_values k m else mm_values k m.
Proof. unfold mm_values. rewrite filter_cons. by case_decide. Qed.

Lemma mm_values_gt k m : Forall (λ e, str_ltb k e.1 = true) m → mm_values k m = [].
Proof.
  induction 1 as [|e m He _ IH]; [done|]. rewrite mm_values_cons.
  case_decide; [subst|done]. by rewrite str_ltb_irrefl in He.
Qed.

(** Entries of one key keep the order in which they were emplaced. *)
Lemma mm_values_emplace k k' v m :
  mm_sorted m →
  mm_values k (mm_emplace k' v m) =
  mm_values k m ++ (if decide (k' = k) then [v] else []).
Proof.
  unfold mm_sorted. induction 1 as [|e m Hs IH Hall]; cbn [mm_emplace].
  { by rewrite mm_values_cons. }
  destruct (str_ltb k' e.1) eqn:E; rewrite mm_values_cons; simpl.
  - case_decide; subst; [|by rewrite app_nil_r].
    rewrite mm_values_gt; [done|]. constructor; [done|].
    eapply Forall_impl; [exact Hall|]. intros e' He'. simpl in *.
    destruct (str_ltb k e'.1) eqn:E'; [done|].
    destruct (str_ltb e'.1 k) eqn:E''.
    + by rewrite (str_ltb_trans _ _ _ E'' E) in He'.
    + rewrite (str_ltb_total _ _ E'' E') in He'. by rewrite E in He'.
  - rewrite IH, mm_values_cons. by destruct (decide (e.1 = k)).
Qed.

Lemma mm_emplace_all_sorted es m : mm_sorted m → mm_sorted (mm_emplace_all es m).
Proof.
  revert m. induction es as [|e es IH]; intros m Hm; [done|].
  by apply IH, mm_emplace_sorted.
Qed.

Lemma mm_values_emplace_all k es m :
  mm_sorted m →
  mm_values k (mm_emplace_all es m) = mm_values k m ++ mm_values k es.
Proof.
  revert m. induction es as [|e es IH]; intros m Hm; simpl.
  { by rewrite app_nil_r. }
  rewrite IH by by apply mm_emplace_sorted.
  rewrite mm_values_emplace, mm_values_cons, <- app_assoc by done.
  f_equal. by case_decide.
Qed.

(** ** Transition systems

    A component with several threads or callbacks is a function from a state
    and a label (which atomic section runs next, and with which outcome of the
    environment) to the next state, [None] when the section cannot run. *)

Section TransitionSystem.
Context {S L : Type} (step : S → L → option S).

Fixpoint run (s : S) (ls : list L) : option S :=
  match ls with
  | [] => Some s
  | l :: ls' => match step s l with Some s' => run s' ls' | None => None end
  end.

Lemma run_app s ls1 ls2 s' :
  run s (ls1 ++ ls2) = Some s' ↔
  ∃ s1, run s ls1 = Some s1 ∧ run s1 ls2 = Some s'.
Proof.
  revert s. induction ls1 as [|l ls1 IH]; intros s; simpl.
  - split; [eauto|]. by intros (? & [= <-] & ?).
  - destruct (step s l) as [s1|]; [apply IH|].
    split; [done|]. by intros (? & ? & _).
Qed.

Lemma run_snoc s ls l s' :
  run s (ls ++ [l]) = Some s' ↔ ∃ s1, run s ls = Some s1 ∧ step s1 l = Some s'.
Proof.
  rewrite run_app. simpl. split; intros (s1 & H1 & H2); exists s1; split; try done.
  - by destruct (step s1 l).
  - by rewrite H2.
Qed.

(** What holds at the start and is kept by every step holds after any run. *)
Lemma run_invariant (I : S → Prop) :
  (∀ s l s', I s → step s l = Some s' → I s') →
  ∀ ls s s', I s → run s ls = Some s' → I s'.
Proof.
  intros Hstep. induction ls as [|l ls IH]; simpl; intros s s' Hs Hrun.
  - by injection Hrun as <-.
  - destruct (step s l) as [s1|] eqn:E; [|done]. by eapply IH; [eapply Hstep|].
Qed.

(** The same for runs whose labels all satisfy [P]. *)
Lemma run_invariant_on (P : L → Prop) (I : S → Prop) :
  (∀ s l s', P l → I s → step s l = Some s' → I s') →
  ∀ ls s s', Forall P ls → I s → run s ls = Some s' → I s'.
Proof.
  intros Hstep ls s s' Hls. revert s. induction Hls as [|l ls Hl Hls IH]; simpl; intros s Hs Hrun.
  - by injection Hrun as <-.
  - destruct (step s l) as [s1|] eqn:E; [|done]. by eapply IH; [eapply Hstep|].
Qed.

(** The same for a relation between the start and the current state. *)
Lemma run_preorder (R : S → S → Prop) :
  (∀ s, R s s) → (∀ a b c, R a b → R b c → R a c) →
  (∀ s l s', step s l = Some s' → R s s') →
  ∀ ls s s', run s ls = Some s' → R s s'.
Proof.
  intros Hrefl Htrans Hstep. induction ls as [|l ls IH]; simpl; intros s s' Hrun.
  - injection Hrun as <-. apply Hrefl.
  - destruct (step s l) as [s1|] eqn:E; [|done]. by eapply Htrans; [eapply Hstep|eapply IH].
Qed.
End TransitionSystem.

(** ** Automation

    [grpc] collects the lemmas that close the common goals; [simplify_res]
    takes apart results of the executable definitions. *)

Create HintDb grpc discriminated.
Create Rewrite HintDb grpc.

Ltac simplify_res :=
  repeat match goal with
    | H : Some _ = Some _ |- _ => injection H as H; subst
    | H : (_, _) = (_, _) |- _ => injection H as H; subst
    | H : None = Some _ |- _ => discriminate H
    | H : Some _ = None |- _ => discriminate H
    | H : true = false |- _ => discriminate H
    | H : false = true |- _ => discriminate H
    | H : _ ∧ _ |- _ => destruct H
    | H : ∃ _, _ |- _ => destruct H
    | H : (_ && _)%bool = true |- _ => apply andb_true_iff in H
    | H : (_ || _)%bool = false |- _ => apply orb_false_iff in H
    | H : negb _ = true |- _ => apply negb_true_iff in H
    | H : negb _ = false |- _ => apply negb_false_iff in H
    end; simpl in *.

(** Case analysis on every [match] or [if] of the hypothesis, simplifying. *)
Ltac case_all H :=
  repeat (match type of H with
    | context [match ?x with _ => _ end] =>
        lazymatch x with
        | context [match _ with _ => _ end] => fail
        | _ => let E := fresh "E" in destruct x eqn:E
        end
    end; simplify_res; try discriminate).

(** ** Lists *)

Lemma mapM_snoc {A B} (f : A → option B) l x ys y :
  mapM f l = Some ys → f x = Some y → mapM f (l ++ [x]) = Some (ys ++ [y]).
Proof. rewrite !mapM_Some. intros Hl Hx. apply Forall2_app; [done|]. by constructor. Qed.

(** ** Messages

    Protocol buffer messages are generated code: serialising may fail, and parsing
    may. *)

Class Message (M : Type) := {
  SerializeToString : M → option string;
  ParseFromArray : string → option M }.
