(* ===== verification/Octets.v ===== *)
(** * Octets

    Byte strings as the wire code of the library sees them: a [[]const u8] is the
    list of its octets, an octet an [ascii]; the arithmetic is on their values. *)

From Stdlib Require Export (notations) Ascii.
From S2P Require Import Prelude.

Local Open Scope Z_scope.

Abbreviation octet := Ascii.ascii.
Abbreviation octets := (list Ascii.ascii).

Definition octet_value (b : octet) : Z := Z.of_N (Ascii.N_of_ascii b).

(** [@truncate] to [u8] *)
Definition truncate_u8 (z : Z) : octet := Ascii.ascii_of_N (Z.to_N (z mod 256)).

(** [.len] *)
Definition olen (bs : octets) : Z := Z.of_nat (length bs).

Lemma octet_value_bound b : 0 ≤ octet_value b < 256.
Proof. unfold octet_value. pose proof (Ascii.N_ascii_bounded b). lia. Qed.

Lemma octet_value_truncate z : octet_value (truncate_u8 z) = z mod 256.
Proof.
  unfold octet_value, truncate_u8. pose proof (Z.mod_pos_bound z 256).
  rewrite Ascii.N_ascii_embedding; lia.
Qed.

Lemma truncate_octet_value b : truncate_u8 (octet_value b) = b.
Proof.
  unfold truncate_u8. rewrite Z.mod_small by apply octet_value_bound.
  unfold octet_value. rewrite N2Z.id. apply Ascii.ascii_N_embedding.
Qed.

Lemma octet_value_inj a b : octet_value a = octet_value b → a = b.
Proof. intros H. by rewrite <- (truncate_octet_value a), <- (truncate_octet_value b), H. Qed.

Lemma truncate_u8_eq z b : z mod 256 = octet_value b → truncate_u8 z = b.
Proof. intros H. apply octet_value_inj. by rewrite octet_value_truncate. Qed.

(** A property that holds of the 256 octets, by evaluation. *)
Lemma octet_forall (P : octet → bool) :
  forallb (λ n, P (Ascii.ascii_of_nat n)) (seq 0 256) = true → ∀ b, P b = true.
Proof.
  intros H b. rewrite <- (Ascii.ascii_nat_embedding b). rewrite forallb_forall in H. apply H.
  apply in_seq. pose proof (Ascii.nat_ascii_bounded b). lia.
Qed.

Lemma olen_app a b : olen (a ++ b) = olen a + olen b.
Proof. unfold olen. rewrite length_app. lia. Qed.

Lemma olen_nonneg a : 0 ≤ olen a.
Proof. unfold olen. lia. Qed.

Lemma take_olen_app a b : take (Z.to_nat (olen a)) (a ++ b) = a.
Proof. unfold olen. by rewrite Nat2Z.id, take_app_length. Qed.

Lemma drop_olen_app a b : drop (Z.to_nat (olen a)) (a ++ b) = b.
Proof. unfold olen. by rewrite Nat2Z.id, drop_app_length. Qed.

Lemma olen_string s : olen (String.list_ascii_of_string s) = zlen s.
Proof. unfold olen, zlen. f_equal. induction s; simpl; [done|by f_equal]. Qed.

(** Bits that do not overlap *)
Lemma lor_shiftl a b n : 0 ≤ n → 0 ≤ b < 2 ^ n → Z.lor (Z.shiftl a n) b = a * 2 ^ n + b.
Proof.
  intros Hn Hb. rewrite <- Z.shiftl_mul_pow2 by done. symmetry. apply Z.add_nocarry_lor.
  apply Z.bits_inj'. intros i Hi. rewrite Z.land_spec, Z.bits_0.
  destruct (Z.lt_ge_cases i n) as [H|H].
  - rewrite Z.shiftl_spec_low by done. done.
  - rewrite andb_false_iff. right. rewrite Z.testbit_false by done.
    rewrite Z.div_small; [done|]. split; [lia|]. apply Z.lt_le_trans with (2 ^ n); [lia|].
    apply Z.pow_le_mono_r; lia.
Qed.

#[export] Hint Resolve octet_value_bound olen_nonneg : core.
