(* ===== verification/Status.v ===== *)
(** * Errors and statuses

    The error and status values of the three layers and the conversions between
    them: the C header's error codes with the library's error strings
    ([src/src/c_api.zig]), [grpc_lite::Error] and [grpc_lite::Status]
    ([cpp/status.hpp]), [grpc::Status] ([grpcpp/support/status.h]), and the
    mappings of [grpcpp/impl/blocking_call.h], [cpp/typed_service.hpp] and
    [cpp/sync_service.hpp].

    A scoped C++ enum with a fixed underlying type can hold every value of that
    type, so [ErrorCode] and [StatusCode] of namespace [grpc_lite] are integers
    with named values; [grpc::StatusCode] is only ever produced from its own
    enumerators and is an inductive type. *)

From S2P Require Import Prelude.

Local Open Scope Z_scope.

(** ** The C header's constants *)

Definition GRPC_LITE_ABI_MAJOR : Z := 1.
Definition GRPC_LITE_ABI_MINOR : Z := 9.
Definition GRPC_LITE_ABI_VERSION : Z :=
  Z.lor (Z.shiftl GRPC_LITE_ABI_MAJOR 16) GRPC_LITE_ABI_MINOR.

Definition GRPC_LITE_OK : Z := 0.
Definition GRPC_LITE_ERROR_INVALID_ARGUMENT : Z := 1.
Definition GRPC_LITE_ERROR_INVALID_STATE : Z := 2.
Definition GRPC_LITE_ERROR_OUT_OF_MEMORY : Z := 3.
Definition GRPC_LITE_ERROR_UNSUPPORTED : Z := 4.
Definition GRPC_LITE_ERROR_UNAVAILABLE : Z := 5.
Definition GRPC_LITE_ERROR_OUT_OF_RANGE : Z := 6.
Definition GRPC_LITE_ERROR_CLOSED : Z := 7.
Definition GRPC_LITE_ERROR_WOULD_BLOCK : Z := 8.
Definition GRPC_LITE_ERROR_INTERNAL : Z := 255.

Definition GRPC_LITE_COMPRESSION_IDENTITY : Z := 0.
Definition GRPC_LITE_COMPRESSION_GZIP : Z := 1.
Definition GRPC_LITE_RECEIVE_CONTINUE : Z := 0.
Definition GRPC_LITE_RECEIVE_PAUSE : Z := 1.

(** ** The library's error enum *)

(** [pub const Error = enum(i32)] *)
Inductive ZError : Set :=
  | ok | invalid_argument | invalid_state | out_of_memory | unsupported
  | unavailable | out_of_range | closed | would_block | internal.

#[export] Instance ZError_eq_dec : EqDecision ZError.
Proof. solve_decision. Defined.

Definition ZError_backing (e : ZError) : Z :=
  match e with
  | ok => 0 | invalid_argument => 1 | invalid_state => 2 | out_of_memory => 3
  | unsupported => 4 | unavailable => 5 | out_of_range => 6 | closed => 7
  | would_block => 8 | internal => 255
  end.

(** [std.enums.fromInt(Error, error_code)] *)
Definition ZError_fromInt (z : Z) : option ZError :=
  match z with
  | 0 => Some ok | 1 => Some invalid_argument | 2 => Some invalid_state
  | 3 => Some out_of_memory | 4 => Some unsupported | 5 => Some unavailable
  | 6 => Some out_of_range | 7 => Some closed | 8 => Some would_block
  | 255 => Some internal
  | _ => None
  end.

Definition grpc_lite_error_string (error_code : Z) : string :=
  match ZError_fromInt error_code with
  | None => "unknown error"
  | Some ok => "ok"
  | Some invalid_argument => "invalid argument"
  | Some invalid_state => "invalid state"
  | Some out_of_memory => "out of memory"
  | Some unsupported => "unsupported"
  | Some unavailable => "unavailable"
  | Some out_of_range => "out of range"
  | Some closed => "closed"
  | Some would_block => "would block"
  | Some internal => "internal error"
  end.

(** ** [grpc_lite::Error] *)

Module ErrorCode.
Definition Ok : Z := GRPC_LITE_OK.
Definition InvalidArgument : Z := GRPC_LITE_ERROR_INVALID_ARGUMENT.
Definition InvalidState : Z := GRPC_LITE_ERROR_INVALID_STATE.
Definition OutOfMemory : Z := GRPC_LITE_ERROR_OUT_OF_MEMORY.
Definition Unsupported : Z := GRPC_LITE_ERROR_UNSUPPORTED.
Definition Unavailable : Z := GRPC_LITE_ERROR_UNAVAILABLE.
Definition OutOfRange : Z := GRPC_LITE_ERROR_OUT_OF_RANGE.
Definition Closed : Z := GRPC_LITE_ERROR_CLOSED.
Definition WouldBlock : Z := GRPC_LITE_ERROR_WOULD_BLOCK.
Definition Internal : Z := GRPC_LITE_ERROR_INTERNAL.
End ErrorCode.

Record Error := mkError { error_code : Z }.

#[export] Instance Error_eq_dec : EqDecision Error.
Proof. solve_decision. Defined.

(** [Error()] and [return {}] *)
Definition Error_default : Error := mkError ErrorCode.Ok.

(** [Error(grpc_lite_error)] on the value a C function returned *)
Definition Error_of_c (e : ZError) : Error := mkError (ZError_backing e).

Definition Error_ok (e : Error) : bool := error_code e =? ErrorCode.Ok.

Definition Error_is (e : Error) (code : Z) : bool := error_code e =? code.

Definition Error_message (e : Error) : string := grpc_lite_error_string (error_code e).

(** ** [grpc_lite::Status] *)

Module StatusCode.
Definition Ok : Z := 0.
Definition Cancelled : Z := 1.
Definition Unknown : Z := 2.
Definition InvalidArgument : Z := 3.
Definition DeadlineExceeded : Z := 4.
Definition NotFound : Z := 5.
Definition AlreadyExists : Z := 6.
Definition PermissionDenied : Z := 7.
Definition ResourceExhausted : Z := 8.
Definition FailedPrecondition : Z := 9.
Definition Aborted : Z := 10.
Definition OutOfRange : Z := 11.
Definition Unimplemented : Z := 12.
Definition Internal : Z := 13.
Definition Unavailable : Z := 14.
Definition DataLoss : Z := 15.
Definition Unauthenticated : Z := 16.
End StatusCode.

Record Status := mkStatus { status_code : Z; status_message : string }.

#[export] Instance Status_eq_dec : EqDecision Status.
Proof. solve_decision. Defined.

Definition Status_default : Status := mkStatus StatusCode.Ok "".
Definition Status_ok (s : Status) : bool := status_code s =? StatusCode.Ok.

(** ** [grpc_lite::Compression] and [grpc_lite::ReceiveAction] *)

Inductive Compression : Set := Identity | Gzip.

#[export] Instance Compression_eq_dec : EqDecision Compression.
Proof. solve_decision. Defined.

Definition Compression_value (c : Compression) : Z :=
  match c with
  | Identity => GRPC_LITE_COMPRESSION_IDENTITY
  | Gzip => GRPC_LITE_COMPRESSION_GZIP
  end.

(** [fn parseCompression] of the C API *)
Definition parseCompression (value : Z) : option Compression :=
  match value with 0 => Some Identity | 1 => Some Gzip | _ => None end.

(** The algorithms of the grpc++ interface; the C enumeration also holds a value that has
    no name. *)
Inductive grpc_compression_algorithm : Set :=
  | GRPC_COMPRESS_NONE | GRPC_COMPRESS_DEFLATE | GRPC_COMPRESS_GZIP
  | unnamed_compression_algorithm.

Inductive ReceiveAction : Set := Continue | Pause.

#[export] Instance ReceiveAction_eq_dec : EqDecision ReceiveAction.
Proof. solve_decision. Defined.

Definition ReceiveAction_value (a : ReceiveAction) : Z :=
  match a with
  | Continue => GRPC_LITE_RECEIVE_CONTINUE
  | Pause => GRPC_LITE_RECEIVE_PAUSE
  end.

(** ** [grpc::Status] *)

Inductive grpc_StatusCode : Set :=
  | OK | CANCELLED | UNKNOWN | INVALID_ARGUMENT | DEADLINE_EXCEEDED | NOT_FOUND
  | ALREADY_EXISTS | PERMISSION_DENIED | RESOURCE_EXHAUSTED | FAILED_PRECONDITION
  | ABORTED | OUT_OF_RANGE | UNIMPLEMENTED | INTERNAL | UNAVAILABLE | DATA_LOSS
  | UNAUTHENTICATED.

#[export] Instance grpc_StatusCode_eq_dec : EqDecision grpc_StatusCode.
Proof. solve_decision. Defined.

Definition grpc_StatusCode_value (c : grpc_StatusCode) : Z :=
  match c with
  | OK => 0 | CANCELLED => 1 | UNKNOWN => 2 | INVALID_ARGUMENT => 3
  | DEADLINE_EXCEEDED => 4 | NOT_FOUND => 5 | ALREADY_EXISTS => 6
  | PERMISSION_DENIED => 7 | RESOURCE_EXHAUSTED => 8 | FAILED_PRECONDITION => 9
  | ABORTED => 10 | OUT_OF_RANGE => 11 | UNIMPLEMENTED => 12 | INTERNAL => 13
  | UNAVAILABLE => 14 | DATA_LOSS => 15 | UNAUTHENTICATED => 16
  end.

(** [static_cast<grpc::StatusCode>(value)]; [None] outside the enumerators. *)
Definition grpc_StatusCode_cast (value : Z) : option grpc_StatusCode :=
  match value with
  | 0 => Some OK | 1 => Some CANCELLED | 2 => Some UNKNOWN
  | 3 => Some INVALID_ARGUMENT | 4 => Some DEADLINE_EXCEEDED | 5 => Some NOT_FOUND
  | 6 => Some ALREADY_EXISTS | 7 => Some PERMISSION_DENIED
  | 8 => Some RESOURCE_EXHAUSTED | 9 => Some FAILED_PRECONDITION
  | 10 => Some ABORTED | 11 => Some OUT_OF_RANGE | 12 => Some UNIMPLEMENTED
  | 13 => Some INTERNAL | 14 => Some UNAVAILABLE | 15 => Some DATA_LOSS
  | 16 => Some UNAUTHENTICATED
  | _ => None
  end.

Record grpc_Status := mkgStatus {
  gs_code : grpc_StatusCode;
  gs_message : string;
  gs_details : string }.

#[export] Instance grpc_Status_eq_dec : EqDecision grpc_Status.
Proof. solve_decision. Defined.

Definition grpc_Status_default : grpc_Status := mkgStatus OK "" "".
Definition grpc_Status_make (code : grpc_StatusCode) (message : string) : grpc_Status :=
  mkgStatus code message "".
Definition grpc_Status_ok (s : grpc_Status) : bool := bool_decide (gs_code s = OK).

(** ** Conversions between the layers *)

(** [grpc::internal::ErrorStatus] *)
Definition ErrorStatus (error : Error) : grpc_Status :=
  let c := error_code error in
  if c =? ErrorCode.Ok then grpc_Status_default
  else
    let code :=
      if c =? ErrorCode.InvalidArgument then INVALID_ARGUMENT
      else if c =? ErrorCode.InvalidState then FAILED_PRECONDITION
      else if c =? ErrorCode.OutOfMemory then RESOURCE_EXHAUSTED
      else if c =? ErrorCode.Unsupported then UNIMPLEMENTED
      else if (c =? ErrorCode.Unavailable) || (c =? ErrorCode.Closed) then UNAVAILABLE
      else if c =? ErrorCode.OutOfRange then OUT_OF_RANGE
      else if c =? ErrorCode.WouldBlock then RESOURCE_EXHAUSTED
      else if c =? ErrorCode.Internal then INTERNAL
      else UNKNOWN in
    grpc_Status_make code (Error_message error).

(** [grpc::internal::NativeStatus]: a status received from the transport *)
Definition client_NativeStatus (status : Status) : grpc_Status :=
  let value := status_code status in
  if (value <? grpc_StatusCode_value OK) || (value >? grpc_StatusCode_value UNAUTHENTICATED)
  then grpc_Status_make UNKNOWN (status_message status)
  else match grpc_StatusCode_cast value with
       | Some code => grpc_Status_make code (status_message status)
       | None => grpc_Status_make UNKNOWN (status_message status)
       end.

(** [grpc_lite::internal::NativeStatus]: a status returned by a handler *)
Definition server_NativeStatus (status : grpc_Status) : Status :=
  mkStatus (grpc_StatusCode_value (gs_code status)) (gs_message status).

(** [grpc_lite::internal::SendErrorStatus] *)
Definition SendErrorStatus (error : Error) : Status :=
  if Error_is error ErrorCode.WouldBlock || Error_is error ErrorCode.OutOfMemory ||
     Error_is error ErrorCode.OutOfRange
  then mkStatus StatusCode.ResourceExhausted (Error_message error)
  else mkStatus StatusCode.Internal (Error_message error).

(** ** Lemmas *)

Lemma ZError_fromInt_backing e : ZError_fromInt (ZError_backing e) = Some e.
Proof. by destruct e. Qed.

Lemma ZError_fromInt_Some z e : ZError_fromInt z = Some e → z = ZError_backing e.
Proof.
  unfold ZError_fromInt. repeat (case_match; try done); by intros [= <-].
Qed.

Lemma Error_of_c_ok e : Error_ok (Error_of_c e) = bool_decide (e = ok).
Proof. by destruct e. Qed.

Lemma Error_ok_eq e : Error_ok e = true ↔ e = Error_default.
Proof.
  unfold Error_ok, Error_default. destruct e as [c]; simpl.
  rewrite Z.eqb_eq. split; [by intros ->|by intros [= ->]].
Qed.

Lemma Error_ok_default : Error_ok Error_default = true.
Proof. done. Qed.

Lemma parseCompression_value c : parseCompression (Compression_value c) = Some c.
Proof. by destruct c. Qed.

Lemma grpc_StatusCode_cast_value c : grpc_StatusCode_cast (grpc_StatusCode_value c) = Some c.
Proof. by destruct c. Qed.

Lemma grpc_StatusCode_value_range c : 0 ≤ grpc_StatusCode_value c ≤ 16.
Proof. by destruct c. Qed.

Lemma grpc_StatusCode_cast_range z :
  0 ≤ z ≤ 16 → ∃ c, grpc_StatusCode_cast z = Some c ∧ grpc_StatusCode_value c = z.
Proof.
  intros Hz.
  assert (z = 0 ∨ z = 1 ∨ z = 2 ∨ z = 3 ∨ z = 4 ∨ z = 5 ∨ z = 6 ∨ z = 7 ∨ z = 8 ∨ z = 9
          ∨ z = 10 ∨ z = 11 ∨ z = 12 ∨ z = 13 ∨ z = 14 ∨ z = 15 ∨ z = 16) as Hcases by lia.
  repeat destruct Hcases as [->|Hcases]; subst; simpl; eauto.
Qed.

#[export] Hint Rewrite ZError_fromInt_backing parseCompression_value
  grpc_StatusCode_cast_value : grpc.

Lemma ErrorStatus_ok e : grpc_Status_ok (ErrorStatus e) = Error_ok e.
Proof.
  unfold ErrorStatus, Error_ok. destruct (error_code e =? ErrorCode.Ok); [done|].
  unfold grpc_Status_ok. simpl. by repeat case_match.
Qed.

Lemma client_NativeStatus_ok s : grpc_Status_ok (client_NativeStatus s) = Status_ok s.
Proof.
  unfold client_NativeStatus, Status_ok, StatusCode.Ok. rewrite Z.gtb_ltb.
  destruct (Z.ltb_spec (status_code s) (grpc_StatusCode_value OK)) as [H|H]; simpl in *.
  { by destruct (Z.eqb_spec (status_code s) 0); [lia|]. }
  destruct (Z.ltb_spec 16 (status_code s)) as [H'|H'].
  { by destruct (Z.eqb_spec (status_code s) 0); [lia|]. }
  destruct (grpc_StatusCode_cast_range (status_code s)) as (c & -> & <-); [lia|].
  by destruct c.
Qed.

(** ** Properties *)

(** A status a handler returns is the status the client sees: sent through the
    server's conversion and received through the client's, the code and the
    message are unchanged for every code, and only the details, which the wire
    format of this layer does not carry, are emptied. *)
Lemma status_roundtrip (s : grpc_Status) :
  client_NativeStatus (server_NativeStatus s) =
  grpc_Status_make (gs_code s) (gs_message s).
Proof.
  unfold client_NativeStatus, server_NativeStatus. simpl.
  pose proof (grpc_StatusCode_value_range (gs_code s)).
  rewrite grpc_StatusCode_cast_value.
  destruct (Z.ltb_spec (grpc_StatusCode_value (gs_code s)) 0); [lia|].
  rewrite Z.gtb_ltb. destruct (Z.ltb_spec 16 (grpc_StatusCode_value (gs_code s))); [lia|done].
Qed.

(** No conversion between the layers turns a failure into a success or a success
    into a failure: C errors to [grpc::Status], received statuses to
    [grpc::Status] (codes outside 0..16 included), handler statuses to
    [grpc_lite::Status]; and the status reported for a failed send is never OK. *)
Lemma conversions_preserve_ok :
  (∀ e, grpc_Status_ok (ErrorStatus e) = Error_ok e) ∧
  (∀ s, grpc_Status_ok (client_NativeStatus s) = Status_ok s) ∧
  (∀ s, Status_ok (server_NativeStatus s) = grpc_Status_ok s) ∧
  (∀ e, Status_ok (SendErrorStatus e) = false).
Proof.
  split_and!; intros.
  - apply ErrorStatus_ok.
  - apply client_NativeStatus_ok.
  - by destruct s as [[] ? ?].
  - unfold SendErrorStatus. by case_match.
Qed.

(** The C++ enumerators are the library's error codes, and the text of an error
    determines the code: the strings of two distinct library errors differ, and
    every code outside the enum reads "unknown error". *)
Lemma error_codes_agree :
  (∀ e1 e2, Error_message (Error_of_c e1) = Error_message (Error_of_c e2) → e1 = e2) ∧
  (∀ z, ZError_fromInt z = None ↔ grpc_lite_error_string z = "unknown error"%string) ∧
  Error_of_c would_block = mkError ErrorCode.WouldBlock ∧
  Error_of_c closed = mkError ErrorCode.Closed ∧
  Error_of_c unavailable = mkError ErrorCode.Unavailable ∧
  Error_of_c internal = mkError ErrorCode.Internal ∧
  Error_of_c out_of_range = mkError ErrorCode.OutOfRange ∧
  Error_of_c out_of_memory = mkError ErrorCode.OutOfMemory ∧
  Error_of_c unsupported = mkError ErrorCode.Unsupported ∧
  Error_of_c invalid_state = mkError ErrorCode.InvalidState ∧
  Error_of_c invalid_argument = mkError ErrorCode.InvalidArgument ∧
  Error_of_c ok = mkError ErrorCode.Ok.
Proof.
  split_and!; try done.
  - by intros [] [].
  - intros z. unfold grpc_lite_error_string. by destruct (ZError_fromInt z) as [[]|].
Qed.
