(* ===== verification/Metadata.v ===== *)
(** * Metadata

    The metadata store of the library ([src/src/metadata.zig] and the metadata
    functions of [src/src/c_api.zig]) and the [grpc_lite::Metadata] class over it
    ([cpp/metadata.hpp]), with the copy between a [grpc::ServerContext] multimap
    and a metadata handle ([cpp/sync_service.hpp]).

    Handles live in a heap; using a destroyed handle is undefined behaviour.
    Whether the library's allocations succeed is part of the heap state: one
    boolean for each call that allocates, [true] when the list is exhausted.
    Allocations of the C++ standard library are assumed to succeed. *)

From S2P Require Import Prelude Status.

(** ** Byte views *)

(** [grpc_lite_bytes_view]: a pointer, [None] when null, to the bytes it can
    read, and a size. *)
Record BytesView := mkBytesView { bv_data : option string; bv_size : Z }.

(** [internal::Bytes]: [std::string_view::data] of a [std::string] is not null. *)
Definition Bytes (value : string) : BytesView := mkBytesView (Some value) (zlen value).

(** [internal::CopyBytes]; [None] is a read through a null pointer. *)
Definition CopyBytes (value : BytesView) : option string :=
  if (bv_size value =? 0)%Z then Some ""%string
  else match bv_data value with
       | Some s => Some (String.substring 0 (Z.to_nat (bv_size value)) s)
       | None => None
       end.

(** [fn bytes] of the C API *)
Definition bytes (value : BytesView) : option string :=
  if (bv_size value =? 0)%Z then Some ""%string
  else match bv_data value with
       | Some pointer => Some (String.substring 0 (Z.to_nat (bv_size value)) pointer)
       | None => None
       end.

(** [fn view] of the C API *)
Definition view (value : string) : BytesView :=
  mkBytesView (if (zlen value =? 0)%Z then None else Some value) (zlen value).

(** ** Keys and values *)

Definition starts_with (prefix s : string) : bool := String.prefix prefix s.

Definition ends_with (suffix s : string) : bool :=
  (String.length suffix <=? String.length s)%nat &&
  String.eqb (String.substring (String.length s - String.length suffix)
                (String.length suffix) s) suffix.

Definition isKeyByte (byte : Ascii.ascii) : bool :=
  let b := Ascii.N_of_ascii byte in
  ((97 <=? b) && (b <=? 122) || (48 <=? b) && (b <=? 57) || (b =? 45) || (b =? 95) || (b =? 46))%N.

Definition isValidKey (key : string) : bool :=
  match key with
  | EmptyString => false
  | String first _ =>
      if (Ascii.N_of_ascii first =? 58)%N then false
      else forallb isKeyByte (String.list_ascii_of_string key)
  end.

Definition isApplicationKey (key : string) : bool :=
  isValidKey key && negb (starts_with "grpc-" key).

Definition isValidAsciiValue (value : string) : bool :=
  match value with
  | EmptyString => false
  | _ => forallb (λ byte, let b := Ascii.N_of_ascii byte in ((32 <=? b) && (b <=? 126))%N)
           (String.list_ascii_of_string value)
  end.

Definition isBinaryKey (key : string) : bool := ends_with "-bin" key.

(** What [append] accepts. *)
Definition valid_entry (e : string * string) : bool :=
  isApplicationKey e.1 && (isBinaryKey e.1 || isValidAsciiValue e.2).

(** ** The heap of metadata handles *)

Abbreviation ptr := (option nat).
Abbreviation entries := (list (string * string)).

Record MetadataHeap := mkHeap {
  mh_objects : gmap nat entries;
  mh_next : nat;
  mh_allocations : list bool }.

#[export] Instance eta_MetadataHeap : Eta MetadataHeap :=
  λ h, mkHeap (mh_objects h) (mh_next h) (mh_allocations h).

Abbreviation heapM := (UB MetadataHeap).

Definition allocations_succeed : heapM bool := λ h,
  match mh_allocations h with
  | [] => Some (true, h)
  | b :: rest => Some (b, h <| mh_allocations := rest |>)
  end.

(** [metadataStorage(handle)]: undefined when the handle is not live. *)
Definition metadataStorage (handle : nat) : heapM entries := λ h,
  match mh_objects h !! handle with Some es => Some (es, h) | None => None end.

Definition store (handle : nat) (es : entries) : heapM () := λ h,
  Some ((), h <| mh_objects := <[handle := es]> (mh_objects h) |>).

(** ** The C functions *)

Definition grpc_lite_metadata_create : heapM (ZError * ptr) :=
  fits ← allocations_succeed;
  if fits : bool then
    h ← get;
    put (h <| mh_objects := <[mh_next h := []]> (mh_objects h) |>
           <| mh_next := S (mh_next h) |>);;
    mret (ok, Some (mh_next h))
  else mret (out_of_memory, None).

Definition grpc_lite_metadata_destroy (metadata_handle : ptr) : heapM () :=
  match metadata_handle with
  | None => mret ()
  | Some handle =>
      _ ← metadataStorage handle;
      h ← get;
      put (h <| mh_objects := delete handle (mh_objects h) |>)
  end.

Inductive AppendError : Set := InvalidMetadataKey | InvalidMetadataValue | AppendOutOfMemory.

(** [Metadata.append] of the library, on the entries of a handle *)
Definition Metadata_append (handle : nat) (key value : string) : heapM (option AppendError) :=
  if negb (isApplicationKey key) then mret (Some InvalidMetadataKey)
  else if negb (isBinaryKey key) && negb (isValidAsciiValue value)
  then mret (Some InvalidMetadataValue)
  else
    fits ← allocations_succeed;
    if fits : bool then
      es ← metadataStorage handle;
      store handle (es ++ [(key, value)]);;
      mret None
    else mret (Some AppendOutOfMemory).

Definition grpc_lite_metadata_add (metadata_handle : ptr) (key value : BytesView)
  : heapM ZError :=
  match metadata_handle, bytes key, bytes value with
  | Some handle, Some key_bytes, Some value_bytes =>
      _ ← metadataStorage handle;
      r ← Metadata_append handle key_bytes value_bytes;
      mret match r with
           | None => ok
           | Some AppendOutOfMemory => out_of_memory
           | Some InvalidMetadataKey | Some InvalidMetadataValue => invalid_argument
           end
  | _, _, _ => mret invalid_argument
  end.

Definition grpc_lite_metadata_count (metadata_handle : ptr) : heapM nat :=
  match metadata_handle with
  | None => mret 0
  | Some handle => es ← metadataStorage handle; mret (length es)
  end.

(** The entry is [None] where the function returns an error, the output then
    being the empty view. *)
Definition grpc_lite_metadata_at (metadata_handle : ptr) (index : nat)
  : heapM (ZError * option (BytesView * BytesView)) :=
  match metadata_handle with
  | None => mret (invalid_argument, None)
  | Some handle =>
      es ← metadataStorage handle;
      mret match es !! index with
           | None => (out_of_range, None)
           | Some e => (ok, Some (view e.1, view e.2))
           end
  end.

(** ** [grpc_lite::Metadata]

    An object is its [metadata_] member. *)

Definition Metadata_default : ptr := None.

Definition Metadata_destructor (metadata_ : ptr) : heapM () :=
  grpc_lite_metadata_destroy metadata_.

(** [*out = Metadata(metadata)]: the move assignment from a temporary. *)
Definition Metadata_assign_temporary (metadata_ temporary : ptr) : heapM ptr :=
  grpc_lite_metadata_destroy metadata_;;
  mret temporary.

(** [out] is [None] for a null pointer; the result is the error and the value of
    [*out] afterwards. *)
Definition Metadata_Create (out : option ptr) : heapM (Error * option ptr) :=
  match out with
  | None => mret (mkError ErrorCode.InvalidArgument, None)
  | Some old =>
      r ← grpc_lite_metadata_create;
      let error := Error_of_c r.1 in
      if negb (Error_ok error) then mret (error, Some old)
      else
        new ← Metadata_assign_temporary old r.2;
        mret (Error_default, Some new)
  end.

Definition Metadata_Add (metadata_ : ptr) (key value : string) : heapM Error :=
  match metadata_ with
  | None => mret (mkError ErrorCode.InvalidState)
  | Some _ =>
      e ← grpc_lite_metadata_add metadata_ (Bytes key) (Bytes value);
      mret (Error_of_c e)
  end.

Definition Metadata_size (metadata_ : ptr) : heapM nat :=
  match metadata_ with None => mret 0 | Some _ => grpc_lite_metadata_count metadata_ end.

Definition Metadata_empty (metadata_ : ptr) : heapM bool :=
  n ← Metadata_size metadata_; mret (n =? 0)%nat.

(** [key] and [value] say whether the output pointers are not null. *)
Definition Metadata_At (metadata_ : ptr) (index : nat) (key value : bool)
  : heapM (Error * option (string * string)) :=
  match metadata_ with
  | None => mret (mkError ErrorCode.InvalidState, None)
  | Some _ =>
      if negb key || negb value then mret (mkError ErrorCode.InvalidArgument, None)
      else
        r ← grpc_lite_metadata_at metadata_ index;
        let error := Error_of_c r.1 in
        if negb (Error_ok error) then mret (error, None)
        else match r.2 with
             | Some (k, v) =>
                 match CopyBytes k, CopyBytes v with
                 | Some k', Some v' => mret (Error_default, Some (k', v'))
                 | _, _ => undefined
                 end
             | None => undefined
             end
  end.

(** The loop of [CopyEntries]; [fuel] bounds the iterations, [None] when it runs
    out. *)
Fixpoint CopyEntries_loop (fuel : nat) (metadata_ : ptr) (index : nat) (acc : entries)
  : heapM (option (Error * entries)) :=
  match fuel with
  | 0 => mret None
  | S fuel' =>
      n ← Metadata_size metadata_;
      if (index <? n)%nat then
        r ← Metadata_At metadata_ index true true;
        if negb (Error_ok r.1) then mret (Some (r.1, acc))
        else match r.2 with
             | Some kv => CopyEntries_loop fuel' metadata_ (S index) (acc ++ [kv])
             | None => undefined
             end
      else mret (Some (Error_default, acc))
  end.

(** [out] says whether the output pointer is not null; the entries are what is
    assigned to [*out], [None] when nothing is. *)
Definition Metadata_CopyEntries (fuel : nat) (metadata_ : ptr) (out : bool)
  : heapM (option (Error * option entries)) :=
  if negb out then mret (Some (mkError ErrorCode.InvalidArgument, None))
  else
    r ← CopyEntries_loop fuel metadata_ 0 [];
    mret match r with
         | None => None
         | Some (error, acc) =>
             if Error_ok error then Some (Error_default, Some acc) else Some (error, None)
         end.

(** The loop of [internal::CopyMetadata] over a multimap *)
Fixpoint AddAll (es : multimap) (metadata : ptr) : heapM Error :=
  match es with
  | [] => mret Error_default
  | entry :: rest =>
      error ← Metadata_Add metadata entry.1 entry.2;
      if negb (Error_ok error) then mret error else AddAll rest metadata
  end.

(** [internal::CopyMetadata(entries, &metadata)]: the error and the value of
    [metadata] afterwards. *)
Definition CopyMetadata (es : multimap) (metadata : ptr) : heapM (Error * ptr) :=
  r ← Metadata_Create (Some metadata);
  match r with
  | (error, Some created) =>
      if negb (Error_ok error) then mret (error, created)
      else
        error ← AddAll es created;
        mret (error, created)
  | (error, None) => undefined
  end.

(** ** Metadata views *)

(** [grpc_lite_metadata_view_at] and [_count] on the entries a borrowed view
    shows *)
Definition grpc_lite_metadata_view_count (view_handle : option entries) : nat :=
  match view_handle with None => 0 | Some es => length es end.

Definition grpc_lite_metadata_view_at (view_handle : option entries) (index : nat)
  : ZError * option (BytesView * BytesView) :=
  match view_handle with
  | None => (invalid_argument, None)
  | Some es =>
      match es !! index with
      | None => (out_of_range, None)
      | Some e => (ok, Some (view e.1, view e.2))
      end
  end.

(** The loop of [internal::CopyMetadataView] from [index], [fuel] entries left to
    count; [None] is a read through a null pointer. *)
Fixpoint CopyMetadataView_loop (fuel : nat) (v : option entries) (index : nat)
  : option entries :=
  match fuel with
  | 0 => Some []
  | S fuel' =>
      match grpc_lite_metadata_view_at v index with
      | (ok, Some (k, v')) =>
          key ← CopyBytes k;
          value ← CopyBytes v';
          rest ← CopyMetadataView_loop fuel' v (S index);
          Some ((key, value) :: rest)
      | _ => Some []
      end
  end.

Definition CopyMetadataView (v : option entries) : option entries :=
  match v with
  | None => Some []
  | Some _ => CopyMetadataView_loop (grpc_lite_metadata_view_count v) v 0
  end.

(** ** Lemmas *)

Lemma substring_full s : String.substring 0 (String.length s) s = s.
Proof. induction s as [|c s IH]; [done|]. simpl. by rewrite IH. Qed.

Lemma zlen_0 s : (zlen s =? 0)%Z = true → s = ""%string.
Proof. by destruct s. Qed.

Lemma bytes_Bytes s : bytes (Bytes s) = Some s.
Proof.
  unfold bytes, Bytes. simpl. destruct (zlen s =? 0)%Z eqn:E.
  - by rewrite (zlen_0 _ E).
  - unfold zlen. by rewrite Nat2Z.id, substring_full.
Qed.

Lemma CopyBytes_view s : CopyBytes (view s) = Some s.
Proof.
  unfold CopyBytes, view. simpl. destruct (zlen s =? 0)%Z eqn:E.
  - by rewrite (zlen_0 _ E).
  - unfold zlen. by rewrite Nat2Z.id, substring_full.
Qed.

#[export] Hint Rewrite bytes_Bytes CopyBytes_view : grpc.

(** Every live handle was handed out before. *)
Definition heap_ok (h : MetadataHeap) : Prop :=
  ∀ n, n ∈ dom (mh_objects h) → n < mh_next h.

(** A wrapper's pointer is null or live. *)
Definition live (h : MetadataHeap) (p : ptr) : Prop :=
  match p with None => True | Some n => is_Some (mh_objects h !! n) end.

(** Whether the next call that allocates gets its memory, and the outcomes left. *)
Definition next_alloc (h : MetadataHeap) : bool := default true (head (mh_allocations h)).
Definition after_alloc (h : MetadataHeap) : MetadataHeap :=
  h <| mh_allocations := tail (mh_allocations h) |>.

Lemma allocations_succeed_eq h : allocations_succeed h = Some (next_alloc h, after_alloc h).
Proof. unfold allocations_succeed. by destruct h as [? ? [|? ?]]. Qed.

Lemma metadata_create_eq h :
  grpc_lite_metadata_create h =
  Some (if next_alloc h
        then ((ok, Some (mh_next h)),
              mkHeap (<[mh_next h := []]> (mh_objects h)) (S (mh_next h))
                     (tail (mh_allocations h)))
        else ((out_of_memory, None), after_alloc h)).
Proof.
  unfold grpc_lite_metadata_create, mbind, ub_bind. rewrite allocations_succeed_eq.
  by destruct (next_alloc h).
Qed.

Lemma metadata_destroy_eq h p :
  live h p →
  grpc_lite_metadata_destroy p h =
  Some ((), match p with
            | None => h
            | Some n => h <| mh_objects := delete n (mh_objects h) |>
            end).
Proof.
  destruct p as [n|]; [|done]. intros [es Hes]. simpl in *.
  unfold mbind, ub_bind, metadataStorage. simpl. by rewrite Hes.
Qed.

Lemma Metadata_append_eq h n es k v :
  mh_objects h !! n = Some es →
  Metadata_append n k v h =
  Some (if valid_entry (k, v)
        then if next_alloc h
             then (None, (after_alloc h) <| mh_objects := <[n := es ++ [(k, v)]]> (mh_objects h) |>)
             else (Some AppendOutOfMemory, after_alloc h)
        else (Some (if isApplicationKey k then InvalidMetadataValue else InvalidMetadataKey), h)).
Proof.
  intros Hes. unfold Metadata_append, valid_entry. simpl.
  destruct (isApplicationKey k); [|done].
  destruct (isBinaryKey k); simpl; [|destruct (isValidAsciiValue v); simpl; [|done]].
  all: unfold mbind, ub_bind; rewrite allocations_succeed_eq;
    destruct (next_alloc h); [|done];
    unfold metadataStorage, after_alloc; simpl; by rewrite Hes.
Qed.

(** [Metadata::Add] on a live handle. *)
Definition Add_result (h : MetadataHeap) (n : nat) (es : entries) (k v : string)
  : Error * MetadataHeap :=
  if valid_entry (k, v) then
    if next_alloc h
    then (Error_default,
          (after_alloc h) <| mh_objects := <[n := es ++ [(k, v)]]> (mh_objects h) |>)
    else (mkError ErrorCode.OutOfMemory, after_alloc h)
  else (mkError ErrorCode.InvalidArgument, h).

Lemma Metadata_Add_eq h n es k v :
  mh_objects h !! n = Some es →
  Metadata_Add (Some n) k v h = Some (Add_result h n es k v).
Proof.
  intros Hes. unfold Metadata_Add, grpc_lite_metadata_add, Add_result.
  rewrite !bytes_Bytes. unfold mbind, ub_bind. unfold metadataStorage. rewrite Hes.
  rewrite (Metadata_append_eq _ _ _ _ _ Hes).
  destruct (valid_entry (k, v)); [by destruct (next_alloc h)|].
  by destruct (isApplicationKey k).
Qed.

Lemma Metadata_size_eq h n es :
  mh_objects h !! n = Some es → Metadata_size (Some n) h = Some (length es, h).
Proof.
  intros Hes. unfold Metadata_size, grpc_lite_metadata_count, mbind, ub_bind, metadataStorage.
  by rewrite Hes.
Qed.

Lemma Metadata_At_eq h n es i :
  mh_objects h !! n = Some es →
  Metadata_At (Some n) i true true h =
  Some (match es !! i with
        | Some e => (Error_default, Some e)
        | None => (mkError ErrorCode.OutOfRange, None)
        end, h).
Proof.
  intros Hes. unfold Metadata_At, grpc_lite_metadata_at, mbind, ub_bind, metadataStorage.
  simpl. rewrite Hes. destruct (es !! i) as [[k v]|]; [|done]. simpl.
  by rewrite !CopyBytes_view.
Qed.

Lemma CopyEntries_loop_eq h n es fuel i acc :
  mh_objects h !! n = Some es → length es - i < fuel →
  CopyEntries_loop fuel (Some n) i acc h = Some (Some (Error_default, acc ++ drop i es), h).
Proof.
  intros Hes. revert i acc. induction fuel as [|fuel IH]; intros i acc Hf; [lia|].
  cbn [CopyEntries_loop]. unfold mbind, ub_bind. rewrite (Metadata_size_eq _ _ _ Hes).
  destruct (Nat.ltb_spec i (length es)) as [Hi|Hi].
  - rewrite (Metadata_At_eq _ _ _ _ Hes).
    destruct (lookup_lt_is_Some_2 es i Hi) as [e He]. rewrite He. simpl.
    rewrite IH by lia. rewrite (drop_S _ _ _ He). by rewrite <- app_assoc.
  - by rewrite drop_ge, app_nil_r by lia.
Qed.

Lemma AddAll_safe es n es0 h :
  mh_objects h !! n = Some es0 →
  ∃ e h' pre,
    AddAll es (Some n) h = Some (e, h') ∧ pre `prefix_of` es ∧
    mh_objects h' = <[n := es0 ++ pre]> (mh_objects h) ∧ mh_next h' = mh_next h ∧
    (Error_ok e = true → pre = es) ∧
    (forallb valid_entry es = true → mh_allocations h = [] →
     e = Error_default ∧ mh_allocations h' = []).
Proof.
  revert es0 h. induction es as [|[k v] es IH]; intros es0 h Hes; cbn [AddAll fst snd].
  - exists Error_default, h, []. rewrite app_nil_r, insert_id by done.
    split_and!; auto.
  - unfold mbind, ub_bind. rewrite (Metadata_Add_eq _ _ _ _ _ Hes). unfold Add_result.
    destruct (valid_entry (k, v)) eqn:Hvalid; simpl; [destruct (next_alloc h) eqn:Hal; simpl|].
    + destruct (IH (es0 ++ [(k, v)])
          ((after_alloc h) <| mh_objects := <[n := es0 ++ [(k, v)]]> (mh_objects h) |>))
        as (e & h' & pre & Hrun & Hpre & Hobj & Hnext & Hok & Hall).
      { apply lookup_insert_eq. }
      exists e, h', ((k, v) :: pre). split_and!; try done.
      * by apply prefix_cons.
      * rewrite Hobj. simpl. by rewrite insert_insert_eq, <- app_assoc.
      * intros He. by rewrite (Hok He).
      * intros [_ Hv]%andb_true_iff Ha. apply Hall; [done|]. simpl. by rewrite Ha.
    + exists (mkError ErrorCode.OutOfMemory), (after_alloc h), [].
      split_and!; try done; [apply prefix_nil|by rewrite app_nil_r, insert_id|].
      intros _ Ha. unfold next_alloc in Hal. by rewrite Ha in Hal.
    + exists (mkError ErrorCode.InvalidArgument), h, [].
      split_and!; try done; [apply prefix_nil|by rewrite app_nil_r, insert_id|].
      intros [Hv _]%andb_true_iff _. by rewrite Hv in Hvalid.
Qed.

Lemma Metadata_Create_eq h old :
  heap_ok h → live h old →
  Metadata_Create (Some old) h =
  Some (if next_alloc h
        then ((Error_default, Some (Some (mh_next h))),
              mkHeap (<[mh_next h := []]>
                        (match old with None => mh_objects h
                         | Some n => delete n (mh_objects h) end))
                     (S (mh_next h)) (tail (mh_allocations h)))
        else ((mkError ErrorCode.OutOfMemory, Some old), after_alloc h)).
Proof.
  intros Hok Hlive. unfold Metadata_Create, mbind, ub_bind. rewrite metadata_create_eq.
  destruct (next_alloc h); [|done]. simpl.
  unfold Metadata_assign_temporary, mbind, ub_bind. rewrite metadata_destroy_eq.
  - destruct old as [n|]; [|done]. simpl. rewrite delete_insert_ne; [done|].
    destruct Hlive as [es Hes]. apply elem_of_dom_2, Hok in Hes. lia.
  - destruct old as [n|]; [|done]. destruct Hlive as [es Hes]. simpl.
    rewrite lookup_insert_is_Some'. right. by exists es.
Qed.

Lemma CopyMetadataView_loop_eq es fuel i :
  length es = i + fuel → CopyMetadataView_loop fuel (Some es) i = Some (drop i es).
Proof.
  revert i. induction fuel as [|fuel IH]; intros i Hlen; simpl.
  - by rewrite drop_ge by lia.
  - destruct (lookup_lt_is_Some_2 es i) as [e He]; [lia|]. rewrite He. simpl.
    rewrite !CopyBytes_view. simpl. rewrite IH by lia. simpl.
    rewrite (drop_S _ _ _ He). by destruct e.
Qed.

(** What [CopyMetadata] does to the heap. *)
Lemma CopyMetadata_spec h es old :
  heap_ok h → live h old →
  ∃ e p h', CopyMetadata es old h = Some ((e, p), h') ∧
    heap_ok h' ∧ live h' p ∧
    ((p = old ∧ mh_objects h' = mh_objects h ∧ e = mkError ErrorCode.OutOfMemory) ∨
     (∃ pre, p = Some (mh_next h) ∧ pre `prefix_of` es ∧ (Error_ok e = true → pre = es) ∧
        mh_objects h' =
          <[mh_next h := pre]> (match old with None => mh_objects h
                                | Some n => delete n (mh_objects h) end))) ∧
    (forallb valid_entry es = true → mh_allocations h = [] →
     e = Error_default ∧ mh_allocations h' = []).
Proof.
  intros Hok Hlive. unfold CopyMetadata, mbind, ub_bind.
  rewrite (Metadata_Create_eq _ _ Hok Hlive). destruct (next_alloc h) eqn:Hal; simpl.
  - edestruct (AddAll_safe es (mh_next h) []) as (e & h' & pre & -> & Hpre & Hobj & Hnext & He & Hall).
    { apply lookup_insert_eq. }
    simpl in *. rewrite insert_insert_eq in Hobj.
    exists e, (Some (mh_next h)), h'. split_and!; [done| | | |].
    + intros m. rewrite Hobj, dom_insert_L, Hnext.
      intros [->%elem_of_singleton|Hm]%elem_of_union; [lia|].
      apply Nat.lt_lt_succ_r, Hok. destruct old as [n|]; [|done].
      rewrite dom_delete_L in Hm. by apply elem_of_difference in Hm as [? _].
    + simpl. rewrite Hobj. eexists. apply lookup_insert_eq.
    + right. exists pre. by split_and!.
    + intros Hv Ha. apply Hall; [done|]. by rewrite Ha.
  - exists (mkError ErrorCode.OutOfMemory), old, (after_alloc h).
    split_and!; try done; [by left|]. intros _ Ha. unfold next_alloc in Hal. by rewrite Ha in Hal.
Qed.

(** A [Metadata] object in a scope of its own: whatever [CopyMetadata] did, the
    destructor takes the heap back to the objects it had. *)
Lemma CopyMetadata_scope h es :
  heap_ok h →
  ∃ e p h', CopyMetadata es None h = Some ((e, p), h') ∧
    (Error_ok e = true → ∃ n, p = Some n ∧ mh_objects h' !! n = Some es) ∧
    (forallb valid_entry es = true → mh_allocations h = [] →
     e = Error_default ∧ mh_allocations h' = []) ∧
    ∃ h'', Metadata_destructor p h' = Some ((), h'') ∧ heap_ok h'' ∧
      mh_objects h'' = mh_objects h ∧ mh_allocations h'' = mh_allocations h'.
Proof.
  intros Hok. destruct (CopyMetadata_spec h es None Hok) as (e & p & h' & Hrun & Hok' & Hl & Hp & Hv);
    [done|].
  exists e, p, h'. split_and!; [done| |done|].
  - intros He. destruct Hp as [(-> & _ & ->)|(pre & -> & _ & Hpre & Hobj)]; [done|].
    exists (mh_next h). by rewrite Hobj, (Hpre He), lookup_insert_eq.
  - unfold Metadata_destructor. rewrite (metadata_destroy_eq _ _ Hl). eexists. split; [done|].
    destruct Hp as [(-> & Hobj & _)|(pre & -> & _ & _ & Hobj)]; [done|]. simpl.
    assert (Hn : mh_objects h !! mh_next h = None).
    { apply not_elem_of_dom. intros H%Hok. lia. }
    rewrite Hobj, delete_insert_id by done. split_and!; [|done|done].
    intros m Hm. apply Hok'. rewrite Hobj, dom_insert_L. set_solver.
Qed.

(** ** Properties *)

(** Adding an entry to a live handle either appends exactly that entry, or
    returns an error and leaves every handle as it was; it succeeds exactly when
    the key and value are acceptable and the library got its memory. *)
Lemma metadata_add_atomic h n es k v :
  mh_objects h !! n = Some es →
  ∃ e h', Metadata_Add (Some n) k v h = Some (e, h') ∧
    mh_objects h' =
      (if Error_ok e then <[n := es ++ [(k, v)]]> (mh_objects h) else mh_objects h) ∧
    Error_ok e = valid_entry (k, v) && next_alloc h ∧
    (valid_entry (k, v) = false → e = mkError ErrorCode.InvalidArgument).
Proof.
  intros Hes. rewrite (Metadata_Add_eq _ _ _ _ _ Hes). unfold Add_result.
  destruct (valid_entry (k, v)); [destruct (next_alloc h)|]; eexists _, _; split_and!; done.
Qed.

Definition example_heap : MetadataHeap := mkHeap {[ 3 := [("x-a", "1")] ]} 4 [].

Lemma metadata_add_atomic_witness :
  mh_objects example_heap !! 3 = Some [("x-a"%string, "1"%string)] ∧
  ∃ e h', Metadata_Add (Some 3) "x-b" "two" example_heap = Some (e, h') ∧
    mh_objects h' =
      (if Error_ok e then <[3 := [("x-a"%string, "1"%string)] ++ [("x-b"%string, "two"%string)]]>
                            (mh_objects example_heap)
       else mh_objects example_heap) ∧
    Error_ok e = valid_entry ("x-b"%string, "two"%string) && next_alloc example_heap ∧
    (valid_entry ("x-b"%string, "two"%string) = false →
     e = mkError ErrorCode.InvalidArgument).
Proof.
  split; [reflexivity|].
  apply (metadata_add_atomic example_heap 3 [("x-a", "1")]). reflexivity.
Defined.

(** Copying a context's metadata into a handle never uses a destroyed handle,
    whatever the entries and whatever allocations fail: the previous handle of
    the wrapper is destroyed exactly when a new one replaces it, the new one is
    the only handle created and holds a prefix of the entries (all of them when
    no error is returned), and no other handle changes. *)
Lemma copy_metadata_safe h es old :
  heap_ok h → live h old →
  ∃ e p h', CopyMetadata es old h = Some ((e, p), h') ∧
    heap_ok h' ∧ live h' p ∧
    ((p = old ∧ mh_objects h' = mh_objects h ∧ e = mkError ErrorCode.OutOfMemory) ∨
     (∃ pre, p = Some (mh_next h) ∧ pre `prefix_of` es ∧ (Error_ok e = true → pre = es) ∧
        mh_objects h' =
          <[mh_next h := pre]> (match old with None => mh_objects h
                                | Some n => delete n (mh_objects h) end))).
Proof.
  intros Hok Hlive.
  destruct (CopyMetadata_spec h es old Hok Hlive) as (e & p & h' & H1 & H2 & H3 & H4 & _).
  by exists e, p, h'.
Qed.

Lemma copy_metadata_safe_witness :
  heap_ok example_heap ∧ live example_heap (Some 3) ∧
  ∃ e p h', CopyMetadata [("k", "v"); ("BAD", "v")] (Some 3) example_heap = Some ((e, p), h') ∧
    heap_ok h' ∧ live h' p ∧
    ((p = Some 3 ∧ mh_objects h' = mh_objects example_heap ∧
      e = mkError ErrorCode.OutOfMemory) ∨
     (∃ pre, p = Some (mh_next example_heap) ∧ pre `prefix_of` [("k", "v"); ("BAD", "v")] ∧
        (Error_ok e = true → pre = [("k", "v"); ("BAD", "v")]) ∧
        mh_objects h' =
          <[mh_next example_heap := pre]> (delete 3 (mh_objects example_heap))))%string.
Proof.
  assert (Hok : heap_ok example_heap).
  { intros n. unfold example_heap. simpl. rewrite dom_singleton_L. set_unfold. lia. }
  assert (Hlive : live example_heap (Some 3)) by (eexists; reflexivity).
  split; [exact Hok|]. split; [exact Hlive|].
  apply (copy_metadata_safe example_heap _ (Some 3) Hok Hlive).
Defined.

(** Acceptable entries survive the round trip through the C handle: with enough
    memory, copying a multimap into a handle and reading all its entries back
    returns the same entries in the same order. *)
Lemma copy_metadata_roundtrip h es old :
  heap_ok h → live h old → mh_allocations h = [] → forallb valid_entry es = true →
  ∃ p h', CopyMetadata es old h = Some ((Error_default, p), h') ∧
    Metadata_CopyEntries (S (length es)) p true h' =
      Some (Some (Error_default, Some es), h').
Proof.
  intros Hok Hlive Hal Hvalid. unfold CopyMetadata, mbind, ub_bind.
  rewrite (Metadata_Create_eq _ _ Hok Hlive). unfold next_alloc. rewrite Hal. simpl.
  edestruct (AddAll_safe es (mh_next h) []) as (e & h' & pre & -> & Hpre & Hobj & Hnext & He & Hall).
  { apply lookup_insert_eq. }
  simpl in *. destruct (Hall Hvalid eq_refl) as [-> _]. rewrite (He eq_refl) in Hobj.
  exists (Some (mh_next h)), h'. split; [done|].
  unfold Metadata_CopyEntries, mbind, ub_bind. cbn [negb].
  rewrite (CopyEntries_loop_eq _ _ es); [done| |lia].
  rewrite Hobj. apply lookup_insert_eq.
Qed.

Lemma copy_metadata_roundtrip_witness :
  ∃ p h', CopyMetadata [("a-bin", ""); ("k", "v")]%string (Some 3) example_heap =
            Some ((Error_default, p), h') ∧
    Metadata_CopyEntries 3 p true h' =
      Some (Some (Error_default, Some [("a-bin", ""); ("k", "v")]%string), h').
Proof.
  apply (copy_metadata_roundtrip example_heap [("a-bin", ""); ("k", "v")]%string (Some 3)).
  - intros n. unfold example_heap. simpl. rewrite dom_singleton_L. set_unfold. lia.
  - eexists; reflexivity.
  - reflexivity.
  - vm_compute. reflexivity.
Defined.

(** The copy of a borrowed metadata view handed to a callback is exactly the
    view's entries, and no null pointer is read for empty keys or values. *)
Lemma copy_metadata_view_exact es : CopyMetadataView (Some es) = Some es.
Proof. unfold CopyMetadataView. simpl. by rewrite CopyMetadataView_loop_eq. Qed.
