(* ===== verification/ServerTransport.v ===== *)
(** * The server side of one call, below the C++ layer

    A retained server call as [src/src/server.zig] implements it: the stream's
    flags, the queue of commands the application thread hands to the reactor and
    the retained-call operations on them, with the C functions over them
    ([src/src/c_api.zig]) and the [grpc_lite::ServerCall] class
    ([cpp/server.hpp]).

    One call is modelled, so the queue holds the commands of this call only.
    [tc_history] is a ghost field: every command this call ever queued.  The
    outcome of an allocation or of waking the reactor is an argument.  The two
    locked sections of [serverCallSend] are separate definitions, since the
    reactor may run between them.

    The theorems: whatever the application and the reactor do, the commands of a
    call follow the response protocol, and the bytes reserved for unsent
    responses stay within the configured limit. *)

From S2P Require Import Prelude Status Metadata.

Local Open Scope Z_scope.

(** ** Data *)

Inductive StreamCommand : Type :=
  | CmdInitialMetadata (es : entries) (c : Compression)
  | CmdSend (payload : string) (c : Compression)
  | CmdFinish (code : Z) (message : string) (trailing : entries)
  | CmdResumeReceive.

#[export] Instance StreamCommand_eq_dec : EqDecision StreamCommand.
Proof. solve_decision. Defined.

(** [grpc_lite::ServerTerminalReason] *)
Inductive ServerTerminalReason : Set :=
  | Completed | PeerCancelled | DeadlineExceeded | ServerShutdown | TransportError
  | LocalError.

#[export] Instance ServerTerminalReason_eq_dec : EqDecision ServerTerminalReason.
Proof. solve_decision. Defined.

(** The errors of the retained-call operations; [OtherError] is any error of the
    wake-up. *)
Inductive ServerError : Set :=
  | SE_OutOfMemory | SE_WouldBlock | SE_CallClosed | SE_ServerCallUnavailable
  | SE_InitialMetadataAlreadySent | SE_InitialMetadataRequired
  | SE_InitialMetadataNotExplicit | SE_ReceiveNotPaused | SE_MessageTooLarge
  | SE_CompressionNotAccepted | SE_ResponseCompressionNotEnabled
  | SE_OutboundBufferLimitExceeded | SE_OtherError.

#[export] Instance ServerError_eq_dec : EqDecision ServerError.
Proof. solve_decision. Defined.

(** [fn mapServerError], on the errors above *)
Definition mapServerError (e : ServerError) : ZError :=
  match e with
  | SE_OutOfMemory => out_of_memory
  | SE_WouldBlock => would_block
  | SE_CallClosed | SE_ServerCallUnavailable => closed
  | SE_InitialMetadataAlreadySent | SE_InitialMetadataRequired
  | SE_InitialMetadataNotExplicit | SE_ReceiveNotPaused => invalid_state
  | SE_MessageTooLarge | SE_CompressionNotAccepted
  | SE_ResponseCompressionNotEnabled => invalid_argument
  | SE_OutboundBufferLimitExceeded => out_of_range
  | SE_OtherError => internal
  end.

(** [StreamLimits] of the server, the fields a call uses *)
Record Limits := mkLimits { max_message_size : Z; max_outbound_buffer_size : Z }.

(** The [Stream] and its [ServerCallControl]; [tc_target] is whether the control
    still points to the stream, [tc_explicit] the method's initial metadata
    mode, [tc_message_action] what a message callback that has ended returned. *)
Record TransportCall := mkTransportCall {
  tc_limits : Limits;
  tc_explicit : bool;
  tc_accepts_response_gzip : bool;
  tc_target : bool;
  tc_cancelled : bool;
  tc_terminal : bool;
  tc_streaming_active : bool;
  tc_finish_queued : bool;
  tc_transport_closed : bool;
  tc_response_headers_queued : bool;
  tc_response_headers_submitted : bool;
  tc_response_compression : Compression;
  tc_response_gzip_requested : bool;
  tc_response_finished : bool;
  tc_outbound_reserved_bytes : Z;
  tc_writable_requested : bool;
  tc_receive_paused : bool;
  tc_resume_queued : bool;
  tc_resume_requested : bool;
  tc_message_callback_active : bool;
  tc_message_action : option ReceiveAction;
  tc_remote_end_called : bool;
  tc_force_abort_requested : bool;
  tc_cancel_called : bool;
  tc_terminal_reason : ServerTerminalReason;
  tc_commands : list StreamCommand;
  tc_history : list StreamCommand }.

#[export] Instance eta_TransportCall : Eta TransportCall := λ t,
  mkTransportCall (tc_limits t) (tc_explicit t) (tc_accepts_response_gzip t)
    (tc_target t) (tc_cancelled t) (tc_terminal t) (tc_streaming_active t)
    (tc_finish_queued t) (tc_transport_closed t) (tc_response_headers_queued t)
    (tc_response_headers_submitted t) (tc_response_compression t)
    (tc_response_gzip_requested t) (tc_response_finished t) (tc_outbound_reserved_bytes t)
    (tc_writable_requested t) (tc_receive_paused t) (tc_resume_queued t)
    (tc_resume_requested t) (tc_message_callback_active t) (tc_message_action t)
    (tc_remote_end_called t)
    (tc_force_abort_requested t) (tc_cancel_called t) (tc_terminal_reason t)
    (tc_commands t) (tc_history t).

(** The stream as the reactor starts it, before [on_start]. *)
Definition start_call (l : Limits) (explicit paused accepts_gzip : bool) : TransportCall :=
  mkTransportCall l explicit accepts_gzip true false false true false false
    (negb explicit) false Identity false false 0 false paused false false false None
    false false false Completed [] [].

(** Why [enqueueStreamCommandLocked] fails: the queue could not grow, or the
    reactor could not be woken ([xev.Async.notify] swallows [WouldBlock]). *)
Inductive EnqueueError : Set := EnqueueOutOfMemory | EnqueueNotify.

Definition enqueue_error (e : EnqueueError) : ServerError :=
  match e with EnqueueOutOfMemory => SE_OutOfMemory | EnqueueNotify => SE_OtherError end.

(** What the environment decides while one locked section runs: whether copying
    the arguments succeeds, whether encoding the frame gets its memory, and the
    error of queueing the command or waking the reactor. *)
Record OpEnv := mkOpEnv {
  env_copy : bool;
  env_encode : bool;
  env_enqueue : option EnqueueError }.

Definition env_ok : OpEnv := mkOpEnv true true None.

(** A transport operation: its error, [None] on success, and the new state. *)
Abbreviation opT := (TransportCall → option ServerError * TransportCall).

(** ** The retained-call operations of [server.zig] *)

(** The guard [!streaming_active or finish_queued or transport_closed] *)
Definition call_closed (t : TransportCall) : bool :=
  negb (tc_streaming_active t) || tc_finish_queued t || tc_transport_closed t.

(** [enqueueStreamCommandLocked]: a failed wake-up takes the command back. *)
Definition enqueue (env : OpEnv) (c : StreamCommand) : opT := λ t,
  match env_enqueue env with
  | Some e => (Some (enqueue_error e), t)
  | None => (None, t <| tc_commands := tc_commands t ++ [c] |>
                     <| tc_history := tc_history t ++ [c] |>)
  end.

Definition serverCallSendInitialMetadata (es : entries) (response_compression : Compression)
    (env : OpEnv) : opT := λ t,
  if negb (env_copy env) then (Some SE_OutOfMemory, t)
  else if negb (tc_target t) then (Some SE_CallClosed, t)
  else if call_closed t then (Some SE_CallClosed, t)
  else if negb (tc_explicit t) then (Some SE_InitialMetadataNotExplicit, t)
  else if tc_response_headers_queued t then (Some SE_InitialMetadataAlreadySent, t)
  else
    let chosen := if tc_accepts_response_gzip t && bool_decide (response_compression = Gzip)
                  then Gzip else Identity in
    let t1 := t <| tc_response_headers_queued := true |>
                <| tc_response_compression := chosen |> in
    match enqueue env (CmdInitialMetadata es response_compression) t1 with
    | (None, t2) => (None, t2)
    | (Some e, t2) => (Some e, t2 <| tc_response_headers_queued := false |>
                                  <| tc_response_compression := Identity |>)
    end.

Definition checkRetainedSendLocked (t : TransportCall) (c : Compression)
  : option ServerError :=
  if call_closed t then Some SE_CallClosed
  else if negb (tc_response_headers_queued t) then Some SE_InitialMetadataRequired
  else if bool_decide (c = Gzip) && negb (tc_accepts_response_gzip t)
  then Some SE_CompressionNotAccepted
  else if tc_explicit t && bool_decide (c = Gzip) &&
          negb (bool_decide (tc_response_compression t = Gzip))
  then Some SE_ResponseCompressionNotEnabled
  else None.

Definition checkOutboundCapacityLocked (encoded_size : Z) : opT := λ t,
  let outbound_limit := max_outbound_buffer_size (tc_limits t) in
  if encoded_size >? outbound_limit then (Some SE_OutboundBufferLimitExceeded, t)
  else if (tc_outbound_reserved_bytes t >? outbound_limit) ||
          (encoded_size >? outbound_limit - tc_outbound_reserved_bytes t)
  then (Some SE_WouldBlock, t <| tc_writable_requested := true |>)
  else (None, t).

(** The gzip encoder is the Zig standard library's: the size of its output. *)
Class GzipSize := {
  gzip_size : string → Z;
  gzip_size_nonneg : ∀ s, 0 ≤ gzip_size s }.

(** Such an encoder: stored deflate blocks in a gzip member. *)
Definition stored_gzip : GzipSize.
Proof.
  refine {| gzip_size s := zlen s + 5 * (zlen s / 65535 + 1) + 18 |}.
  intros s. pose proof (zlen_nonneg s). pose proof (Z.div_pos (zlen s) 65535). lia.
Defined.

Section Send.
Context {GZ : GzipSize}.

Definition header_size : Z := 5.

Definition body_size (payload : string) (c : Compression) : Z :=
  match c with Identity => zlen payload | Gzip => gzip_size payload end.

Definition encoded_size (payload : string) (c : Compression) : Z :=
  header_size + body_size payload c.

(** The size check before the first lock and the first locked section. *)
Definition serverCallSend_check (payload : string) (c : Compression) : opT := λ t,
  if zlen payload >? max_message_size (tc_limits t) then (Some SE_MessageTooLarge, t)
  else if negb (tc_target t) then (Some SE_CallClosed, t)
  else match checkRetainedSendLocked t c with
       | Some e => (Some e, t)
       | None =>
           match c with
           | Identity =>
               match add_usize (zlen payload) header_size with
               | None => (Some SE_MessageTooLarge, t)
               | Some size => checkOutboundCapacityLocked size t
               end
           | Gzip => (None, t)
           end
       end.

(** [frame.encodeWithCompression] *)
Definition encodeWithCompression (env : OpEnv) (payload : string) (c : Compression)
  : option ServerError :=
  if negb (env_encode env) && bool_decide (c = Gzip) then Some SE_OutOfMemory
  else if body_size payload c >? u32_max then Some SE_MessageTooLarge
  else if negb (env_encode env) then Some SE_OutOfMemory
  else None.

(** Encoding the frame and the second locked section. *)
Definition serverCallSend_commit (payload : string) (c : Compression) (env : OpEnv)
  : opT := λ t,
  match encodeWithCompression env payload c with
  | Some e => (Some e, t)
  | None =>
  if negb (tc_target t) then (Some SE_CallClosed, t)
  else match checkRetainedSendLocked t c with
       | Some e => (Some e, t)
       | None =>
           match checkOutboundCapacityLocked (encoded_size payload c) t with
           | (Some e, t1) => (Some e, t1)
           | (None, t1) =>
               let t2 := t1 <| tc_outbound_reserved_bytes :=
                                 tc_outbound_reserved_bytes t1 + encoded_size payload c |> in
               match enqueue env (CmdSend payload c) t2 with
               | (None, t3) =>
                   (None, if bool_decide (c = Gzip)
                          then t3 <| tc_response_gzip_requested := true |> else t3)
               | (Some e, t3) =>
                   (Some e, t3 <| tc_outbound_reserved_bytes :=
                                    tc_outbound_reserved_bytes t3 - encoded_size payload c |>)
               end
           end
       end
  end.
End Send.

Definition serverCallFinish (code : Z) (message : string) (trailing : entries)
    (env : OpEnv) : opT := λ t,
  if negb (env_copy env) then (Some SE_OutOfMemory, t)
  else if negb (tc_target t) then (Some SE_CallClosed, t)
  else if call_closed t then (Some SE_CallClosed, t)
  else if negb (tc_response_headers_queued t) then (Some SE_InitialMetadataRequired, t)
  else
    match enqueue env (CmdFinish code message trailing) (t <| tc_finish_queued := true |>) with
    | (None, t1) => (None, t1)
    | (Some e, t1) => (Some e, t1 <| tc_finish_queued := false |>)
    end.

Definition serverCallResumeReceive (env : OpEnv) : opT := λ t,
  if negb (tc_target t) then (Some SE_CallClosed, t)
  else if call_closed t then (Some SE_CallClosed, t)
  else if tc_resume_queued t || tc_resume_requested t then (None, t)
  else if negb (tc_receive_paused t) then
    if negb (tc_message_callback_active t) then (Some SE_ReceiveNotPaused, t)
    else (None, t <| tc_resume_requested := true |>)
  else
    match enqueue env CmdResumeReceive (t <| tc_resume_queued := true |>) with
    | (None, t1) => (None, t1)
    | (Some e, t1) => (Some e, t1 <| tc_resume_queued := false |>)
    end.

Definition serverCallAbort (t : TransportCall) : TransportCall :=
  if negb (tc_target t) then t
  else if negb (tc_streaming_active t) || tc_transport_closed t || tc_force_abort_requested t
  then t
  else t <| tc_force_abort_requested := true |> <| tc_finish_queued := true |>.

(** ** The reactor

    What the reactor thread does to the call, one locked section at a time, and
    the application callback it makes. *)

Inductive Callback : Type :=
  | CbMessage (payload : string)
  | CbRemoteEnd
  | CbWritable
  | CbCancel
  | CbTerminal (reason : ServerTerminalReason).

Inductive ReactorEvent : Type :=
  | RProcess (append_ok status_ok : bool) (** the oldest queued command *)
  | RDeliverBegin (payload : string)      (** a decoded message goes to [on_message] *)
  | RDeliverEnd                           (** after [on_message] returned *)
  | RRemoteEnd                            (** the request is complete *)
  | RRelease (length : Z)                 (** response bytes went to the session *)
  | RCancel (reason : ServerTerminalReason)
  | RFail (status_ok : bool)
  | RForceAbort
  | RRetire.

Section Reactor.
Context {GZ : GzipSize}.

Definition command_bytes (c : StreamCommand) : Z :=
  match c with CmdSend p c' => encoded_size p c' | _ => 0 end.

Definition commands_bytes (cs : list StreamCommand) : Z :=
  fold_right (λ c n, command_bytes c + n) 0 cs.

(** [discardStreamCommands] *)
Definition discardStreamCommands (t : TransportCall) : TransportCall :=
  t <| tc_outbound_reserved_bytes :=
         tc_outbound_reserved_bytes t - commands_bytes (tc_commands t) |>
    <| tc_commands := [] |>.

(** [failStreaming]; [status_ok] is whether the status could be stored *)
Definition failStreaming (status_ok : bool) (t : TransportCall) : TransportCall :=
  let t1 := t <| tc_streaming_active := false |>
              <| tc_response_finished := true |>
              <| tc_finish_queued := true |>
              <| tc_terminal_reason :=
                   if decide (tc_terminal_reason t = Completed) then LocalError
                   else tc_terminal_reason t |> in
  if negb status_ok || tc_response_headers_submitted t1 then t1
  else t1 <| tc_response_compression := Identity |>
          <| tc_response_headers_queued := true |>
          <| tc_response_headers_submitted := true |>.

(** [processStreamCommand]; [append_ok] is whether the outbound list could grow *)
Definition processStreamCommand (c : StreamCommand) (append_ok status_ok : bool)
    (t : TransportCall) : TransportCall :=
  let active := tc_streaming_active t && negb (tc_transport_closed t) in
  match c with
  | CmdInitialMetadata _ compression =>
      if active && negb (tc_response_headers_submitted t)
      then t <| tc_response_compression :=
                  if tc_accepts_response_gzip t && bool_decide (compression = Gzip)
                  then Gzip else Identity |>
             <| tc_response_headers_submitted := true |>
      else t
  | CmdSend payload compression =>
      let released := t <| tc_outbound_reserved_bytes :=
                             tc_outbound_reserved_bytes t - encoded_size payload compression |> in
      if negb active then released
      else if negb append_ok then failStreaming status_ok released
      else t
  | CmdFinish _ _ _ => if active then t <| tc_response_finished := true |> else t
  | CmdResumeReceive =>
      let t1 := t <| tc_resume_queued := false |> in
      if active then t1 <| tc_receive_paused := false |> else t1
  end.

(** [outboundLowWatermark] *)
Definition outboundLowWatermark (t : TransportCall) : Z :=
  max_outbound_buffer_size (tc_limits t) / 2.

(** [releaseOutboundReservation(target, length, true)] *)
Definition releaseOutboundReservation (length : Z) (t : TransportCall)
  : TransportCall * option Callback :=
  let t1 := t <| tc_outbound_reserved_bytes := tc_outbound_reserved_bytes t - length |> in
  if tc_writable_requested t1 && tc_streaming_active t1 && negb (tc_finish_queued t1) &&
     negb (tc_transport_closed t1) &&
     (tc_outbound_reserved_bytes t1 <=? outboundLowWatermark t1)
  then (t1 <| tc_writable_requested := false |>, Some CbWritable)
  else (t1, None).

(** [cancelStreaming] *)
Definition cancelStreaming (reason : ServerTerminalReason) (t : TransportCall)
  : TransportCall * option Callback :=
  if tc_cancel_called t then (t, None)
  else
    let t1 := t <| tc_cancel_called := true |>
                <| tc_terminal_reason :=
                     if decide (tc_terminal_reason t = Completed) then reason
                     else tc_terminal_reason t |>
                <| tc_cancelled := true |>
                <| tc_streaming_active := false |>
                <| tc_finish_queued := true |>
                <| tc_receive_paused := false |>
                <| tc_resume_queued := false |>
                <| tc_resume_requested := false |>
                <| tc_message_callback_active := false |> in
    ((discardStreamCommands t1) <| tc_outbound_reserved_bytes := 0 |>, Some CbCancel).

(** [forceAbortStreaming] *)
Definition forceAbortStreaming (t : TransportCall) : TransportCall :=
  let active := tc_force_abort_requested t && tc_streaming_active t &&
                negb (tc_transport_closed t) in
  let t1 := t <| tc_force_abort_requested := false |> in
  if active then
    (discardStreamCommands
       (t1 <| tc_streaming_active := false |>
           <| tc_response_finished := true |>
           <| tc_finish_queued := true |>
           <| tc_receive_paused := false |>
           <| tc_resume_queued := false |>
           <| tc_terminal_reason := LocalError |>))
      <| tc_outbound_reserved_bytes := 0 |>
  else t1.

(** [retireStream] with [notifyServerCallTerminal] *)
Definition retireStream (t : TransportCall) : TransportCall * option Callback :=
  let t1 := discardStreamCommands
              (t <| tc_transport_closed := true |>
                 <| tc_streaming_active := false |>
                 <| tc_target := false |>) in
  (t1 <| tc_terminal := true |>,
   if tc_terminal t then None else Some (CbTerminal (tc_terminal_reason t))).

(** One event; [None] when it cannot happen in this state.  The reactor runs on
    one thread, so while a message callback runs it does nothing else. *)
Definition reactor (t : TransportCall) (e : ReactorEvent)
  : option (TransportCall * option Callback) :=
  match e with
  | RDeliverEnd =>
      match tc_message_action t with
      | Some action =>
          if negb (tc_message_callback_active t) then None
          else
            let resume := tc_resume_requested t in
            let t1 := t <| tc_message_callback_active := false |>
                        <| tc_message_action := None |>
                        <| tc_resume_requested := false |> in
            Some (if tc_streaming_active t && bool_decide (action = Pause) && negb resume
                  then t1 <| tc_receive_paused := true |> else t1, None)
      | None => None
      end
  | _ =>
      if tc_message_callback_active t then None
      else match e with
      | RProcess append_ok status_ok =>
          match tc_commands t with
          | [] => None
          | c :: rest =>
              Some (processStreamCommand c append_ok status_ok (t <| tc_commands := rest |>), None)
          end
      | RDeliverBegin payload =>
          if negb (tc_streaming_active t) || tc_receive_paused t || tc_remote_end_called t
          then None
          else Some (t <| tc_message_callback_active := true |> <| tc_message_action := None |>,
                     Some (CbMessage payload))
      | RRemoteEnd =>
          if negb (tc_streaming_active t) || tc_receive_paused t || tc_remote_end_called t
          then None
          else Some (t <| tc_remote_end_called := true |>, Some CbRemoteEnd)
      | RRelease length =>
          if (0 <=? length) &&
             (length <=? tc_outbound_reserved_bytes t - commands_bytes (tc_commands t))
          then Some (releaseOutboundReservation length t) else None
      | RCancel reason =>
          if tc_target t then Some (cancelStreaming reason t) else None
      | RFail status_ok => if tc_target t then Some (failStreaming status_ok t, None) else None
      | RForceAbort =>
          if tc_target t && tc_force_abort_requested t
          then Some (forceAbortStreaming t, None) else None
      | RRetire => if tc_target t then Some (retireStream t) else None
      | RDeliverEnd => None
      end
  end.
End Reactor.

(** ** Code that runs under a C++ mutex

    The C++ layer calls the transport while it holds a mutex of its own; the
    reactor runs in between the locked sections, but a callback that needs the
    same mutex waits until the code is done.  [Code A] is such code: its locked
    sections, in order, and its result. *)

(** The locked sections of the retained-call operations *)
Inductive TransportOp : Type :=
  | OpInitialMetadata (es : entries) (c : Compression)
  | OpSendCheck (payload : string) (c : Compression)
  | OpSendCommit (payload : string) (c : Compression)
  | OpFinish (code : Z) (message : string) (trailing : entries)
  | OpResumeReceive
  | OpAbort.

(** The flags the application can read without the lock *)
Inductive TransportQuery : Set := QCancelled | QTerminal.

Definition exec_query (q : TransportQuery) (t : TransportCall) : bool :=
  match q with QCancelled => tc_cancelled t | QTerminal => tc_terminal t end.

Inductive Code (A : Type) : Type :=
  | Done (a : A)
  | Locked (op : TransportOp) (k : option ServerError → Code A)
  | Query (q : TransportQuery) (k : bool → Code A).
Arguments Done {A} a.
Arguments Locked {A} op k.
Arguments Query {A} q k.

#[export] Instance code_ret : MRet Code := λ A a, Done a.
#[export] Instance code_bind : MBind Code := λ A B f,
  fix go (m : Code A) : Code B :=
    match m with
    | Done a => f a
    | Locked op k => Locked op (λ r, go (k r))
    | Query q k => Query q (λ b, go (k b))
    end.

(** What happens around one locked section: the reactor's events before it and
    the environment's choices in it. *)
Record Turn := mkTurn { turn_events : list ReactorEvent; turn_env : OpEnv }.

Section Run.
Context {GZ : GzipSize}.

Definition exec_op (op : TransportOp) (env : OpEnv) : opT :=
  match op with
  | OpInitialMetadata es c => serverCallSendInitialMetadata es c env
  | OpSendCheck payload c => serverCallSend_check payload c
  | OpSendCommit payload c => serverCallSend_commit payload c env
  | OpFinish code message trailing => serverCallFinish code message trailing env
  | OpResumeReceive => serverCallResumeReceive env
  | OpAbort => λ t, (None, serverCallAbort t)
  end.

(** The reactor works until it makes a callback; the callback waits for the code
    that runs.  ([on_message] may not need the C++ mutex, but what it then does
    commutes with the code under the mutex.) *)
Fixpoint reactor_run (t : TransportCall) (waiting : option Callback) (es : list ReactorEvent)
  : TransportCall * option Callback :=
  match es with
  | [] => (t, waiting)
  | e :: es' =>
      match waiting with
      | Some _ => (t, waiting)
      | None =>
          match reactor t e with
          | None => reactor_run t None es'
          | Some (t', cb) => reactor_run t' cb es'
          end
      end
  end.

(** Running code with the turns of a schedule; when the schedule is exhausted the
    reactor does nothing and the environment refuses nothing. *)
Fixpoint run_code {A} (m : Code A) (turns : list Turn) (t : TransportCall)
    (waiting : option Callback) : A * TransportCall * option Callback :=
  match m with
  | Done a => (a, t, waiting)
  | Locked op k =>
      let turn := default (mkTurn [] env_ok) (head turns) in
      let '(t1, w1) := reactor_run t waiting (turn_events turn) in
      let '(r, t2) := exec_op op (turn_env turn) t1 in
      run_code (k r) (tail turns) t2 w1
  | Query q k =>
      let turn := default (mkTurn [] env_ok) (head turns) in
      let '(t1, w1) := reactor_run t waiting (turn_events turn) in
      run_code (k (exec_query q t1)) (tail turns) t1 w1
  end.
End Run.

(** ** The C functions

    The handle is known to be non-null where the C++ layer calls them. *)

Definition c_result (r : option ServerError) : ZError :=
  match r with None => ok | Some e => mapServerError e end.

Definition grpc_lite_server_call_send_initial_metadata (es : entries) (compression : Z)
  : Code ZError :=
  match parseCompression compression with
  | None => Done invalid_argument
  | Some algorithm =>
      Locked (OpInitialMetadata es algorithm) (λ r, Done (c_result r))
  end.

Definition grpc_lite_server_call_send (payload : BytesView) (compression : Z) : Code ZError :=
  match bytes payload, parseCompression compression with
  | Some payload_bytes, Some algorithm =>
      Locked (OpSendCheck payload_bytes algorithm) (λ r,
        match r with
        | Some e => Done (mapServerError e)
        | None =>
            Locked (OpSendCommit payload_bytes algorithm) (λ r, Done (c_result r))
        end)
  | _, _ => Done invalid_argument
  end.

Definition grpc_lite_server_call_finish (status_code : Z) (status_message : BytesView)
    (trailing : entries) : Code ZError :=
  if status_code >? 16 then Done invalid_argument
  else match bytes status_message with
       | None => Done invalid_argument
       | Some message =>
           Locked (OpFinish status_code message trailing) (λ r, Done (c_result r))
       end.

Definition grpc_lite_server_call_resume_receive : Code ZError :=
  Locked OpResumeReceive (λ r, Done (c_result r)).

(** ** [grpc_lite::ServerCall]

    [call_] is whether the wrapper holds the call's handle or a null pointer. A
    [const Metadata*] argument is the entries it shows, none for a null
    pointer. *)

Definition ServerCall_cancelled (call_ : bool) : Code bool :=
  if call_ then Query QCancelled (λ b, Done b) else Done false.

Definition ServerCall_terminal (call_ : bool) : Code bool :=
  if call_ then Query QTerminal (λ b, Done b) else Done false.

Definition ServerCall_SendInitialMetadata (call_ : bool) (metadata : entries)
    (compression : Compression) : Code Error :=
  if negb call_ then Done (mkError ErrorCode.InvalidState)
  else e ← grpc_lite_server_call_send_initial_metadata metadata (Compression_value compression);
       Done (Error_of_c e).

Definition ServerCall_Send (call_ : bool) (payload : string) (compression : Compression)
  : Code Error :=
  if negb call_ then Done (mkError ErrorCode.InvalidState)
  else e ← grpc_lite_server_call_send (Bytes payload) (Compression_value compression);
       Done (Error_of_c e).

Definition ServerCall_Finish (call_ : bool) (status : Status) (trailing_metadata : entries)
  : Code Error :=
  if negb call_ then Done (mkError ErrorCode.InvalidState)
  else e ← grpc_lite_server_call_finish (cast_u32 (status_code status))
             (Bytes (status_message status)) trailing_metadata;
       Done (Error_of_c e).

Definition ServerCall_ResumeReceive (call_ : bool) : Code Error :=
  if negb call_ then Done (mkError ErrorCode.InvalidState)
  else e ← grpc_lite_server_call_resume_receive; Done (Error_of_c e).

Definition ServerCall_Abort (call_ : bool) : Code () :=
  if call_ then Locked OpAbort (λ _, Done ()) else Done ().

(** ** The response protocol

    What a response may be: in the explicit mode the initial metadata first,
    then messages, then one status.  Requests to resume receiving are not part of
    the response. *)

Inductive ResponsePhase : Set := PStart | POpen | PFinished.

#[export] Instance ResponsePhase_eq_dec : EqDecision ResponsePhase.
Proof. solve_decision. Defined.

Definition response_step (p : ResponsePhase) (c : StreamCommand) : option ResponsePhase :=
  match c, p with
  | CmdResumeReceive, _ => Some p
  | CmdInitialMetadata _ _, PStart => Some POpen
  | CmdSend _ _, POpen => Some POpen
  | CmdFinish _ _ _, POpen => Some PFinished
  | _, _ => None
  end.

Definition first_phase (explicit : bool) : ResponsePhase := if explicit then PStart else POpen.

(** The phase of the response after the commands of a call, if they are one. *)
Definition response_phase (t : TransportCall) : option ResponsePhase :=
  run response_step (first_phase (tc_explicit t)) (tc_history t).

(** The call still accepts response commands. *)
Definition call_open (t : TransportCall) : bool := tc_target t && negb (call_closed t).

(** ** Invariants *)

Section Invariants.
Context {GZ : GzipSize}.

Record transport_inv (t : TransportCall) : Prop := {
  ti_phase : ∃ p, response_phase t = Some p ∧
    (p = PFinished → tc_finish_queued t = true) ∧
    (call_open t = true → tc_response_headers_queued t = negb (bool_decide (p = PStart)));
  ti_queued : 0 ≤ commands_bytes (tc_commands t) ≤ tc_outbound_reserved_bytes t;
  ti_limit : tc_outbound_reserved_bytes t ≤ max_outbound_buffer_size (tc_limits t);
  ti_writable : call_open t = true → tc_writable_requested t = true →
    0 < tc_outbound_reserved_bytes t }.

Lemma encoded_size_nonneg payload c : 0 < encoded_size payload c.
Proof.
  unfold encoded_size, header_size, body_size. pose proof (zlen_nonneg payload).
  pose proof (gzip_size_nonneg payload). destruct c; lia.
Qed.

Lemma commands_bytes_app cs cs' :
  commands_bytes (cs ++ cs') = commands_bytes cs + commands_bytes cs'.
Proof. induction cs as [|c cs IH]; simpl; lia. Qed.

Lemma command_bytes_nonneg c : 0 ≤ command_bytes c.
Proof. destruct c; simpl; try lia. pose proof (encoded_size_nonneg payload c). lia. Qed.

Lemma commands_bytes_nonneg cs : 0 ≤ commands_bytes cs.
Proof. induction cs as [|c cs IH]; simpl; [lia|]. pose proof (command_bytes_nonneg c). lia. Qed.

Lemma transport_inv_start l explicit paused gz :
  0 ≤ max_outbound_buffer_size l → transport_inv (start_call l explicit paused gz).
Proof.
  intros. constructor; simpl; try done; try lia.
  exists (first_phase explicit). split_and!; [done| |]; destruct explicit; done.
Qed.

Lemma response_phase_snoc t c p :
  response_phase t = Some p →
  run response_step (first_phase (tc_explicit t)) (tc_history t ++ [c]) = response_step p c.
Proof.
  unfold response_phase. intros Hp. destruct (response_step p c) as [p'|] eqn:E.
  - apply run_snoc. by exists p.
  - destruct (run _ _ (tc_history t ++ [c])) as [p'|] eqn:E'; [|done].
    apply run_snoc in E' as (p1 & H1 & H2). congruence.
Qed.

(** Leaving everything the invariant reads alone, or closing the call, keeps it. *)
Lemma transport_inv_weaken t t' :
  transport_inv t →
  tc_history t' = tc_history t → tc_explicit t' = tc_explicit t → tc_limits t' = tc_limits t →
  (tc_finish_queued t = true → tc_finish_queued t' = true) →
  (call_open t' = true → call_open t = true ∧
     tc_response_headers_queued t' = tc_response_headers_queued t) →
  0 ≤ commands_bytes (tc_commands t') ≤ tc_outbound_reserved_bytes t' →
  tc_outbound_reserved_bytes t' ≤ tc_outbound_reserved_bytes t →
  (call_open t' = true → tc_writable_requested t' = true → 0 < tc_outbound_reserved_bytes t') →
  transport_inv t'.
Proof.
  intros [(p & Hp & Hf & Hh) Hq Hl Hw] Eh Ee El Ef Eo Hq' Hr' Hw'. constructor; try done.
  - exists p. unfold response_phase. rewrite Eh, Ee. split_and!; [done|auto|].
    intros Ho. destruct (Eo Ho) as [Ho' ->]. auto.
  - rewrite El. lia.
Qed.

(** A command that is queued extends the response by one protocol step. *)
Lemma transport_inv_extend t t' c p p' :
  transport_inv t → call_open t = true →
  response_phase t = Some p → response_step p c = Some p' →
  tc_history t' = tc_history t ++ [c] → tc_explicit t' = tc_explicit t →
  tc_limits t' = tc_limits t → tc_commands t' = tc_commands t ++ [c] →
  tc_outbound_reserved_bytes t' = tc_outbound_reserved_bytes t + command_bytes c →
  tc_outbound_reserved_bytes t' ≤ max_outbound_buffer_size (tc_limits t) →
  tc_writable_requested t' = tc_writable_requested t →
  (p' = PFinished → tc_finish_queued t' = true) →
  tc_response_headers_queued t' = negb (bool_decide (p' = PStart)) →
  transport_inv t'.
Proof.
  intros [_ Hq Hl Hw] Ho Hp Hs Eh Ee El Ec Er Hr Ew Hf Hh.
  pose proof (command_bytes_nonneg c). constructor.
  - exists p'. unfold response_phase. rewrite Eh, Ee, (response_phase_snoc _ _ _ Hp). auto.
  - rewrite Ec, Er, commands_bytes_app. simpl. lia.
  - by rewrite El.
  - rewrite Ew, Er. intros _ Hw'. specialize (Hw Ho Hw'). lia.
Qed.

Lemma call_open_spec t :
  call_open t = true ↔
  tc_target t = true ∧ tc_streaming_active t = true ∧ tc_finish_queued t = false ∧
  tc_transport_closed t = false.
Proof.
  unfold call_open, call_closed. rewrite andb_true_iff, negb_true_iff, !orb_false_iff,
    negb_false_iff. tauto.
Qed.

(** The phase of an open call, from the flag the code tests. *)
Lemma open_phase t :
  transport_inv t → call_open t = true →
  ∃ p, response_phase t = Some p ∧ p ≠ PFinished ∧
    tc_response_headers_queued t = negb (bool_decide (p = PStart)).
Proof.
  intros [(p & Hp & Hf & Hh) _ _ _] Ho. exists p. split_and!; [done| |auto].
  intros ->. apply call_open_spec in Ho as (_ & _ & Ho & _). rewrite Hf in Ho; done.
Qed.

Ltac weaken Hi :=
  eapply (transport_inv_weaken _ _ Hi); simpl; try done; try lia;
  try (rewrite ?call_open_spec; simpl; intuition congruence);
  try (by destruct Hi);
  try (destruct Hi as [_ _ _ Hw]; intros Ho'; apply Hw; revert Ho'; rewrite !call_open_spec;
       simpl; intuition congruence).

Ltac extend Hi c p p' :=
  eapply (transport_inv_extend _ _ c p p' Hi); try done; simpl; try done; try lia;
  try (destruct Hi; lia).

Lemma exec_initial_metadata_inv es c env t :
  transport_inv t → transport_inv (serverCallSendInitialMetadata es c env t).2.
Proof.
  intros Hi. unfold serverCallSendInitialMetadata, enqueue.
  destruct (negb (env_copy env)); [done|]. destruct (tc_target t) eqn:Et; [|done].
  destruct (call_closed t) eqn:Ec; [done|]. destruct (tc_explicit t) eqn:Ex; [|done].
  destruct (tc_response_headers_queued t) eqn:Eh; [done|]. simpl.
  assert (Ho : call_open t = true) by (unfold call_open; by rewrite Et, Ec).
  destruct (open_phase _ Hi Ho) as (p & Hp & _ & Hh).
  destruct (env_enqueue env); simpl.
  - weaken Hi.
  - extend Hi (CmdInitialMetadata es c) p POpen.
    destruct p; simpl; rewrite Eh in Hh; done.
Qed.

Lemma check_capacity_inv size t :
  transport_inv t → transport_inv (checkOutboundCapacityLocked size t).2.
Proof.
  intros Hi. unfold checkOutboundCapacityLocked.
  destruct (size >? _) eqn:E1; [done|]. destruct (_ || _) eqn:E2; [|done]. simpl.
  apply orb_true_iff in E2. rewrite !Z.gtb_lt in E2. rewrite Z.gtb_ltb, Z.ltb_ge in E1.
  weaken Hi. intros _ _. destruct Hi. lia.
Qed.

Lemma send_check_inv payload c t :
  transport_inv t → transport_inv (serverCallSend_check payload c t).2.
Proof.
  intros Hi. unfold serverCallSend_check.
  repeat case_match; try done; by apply check_capacity_inv.
Qed.

Lemma check_send_open t c :
  tc_target t = true → checkRetainedSendLocked t c = None →
  call_open t = true ∧ tc_response_headers_queued t = true.
Proof.
  unfold checkRetainedSendLocked, call_open. intros ->.
  destruct (call_closed t); [done|]. by destruct (tc_response_headers_queued t).
Qed.

Lemma check_capacity_ok size t t' :
  checkOutboundCapacityLocked size t = (None, t') →
  t' = t ∧ size + tc_outbound_reserved_bytes t ≤ max_outbound_buffer_size (tc_limits t).
Proof.
  unfold checkOutboundCapacityLocked. destruct (size >? _) eqn:E1; [done|].
  destruct (_ || _) eqn:E2; [done|]. intros [= <-].
  apply orb_false_iff in E2. destruct E2 as [_ E2]. rewrite Z.gtb_ltb, Z.ltb_ge in E2. split; [done|lia].
Qed.

Lemma send_commit_inv payload c env t :
  transport_inv t → transport_inv (serverCallSend_commit payload c env t).2.
Proof.
  intros Hi. unfold serverCallSend_commit, enqueue.
  destruct (encodeWithCompression _ _ _); [done|]. destruct (tc_target t) eqn:Et; [|done]. simpl.
  destruct (checkRetainedSendLocked t c) eqn:Ec; [done|].
  destruct (check_send_open _ _ Et Ec) as [Ho Hh].
  destruct (open_phase _ Hi Ho) as (p & Hp & Hpf & Hph).
  destruct (checkOutboundCapacityLocked _ t) as [[e|] t1] eqn:Ecap; simpl.
  { pose proof (check_capacity_inv (encoded_size payload c) t Hi) as H. by rewrite Ecap in H. }
  apply check_capacity_ok in Ecap as [-> Hcap].
  destruct (env_enqueue env); simpl.
  - weaken Hi; destruct Hi; try lia. intros; simpl. rewrite Z.add_simpl_r. auto.
  - eapply (transport_inv_extend t _ (CmdSend payload c) p POpen); try done; try (by case_match).
    + destruct p; simpl; rewrite Hh in Hph; done.
    + case_match; simpl; lia.
Qed.

Lemma exec_finish_inv code message trailing env t :
  transport_inv t → transport_inv (serverCallFinish code message trailing env t).2.
Proof.
  intros Hi. unfold serverCallFinish, enqueue.
  destruct (negb (env_copy env)); [done|]. destruct (tc_target t) eqn:Et; [|done].
  destruct (call_closed t) eqn:Ec; [done|].
  destruct (tc_response_headers_queued t) eqn:Eh; [|done]. simpl.
  assert (Ho : call_open t = true) by (unfold call_open; by rewrite Et, Ec).
  destruct (open_phase _ Hi Ho) as (p & Hp & Hpf & Hph).
  destruct (env_enqueue env); simpl.
  - apply call_open_spec in Ho. weaken Hi.
  - extend Hi (CmdFinish code message trailing) p PFinished.
    destruct p; simpl; rewrite Eh in Hph; done.
Qed.

Lemma exec_resume_inv env t :
  transport_inv t → transport_inv (serverCallResumeReceive env t).2.
Proof.
  intros Hi. unfold serverCallResumeReceive, enqueue.
  destruct (tc_target t) eqn:Et; [|done]. destruct (call_closed t) eqn:Ec; [done|].
  destruct (_ || _); [done|]. simpl.
  assert (Ho : call_open t = true) by (unfold call_open; by rewrite Et, Ec).
  destruct (open_phase _ Hi Ho) as (p & Hp & Hpf & Hph).
  destruct (tc_receive_paused t); simpl.
  - destruct (env_enqueue env); simpl; [weaken Hi|]. extend Hi CmdResumeReceive p p.
  - case_match; [done|]. weaken Hi.
Qed.

Lemma abort_inv t : transport_inv t → transport_inv (serverCallAbort t).
Proof.
  intros Hi. unfold serverCallAbort. repeat case_match; try done. weaken Hi.
Qed.

Lemma exec_op_inv op env t : transport_inv t → transport_inv (exec_op op env t).2.
Proof.
  intros Hi. destruct op; simpl;
    auto using exec_initial_metadata_inv, send_check_inv, send_commit_inv, exec_finish_inv,
      exec_resume_inv, abort_inv.
Qed.

Lemma fail_inv status_ok t : transport_inv t → transport_inv (failStreaming status_ok t).
Proof. intros Hi. unfold failStreaming. case_match; weaken Hi. Qed.

Lemma discard_inv t : transport_inv t → call_open t = false → transport_inv (discardStreamCommands t).
Proof.
  intros Hi Hc. unfold discardStreamCommands. weaken Hi; try (destruct Hi; lia).
  intros Ho. change (call_open t = true) in Ho. congruence.
Qed.

(** Emptying the outbound queue of a closed call. *)
Lemma release_all_inv t :
  transport_inv t → call_open t = false → tc_commands t = [] →
  transport_inv (t <| tc_outbound_reserved_bytes := 0 |>).
Proof.
  intros Hi Hc Hn. pose proof (ti_queued _ Hi) as Hq. rewrite Hn in Hq. simpl in Hq.
  weaken Hi; rewrite ?Hn; simpl; try lia. intros Ho. change (call_open t = true) in Ho. congruence.
Qed.

Lemma process_inv c append_ok status_ok rest t :
  transport_inv t → tc_commands t = c :: rest →
  transport_inv (processStreamCommand c append_ok status_ok (t <| tc_commands := rest |>)).
Proof.
  intros Hi Hc. pose proof (ti_queued _ Hi) as Hq. rewrite Hc in Hq. simpl in Hq.
  pose proof (command_bytes_nonneg c). pose proof (commands_bytes_nonneg rest).
  assert (Hi1 : transport_inv (t <| tc_commands := rest |>)) by (weaken Hi).
  unfold processStreamCommand, failStreaming.
  destruct c; repeat case_match; try done; weaken Hi1; simpl in *;
    try (rewrite call_open_spec; simpl; rewrite ?andb_true_iff, ?negb_true_iff in *; intuition congruence);
    try lia.
  rewrite call_open_spec. simpl. intros (_ & Ha & _ & Hcl). by rewrite Ha, Hcl in *.
Qed.

Lemma release_inv length t :
  transport_inv t →
  0 ≤ length ≤ tc_outbound_reserved_bytes t - commands_bytes (tc_commands t) →
  transport_inv (releaseOutboundReservation length t).1.
Proof.
  intros Hi Hl. unfold releaseOutboundReservation, outboundLowWatermark. simpl.
  pose proof (ti_queued _ Hi). pose proof (ti_limit _ Hi).
  case_match eqn:E; simpl; weaken Hi.
  rewrite call_open_spec. simpl. intros (_ & Ha & Hf & Hc) Hw.
  rewrite Ha, Hf, Hc, Hw in E. simpl in E. apply Z.leb_gt in E.
  pose proof (Z.div_pos (max_outbound_buffer_size (tc_limits t)) 2). lia.
Qed.

Lemma closed_open t : tc_finish_queued t = true → call_open t = false.
Proof. unfold call_open, call_closed. intros ->. rewrite orb_true_r. by destruct (tc_target t). Qed.

Lemma cancel_inv reason t : transport_inv t → transport_inv (cancelStreaming reason t).1.
Proof.
  intros Hi. unfold cancelStreaming. destruct (tc_cancel_called t); [done|]. simpl.
  apply release_all_inv; [|by apply closed_open|done].
  apply discard_inv; [|by apply closed_open]. weaken Hi.
Qed.

Lemma force_abort_inv t : transport_inv t → transport_inv (forceAbortStreaming t).
Proof.
  intros Hi. unfold forceAbortStreaming. case_match; [|weaken Hi].
  apply release_all_inv; [|by apply closed_open|done].
  apply discard_inv; [|by apply closed_open]. weaken Hi.
Qed.

Lemma retire_inv t : transport_inv t → transport_inv (retireStream t).1.
Proof.
  intros Hi. pose proof (ti_queued _ Hi). unfold retireStream, discardStreamCommands. weaken Hi.
Qed.

Lemma reactor_inv t e t' cb :
  transport_inv t → reactor t e = Some (t', cb) → transport_inv t'.
Proof.
  intros Hi. unfold reactor.
  destruct e; [destruct (tc_commands t) eqn:Ec|..]; repeat case_match; intros; simplify_eq.
  all: try match goal with H : ?f = (?t1, _) |- transport_inv ?t1 =>
      apply (f_equal fst) in H; simpl in H; subst t1 end.
  - eauto using process_inv.
  - weaken Hi.
  - weaken Hi.
  - weaken Hi.
  - weaken Hi.
  - rewrite andb_true_iff, !Z.leb_le in *. by apply release_inv.
  - by apply cancel_inv.
  - by apply fail_inv.
  - by apply force_abort_inv.
  - by apply retire_inv.
Qed.

(** ** From atomic sections to code

    A property that every locked section and every reactor event keeps is kept by
    running any code, whatever the schedule. *)

(** Kept by what the reactor does on its own, up to its next callback. *)
Definition reactor_stable (I : TransportCall → option Callback → Prop) : Prop :=
  ∀ t e t' cb, I t None → reactor t e = Some (t', cb) → I t' cb.

Lemma reactor_run_pres I es :
  reactor_stable I →
  ∀ t w t' w', I t w → reactor_run t w es = (t', w') → I t' w'.
Proof.
  intros Hr. induction es as [|e es IH]; intros t w t' w' Hi; simpl; [by intros [= <- <-]|].
  destruct w as [cb|]; [by intros [= <- <-]|].
  destruct (reactor t e) as [[t1 cb]|] eqn:E; [|by apply IH]. apply IH. by eapply Hr.
Qed.

(** [wp m Q t w]: whatever the schedule, running [m] ends with [Q]. *)
Definition wp {A} (m : Code A) (Q : A → TransportCall → option Callback → Prop)
    (t : TransportCall) (w : option Callback) : Prop :=
  ∀ turns a t' w', run_code m turns t w = (a, t', w') → Q a t' w'.

Lemma wp_done {A} (a : A) Q t w : Q a t w → wp (Done a) Q t w.
Proof. by intros H turns a' t' w' [= <- <- <-]. Qed.

Lemma wp_locked {A} I op (k : option ServerError → Code A) Q t w :
  reactor_stable I → I t w →
  (∀ t1 w1 env r t2, I t1 w1 → exec_op op env t1 = (r, t2) → wp (k r) Q t2 w1) →
  wp (Locked op k) Q t w.
Proof.
  intros Hs Hi Hk turns a t' w'. simpl. destruct (reactor_run _ _ _) as [t1 w1] eqn:E.
  apply (reactor_run_pres I) in E as Hi1; [|done|done].
  destruct (exec_op _ _ _) as [r t2] eqn:E2. by apply (Hk _ _ _ _ _ Hi1 E2).
Qed.

Lemma wp_query {A} I q (k : bool → Code A) Q t w :
  reactor_stable I → I t w →
  (∀ t1 w1, I t1 w1 → wp (k (exec_query q t1)) Q t1 w1) →
  wp (Query q k) Q t w.
Proof.
  intros Hs Hi Hk turns a t' w'. simpl. destruct (reactor_run _ _ _) as [t1 w1] eqn:E.
  apply (reactor_run_pres I) in E as Hi1; [|done|done]. by apply (Hk _ _ Hi1).
Qed.

Lemma run_code_bind {A B} (m : Code A) (f : A → Code B) turns t w :
  ∃ turns', run_code (m ≫= f) turns t w =
    let '(a, t1, w1) := run_code m turns t w in run_code (f a) turns' t1 w1.
Proof.
  revert turns t w. induction m as [a|op k IH|q k IH]; intros turns t w; simpl; [by exists turns| |];
    destruct (reactor_run _ _ _) as [t1 w1].
  - destruct (exec_op _ _ _) as [r t2]. apply IH.
  - apply IH.
Qed.

Lemma wp_bind {A B} (m : Code A) (f : A → Code B) Q t w :
  wp m (λ a t1 w1, wp (f a) Q t1 w1) t w → wp (m ≫= f) Q t w.
Proof.
  intros H turns b t' w'. destruct (run_code_bind m f turns t w) as [turns' ->].
  destruct (run_code m turns t w) as [[a t1] w1] eqn:E. by apply (H _ _ _ _ E).
Qed.

(** [code_all P m]: every section [m] may run satisfies [P]. *)
Fixpoint code_all {A} (P : TransportOp → Prop) (m : Code A) : Prop :=
  match m with
  | Done _ => True
  | Locked op k => P op ∧ ∀ r, code_all P (k r)
  | Query _ k => ∀ b, code_all P (k b)
  end.

Lemma code_all_bind {A B} P (m : Code A) (f : A → Code B) :
  code_all P m → (∀ a, code_all P (f a)) → code_all P (m ≫= f).
Proof.
  intros Hm Hf. induction m as [a|op k IH|q k IH]; simpl in *; [done| |].
  - destruct Hm as [Hop Hk]. split; [done|]. intros r. by apply IH.
  - intros b. by apply IH.
Qed.

(** What the sections of a code and the reactor's events keep, the code keeps. *)
Lemma wp_pres_ops {A} P I (m : Code A) t w :
  reactor_stable I → (∀ op env t w, P op → I t w → I (exec_op op env t).2 w) →
  code_all P m → I t w → wp m (λ _ t' w', I t' w') t w.
Proof.
  intros Hr Ho. revert t w. induction m as [a|op k IH|q k IH]; intros t w Hm Hi; simpl in Hm.
  - by apply wp_done.
  - apply (wp_locked I); [done..|]. intros t1 w1 env r t2 Hi1 E. apply IH; [apply Hm|].
    specialize (Ho op env _ _ (proj1 Hm) Hi1). by rewrite E in Ho.
  - apply (wp_query I); [done..|]. intros. by apply IH.
Qed.

Lemma wp_pres {A} I (m : Code A) t w :
  reactor_stable I → (∀ op env t w, I t w → I (exec_op op env t).2 w) →
  I t w → wp m (λ _ t' w', I t' w') t w.
Proof.
  intros Hr Ho. apply (wp_pres_ops (λ _, True)); [done|auto|].
  induction m; simpl; auto.
Qed.

(** ** What a locked section does *)

(** The command a section queues when it succeeds. *)
Definition op_command (op : TransportOp) : option StreamCommand :=
  match op with
  | OpInitialMetadata es c => Some (CmdInitialMetadata es c)
  | OpSendCommit payload c => Some (CmdSend payload c)
  | OpFinish code message trailing => Some (CmdFinish code message trailing)
  | _ => None
  end.

(** What no section changes, and what it changes only one way. *)
Record op_frame (t t' : TransportCall) : Prop := {
  of_explicit : tc_explicit t' = tc_explicit t;
  of_target : tc_target t' = tc_target t;
  of_cancelled : tc_cancelled t' = tc_cancelled t;
  of_terminal : tc_terminal t' = tc_terminal t;
  of_cancel_called : tc_cancel_called t' = tc_cancel_called t;
  of_active : tc_message_callback_active t' = tc_message_callback_active t;
  of_action : tc_message_action t' = tc_message_action t;
  of_reason : tc_terminal_reason t' = tc_terminal_reason t;
  of_writable : tc_writable_requested t = true → tc_writable_requested t' = true;
  of_open : call_open t' = true → call_open t = true;
  of_commands : tc_target t = false → tc_commands t' = tc_commands t }.

Lemma exec_op_frame op env t : op_frame t (exec_op op env t).2.
Proof.
  destruct op; simpl;
    unfold serverCallSendInitialMetadata, serverCallSend_check, serverCallSend_commit,
      checkOutboundCapacityLocked, serverCallFinish, serverCallResumeReceive, serverCallAbort, enqueue;
    repeat (case_match; simplify_eq/=; try done);
    constructor; simpl; try done;
    unfold call_closed in *; rewrite ?orb_false_iff, ?negb_false_iff in *;
    rewrite ?call_open_spec; simpl; try (intuition congruence).
Qed.

Lemma exec_op_history op env t r t' :
  exec_op op env t = (r, t') →
  match r, op_command op with
  | None, Some c => call_open t = true ∧ tc_history t' = tc_history t ++ [c]
  | _, _ => tc_history t' = tc_history t ∨ tc_history t' = tc_history t ++ [CmdResumeReceive]
  end.
Proof.
  destruct op; simpl;
    unfold serverCallSendInitialMetadata, serverCallSend_check, serverCallSend_commit,
      checkOutboundCapacityLocked, serverCallFinish, serverCallResumeReceive, serverCallAbort, enqueue;
    repeat (case_match; simplify_eq/=; try done; auto); intros; simplify_eq/=; auto;
    (split; [|done]); rewrite ?negb_false_iff in *.
  all: try (by eapply check_send_open).
  all: unfold call_open; by apply andb_true_iff; rewrite negb_true_iff.
Qed.
End Invariants.
