(* ===== verification/Frame.v ===== *)
(** * Message frames

    [src/frame.zig]: the frame around each message on the wire (a flag octet, the
    length of the body in four octets, the body), and the decoder that gets the
    bytes of a stream in fragments. *)

From S2P Require Import Prelude Status Octets ServerTransport.

Local Open Scope Z_scope.

(** ** The gzip codec

    [std.compress.flate] of the Zig standard library.  [compress] is what the
    compressor has written after [finish]; [inflate limit] what [allocRemaining]
    returns on such input, with the position it left the input at and the footer
    it read. *)

Inductive Inflated :=
| Malformed
| StreamTooLong
| Inflate (output : octets) (seek count crc : Z).

(** [std.hash.Crc32.hash], bit by bit *)
Fixpoint crc_bits (n : nat) (crc : Z) : Z :=
  match n with
  | O => crc
  | S n =>
      crc_bits n (if Z.testbit crc 0 then Z.lxor (Z.shiftr crc 1) 3988292384 else Z.shiftr crc 1)
  end.

Definition Crc32_hash (input : octets) : Z :=
  Z.lxor (foldl (λ crc b, crc_bits 8 (Z.lxor crc (octet_value b))) u32_max input) u32_max.

(** The octet of the flags of a gzip header *)
Definition flags (payload : octets) : Z := octet_value (nth 3 payload Ascii.zero).

(** The laws are the gzip format: the fixed header has ten octets with the reserved
    flags clear, and a member holds its data, their CRC and their length. *)
Class Flate := {
  compress : octets → octets;
  inflate : option Z → octets → Inflated;
  compress_header p : 10 ≤ olen (compress p) ∧ Z.land (flags (compress p)) 224 = 0;
  inflate_compress limit p : (∀ n, limit = Some n → olen p < n) →
    inflate limit (compress p) =
      Inflate p (olen (compress p)) (cast_u32 (olen p)) (Crc32_hash p) }.

Inductive FrameError :=
| FE_MessageTooLarge
| FE_InvalidCompressedFlag
| FE_CompressionMismatch
| FE_BufferLimitExceeded
| FE_TruncatedFrame
| FE_ExpectedUnaryMessage
| FE_MalformedCompressedMessage
| FE_OutOfMemory.

#[export] Instance FrameError_eq_dec : EqDecision FrameError.
Proof. solve_decision. Defined.

(** Whether each allocation of an operation, in order, succeeds. *)
Definition Memory : Type := nat → bool.
Definition enough : Memory := λ _, true.

Section Codec.
Context {F : Flate}.

Definition encodePayload (memory : bool) (payload : octets) (compressed : bool) : FrameError + octets :=
  if olen payload >? u32_max then inl FE_MessageTooLarge
  else if negb memory then inl FE_OutOfMemory
  else
    let length := olen payload in
    inr ([truncate_u8 (u32_of_bool compressed);
          truncate_u8 (Z.shiftr length 24); truncate_u8 (Z.shiftr length 16);
          truncate_u8 (Z.shiftr length 8); truncate_u8 length] ++ payload).

(** The allocations: the output, the history, the growth of the output, the frame. *)
Definition encodeWithCompression (memory : Memory) (payload : octets) (c : Compression)
  : FrameError + octets :=
  match c with
  | Identity => encodePayload (memory 0%nat) payload false
  | Gzip =>
      if memory 0%nat && memory 1%nat && memory 2%nat
      then encodePayload (memory 3%nat) (compress payload) true
      else inl FE_OutOfMemory
  end.

Definition decompressGzip (memory : Memory) (payload : octets) (max_message_size : Z)
  : FrameError + octets :=
  if (olen payload <? 10) || negb (Z.land (flags payload) 224 =? 0)
  then inl FE_MalformedCompressedMessage
  else if negb (memory 0%nat) then inl FE_OutOfMemory
  else
    let limit := if max_message_size =? usize_max then None else Some (max_message_size + 1) in
    if negb (memory 1%nat) then inl FE_OutOfMemory
    else match inflate limit payload with
         | Malformed => inl FE_MalformedCompressedMessage
         | StreamTooLong => inl FE_MessageTooLarge
         | Inflate decompressed seek count crc =>
             if olen decompressed >? max_message_size then inl FE_MessageTooLarge
             else if negb (seek =? olen payload) then inl FE_MalformedCompressedMessage
             else if negb (count =? cast_u32 (olen decompressed)) || negb (crc =? Crc32_hash decompressed)
             then inl FE_MalformedCompressedMessage
             else inr decompressed
         end.

(** ** The decoder *)

Record DecodedMessage := mkDecodedMessage {
  dm_payload : octets;
  dm_consumed_bytes : Z;
  dm_compressed : bool }.

Record Decoder := mkDecoder {
  dc_max_message_size : Z;
  dc_compression : Compression;
  dc_buffer : octets;
  dc_offset : nat }.

#[export] Instance eta_Decoder : Eta Decoder := λ d,
  mkDecoder (dc_max_message_size d) (dc_compression d) (dc_buffer d) (dc_offset d).

Definition initWithCompression (max_message_size : Z) (c : Compression) : Decoder :=
  mkDecoder max_message_size c [] 0.

Definition bufferedBytes (d : Decoder) : Z := olen (dc_buffer d) - Z.of_nat (dc_offset d).

(** The part of [feedBounded] that drops what was consumed *)
Definition reclaim (d : Decoder) : Decoder :=
  if Z.of_nat (dc_offset d) =? olen (dc_buffer d) then d <| dc_buffer := [] |> <| dc_offset := 0%nat |>
  else if (0 <? Z.of_nat (dc_offset d)) && (Z.of_nat (dc_offset d) >=? olen (dc_buffer d) / 2)
  then d <| dc_buffer := drop (dc_offset d) (dc_buffer d) |> <| dc_offset := 0%nat |>
  else d.

Definition feedBounded (memory : bool) (bytes : octets) (max_buffered_bytes : Z) (d : Decoder)
  : option FrameError * Decoder :=
  let buffered := bufferedBytes d in
  if (buffered >? max_buffered_bytes) || (olen bytes >? max_buffered_bytes - buffered)
  then (Some FE_BufferLimitExceeded, d)
  else
    let d1 := reclaim d in
    if negb memory then (Some FE_OutOfMemory, d1)
    else (None, d1 <| dc_buffer := dc_buffer d1 ++ bytes |>).

Definition feed (memory : bool) (bytes : octets) : Decoder → option FrameError * Decoder :=
  feedBounded memory bytes usize_max.

(** [available[i]] *)
Definition octet_at (available : octets) (i : nat) : Z := octet_value (nth i available Ascii.zero).

Definition nextMessage (memory : Memory) (d : Decoder) : (FrameError + option DecodedMessage) * Decoder :=
  let available := drop (dc_offset d) (dc_buffer d) in
  if olen available <? header_size then (inr None, d)
  else if octet_at available 0 >? 1 then (inl FE_InvalidCompressedFlag, d)
  else
    let compressed := octet_at available 0 =? 1 in
    if compressed && negb (bool_decide (dc_compression d = Gzip)) then (inl FE_CompressionMismatch, d)
    else
      let length := Z.lor (Z.lor (Z.lor (Z.shiftl (octet_at available 1) 24) (Z.shiftl (octet_at available 2) 16))
                      (Z.shiftl (octet_at available 3) 8)) (octet_at available 4) in
      if negb compressed && (length >? dc_max_message_size d) then (inl FE_MessageTooLarge, d)
      else
        let end_ := header_size + length in
        if olen available <? end_ then (inr None, d)
        else
          let body := take (Z.to_nat length) (drop 5 available) in
          match (if compressed then decompressGzip memory body (dc_max_message_size d)
                 else if memory 0%nat then inr body else inl FE_OutOfMemory) with
          | inl e => (inl e : FrameError + option DecodedMessage, d)
          | inr payload =>
              (inr (Some (mkDecodedMessage payload end_ compressed)),
               d <| dc_offset := (dc_offset d + Z.to_nat end_)%nat |>)
          end.

Definition finish (d : Decoder) : option FrameError :=
  if bufferedBytes d =? 0 then None else Some FE_TruncatedFrame.

(** [next] for each of the two calls has its own allocations. *)
Definition decodeUnaryWithCompression (memory : nat → Memory) (bytes : octets) (max_message_size : Z)
    (c : Compression) : FrameError + octets :=
  match feed (memory 0%nat 0%nat) bytes (initWithCompression max_message_size c) with
  | (Some e, _) => inl e
  | (None, d) =>
      match nextMessage (memory 1%nat) d with
      | (inl e, _) => inl e
      | (inr None, _) => inl FE_TruncatedFrame
      | (inr (Some message), d1) =>
          match nextMessage (memory 2%nat) d1 with
          | (inl e, _) => inl e
          | (inr (Some _), _) => inl FE_ExpectedUnaryMessage
          | (inr None, d2) =>
              match finish d2 with
              | Some e => inl e
              | None => inr (dm_payload message)
              end
          end
      end
  end.

(** The loops of [decodeAvailableMessages] and [deliverStreamingMessages] over the
    decoder of a stream that is not paused: the messages, and the error that ends
    the stream.  Each message takes at least a header from the buffer, so a round
    for each octet is enough. *)
Fixpoint drain_loop (fuel : nat) (d : Decoder) : list DecodedMessage * option FrameError * Decoder :=
  match fuel with
  | O => ([], None, d)
  | S fuel =>
      match nextMessage enough d with
      | (inl e, d) => ([], Some e, d)
      | (inr None, d) => ([], None, d)
      | (inr (Some message), d) =>
          let '(messages, e, d) := drain_loop fuel d in (message :: messages, e, d)
      end
  end.

Definition drain (d : Decoder) : list DecodedMessage * option FrameError * Decoder :=
  drain_loop (S (length (dc_buffer d))) d.

(** The data of a stream arrive in chunks; after an error the rest is not fed. *)
Fixpoint receive (limit : Z) (chunks : list octets) (d : Decoder)
  : list DecodedMessage * option FrameError * Decoder :=
  match chunks with
  | [] => ([], None, d)
  | chunk :: chunks =>
      match feedBounded true chunk limit d with
      | (Some e, d) => ([], Some e, d)
      | (None, d) =>
          match drain d with
          | (messages, Some e, d) => (messages, Some e, d)
          | (messages, None, d) =>
              let '(more, e, d) := receive limit chunks d in (messages ++ more, e, d)
          end
      end
  end.
End Codec.

(** ** The specification

    The decoder stands for the bytes it has been given and not consumed. *)

Inductive Parse :=
| PWait
| PError (e : FrameError)
| PFrame (message : DecodedMessage) (rest : octets).

Inductive DecoderOp :=
| DFeed (memory : bool) (bytes : octets) (limit : Z)
| DNext (memory : Memory)
| DFinish.

Inductive DecoderResult :=
| RFeed (e : option FrameError)
| RNext (r : FrameError + option DecodedMessage)
| RFinish (e : option FrameError).

(** The results of a sequence of operations, and the state after them *)
Fixpoint results {S O R} (step : O → S → R * S) (ops : list O) (s : S) : list R * S :=
  match ops with
  | [] => ([], s)
  | op :: ops => let '(r, s) := step op s in let '(rs, s) := results step ops s in (r :: rs, s)
  end.

Definition pending (d : Decoder) : octets := drop (dc_offset d) (dc_buffer d).

Section Spec.
Context {F : Flate} (max_message_size : Z) (compression : Compression).

(** What the first frame of the bytes is *)
Definition parse_body (memory : Memory) (compressed : bool) (size : Z) (rest : octets) : Parse :=
  let body := take (Z.to_nat size) rest in
  match (if compressed then decompressGzip memory body max_message_size
         else if memory 0%nat then inr body else inl FE_OutOfMemory) with
  | inl e => PError e
  | inr payload =>
      PFrame (mkDecodedMessage payload (header_size + size) compressed) (drop (Z.to_nat size) rest)
  end.

Definition parse_frame (memory : Memory) (bytes : octets) : Parse :=
  match bytes with
  | flag :: b3 :: b2 :: b1 :: b0 :: rest =>
      let size := ((octet_value b3 * 256 + octet_value b2) * 256 + octet_value b1) * 256 + octet_value b0 in
      if octet_value flag =? 0 then
        if size >? max_message_size then PError FE_MessageTooLarge
        else if olen rest <? size then PWait else parse_body memory false size rest
      else if octet_value flag =? 1 then
        if bool_decide (compression = Gzip) then
          if olen rest <? size then PWait else parse_body memory true size rest
        else PError FE_CompressionMismatch
      else PError FE_InvalidCompressedFlag
  | _ => PWait
  end.

Definition stream_step (op : DecoderOp) (bytes : octets) : DecoderResult * octets :=
  match op with
  | DFeed memory more limit =>
      if olen bytes + olen more >? limit then (RFeed (Some FE_BufferLimitExceeded), bytes)
      else if memory then (RFeed None, bytes ++ more) else (RFeed (Some FE_OutOfMemory), bytes)
  | DNext memory =>
      match parse_frame memory bytes with
      | PWait => (RNext (inr None), bytes)
      | PError e => (RNext (inl e), bytes)
      | PFrame message rest => (RNext (inr (Some message)), rest)
      end
  | DFinish => (RFinish (match bytes with [] => None | _ => Some FE_TruncatedFrame end), bytes)
  end.

Definition decoder_step (op : DecoderOp) (d : Decoder) : DecoderResult * Decoder :=
  match op with
  | DFeed memory bytes limit => let '(e, d) := feedBounded memory bytes limit d in (RFeed e, d)
  | DNext memory => let '(r, d) := nextMessage memory d in (RNext r, d)
  | DFinish => (RFinish (finish d), d)
  end.

(** All the frames of the bytes *)
Fixpoint parse_all (fuel : nat) (bytes : octets) : list DecodedMessage * option FrameError * octets :=
  match fuel with
  | O => ([], None, bytes)
  | S fuel =>
      match parse_frame enough bytes with
      | PWait => ([], None, bytes)
      | PError e => ([], Some e, bytes)
      | PFrame message rest =>
          let '(messages, e, remaining) := parse_all fuel rest in (message :: messages, e, remaining)
      end
  end.

(** The offset is within the buffer, and the decoder is as it was made. *)
Record decoder_ok (d : Decoder) : Prop := {
  do_offset : (dc_offset d ≤ length (dc_buffer d))%nat;
  do_max : dc_max_message_size d = max_message_size;
  do_compression : dc_compression d = compression }.

Lemma decoder_ok_init : decoder_ok (initWithCompression max_message_size compression).
Proof. by split. Qed.

Lemma bufferedBytes_pending d : decoder_ok d → bufferedBytes d = olen (pending d).
Proof.
  intros [Ho _ _]. unfold bufferedBytes, pending, olen. rewrite length_drop. lia.
Qed.

Lemma reclaim_ok d : decoder_ok d → decoder_ok (reclaim d) ∧ pending (reclaim d) = pending d.
Proof.
  intros [Ho Hm Hc]. unfold reclaim, pending.
  destruct (Z.eqb_spec (Z.of_nat (dc_offset d)) (olen (dc_buffer d))) as [E|E]; [|destruct (_ && _)].
  - split; [by split|]. simpl. symmetry. apply drop_ge. unfold olen in E. lia.
  - split; [split; simpl; [lia|done|done]|]. simpl. done.
  - done.
Qed.

Lemma feed_refines memory bytes limit d :
  decoder_ok d →
  let '(e, d') := feedBounded memory bytes limit d in
  decoder_ok d' ∧ stream_step (DFeed memory bytes limit) (pending d) = (RFeed e, pending d').
Proof.
  intros Hd. pose proof (bufferedBytes_pending d Hd) as Hb. unfold feedBounded, stream_step.
  pose proof (olen_nonneg bytes).
  destruct (_ || _) eqn:E.
  - split; [done|]. destruct (Z.gtb_spec (olen (pending d) + olen bytes) limit); [done|lia].
  - destruct (reclaim_ok d Hd) as [Hr Hp].
    destruct (Z.gtb_spec (olen (pending d) + olen bytes) limit); [lia|].
    destruct memory; simpl; [|by rewrite Hp].
    destruct Hr as [Ho Hm Hc]. split; [split; simpl; [rewrite length_app; lia|done|done]|].
    f_equal. rewrite <- Hp. unfold pending at 2. simpl. by rewrite drop_app_le.
Qed.

Lemma header_length available :
  Z.lor (Z.lor (Z.lor (Z.shiftl (octet_at available 1) 24) (Z.shiftl (octet_at available 2) 16))
    (Z.shiftl (octet_at available 3) 8)) (octet_at available 4) =
  ((octet_at available 1 * 256 + octet_at available 2) * 256 + octet_at available 3) * 256 + octet_at available 4.
Proof.
  unfold octet_at. generalize (nth 1 available Ascii.zero), (nth 2 available Ascii.zero),
    (nth 3 available Ascii.zero), (nth 4 available Ascii.zero). intros b3 b2 b1 b0.
  pose proof (octet_value_bound b3). pose proof (octet_value_bound b2).
  pose proof (octet_value_bound b1). pose proof (octet_value_bound b0).
  rewrite <- !Z.lor_assoc, (lor_shiftl _ _ 8), (lor_shiftl _ _ 16), (lor_shiftl _ _ 24) by lia. lia.
Qed.

Lemma consume_ok d flag b3 b2 b1 b0 rest size :
  decoder_ok d → pending d = flag :: b3 :: b2 :: b1 :: b0 :: rest → 0 ≤ size ≤ olen rest →
  let d' := d <| dc_offset := (dc_offset d + Z.to_nat (header_size + size))%nat |> in
  decoder_ok d' ∧ pending d' = drop (Z.to_nat size) rest.
Proof.
  intros [Ho Hm Hc] Ep Hs d'. unfold header_size in d'.
  assert (Hl : (length (dc_buffer d) - dc_offset d = 5 + length rest)%nat)
    by (by rewrite <- length_drop; fold (pending d); rewrite Ep).
  split; [split; simpl; [unfold olen in Hs; lia|done|done]|].
  unfold pending, d'. simpl. rewrite <- drop_drop. fold (pending d). rewrite Ep.
  by replace (Z.to_nat (5 + size)) with (5 + Z.to_nat size)%nat by lia.
Qed.

(** The body of a frame that is there *)
Lemma body_refines memory d flag b3 b2 b1 b0 rest size (compressed : bool) :
  decoder_ok d → pending d = flag :: b3 :: b2 :: b1 :: b0 :: rest → 0 ≤ size ≤ olen rest →
  let '(r, d') :=
    match (if compressed then decompressGzip memory (take (Z.to_nat size) rest) max_message_size
           else if memory 0%nat then inr (take (Z.to_nat size) rest) else inl FE_OutOfMemory) with
    | inl e => (inl e : FrameError + option DecodedMessage, d)
    | inr payload =>
        (inr (Some (mkDecodedMessage payload (header_size + size) compressed)),
         d <| dc_offset := (dc_offset d + Z.to_nat (header_size + size))%nat |>)
    end in
  decoder_ok d' ∧
  match parse_body memory compressed size rest with
  | PWait => (RNext (inr None), pending d)
  | PError e => (RNext (inl e), pending d)
  | PFrame message rest => (RNext (inr (Some message)), rest)
  end = (RNext r, pending d').
Proof.
  intros Hd Ep Hs. unfold parse_body. destruct (if compressed then _ else _) as [e|payload]; [done|].
  destruct (consume_ok _ _ _ _ _ _ _ _ Hd Ep Hs) as [Hd' ->]. done.
Qed.

Lemma next_refines memory d :
  decoder_ok d →
  let '(r, d') := nextMessage memory d in
  decoder_ok d' ∧ stream_step (DNext memory) (pending d) = (RNext r, pending d').
Proof.
  intros Hd. destruct (Hd) as [Ho Hm Hc]. unfold nextMessage, stream_step, parse_frame. fold (pending d).
  rewrite header_length, Hm, Hc.
  destruct (pending d) as [|flag [|b3 [|b2 [|b1 [|b0 rest]]]]] eqn:Ep;
    try (split; [exact Hd|]; simpl; by rewrite Ep).
  unfold octet_at. cbn [nth drop]. rewrite <- Ep.
  set (size := ((octet_value b3 * 256 + octet_value b2) * 256 + octet_value b1) * 256 + octet_value b0).
  assert (Hs : 0 ≤ size).
  { unfold size. pose proof (octet_value_bound b3). pose proof (octet_value_bound b2).
    pose proof (octet_value_bound b1). pose proof (octet_value_bound b0). lia. }
  clearbody size. assert (Hl : olen (pending d) = header_size + olen rest)
    by (rewrite Ep; unfold olen, header_size; simpl length; lia).
  pose proof (olen_nonneg rest). destruct (Z.ltb_spec (olen (pending d)) header_size); [lia|].
  pose proof (octet_value_bound flag).
  destruct (Z.gtb_spec (octet_value flag) 1).
  { destruct (Z.eqb_spec (octet_value flag) 0), (Z.eqb_spec (octet_value flag) 1); by try lia. }
  destruct (Z.eqb_spec (octet_value flag) 1), (Z.eqb_spec (octet_value flag) 0); try lia; cbn [andb negb].
  - destruct (bool_decide (compression = Gzip)); cbn [negb]; [|done].
    destruct (Z.ltb_spec (olen (pending d)) (header_size + size)), (Z.ltb_spec (olen rest) size); try lia; [done|].
    by apply (body_refines memory d flag b3 b2 b1 b0 rest size true).
  - destruct (size >? max_message_size); [done|].
    destruct (Z.ltb_spec (olen (pending d)) (header_size + size)), (Z.ltb_spec (olen rest) size); try lia; [done|].
    by apply (body_refines memory d flag b3 b2 b1 b0 rest size false).
Qed.

Lemma decoder_step_refines op d :
  decoder_ok d →
  let '(r, d') := decoder_step op d in
  decoder_ok d' ∧ stream_step op (pending d) = (r, pending d').
Proof.
  intros Hd. destruct op as [memory bytes limit|memory|]; simpl decoder_step.
  - pose proof (feed_refines memory bytes limit d Hd) as H. by destruct (feedBounded _ _ _ _).
  - pose proof (next_refines memory d Hd) as H. by destruct (nextMessage _ _).
  - split; [done|]. simpl. unfold finish. rewrite bufferedBytes_pending by done. by destruct (pending d).
Qed.

(** ** All the frames *)

Lemma parse_frame_app bytes more :
  match parse_frame enough bytes with
  | PWait => True
  | PError e => parse_frame enough (bytes ++ more) = PError e
  | PFrame message rest => parse_frame enough (bytes ++ more) = PFrame message (rest ++ more) ∧
      (length rest < length bytes)%nat
  end.
Proof.
  destruct bytes as [|flag [|b3 [|b2 [|b1 [|b0 rest]]]]]; try done. cbn [parse_frame app].
  set (size := ((octet_value b3 * 256 + octet_value b2) * 256 + octet_value b1) * 256 + octet_value b0).
  clearbody size.
  assert (Hb : ∀ compressed, (olen rest <? size) = false →
    (olen (rest ++ more) <? size) = false ∧
    match parse_body enough compressed size rest with
    | PWait => True
    | PError e => parse_body enough compressed size (rest ++ more) = PError e
    | PFrame message rest' => parse_body enough compressed size (rest ++ more) = PFrame message (rest' ++ more) ∧
        (length rest' < 5 + length rest)%nat
    end).
  { intros compressed Hl%Z.ltb_ge. rewrite olen_app. pose proof (olen_nonneg more).
    split; [apply Z.ltb_ge; lia|]. unfold parse_body, olen in *.
    rewrite take_app_le, drop_app_le by lia.
    destruct (if compressed then _ else _) as [e|payload]; [done|]. split; [done|]. rewrite length_drop. lia. }
  destruct (octet_value flag =? 0); [|destruct (octet_value flag =? 1); [|done]].
  - destruct (size >? max_message_size); [done|]. destruct (olen rest <? size) eqn:El; [done|].
    destruct (Hb false eq_refl) as [-> H]. by destruct (parse_body _ _ _ rest).
  - destruct (bool_decide _); [|done]. destruct (olen rest <? size) eqn:El; [done|].
    destruct (Hb true eq_refl) as [-> H]. by destruct (parse_body _ _ _ rest).
Qed.

Lemma parse_all_fuel n1 n2 bytes :
  (length bytes < n1)%nat → (length bytes < n2)%nat → parse_all n1 bytes = parse_all n2 bytes.
Proof.
  revert n2 bytes. induction n1 as [|n1 IH]; intros n2 bytes H1 H2; [lia|]. destruct n2 as [|n2]; [lia|].
  simpl. pose proof (parse_frame_app bytes []) as H. destruct (parse_frame enough bytes); [done|done|].
  rewrite (IH n2); [done|lia|lia].
Qed.

Lemma parse_all_S n bytes :
  parse_all (S n) bytes =
  match parse_frame enough bytes with
  | PWait => ([], None, bytes)
  | PError e => ([], Some e, bytes)
  | PFrame message rest =>
      let '(messages, e, remaining) := parse_all n rest in (message :: messages, e, remaining)
  end.
Proof. done. Qed.

(** Frames do not depend on the bytes behind them. *)
Lemma parse_all_app n m bytes more :
  (length bytes < n)%nat → (length (bytes ++ more) < m)%nat →
  match parse_all n bytes with
  | (messages, Some e, _) => ∃ rest, parse_all m (bytes ++ more) = (messages, Some e, rest)
  | (messages, None, rest) => (length rest ≤ length bytes)%nat ∧ parse_all m (bytes ++ more) =
      let '(more, e, rest) := parse_all m (rest ++ more) in (messages ++ more, e, rest)
  end.
Proof.
  revert m bytes. induction n as [|n IH]; intros m bytes H1 H2; [lia|]. destruct m as [|m]; [lia|].
  assert (Hw : (length bytes ≤ length bytes)%nat ∧ parse_all (S m) (bytes ++ more) =
    let '(more, e, rest) := parse_all (S m) (bytes ++ more) in ([] ++ more, e, rest))
    by (split; [done|]; by destruct (parse_all (S m) (bytes ++ more)) as [[? ?] ?]).
  pose proof (parse_frame_app bytes more) as H. rewrite parse_all_S.
  destruct (parse_frame enough bytes) as [|e|message rest]; [exact Hw| |].
  - rewrite parse_all_S, H. by exists (bytes ++ more).
  - destruct H as [H Hl]. rewrite (parse_all_S m (bytes ++ more)), H.
    assert (Hm : (length (rest ++ more) < m)%nat) by (rewrite length_app in *; lia).
    specialize (IH m rest ltac:(lia) Hm).
    destruct (parse_all n rest) as [[messages [e|]] rest'].
    + destruct IH as [rest'' ->]. by exists rest''.
    + destruct IH as [Hl' ->]. split; [lia|].
      rewrite (parse_all_fuel m (S m)) by (rewrite length_app in *; lia).
      by destruct (parse_all (S m) (rest' ++ more)) as [[? ?] ?].
Qed.

Lemma drain_loop_refines n d :
  decoder_ok d →
  let '(messages, e, d') := drain_loop n d in
  decoder_ok d' ∧ parse_all n (pending d) = (messages, e, pending d').
Proof.
  revert d. induction n as [|n IH]; intros d Hd; [done|]. simpl.
  pose proof (next_refines enough d Hd) as H. simpl in H.
  destruct (nextMessage enough d) as [[e|[message|]] d1]; destruct H as [Hd1 H];
    destruct (parse_frame enough (pending d)) as [|e'|message' rest]; simplify_eq; try done;
    try by (split; [|congruence]).
  - specialize (IH d1 Hd1). destruct (drain_loop n d1) as [[messages e] d2]. destruct IH as [Hd2 ->]. done.
Qed.

Lemma drain_refines d :
  decoder_ok d →
  let '(messages, e, d') := drain d in
  decoder_ok d' ∧ ∀ n, (length (pending d) < n)%nat → parse_all n (pending d) = (messages, e, pending d').
Proof.
  intros Hd. unfold drain. pose proof (drain_loop_refines (S (length (dc_buffer d))) d Hd) as H.
  destruct (drain_loop _ d) as [[messages e] d']. destruct H as [Hd' H]. split; [done|].
  intros n Hn. rewrite <- H. apply parse_all_fuel; [done|]. unfold pending. rewrite length_drop. lia.
Qed.

(** What arrives in chunks is what the bytes hold that were pending with all of the
    chunks behind them. *)
Lemma receive_refines limit chunks d n :
  decoder_ok d → olen (pending d ++ concat chunks) ≤ limit → (length (pending d ++ concat chunks) < n)%nat →
  parse_all n (pending d) = ([], None, pending d) →
  let '(messages, e, d') := receive limit chunks d in
  decoder_ok d' ∧ ∃ rest, parse_all n (pending d ++ concat chunks) = (messages, e, rest) ∧
    (e = None → rest = pending d').
Proof.
  revert d n. induction chunks as [|chunk chunks IH]; intros d n Hd Hl Hn Hp; cbn [receive concat].
  { split; [done|]. rewrite app_nil_r. by exists (pending d). }
  pose proof (feed_refines true chunk limit d Hd) as Hf. cbn [stream_step concat] in *.
  rewrite !olen_app in Hl. rewrite !length_app in Hn. pose proof (olen_nonneg (concat chunks)).
  destruct (Z.gtb_spec (olen (pending d) + olen chunk) limit); [lia|].
  destruct (feedBounded true chunk limit d) as [e1 d1]. destruct Hf as [Hd1 [= <- Hp1]].
  pose proof (drain_refines d1 Hd1) as Hdr. destruct (drain d1) as [[messages e] d2].
  destruct Hdr as [Hd2 Hdr]. rewrite <- Hp1, length_app in Hdr.
  rewrite app_assoc. pose proof (parse_all_app n n (pending d ++ chunk) (concat chunks)) as Ha.
  rewrite Hdr, !length_app in Ha by lia. specialize (Ha ltac:(lia) ltac:(lia)). destruct e as [e|].
  - split; [done|]. destruct Ha as [rest Ha]. by exists rest.
  - destruct Ha as [Hle Ha]. rewrite Ha.
    specialize (IH d2 n Hd2). rewrite !olen_app, !length_app in IH. unfold olen in *.
    specialize (IH ltac:(lia) ltac:(lia)).
    assert (Hq : parse_all n (pending d2) = ([], None, pending d2)).
    { pose proof (parse_all_app n n (pending d ++ chunk) []) as Hb.
      rewrite Hdr, app_nil_r, length_app in Hb by lia. specialize (Hb ltac:(lia) ltac:(lia)).
      destruct Hb as [_ Hb]. rewrite Hdr, app_nil_r in Hb by lia.
      destruct (parse_all n (pending d2)) as [[ms e] rest]. injection Hb as Hb <- <-.
      rewrite <- (app_nil_r messages) in Hb at 1. apply app_inv_head in Hb. by subst. }
    specialize (IH Hq). destruct (receive limit chunks d2) as [[more e] d3]. destruct IH as [Hd3 (rest & -> & Hr)].
    split; [done|]. by exists rest.
Qed.
End Spec.

(** ** Encoding *)

Section Encoding.
Context {F : Flate}.

(** The sizes the transports account for *)
Definition flate_size : GzipSize := {|
  gzip_size s := olen (compress (String.list_ascii_of_string s));
  gzip_size_nonneg s := olen_nonneg _ |}.

Lemma frame_length_octets n :
  0 ≤ n ≤ u32_max →
  ((octet_value (truncate_u8 (Z.shiftr n 24)) * 256 + octet_value (truncate_u8 (Z.shiftr n 16))) * 256 +
    octet_value (truncate_u8 (Z.shiftr n 8))) * 256 + octet_value (truncate_u8 n) = n.
Proof.
  intros H. unfold u32_max in H. rewrite !octet_value_truncate, !Z.shiftr_div_pow2 by lia.
  change (2 ^ 24) with 16777216. change (2 ^ 16) with 65536. change (2 ^ 8) with 256. Z.to_euclidean_division_equations. lia.
Qed.

Lemma decompress_compress payload max_message_size :
  olen payload ≤ max_message_size ≤ usize_max →
  decompressGzip enough (compress payload) max_message_size = inr payload.
Proof.
  intros H. unfold decompressGzip. destruct (compress_header payload) as [Hl Hf].
  rewrite (proj2 (Z.ltb_ge _ _) Hl), Hf. cbn -[Z.add].
  rewrite inflate_compress.
  - rewrite !Z.eqb_refl. by destruct (Z.gtb_spec (olen payload) max_message_size); [lia|].
  - intros n. destruct (_ =? _); [done|]. intros [= <-]. lia.
Qed.

Lemma encodePayload_length m body compressed frame :
  encodePayload m body compressed = inr frame → olen frame = header_size + olen body.
Proof.
  unfold encodePayload. destruct (_ >? _), m; intros [= <-]. unfold olen, header_size. simpl length. lia.
Qed.

Lemma parse_payload max_message_size compression m body compressed frame rest :
  encodePayload m body compressed = inr frame →
  (if compressed then compression = Gzip else olen body ≤ max_message_size) →
  parse_frame max_message_size compression enough (frame ++ rest) =
  match (if compressed then decompressGzip enough body max_message_size else inr body) with
  | inl e => PError e
  | inr payload => PFrame (mkDecodedMessage payload (olen frame) compressed) rest
  end.
Proof.
  intros He Hc. rewrite (encodePayload_length _ _ _ _ He). revert He. unfold encodePayload.
  destruct (Z.gtb_spec (olen body) u32_max); [done|]. destruct m; [|done]. intros [= <-].
  pose proof (olen_nonneg body). pose proof (olen_nonneg rest).
  cbn [app parse_frame]. rewrite frame_length_octets, olen_app by lia.
  rewrite (proj2 (Z.ltb_ge _ _)) by lia. unfold parse_body.
  rewrite take_olen_app, drop_olen_app, octet_value_truncate.
  destruct compressed; simpl; [by rewrite Hc|]. by destruct (Z.gtb_spec (olen body) max_message_size); [lia|].
Qed.

(** A frame is read back, whatever comes behind it. *)
Lemma parse_encoded max_message_size compression memory payload c frame rest :
  encodeWithCompression memory payload c = inr frame →
  olen payload ≤ max_message_size ≤ usize_max → (c = Gzip → compression = Gzip) →
  parse_frame max_message_size compression enough (frame ++ rest) =
    PFrame (mkDecodedMessage payload (olen frame) (bool_decide (c = Gzip))) rest.
Proof.
  intros He Hm Hc. destruct c; simpl in He.
  - by rewrite (parse_payload _ _ _ _ _ _ _ He) by lia.
  - destruct (_ && _); [|done]. rewrite (parse_payload _ _ _ _ _ _ _ He) by auto.
    by rewrite decompress_compress.
Qed.

Lemma encoded_length memory s c frame :
  encodeWithCompression memory (String.list_ascii_of_string s) c = inr frame →
  olen frame = encoded_size (GZ := flate_size) s c.
Proof.
  unfold encoded_size, body_size. destruct c; simpl.
  - intros ->%encodePayload_length. by rewrite olen_string.
  - destruct (_ && _); [|done]. by intros ->%encodePayload_length.
Qed.
End Encoding.

(** ** Bounds *)

Section Bounds.
Context {F : Flate} (limit : Z).

Definition limited (op : DecoderOp) : Prop :=
  match op with DFeed _ _ l => l ≤ limit | _ => True end.

Record bounded (d : Decoder) : Prop := {
  bd_offset : Z.of_nat (dc_offset d) ≤ olen (dc_buffer d);
  bd_pending : bufferedBytes d ≤ limit;
  bd_buffer : olen (dc_buffer d) ≤ 2 * limit }.

(** After [reclaim] less than half of the buffer has been consumed. *)
Lemma reclaim_bounded d :
  Z.of_nat (dc_offset d) ≤ olen (dc_buffer d) →
  Z.of_nat (dc_offset (reclaim d)) ≤ olen (dc_buffer (reclaim d)) ∧
  bufferedBytes (reclaim d) = bufferedBytes d ∧
  olen (dc_buffer (reclaim d)) ≤ 2 * bufferedBytes (reclaim d).
Proof.
  intros Ho. unfold reclaim, bufferedBytes. pose proof (olen_nonneg (dc_buffer d)).
  destruct (Z.eqb_spec (Z.of_nat (dc_offset d)) (olen (dc_buffer d))); [unfold olen in *; simpl; lia|].
  destruct (_ && _) eqn:E.
  - simpl. unfold olen in *. rewrite length_drop. lia.
  - split; [done|]. split; [done|]. Z.to_euclidean_division_equations. lia.
Qed.

Lemma next_buffer memory d :
  dc_buffer (nextMessage memory d).2 = dc_buffer d ∧
  (dc_offset d ≤ dc_offset (nextMessage memory d).2)%nat.
Proof. unfold nextMessage. cbv zeta. repeat case_match; simpl; split; done || lia. Qed.

Lemma step_bounded op d : limited op → bounded d → bounded (decoder_step op d).2.
Proof.
  intros Hl Hb. destruct (Hb) as [Ho Hp Hs]. destruct op as [memory bytes l|memory|]; [| |done].
  - simpl. unfold feedBounded. destruct (_ || _) eqn:E; [done|]. pose proof (olen_nonneg bytes).
    destruct (reclaim_bounded d Ho) as (Ho' & Hp' & Hs'). simpl in Hl.
    destruct memory; [|split; simpl; lia].
    unfold bufferedBytes in *. split; simpl; unfold bufferedBytes; simpl; rewrite olen_app; lia.
  - assert (Hd : decoder_ok (dc_max_message_size d) (dc_compression d) d)
      by (split; [unfold olen in Ho; lia|done|done]).
    pose proof (next_refines _ _ memory d Hd) as H. pose proof (next_buffer memory d) as [Eb Hle]. simpl.
    destruct (nextMessage memory d) as [r d']. destruct H as [[Ho' _ _] _]. simpl in Eb, Hle.
    unfold bufferedBytes in *. split; simpl; unfold bufferedBytes; rewrite ?Eb in *; unfold olen in *; lia.
Qed.

Lemma results_bounded ops d :
  Forall limited ops → bounded d → bounded (results decoder_step ops d).2.
Proof.
  intros Ho. revert d. induction Ho as [|op ops Hop Hops IH]; intros d Hd; [done|]. simpl.
  pose proof (step_bounded op d Hop Hd) as H. destruct (decoder_step op d) as [r d1].
  specialize (IH d1 H). by destruct (results decoder_step ops d1).
Qed.
End Bounds.

(** ** Properties *)

Section Properties.
Context {F : Flate} (max_message_size : Z) (compression : Compression).

(** C12. The decoder is the queue of the bytes it was given: in every sequence of feeding,
    decoding and finishing, with limits and with allocations that fail anywhere, its
    results are those of a specification that keeps just the unconsumed bytes and
    reads frames off their front; moving the buffer around shows nowhere. *)
Theorem decoder_refines_stream ops :
  let '(rs, d) := results decoder_step ops (initWithCompression max_message_size compression) in
  results (stream_step max_message_size compression) ops [] = (rs, pending d).
Proof.
  assert (H : ∀ d, decoder_ok max_message_size compression d →
    let '(rs, d') := results decoder_step ops d in
    results (stream_step max_message_size compression) ops (pending d) = (rs, pending d')).
  { induction ops as [|op ops IH]; intros d Hd; [done|]. simpl.
    pose proof (decoder_step_refines _ _ op d Hd) as H. destruct (decoder_step op d) as [r d1].
    destruct H as [Hd1 ->]. specialize (IH d1 Hd1). destruct (results decoder_step ops d1). by rewrite IH. }
  apply H, decoder_ok_init.
Qed.

(** The buffer of the decoder is bounded: when every feed is bounded by a limit, the
    unconsumed bytes stay within it and the whole buffer, consumed bytes included,
    within twice the limit, whatever the peer sends and whenever messages are taken;
    the offset never leaves the buffer. *)
Lemma decoder_buffer_bounded limit ops :
  0 ≤ limit → Forall (limited limit) ops →
  let d := (results decoder_step ops (initWithCompression max_message_size compression)).2 in
  Z.of_nat (dc_offset d) ≤ olen (dc_buffer d) ≤ 2 * limit ∧ 0 ≤ bufferedBytes d ≤ limit.
Proof.
  intros Hl Ho d. destruct (results_bounded limit ops (initWithCompression max_message_size compression) Ho)
    as [H1 H2 H3]; [split; unfold bufferedBytes, olen; simpl; lia|]. fold d in H1, H2, H3.
  unfold bufferedBytes in *. lia.
Qed.

(** How the transport cuts the bytes of a stream does not matter: however the same
    bytes, well-formed or not, are divided into chunks, the receiver gets the same
    messages and the same error, and, without an error, the same unfinished rest. *)
Lemma fragmentation_irrelevant limit chunks1 chunks2 :
  concat chunks1 = concat chunks2 → olen (concat chunks1) ≤ limit →
  let '(messages1, e1, d1) := receive limit chunks1 (initWithCompression max_message_size compression) in
  let '(messages2, e2, d2) := receive limit chunks2 (initWithCompression max_message_size compression) in
  messages1 = messages2 ∧ e1 = e2 ∧ (e1 = None → pending d1 = pending d2 ∧ finish d1 = finish d2).
Proof.
  intros Hc Hl. set (d := initWithCompression max_message_size compression).
  pose proof (decoder_ok_init max_message_size compression) as Hd. fold d in Hd.
  set (n := S (length (concat chunks1))).
  pose proof (receive_refines _ _ limit chunks1 d n Hd Hl ltac:(simpl; lia) eq_refl) as H1.
  rewrite Hc in Hl. pose proof (receive_refines _ _ limit chunks2 d n Hd Hl ltac:(simpl; rewrite <- Hc; lia) eq_refl) as H2.
  destruct (receive limit chunks1 d) as [[m1 e1] d1], (receive limit chunks2 d) as [[m2 e2] d2].
  destruct H1 as [Hd1 (r1 & E1 & F1)], H2 as [Hd2 (r2 & E2 & F2)].
  change (pending d) with (@nil octet) in E1, E2. rewrite Hc, E2 in E1. simplify_eq. split; [done|]. split; [done|]. intros ->.
  assert (Hp : pending d1 = pending d2) by (rewrite <- F1, <- F2 by done; done). split; [done|].
  unfold finish. erewrite !bufferedBytes_pending, Hp by done. done.
Qed.

(** C3. What is sent arrives: the frames of any messages, each with the compression it
    was sent with, divided into chunks in any way, are decoded to exactly these
    messages in their order, with nothing left over, and each takes from the wire
    what the transport accounted for it. *)
Theorem frames_roundtrip limit (sent : list (string * Compression)) frames chunks :
  Forall2 (λ x frame, encodeWithCompression enough (String.list_ascii_of_string x.1) x.2 = inr frame)
    sent frames →
  Forall (λ x, zlen x.1 ≤ max_message_size ∧ (x.2 = Gzip → compression = Gzip)) sent →
  max_message_size ≤ usize_max → concat chunks = concat frames → olen (concat chunks) ≤ limit →
  ∃ d, receive limit chunks (initWithCompression max_message_size compression) =
    (map (λ x, mkDecodedMessage (String.list_ascii_of_string x.1) (encoded_size (GZ := flate_size) x.1 x.2)
       (bool_decide (x.2 = Gzip))) sent, None, d) ∧ finish d = None.
Proof.
  intros He Hs Hm Hc Hl. set (d0 := initWithCompression max_message_size compression).
  pose proof (decoder_ok_init max_message_size compression) as Hd. fold d0 in Hd.
  set (n := S (length (concat chunks))).
  pose proof (receive_refines _ _ limit chunks d0 n Hd Hl ltac:(simpl; lia) eq_refl) as H.
  destruct (receive limit chunks d0) as [[messages e] d]. destruct H as [Hd' (rest & E & Hr)].
  change (pending d0 ++ concat chunks) with (concat chunks) in E. rewrite Hc in E.
  assert (Hp : ∀ n, (length (concat frames) < n)%nat → parse_all max_message_size compression n (concat frames) =
    (map (λ x, mkDecodedMessage (String.list_ascii_of_string x.1) (encoded_size (GZ := flate_size) x.1 x.2)
       (bool_decide (x.2 = Gzip))) sent, None, [])).
  { clear -He Hs Hm. induction He as [|x frame sent frames Hx He IH]; intros n Hn; destruct n as [|n];
      cbn [concat] in *; [lia|done|lia|].
    inversion_clear Hs as [|? ? [Hx1 Hx2] Hs']. rewrite length_app in Hn.
    assert (Hf : (0 < length frame)%nat) by (apply encoded_length in Hx; unfold olen in Hx;
      pose proof (encoded_size_nonneg (GZ := flate_size) x.1 x.2); lia).
    rewrite parse_all_S, (parse_encoded _ _ enough (String.list_ascii_of_string x.1) x.2 frame);
      [|done|rewrite olen_string; lia|done].
    rewrite IH by (done || lia). by rewrite (encoded_length _ _ _ _ Hx). }
  rewrite Hp in E by (rewrite <- Hc; lia). simplify_eq. exists d. split; [done|].
  unfold finish. erewrite bufferedBytes_pending by done. by rewrite <- Hr.
Qed.
End Properties.

(** ** Examples *)

(** A gzip codec that stores each octet in a deflate block of its own *)
Definition gzip_header : octets := map Ascii.ascii_of_nat [31; 139; 8; 0; 0; 0; 0; 0; 0; 255]%nat.
Definition stored_block (b : octet) : octets := map Ascii.ascii_of_nat [0; 1; 0; 254; 255]%nat ++ [b].
Definition last_block : octets := map Ascii.ascii_of_nat [1; 0; 0; 255; 255]%nat.

Definition le32 (z : Z) : octets :=
  [truncate_u8 z; truncate_u8 (Z.shiftr z 8); truncate_u8 (Z.shiftr z 16); truncate_u8 (Z.shiftr z 24)].

Definition stored_compress (p : octets) : octets :=
  gzip_header ++ (concat (map stored_block p) ++ last_block) ++ le32 (Crc32_hash p) ++ le32 (cast_u32 (olen p)).

Fixpoint inflate_blocks (bytes : octets) : option (octets * octets) :=
  match bytes with
  | h :: l0 :: l1 :: n0 :: n1 :: ((b :: rest) as tail) =>
      if decide ([h; l0; l1; n0; n1] = last_block) then Some ([], tail)
      else if decide ([h; l0; l1; n0; n1; b] = stored_block b)
      then '(out, tail) ← inflate_blocks rest; Some (b :: out, tail)
      else None
  | _ => None
  end.

Definition le32_value (b0 b1 b2 b3 : octet) : Z :=
  ((octet_value b3 * 256 + octet_value b2) * 256 + octet_value b1) * 256 + octet_value b0.

Definition stored_inflate (limit : option Z) (bytes : octets) : Inflated :=
  if decide (take 10 bytes = gzip_header) then
    match inflate_blocks (drop 10 bytes) with
    | Some (out, [c0; c1; c2; c3; n0; n1; n2; n3]) =>
        if match limit with Some n => n <=? olen out | None => false end then StreamTooLong
        else Inflate out (olen bytes) (le32_value n0 n1 n2 n3) (le32_value c0 c1 c2 c3)
    | _ => Malformed
    end
  else Malformed.

Lemma inflate_stored p b0 rest :
  inflate_blocks ((concat (map stored_block p) ++ last_block) ++ b0 :: rest) = Some (p, b0 :: rest).
Proof.
  induction p as [|b p IH]; [done|]. cbn [map concat]. rewrite <- !app_assoc in *.
  assert (H : ∀ tail, inflate_blocks (stored_block b ++ tail) =
    ('(out, tail) ← inflate_blocks tail; Some (b :: out, tail))).
  { intros tail. cbn [stored_block map app inflate_blocks]. rewrite decide_False, decide_True; done. }
  by rewrite H, IH.
Qed.

Lemma le32_octets z :
  0 ≤ z ≤ u32_max →
  le32_value (truncate_u8 z) (truncate_u8 (Z.shiftr z 8)) (truncate_u8 (Z.shiftr z 16))
    (truncate_u8 (Z.shiftr z 24)) = z.
Proof. apply frame_length_octets. Qed.

Lemma lxor_u32 a b : 0 ≤ a ≤ u32_max → 0 ≤ b ≤ u32_max → 0 ≤ Z.lxor a b ≤ u32_max.
Proof.
  unfold u32_max. intros Ha Hb. split; [apply Z.lxor_nonneg; lia|].
  destruct (Z.eq_dec (Z.lxor a b) 0) as [->|Hz]; [lia|].
  assert (0 < Z.lxor a b) by (pose proof (proj2 (Z.lxor_nonneg a b)); lia).
  assert (Z.lxor a b < 2 ^ 32); [|lia]. apply Z.log2_lt_pow2; [done|].
  pose proof (Z.log2_lxor a b ltac:(lia) ltac:(lia)).
  assert (∀ c, 0 ≤ c ≤ 2 ^ 32 - 1 → Z.log2 c < 32) as Hlog.
  { intros c Hc. destruct (Z.eq_dec c 0) as [->|]; [done|]. apply Z.log2_lt_pow2; lia. }
  pose proof (Hlog a Ha). pose proof (Hlog b Hb). lia.
Qed.

Lemma crc_bits_u32 n crc : 0 ≤ crc ≤ u32_max → 0 ≤ crc_bits n crc ≤ u32_max.
Proof.
  revert crc. induction n as [|n IH]; intros crc H; [done|]. cbn [crc_bits]. apply IH.
  assert (0 ≤ crc ≫ 1 ≤ u32_max).
  { rewrite Z.shiftr_div_pow2 by lia. change (2 ^ 1) with 2. Z.to_euclidean_division_equations. lia. }
  destruct (Z.testbit crc 0); [|done]. apply lxor_u32; [done|]. unfold u32_max. lia.
Qed.

Lemma Crc32_hash_u32 p : 0 ≤ Crc32_hash p ≤ u32_max.
Proof.
  unfold Crc32_hash. apply lxor_u32; [|by vm_compute].
  assert (H : ∀ z, 0 ≤ z ≤ u32_max →
    0 ≤ foldl (λ crc b, crc_bits 8 (Z.lxor crc (octet_value b))) z p ≤ u32_max); [|by apply H].
  induction p as [|b p IH]; intros z H; [done|]. cbn [foldl]. apply IH, crc_bits_u32, lxor_u32; [done|].
  pose proof (octet_value_bound b). unfold u32_max. lia.
Qed.

Lemma stored_inflate_compress limit p :
  (∀ n, limit = Some n → olen p < n) →
  stored_inflate limit (stored_compress p) =
    Inflate p (olen (stored_compress p)) (cast_u32 (olen p)) (Crc32_hash p).
Proof.
  intros Hl. unfold stored_inflate. rewrite decide_True by done.
  change (drop 10 (stored_compress p)) with ((concat (map stored_block p) ++ last_block) ++
    le32 (Crc32_hash p) ++ le32 (cast_u32 (olen p))).
  unfold le32. cbn [app]. rewrite inflate_stored, !le32_octets.
  - destruct limit as [n|]; [|done]. specialize (Hl n eq_refl). by rewrite (proj2 (Z.leb_gt _ _)) by lia.
  - apply Crc32_hash_u32.
  - unfold cast_u32, u32_max. pose proof (Z.mod_pos_bound (olen p) (2 ^ 32)). lia.
Qed.

Lemma stored_header p : 10 ≤ olen (stored_compress p) ∧ Z.land (flags (stored_compress p)) 224 = 0.
Proof. split; [|reflexivity]. unfold stored_compress, olen. rewrite length_app. change (length gzip_header) with 10%nat. lia. Qed.

Definition stored_flate : Flate := {|
  compress := stored_compress;
  inflate := stored_inflate;
  compress_header := stored_header;
  inflate_compress := stored_inflate_compress |}.

Definition example_sent : list (string * Compression) := [("hello", Gzip); ("", Identity); ("bye", Identity)].

Definition example_frames : list octets :=
  omap (λ x, match encodeWithCompression (F := stored_flate) enough (String.list_ascii_of_string x.1) x.2 with
             | inr frame => Some frame | inl _ => None end) example_sent.

(** One octet at a time *)
Lemma frames_roundtrip_witness :
  ∃ d, receive (F := stored_flate) 200 (map (λ b, [b]) (concat example_frames)) (initWithCompression 16 Gzip) =
    (map (λ x, mkDecodedMessage (String.list_ascii_of_string x.1)
       (encoded_size (GZ := flate_size (F := stored_flate)) x.1 x.2) (bool_decide (x.2 = Gzip))) example_sent,
     None, d) ∧ finish d = None.
Proof.
  apply (frames_roundtrip (F := stored_flate) 16 Gzip 200 example_sent example_frames
    (map (λ b, [b]) (concat example_frames))).
  - repeat constructor.
  - repeat constructor; vm_compute; discriminate.
  - vm_compute. discriminate.
  - vm_compute. reflexivity.
  - vm_compute. discriminate.
Defined.

(** A frame that is complete, one that is not, and a bad flag *)
Definition example_bytes : octets := concat example_frames ++ map Ascii.ascii_of_nat [2; 0; 0; 0; 0]%nat.

Lemma fragmentation_irrelevant_witness :
  (receive (F := stored_flate) 200 [example_bytes] (initWithCompression 16 Gzip)).1.2 =
    Some FE_InvalidCompressedFlag ∧
  (receive (F := stored_flate) 200 (map (λ b, [b]) example_bytes) (initWithCompression 16 Gzip)).1 =
  (receive (F := stored_flate) 200 [example_bytes] (initWithCompression 16 Gzip)).1.
Proof.
  split; [vm_compute; reflexivity|].
  pose proof (fragmentation_irrelevant (F := stored_flate) 16 Gzip 200 (map (λ b, [b]) example_bytes)
    [example_bytes] ltac:(vm_compute; reflexivity) ltac:(vm_compute; discriminate)) as H.
  destruct (receive 200 (map (λ b, [b]) example_bytes) (initWithCompression 16 Gzip)) as [[m1 e1] d1].
  destruct (receive 200 [example_bytes] (initWithCompression 16 Gzip)) as [[m2 e2] d2].
  destruct H as (-> & -> & _). reflexivity.
Defined.

Lemma decoder_buffer_bounded_witness :
  (results (decoder_step (F := stored_flate)) [DFeed true (concat example_frames) 100; DNext enough;
     DFeed true example_bytes 100] (initWithCompression 16 Gzip)).1 =
    [RFeed None; RNext (inr (Some (mkDecodedMessage (String.list_ascii_of_string "hello") 58 true))); RFeed None] ∧
  let d := (results (decoder_step (F := stored_flate))
    [DFeed true (concat example_frames) 100; DNext enough; DFeed true example_bytes 100]
    (initWithCompression 16 Gzip)).2 in
  Z.of_nat (dc_offset d) ≤ olen (dc_buffer d) ≤ 200 ∧ 0 ≤ bufferedBytes d ≤ 100.
Proof.
  split; [vm_compute; reflexivity|].
  apply (decoder_buffer_bounded (F := stored_flate) 16 Gzip 100
    [DFeed true (concat example_frames) 100; DNext enough; DFeed true example_bytes 100]).
  - lia.
  - repeat constructor; simpl; lia.
Defined.
