(* ===== verification/Timeout.v ===== *)
(** * Deadlines and the timeout header

    [src/deadline.zig]: the deadline of a call on a monotonic clock of nanoseconds, and
    the [grpc-timeout] header that carries the client's timeout to the server. *)

From S2P Require Import Prelude Octets.

Local Open Scope Z_scope.

(** Zig's saturating addition on [u64] *)
Definition sat_add (a b : Z) : Z := Z.min (a + b) u64_max.

(** [clock.now()] is an argument of the operations. *)
Record Deadline := mkDeadline { expires_at_ns : Z }.

Definition initAfter (now timeout_ns : Z) : Deadline := mkDeadline (sat_add now timeout_ns).
Definition remainingNs (now : Z) (d : Deadline) : Z := sat_sub (expires_at_ns d) now.
Definition isExceeded (now : Z) (d : Deadline) : bool := expires_at_ns d <=? now.

(** ** The header *)

Record Unit := mkUnit { divisor : Z; suffix : octet }.

Definition ns_per_us : Z := 1000.
Definition ns_per_ms : Z := 1000000.
Definition ns_per_s : Z := 1000000000.

Definition units : list Unit :=
  [mkUnit 1 "n"%char; mkUnit ns_per_us "u"%char; mkUnit ns_per_ms "m"%char; mkUnit ns_per_s "S"%char;
   mkUnit (60 * ns_per_s) "M"%char; mkUnit (60 * 60 * ns_per_s) "H"%char].

(** [std.math.divCeil] on [u64] *)
Definition divCeil (a b : Z) : Z := if 0 <? a then (a - 1) / b + 1 else 0.

Definition digit (n : Z) : octet := truncate_u8 (48 + n).

(** [{d}]: a [u64] has at most twenty digits. *)
Fixpoint decimal_loop (fuel : nat) (n : Z) : octets :=
  match fuel with
  | O => []
  | S fuel => if n <? 10 then [digit n] else decimal_loop fuel (n / 10) ++ [digit (n mod 10)]
  end.

Definition decimal (n : Z) : octets := decimal_loop 20 n.

(** [std.fmt.bufPrint]: [None] when the buffer is too small *)
Definition bufPrint (buffer_len : Z) (text : octets) : option octets :=
  if olen text <=? buffer_len then Some text else None.

(** [None] where the code is unreachable *)
Fixpoint formatTimeout_loop (units : list Unit) (buffer_len timeout_ns : Z) : option octets :=
  match units with
  | [] => None
  | unit :: units =>
      let value := Z.max 1 (divCeil timeout_ns (divisor unit)) in
      if (value <=? 99999999) || bool_decide (suffix unit = "H"%char)
      then bufPrint buffer_len (decimal (Z.min value 99999999) ++ [suffix unit])
      else formatTimeout_loop units buffer_len timeout_ns
  end.

Definition formatTimeout : Z → Z → option octets := formatTimeout_loop units.

(** [std.ascii.isDigit] *)
Definition isDigit (b : octet) : bool := (48 <=? octet_value b) && (octet_value b <=? 57).

(** [std.fmt.parseInt(u64, digits, 10)] on digits: [None] on overflow *)
Definition parseInt (digits : octets) : option Z :=
  foldl (λ acc b, n ← acc; let n := 10 * n + (octet_value b - 48) in
                  if n <=? u64_max then Some n else None) (Some 0) digits.

Definition multiplier (b : octet) : option Z :=
  if decide (b = "n"%char) then Some 1
  else if decide (b = "u"%char) then Some ns_per_us
  else if decide (b = "m"%char) then Some ns_per_ms
  else if decide (b = "S"%char) then Some ns_per_s
  else if decide (b = "M"%char) then Some (60 * ns_per_s)
  else if decide (b = "H"%char) then Some (60 * 60 * ns_per_s)
  else None.

(** [None] for [error.InvalidTimeout] *)
Definition parseTimeout (value : octets) : option Z :=
  if (olen value <? 2) || (olen value >? 9) then None
  else
    let digits := take (length value - 1) value in
    if negb (forallb isDigit digits) then None
    else
      amount ← parseInt digits;
      m ← multiplier (nth (length value - 1) value Ascii.zero);
      Some (Z.min (amount * m) u64_max).

(** ** Decimal numbers *)

Lemma digit_value n : 0 ≤ n < 10 → octet_value (digit n) = 48 + n.
Proof. intros H. unfold digit. rewrite octet_value_truncate, Z.mod_small; lia. Qed.

Lemma digit_isDigit n : 0 ≤ n < 10 → isDigit (digit n) = true.
Proof. intros H. unfold isDigit. rewrite digit_value by done. lia. Qed.

(** [k] digits are enough for a number below [10 ^ k]. *)
Lemma decimal_loop_ok k fuel n :
  (1 ≤ k ≤ fuel)%nat → 0 ≤ n < 10 ^ Z.of_nat k → n ≤ u64_max →
  (1 ≤ length (decimal_loop fuel n) ≤ k)%nat ∧ forallb isDigit (decimal_loop fuel n) = true ∧
  parseInt (decimal_loop fuel n) = Some n.
Proof.
  revert fuel n. induction k as [|k IH]; intros fuel n Hk Hn Hu; [lia|]. destruct fuel as [|fuel]; [lia|].
  cbn [decimal_loop]. destruct (Z.ltb_spec n 10).
  - split; [simpl; lia|]. split; [simpl; by rewrite digit_isDigit by lia|].
    unfold parseInt. simpl. rewrite digit_value by lia. rewrite (proj2 (Z.leb_le _ _)) by lia. f_equal. lia.
  - pose proof (Z.mod_pos_bound n 10). pose proof (Z.div_mod n 10).
    assert (Hk0 : k ≠ 0%nat) by (intros ->; simpl in Hn; lia).
    rewrite Nat2Z.inj_succ, Z.pow_succ_r in Hn by lia.
    destruct (IH fuel (n / 10)) as (Hl & Hd & Hp); [lia|split; [apply Z.div_pos; lia|apply Z.div_lt_upper_bound; lia]|lia|].
    split; [rewrite length_app; simpl; lia|]. split; [rewrite forallb_app, Hd; simpl; by rewrite digit_isDigit by lia|].
    unfold parseInt in *. rewrite foldl_app, Hp. simpl. rewrite digit_value by lia.
    rewrite (proj2 (Z.leb_le _ _)) by lia. f_equal. lia.
Qed.

Lemma parse_header n u :
  0 ≤ n ≤ 99999999 → u ∈ units →
  2 ≤ olen (decimal n ++ [suffix u]) ≤ 9 ∧
  parseTimeout (decimal n ++ [suffix u]) = Some (Z.min (n * divisor u) u64_max).
Proof.
  intros Hn Hu. destruct (decimal_loop_ok 8 20 n) as (Hl & Hd & Hp);
    [lia|change (10 ^ Z.of_nat 8) with 100000000; lia|unfold u64_max; lia|].
  assert (Ho : 2 ≤ olen (decimal n ++ [suffix u]) ≤ 9).
  { rewrite olen_app. unfold olen, decimal. change (length [suffix u]) with 1%nat. lia. }
  split; [done|]. unfold parseTimeout.
  destruct (Z.ltb_spec (olen (decimal n ++ [suffix u])) 2); [lia|].
  destruct (Z.gtb_spec (olen (decimal n ++ [suffix u])) 9); [lia|]. simpl orb. cbv iota.
  rewrite length_app. change (length [suffix u]) with 1%nat. rewrite Nat.add_sub, take_app_length, nth_middle.
  unfold decimal. rewrite Hd, Hp. simpl.
  unfold units in Hu. repeat (apply elem_of_cons in Hu as [->|Hu]; [done|]). by apply elem_of_nil in Hu.
Qed.

(** ** Properties *)

Lemma divCeil_bounds t u : 0 ≤ t → 0 < u → t ≤ divCeil t u * u ∧ (0 < t → divCeil t u * u < t + u).
Proof.
  intros Ht Hu. unfold divCeil. destruct (Z.ltb_spec 0 t); [|lia].
  pose proof (Z.div_mod (t - 1) u). pose proof (Z.mod_pos_bound (t - 1) u). nia.
Qed.

Lemma units_positive u : u ∈ units → 0 < divisor u ≤ 60 * 60 * ns_per_s.
Proof. revert u. apply Forall_forall. repeat constructor; done. Qed.

(** What the header of a unit is worth when the timeout fits it *)
Lemma unit_value u t buffer_len :
  u ∈ units → in_u64 t → 9 ≤ buffer_len → Z.max 1 (divCeil t (divisor u)) ≤ 99999999 →
  ∃ h t', bufPrint buffer_len (decimal (Z.min (Z.max 1 (divCeil t (divisor u))) 99999999) ++ [suffix u]) = Some h ∧
    parseTimeout h = Some t' ∧ Z.max 1 t ≤ t' ≤ u64_max ∧ t' < Z.max 1 t + divisor u.
Proof.
  intros Hu Ht Hb Hv. rewrite Z.min_l by done.
  destruct (parse_header (Z.max 1 (divCeil t (divisor u))) u) as [Hl Hp]; [lia|done|].
  pose proof (units_positive u Hu) as Hd. unfold bufPrint. rewrite (proj2 (Z.leb_le _ _)) by lia.
  eexists _, _. split; [done|]. split; [done|]. unfold in_u64, u64_max in *.
  destruct (divCeil_bounds t (divisor u)) as [H1 H2]; [lia|lia|].
  destruct (Z.eq_dec t 0) as [->|]; [change (Z.max 1 (divCeil 0 (divisor u))) with 1; lia|].
  specialize (H2 ltac:(lia)). assert (1 ≤ divCeil t (divisor u)) by nia.
  rewrite (Z.max_r 1 (divCeil t (divisor u))) by done. lia.
Qed.

(** A timeout that does not fit a unit is long. *)
Lemma unit_too_small t u : 0 ≤ t → 0 < u → 99999999 < Z.max 1 (divCeil t u) → 99999999 * u < t.
Proof.
  intros Ht Hu Hv. destruct (Z.eq_dec t 0) as [->|]; [by change (divCeil 0 u) with 0 in Hv|].
  destruct (divCeil_bounds t u) as [H1 H2]; [lia|lia|]. specialize (H2 ltac:(lia)). nia.
Qed.

(** Each unit is at most a thousand times the one before, and the last one fits
    every timeout. *)
Fixpoint unit_chain (previous : Z) (us : list Unit) : Prop :=
  match us with
  | [] => False
  | u :: us =>
      u ∈ units ∧ divisor u ≤ 1000 * previous ∧
      (u64_max < 99999999 * divisor u ∨ unit_chain (divisor u) us)
  end.

Lemma formatTimeout_loop_ok us previous t buffer_len :
  unit_chain previous us → in_u64 t → 9 ≤ buffer_len → 99999999 * previous < t →
  ∃ h t', formatTimeout_loop us buffer_len t = Some h ∧ parseTimeout h = Some t' ∧
    t ≤ t' ≤ u64_max ∧ (t' - t) * 99999 < t.
Proof.
  revert previous. induction us as [|u us IH]; intros previous Hc Ht Hb Hp; [done|].
  destruct Hc as (Hu & Hd & Hc). cbn [formatTimeout_loop].
  destruct (Z.leb_spec (Z.max 1 (divCeil t (divisor u))) 99999999) as [Hv|Hv].
  - destruct (unit_value u t buffer_len Hu Ht Hb Hv) as (h & t' & H1 & H2 & H3 & H4).
    exists h, t'. unfold in_u64 in Ht. split; [done|]. split; [done|]. lia.
  - pose proof (units_positive u Hu). apply unit_too_small in Hv; [|apply Ht|lia].
    destruct Hc as [Hc|Hc]; [unfold in_u64 in Ht; lia|].
    rewrite bool_decide_false; [by apply (IH (divisor u))|]. intros Hs.
    assert (Hh : ∀ u, u ∈ units → suffix u = "H"%char → u64_max < 99999999 * divisor u).
    { refine (proj1 (Forall_forall (λ u, suffix u = "H"%char → u64_max < 99999999 * divisor u) units) _).
      repeat constructor; discriminate || done. }
    specialize (Hh u Hu Hs). unfold in_u64 in Ht. lia.
Qed.

Lemma units_chain : unit_chain 1 (tail units).
Proof.
  simpl. unfold units, ns_per_us, ns_per_ms, ns_per_s, u64_max.
  split; [set_solver|]. split; [lia|]. right. split; [set_solver|]. split; [lia|]. right.
  split; [set_solver|]. split; [lia|]. right. split; [set_solver|]. split; [lia|]. right.
  split; [set_solver|]. split; [lia|]. left. lia.
Qed.

Lemma timeout_header_ok t buffer_len :
  in_u64 t → 9 ≤ buffer_len →
  ∃ h t', formatTimeout buffer_len t = Some h ∧ olen h ≤ 9 ∧ parseTimeout h = Some t' ∧
    t ≤ t' ≤ u64_max ∧ (t' = Z.max 1 t ∨ (t' - t) * 99999 < t).
Proof.
  intros Ht Hb.
  assert (H : ∃ h t', formatTimeout buffer_len t = Some h ∧ parseTimeout h = Some t' ∧
    t ≤ t' ≤ u64_max ∧ (t' = Z.max 1 t ∨ (t' - t) * 99999 < t)).
  { unfold formatTimeout, units. cbn [formatTimeout_loop].
    destruct (Z.leb_spec (Z.max 1 (divCeil t (divisor (mkUnit 1 "n"%char)))) 99999999) as [Hv|Hv].
    - destruct (unit_value (mkUnit 1 "n"%char) t buffer_len) as (h & t' & H1 & H2 & H3 & H4); [by left|done..|].
      exists h, t'. simpl in *. split; [done|]. split; [done|]. lia.
    - apply unit_too_small in Hv; [|apply Ht|done].
      destruct (formatTimeout_loop_ok (tail units) 1 t buffer_len) as (h & t' & H1 & H2 & H3 & H4);
        [|done..|exists h, t'; auto]. apply units_chain. }
  destruct H as (h & t' & H1 & H2 & H3 & H4). exists h, t'. split; [done|]. split; [|done].
  unfold parseTimeout in H2. destruct (Z.gtb_spec (olen h) 9); [|lia]. by rewrite orb_true_r in H2.
Qed.

(** A deadline is not exceeded before it. *)
Lemma initAfter_ok now now' t t' :
  0 ≤ now → now + t ≤ u64_max → t ≤ t' ≤ u64_max → now' < now + t →
  isExceeded now' (initAfter now t') = false ∧ remainingNs now' (initAfter now t') >= now + t - now'.
Proof.
  intros. unfold isExceeded, remainingNs, initAfter, sat_add, sat_sub. simpl. rewrite Z.leb_gt. lia.
Qed.

(** C35. The timeout header is safe for every 64-bit timeout: [formatTimeout] never
    reaches its unreachable code and fits a buffer of nine octets; the server reads
    it back without overflow as a timeout that is not shorter, and longer by less than
    one in 99999 (or one nanosecond in place of none); so a server never ends a call
    before the time the client gave it has passed. *)
Theorem timeout_header_bounds t buffer_len now now' :
  in_u64 t → 9 ≤ buffer_len → 0 ≤ now → now + t ≤ u64_max →
  ∃ h t', formatTimeout buffer_len t = Some h ∧ olen h ≤ 9 ∧ parseTimeout h = Some t' ∧
    t ≤ t' ≤ u64_max ∧ (t' = Z.max 1 t ∨ (t' - t) * 99999 < t) ∧
    (now' < now + t → isExceeded now' (initAfter now t') = false ∧
       remainingNs now' (initAfter now t') >= now + t - now').
Proof.
  intros Ht Hb Hn Hs.
  destruct (timeout_header_ok t buffer_len Ht Hb) as (h & t' & H1 & H2 & H3 & H4 & H5).
  exists h, t'. split_and!; try done; try lia. intros Hlt. by apply (initAfter_ok now now' t).
Qed.

Lemma timeout_header_bounds_witness :
  formatTimeout 16 123456789 = Some (String.list_ascii_of_string "123457u") ∧
  ∃ h t', formatTimeout 16 123456789 = Some h ∧ olen h ≤ 9 ∧ parseTimeout h = Some t' ∧
    123456789 ≤ t' ≤ u64_max ∧ (t' = 123456789 ∨ (t' - 123456789) * 99999 < 123456789) ∧
    (1000 < 1000 + 123456789 → isExceeded 1000 (initAfter 1000 t') = false ∧
       remainingNs 1000 (initAfter 1000 t') >= 1000 + 123456789 - 1000).
Proof.
  split; [vm_compute; reflexivity|].
  apply (timeout_header_bounds 123456789 16 1000 1000).
  - unfold in_u64, u64_max. lia.
  - lia.
  - lia.
  - unfold u64_max. lia.
Defined.
