(* ===== verification/DeadlineHeap.v ===== *)
(** * The deadline heap

    Channels and servers keep their deadlines in a binary heap: an array of
    entries, and in each thing that can expire the index of its entry
    ([src/channel.zig] and [src/server.zig], which have the same code over their own
    [DeadlineTarget]).  The heap is shown to implement a finite map from targets to
    deadlines with access to an earliest one; the last part models the timer of a
    channel that is armed for it, and what happens when it fires.  What handling an
    entry does to the call or connection is a parameter ([Handling]): operations on the
    heap, scheduling the timer again from within, and stopping the channel. *)

From stdpp Require Import sorting.
From S2P Require Import Prelude.

Local Open Scope Z_scope.

(** ** Targets

    What a heap asks of its targets: a comparison that decides equality.  The
    [deadline_heap_index] of each target is an entry of a map. *)

Class DeadlineTargets (T : Type) `{EqDecision T, Countable T} := {
  deadlineTargetsEqual : T → T → bool;
  targets_equal a b : deadlineTargetsEqual a b = true ↔ a = b }.

(** Addresses of operations, streams and connections *)
Abbreviation pointer := nat (only parsing).

(** [DeadlineTarget] of [src/channel.zig] *)
Inductive ChannelTarget : Set :=
  | operation (p : pointer) | client_stream (p : pointer) | tls_handshake (impl : pointer) | reconnect (impl : pointer).

#[export] Instance ChannelTarget_eq_dec : EqDecision ChannelTarget.
Proof. solve_decision. Defined.
#[export] Instance ChannelTarget_countable : Countable ChannelTarget.
Proof.
  refine (inj_countable'
    (λ t, match t with operation p => inl (inl p) | client_stream p => inl (inr p)
                     | tls_handshake p => inr (inl p) | reconnect p => inr (inr p) end)
    (λ t, match t with inl (inl p) => operation p | inl (inr p) => client_stream p
                     | inr (inl p) => tls_handshake p | inr (inr p) => reconnect p end) _).
  by intros [].
Defined.

Definition channelTargetsEqual (a b : ChannelTarget) : bool :=
  match a with
  | operation p => match b with operation other => (p =? other)%nat | _ => false end
  | client_stream p => match b with client_stream other => (p =? other)%nat | _ => false end
  | tls_handshake impl => match b with tls_handshake other => (impl =? other)%nat | _ => false end
  | reconnect impl => match b with reconnect other => (impl =? other)%nat | _ => false end
  end.

#[export, refine] Instance channel_targets : DeadlineTargets ChannelTarget :=
  {| deadlineTargetsEqual := channelTargetsEqual |}.
Proof. intros [] []; simpl; rewrite ?Nat.eqb_eq; split; intros; congruence. Defined.

(** [DeadlineTarget] of [src/server.zig] *)
Inductive ServerTarget : Set := stream (p : pointer) | connection (p : pointer).

#[export] Instance ServerTarget_eq_dec : EqDecision ServerTarget.
Proof. solve_decision. Defined.
#[export] Instance ServerTarget_countable : Countable ServerTarget.
Proof.
  refine (inj_countable' (λ t, match t with stream p => inl p | connection p => inr p end)
    (λ t, match t with inl p => stream p | inr p => connection p end) _).
  by intros [].
Defined.

Definition serverTargetsEqual (a b : ServerTarget) : bool :=
  match a with
  | stream p => match b with stream other => (p =? other)%nat | connection _ => false end
  | connection p => match b with stream _ => false | connection other => (p =? other)%nat end
  end.

#[export, refine] Instance server_targets : DeadlineTargets ServerTarget :=
  {| deadlineTargetsEqual := serverTargetsEqual |}.
Proof. intros [] []; simpl; rewrite ?Nat.eqb_eq; split; intros; congruence. Defined.

(** ** The heap *)

Section Heap.
Context {T : Type} `{EqT : EqDecision T} {CntT : Countable T} {DT : DeadlineTargets T}.

Record DeadlineEntry := mkDeadlineEntry { expires_at_ns : Z; target : T }.

(** [deadline_heap.items], and the [deadline_heap_index] of every target *)
Record DeadlineHeap := mkDeadlineHeap { items : list DeadlineEntry; index_of : gmap T nat }.

Definition heap_empty : DeadlineHeap := mkDeadlineHeap [] ∅.

(** [None] is an index out of bounds or an assertion that fails. *)
Definition deadlineHeapSwap (a b : nat) (h : DeadlineHeap) : option DeadlineHeap :=
  if (a =? b)%nat then Some h
  else
    ea ← items h !! a; eb ← items h !! b;
    Some (mkDeadlineHeap (<[b := ea]> (<[a := eb]> (items h)))
            (<[target ea := b]> (<[target eb := a]> (index_of h)))).

(** The loops have fuel for one round more than they can take. *)
Fixpoint sift_up (fuel index : nat) (h : DeadlineHeap) : option (nat * DeadlineHeap) :=
  match fuel with
  | O => None
  | S fuel' =>
      if (index =? 0)%nat then Some (index, h)
      else
        let parent := ((index - 1) / 2)%nat in
        ep ← items h !! parent; ei ← items h !! index;
        if expires_at_ns ep <=? expires_at_ns ei then Some (index, h)
        else h' ← deadlineHeapSwap parent index h; sift_up fuel' parent h'
  end.

Definition deadlineHeapSiftUp (start : nat) (h : DeadlineHeap) : option (nat * DeadlineHeap) :=
  sift_up (S start) start h.

Fixpoint sift_down (fuel index : nat) (h : DeadlineHeap) : option (nat * DeadlineHeap) :=
  match fuel with
  | O => None
  | S fuel' =>
      let left := (index * 2 + 1)%nat in
      if (length (items h) <=? left)%nat then Some (index, h)
      else
        let right := (left + 1)%nat in
        el ← items h !! left;
        let child :=
          match items h !! right with
          | Some er => if expires_at_ns er <? expires_at_ns el then right else left
          | None => left
          end in
        ei ← items h !! index; ec ← items h !! child;
        if expires_at_ns ei <=? expires_at_ns ec then Some (index, h)
        else h' ← deadlineHeapSwap index child h; sift_down fuel' child h'
  end.

Definition deadlineHeapSiftDown (start : nat) (h : DeadlineHeap) : option (nat * DeadlineHeap) :=
  sift_down (S (length (items h))) start h.

(** The entry that a target's index names, checked as the assertions do *)
Definition own_entry (t : T) (index : nat) (h : DeadlineHeap) : option DeadlineEntry :=
  e ← items h !! index; if deadlineTargetsEqual (target e) t then Some e else None.

(** [memory] is whether [append] gets the memory it may need; the result is
    [false] for [error.OutOfMemory]. *)
Definition deadlineHeapInsertOrUpdate (memory : bool) (t : T) (expires : Z) (h : DeadlineHeap)
  : option (bool * DeadlineHeap) :=
  match index_of h !! t with
  | Some index =>
      e ← own_entry t index h;
      let previous := expires_at_ns e in
      let h1 := mkDeadlineHeap (<[index := mkDeadlineEntry expires (target e)]> (items h)) (index_of h) in
      if expires <? previous then '(_, h2) ← deadlineHeapSiftUp index h1; Some (true, h2)
      else if previous <? expires then '(_, h2) ← deadlineHeapSiftDown index h1; Some (true, h2)
      else Some (true, h1)
  | None =>
      if negb memory then Some (false, h)
      else
        let items' := items h ++ [mkDeadlineEntry expires t] in
        let index := (length items' - 1)%nat in
        '(_, h2) ← deadlineHeapSiftUp index (mkDeadlineHeap items' (<[t := index]> (index_of h)));
        Some (true, h2)
  end.

(** The entry that fills the gap goes up or down. *)
Definition sift_replacement (index : nat) (replacement : DeadlineEntry) (h : DeadlineHeap)
  : option (nat * DeadlineHeap) :=
  if (index =? 0)%nat then deadlineHeapSiftDown index h
  else
    ep ← items h !! ((index - 1) / 2)%nat;
    if expires_at_ns replacement <? expires_at_ns ep then deadlineHeapSiftUp index h
    else deadlineHeapSiftDown index h.

Definition deadlineHeapRemove (t : T) (h : DeadlineHeap) : option (bool * DeadlineHeap) :=
  match index_of h !! t with
  | None => Some (false, h)
  | Some index =>
      removed ← own_entry t index h;
      replacement ← last (items h);
      let items1 := take (length (items h) - 1) (items h) in
      let index1 := delete (target removed) (index_of h) in
      if (index <? length items1)%nat then
        let h2 := mkDeadlineHeap (<[index := replacement]> items1) (<[target replacement := index]> index1) in
        '(_, h3) ← sift_replacement index replacement h2; Some (true, h3)
      else Some (true, mkDeadlineHeap items1 index1)
  end.

Definition deadlineHeapPeek (h : DeadlineHeap) : option DeadlineEntry := items h !! 0%nat.

(** The outer option is for the assertions, the inner one for an empty heap. *)
Definition deadlineHeapPop (h : DeadlineHeap) : option (option DeadlineEntry * DeadlineHeap) :=
  match deadlineHeapPeek h with
  | None => Some (None, h)
  | Some entry =>
      '(removed, h') ← deadlineHeapRemove (target entry) h;
      if removed : bool then Some (Some entry, h') else None
  end.

(** ** The map it stands for *)

Definition deadlines (h : DeadlineHeap) : gmap T Z :=
  omap (λ i, expires_at_ns <$> items h !! i) (index_of h).

(** Indices and entries name each other. *)
Record indexed (h : DeadlineHeap) : Prop := {
  ix_entry i e : items h !! i = Some e → index_of h !! target e = Some i;
  ix_index t i : index_of h !! t = Some i → ∃ e, items h !! i = Some e ∧ target e = t }.

Definition key (es : list DeadlineEntry) (i : nat) : Z := from_option expires_at_ns 0 (es !! i).

Definition parent (i : nat) : nat := ((i - 1) / 2)%nat.

(** Heap order on [n] keys *)
Definition ordered (n : nat) (k : nat → Z) : Prop := ∀ i, (0 < i < n)%nat → k (parent i) ≤ k i.

Record heap_inv (h : DeadlineHeap) : Prop := {
  hi_indexed : indexed h;
  hi_ordered : ordered (length (items h)) (key (items h)) }.

(** ** Heap order with one place excepted *)

Definition swapped (a b : nat) (k k' : nat → Z) : Prop :=
  ∀ i, k' i = if decide (i = a) then k b else if decide (i = b) then k a else k i.

(** Everything is in order except that the key at [j] may be too small. *)
Definition rising (n : nat) (k : nat → Z) (j : nat) : Prop :=
  (∀ i, (0 < i < n)%nat → i ≠ j → k (parent i) ≤ k i) ∧
  (∀ i, (0 < i < n)%nat → (0 < j)%nat → parent i = j → k (parent j) ≤ k i).

(** Everything is in order except that the key at [j] may be too large. *)
Definition sinking (n : nat) (k : nat → Z) (j : nat) : Prop :=
  (∀ i, (0 < i < n)%nat → parent i ≠ j → k (parent i) ≤ k i) ∧
  (∀ i, (0 < i < n)%nat → (0 < j)%nat → parent i = j → k (parent j) ≤ k i).

Lemma parent_spec i : (0 < i)%nat → (i = 2 * parent i + 1 ∨ i = 2 * parent i + 2)%nat.
Proof.
  unfold parent. intros. pose proof (Nat.div_mod_eq (i - 1) 2). pose proof (Nat.mod_upper_bound (i - 1) 2). lia.
Qed.

Lemma parent_lt i : (0 < i)%nat → (parent i < i)%nat.
Proof. intros H. destruct (parent_spec i H); lia. Qed.

Lemma rising_done n k j : rising n k j → (j = 0%nat ∨ k (parent j) ≤ k j) → ordered n k.
Proof.
  intros [H _] Hj i Hi. destruct (decide (i = j)) as [->|]; [|by apply H].
  destruct Hj; [lia|done].
Qed.

Lemma rising_up n k k' j :
  rising n k j → (0 < j < n)%nat → k j < k (parent j) → swapped (parent j) j k k' → rising n k' (parent j).
Proof.
  intros [H1 H2] Hj Hlt Hs. pose proof (parent_lt j) as Hp.
  assert (∀ i, (0 < i)%nat → (parent i < i)%nat) as Hlti by exact parent_lt.
  split.
  - intros i Hi Hne. rewrite (Hs i), (Hs (parent i)). pose proof (Hlti i).
    repeat case_decide; subst; try lia.
    + assert (k (parent i) ≤ k i) by (apply H1; lia). match goal with E : parent i = _ |- _ => rewrite E in * end. lia.
    + pose proof (H2 i). lia.
    + by apply H1.
  - intros i Hi Hp0 Hpi. rewrite (Hs i), (Hs (parent (parent j))). pose proof (Hlti (parent j)).
    pose proof (H1 (parent j)). repeat case_decide; subst; try lia.
    pose proof (H1 i). rewrite Hpi in *. lia.
Qed.

Lemma sinking_done n k j : sinking n k j → (∀ i, (0 < i < n)%nat → parent i = j → k j ≤ k i) → ordered n k.
Proof.
  intros [H _] Hj i Hi. destruct (decide (parent i = j)) as [<-|]; [by apply Hj|by apply H].
Qed.

Lemma sinking_down n k k' j c :
  sinking n k j → (0 < c < n)%nat → parent c = j → k c < k j →
  (∀ i, (0 < i < n)%nat → parent i = j → k c ≤ k i) → swapped j c k k' → sinking n k' c.
Proof.
  intros [H1 H2] Hc Hpc Hlt Hmin Hs. pose proof (parent_lt c) as Hp.
  assert (∀ i, (0 < i)%nat → (parent i < i)%nat) as Hlti by exact parent_lt.
  split.
  - intros i Hi Hne. rewrite (Hs i), (Hs (parent i)). pose proof (Hlti i).
    repeat case_decide; subst; try lia.
    + by apply Hmin.
    + pose proof (H2 c). lia.
    + by apply H1.
  - intros i Hi Hc0 Hpi. rewrite (Hs i), (Hs (parent c)). pose proof (Hlti i).
    repeat case_decide; subst; try lia. pose proof (H1 i). lia.
Qed.

(** Replacing one key *)
Definition replaced (i : nat) (d : Z) (k k' : nat → Z) : Prop := ∀ j, k' j = if decide (j = i) then d else k j.

Lemma rising_replaced n k k' i d :
  ordered n k → (i < n)%nat → replaced i d k k' → d ≤ k i → rising n k' i.
Proof.
  intros Ho Hi Hk Hd. split; intros j Hj; intros; rewrite (Hk j), (Hk (parent _));
    pose proof (Ho j Hj); pose proof (parent_lt j); repeat case_decide; subst; try lia;
    pose proof (Ho (parent j)); pose proof (parent_lt (parent j)); lia.
Qed.

Lemma sinking_replaced n k k' i d :
  ordered n k → (i < n)%nat → replaced i d k k' → (i = 0%nat ∨ k (parent i) ≤ d) → sinking n k' i.
Proof.
  intros Ho Hi Hk Hd. split; intros j Hj; intros; rewrite (Hk j), (Hk (parent _));
    pose proof (Ho j Hj); pose proof (parent_lt j); repeat case_decide; subst; try lia;
    pose proof (Ho (parent j)); pose proof (parent_lt (parent j)); lia.
Qed.

(** ** Exchanging entries *)

Lemma key_Some es i e : es !! i = Some e → key es i = expires_at_ns e.
Proof. unfold key. by intros ->. Qed.

Lemma indexed_inj h i j e f : indexed h → items h !! i = Some e → items h !! j = Some f → target e = target f → i = j.
Proof.
  intros Hh Hi Hj Ht. pose proof (ix_entry h Hh _ _ Hi). pose proof (ix_entry h Hh _ _ Hj). congruence.
Qed.

Lemma indexed_ne h i j e f :
  indexed h → items h !! i = Some e → items h !! j = Some f → j ≠ i → target e ≠ target f.
Proof. intros Hh Hi Hj Hne Ht. by destruct Hne; eapply indexed_inj. Qed.

Lemma deadlines_Some h t d :
  deadlines h !! t = Some d ↔ ∃ i e, index_of h !! t = Some i ∧ items h !! i = Some e ∧ expires_at_ns e = d.
Proof.
  unfold deadlines. rewrite lookup_omap. destruct (index_of h !! t) as [i|]; simpl.
  - rewrite fmap_Some. split; [intros (e & ? & ->); eauto|]. intros (i' & e & [= <-] & ? & <-). eauto.
  - split; [done|]. by intros (? & ? & ? & _).
Qed.

(** The entries say what the map is. *)
Lemma deadlines_entry h t d :
  indexed h → deadlines h !! t = Some d ↔ mkDeadlineEntry d t ∈ items h.
Proof.
  intros Hh. rewrite deadlines_Some, list_elem_of_lookup. split.
  - intros (i & e & Ht & Hi & <-). exists i. destruct (ix_index h Hh t i Ht) as (e' & He' & <-).
    simplify_eq. by match goal with e : DeadlineEntry |- _ => destruct e end.
  - intros [i Hi]. exists i, (mkDeadlineEntry d t). split; [by apply (ix_entry h Hh i _ Hi)|done].
Qed.

Lemma deadlines_perm h h' : indexed h → indexed h' → items h ≡ₚ items h' → deadlines h = deadlines h'.
Proof.
  intros Hh Hh' Hp. apply map_eq. intros t. apply option_eq. intros d.
  by rewrite !deadlines_entry, Hp by done.
Qed.

Lemma insert_swap_perm {A} (l : list A) a b x y :
  l !! a = Some x → l !! b = Some y → <[b := x]> (<[a := y]> l) ≡ₚ l.
Proof.
  intros Ha Hb. apply Permutation_inj. rewrite !length_insert. split; [done|].
  exists (λ i, if decide (i = a) then b else if decide (i = b) then a else i). split.
  - intros i j. repeat case_decide; congruence.
  - intros i. pose proof (lookup_lt_Some _ _ _ Ha). pose proof (lookup_lt_Some _ _ _ Hb).
    repeat case_decide; subst.
    + destruct (decide (a = b)) as [->|]; [rewrite list_lookup_insert_eq by (rewrite length_insert; lia); congruence|].
      rewrite list_lookup_insert_ne, list_lookup_insert_eq by done. congruence.
    + rewrite list_lookup_insert_eq by (by rewrite length_insert). congruence.
    + by rewrite !list_lookup_insert_ne by done.
Qed.

Lemma swap_spec a b h :
  indexed h → (a < length (items h))%nat → (b < length (items h))%nat → a ≠ b →
  ∃ h', deadlineHeapSwap a b h = Some h' ∧ indexed h' ∧ items h' ≡ₚ items h ∧
    swapped a b (key (items h)) (key (items h')).
Proof.
  intros Hh [ea Ha]%lookup_lt_is_Some [eb Hb]%lookup_lt_is_Some Hne.
  pose proof (lookup_lt_Some _ _ _ Ha). pose proof (lookup_lt_Some _ _ _ Hb).
  unfold deadlineHeapSwap. rewrite (proj2 (Nat.eqb_neq a b) Hne), Ha, Hb. simpl. eexists. split; [done|].
  assert (target ea ≠ target eb) as Ht by (intros Ht; apply Hne; by eapply indexed_inj).
  assert (∀ i, <[b := ea]> (<[a := eb]> (items h)) !! i =
    if decide (i = b) then Some ea else if decide (i = a) then Some eb else items h !! i) as Hl.
  { intros i. case_decide; subst; [by rewrite list_lookup_insert_eq by (by rewrite length_insert)|].
    rewrite list_lookup_insert_ne by done. case_decide; subst; [by rewrite list_lookup_insert_eq|].
    by rewrite list_lookup_insert_ne. }
  split_and!; simpl.
  - split; simpl.
    + intros i e. rewrite Hl. repeat case_decide; intros; simplify_eq.
      * by rewrite lookup_insert_eq.
      * by rewrite lookup_insert_ne, lookup_insert_eq.
      * pose proof (ix_entry h Hh i e).
        rewrite !lookup_insert_ne; [auto|by eapply indexed_ne..].
    + intros t i. rewrite lookup_insert_Some, lookup_insert_Some.
      intros [[<- <-]|[Hta [[<- <-]|[Htb Hi]]]]; rewrite Hl.
      * exists ea. by rewrite decide_True.
      * exists eb. by rewrite decide_False, decide_True.
      * destruct (ix_index h Hh t i Hi) as (e & He & <-). exists e.
        rewrite !decide_False by congruence. done.
  - by apply insert_swap_perm.
  - intros i. unfold key. rewrite Hl, Ha, Hb. repeat case_decide; simplify_eq; done.
Qed.

(** ** Sifting *)

Lemma sift_up_spec fuel index h :
  indexed h → (index < length (items h))%nat → (index < fuel)%nat →
  rising (length (items h)) (key (items h)) index →
  ∃ i h', sift_up fuel index h = Some (i, h') ∧ heap_inv h' ∧ items h' ≡ₚ items h.
Proof.
  revert index h. induction fuel as [|fuel IH]; intros index h Hh Hlt Hf Hr; [lia|]. cbn [sift_up].
  destruct (Nat.eqb_spec index 0) as [->|Hi].
  { exists 0%nat, h. split_and!; [done| |done]. split; [done|]. by eapply rising_done; [|left]. }
  pose proof (parent_lt index). fold (parent index).
  destruct (lookup_lt_is_Some_2 (items h) (parent index)) as [ep Hp]; [lia|].
  destruct (lookup_lt_is_Some_2 (items h) index) as [ei He]; [done|].
  rewrite Hp, He. simpl. pose proof (key_Some _ _ _ Hp) as Kp. pose proof (key_Some _ _ _ He) as Ki.
  destruct (Z.leb_spec (expires_at_ns ep) (expires_at_ns ei)).
  { exists index, h. split_and!; [done| |done]. split; [done|]. eapply rising_done; [done|right; lia]. }
  destruct (swap_spec (parent index) index h) as (h1 & -> & Hh1 & Hperm & Hsw); [done|lia..|]. simpl.
  pose proof (Permutation_length Hperm) as Hlen.
  destruct (IH (parent index) h1) as (i & h' & E & Hinv & Hp'); [done|lia|lia| |].
  { rewrite Hlen. eapply rising_up; [done|lia|lia|done]. }
  exists i, h'. split_and!; [done..|]. by rewrite Hp'.
Qed.

(** The child that [sift_down] compares with, and its key *)
Definition smaller_child (es : list DeadlineEntry) (left : nat) (el : DeadlineEntry) : nat :=
  match es !! (left + 1)%nat with
  | Some er => if expires_at_ns er <? expires_at_ns el then (left + 1)%nat else left
  | None => left
  end.

Lemma smaller_child_spec es j el :
  es !! (j * 2 + 1)%nat = Some el →
  let c := smaller_child es (j * 2 + 1) el in
  (0 < c < length es)%nat ∧ parent c = j ∧
  ∀ i, (0 < i < length es)%nat → parent i = j → key es c ≤ key es i.
Proof.
  intros Hl c. pose proof (lookup_lt_Some _ _ _ Hl). pose proof (key_Some _ _ _ Hl) as Kl.
  assert (∀ i, (0 < i < length es)%nat → parent i = j → i = (j * 2 + 1)%nat ∨ i = (j * 2 + 1 + 1)%nat) as Hch.
  { intros i Hi <-. destruct (parent_spec i); lia. }
  assert (parent (j * 2 + 1) = j ∧ parent (j * 2 + 1 + 1) = j) as [Hp1 Hp2].
  { split; [destruct (parent_spec (j * 2 + 1))|destruct (parent_spec (j * 2 + 1 + 1))]; lia. }
  unfold c, smaller_child. destruct (es !! (j * 2 + 1 + 1)%nat) as [er|] eqn:Hr.
  - pose proof (lookup_lt_Some _ _ _ Hr). pose proof (key_Some _ _ _ Hr) as Kr.
    destruct (Z.ltb_spec (expires_at_ns er) (expires_at_ns el)); (split_and!; [lia|lia|done|]);
      intros i Hi Hpi; destruct (Hch i Hi Hpi) as [-> | ->]; lia.
  - apply lookup_ge_None in Hr. split_and!; [lia|lia|done|].
    intros i Hi Hpi. destruct (Hch i Hi Hpi) as [-> | ->]; lia.
Qed.

Lemma sift_down_spec fuel index h :
  indexed h → (index < length (items h))%nat → (length (items h) < fuel + index)%nat →
  sinking (length (items h)) (key (items h)) index →
  ∃ i h', sift_down fuel index h = Some (i, h') ∧ heap_inv h' ∧ items h' ≡ₚ items h.
Proof.
  revert index h. induction fuel as [|fuel IH]; intros index h Hh Hlt Hf Hr; [lia|]. cbn [sift_down].
  destruct (Nat.leb_spec (length (items h)) (index * 2 + 1)).
  { exists index, h. split_and!; [done| |done]. split; [done|]. eapply sinking_done; [done|].
    intros i Hi <-. destruct (parent_spec i); lia. }
  destruct (lookup_lt_is_Some_2 (items h) (index * 2 + 1)) as [el Hl]; [done|].
  destruct (lookup_lt_is_Some_2 (items h) index) as [ei He]; [done|].
  rewrite Hl, He. cbn [mbind option_bind]. fold (smaller_child (items h) (index * 2 + 1) el).
  destruct (smaller_child_spec (items h) index el Hl) as (Hc & Hpc & Hmin).
  set (c := smaller_child _ _ _) in *. destruct (lookup_lt_is_Some_2 (items h) c) as [ec Hec]; [lia|].
  rewrite Hec. cbn [mbind option_bind]. pose proof (key_Some _ _ _ He) as Ki. pose proof (key_Some _ _ _ Hec) as Kc.
  destruct (Z.leb_spec (expires_at_ns ei) (expires_at_ns ec)).
  { exists index, h. split_and!; [done| |done]. split; [done|]. eapply sinking_done; [done|].
    intros i Hi Hp. pose proof (Hmin i Hi Hp). lia. }
  pose proof (parent_lt c) as Hpl. destruct (swap_spec index c h) as (h1 & -> & Hh1 & Hperm & Hsw); [done|lia..|].
  pose proof (Permutation_length Hperm) as Hlen.
  destruct (IH c h1) as (i & h' & E & Hinv & Hp'); [done|lia|lia| |].
  { rewrite Hlen. eapply sinking_down; [done|done|done|lia|done|done]. }
  exists i, h'. split_and!; [done..|]. by rewrite Hp'.
Qed.

Lemma siftUp_spec index h :
  indexed h → (index < length (items h))%nat → rising (length (items h)) (key (items h)) index →
  ∃ i h', deadlineHeapSiftUp index h = Some (i, h') ∧ heap_inv h' ∧ items h' ≡ₚ items h.
Proof. intros. apply sift_up_spec; [done..|lia|done]. Qed.

Lemma siftDown_spec index h :
  indexed h → (index < length (items h))%nat → sinking (length (items h)) (key (items h)) index →
  ∃ i h', deadlineHeapSiftDown index h = Some (i, h') ∧ heap_inv h' ∧ items h' ≡ₚ items h.
Proof. intros. apply sift_down_spec; [done..|lia|done]. Qed.

(** ** The operations *)

Lemma own_entry_spec h t i :
  indexed h → index_of h !! t = Some i →
  ∃ e, own_entry t i h = Some e ∧ items h !! i = Some e ∧ target e = t.
Proof.
  intros Hh Ht. destruct (ix_index h Hh t i Ht) as (e & He & <-). exists e. unfold own_entry. rewrite He. simpl.
  by rewrite (proj2 (targets_equal _ _)).
Qed.

Lemma deadlines_None h t : indexed h → deadlines h !! t = None ↔ index_of h !! t = None.
Proof.
  intros Hh. unfold deadlines. rewrite lookup_omap. destruct (index_of h !! t) as [i|] eqn:E; [|done].
  simpl. destruct (ix_index h Hh t i E) as (e & -> & _). done.
Qed.

(** Replacing the deadline of an entry that is there *)
Lemma replace_spec h i e d :
  indexed h → items h !! i = Some e →
  let h1 := mkDeadlineHeap (<[i := mkDeadlineEntry d (target e)]> (items h)) (index_of h) in
  indexed h1 ∧ deadlines h1 = <[target e := d]> (deadlines h) ∧
  replaced i d (key (items h)) (key (items h1)).
Proof.
  intros Hh Hi h1. pose proof (lookup_lt_Some _ _ _ Hi). pose proof (ix_entry h Hh i e Hi) as Hx.
  assert (∀ j, items h1 !! j = if decide (j = i) then Some (mkDeadlineEntry d (target e)) else items h !! j) as Hl.
  { intros j. simpl. case_decide; subst; [by rewrite list_lookup_insert_eq|by rewrite list_lookup_insert_ne]. }
  split_and!.
  - split.
    + intros j f. rewrite Hl. case_decide; [intros [= <-]; by subst|]. by apply (ix_entry h Hh).
    + intros t j Ht. rewrite Hl. case_decide; subst; [|by apply (ix_index h Hh)].
      destruct (ix_index h Hh t i Ht) as (f & Hf & <-). simplify_eq. eauto.
  - apply map_eq. intros t. unfold deadlines. rewrite lookup_omap. simpl.
    destruct (decide (t = target e)) as [->|Ht].
    + rewrite Hx, lookup_insert_eq. simpl. by rewrite list_lookup_insert_eq.
    + rewrite lookup_insert_ne, lookup_omap by done. destruct (index_of h !! t) as [j|] eqn:Ej; [|done]. simpl.
      rewrite list_lookup_insert_ne; [done|]. intros <-. destruct (ix_index h Hh t i Ej) as (f & Hf & <-). congruence.
  - intros j. unfold key. rewrite Hl. by case_decide.
Qed.

Lemma update_spec h t i d memory :
  heap_inv h → index_of h !! t = Some i →
  ∃ h', deadlineHeapInsertOrUpdate memory t d h = Some (true, h') ∧ heap_inv h' ∧
    deadlines h' = <[t := d]> (deadlines h).
Proof.
  intros [Hh Ho] Ht. unfold deadlineHeapInsertOrUpdate. rewrite Ht.
  destruct (own_entry_spec h t i Hh Ht) as (e & -> & He & <-). simpl.
  destruct (replace_spec h i e d Hh He) as (Hh1 & Hd1 & Hk). set (h1 := mkDeadlineHeap _ _) in *.
  pose proof (lookup_lt_Some _ _ _ He). pose proof (key_Some _ _ _ He) as Ke. pose proof parent_lt as Hpl.
  assert (length (items h1) = length (items h)) as Hlen by (simpl; by rewrite length_insert).
  assert (∀ h', heap_inv h' → items h' ≡ₚ items h1 → deadlines h' = <[target e := d]> (deadlines h)) as Hfin.
  { intros h' [] ?. rewrite <- Hd1. by apply deadlines_perm. }
  destruct (Z.ltb_spec d (expires_at_ns e)); [|destruct (Z.ltb_spec (expires_at_ns e) d)].
  - destruct (siftUp_spec i h1) as (? & h' & -> & Hi' & Hp); [done|lia| |by exists h'; auto].
    rewrite Hlen. eapply rising_replaced; [done|done|done|lia].
  - destruct (siftDown_spec i h1) as (? & h' & -> & Hi' & Hp); [done|lia| |by exists h'; auto].
    rewrite Hlen. eapply sinking_replaced; [done|done|done|].
    destruct (decide (i = 0%nat)); [by left|right]. pose proof (Ho i). lia.
  - exists h1. assert (d = expires_at_ns e) as -> by lia. split_and!; [done| |done].
    split; [done|]. rewrite Hlen. intros j Hj. rewrite !Hk. pose proof (Ho j Hj). repeat case_decide; subst; lia.
Qed.

Lemma indexed_NoDup h : indexed h → NoDup (target <$> items h).
Proof.
  intros Hh. apply NoDup_alt. intros i j t Hi Hj.
  apply list_lookup_fmap_Some in Hi as (e & -> & He), Hj as (f & Ht & Hf). by eapply indexed_inj.
Qed.

(** One entry more or less is one deadline more or less. *)
Lemma deadlines_cons h h' e :
  indexed h → indexed h' → items h' ≡ₚ e :: items h →
  deadlines h' = <[target e := expires_at_ns e]> (deadlines h) ∧ deadlines h = delete (target e) (deadlines h').
Proof.
  intros Hh Hh' Hp.
  assert (deadlines h !! target e = None) as Hnone.
  { pose proof (indexed_NoDup h' Hh') as Hnd. rewrite Hp in Hnd. apply NoDup_cons in Hnd as [Hnd _].
    apply eq_None_not_Some. intros [d Hd%deadlines_entry]; [|done]. apply Hnd.
    by apply (list_elem_of_fmap_2 target) in Hd. }
  assert (deadlines h' = <[target e := expires_at_ns e]> (deadlines h)) as Heq.
  { apply map_eq. intros t. apply option_eq. intros d. rewrite lookup_insert_Some, !deadlines_entry, Hp by done.
    rewrite elem_of_cons. split.
    - intros [<-|Hin]; [by left|]. right. split; [|done]. intros <-.
      apply deadlines_entry in Hin; [|done]. congruence.
    - intros [[<- <-]|[_ ?]]; [left; by destruct e|by right]. }
  split; [done|]. by rewrite Heq, delete_insert_id.
Qed.

Lemma key_snoc es e i : (i < length es)%nat → key (es ++ [e]) i = key es i.
Proof. intros. unfold key. by rewrite lookup_app_l. Qed.

Lemma append_spec h t d :
  heap_inv h → index_of h !! t = None →
  ∃ h', deadlineHeapInsertOrUpdate true t d h = Some (true, h') ∧ heap_inv h' ∧ deadlines h' = <[t := d]> (deadlines h).
Proof.
  intros [Hh Ho] Ht. unfold deadlineHeapInsertOrUpdate. rewrite Ht. simpl.
  set (n := (length _ - 1)%nat). assert (n = length (items h)) as En by (unfold n; rewrite length_app; simpl; lia).
  clearbody n. subst n. set (h1 := mkDeadlineHeap _ _).
  assert (length (items h1) = S (length (items h))) as Hlen by (simpl; rewrite length_app; simpl; lia).
  assert (indexed h1) as Hh1.
  { split; simpl.
    - intros i e [Hi|[Hi [? <-]%list_lookup_singleton_Some]]%lookup_app_Some.
      + rewrite lookup_insert_ne; [by apply (ix_entry h Hh)|]. intros ->. by rewrite (ix_entry h Hh i e Hi) in Ht.
      + simpl. rewrite lookup_insert_eq. f_equal. lia.
    - intros t' i [[<- <-]|[Hne Hi]]%lookup_insert_Some.
      + eexists. by rewrite lookup_app_r, Nat.sub_diag by lia.
      + destruct (ix_index h Hh t' i Hi) as (e & He & <-). exists e. by rewrite lookup_app_l by (by eapply lookup_lt_Some). }
  destruct (siftUp_spec (length (items h)) h1) as (? & h' & -> & Hi' & Hp); [done|lia| |].
  - rewrite Hlen. split; intros i Hi; intros; pose proof (parent_lt i); [|lia]. simpl.
    rewrite !key_snoc by lia. apply Ho. lia.
  - exists h'. split_and!; [done..|]. apply (deadlines_cons h h' (mkDeadlineEntry d t)); [done|by apply hi_indexed|].
    rewrite Hp. simpl. by rewrite Permutation_app_comm.
Qed.

(** The last entry in the place of the one that goes *)
Lemma fill_spec h index e z :
  indexed h → items h !! index = Some e → last (items h) = Some z → (index < length (items h) - 1)%nat →
  let items1 := take (length (items h) - 1) (items h) in
  let h2 := mkDeadlineHeap (<[index := z]> items1) (<[target z := index]> (delete (target e) (index_of h))) in
  indexed h2 ∧ items h ≡ₚ e :: items h2 ∧ length items1 = (length (items h) - 1)%nat ∧
  (∀ j, (j < length items1)%nat → key items1 j = key (items h) j) ∧
  replaced index (expires_at_ns z) (key items1) (key (items h2)).
Proof.
  intros Hh He Hz Hlt items1 h2. apply last_Some in Hz as [es Hes].
  assert (items1 = es) as ->.
  { unfold items1. rewrite Hes, length_app. simpl. rewrite Nat.add_sub. by rewrite take_app_length. }
  assert (length (items h) = S (length es)) as Hlen by (rewrite Hes, length_app; simpl; lia).
  assert (es !! index = Some e) as He' by (rewrite Hes, lookup_app_l in He by lia; done).
  assert (items h !! length es = Some z) as Hz by (rewrite Hes, lookup_app_r, Nat.sub_diag by lia; done).
  assert (∀ i, (i < length es)%nat → items h !! i = es !! i) as Hl by (intros; by rewrite Hes, lookup_app_l).
  assert (target z ≠ target e) as Hne by (eapply (indexed_ne h); [done..|lia]).
  assert (∀ i, items h2 !! i = if decide (i = index) then Some z else es !! i) as Hl2.
  { intros i. simpl. case_decide; subst; [by rewrite list_lookup_insert_eq by lia|by rewrite list_lookup_insert_ne]. }
  split_and!; [split| |lia| |].
  - intros i f. rewrite Hl2. simpl. case_decide as Hi; [intros [= <-]; subst; by rewrite lookup_insert_eq|].
    intros Hf. pose proof (lookup_lt_Some _ _ _ Hf). rewrite <- Hl in Hf by lia.
    rewrite lookup_insert_ne, lookup_delete_ne; [by apply (ix_entry h Hh)| |];
      (eapply (indexed_ne h); [done..|lia]).
  - intros t i. simpl. intros [[<- <-]|[Hnz [Hnt Hi]%lookup_delete_Some]]%lookup_insert_Some.
    + exists z. by rewrite list_lookup_insert_eq by lia.
    + destruct (ix_index h Hh t i Hi) as (f & Hf & <-). exists f. split; [|done].
      pose proof (lookup_lt_Some _ _ _ Hf). assert (i ≠ length es) by congruence. assert (i ≠ index) by congruence.
      rewrite list_lookup_insert_ne, <- Hl by lia. done.
  - rewrite Hes. simpl. rewrite <- (take_drop_middle es index e He') at 1. rewrite insert_take_drop by lia.
    solve_Permutation.
  - intros j Hj. unfold key. by rewrite Hl.
  - intros j. unfold key. rewrite Hl2. by case_decide.
Qed.

(** Taking the last entry away *)
Lemma truncate_spec h z :
  indexed h → last (items h) = Some z →
  let h1 := mkDeadlineHeap (take (length (items h) - 1) (items h)) (delete (target z) (index_of h)) in
  indexed h1 ∧ items h ≡ₚ z :: items h1.
Proof.
  intros Hh Hz h1. apply last_Some in Hz as [es Hes].
  assert (items h1 = es) as E1.
  { simpl. rewrite Hes, length_app. simpl. rewrite Nat.add_sub. by rewrite take_app_length. }
  assert (items h !! length es = Some z) as Hz by (rewrite Hes, lookup_app_r, Nat.sub_diag by lia; done).
  assert (∀ i, (i < length es)%nat → items h !! i = es !! i) as Hl by (intros; by rewrite Hes, lookup_app_l).
  assert (length (items h) = S (length es)) as Hlen by (rewrite Hes, length_app; simpl; lia).
  split; [split; rewrite E1; simpl|rewrite E1, Hes; solve_Permutation].
  - intros i f Hf. pose proof (lookup_lt_Some _ _ _ Hf). rewrite <- Hl in Hf by lia.
    rewrite lookup_delete_ne; [by apply (ix_entry h Hh)|]. eapply (indexed_ne h); [done..|lia].
  - intros t i [Hnt Hi]%lookup_delete_Some. destruct (ix_index h Hh t i Hi) as (f & Hf & <-). exists f.
    pose proof (lookup_lt_Some _ _ _ Hf). assert (i ≠ length es) by congruence. by rewrite <- Hl by lia.
Qed.

Lemma key_take es n i : (i < n)%nat → key (take n es) i = key es i.
Proof. intros. unfold key. by rewrite lookup_take_lt. Qed.

Lemma ordered_take n es : (n ≤ length es)%nat → ordered (length es) (key es) → ordered n (key (take n es)).
Proof. intros Hn Ho i Hi. pose proof (parent_lt i). rewrite !key_take by lia. apply Ho. lia. Qed.

Lemma remove_spec h t :
  heap_inv h →
  ∃ h', deadlineHeapRemove t h = Some (bool_decide (is_Some (deadlines h !! t)), h') ∧ heap_inv h' ∧
    deadlines h' = delete t (deadlines h).
Proof.
  intros [Hh Ho]. unfold deadlineHeapRemove. destruct (index_of h !! t) as [index|] eqn:Ht.
  2: { exists h. apply deadlines_None in Ht; [|done]. rewrite bool_decide_false by (rewrite Ht; by intros []).
       split_and!; [done|done|by rewrite delete_id]. }
  rewrite bool_decide_true.
  2: { apply not_eq_None_Some. rewrite deadlines_None by done. by rewrite Ht. }
  destruct (own_entry_spec h t index Hh Ht) as (e & -> & He & <-). simpl.
  pose proof (lookup_lt_Some _ _ _ He) as Hlt.
  destruct (last (items h)) as [z|] eqn:Hz; [|by apply last_None in Hz; rewrite Hz in He]. simpl.
  assert (length (take (length (items h) - 1) (items h)) = (length (items h) - 1)%nat) as Hlen1
    by (rewrite length_take; lia).
  rewrite Hlen1. destruct (Nat.ltb_spec index (length (items h) - 1)) as [Hi|Hi].
  - destruct (fill_spec h index e z Hh He Hz Hi) as (Hh2 & Hp & _ & Hk1 & Hk2). set (h2 := mkDeadlineHeap _ _) in *.
    assert (length (items h2) = (length (items h) - 1)%nat) as Hlen2 by (simpl; by rewrite length_insert).
    pose proof (ordered_take (length (items h) - 1) (items h) ltac:(lia) Ho) as Ho1.
    assert (∃ i h', sift_replacement index z h2 = Some (i, h') ∧ heap_inv h' ∧ items h' ≡ₚ items h2)
      as (i & h' & -> & Hi' & Hp').
    { unfold sift_replacement. destruct (Nat.eqb_spec index 0) as [->|Hi0].
      { apply siftDown_spec; [done|lia|]. rewrite Hlen2. eapply sinking_replaced; [done|lia|done|by left]. }
      fold (parent index). pose proof (parent_lt index).
      destruct (lookup_lt_is_Some_2 (items h2) (parent index)) as [ep Hep]; [lia|]. rewrite Hep.
      cbn [mbind option_bind]. pose proof (key_Some _ _ _ Hep) as Kp.
      rewrite (Hk2 (parent index)), decide_False in Kp by lia. pose proof (Ho1 index ltac:(lia)) as Hoi.
      destruct (Z.ltb_spec (expires_at_ns z) (expires_at_ns ep)).
      - apply siftUp_spec; [done|lia|]. rewrite Hlen2. eapply rising_replaced; [done|lia|done|lia].
      - apply siftDown_spec; [done|lia|]. rewrite Hlen2. eapply sinking_replaced; [done|lia|done|right; lia]. }
    exists h'. split_and!; [done..|].
    eapply deadlines_cons; [by apply hi_indexed|done|]. by rewrite Hp, Hp'.
  - assert (z = e) as ->.
    { rewrite last_lookup in Hz. replace (pred (length (items h))) with index in Hz by lia. congruence. }
    destruct (truncate_spec h e Hh Hz) as [Hh1 Hp]. eexists. split; [done|]. split.
    + split; [done|]. simpl. rewrite Hlen1. apply ordered_take; [lia|done].
    + by eapply deadlines_cons.
Qed.

(** The entry at the top is an earliest one. *)
Lemma peek_spec h :
  heap_inv h →
  match deadlineHeapPeek h with
  | None => deadlines h = ∅
  | Some e => deadlines h !! target e = Some (expires_at_ns e) ∧ map_Forall (λ _ d, expires_at_ns e ≤ d) (deadlines h)
  end.
Proof.
  intros [Hh Ho]. unfold deadlineHeapPeek. destruct (items h !! 0%nat) as [e|] eqn:E.
  - split; [apply deadlines_entry; [done|]; apply list_elem_of_lookup; exists 0%nat; by destruct e|].
    intros t d Ht. apply deadlines_entry in Ht as [i Hi]%list_elem_of_lookup; [|done].
    pose proof (key_Some _ _ _ E) as K0. pose proof (key_Some _ _ _ Hi) as Ki. simpl in Ki. rewrite <- K0, <- Ki.
    apply lookup_lt_Some in Hi. clear -Ho Hi. induction i as [i IH] using lt_wf_ind.
    destruct (decide (i = 0%nat)) as [->|]; [done|]. pose proof (parent_lt i).
    etrans; [apply (IH (parent i)); lia|]. apply Ho. lia.
  - apply map_eq. intros t. rewrite lookup_empty. apply deadlines_None; [done|].
    apply eq_None_not_Some. intros [i Hi]. destruct (ix_index h Hh t i Hi) as (e & He & _).
    destruct (items h); done.
Qed.

Lemma pop_spec h :
  heap_inv h →
  ∃ h', deadlineHeapPop h = Some (deadlineHeapPeek h, h') ∧ heap_inv h' ∧
    deadlines h' = match deadlineHeapPeek h with None => deadlines h | Some e => delete (target e) (deadlines h) end.
Proof.
  intros Hh. pose proof (peek_spec h Hh) as Hp. unfold deadlineHeapPop.
  destruct (deadlineHeapPeek h) as [e|]; [|by exists h]. destruct Hp as [Hp _].
  destruct (remove_spec h (target e) Hh) as (h' & E & Hi & Hd). rewrite bool_decide_true in E by (by rewrite Hp).
  exists h'. by rewrite E.
Qed.

(** ** Refinement *)

Inductive HeapOp : Type :=
  | InsertOrUpdate (memory : bool) (t : T) (expires : Z)
  | Remove (t : T)
  | Peek
  | Pop.

Inductive HeapResult : Type :=
  | Inserted (ok : bool)
  | Removed (was_there : bool)
  | Earliest (entry : option DeadlineEntry).

Definition heap_op (h : DeadlineHeap) (op : HeapOp) : option (HeapResult * DeadlineHeap) :=
  match op with
  | InsertOrUpdate memory t expires => '(ok, h') ← deadlineHeapInsertOrUpdate memory t expires h; Some (Inserted ok, h')
  | Remove t => '(b, h') ← deadlineHeapRemove t h; Some (Removed b, h')
  | Peek => Some (Earliest (deadlineHeapPeek h), h)
  | Pop => '(e, h') ← deadlineHeapPop h; Some (Earliest e, h')
  end.

Fixpoint heap_ops (h : DeadlineHeap) (ops : list HeapOp) : option (list HeapResult * DeadlineHeap) :=
  match ops with
  | [] => Some ([], h)
  | op :: ops' => '(r, h1) ← heap_op h op; '(rs, h2) ← heap_ops h1 ops'; Some (r :: rs, h2)
  end.

(** What the operations mean for a map of deadlines.  Among equal deadlines any may
    be the earliest. *)
Definition earliest (m : gmap T Z) (e : option DeadlineEntry) : Prop :=
  match e with
  | None => m = ∅
  | Some e => m !! target e = Some (expires_at_ns e) ∧ map_Forall (λ _ d, expires_at_ns e ≤ d) m
  end.

Inductive map_op (m : gmap T Z) : HeapOp → HeapResult → gmap T Z → Prop :=
  | map_insert memory t d :
      memory = true ∨ is_Some (m !! t) → map_op m (InsertOrUpdate memory t d) (Inserted true) (<[t := d]> m)
  | map_no_memory t d : m !! t = None → map_op m (InsertOrUpdate false t d) (Inserted false) m
  | map_remove t : map_op m (Remove t) (Removed (bool_decide (is_Some (m !! t)))) (delete t m)
  | map_peek e : earliest m e → map_op m Peek (Earliest e) m
  | map_pop_empty : m = ∅ → map_op m Pop (Earliest None) m
  | map_pop e : earliest m (Some e) → map_op m Pop (Earliest (Some e)) (delete (target e) m).

Inductive map_ops : gmap T Z → list HeapOp → list HeapResult → gmap T Z → Prop :=
  | map_ops_nil m : map_ops m [] [] m
  | map_ops_cons m op r m1 ops rs m2 :
      map_op m op r m1 → map_ops m1 ops rs m2 → map_ops m (op :: ops) (r :: rs) m2.

Lemma heap_inv_empty : heap_inv heap_empty.
Proof. split; [split|]; simpl; [done|intros t i; by rewrite lookup_empty|intros i; simpl; lia]. Qed.

Lemma heap_op_refines h op :
  heap_inv h → ∃ r h', heap_op h op = Some (r, h') ∧ heap_inv h' ∧ map_op (deadlines h) op r (deadlines h').
Proof.
  intros Hh. pose proof (peek_spec h Hh) as Hp. destruct op as [memory t d|t| |]; simpl.
  - destruct (index_of h !! t) as [i|] eqn:Ht.
    + destruct (update_spec h t i d memory Hh Ht) as (h' & -> & Hi & Hd). exists (Inserted true), h'.
      split_and!; [done..|]. rewrite Hd. constructor. right. apply not_eq_None_Some.
      by rewrite deadlines_None, Ht by apply Hh.
    + destruct memory.
      * destruct (append_spec h t d Hh Ht) as (h' & -> & Hi & Hd). exists (Inserted true), h'.
        split_and!; [done..|]. rewrite Hd. constructor. by left.
      * exists (Inserted false), h. unfold deadlineHeapInsertOrUpdate. rewrite Ht. split_and!; [done..|].
        constructor. by apply deadlines_None; [apply Hh|].
  - destruct (remove_spec h t Hh) as (h' & -> & Hi & Hd). eexists _, h'. split_and!; [done..|]. rewrite Hd. constructor.
  - eexists _, h. split_and!; [done..|]. constructor. by destruct (deadlineHeapPeek h).
  - destruct (pop_spec h Hh) as (h' & -> & Hi & Hd). eexists _, h'. split_and!; [done..|].
    destruct (deadlineHeapPeek h) as [e|]; rewrite Hd; by constructor.
Qed.

Lemma heap_ops_refine ops h :
  heap_inv h → ∃ rs h', heap_ops h ops = Some (rs, h') ∧ heap_inv h' ∧ map_ops (deadlines h) ops rs (deadlines h').
Proof.
  revert h. induction ops as [|op ops IH]; intros h Hh.
  { exists [], h. split_and!; [done..|constructor]. }
  destruct (heap_op_refines h op Hh) as (r & h1 & E1 & Hh1 & Hr). destruct (IH h1 Hh1) as (rs & h2 & E2 & Hh2 & Hrs).
  exists (r :: rs), h2. cbn [heap_ops]. rewrite E1. simpl. rewrite E2. split_and!; [done..|]. by econstructor.
Qed.

Lemma deadlines_empty : deadlines heap_empty = ∅.
Proof. done. Qed.

(** C14. The heap implements a map from targets to deadlines: whatever operations are
    made on it, no index is out of bounds, no assertion fails and no loop runs out
    of rounds; every answer is one that the map allows ([peek] and [pop] give an
    entry than which none is earlier, an update moves the deadline of a target, a
    removal says whether there was one); and without memory an insertion fails and
    changes nothing. *)
Theorem heap_refines_map ops :
  ∃ rs h, heap_ops heap_empty ops = Some (rs, h) ∧ map_ops ∅ ops rs (deadlines h) ∧
    ordered (length (items h)) (key (items h)).
Proof.
  destruct (heap_ops_refine ops heap_empty heap_inv_empty) as (rs & h & E & [_ Ho] & Hr).
  exists rs, h. rewrite deadlines_empty in Hr. done.
Qed.

(** ** Expiry and the timer *)

Definition ns_per_ms : Z := 1000000.

Definition deadlineDelayMs (deadline_ns now_ns : Z) : option Z :=
  let remaining_ns := sat_sub deadline_ns now_ns in
  if remaining_ns =? 0 then None
  else Some (Z.max 1 ((remaining_ns + ns_per_ms - 1) / ns_per_ms)).

(** [deadline_timer_armed] and [deadline_timer_deadline_ns], and the delay that the
    timer was last given *)
Record DeadlineTimer := mkDeadlineTimer { timer_armed : bool; timer_deadline_ns : option Z; timer_delay_ms : Z }.

Definition timer_idle : DeadlineTimer := mkDeadlineTimer false None 0.

(** The timer is run when it is not armed, and reset when it is too late. *)
Definition arm_timer (earliest delay_ms : Z) (t : DeadlineTimer) : option DeadlineTimer :=
  if negb (timer_armed t) then Some (mkDeadlineTimer true (Some earliest) delay_ms)
  else
    timer_deadline ← timer_deadline_ns t;
    Some (if earliest <? timer_deadline then mkDeadlineTimer true (Some earliest) delay_ms else t).

(** What of the channel the timer works on: the heap, the timer and
    [stopping_on_loop] *)
Record TimerState := mkTimerState { ts_heap : DeadlineHeap; ts_timer : DeadlineTimer; ts_stopping : bool }.

#[export] Instance TimerState_eta : Eta TimerState := λ s, mkTimerState (ts_heap s) (ts_timer s) (ts_stopping s).

(** What handling an entry or sending frames comes to: operations on the heap (a new
    attempt to connect arms a deadline, a call that ends removes its own),
    [scheduleDeadlineTimer] (of [scheduleReconnect], [startConnection] and
    [onStreamClose]) at a time that it reads, and [beginStop] *)
Inductive Act : Type :=
  | DoHeap (op : HeapOp)
  | DoSchedule (now : Z)
  | DoStop.

(** The acts for each entry of the heap and whether handling it fails
    ([error.DeadlineCancellationFailed]); the same for the [flush] after the loop, by
    the entries that the loop has handled; and what [beginStop] does to the heap *)
Record Handling := mkHandling {
  handle : DeadlineEntry → list Act;
  handling_fails : DeadlineEntry → bool;
  flush_acts : list DeadlineEntry → list Act;
  flush_fails : list DeadlineEntry → bool;
  stop_ops : list HeapOp }.

Definition beginStop (x : Handling) (s : TimerState) : option TimerState :=
  if ts_stopping s then Some s
  else '(_, h) ← heap_ops (ts_heap s) (stop_ops x); Some (s <| ts_heap := h |> <| ts_stopping := true |>).

Section Expiry.
Context (x : Handling) (schedule : Z → TimerState → option (list DeadlineEntry * TimerState)).

(** With the entries that are handled on the way *)
Fixpoint perform (acts : list Act) (s : TimerState) : option (list DeadlineEntry * TimerState) :=
  match acts with
  | [] => Some ([], s)
  | act :: acts' =>
      '(es, s1) ← match act with
                  | DoHeap op => '(_, h) ← heap_op (ts_heap s) op; Some ([], s <| ts_heap := h |>)
                  | DoSchedule now => schedule now s
                  | DoStop => s' ← beginStop x s; Some ([], s')
                  end;
      '(es', s2) ← perform acts' s1; Some (es ++ es', s2)
  end.

(** The loop of [expireDeadlines]: the entries it has handled, these with the ones that
    were handled on the way, and whether it returned an error *)
Fixpoint expire_loop (fuel : nat) (now : Z) (s : TimerState)
  : option (list DeadlineEntry * list DeadlineEntry * bool * TimerState) :=
  match fuel with
  | O => None
  | S fuel' =>
      match deadlineHeapPeek (ts_heap s) with
      | None => Some ([], [], false, s)
      | Some next =>
          if now <? expires_at_ns next then Some ([], [], false, s)
          else
            '(popped, h) ← deadlineHeapPop (ts_heap s); entry ← popped;
            '(es, s1) ← perform (handle x entry) (s <| ts_heap := h |>);
            if handling_fails x entry then Some ([entry], entry :: es, true, s1)
            else '(own, es', failed, s2) ← expire_loop fuel' now s1; Some (entry :: own, entry :: es ++ es', failed, s2)
      end
  end.

(** [flush] is for a connection that is there, which [beginStop] ends. *)
Definition expireDeadlines (now : Z) (s : TimerState) : option (list DeadlineEntry * bool * TimerState) :=
  '(own, es, failed, s1) ← expire_loop (S (length (items (ts_heap s)))) now s;
  if failed : bool then Some (es, true, s1)
  else if bool_decide (own = []) || ts_stopping s1 then Some (es, false, s1)
  else '(es', s2) ← perform (flush_acts x own) s1; Some (es ++ es', flush_fails x own, s2).

(** The loop of [scheduleDeadlineTimer]; its clock is read once. *)
Fixpoint schedule_loop (fuel : nat) (now : Z) (s : TimerState) : option (list DeadlineEntry * TimerState) :=
  match fuel with
  | O => None
  | S fuel' =>
      match deadlineHeapPeek (ts_heap s) with
      | None => Some ([], s)
      | Some entry =>
          match deadlineDelayMs (expires_at_ns entry) now with
          | None =>
              '(es, failed, s1) ← expireDeadlines now s;
              if failed : bool then s2 ← beginStop x s1; Some (es, s2)
              else '(es', s2) ← schedule_loop fuel' now s1; Some (es ++ es', s2)
          | Some delay_ms =>
              timer ← arm_timer (expires_at_ns entry) delay_ms (ts_timer s); Some ([], s <| ts_timer := timer |>)
          end
      end
  end.

Definition schedule_timer (now : Z) (s : TimerState) : option (list DeadlineEntry * TimerState) :=
  if ts_stopping s then Some ([], s) else schedule_loop 2 now s.

End Expiry.

(** [scheduleDeadlineTimer] is called again while it handles entries, at most [depth]
    deep. *)
Fixpoint schedule_nested (depth : nat) (x : Handling) : Z → TimerState → option (list DeadlineEntry * TimerState) :=
  match depth with
  | O => λ _ _, None
  | S depth' => schedule_timer x (schedule_nested depth' x)
  end.

(** Each call within another one is made for an entry that was taken out of the heap. *)
Definition scheduleDeadlineTimer (x : Handling) (now : Z) (s : TimerState) : option (list DeadlineEntry * TimerState) :=
  schedule_nested (S (length (items (ts_heap s)))) x now s.

(** What the event loop tells the callback of the timer *)
Inductive TimerResult : Set := Fired | Canceled | TimerFailed.

(** The clock is read for [expireDeadlines], and again, [later], for
    [scheduleDeadlineTimer]. *)
Definition onDeadlineTimer (x : Handling) (result : TimerResult) (now later : Z) (s : TimerState)
  : option (list DeadlineEntry * TimerState) :=
  let s0 := s <| ts_timer := timer_idle |> in
  match result with
  | Canceled => scheduleDeadlineTimer x later s0
  | TimerFailed => s1 ← beginStop x s0; Some ([], s1)
  | Fired =>
      '(es, failed, s1) ← expireDeadlines x (schedule_nested (length (items (ts_heap s0))) x) now s0;
      if failed : bool then s2 ← beginStop x s1; Some (es, s2)
      else '(es', s2) ← scheduleDeadlineTimer x later s1; Some (es ++ es', s2)
  end.

Lemma deadlineDelayMs_spec deadline now :
  match deadlineDelayMs deadline now with
  | None => deadline ≤ now
  | Some delay => deadline ≤ now + delay * ns_per_ms < deadline + ns_per_ms
  end.
Proof.
  unfold deadlineDelayMs, sat_sub, ns_per_ms. destruct (Z.eqb_spec (Z.max 0 (deadline - now)) 0); [lia|].
  Z.to_euclidean_division_equations; lia.
Qed.

(** *** What is due *)

(** New deadlines lie ahead; existing ones may be put off or removed. *)
Definition later_only (now : Z) (op : HeapOp) : Prop :=
  match op with InsertOrUpdate _ _ expires => now < expires | Remove _ => True | _ => False end.

(** Nothing that is done by the time [later] arms a deadline before it. *)
Definition act_later (later : Z) (act : Act) : Prop :=
  match act with DoHeap op => later_only later op | DoSchedule now => now ≤ later | DoStop => True end.

Record handling_later (later : Z) (x : Handling) : Prop := {
  hl_handle e : Forall (act_later later) (handle x e);
  hl_flush es : Forall (act_later later) (flush_acts x es);
  hl_stop : Forall (later_only later) (stop_ops x) }.

Definition due (now : Z) (m : gmap T Z) : gmap T Z := filter (λ p, p.2 ≤ now) m.

Lemma lookup_due now m t d : due now m !! t = Some d ↔ m !! t = Some d ∧ d ≤ now.
Proof. unfold due. by rewrite map_lookup_filter_Some. Qed.

Lemma map_op_due now m op r m' : later_only now op → map_op m op r m' → due now m' ⊆ due now m.
Proof.
  intros Hl Hop. apply map_subseteq_spec. intros t d. rewrite !lookup_due. intros [Ht Hd]. split; [|done].
  destruct Hop; simpl in Hl; try done.
  - apply lookup_insert_Some in Ht as [[_ <-]|[_ ?]]; [lia|done].
  - by apply lookup_delete_Some in Ht as [_ ?].
Qed.

Lemma map_ops_due now m ops rs m' : Forall (later_only now) ops → map_ops m ops rs m' → due now m' ⊆ due now m.
Proof.
  intros Hl Hops. induction Hops as [|m op r m1 ops rs m2 Hop Hops IH]; [done|].
  apply Forall_cons in Hl as [Hl1 Hl2]. etrans; [by apply IH|by eapply map_op_due].
Qed.

Lemma due_mono now later m m' : now ≤ later → due later m' ⊆ due later m → due now m' ⊆ due now m.
Proof.
  intros Hle Hsub. apply map_subseteq_spec. intros t d [Ht Hd]%lookup_due. apply lookup_due. split; [|done].
  eapply lookup_weaken in Hsub; [|apply lookup_due; split; [exact Ht|lia]]. by apply lookup_due in Hsub as [? _].
Qed.

Lemma size_deadlines h : indexed h → size (deadlines h) = length (items h).
Proof.
  intros Hh. rewrite <- (length_fmap (λ e, (target e, expires_at_ns e))), <- length_map_to_list.
  apply Permutation_length. apply NoDup_Permutation.
  - apply NoDup_map_to_list.
  - apply (NoDup_fmap_1 fst). rewrite <- list_fmap_compose. by apply indexed_NoDup.
  - intros [t d]. rewrite elem_of_map_to_list, deadlines_entry by done. rewrite list_elem_of_fmap. split.
    + intros ?. by eexists (mkDeadlineEntry d t).
    + by intros ([] & [= -> ->] & ?).
Qed.

Lemma size_due now h : heap_inv h → (size (due now (deadlines h)) ≤ length (items h))%nat.
Proof. intros Hh. rewrite <- size_deadlines by apply Hh. apply map_subseteq_size, map_filter_subseteq. Qed.

Lemma due_delete_size now (m : gmap T Z) e :
  m !! target e = Some (expires_at_ns e) → expires_at_ns e ≤ now →
  (size (due now (delete (target e) m)) < size (due now m))%nat.
Proof.
  intros He Hle. unfold due. rewrite map_filter_delete.
  assert (is_Some (filter (λ p : T * Z, p.2 ≤ now) m !! target e)) as [d Hin].
  { exists (expires_at_ns e). by apply lookup_due. }
  rewrite map_size_delete, Hin.
  assert (size (filter (λ p : T * Z, p.2 ≤ now) m) ≠ 0%nat); [|simpl in *; lia].
  intros Hz%map_size_empty_inv. by rewrite Hz, lookup_empty in Hin.
Qed.

Lemma due_none now (m : gmap T Z) : due now m = ∅ ↔ map_Forall (λ _ d, now < d) m.
Proof.
  split.
  - intros Hm t d Ht. destruct (decide (d ≤ now)); [|lia].
    assert (due now m !! t = Some d) as Hd by by apply lookup_due. by rewrite Hm, lookup_empty in Hd.
  - intros Hm. apply map_eq. intros t. rewrite lookup_empty. apply eq_None_not_Some. intros [d Hd].
    apply lookup_due in Hd as [Hd ?]. pose proof (Hm _ _ Hd) as Hlt. simpl in Hlt. lia.
Qed.

(** *** What was handled

    Entries of [m] that were due, each once, earliest first *)
Record handled (now : Z) (m : gmap T Z) (es : list DeadlineEntry) : Prop := {
  hd_due : Forall (λ e, due now m !! target e = Some (expires_at_ns e)) es;
  hd_once : NoDup (target <$> es);
  hd_order : StronglySorted (λ a b, expires_at_ns a ≤ expires_at_ns b) es }.

(** What is due in [m'] was due in [m], has not been handled, and not before what
    was. *)
Definition remains (later : Z) (m m' : gmap T Z) (es : list DeadlineEntry) : Prop :=
  ∀ t d, due later m' !! t = Some d →
    (due later m !! t = Some d) ∧ (t ∉ (target <$> es)) ∧ Forall (λ e, expires_at_ns e ≤ d) es.

Definition drained (later : Z) (m m' : gmap T Z) (es : list DeadlineEntry) : Prop :=
  handled later m es ∧ remains later m m' es.

Lemma drained_nil later m m' : due later m' ⊆ due later m → drained later m m' [].
Proof.
  intros Hsub. split; [split; [done|constructor|constructor]|]. intros t d Ht.
  split_and!; [by eapply lookup_weaken|apply not_elem_of_nil|done].
Qed.

Lemma drained_pop later m e :
  earliest m (Some e) → expires_at_ns e ≤ later → drained later m (delete (target e) m) [e].
Proof.
  intros [He Hmin] Hle. split.
  - split; [by repeat constructor; apply lookup_due|apply NoDup_singleton|repeat constructor].
  - intros t d [[Hne Ht]%lookup_delete_Some Hd]%lookup_due. split_and!; [by apply lookup_due| |].
    + simpl. rewrite list_elem_of_singleton. congruence.
    + repeat constructor. by apply (Hmin _ _ Ht).
Qed.

Lemma drained_app later m m1 m2 es es' :
  drained later m m1 es → drained later m1 m2 es' → drained later m m2 (es ++ es').
Proof.
  intros [[Hd Ho Hs] Hr] [[Hd' Ho' Hs'] Hr']. rewrite Forall_forall in Hd'. repeat split.
  - apply Forall_app. split; [done|]. apply Forall_forall. intros e He. by apply (Hr _ _ (Hd' e He)).
  - rewrite fmap_app. apply NoDup_app. split_and!; [done| |done]. intros t Ht (e & -> & He)%list_elem_of_fmap.
    by apply (Hr _ _ (Hd' e He)).
  - apply StronglySorted_app_2; [|done|done]. intros e1 e2 He1 He2. destruct (Hr _ _ (Hd' e2 He2)) as (_ & _ & H).
    rewrite Forall_forall in H. by apply H.
  - destruct (Hr' t d H) as (H1 & _). by apply (Hr t d H1).
  - destruct (Hr' t d H) as (H1 & H2 & _). destruct (Hr t d H1) as (_ & H3 & _). rewrite fmap_app, not_elem_of_app. done.
  - destruct (Hr' t d H) as (H1 & _ & H2). destruct (Hr t d H1) as (_ & _ & H3). by apply Forall_app.
Qed.

Lemma drained_due later m m' es : drained later m m' es → due later m' ⊆ due later m.
Proof. intros [_ Hr]. apply map_subseteq_spec. intros t d Ht. by apply (Hr t d Ht). Qed.

Lemma drained_size later m m' es : drained later m m' es → (size (due later m') ≤ size (due later m))%nat.
Proof. intros Hd. by eapply map_subseteq_size, drained_due. Qed.

Lemma drained_lt now later m m' e es :
  now ≤ later → expires_at_ns e ≤ now → drained later m m' (e :: es) → (size (due now m') < size (due now m))%nat.
Proof.
  intros Hle He [[Hd _ _] Hr]. apply Forall_cons in Hd as [[Hd _]%lookup_due _].
  eapply Nat.le_lt_trans; [|by apply (due_delete_size now m e)]. apply map_subseteq_size, map_subseteq_spec.
  intros t d [Ht Htd]%lookup_due. destruct (Hr t d) as ([Hm _]%lookup_due & Hne & _); [apply lookup_due; split; [done|lia]|].
  apply lookup_due. split; [|done]. apply lookup_delete_Some. split; [|done]. intros <-. apply Hne. by left.
Qed.

(** *** Why the channel stops, and who arms the timer *)

(** Some entry of [es], or the [flush] for some of them, does what [P] says. *)
Definition origin (x : Handling) (es : list DeadlineEntry) (P : list Act → Prop) : Prop :=
  Exists (λ e, P (handle x e)) es ∨ ∃ call, call `sublist_of` es ∧ P (flush_acts x call).

Definition reschedules (x : Handling) (es : list DeadlineEntry) : Prop :=
  origin x es (λ acts, ∃ now, DoSchedule now ∈ acts).

Definition failure (x : Handling) (es : list DeadlineEntry) : Prop :=
  Exists (λ e, handling_fails x e = true) es ∨ (∃ call, call `sublist_of` es ∧ flush_fails x call = true) ∨
  origin x es (λ acts, DoStop ∈ acts).

Lemma Exists_sublist {A} (P : A → Prop) l l' : l `sublist_of` l' → Exists P l → Exists P l'.
Proof.
  intros Hs. rewrite !Exists_exists. intros (a & Ha & HP). exists a. split; [|done].
  by eapply (list.sublist_subseteq l l').
Qed.

Lemma origin_mono x es es' P : es `sublist_of` es' → origin x es P → origin x es' P.
Proof.
  intros Hs [H|(call & Hc & HP)]; [left; by eapply Exists_sublist|right; exists call]. split; [by etrans|done].
Qed.

Lemma failure_mono x es es' : es `sublist_of` es' → failure x es → failure x es'.
Proof.
  intros Hs [H|[(call & Hc & HP)|H]]; [left; by eapply Exists_sublist| |right; right; by eapply origin_mono].
  right; left. exists call. split; [by etrans|done].
Qed.

Lemma failure_l x es es' : failure x es → failure x (es ++ es').
Proof. apply failure_mono. by apply sublist_inserts_r. Qed.

Lemma failure_r x es es' : failure x es' → failure x (es ++ es').
Proof. apply failure_mono. by apply sublist_inserts_l. Qed.

Lemma origin_l x es es' P : origin x es P → origin x (es ++ es') P.
Proof. apply origin_mono. by apply sublist_inserts_r. Qed.

Lemma origin_r x es es' P : origin x es' P → origin x (es ++ es') P.
Proof. apply origin_mono. by apply sublist_inserts_l. Qed.

(** Armed for a deadline at some time until [later], less than a millisecond late *)
Definition armed_by (later : Z) (t : DeadlineTimer) : Prop :=
  timer_armed t = true ∧ ∃ d now, timer_deadline_ns t = Some d ∧ now ≤ later ∧
    d ≤ now + timer_delay_ms t * ns_per_ms < d + ns_per_ms.

Definition timer_inv (t : DeadlineTimer) : Prop := timer_armed t = true → is_Some (timer_deadline_ns t).

Lemma armed_inv later t : armed_by later t → timer_inv t.
Proof. intros (_ & d & now & Hd & _) _. by exists d. Qed.

(** From [s] to [s'], with [es] handled: [R] if the timer was armed, [F] if the channel
    was stopped. *)
Record went (later : Z) (R F : Prop) (s : TimerState) (es : list DeadlineEntry) (s' : TimerState) : Prop := {
  wt_heap : heap_inv (ts_heap s');
  wt_drained : drained later (deadlines (ts_heap s)) (deadlines (ts_heap s')) es;
  wt_timer : ts_timer s' = ts_timer s ∨ (R ∧ armed_by later (ts_timer s'));
  wt_stop : ts_stopping s' = true → ts_stopping s = true ∨ F;
  wt_stopping : ts_stopping s = true → ts_stopping s' = true }.

Lemma went_nil later R F s h :
  heap_inv h → due later (deadlines h) ⊆ due later (deadlines (ts_heap s)) → went later R F s [] (s <| ts_heap := h |>).
Proof. intros Hh Hd. split; [done|by apply drained_nil|by left|by left|done]. Qed.

Lemma went_refl later R F s : heap_inv (ts_heap s) → went later R F s [] s.
Proof. intros Hh. split; [done|by apply drained_nil|by left|by left|done]. Qed.

Lemma went_weaken later (R F R' F' : Prop) s es s' : (R → R') → (F → F') → went later R F s es s' → went later R' F' s es s'.
Proof. intros HR HF [H1 H2 H3 H4 H5]. split; [done|done|intuition auto..]. Qed.

Lemma went_app later R F s es s1 es' s2 :
  went later R F s es s1 → went later R F s1 es' s2 → went later R F s (es ++ es') s2.
Proof.
  intros [H1 H2 H3 H4 H5] [H1' H2' H3' H4' H5']. split; [done|by eapply drained_app| |intuition auto..].
  destruct H3' as [->|]; [done|by right].
Qed.

Lemma went_size later R F s es s' :
  went later R F s es s' → (size (due later (deadlines (ts_heap s'))) ≤ size (due later (deadlines (ts_heap s))))%nat.
Proof. intros H. eapply drained_size, H. Qed.

Lemma went_due later now R F s es s' :
  now ≤ later → went later R F s es s' → due now (deadlines (ts_heap s)) = ∅ → due now (deadlines (ts_heap s')) = ∅.
Proof.
  intros Hle H Hd. apply (anti_symm (⊆)); [|apply map_empty_subseteq]. rewrite <- Hd.
  eapply due_mono; [done|]. eapply drained_due, H.
Qed.

Lemma went_timer_inv later R F s es s' : went later R F s es s' → timer_inv (ts_timer s) → timer_inv (ts_timer s').
Proof. intros [_ _ [->|[_ H]] _ _]; [done|]. intros _. by eapply armed_inv. Qed.

Section Later.
Context (later : Z) (x : Handling) (Hl : handling_later later x).

Local Abbreviation left_due s := (size (due later (deadlines (ts_heap s)))).

Lemma beginStop_spec s (R F : Prop) : heap_inv (ts_heap s) → F →
  ∃ s', beginStop x s = Some s' ∧ went later R F s [] s' ∧ ts_stopping s' = true.
Proof.
  intros Hh HF. unfold beginStop. destruct (ts_stopping s) eqn:Es; [exists s; split_and!; [done|by apply went_refl|done]|].
  destruct (heap_ops_refine (stop_ops x) (ts_heap s) Hh) as (rs & h & -> & Hh' & Hops). eexists. split; [done|].
  split; [|done]. split; [done| |by left|by right|done]. apply drained_nil. by eapply map_ops_due; [apply Hl|].
Qed.

(** Enough depth for all that is due to be handled *)
Definition schedules (n : nat) (schedule : Z → TimerState → option (list DeadlineEntry * TimerState)) : Prop :=
  ∀ now s, now ≤ later → heap_inv (ts_heap s) → timer_inv (ts_timer s) → (left_due s < n)%nat →
  ∃ es s', schedule now s = Some (es, s') ∧ went later True (failure x es) s es s'.

Section Nested.
Context (n : nat) (schedule : Z → TimerState → option (list DeadlineEntry * TimerState)) (Hs : schedules n schedule).

Lemma perform_spec acts s :
  Forall (act_later later) acts → heap_inv (ts_heap s) → timer_inv (ts_timer s) → (left_due s < n)%nat →
  ∃ es s', perform x schedule acts s = Some (es, s') ∧
    went later (∃ now, DoSchedule now ∈ acts) (DoStop ∈ acts ∨ failure x es) s es s'.
Proof.
  revert s. induction acts as [|act acts IH]; intros s Ha Hh Ht Hd.
  { exists [], s. split; [done|by apply went_refl]. }
  apply Forall_cons in Ha as [Ha Has]. cbn [perform].
  assert (∃ es s1, match act with
      | DoHeap op => '(_, h) ← heap_op (ts_heap s) op; Some ([], s <| ts_heap := h |>)
      | DoSchedule now => schedule now s
      | DoStop => s' ← beginStop x s; Some ([], s')
      end = Some (es, s1) ∧ went later (∃ now, DoSchedule now ∈ act :: acts) (DoStop ∈ act :: acts ∨ failure x es) s es s1)
    as (es & s1 & -> & H1).
  { destruct act as [op|now|].
    - destruct (heap_op_refines (ts_heap s) op Hh) as (r & h & -> & Hh' & Hop). eexists _, _. split; [done|].
      apply went_nil; [done|by eapply map_op_due].
    - destruct (Hs now s Ha Hh Ht Hd) as (es & s1 & -> & H). eexists _, _. split; [done|].
      eapply went_weaken; [|by right|exact H]. intros _. exists now. by left.
    - destruct (beginStop_spec s (∃ now, DoSchedule now ∈ DoStop :: acts) (DoStop ∈ DoStop :: acts ∨ failure x []) Hh) as (s1 & -> & H & _).
      { left. by left. } by eexists _, _. }
  cbn [mbind option_bind]. destruct (IH s1) as (es' & s2 & -> & H2); [done|by apply H1|by eapply went_timer_inv| |].
  { apply went_size in H1. lia. }
  cbn [mbind option_bind]. eexists _, _. split; [done|].
  eapply went_app; (eapply went_weaken; [| |eassumption]); [done| |intros [now ?]; exists now; by right|].
  - intros [?|?]; [by left|right; by apply failure_l].
  - intros [?|?]; [left; by right|right; by apply failure_r].
Qed.

(** One entry taken out of the heap and handled *)
Lemma handle_spec s e h :
  earliest (deadlines (ts_heap s)) (Some e) → expires_at_ns e ≤ later → heap_inv h →
  deadlines h = delete (target e) (deadlines (ts_heap s)) → timer_inv (ts_timer s) → (left_due s ≤ n)%nat →
  ∃ es s1, perform x schedule (handle x e) (s <| ts_heap := h |>) = Some (es, s1) ∧
    went later (reschedules x (e :: es)) (failure x (e :: es)) s (e :: es) s1.
Proof.
  intros He Hle Hh Hd Ht Hn. pose proof (due_delete_size later _ e (proj1 He) Hle) as Hlt. rewrite <- Hd in Hlt.
  destruct (perform_spec (handle x e) (s <| ts_heap := h |>)) as (es & s1 & E & H); [apply Hl|done|done|simpl; lia|].
  exists es, s1. split; [done|].
  destruct H as [H1 H2 H3 H4 H5]. split; [done| | | |done].
  - eapply (drained_app _ _ _ _ [e]); [by apply drained_pop|]. simpl in H2. by rewrite Hd in H2.
  - destruct H3 as [->|[[now ?] ?]]; [by left|]. right. split; [|done]. left. constructor. by exists now.
  - intros Hst. destruct (H4 Hst) as [?|[?|?]]; [by left|right; right; right; left; by constructor|].
    right. by apply (failure_r x [e]).
Qed.

Lemma expire_loop_spec fuel now s :
  now ≤ later → heap_inv (ts_heap s) → timer_inv (ts_timer s) → (left_due s ≤ n)%nat → (size (due now (deadlines (ts_heap s))) < fuel)%nat →
  ∃ own es failed s', expire_loop x schedule fuel now s = Some (own, es, failed, s') ∧
    went later (reschedules x es) (failure x es) s es s' ∧ own `sublist_of` es ∧
    (own ≠ [] → (left_due s' < left_due s)%nat) ∧
    if failed then Exists (λ e, handling_fails x e = true) es else due now (deadlines (ts_heap s')) = ∅.
Proof.
  intros Hle. revert s. induction fuel as [|fuel IH]; intros s Hh Ht Hn Hf; [lia|]. cbn [expire_loop].
  pose proof (peek_spec _ Hh) as Hp. destruct (pop_spec _ Hh) as (h1 & E1 & Hh1 & Hd1).
  destruct (deadlineHeapPeek (ts_heap s)) as [e|].
  2: { exists [], [], false, s. split_and!; [done|by apply went_refl|done..|]. rewrite Hp. by apply due_none, map_Forall_empty. }
  destruct (Z.ltb_spec now (expires_at_ns e)) as [Hlt|Hge].
  { exists [], [], false, s. split_and!; [done|by apply went_refl|done..|]. apply due_none. intros t d Htd.
    pose proof (proj2 Hp t d Htd). simpl in *. lia. }
  rewrite E1. cbn [mbind option_bind].
  destruct (handle_spec s e h1) as (es & s1 & -> & H1); [done|lia|done..|].
  pose proof (drained_lt later later _ _ e es ltac:(lia) ltac:(lia) (wt_drained _ _ _ _ _ _ H1)) as Hlt. cbn [mbind option_bind].
  destruct (handling_fails x e) eqn:Ex.
  { exists [e], (e :: es), true, s1. split_and!; [done..|by apply sublist_skip, sublist_nil_l|done|by constructor]. }
  destruct (IH s1) as (own & es' & failed & s2 & -> & H2 & Hown & Hown' & Hres); [by apply H1|by eapply went_timer_inv|lia| |].
  { pose proof (drained_lt now later _ _ e es Hle Hge (wt_drained _ _ _ _ _ _ H1)). lia. }
  cbn [mbind option_bind]. exists (e :: own), (e :: es ++ es'), failed, s2. split_and!; [done| |by apply sublist_skip, sublist_inserts_l| |].
  - apply (went_app _ _ _ _ (e :: es) s1).
    + eapply went_weaken; [| |exact H1]; [apply (origin_l x (e :: es))|apply (failure_l x (e :: es))].
    + eapply went_weaken; [| |exact H2]; [apply (origin_r x (e :: es))|apply (failure_r x (e :: es))].
  - intros _. apply went_size in H2. lia.
  - destruct failed; [|done]. apply Exists_cons_tl, Exists_app. by right.
Qed.

Lemma expireDeadlines_spec now s :
  now ≤ later → heap_inv (ts_heap s) → timer_inv (ts_timer s) → (left_due s ≤ n)%nat →
  ∃ es failed s', expireDeadlines x schedule now s = Some (es, failed, s') ∧
    went later (reschedules x es) (failure x es) s es s' ∧
    if failed then failure x es else due now (deadlines (ts_heap s')) = ∅.
Proof.
  intros Hle Hh Ht Hn. unfold expireDeadlines.
  destruct (expire_loop_spec (S (length (items (ts_heap s)))) now s Hle Hh Ht Hn) as (own & es & failed & s1 & -> & H1 & Hown & Hlt & Hres).
  { pose proof (size_due now _ Hh). lia. }
  cbn [mbind option_bind]. destruct failed; [eexists _, _, _; split_and!; [done..|by left]|].
  case_bool_decide as Ho; [by eexists _, _, _|]. destruct (ts_stopping s1); [by eexists _, _, _|]. cbn [orb].
  destruct (perform_spec (flush_acts x own) s1) as (es' & s2 & -> & H2); [apply Hl|by apply H1|by eapply went_timer_inv| |].
  { specialize (Hlt Ho). lia. }
  cbn [mbind option_bind]. eexists _, _, _. split; [done|]. split.
  - eapply went_app; (eapply went_weaken; [| |eassumption]).
    + apply origin_l.
    + apply failure_l.
    + intros ?. right. exists own. split; [by apply sublist_inserts_r|done].
    + intros [?|?]; [|by apply failure_r].
      right; right; right. exists own. split; [by apply sublist_inserts_r|done].
  - destruct (flush_fails x own) eqn:Ef; [|by eapply went_due].
    right; left. exists own. split; [by apply sublist_inserts_r|done].
Qed.

(** Armed no later than any deadline: as before, or for the earliest one and less than
    a millisecond late, or by a call within this one *)
Definition timer_covers (now : Z) (es : list DeadlineEntry) (m : gmap T Z) (before after : DeadlineTimer) : Prop :=
  m = ∅ ∨ ∃ d, timer_armed after = true ∧ timer_deadline_ns after = Some d ∧ map_Forall (λ _ d', d ≤ d') m ∧
    (after = before ∨
     (d ≤ now + timer_delay_ms after * ns_per_ms < d + ns_per_ms ∧ ∃ t, m !! t = Some d) ∨
     (reschedules x es ∧ armed_by later after)).

(** The timer at the start of [s], or armed while [es] were handled *)
Definition timer_from (es : list DeadlineEntry) (before : DeadlineTimer) (s : TimerState) : Prop :=
  ts_timer s = before ∨ (reschedules x es ∧ armed_by later (ts_timer s)).

Lemma schedule_armed fuel now s :
  now ≤ later → heap_inv (ts_heap s) → timer_inv (ts_timer s) → due now (deadlines (ts_heap s)) = ∅ → (0 < fuel)%nat →
  ∃ s', schedule_loop x schedule fuel now s = Some ([], s') ∧ went later True False s [] s' ∧ ts_heap s' = ts_heap s ∧
    ∀ es before, timer_from es before s → timer_covers now es (deadlines (ts_heap s)) before (ts_timer s').
Proof.
  intros Hle Hh Ht Hlater%due_none Hf. destruct fuel as [|fuel]; [lia|]. cbn [schedule_loop].
  pose proof (peek_spec _ Hh) as Hp. destruct (deadlineHeapPeek (ts_heap s)) as [e|].
  2: { exists s. split_and!; [done|by apply went_refl|done|]. by left. }
  destruct Hp as [He Hmin]. pose proof (Hlater _ _ He) as Hlt. simpl in Hlt.
  pose proof (deadlineDelayMs_spec (expires_at_ns e) now) as Hd.
  destruct (deadlineDelayMs (expires_at_ns e) now) as [delay|]; [|lia].
  assert (armed_by later (mkDeadlineTimer true (Some (expires_at_ns e)) delay)) as Ha by (split; [done|by exists (expires_at_ns e), now]).
  assert (∀ es before, timer_covers now es (deadlines (ts_heap s)) before (mkDeadlineTimer true (Some (expires_at_ns e)) delay)) as Hnew.
  { intros es before. right. exists (expires_at_ns e). split_and!; [done..|]. right; left. split; [done|eauto]. }
  assert (went later True False s [] (s <| ts_timer := mkDeadlineTimer true (Some (expires_at_ns e)) delay |>)) as Hw.
  { split; [done|by apply drained_nil|by right|by left|done]. }
  unfold arm_timer. destruct (ts_timer s) as [[] d0 delay0] eqn:Et; simpl; [|by eexists; split_and!].
  destruct (Ht eq_refl) as [d Hd0]. simpl in Hd0. subst d0. simpl. destruct (Z.ltb_spec (expires_at_ns e) d); [by eexists; split_and!|].
  eexists. split; [done|]. split; [split; [done|by apply drained_nil|by left|by left|done]|]. split; [done|].
  intros es before Hfrom. right. exists d. split_and!; [done..| |].
  - intros t d' Hd'. pose proof (Hmin t d' Hd'). simpl in *. lia.
  - unfold timer_from in Hfrom. rewrite Et in Hfrom. destruct Hfrom; [by left|by right; right].
Qed.

Lemma schedule_timer_spec now s :
  now ≤ later → heap_inv (ts_heap s) → timer_inv (ts_timer s) → (left_due s ≤ n)%nat →
  ∃ es s', schedule_timer x schedule now s = Some (es, s') ∧ went later True (failure x es) s es s' ∧
    (ts_stopping s' = false → map_Forall (λ _ d, now < d) (deadlines (ts_heap s')) ∧
       ∀ es0 before, timer_from es0 before s → timer_covers now (es0 ++ es) (deadlines (ts_heap s')) before (ts_timer s')).
Proof.
  intros Hle Hh Ht Hn. unfold schedule_timer. destruct (ts_stopping s) eqn:Est.
  { exists [], s. split_and!; [done|by apply went_refl|by rewrite Est]. }
  destruct (decide (due now (deadlines (ts_heap s)) = ∅)) as [Hnone|Hsome].
  { destruct (schedule_armed 2 now s Hle Hh Ht Hnone ltac:(lia)) as (s' & -> & H & Eh & Hc). exists [], s'.
    split_and!; [done|by eapply went_weaken; [| |exact H]|]. intros _. rewrite Eh. split; [by apply due_none|].
    intros es0 before. rewrite app_nil_r. apply Hc. }
  assert (∃ k, (0 < k)%nat ∧ 2%nat = S k) as (k & Hk & ->) by (exists 1%nat; lia).
  cbn [schedule_loop]. pose proof (peek_spec _ Hh) as Hp. destruct (deadlineHeapPeek (ts_heap s)) as [e|]; [|by rewrite Hp in Hsome].
  assert (deadlineDelayMs (expires_at_ns e) now = None) as ->.
  { unfold deadlineDelayMs, sat_sub. destruct (Z.eqb_spec (Z.max 0 (expires_at_ns e - now)) 0); [done|]. destruct Hsome.
    apply due_none. intros t d Htd. pose proof (proj2 Hp t d Htd). simpl in *. lia. }
  destruct (expireDeadlines_spec now s Hle Hh Ht Hn) as (es & failed & s1 & -> & H1 & Hres). cbn [mbind option_bind].
  pose proof (went_timer_inv _ _ _ _ _ _ H1 Ht) as Ht1. destruct failed.
  - destruct (beginStop_spec s1 True (failure x es)) as (s2 & -> & H2 & Est2); [by apply H1|done|]. cbn [mbind option_bind].
    exists es, s2. split_and!; [done| |by rewrite Est2]. rewrite <- (app_nil_r es) at 2.
    eapply went_app; [by eapply went_weaken; [| |exact H1]|exact H2].
  - destruct (schedule_armed k now s1) as (s2 & -> & H2 & Eh & Hc); [done|by apply H1|done..|]. cbn [mbind option_bind].
    rewrite app_nil_r. exists es, s2. split_and!; [done| |].
    + rewrite <- (app_nil_r es) at 2. eapply went_app; by eapply went_weaken; [| |eassumption].
    + intros _. rewrite Eh. split; [by apply due_none|]. intros es0 before Hfrom. apply Hc.
      destruct (wt_timer _ _ _ _ _ _ H1) as [E|[? ?]]; [|right; split; [by apply origin_r|done]].
      destruct Hfrom as [Hb|[? ?]]; [left; congruence|right; split; [by apply origin_l|congruence]].
Qed.

End Nested.

Lemma schedule_nested_spec n : schedules n (schedule_nested n x).
Proof.
  induction n as [|n IH]; intros now s Hle Hh Ht Hd; [lia|].
  destruct (schedule_timer_spec n (schedule_nested n x) IH now s) as (es & s' & E & H & _); [done..|lia|]. by exists es, s'.
Qed.

(** The timer was scheduled at [now], or something failed and the channel stops. *)
Definition scheduled (now : Z) (before : DeadlineTimer) (m : gmap T Z) (r : list DeadlineEntry * TimerState) : Prop :=
  let '(es, s') := r in
  handled later m es ∧
  if ts_stopping s' then failure x es
  else timer_inv (ts_timer s') ∧ map_Forall (λ _ d, now < d) (deadlines (ts_heap s')) ∧
    timer_covers now es (deadlines (ts_heap s')) before (ts_timer s').

Lemma scheduleDeadlineTimer_spec now s es0 before :
  now ≤ later → heap_inv (ts_heap s) → timer_inv (ts_timer s) → timer_from es0 before s →
  ∃ es s', scheduleDeadlineTimer x now s = Some (es, s') ∧ went later True (failure x es) s es s' ∧
    (ts_stopping s' = false → timer_inv (ts_timer s') ∧ map_Forall (λ _ d, now < d) (deadlines (ts_heap s')) ∧
       timer_covers now (es0 ++ es) (deadlines (ts_heap s')) before (ts_timer s')).
Proof.
  intros Hle Hh Ht Hfrom. unfold scheduleDeadlineTimer. cbn [schedule_nested].
  destruct (schedule_timer_spec _ _ (schedule_nested_spec (length (items (ts_heap s)))) now s Hle Hh Ht) as (es & s' & E & H & Hs).
  { by apply size_due. }
  exists es, s'. split_and!; [done..|]. intros Est. destruct (Hs Est) as [? ?]. split_and!; [by eapply went_timer_inv|done|auto].
Qed.

Lemma went_scheduled now (before : DeadlineTimer) s es s' :
  ts_stopping s = false → went later True (failure x es) s es s' →
  (ts_stopping s' = false → timer_inv (ts_timer s') ∧ map_Forall (λ _ d, now < d) (deadlines (ts_heap s')) ∧
     timer_covers now es (deadlines (ts_heap s')) before (ts_timer s')) →
  scheduled now before (deadlines (ts_heap s)) (es, s').
Proof.
  intros Est [_ [Hh _] _ Hstop _] Hs. split; [done|]. destruct (ts_stopping s'); [|auto]. destruct (Hstop eq_refl); [congruence|done].
Qed.

Lemma onDeadlineTimer_spec result now current s :
  now ≤ later → current ≤ later → heap_inv (ts_heap s) → ts_stopping s = false → result ≠ TimerFailed →
  ∃ r, onDeadlineTimer x result now current s = Some r ∧ scheduled current timer_idle (deadlines (ts_heap s)) r.
Proof.
  intros Hle Hle' Hh Est Hr. unfold onDeadlineTimer. set (s0 := s <| ts_timer := timer_idle |>).
  assert (timer_inv (ts_timer s0)) as Ht by done. destruct result; [| |done].
  - destruct (expireDeadlines_spec _ _ (schedule_nested_spec (length (items (ts_heap s0)))) now s0 Hle Hh Ht) as (es & failed & s1 & -> & H1 & Hres).
    { by apply size_due. }
    cbn [mbind option_bind]. destruct failed.
    + destruct (beginStop_spec s1 True (failure x es)) as (s2 & -> & H2 & Est2); [by apply H1|done|]. eexists. split; [done|].
      apply (went_scheduled current timer_idle s0); [done| |by rewrite Est2]. rewrite <- (app_nil_r es) at 2.
      eapply went_app; [by eapply went_weaken; [| |exact H1]|exact H2].
    + destruct (scheduleDeadlineTimer_spec current s1 es timer_idle) as (es' & s2 & -> & H2 & Hs);
        [done|by apply H1|by eapply went_timer_inv|exact (wt_timer _ _ _ _ _ _ H1)|].
      eexists. split; [done|]. apply (went_scheduled current timer_idle s0); [done| |done].
      eapply went_app; (eapply went_weaken; [done| |eassumption]); [apply failure_l|apply failure_r].
  - destruct (scheduleDeadlineTimer_spec current s0 [] timer_idle) as (es' & s2 & -> & H2 & Hs); [done..|by left|].
    eexists. split; [done|]. by apply (went_scheduled current timer_idle s0).
Qed.

End Later.

(** C15. No deadline is forgotten: whatever was put into the heap before, as long as
    nothing that is done until the last reading of the clock ([later]) arms a deadline
    that is not ahead of it, scheduling the timer and the timer's callback (also when the
    timer was cancelled, with a clock that goes on, and when handling an entry or the
    flush schedules the timer again) terminate; what was handled was due, each entry
    once and earliest first; afterwards every deadline still in the heap lies ahead, and
    if there is one, the timer is armed for the earliest of them or an earlier moment,
    never before the deadline it was armed for and less than a millisecond after it.
    Only when handling an entry, the flush or the timer itself failed, or one of them
    stopped the channel, does it stop instead. *)
Theorem no_deadline_forgotten now current later x ops timer :
  now ≤ current → current ≤ later → handling_later later x → timer_inv timer →
  ∃ rs h, heap_ops heap_empty ops = Some (rs, h) ∧
    (∃ r, scheduleDeadlineTimer x now (mkTimerState h timer false) = Some r ∧ scheduled later x now timer (deadlines h) r) ∧
    (∀ result, result ≠ TimerFailed → ∃ r, onDeadlineTimer x result now current (mkTimerState h timer false) = Some r ∧
       scheduled later x current timer_idle (deadlines h) r).
Proof.
  intros Hnc Hcl Hl Ht. destruct (heap_ops_refine ops heap_empty heap_inv_empty) as (rs & h & E & Hh & _).
  exists rs, h. split_and!; [done| |].
  - destruct (scheduleDeadlineTimer_spec later x Hl now (mkTimerState h timer false) [] timer) as (es & s' & -> & H & Hs); [lia|done..|by left|].
    eexists. split; [done|]. by apply (went_scheduled later x now timer (mkTimerState h timer false)).
  - intros result Hr. apply (onDeadlineTimer_spec later x Hl result now current (mkTimerState h timer false)); [lia|done..].
Qed.
End Heap.

#[global] Arguments DeadlineEntry : clear implicits.
#[global] Arguments HeapOp : clear implicits.
#[global] Arguments Act : clear implicits.
#[global] Arguments Handling : clear implicits.

(** A channel with a call, a stream and a reconnect that is due.  The attempt to connect
    fails and is put off, and the timer is scheduled while the entries are handled, at a
    time when the stream is due as well. *)
Definition example_ops : list (HeapOp ChannelTarget) :=
  [InsertOrUpdate true (operation 1) 900; InsertOrUpdate true (client_stream 2) 400;
   InsertOrUpdate true (reconnect 0) 100; InsertOrUpdate true (operation 3) 300; InsertOrUpdate true (operation 1) 50;
   Remove (operation 3); InsertOrUpdate false (operation 4) 7].

Definition example_handling : Handling ChannelTarget :=
  mkHandling
    (λ e, match target e with
          | reconnect impl => [DoHeap (InsertOrUpdate true (reconnect impl) 5000000); DoSchedule 450]
          | _ => []
          end)
    (λ _, false) (λ _, []) (λ _, false) [].

Definition example_handled : list (DeadlineEntry ChannelTarget) :=
  [mkDeadlineEntry 50 (operation 1); mkDeadlineEntry 100 (reconnect 0); mkDeadlineEntry 400 (client_stream 2)].

Lemma example_schedule :
  ('(_, h) ← heap_ops heap_empty example_ops;
   '(es, s) ← scheduleDeadlineTimer example_handling 200 (mkTimerState h timer_idle false);
   Some (es, ts_stopping s, ts_timer s)) =
  Some (example_handled, false, mkDeadlineTimer true (Some 5000000) 5).
Proof. vm_compute. reflexivity. Qed.

Lemma no_deadline_forgotten_witness :
  ∃ rs h, heap_ops heap_empty example_ops = Some (rs, h) ∧
    ∃ s', scheduleDeadlineTimer example_handling 200 (mkTimerState h timer_idle false) = Some (example_handled, s') ∧
      ts_timer s' = mkDeadlineTimer true (Some 5000000) 5 ∧
      timer_covers 1000 example_handling 200 example_handled (deadlines (ts_heap s')) timer_idle (ts_timer s').
Proof.
  destruct (no_deadline_forgotten 200 300 1000 example_handling example_ops timer_idle)
    as (rs & h & E & ([es s'] & E1 & Hs) & _); [lia|lia| |done|].
  { split; [|constructor|constructor]. intros [d []]; simpl; repeat constructor; simpl; lia. }
  exists rs, h. split; [exact E|]. exists s'.
  pose proof example_schedule as Hex. rewrite E in Hex. cbn [mbind option_bind] in Hex. rewrite E1 in Hex.
  cbn [mbind option_bind] in Hex. injection Hex as -> Hstop Ht. split; [exact E1|]. split; [exact Ht|].
  destruct Hs as [_ Hs]. rewrite Hstop in Hs. apply Hs.
Defined.
