(* ===== verification/IntrusiveQueues.v ===== *)
(** * Intrusive queues

    Three queues whose links are fields of the things queued: the operations of a
    channel that wait for a connection (doubly linked, [waiting_prev] and
    [waiting_next] of [src/channel.zig]), the streams of a channel with commands for
    the loop (singly linked, [wake_next]) and the connections of a server that have
    something to write ([dirty_next] of [src/server.zig]).

    The nodes are a map from pointers to their link fields.  Each queue is shown to
    implement a list: [QueueImpl] is what its users rely on. *)

From S2P Require Import Prelude.

(** ** What a queue promises *)

(** The list an intrusive queue stands for.  Appending what is queued already is an
    error of the caller. *)
Inductive QueueOp : Set := QAppend (p : nat) | QRemove (p : nat) | QPop.
Inductive QueueResult : Set := QAppended | QRemoved | QPopped (p : option nat).

Definition list_op (known : gset nat) (l : list nat) (op : QueueOp) : option (QueueResult * list nat) :=
  match op with
  | QAppend p => if decide (p ∈ known ∧ p ∉ l) then Some (QAppended, l ++ [p]) else None
  | QRemove p => if decide (p ∈ known) then Some (QRemoved, filter (λ x, x ≠ p) l) else None
  | QPop => Some (QPopped (head l), tail l)
  end.

(** [None] is an assertion that fails, a pointer that is not valid, or a loop without
    end. *)
Class QueueImpl (Q : Type) := {
  queue_append : nat → Q → option Q;
  queue_remove : nat → Q → option Q;
  queue_pop : Q → option (option nat * Q);
  (** the nodes that exist, and the list *)
  queue_holds : gset nat → Q → list nat → Prop;
  append_ok known q l p : queue_holds known q l → p ∈ known → p ∉ l →
    ∃ q', queue_append p q = Some q' ∧ queue_holds known q' (l ++ [p]);
  remove_ok known q l p : queue_holds known q l → p ∈ known →
    ∃ q', queue_remove p q = Some q' ∧ queue_holds known q' (filter (λ x, x ≠ p) l);
  pop_ok known q l : queue_holds known q l →
    ∃ q', queue_pop q = Some (head l, q') ∧ queue_holds known q' (tail l) }.

Section Runs.
Context {Q} {QI : QueueImpl Q}.

Definition queue_op (q : Q) (op : QueueOp) : option (QueueResult * Q) :=
  match op with
  | QAppend p => q' ← queue_append p q; Some (QAppended, q')
  | QRemove p => q' ← queue_remove p q; Some (QRemoved, q')
  | QPop => '(p, q') ← queue_pop q; Some (QPopped p, q')
  end.

Lemma queue_op_refines known q l op r l' :
  queue_holds known q l → list_op known l op = Some (r, l') →
  ∃ q', queue_op q op = Some (r, q') ∧ queue_holds known q' l'.
Proof.
  intros Hq Hop. destruct op as [p|p|]; simpl in *.
  - case_decide as Hp; [|done]. destruct Hp. simplify_res.
    destruct (append_ok known q l p) as (q' & -> & ?); [done..|]. by exists q'.
  - case_decide; [|done]. simplify_res. destruct (remove_ok known q l p) as (q' & -> & ?); [done..|]. by exists q'.
  - simplify_res. destruct (pop_ok known q l) as (q' & -> & ?); [done..|]. by exists q'.
Qed.
End Runs.

(** Runs of either side with their results *)
Section Results.
Context {S : Type} (step : S → QueueOp → option (QueueResult * S)).
Fixpoint results (s : S) (ops : list QueueOp) : option (list QueueResult * S) :=
  match ops with
  | [] => Some ([], s)
  | op :: ops' => '(r, s1) ← step s op; '(rs, s2) ← results s1 ops'; Some (r :: rs, s2)
  end.
End Results.

Lemma results_refine {Q} {QI : QueueImpl Q} known ops (q : Q) l rs l' :
  queue_holds known q l → results (list_op known) l ops = Some (rs, l') →
  ∃ q', results queue_op q ops = Some (rs, q') ∧ queue_holds known q' l'.
Proof.
  revert q l rs. induction ops as [|op ops IH]; intros q l rs Hq; cbn [results].
  { intros [= <- <-]. by exists q. }
  destruct (list_op known l op) as [[r l1]|] eqn:E1; [|done]. cbn [mbind option_bind].
  destruct (results (list_op known) l1 ops) as [[rs1 l2]|] eqn:E2; [|done]. intros [= <- <-].
  destruct (queue_op_refines known q l op r l1 Hq E1) as (q1 & -> & Hq1).
  destruct (IH q1 l1 rs1 Hq1 E2) as (q2 & E & Hq2). exists q2. cbn [mbind option_bind]. by rewrite E.
Qed.

(** ** Lists *)

Lemma filter_ne_absent (l : list nat) p : p ∉ l → filter (λ x, x ≠ p) l = l.
Proof.
  induction l as [|x l IH]; [done|]. rewrite not_elem_of_cons. intros [? ?].
  rewrite filter_cons_True by done. f_equal. auto.
Qed.

Lemma filter_ne_lookup (l : list nat) p i : NoDup l → l !! i = Some p → filter (λ x, x ≠ p) l = delete i l.
Proof.
  revert i. induction l as [|x l IH]; intros i Hnd Hi; [done|]. apply NoDup_cons in Hnd as [Hx Hnd]. destruct i as [|i]; simplify_eq/=.
  - rewrite filter_cons_False by (by intros []). by apply filter_ne_absent.
  - rewrite filter_cons_True by (intros ->; apply Hx; by eapply list_elem_of_lookup_2). f_equal. auto.
Qed.

Lemma tail_delete (l : list nat) : tail l = delete 0 l.
Proof. by destruct l. Qed.

Lemma last_delete (l : list nat) i p :
  l !! i = Some p → last (delete i l) = if decide (S i = length l) then (if i is S j then l !! j else None) else last l.
Proof.
  intros Hi. pose proof (lookup_lt_Some _ _ _ Hi). rewrite !last_lookup, length_delete by (by eexists).
  case_decide as Hn.
  - rewrite <- Hn. simpl. destruct i as [|j]; simpl.
    + destruct l as [|? []]; done.
    + rewrite list_lookup_delete_lt by lia. done.
  - rewrite list_lookup_delete_ge by lia. f_equal. lia.
Qed.

(** ** Singly linked: streams to wake, dirty connections *)

(** [wake_queued] and [wake_next], or [dirty_queued] and [dirty_next] *)
Record SNode := mkSNode { sn_queued : bool; sn_next : option nat }.

Record SQueue := mkSQueue { sq_nodes : gmap nat SNode; sq_head : option nat; sq_tail : option nat }.

(** What [appendStreamWake] and [enqueueDirtyConnection] do after their first check *)
Definition link_last (p : nat) (q : SQueue) : option SQueue :=
  let nodes := <[p := mkSNode true None]> (sq_nodes q) in
  match sq_tail q with
  | Some tail =>
      n ← nodes !! tail; Some (mkSQueue (<[tail := mkSNode (sn_queued n) (Some p)]> nodes) (sq_head q) (Some p))
  | None => Some (mkSQueue nodes (Some p) (Some p))
  end.

(** Taking [item], with links [n], out from behind [previous] *)
Definition unlink_item (previous : option nat) (item : nat) (n : SNode) (q : SQueue) : option SQueue :=
  q1 ← (match previous with
        | Some before =>
            b ← sq_nodes q !! before;
            Some (mkSQueue (<[before := mkSNode (sn_queued b) (sn_next n)]> (sq_nodes q)) (sq_head q) (sq_tail q))
        | None => Some (mkSQueue (sq_nodes q) (sn_next n) (sq_tail q))
        end);
  let tail := if decide (sq_tail q1 = Some item) then previous else sq_tail q1 in
  Some (mkSQueue (<[item := mkSNode false None]> (sq_nodes q1)) (sq_head q1) tail).

(** The loop of [removeStreamWake] and [removeDirtyConnection] from [current] on;
    the result is whether [p] was found. *)
Fixpoint unlink_loop (fuel : nat) (p : nat) (previous current : option nat) (q : SQueue) : option (bool * SQueue) :=
  match fuel with
  | O => None
  | S fuel' =>
      match current with
      | None => Some (false, q)
      | Some item =>
          n ← sq_nodes q !! item;
          if (item =? p)%nat then q' ← unlink_item previous item n q; Some (true, q')
          else unlink_loop fuel' p (Some item) (sn_next n) q
      end
  end.

(** A list of all nodes and one more round are enough fuel. *)
Definition unlink (p : nat) (q : SQueue) : option (bool * SQueue) :=
  unlink_loop (S (size (sq_nodes q))) p None (sq_head q) q.

(** The two pops differ only in the order of their last assignments. *)
Definition unlink_head (q : SQueue) : option (option nat * SQueue) :=
  match sq_head q with
  | None => Some (None, q)
  | Some p =>
      n ← sq_nodes q !! p;
      let tail := match sn_next n with None => None | Some _ => sq_tail q end in
      Some (Some p, mkSQueue (<[p := mkSNode false None]> (sq_nodes q)) (sn_next n) tail)
  end.

Definition appendStreamWake (p : nat) (q : SQueue) : option SQueue :=
  n ← sq_nodes q !! p; if sn_queued n then None else link_last p q.

Definition removeStreamWake (p : nat) (q : SQueue) : option SQueue := snd <$> unlink p q.

Definition popStreamWake (q : SQueue) : option (option nat * SQueue) := unlink_head q.

(** The result is whether the queue was empty, which is when the reactor has to be
    notified. *)
Definition enqueueDirtyConnection (p : nat) (q : SQueue) : option (bool * SQueue) :=
  n ← sq_nodes q !! p;
  if sn_queued n then Some (false, q)
  else let was_empty := bool_decide (sq_head q = None) in q' ← link_last p q; Some (was_empty, q').

Definition popDirtyConnection (q : SQueue) : option (option nat * SQueue) := unlink_head q.

(** [unreachable] when a queued connection is not found *)
Definition removeDirtyConnection (p : nat) (q : SQueue) : option SQueue :=
  n ← sq_nodes q !! p;
  if negb (sn_queued n) then Some q
  else '(found, q') ← unlink p q; if found : bool then Some q' else None.

(** *** The list *)

Record s_holds (known : gset nat) (q : SQueue) (l : list nat) : Prop := {
  sh_nodup : NoDup l;
  sh_head : sq_head q = head l;
  sh_tail : sq_tail q = last l;
  sh_known p : p ∈ known ↔ is_Some (sq_nodes q !! p);
  sh_in i p : l !! i = Some p → sq_nodes q !! p = Some (mkSNode true (l !! S i));
  sh_out p : p ∈ known → p ∉ l → sq_nodes q !! p = Some (mkSNode false None) }.

Lemma s_holds_length known q l : s_holds known q l → length l ≤ size (sq_nodes q).
Proof.
  intros Hq. rewrite <- size_dom. transitivity (size (list_to_set l : gset nat)).
  - by rewrite size_list_to_set by apply Hq.
  - apply subseteq_size. intros p [i Hi]%elem_of_list_to_set%list_elem_of_lookup.
    apply elem_of_dom. rewrite (sh_in _ _ _ Hq i p Hi). eauto.
Qed.

Lemma s_holds_queued known q l p n : s_holds known q l → sq_nodes q !! p = Some n → sn_queued n = bool_decide (p ∈ l).
Proof.
  intros Hq Hn. case_bool_decide as Hin.
  - apply list_elem_of_lookup in Hin as [i Hi]. rewrite (sh_in _ _ _ Hq i p Hi) in Hn. by simplify_eq.
  - rewrite (sh_out _ _ _ Hq p) in Hn; [by simplify_eq| |done]. apply (sh_known _ _ _ Hq). eauto.
Qed.

Lemma is_Some_insert {A} (m : gmap nat A) p x k : is_Some (m !! p) → is_Some (<[p := x]> m !! k) ↔ is_Some (m !! k).
Proof. intros Hp. rewrite lookup_insert_is_Some'. split; [intros [<-|]; done|by right]. Qed.

Lemma link_last_ok known q l p :
  s_holds known q l → p ∈ known → p ∉ l → ∃ q', link_last p q = Some q' ∧ s_holds known q' (l ++ [p]).
Proof.
  intros Hq Hp Hnew. pose proof (proj1 (sh_known _ _ _ Hq p) Hp) as Hsome. unfold link_last.
  assert (NoDup (l ++ [p])) as Hnd.
  { apply NoDup_app. split_and!; [apply Hq|set_solver|apply NoDup_singleton]. }
  rewrite (sh_tail _ _ _ Hq). destruct (last l) as [t|] eqn:Ht.
  - apply last_Some in Ht as [l' ->]. assert (t ≠ p) as Hne by set_solver.
    assert (sq_nodes q !! t = Some (mkSNode true None)) as Hnt.
    { rewrite (sh_in _ _ _ Hq (length l') t) by (by rewrite lookup_app_r, Nat.sub_diag).
      f_equal. f_equal. apply lookup_ge_None_2. rewrite length_app. simpl. lia. }
    rewrite lookup_insert_ne, Hnt by done. simpl. eexists. split; [done|]. split; simpl.
    + done.
    + rewrite (sh_head _ _ _ Hq). by destruct l'.
    + by rewrite last_snoc.
    + intros k. rewrite (sh_known _ _ _ Hq k), is_Some_insert; [by rewrite is_Some_insert|].
      apply is_Some_insert; [done|]. rewrite Hnt. eauto.
    + intros i k [Hk|[Hge [Hi <-]%list_lookup_singleton_Some]]%lookup_app_Some.
      * destruct (decide (k = t)) as [->|Hkt].
        -- rewrite lookup_insert_eq. f_equal. f_equal.
           apply (NoDup_lookup _ i (length l')) in Hk; [|apply Hq|by rewrite lookup_app_r, Nat.sub_diag]. subst i.
           rewrite lookup_app_r; rewrite length_app; simpl; [|lia]. by replace (S (length l') - (length l' + 1)) with 0 by lia.
        -- assert (k ≠ p) by (intros ->; by apply Hnew, (list_elem_of_lookup_2 _ _ _ Hk)).
           rewrite !lookup_insert_ne by done. rewrite (sh_in _ _ _ Hq i k Hk). f_equal. f_equal.
           assert (S i < length (l' ++ [t])).
           { pose proof (lookup_lt_Some _ _ _ Hk) as Hlt. rewrite length_app in *. simpl in *.
             assert (i ≠ length l'); [|lia]. intros ->. rewrite lookup_app_r, Nat.sub_diag in Hk by lia. by simplify_eq/=. }
           by rewrite (lookup_app_l (l' ++ [t])).
      * rewrite lookup_insert_ne, lookup_insert_eq by done. f_equal. f_equal. symmetry. apply lookup_ge_None_2.
        rewrite length_app. simpl. lia.
    + intros k Hk Hout. rewrite !lookup_insert_ne by set_solver. apply (sh_out _ _ _ Hq k Hk). set_solver.
  - apply last_None in Ht as ->. eexists. split; [done|]. split; simpl; [done..| | |].
    + intros k. by rewrite (sh_known _ _ _ Hq), is_Some_insert.
    + intros [|i] k; simpl; [intros [= <-]; by rewrite lookup_insert_eq|done].
    + intros k Hk Hout. rewrite lookup_insert_ne by set_solver. apply (sh_out _ _ _ Hq k Hk). set_solver.
Qed.

(** The element before position [i] *)
Definition before (l : list nat) (i : nat) : option nat := match i with O => None | S j => l !! j end.

Lemma NoDup_ne (l : list nat) i j a b : NoDup l → l !! i = Some a → l !! j = Some b → i ≠ j → a ≠ b.
Proof. intros Hnd Hi Hj Hne ->. by apply Hne, (NoDup_lookup l i j b). Qed.

Lemma before_Some l i b : before l i = Some b → ∃ j, i = S j ∧ l !! j = Some b.
Proof. destruct i as [|j]; [done|]. eauto. Qed.

Lemma delete_lookup_cases (l : list nat) i j k :
  delete i l !! j = Some k → (j < i ∧ l !! j = Some k) ∨ (i ≤ j ∧ l !! S j = Some k).
Proof.
  intros Hj. destruct (decide (j < i)).
  - left. by rewrite list_lookup_delete_lt in Hj.
  - right. rewrite list_lookup_delete_ge in Hj by lia. split; [lia|done].
Qed.

Lemma tail_after (l : list nat) i p :
  NoDup l → l !! i = Some p → (if decide (last l = Some p) then before l i else last l) = last (delete i l).
Proof.
  intros Hnd Hi. pose proof (lookup_lt_Some _ _ _ Hi). rewrite (last_delete l i p Hi), last_lookup.
  destruct (decide (S i = length l)) as [He|He].
  - rewrite <- He. simpl. by rewrite decide_True.
  - rewrite decide_False; [done|]. intros Hl. pose proof (NoDup_lookup l _ _ _ Hnd Hi Hl). lia.
Qed.

Lemma unlink_item_ok known q l i p :
  s_holds known q l → l !! i = Some p →
  ∃ q', unlink_item (before l i) p (mkSNode true (l !! S i)) q = Some q' ∧ s_holds known q' (delete i l).
Proof.
  intros Hq Hi. pose proof (sh_nodup _ _ _ Hq) as Hnd. pose proof (lookup_lt_Some _ _ _ Hi) as Hlt.
  assert (is_Some (sq_nodes q !! p)) as Hp by (rewrite (sh_in _ _ _ Hq i p Hi); eauto).
  assert (p ∈ l) as Hpl by (by eapply list_elem_of_lookup_2).
  assert (∀ k, k ∈ delete i l ↔ k ∈ l ∧ k ≠ p) as Hmem.
  { intros k. rewrite <- (filter_ne_lookup l p i Hnd Hi), list_elem_of_filter. naive_solver. }
  assert (NoDup (delete i l)) as Hnd' by (rewrite <- (filter_ne_lookup l p i Hnd Hi); by apply NoDup_filter).
  pose proof (tail_after l i p Hnd Hi) as Htail. rewrite <- (sh_tail _ _ _ Hq) in Htail.
  unfold unlink_item. destruct (before l i) as [b|] eqn:Eb.
  - apply before_Some in Eb as (j & -> & Hb). simpl in *. pose proof (sh_in _ _ _ Hq j b Hb) as Hnb.
    rewrite Hnb. simpl. eexists. split; [done|]. split; simpl.
    + done.
    + rewrite (sh_head _ _ _ Hq). destruct l; [done|]. by destruct j.
    + done.
    + intros k. rewrite (sh_known _ _ _ Hq k), is_Some_insert; [by rewrite is_Some_insert; [|eauto]|].
      by apply is_Some_insert; [eauto|].
    + intros m k [[Hlt' Hk]|[Hge Hk]]%delete_lookup_cases.
      * rewrite lookup_insert_ne by (eapply NoDup_ne; [exact Hnd|exact Hi|exact Hk|lia]).
        destruct (decide (m = j)) as [->|Hmj].
        -- simplify_eq. rewrite lookup_insert_eq, list_lookup_delete_ge by lia. done.
        -- rewrite lookup_insert_ne by (eapply NoDup_ne; [exact Hnd|exact Hb|exact Hk|lia]).
           rewrite (sh_in _ _ _ Hq m k Hk), list_lookup_delete_lt by lia. done.
      * rewrite !lookup_insert_ne by (eapply NoDup_ne; [exact Hnd|done|exact Hk|lia]).
        rewrite (sh_in _ _ _ Hq _ k Hk), list_lookup_delete_ge by lia. done.
    + intros k Hk Hout. destruct (decide (k = p)) as [->|Hkp]; [by rewrite lookup_insert_eq|].
      assert (k ∉ l) as Hkl by (intros ?; by apply Hout, Hmem).
      rewrite !lookup_insert_ne; [by apply (sh_out _ _ _ Hq)| |done].
      intros ->. by apply Hkl, (list_elem_of_lookup_2 _ _ _ Hb).
  - assert (i = 0) as -> by (destruct i; [done|]; apply lookup_ge_None in Eb; lia). simpl.
    eexists. split; [done|]. split; simpl.
    + done.
    + destruct l; [done|]. simpl. by destruct l.
    + done.
    + intros k. by rewrite (sh_known _ _ _ Hq k), is_Some_insert.
    + intros m k [[Hlt' Hk]|[Hge Hk]]%delete_lookup_cases; [lia|].
      rewrite lookup_insert_ne by (eapply NoDup_ne; [exact Hnd|exact Hi|exact Hk|lia]).
      rewrite (sh_in _ _ _ Hq _ k Hk), list_lookup_delete_ge by lia. done.
    + intros k Hk Hout. destruct (decide (k = p)) as [->|Hkp]; [by rewrite lookup_insert_eq|].
      rewrite lookup_insert_ne by done. apply (sh_out _ _ _ Hq k Hk). intros ?. by apply Hout, Hmem.
Qed.

Lemma unlink_loop_ok known q l fuel i p :
  s_holds known q l → length l - i < fuel → (∀ j, j < i → l !! j ≠ Some p) →
  ∃ q', unlink_loop fuel p (before l i) (l !! i) q = Some (bool_decide (p ∈ l), q') ∧
    s_holds known q' (filter (λ x, x ≠ p) l).
Proof.
  intros Hq. revert i. induction fuel as [|fuel IH]; intros i Hf Hno; [lia|]. cbn [unlink_loop].
  destruct (l !! i) as [k|] eqn:Hi.
  - rewrite (sh_in _ _ _ Hq i k Hi). cbn [mbind option_bind sn_next]. destruct (Nat.eqb_spec k p) as [->|Hkp].
    + destruct (unlink_item_ok known q l i p Hq Hi) as (q' & -> & Hq'). exists q'.
      rewrite bool_decide_true by (by eapply list_elem_of_lookup_2). split; [done|].
      by rewrite (filter_ne_lookup l p i (sh_nodup _ _ _ Hq) Hi).
    + pose proof (lookup_lt_Some _ _ _ Hi). destruct (IH (S i)) as (q' & E & Hq'); [lia| |].
      { intros j Hj. destruct (decide (j = i)) as [->|]; [congruence|]. apply Hno. lia. }
      simpl in E. rewrite Hi in E. eauto.
  - apply lookup_ge_None in Hi. assert (p ∉ l) as Hp.
    { intros [j Hj]%list_elem_of_lookup. apply (Hno j); [|done]. apply lookup_lt_Some in Hj. lia. }
    exists q. rewrite bool_decide_false by done. split; [done|]. by rewrite filter_ne_absent.
Qed.

Lemma unlink_ok known q l p :
  s_holds known q l →
  ∃ q', unlink p q = Some (bool_decide (p ∈ l), q') ∧ s_holds known q' (filter (λ x, x ≠ p) l).
Proof.
  intros Hq. unfold unlink. pose proof (s_holds_length known q l Hq).
  rewrite (sh_head _ _ _ Hq). replace (head l) with (l !! 0) by (by destruct l).
  apply (unlink_loop_ok known q l _ 0 p Hq); lia.
Qed.

Lemma unlink_head_ok known q l :
  s_holds known q l → ∃ q', unlink_head q = Some (head l, q') ∧ s_holds known q' (tail l).
Proof.
  intros Hq. unfold unlink_head. rewrite (sh_head _ _ _ Hq). destruct l as [|p l]; simpl; [by exists q|].
  rewrite (sh_in _ _ _ Hq 0 p) by done. simpl.
  destruct (unlink_item_ok known q (p :: l) 0 p Hq) as (q' & E & Hq'); [done|].
  unfold unlink_item in E. simpl in E, Hq'. injection E as <-. eexists. split; [done|].
  destruct Hq'. split; simpl in *; try done. rewrite (sh_tail _ _ _ Hq) in *. simpl in *.
  destruct l; simpl; done.
Qed.

Lemma appendStreamWake_ok known q l p :
  s_holds known q l → p ∈ known → p ∉ l → ∃ q', appendStreamWake p q = Some q' ∧ s_holds known q' (l ++ [p]).
Proof.
  intros Hq Hp Hnew. unfold appendStreamWake. rewrite (sh_out _ _ _ Hq p Hp Hnew). by apply link_last_ok.
Qed.

Lemma removeStreamWake_ok known q l p :
  s_holds known q l → p ∈ known → ∃ q', removeStreamWake p q = Some q' ∧ s_holds known q' (filter (λ x, x ≠ p) l).
Proof. intros Hq _. unfold removeStreamWake. destruct (unlink_ok known q l p Hq) as (q' & -> & ?). by exists q'. Qed.

#[export] Instance stream_wakes : QueueImpl SQueue := {|
  queue_append := appendStreamWake; queue_remove := removeStreamWake; queue_pop := popStreamWake;
  queue_holds := s_holds; append_ok := appendStreamWake_ok; remove_ok := removeStreamWake_ok;
  pop_ok := unlink_head_ok |}.

(** A connection is enqueued at most once, and the result says that it is the
    first. *)
Lemma enqueueDirtyConnection_spec known q l p :
  s_holds known q l → p ∈ known →
  ∃ q', enqueueDirtyConnection p q = Some (bool_decide (l = []), q') ∧
    s_holds known q' (if decide (p ∈ l) then l else l ++ [p]).
Proof.
  intros Hq Hp. unfold enqueueDirtyConnection. destruct (proj1 (sh_known _ _ _ Hq p) Hp) as [n Hn]. rewrite Hn. simpl.
  rewrite (s_holds_queued known q l p n Hq Hn). case_decide as Hin.
  - rewrite bool_decide_true by done. exists q. split; [|done]. rewrite bool_decide_false; [done|]. by intros ->; apply elem_of_nil in Hin.
  - rewrite bool_decide_false by done. destruct (link_last_ok known q l p Hq Hp Hin) as (q' & -> & Hq'). exists q'.
    split; [|done]. simpl. rewrite (sh_head _ _ _ Hq). do 2 f_equal. apply bool_decide_ext. by destruct l.
Qed.

Lemma enqueueDirtyConnection_ok known q l p :
  s_holds known q l → p ∈ known → p ∉ l →
  ∃ q', snd <$> enqueueDirtyConnection p q = Some q' ∧ s_holds known q' (l ++ [p]).
Proof.
  intros Hq Hp Hnew. destruct (enqueueDirtyConnection_spec known q l p Hq Hp) as (q' & -> & Hq').
  rewrite decide_False in Hq' by done. by exists q'.
Qed.

Lemma removeDirtyConnection_ok known q l p :
  s_holds known q l → p ∈ known → ∃ q', removeDirtyConnection p q = Some q' ∧ s_holds known q' (filter (λ x, x ≠ p) l).
Proof.
  intros Hq Hp. unfold removeDirtyConnection. destruct (proj1 (sh_known _ _ _ Hq p) Hp) as [n Hn]. rewrite Hn. simpl.
  rewrite (s_holds_queued known q l p n Hq Hn). case_bool_decide as Hin; simpl.
  - destruct (unlink_ok known q l p Hq) as (q' & -> & Hq'). simpl. rewrite bool_decide_true by done. by exists q'.
  - exists q. by rewrite filter_ne_absent.
Qed.

Definition dirty_connections : QueueImpl SQueue := {|
  queue_append p q := snd <$> enqueueDirtyConnection p q; queue_remove := removeDirtyConnection;
  queue_pop := popDirtyConnection; queue_holds := s_holds; append_ok := enqueueDirtyConnection_ok;
  remove_ok := removeDirtyConnection_ok; pop_ok := unlink_head_ok |}.

(** ** Doubly linked: operations that wait *)

Record WNode := mkWNode { waiting_queued : bool; waiting_prev : option nat; waiting_next : option nat }.

Record WQueue := mkWQueue { wq_nodes : gmap nat WNode; wq_head : option nat; wq_tail : option nat }.

Definition appendWaitingOperation (p : nat) (q : WQueue) : option WQueue :=
  n ← wq_nodes q !! p;
  if waiting_queued n || bool_decide (is_Some (waiting_prev n)) || bool_decide (is_Some (waiting_next n)) then None
  else
    let nodes := <[p := mkWNode true (wq_tail q) (waiting_next n)]> (wq_nodes q) in
    match wq_tail q with
    | Some tail =>
        t ← nodes !! tail;
        Some (mkWQueue (<[tail := mkWNode (waiting_queued t) (waiting_prev t) (Some p)]> nodes) (wq_head q) (Some p))
    | None => Some (mkWQueue nodes (Some p) (Some p))
    end.

(** The two branches of [removeWaitingOperation], on the links [n] of the operation *)
Definition unlink_previous (p : nat) (n : WNode) (q : WQueue) : option WQueue :=
  match waiting_prev n with
  | Some previous =>
      b ← wq_nodes q !! previous;
      Some (mkWQueue (<[previous := mkWNode (waiting_queued b) (waiting_prev b) (waiting_next n)]> (wq_nodes q))
              (wq_head q) (wq_tail q))
  | None =>
      if decide (wq_head q = Some p) then Some (mkWQueue (wq_nodes q) (waiting_next n) (wq_tail q)) else None
  end.

Definition unlink_next (p : nat) (n : WNode) (q : WQueue) : option WQueue :=
  match waiting_next n with
  | Some next =>
      b ← wq_nodes q !! next;
      Some (mkWQueue (<[next := mkWNode (waiting_queued b) (waiting_prev n) (waiting_next b)]> (wq_nodes q))
              (wq_head q) (wq_tail q))
  | None =>
      if decide (wq_tail q = Some p) then Some (mkWQueue (wq_nodes q) (wq_head q) (waiting_prev n)) else None
  end.

Definition removeWaitingOperation (p : nat) (q : WQueue) : option (bool * WQueue) :=
  n ← wq_nodes q !! p;
  if negb (waiting_queued n) then Some (false, q)
  else
    q1 ← unlink_previous p n q;
    q2 ← unlink_next p n q1;
    Some (true, mkWQueue (<[p := mkWNode false None None]> (wq_nodes q2)) (wq_head q2) (wq_tail q2)).

Definition popWaitingOperation (q : WQueue) : option (option nat * WQueue) :=
  match wq_head q with
  | None => Some (None, q)
  | Some p => '(removed, q') ← removeWaitingOperation p q; if removed : bool then Some (Some p, q') else None
  end.

(** *** The list *)

Record w_holds (known : gset nat) (q : WQueue) (l : list nat) : Prop := {
  wh_nodup : NoDup l;
  wh_head : wq_head q = head l;
  wh_tail : wq_tail q = last l;
  wh_known p : p ∈ known ↔ is_Some (wq_nodes q !! p);
  wh_in i p : l !! i = Some p → wq_nodes q !! p = Some (mkWNode true (before l i) (l !! S i));
  wh_out p : p ∈ known → p ∉ l → wq_nodes q !! p = Some (mkWNode false None None) }.

Lemma before_app_l (l : list nat) k i : i ≤ length l → before (l ++ k) i = before l i.
Proof. destruct i as [|i]; simpl; [done|]. intros. by rewrite lookup_app_l by lia. Qed.

Lemma last_before (l : list nat) : last l = before l (length l).
Proof. by rewrite last_lookup; destruct l. Qed.

Lemma appendWaitingOperation_ok known q l p :
  w_holds known q l → p ∈ known → p ∉ l → ∃ q', appendWaitingOperation p q = Some q' ∧ w_holds known q' (l ++ [p]).
Proof.
  intros Hq Hp Hnew. unfold appendWaitingOperation. rewrite (wh_out _ _ _ Hq p Hp Hnew). simpl.
  pose proof (proj1 (wh_known _ _ _ Hq p) Hp) as Hsome.
  assert (NoDup (l ++ [p])) as Hnd.
  { apply NoDup_app. split_and!; [apply Hq|set_solver|apply NoDup_singleton]. }
  assert (∀ k i, l !! i = Some k → k ≠ p) as Hkp by (intros k i Hk ->; by apply Hnew, (list_elem_of_lookup_2 _ _ _ Hk)).
  assert (mkWNode true (wq_tail q) None = mkWNode true (before (l ++ [p]) (length l)) ((l ++ [p]) !! S (length l))) as Hnode.
  { rewrite before_app_l, <- last_before, (wh_tail _ _ _ Hq) by lia. f_equal. symmetry. apply lookup_ge_None_2.
    rewrite length_app. simpl. lia. }
  rewrite Hnode. rewrite (wh_tail _ _ _ Hq). destruct (last l) as [t|] eqn:Ht.
  - rewrite last_lookup in Ht. assert (t ≠ p) as Hne by (by eapply Hkp). pose proof (lookup_lt_Some _ _ _ Ht) as Hlt.
    pose proof (wh_in _ _ _ Hq _ t Ht) as Hnt. rewrite lookup_insert_ne, Hnt by done. simpl.
    eexists. split; [done|]. split; simpl; [done|rewrite (wh_head _ _ _ Hq); by destruct l|by rewrite last_snoc| | |].
    + intros k. rewrite (wh_known _ _ _ Hq k), is_Some_insert; [by rewrite is_Some_insert|].
      apply is_Some_insert; [done|]. rewrite Hnt. eauto.
    + intros i k [Hk|[Hge [Hi <-]%list_lookup_singleton_Some]]%lookup_app_Some.
      * pose proof (Hkp k i Hk). pose proof (lookup_lt_Some _ _ _ Hk). destruct (decide (i = pred (length l))) as [->|Hi].
        -- simplify_eq. rewrite lookup_insert_eq, before_app_l by lia. f_equal. f_equal.
           rewrite lookup_app_r by lia. by replace (S (pred (length l)) - length l) with 0 by lia.
        -- rewrite !lookup_insert_ne by (done || by eapply NoDup_ne; [apply Hq|..]).
           rewrite (wh_in _ _ _ Hq i k Hk), before_app_l, lookup_app_l by lia. done.
      * rewrite lookup_insert_ne, lookup_insert_eq by done. by replace i with (length l) by lia.
    + intros k Hk Hout. apply not_elem_of_app in Hout as [Hout Hkne%not_elem_of_cons]. destruct Hkne as [Hkne _].
      rewrite !lookup_insert_ne; [by apply (wh_out _ _ _ Hq)|done|].
      intros ->. by apply Hout, (list_elem_of_lookup_2 _ _ _ Ht).
  - apply last_None in Ht as ->. eexists. split; [done|]. split; simpl; [done..| | |].
    + intros k. by rewrite (wh_known _ _ _ Hq), is_Some_insert.
    + intros [|i] k; simpl; [intros [= <-]; by rewrite lookup_insert_eq|done].
    + intros k Hk Hout. rewrite lookup_insert_ne by set_solver. apply (wh_out _ _ _ Hq k Hk). set_solver.
Qed.

(** The links while the operation at [i] is being taken out: [f] is what has become
    of the node at each position. *)
Record unlinking (known : gset nat) (l : list nat) (f : nat → WNode) (q : WQueue) : Prop := {
  un_known p : p ∈ known ↔ is_Some (wq_nodes q !! p);
  un_in m k : l !! m = Some k → wq_nodes q !! k = Some (f m);
  un_out p : p ∈ known → p ∉ l → wq_nodes q !! p = Some (mkWNode false None None) }.

(** Changing the node at one position *)
Lemma unlinking_insert known l f q b k n head tail :
  NoDup l → unlinking known l f q → l !! b = Some k →
  unlinking known l (λ m, if decide (m = b) then n else f m) (mkWQueue (<[k := n]> (wq_nodes q)) head tail).
Proof.
  intros Hnd Hq Hb. split; simpl.
  - intros p. rewrite (un_known _ _ _ _ Hq p), is_Some_insert; [done|]. rewrite (un_in _ _ _ _ Hq b k Hb). eauto.
  - intros m k' Hm. case_decide as Hmb; [subst; simplify_eq; by rewrite lookup_insert_eq|].
    rewrite lookup_insert_ne by (by eapply NoDup_ne). by apply (un_in _ _ _ _ Hq).
  - intros p Hp Hout. rewrite lookup_insert_ne; [by apply (un_out _ _ _ _ Hq)|].
    intros ->. by apply Hout, (list_elem_of_lookup_2 _ _ _ Hb).
Qed.

Definition node_at (l : list nat) (m : nat) : WNode := mkWNode true (before l m) (l !! S m).

Definition previous_unlinked (l : list nat) (i m : nat) : WNode :=
  mkWNode true (before l m) (if decide (S m = i) then l !! S i else l !! S m).

Definition both_unlinked (l : list nat) (i m : nat) : WNode :=
  mkWNode true (if decide (m = S i) then before l i else before l m) (if decide (S m = i) then l !! S i else l !! S m).

Lemma unlinking_ext known l f g q :
  (∀ m k, l !! m = Some k → f m = g m) → unlinking known l f q → unlinking known l g q.
Proof.
  intros Hfg [H1 H2 H3]. split; [done| |done]. intros m k Hm. rewrite <- (Hfg m k Hm). by apply H2.
Qed.

Lemma unlink_previous_ok known q l i p :
  w_holds known q l → l !! i = Some p →
  ∃ q1, unlink_previous p (node_at l i) q = Some q1 ∧ unlinking known l (previous_unlinked l i) q1 ∧
    wq_head q1 = head (delete i l) ∧ wq_tail q1 = last l.
Proof.
  intros Hq Hi. pose proof (wh_nodup _ _ _ Hq) as Hnd.
  assert (unlinking known l (node_at l) q) as Hun by (destruct Hq; by split).
  unfold unlink_previous. simpl. destruct (before l i) as [b|] eqn:Eb.
  - apply before_Some in Eb as (j & -> & Hj). rewrite (un_in _ _ _ _ Hun j b Hj). simpl.
    eexists. split; [done|]. split; [|split; simpl].
    + eapply unlinking_ext; [|by apply (unlinking_insert known l (node_at l) q j b)].
      intros m k Hm. simpl. unfold previous_unlinked, node_at. repeat case_decide; subst; simplify_eq; done.
    + rewrite (wh_head _ _ _ Hq). destruct l; [done|]. by destruct j.
    + apply Hq.
  - assert (i = 0) as -> by (destruct i; [done|]; apply lookup_ge_None in Eb; apply lookup_lt_Some in Hi; lia).
    rewrite decide_True by (rewrite (wh_head _ _ _ Hq); by destruct l).
    eexists. split; [done|]. split; [|split; simpl; [|apply Hq]].
    + destruct Hun as [H1 H2 H3]. split; [done| |done]. intros m k Hm. simpl. by rewrite (H2 m k Hm).
    + destruct l as [|? []]; done.
Qed.

Lemma unlink_next_ok known q1 l i p :
  NoDup l → unlinking known l (previous_unlinked l i) q1 → wq_tail q1 = last l → l !! i = Some p →
  ∃ q2, unlink_next p (node_at l i) q1 = Some q2 ∧ unlinking known l (both_unlinked l i) q2 ∧
    wq_head q2 = wq_head q1 ∧ wq_tail q2 = last (delete i l).
Proof.
  intros Hnd Hun Ht Hi. pose proof (tail_after l i p Hnd Hi) as Htail. unfold unlink_next. simpl.
  destruct (l !! S i) as [x|] eqn:Ex.
  - rewrite (un_in _ _ _ _ Hun (S i) x Ex). simpl. eexists. split; [done|]. split; [|split; [done|simpl]].
    + eapply unlinking_ext; [|by apply (unlinking_insert known l (previous_unlinked l i) q1 (S i) x)].
      intros m k Hm. simpl. unfold both_unlinked, previous_unlinked. repeat case_decide; subst; simplify_eq; try done; lia.
    + rewrite Ht, <- Htail. rewrite decide_False; [done|]. intros Hl. rewrite last_lookup in Hl.
      pose proof (NoDup_lookup l _ _ _ Hnd Hi Hl). apply lookup_lt_Some in Ex. lia.
  - apply lookup_ge_None in Ex. pose proof (lookup_lt_Some _ _ _ Hi).
    assert (last l = Some p) as Hl by (rewrite last_lookup; by replace (pred (length l)) with i by lia).
    rewrite decide_True in Htail by done. rewrite Ht, decide_True by done.
    eexists. split; [done|]. split; [|by split].
    eapply unlinking_ext; [|by destruct Hun as [H1 H2 H3]; split; [exact H1|exact H2|exact H3]].
    intros m k Hm. apply lookup_lt_Some in Hm. unfold both_unlinked, previous_unlinked. repeat case_decide; try done; lia.
Qed.

Lemma removeWaitingOperation_spec known q l i p :
  w_holds known q l → l !! i = Some p →
  ∃ q', removeWaitingOperation p q = Some (true, q') ∧ w_holds known q' (delete i l).
Proof.
  intros Hq Hi. pose proof (wh_nodup _ _ _ Hq) as Hnd. unfold removeWaitingOperation.
  rewrite (wh_in _ _ _ Hq i p Hi). simpl. fold (node_at l i).
  destruct (unlink_previous_ok known q l i p Hq Hi) as (q1 & -> & Hun1 & Hh1 & Ht1). simpl.
  destruct (unlink_next_ok known q1 l i p Hnd Hun1 Ht1 Hi) as (q2 & -> & Hun2 & Hh2 & Ht2). simpl.
  eexists. split; [done|]. split; simpl.
  - rewrite <- (filter_ne_lookup l p i Hnd Hi). by apply NoDup_filter.
  - by rewrite Hh2, Hh1.
  - done.
  - intros k. rewrite (un_known _ _ _ _ Hun2 k), is_Some_insert; [done|]. rewrite (un_in _ _ _ _ Hun2 i p Hi). eauto.
  - intros m k [[Hlt Hk]|[Hge Hk]]%delete_lookup_cases;
      rewrite lookup_insert_ne by (eapply NoDup_ne; [exact Hnd|exact Hi|exact Hk|lia]);
      rewrite (un_in _ _ _ _ Hun2 _ k Hk); unfold both_unlinked; f_equal; f_equal.
    + rewrite decide_False by lia. destruct m as [|m]; simpl; [done|]. by rewrite list_lookup_delete_lt by lia.
    + case_decide; [subst; by rewrite list_lookup_delete_ge by lia|]. by rewrite list_lookup_delete_lt by lia.
    + case_decide as Hm.
      * assert (m = i) as -> by lia. destruct i as [|i]; simpl; [done|]. by rewrite list_lookup_delete_lt by lia.
      * destruct m as [|m]; [lia|]. simpl. by rewrite list_lookup_delete_ge by lia.
    + rewrite decide_False by lia. by rewrite list_lookup_delete_ge by lia.
  - intros k Hk Hout. destruct (decide (k = p)) as [->|Hkp]; [by rewrite lookup_insert_eq|].
    rewrite lookup_insert_ne by done. apply (un_out _ _ _ _ Hun2 k Hk). intros Hin. apply Hout.
    rewrite <- (filter_ne_lookup l p i Hnd Hi). by apply list_elem_of_filter.
Qed.

Lemma removeWaitingOperation_ok known q l p :
  w_holds known q l → p ∈ known →
  ∃ q', removeWaitingOperation p q = Some (bool_decide (p ∈ l), q') ∧ w_holds known q' (filter (λ x, x ≠ p) l).
Proof.
  intros Hq Hp. destruct (decide (p ∈ l)) as [Hin|Hout].
  - rewrite bool_decide_true by done. apply list_elem_of_lookup in Hin as [i Hi].
    rewrite (filter_ne_lookup l p i (wh_nodup _ _ _ Hq) Hi). by apply removeWaitingOperation_spec.
  - rewrite bool_decide_false by done. exists q. unfold removeWaitingOperation.
    rewrite (wh_out _ _ _ Hq p Hp Hout). split; [done|]. by rewrite filter_ne_absent.
Qed.

Lemma popWaitingOperation_ok known q l :
  w_holds known q l → ∃ q', popWaitingOperation q = Some (head l, q') ∧ w_holds known q' (tail l).
Proof.
  intros Hq. unfold popWaitingOperation. rewrite (wh_head _ _ _ Hq). destruct l as [|p l]; simpl; [by exists q|].
  destruct (removeWaitingOperation_spec known q (p :: l) 0 p Hq) as (q' & -> & Hq'); [done|]. by exists q'.
Qed.

Lemma removeWaitingOperation_queue known q l p :
  w_holds known q l → p ∈ known →
  ∃ q', snd <$> removeWaitingOperation p q = Some q' ∧ w_holds known q' (filter (λ x, x ≠ p) l).
Proof.
  intros Hq Hp. destruct (removeWaitingOperation_ok known q l p Hq Hp) as (q' & -> & Hq'). by exists q'.
Qed.

#[export] Instance waiting_operations : QueueImpl WQueue := {|
  queue_append := appendWaitingOperation; queue_remove p q := snd <$> removeWaitingOperation p q;
  queue_pop := popWaitingOperation; queue_holds := w_holds; append_ok := appendWaitingOperation_ok;
  remove_ok := removeWaitingOperation_queue; pop_ok := popWaitingOperation_ok |}.

(** ** All three are lists *)

Definition w_empty (known : gset nat) : WQueue := mkWQueue (gset_to_gmap (mkWNode false None None) known) None None.
Definition s_empty (known : gset nat) : SQueue := mkSQueue (gset_to_gmap (mkSNode false None) known) None None.

Lemma w_empty_holds known : w_holds known (w_empty known) [].
Proof.
  split; simpl; try done; [constructor| |].
  - intros p. by rewrite <- elem_of_dom, dom_gset_to_gmap.
  - intros p Hp _. by apply lookup_gset_to_gmap_Some.
Qed.

Lemma s_empty_holds known : s_holds known (s_empty known) [].
Proof.
  split; simpl; try done; [constructor| |].
  - intros p. by rewrite <- elem_of_dom, dom_gset_to_gmap.
  - intros p Hp _. by apply lookup_gset_to_gmap_Some.
Qed.

(** C31. The intrusive queues of channel and server implement lists: for any sequence of
    appends, removals (from the middle as well, and of what is not queued) and pops
    that appends nothing twice, no assertion fails, no pointer is invalid, every
    search ends, and the queue gives the elements in the order of the list, where
    what a pop returns is compared, not the [bool] of the other operations; the same
    for waiting operations, streams to wake and dirty connections. *)
Theorem queues_refine_lists known ops rs l :
  results (list_op known) [] ops = Some (rs, l) →
  (∃ q, results (queue_op (QI := waiting_operations)) (w_empty known) ops = Some (rs, q) ∧ w_holds known q l) ∧
  (∃ q, results (queue_op (QI := stream_wakes)) (s_empty known) ops = Some (rs, q) ∧ s_holds known q l) ∧
  (∃ q, results (queue_op (QI := dirty_connections)) (s_empty known) ops = Some (rs, q) ∧ s_holds known q l).
Proof.
  intros Hops. split_and!.
  - apply (results_refine (QI := waiting_operations) known ops _ [] rs l); [apply w_empty_holds|done].
  - apply (results_refine (QI := stream_wakes) known ops _ [] rs l); [apply s_empty_holds|done].
  - apply (results_refine (QI := dirty_connections) known ops _ [] rs l); [apply s_empty_holds|done].
Qed.

Definition example_queue_ops : list QueueOp :=
  [QAppend 1; QAppend 2; QAppend 3; QRemove 2; QRemove 2; QAppend 2; QPop; QPop; QRemove 2; QPop].

Lemma queues_refine_lists_witness :
  ∃ q, results (queue_op (QI := waiting_operations)) (w_empty {[1; 2; 3]}) example_queue_ops =
    Some ([QAppended; QAppended; QAppended; QRemoved; QRemoved; QAppended; QPopped (Some 1); QPopped (Some 3);
           QRemoved; QPopped None], q) ∧ wq_head q = None.
Proof.
  destruct (queues_refine_lists {[1; 2; 3]} example_queue_ops
    [QAppended; QAppended; QAppended; QRemoved; QRemoved; QAppended; QPopped (Some 1); QPopped (Some 3);
     QRemoved; QPopped None] []) as [(q & E & Hq) _]; [vm_compute; reflexivity|].
  exists q. split; [exact E|]. apply (wh_head _ _ _ Hq).
Defined.
