(* ===== verification/HeaderText.v ===== *)
(** * Text in headers

    How values that are not text travel in HTTP/2 headers: status messages with
    escapes ([src/message.zig]) and binary metadata in base64 ([src/metadata.zig]). *)

From S2P Require Import Prelude Octets Metadata.

Local Open Scope Z_scope.

(** ** Status messages *)

Definition isSafe (byte : octet) : bool :=
  (octet_value byte >=? 32) && (octet_value byte <? 127) && negb (bool_decide (byte = "%"%char)).

Definition hex (value : Z) : octet := truncate_u8 (if value <? 10 then 48 + value else 65 + value - 10).

Definition unhex (byte : octet) : option Z :=
  let value := octet_value byte in
  if (48 <=? value) && (value <=? 57) then Some (value - 48)
  else if (97 <=? value) && (value <=? 102) then Some (value - 97 + 10)
  else if (65 <=? value) && (value <=? 70) then Some (value - 65 + 10)
  else None.

(** What the loop of [encode] appends for a byte *)
Definition encode_byte (byte : octet) : octets :=
  if isSafe byte then [byte]
  else ["%"%char; hex (Z.shiftr (octet_value byte) 4); hex (Z.land (octet_value byte) 15)].

(** [None] when an allocation fails *)
Definition encode (memory : bool) (message : octets) : option octets :=
  if memory then Some (concat (map encode_byte message)) else None.

Fixpoint decode_loop (message : octets) : octets :=
  match message with
  | [] => []
  | byte :: rest =>
      let verbatim := byte :: decode_loop rest in
      if bool_decide (byte = "%"%char) then
        match rest with
        | h :: l :: rest =>
            match unhex h, unhex l with
            | Some high, Some low => truncate_u8 (Z.lor (Z.shiftl high 4) low) :: decode_loop rest
            | _, _ => verbatim
            end
        | _ => verbatim
        end
      else verbatim
  end.

Definition decode (memory : bool) (message : octets) : option octets :=
  if memory then Some (decode_loop message) else None.

(** ** Base64

    [std.base64.standard] and [standard_no_pad] of the Zig standard library: RFC 4648
    with and without padding.  A decoder refuses other characters, a wrong length, and
    bits that are not zero after the last octet. *)

Definition base64_char (v : Z) : octet :=
  truncate_u8 (if v <? 26 then 65 + v else if v <? 52 then 97 + (v - 26)
               else if v <? 62 then 48 + (v - 52) else if v =? 62 then 43 else 47).

Definition base64_value (c : octet) : option Z :=
  let v := octet_value c in
  if (65 <=? v) && (v <=? 90) then Some (v - 65)
  else if (97 <=? v) && (v <=? 122) then Some (v - 97 + 26)
  else if (48 <=? v) && (v <=? 57) then Some (v - 48 + 52)
  else if v =? 43 then Some 62
  else if v =? 47 then Some 63
  else None.

Definition pad : octet := "="%char.

(** The characters of three octets, from the high bits down *)
Fixpoint base64_encode (bytes : octets) : octets :=
  match bytes with
  | a :: b :: c :: rest =>
      let n := (octet_value a * 256 + octet_value b) * 256 + octet_value c in
      [base64_char (n / 262144); base64_char (n / 4096 mod 64); base64_char (n / 64 mod 64);
       base64_char (n mod 64)] ++ base64_encode rest
  | [a; b] =>
      let n := octet_value a * 256 + octet_value b in
      [base64_char (n / 1024); base64_char (n / 16 mod 64); base64_char (n mod 16 * 4); pad]
  | [a] =>
      let n := octet_value a in
      [base64_char (n / 4); base64_char (n mod 4 * 16); pad; pad]
  | [] => []
  end.

(** Without padding *)
Fixpoint base64_decode_no_pad (source : octets) : option octets :=
  match source with
  | c0 :: c1 :: c2 :: c3 :: rest =>
      v0 ← base64_value c0; v1 ← base64_value c1; v2 ← base64_value c2; v3 ← base64_value c3;
      out ← base64_decode_no_pad rest;
      Some ([truncate_u8 (v0 * 4 + v1 / 16); truncate_u8 (v1 * 16 + v2 / 4); truncate_u8 (v2 * 64 + v3)] ++ out)
  | [c0; c1; c2] =>
      v0 ← base64_value c0; v1 ← base64_value c1; v2 ← base64_value c2;
      if v2 mod 4 =? 0 then Some [truncate_u8 (v0 * 4 + v1 / 16); truncate_u8 (v1 * 16 + v2 / 4)] else None
  | [c0; c1] =>
      v0 ← base64_value c0; v1 ← base64_value c1;
      if v1 mod 16 =? 0 then Some [truncate_u8 (v0 * 4 + v1 / 16)] else None
  | [_] => None
  | [] => Some []
  end.

(** [std.mem.endsWith(u8, s, "=")] *)
Definition ends_with_pad (s : octets) : bool := bool_decide (last s = Some pad).

Definition base64_decode (source : octets) : option octets :=
  if negb (olen source mod 4 =? 0) then None
  else
    let once := if ends_with_pad source then take (length source - 1) source else source in
    let twice := if ends_with_pad source && ends_with_pad once then take (length once - 1) once else once in
    base64_decode_no_pad twice.

(** ** Metadata on the wire *)

Definition to_octets : string → octets := String.list_ascii_of_string.
Definition of_octets : octets → string := String.string_of_list_ascii.

Definition encodeOutboundValue (key value : string) : string :=
  if negb (isBinaryKey key) then value else of_octets (base64_encode (to_octets value)).

Inductive IncomingResult := appended | discarded.

Inductive IncomingError := IE_InvalidMetadataKey | IE_InvalidBase64 | IE_OutOfMemory.

(** [std.mem.splitScalar(u8, value, ',')] *)
Fixpoint split_commas (value : octets) : list octets :=
  match value with
  | [] => [[]]
  | byte :: rest =>
      if bool_decide (byte = ","%char) then [] :: split_commas rest
      else match split_commas rest with
           | first :: more => (byte :: first) :: more
           | [] => [[byte]]
           end
  end.

(** Whether [calcSizeForSlice] returns a size *)
Definition size_ok (encoded : octets) : bool :=
  if ends_with_pad encoded then olen encoded mod 4 =? 0 else negb (olen encoded mod 4 =? 1).

Definition decode_value (encoded : octets) : option octets :=
  if ends_with_pad encoded then base64_decode encoded else base64_decode_no_pad encoded.

(** The loop that decodes the values; [memory] is whether the allocations for each
    succeed. *)
Fixpoint decode_values (memory : list bool) (values : list octets) : IncomingError + list octets :=
  match values with
  | [] => inr []
  | encoded :: values =>
      if negb (size_ok encoded) then inl IE_InvalidBase64
      else if negb (default true (head memory)) then inl IE_OutOfMemory
      else match decode_value encoded with
           | None => inl IE_InvalidBase64
           | Some decoded =>
               match decode_values (tail memory) values with
               | inl e => inl e
               | inr more => inr (decoded :: more)
               end
           end
  end.

(** The loop that appends them *)
Fixpoint append_all (memory : list bool) (es : entries) (key : string) (decoded : list octets) : bool * entries :=
  match decoded with
  | [] => (true, es)
  | value :: decoded =>
      if default true (head memory)
      then append_all (tail memory) (es ++ [(key, of_octets value)]) key decoded
      else (false, es)
  end.

(** [memory] is whether the allocations for the decoded values and for the entries
    succeed. *)
Definition appendDecoded (memory : list bool * list bool) (es : entries) (key value : string)
  : (IncomingError + IncomingResult) * entries :=
  if negb (isApplicationKey key) then (inl IE_InvalidMetadataKey, es)
  else if negb (isBinaryKey key) then
    if negb (isValidAsciiValue value) then (inr discarded, es)
    else if default true (head memory.2) then (inr appended, es ++ [(key, value)])
    else (inl IE_OutOfMemory, es)
  else
    match decode_values memory.1 (split_commas (to_octets value)) with
    | inl e => (inl e, es)
    | inr decoded =>
        let original_len := length es in
        match append_all memory.2 es key decoded with
        | (true, es) => (inr appended, es)
        | (false, es) => (inl IE_OutOfMemory, take original_len es)
        end
    end.

(** ** Round trips *)

Lemma encode_byte_decodes b rest : decode_loop (encode_byte b ++ rest) = b :: decode_loop rest.
Proof.
  unfold encode_byte. destruct (isSafe b) eqn:E.
  - simpl. rewrite bool_decide_false; [done|]. intros ->. done.
  - assert (H : match unhex (hex (octet_value b ≫ 4)), unhex (hex (Z.land (octet_value b) 15)) with
      | Some high, Some low => Ascii.eqb (truncate_u8 (Z.lor (Z.shiftl high 4) low)) b
      | _, _ => false end = true).
    { revert b E. intros b _. revert b. apply octet_forall. vm_compute. reflexivity. }
    cbn [app decode_loop]. rewrite bool_decide_true by done.
    destruct (unhex (hex (octet_value b ≫ 4))) as [high|]; [|done].
    destruct (unhex (hex (Z.land (octet_value b) 15))) as [low|]; [|done].
    apply Ascii.eqb_eq in H. by rewrite H.
Qed.

Lemma decode_encode message : decode_loop (concat (map encode_byte message)) = message.
Proof.
  induction message as [|b message IH]; [done|]. cbn [map concat]. by rewrite encode_byte_decodes, IH.
Qed.

Lemma encode_byte_visible b :
  forallb (λ c, (32 <=? octet_value c) && (octet_value c <? 127)) (encode_byte b) = true.
Proof. revert b. apply octet_forall. vm_compute. reflexivity. Qed.

Lemma base64_char_value v : 0 ≤ v < 64 → base64_value (base64_char v) = Some v.
Proof.
  intros H. assert (Hv : forallb (λ n, bool_decide (base64_value (base64_char (Z.of_nat n)) = Some (Z.of_nat n)))
    (seq 0 64) = true) by (vm_compute; reflexivity).
  rewrite forallb_forall in Hv. specialize (Hv (Z.to_nat v)). rewrite Z2Nat.id in Hv by lia.
  eapply bool_decide_eq_true_1, Hv, in_seq. lia.
Qed.

(** The characters of the code are neither commas nor padding. *)
Lemma base64_char_plain v : 0 ≤ v < 64 → base64_char v ≠ ","%char ∧ base64_char v ≠ pad.
Proof.
  intros H. pose proof (base64_char_value v H) as Hv. split; intros E; rewrite E in Hv; discriminate Hv.
Qed.

Lemma octets_of_triple a b c :
  let n := (octet_value a * 256 + octet_value b) * 256 + octet_value c in
  0 ≤ n / 262144 < 64 ∧ 0 ≤ n / 4096 mod 64 < 64 ∧ 0 ≤ n / 64 mod 64 < 64 ∧ 0 ≤ n mod 64 < 64 ∧
  truncate_u8 (n / 262144 * 4 + n / 4096 mod 64 / 16) = a ∧
  truncate_u8 (n / 4096 mod 64 * 16 + n / 64 mod 64 / 4) = b ∧
  truncate_u8 (n / 64 mod 64 * 64 + n mod 64) = c.
Proof.
  pose proof (octet_value_bound a) as Ha. pose proof (octet_value_bound b) as Hb.
  pose proof (octet_value_bound c) as Hc. cbv zeta.
  split_and!; try apply truncate_u8_eq; Z.to_euclidean_division_equations; lia.
Qed.

Lemma octets_of_pair a b :
  let n := octet_value a * 256 + octet_value b in
  0 ≤ n / 1024 < 64 ∧ 0 ≤ n / 16 mod 64 < 64 ∧ 0 ≤ n mod 16 * 4 < 64 ∧ n mod 16 * 4 mod 4 = 0 ∧
  truncate_u8 (n / 1024 * 4 + n / 16 mod 64 / 16) = a ∧
  truncate_u8 (n / 16 mod 64 * 16 + n mod 16 * 4 / 4) = b.
Proof.
  pose proof (octet_value_bound a) as Ha. pose proof (octet_value_bound b) as Hb. cbv zeta.
  split_and!; try apply truncate_u8_eq; Z.to_euclidean_division_equations; lia.
Qed.

Lemma octets_of_one a :
  let n := octet_value a in
  0 ≤ n / 4 < 64 ∧ 0 ≤ n mod 4 * 16 < 64 ∧ n mod 4 * 16 mod 16 = 0 ∧
  truncate_u8 (n / 4 * 4 + n mod 4 * 16 / 16) = a.
Proof.
  pose proof (octet_value_bound a) as Ha. cbv zeta.
  split_and!; try apply truncate_u8_eq; Z.to_euclidean_division_equations; lia.
Qed.

(** What an encoded value looks like: the code of the octets, and padding. *)
Record padded (bytes enc : octets) (k : nat) : Prop := {
  pd_encode : base64_encode bytes = enc ++ replicate k pad;
  pd_pad : (k ≤ 2)%nat;
  pd_last : last enc ≠ Some pad;
  pd_decode : base64_decode_no_pad enc = Some bytes;
  pd_length : (olen enc + Z.of_nat k) mod 4 = 0;
  pd_plain : ","%char ∉ enc }.

Lemma plain_cons v enc : 0 ≤ v < 64 → ","%char ∉ enc → ","%char ∉ base64_char v :: enc.
Proof.
  intros Hv He [E|E]%elem_of_cons; [|done]. destruct (base64_char_plain v Hv). congruence.
Qed.

Lemma base64_padded bytes : ∃ enc k, padded bytes enc k.
Proof.
  induction bytes as [bytes IH] using (induction_ltof1 _ length). unfold ltof in IH.
  destruct bytes as [|a [|b [|c rest]]].
  - exists [], 0%nat. split; [done|lia|done|done|done|by apply not_elem_of_nil].
  - destruct (octets_of_one a) as (H1 & H2 & H3 & H4). set (n := octet_value a) in *.
    exists [base64_char (n / 4); base64_char (n mod 4 * 16)], 2%nat.
    split; [done|lia| | |done|].
    + simpl. intros [= E]. by apply (base64_char_plain (n mod 4 * 16)).
    + cbn [base64_decode_no_pad]. rewrite !base64_char_value by done. cbn [mbind option_bind]. by rewrite H3, H4.
    + repeat (apply plain_cons; [done|]). by apply not_elem_of_nil.
  - destruct (octets_of_pair a b) as (H1 & H2 & H3 & H4 & H5 & H6). set (n := octet_value a * 256 + octet_value b) in *.
    exists [base64_char (n / 1024); base64_char (n / 16 mod 64); base64_char (n mod 16 * 4)], 1%nat.
    split; [done|lia| | |done|].
    + simpl. intros [= E]. by apply (base64_char_plain (n mod 16 * 4)).
    + cbn [base64_decode_no_pad]. rewrite !base64_char_value by done. cbn [mbind option_bind].
      by rewrite H4, H5, H6.
    + repeat (apply plain_cons; [done|]). by apply not_elem_of_nil.
  - destruct (IH rest) as (enc & k & [E1 E2 E3 E4 E5 E6]); [simpl; lia|].
    destruct (octets_of_triple a b c) as (H1 & H2 & H3 & H4 & H5 & H6 & H7).
    set (n := (octet_value a * 256 + octet_value b) * 256 + octet_value c) in *.
    exists ([base64_char (n / 262144); base64_char (n / 4096 mod 64); base64_char (n / 64 mod 64);
             base64_char (n mod 64)] ++ enc), k.
    split; [cbn [base64_encode]; fold n; by rewrite E1, app_assoc|done| | | |].
    + destruct enc as [|x enc]; [|by rewrite last_app, last_cons; rewrite last_cons in E3; destruct (last enc)].
      simpl. intros [= E]. by apply (base64_char_plain (n mod 64)).
    + cbn [app base64_decode_no_pad]. rewrite !base64_char_value, E4 by done. cbn [mbind option_bind].
      by rewrite H5, H6, H7.
    + rewrite olen_app. change (olen [_; _; _; _]) with 4. rewrite <- Z.add_assoc, <- Zplus_mod_idemp_r, E5. done.
    + repeat (apply plain_cons; [done|]). exact E6.
Qed.

Lemma ends_with_pad_snoc s : ends_with_pad (s ++ [pad]) = true.
Proof. unfold ends_with_pad. apply bool_decide_true. apply last_snoc. Qed.

Lemma decode_value_encode bytes :
  decode_value (base64_encode bytes) = Some bytes ∧ size_ok (base64_encode bytes) = true.
Proof.
  destruct (base64_padded bytes) as (enc & k & [-> Hk Hl Hd Hn _]).
  assert (He : ends_with_pad enc = false) by (by apply bool_decide_false).
  unfold decode_value, size_ok, base64_decode. rewrite olen_app.
  assert (Hr : olen (replicate k pad) = Z.of_nat k) by (unfold olen; by rewrite length_replicate).
  rewrite Hr, Hn. destruct k as [|[|[|k]]]; [| | |lia]; cbn [replicate].
  - rewrite app_nil_r, He. by rewrite Hd.
  - rewrite ends_with_pad_snoc, length_app, Nat.add_sub, take_app_length, He. done.
  - change [pad; pad] with ([pad] ++ [pad]). rewrite app_assoc, ends_with_pad_snoc, length_app, Nat.add_sub, take_app_length.
    rewrite ends_with_pad_snoc, length_app, Nat.add_sub, take_app_length. done.
Qed.

Lemma split_commas_plain s : ","%char ∉ s → split_commas s = [s].
Proof.
  induction s as [|b s IH]; [done|]. rewrite not_elem_of_cons. intros [Hb Hs]. simpl.
  rewrite bool_decide_false by congruence. by rewrite IH.
Qed.

Lemma split_encoded bytes : split_commas (base64_encode bytes) = [base64_encode bytes].
Proof.
  apply split_commas_plain. destruct (base64_padded bytes) as (enc & k & [-> _ _ _ _ Hp]).
  rewrite not_elem_of_app. split; [done|]. by intros [? _]%elem_of_replicate.
Qed.

Lemma of_to_octets s : of_octets (to_octets s) = s.
Proof. apply String.string_of_list_ascii_of_string. Qed.

Lemma to_of_octets s : to_octets (of_octets s) = s.
Proof. apply String.list_ascii_of_string_of_list_ascii. Qed.

(** An entry that [Metadata::append] accepts is received as it was sent. *)
Lemma appendDecoded_encode es e :
  valid_entry e = true →
  appendDecoded ([], []) es e.1 (encodeOutboundValue e.1 e.2) = (inr appended, es ++ [e]).
Proof.
  destruct e as [key value]. unfold valid_entry, appendDecoded, encodeOutboundValue. simpl.
  intros [-> H]%andb_true_iff. destruct (isBinaryKey key) eqn:Eb; simpl in *; [|by rewrite H].
  rewrite to_of_octets. destruct (decode_value_encode (to_octets value)) as [Hd Hs].
  rewrite split_encoded. cbn [decode_values]. rewrite Hs. simpl. rewrite Hd. simpl. by rewrite of_to_octets.
Qed.

(** A value that is refused, or for which memory fails, leaves the metadata alone. *)
Lemma append_all_take memory es key decoded :
  ∃ more, (append_all memory es key decoded).2 = es ++ more.
Proof.
  revert memory es. induction decoded as [|v decoded IH]; intros memory es; simpl; [exists []; by rewrite app_nil_r|].
  destruct (default true (head memory)); [|exists []; by rewrite app_nil_r].
  destruct (IH (tail memory) (es ++ [(key, of_octets v)])) as [more ->]. rewrite <- app_assoc. by eexists.
Qed.

(** ** Properties *)

(** A status message survives the header: it is escaped to visible ASCII characters,
    at most three for each byte, and [decode] gives back exactly the bytes of the
    message, whatever they are; a message that some other peer did not escape, with no
    percent sign in it, is passed on as it is. *)
Lemma status_message_roundtrip message :
  (∃ encoded, encode true message = Some encoded ∧ decode true encoded = Some message ∧
     Forall (λ c, 32 ≤ octet_value c < 127) encoded ∧ olen encoded ≤ 3 * olen message) ∧
  ("%"%char ∉ message → decode true message = Some message).
Proof.
  split.
  - exists (concat (map encode_byte message)). split; [done|]. simpl. split_and!.
    + f_equal. apply decode_encode.
    + induction message as [|b message IH]; [done|]. cbn [map concat]. apply Forall_app. split; [|done].
      pose proof (encode_byte_visible b) as H. rewrite forallb_forall in H. apply Forall_forall.
      intros c Hc. specialize (H c). rewrite <- list_elem_of_In in H. specialize (H Hc). lia.
    + induction message as [|b message IH]; [done|]. cbn [map concat]. rewrite olen_app.
      change (b :: message) with ([b] ++ message). rewrite (olen_app [b]). change (olen [b]) with 1.
      assert (olen (encode_byte b) ≤ 3) by (unfold encode_byte; by destruct (isSafe b)). lia.
  - intros H. simpl. f_equal. induction message as [|b message IH]; [done|].
    rewrite not_elem_of_cons in H. destruct H as [Hb Hm]. simpl. rewrite bool_decide_false by congruence.
    by rewrite IH.
Qed.

(** C36. Metadata survives the wire, and bad metadata does no harm: an entry the sender's
    [append] accepts, binary or not, is decoded to exactly itself and added at the
    end; whatever a peer sends instead, and whatever allocations fail, an error or a
    discarded value leaves the entries as they were. *)
Theorem metadata_wire_roundtrip es :
  (∀ e, valid_entry e = true →
     appendDecoded ([], []) es e.1 (encodeOutboundValue e.1 e.2) = (inr appended, es ++ [e])) ∧
  (∀ memory key value,
     (appendDecoded memory es key value).1 ≠ inr appended → (appendDecoded memory es key value).2 = es).
Proof.
  split; [apply appendDecoded_encode|]. intros [m1 m2] key value. unfold appendDecoded. cbn [fst snd].
  destruct (isApplicationKey key); [|done]. destruct (isBinaryKey key); cbn [negb].
  - destruct (decode_values m1 _) as [e|decoded]; [done|].
    pose proof (append_all_take m2 es key decoded) as [more H].
    destruct (append_all m2 es key decoded) as [[] es']; [done|]. simpl in *. intros _. subst. by rewrite take_app_length.
  - destruct (isValidAsciiValue value); [|done]. by destruct (default true (head m2)).
Qed.

Lemma status_message_roundtrip_witness :
  encode true (to_octets "50% gone") = Some (to_octets "50%25 gone") ∧
  decode true (to_octets "plain") = Some (to_octets "plain").
Proof.
  split; [vm_compute; reflexivity|]. apply (status_message_roundtrip (to_octets "plain")).
  apply (bool_decide_unpack ("%"%char ∉ to_octets "plain")). vm_compute. exact I.
Defined.

Lemma metadata_wire_roundtrip_witness :
  encodeOutboundValue "trace-bin" "a,b" = "YSxi"%string ∧
  appendDecoded ([], []) [] "trace-bin" "YSxi" = (inr appended, [("trace-bin", "a,b")%string]) ∧
  (appendDecoded ([], []) [] "trace-bin" "YSxi,A").2 = [].
Proof.
  split; [vm_compute; reflexivity|].
  split; [exact (proj1 (metadata_wire_roundtrip []) ("trace-bin", "a,b")%string eq_refl)|].
  apply (proj2 (metadata_wire_roundtrip [])). vm_compute. discriminate.
Defined.
