(* ===== verification/CallHeaders.v ===== *)
(** * The headers of a call

    What the two ends of a call put into and read from HTTP/2 header blocks: the request
    headers that [submitClientStream] writes ([src/channel.zig]) and [onHeader] of
    the server reads ([src/server.zig]); the response headers and trailers that
    [submitStreamingResponse] and [submitTrailers] write and the client's [onHeader]
    reads, up to the status [finalizeClientStream] gives the call.

    HTTP/2 itself is nghttp2's: a header block is the list of its fields, received in
    the order in which they were sent. *)

From S2P Require Import Prelude Status Metadata Octets Timeout HeaderText ServerTransport.

Local Open Scope Z_scope.

Abbreviation field := (string * string)%type.

(** Whether the copies a handler makes succeed, and those of [appendDecoded]. *)
Record HeaderMemory := mkHeaderMemory {
  hm_copy : bool;
  hm_metadata : list bool * list bool }.

Definition plenty : HeaderMemory := mkHeaderMemory true ([], []).

(** ** Names *)

(** [Compression.name] and [Compression.parse] *)
Definition compression_name (c : Compression) : string :=
  match c with Identity => "identity" | Gzip => "gzip" end.

Definition compression_parse (value : string) : option Compression :=
  if String.eqb value "identity" then Some Identity
  else if String.eqb value "gzip" then Some Gzip
  else None.

Definition isReservedRequestHeader (name : string) : bool :=
  existsb (String.eqb name) ["content-type"; "te"; "user-agent"] || starts_with "grpc-" name.

Definition isRequestMetadata (name : string) : bool :=
  isApplicationKey name && negb (isReservedRequestHeader name).

(** [name.len == 0 or name[0] == ':'] *)
Definition pseudo (name : string) : bool :=
  match name with EmptyString => true | String first _ => bool_decide (first = ":"%char) end.

Definition isMalformedRequestMetadataName (name : string) : bool :=
  if pseudo name || isReservedRequestHeader name then false else negb (isValidKey name).

(** The server's and the client's *)
Definition server_isReservedResponseHeader (name : string) : bool :=
  existsb (String.eqb name)
    ["content-type"; "grpc-encoding"; "grpc-accept-encoding"; "grpc-status"; "grpc-message"].

Definition client_isReservedResponseHeader (name : string) : bool :=
  String.eqb name "content-type" || starts_with "grpc-" name.

Definition isResponseMetadata (name : string) : bool :=
  isApplicationKey name && negb (client_isReservedResponseHeader name).

Definition isMalformedResponseMetadataName (name : string) : bool :=
  if pseudo name || client_isReservedResponseHeader name then false else negb (isValidKey name).

Definition isReservedTrailer (name : string) : bool :=
  String.eqb name "grpc-status" || String.eqb name "grpc-message".

(** [std.mem.trim(u8, item, " \t")] *)
Definition blank (byte : octet) : bool := bool_decide (byte = " "%char) || bool_decide (octet_value byte = 9).

Fixpoint trim_left (item : octets) : octets :=
  match item with byte :: rest => if blank byte then trim_left rest else item | [] => [] end.

Definition trim (item : octets) : octets := reverse (trim_left (reverse (trim_left item))).

Definition acceptsEncoding (value : string) (encoding : Compression) : bool :=
  existsb (λ item, String.eqb (of_octets (trim item)) (compression_name encoding))
    (split_commas (to_octets value)).

(** ** The request *)

(** [ClientStreamState.init]: the metadata a stream may be opened with *)
Definition request_metadata (es : entries) : option entries :=
  if forallb (λ e, isRequestMetadata e.1 && valid_entry e) es then Some es else None.

(** [appendMetadataHeader] *)
Definition metadata_field (e : string * string) : field := (e.1, encodeOutboundValue e.1 e.2).

Record RequestHead := mkRequestHead {
  rh_tls : bool;
  rh_path : string;
  rh_authority : string;
  rh_compression : Compression;
  rh_user_agent : string;
  rh_timeout_header : string;
  rh_metadata : entries }.

Definition submitClientStream (r : RequestHead) : list field :=
  [(":method", "POST"); (":scheme", if rh_tls r then "https" else "http"); (":path", rh_path r);
   (":authority", rh_authority r); ("content-type", "application/grpc"); ("te", "trailers");
   ("grpc-encoding", compression_name (rh_compression r)); ("grpc-accept-encoding", "identity,gzip");
   ("user-agent", rh_user_agent r)]%string ++
  (if zlen (rh_timeout_header r) =? 0 then [] else [("grpc-timeout"%string, rh_timeout_header r)]) ++
  map metadata_field (rh_metadata r).

(** The fields of the server's [Stream] that headers set *)
Record RequestState := mkRequestState {
  rq_path : option string;
  rq_method_post : bool;
  rq_content_type_grpc : bool;
  rq_request_compression : option Compression;
  rq_accepts_response_gzip : bool;
  rq_timeout_seen : bool;
  rq_timeout_invalid : bool;
  rq_deadline : option Deadline;
  rq_metadata_invalid : bool;
  rq_header_too_large : bool;
  rq_header_bytes : Z;
  rq_metadata : entries }.

#[export] Instance eta_RequestState : Eta RequestState := λ s,
  mkRequestState (rq_path s) (rq_method_post s) (rq_content_type_grpc s) (rq_request_compression s)
    (rq_accepts_response_gzip s) (rq_timeout_seen s) (rq_timeout_invalid s) (rq_deadline s)
    (rq_metadata_invalid s) (rq_header_too_large s) (rq_header_bytes s) (rq_metadata s).

Definition RequestState_init : RequestState :=
  mkRequestState None false false (Some Identity) false false false None false false 0 [].

(** The part of [onHeader] behind the size check; [None] for
    [NGHTTP2_ERR_CALLBACK_FAILURE], [now] is what the server's clock shows. *)
Definition server_field (memory : HeaderMemory) (now : Z) (name value : string) (s : RequestState)
  : option RequestState :=
  if String.eqb name ":path" then if hm_copy memory then Some (s <| rq_path := Some value |>) else None
  else if String.eqb name ":method" then Some (s <| rq_method_post := String.eqb value "POST" |>)
  else if String.eqb name "content-type" then
    Some (s <| rq_content_type_grpc := starts_with "application/grpc" value |>)
  else if String.eqb name "grpc-encoding" then
    Some (s <| rq_request_compression := compression_parse value |>)
  else if String.eqb name "grpc-accept-encoding" then
    Some (s <| rq_accepts_response_gzip := rq_accepts_response_gzip s || acceptsEncoding value Gzip |>)
  else if String.eqb name "grpc-timeout" then
    if rq_timeout_seen s then Some (s <| rq_timeout_invalid := true |> <| rq_deadline := None |>)
    else
      let s1 := s <| rq_timeout_seen := true |> in
      match parseTimeout (to_octets value) with
      | None => Some (s1 <| rq_timeout_invalid := true |>)
      | Some timeout_ns =>
          if hm_copy memory then Some (s1 <| rq_deadline := Some (initAfter now timeout_ns) |>) else None
      end
  else if isRequestMetadata name then
    match appendDecoded (hm_metadata memory) (rq_metadata s) name value with
    | (inl IE_OutOfMemory, es) => None
    | (inl _, es) => Some (s <| rq_metadata := es |> <| rq_metadata_invalid := true |>)
    | (inr _, es) => Some (s <| rq_metadata := es |>)
    end
  else if isMalformedRequestMetadataName name then Some (s <| rq_metadata_invalid := true |>)
  else Some s.

Definition server_onHeader (memory : HeaderMemory) (now : Z) (f : field) (s : RequestState)
  : option RequestState :=
  match add_usize (zlen f.1) (zlen f.2) with
  | None => Some (s <| rq_header_too_large := true |>)
  | Some field_size =>
      match add_usize (rq_header_bytes s) field_size with
      | None => Some (s <| rq_header_too_large := true |>)
      | Some header_bytes =>
          let s1 := s <| rq_header_bytes := header_bytes |> in
          if header_bytes >? 64 * 1024 then Some (s1 <| rq_header_too_large := true |>)
          else server_field memory now f.1 f.2 s1
      end
  end.

(** A header block, field by field *)
Fixpoint fields {S} (onHeader : field → S → option S) (block : list field) (s : S) : option S :=
  match block with
  | [] => Some s
  | f :: block => s ← onHeader f s; fields onHeader block s
  end.

(** The checks at the start of [startStreaming]: the failure that is submitted, or the
    compression of the request *)
Definition startStreaming_check (now : Z) (s : RequestState) : Status + Compression :=
  if rq_header_too_large s then inl (mkStatus StatusCode.ResourceExhausted "request too large")
  else if rq_timeout_invalid s then inl (mkStatus StatusCode.InvalidArgument "invalid grpc-timeout")
  else if rq_metadata_invalid s then inl (mkStatus StatusCode.InvalidArgument "invalid request metadata")
  else if match rq_deadline s with Some d => isExceeded now d | None => false end
  then inl (mkStatus StatusCode.DeadlineExceeded "deadline exceeded")
  else if negb (rq_method_post s) then inl (mkStatus StatusCode.Unimplemented "POST required")
  else if negb (rq_content_type_grpc s) then inl (mkStatus StatusCode.InvalidArgument "invalid content-type")
  else match rq_request_compression s with
       | None => inl (mkStatus StatusCode.Unimplemented "request compression is not supported")
       | Some request_compression => inr request_compression
       end.

(** ** The response *)

Definition submitStreamingResponse (compression : Compression) (initial : entries) : list field :=
  [(":status", "200"); ("content-type", "application/grpc"); ("grpc-encoding", compression_name compression);
   ("grpc-accept-encoding", "identity,gzip")]%string ++
  map metadata_field (filter (λ e, server_isReservedResponseHeader e.1 = false) initial).

(** [None] when the code does not fit its buffer or memory runs out *)
Definition submitTrailers (memory : bool) (status : Status) (trailing : entries) : option (list field) :=
  code ← bufPrint 3 (decimal (status_code status));
  encoded ← encode memory (to_octets (status_message status));
  Some (map metadata_field (filter (λ e, isReservedTrailer e.1 = false) trailing) ++
        [("grpc-status"%string, of_octets code); ("grpc-message"%string, of_octets encoded)]).

Inductive HeaderKind := kind_none | kind_response | kind_trailers.

(** The fields of [ClientStreamState] that headers set *)
Record ResponseState := mkResponseState {
  rs_saw_response_headers : bool;
  rs_http_status : option Z;
  rs_content_type_grpc : bool;
  rs_response_compression : Compression;
  rs_encoding_invalid : bool;
  rs_metadata_invalid : bool;
  rs_grpc_status : option Z;
  rs_grpc_message : option string;
  rs_initial_metadata : entries;
  rs_trailing_metadata : entries;
  rs_block_kind : HeaderKind;
  rs_block_grpc_status : option Z;
  rs_block_grpc_message : option string;
  rs_block_metadata : entries;
  rs_header_list_size : Z;
  rs_retained_size : Z;
  rs_headers_too_large : bool;
  rs_forced_status : option Status }.

#[export] Instance eta_ResponseState : Eta ResponseState := λ s,
  mkResponseState (rs_saw_response_headers s) (rs_http_status s) (rs_content_type_grpc s)
    (rs_response_compression s) (rs_encoding_invalid s) (rs_metadata_invalid s) (rs_grpc_status s)
    (rs_grpc_message s) (rs_initial_metadata s) (rs_trailing_metadata s) (rs_block_kind s)
    (rs_block_grpc_status s) (rs_block_grpc_message s) (rs_block_metadata s) (rs_header_list_size s)
    (rs_retained_size s) (rs_headers_too_large s) (rs_forced_status s).

Definition ResponseState_init : ResponseState :=
  mkResponseState false None false Identity false false None None [] [] kind_none None None [] 0 0 false None.

Definition resetHeaderBlock (kind : HeaderKind) (s : ResponseState) : ResponseState :=
  s <| rs_block_metadata := [] |> <| rs_block_grpc_message := None |> <| rs_block_grpc_status := None |>
    <| rs_block_kind := kind |>.

(** [kind] is [kind_response] or [kind_trailers], by the category of the frame. *)
Definition onBeginHeaders (kind : HeaderKind) (s : ResponseState) : ResponseState :=
  let s1 := resetHeaderBlock kind s in
  match kind with kind_response => s1 <| rs_saw_response_headers := true |> | _ => s1 end.

(** [None] where the function returns false *)
Definition accountResponseHeaderField (total name_length value_length limit : Z) : option Z :=
  field_size ← add_usize name_length value_length;
  charged_size ← add_usize field_size 32;
  if (charged_size >? limit) || (total >? limit - charged_size) then None else Some (total + charged_size).

Definition response_headers_too_large_message : string := "received metadata size exceeds hard limit".

(** [cancelled] is [cancel_requested and !app_released]. *)
Definition rejectClientStreamResponseHeaders (cancelled : bool) (s : ResponseState) : ResponseState :=
  let s1 := resetHeaderBlock kind_none (s <| rs_headers_too_large := true |>) in
  match rs_forced_status s1 with
  | Some _ => s1
  | None =>
      s1 <| rs_forced_status := Some (if cancelled then mkStatus StatusCode.Cancelled "stream cancelled"
              else mkStatus StatusCode.ResourceExhausted response_headers_too_large_message) |>
  end.

(** [calcSizeForSlice] *)
Definition base64_size (encoded : octets) : option Z :=
  if ends_with_pad encoded then
    if negb (olen encoded mod 4 =? 0) then None
    else Some (olen encoded / 4 * 3 - 1 -
               (if ends_with_pad (take (length encoded - 1) encoded) then 1 else 0))
  else if olen encoded mod 4 =? 1 then None
  else Some (olen encoded / 4 * 3 + olen encoded mod 4 * 3 / 4).

Inductive SizeError := SizeOverflow | SizeInvalid.

(** The loop over the values; sizes are far below the width of [usize]. *)
Fixpoint retained_values (name_length : Z) (values : list octets) (total : Z) : SizeError + Z :=
  match values with
  | [] => inr total
  | encoded :: values =>
      match base64_size encoded with
      | None => inl SizeInvalid
      | Some decoded_length =>
          match (entry_size ← add_usize name_length decoded_length; charged ← add_usize entry_size 32;
                 add_usize total charged) with
          | None => inl SizeOverflow
          | Some total => retained_values name_length values total
          end
      end
  end.

Definition retainedMetadataFieldSize (name value : string) : SizeError + Z :=
  if negb (isBinaryKey name) then
    if negb (isValidAsciiValue value) then inr 0
    else match (field_size ← add_usize (zlen name) (zlen value); add_usize field_size 32) with
         | None => inl SizeOverflow
         | Some size => inr size
         end
  else retained_values (zlen name) (split_commas (to_octets value)) 0.

Inductive Preflight := PreflightTooLarge | PreflightInvalid | PreflightTotal (total : Z).

Definition preflightRetainedMetadata (total : Z) (name value : string) (limit : Z) : Preflight :=
  match retainedMetadataFieldSize name value with
  | inl SizeOverflow => PreflightTooLarge
  | inl SizeInvalid => PreflightInvalid
  | inr charged_size =>
      if (charged_size >? limit) || (total >? limit - charged_size) then PreflightTooLarge
      else PreflightTotal (total + charged_size)
  end.

(** [None] for a lack of memory *)
Definition processClientResponseMetadata (memory : HeaderMemory) (cancelled : bool) (limit : Z)
    (name value : string) (s : ResponseState) : option ResponseState :=
  if isResponseMetadata name then
    match preflightRetainedMetadata (rs_retained_size s) name value limit with
    | PreflightTooLarge => Some (rejectClientStreamResponseHeaders cancelled s)
    | PreflightInvalid => Some (s <| rs_metadata_invalid := true |>)
    | PreflightTotal total =>
        let s1 := s <| rs_retained_size := total |> in
        match appendDecoded (hm_metadata memory) (rs_block_metadata s1) name value with
        | (inl IE_OutOfMemory, es) => None
        | (inl _, es) => Some (s1 <| rs_block_metadata := es |> <| rs_metadata_invalid := true |>)
        | (inr _, es) => Some (s1 <| rs_block_metadata := es |>)
        end
    end
  else if isMalformedResponseMetadataName name then Some (s <| rs_metadata_invalid := true |>)
  else Some s.

(** [std.fmt.parseInt(u16, value, 10)], for digits only *)
Definition parse_digits (max : Z) (value : octets) : option Z :=
  match value with
  | [] => None
  | _ => if forallb isDigit value then n ← parseInt value; if n <=? max then Some n else None else None
  end.

Definition parseGrpcStatus (value : octets) : Z :=
  match value with
  | [] => u32_max
  | first :: rest =>
      if bool_decide (rest ≠ []) && bool_decide (first = "0"%char) then u32_max
      else default u32_max (parse_digits u32_max value)
  end.

Definition client_field (memory : HeaderMemory) (cancelled : bool) (limit : Z) (name value : string)
    (s : ResponseState) : option ResponseState :=
  if String.eqb name ":status" then Some (s <| rs_http_status := parse_digits u16_max (to_octets value) |>)
  else if String.eqb name "content-type" then
    Some (s <| rs_content_type_grpc := starts_with "application/grpc" value |>)
  else if String.eqb name "grpc-status" then
    Some (s <| rs_block_grpc_status := Some (parseGrpcStatus (to_octets value)) |>)
  else if String.eqb name "grpc-message" then
    if hm_copy memory then Some (s <| rs_block_grpc_message := Some value |>) else None
  else if String.eqb name "grpc-encoding" then
    match compression_parse value with
    | None => Some (s <| rs_encoding_invalid := true |>)
    | Some c => Some (s <| rs_response_compression := c |>)
    end
  else processClientResponseMetadata memory cancelled limit name value s.

(** [limit] is [max_response_header_list_size]. *)
Definition client_onHeader (memory : HeaderMemory) (cancelled : bool) (limit : Z) (f : field) (s : ResponseState)
  : option ResponseState :=
  if rs_headers_too_large s then Some s
  else match accountResponseHeaderField (rs_header_list_size s) (zlen f.1) (zlen f.2) limit with
       | None => Some (rejectClientStreamResponseHeaders cancelled s)
       | Some total => client_field memory cancelled limit f.1 f.2 (s <| rs_header_list_size := total |>)
       end.

(** The result is whether the block is valid; [copyMetadata] copies valid entries. *)
Definition finishClientHeaderBlock (end_stream : bool) (s : ResponseState) : bool * ResponseState :=
  let response := match rs_block_kind s with kind_response => true | _ => false end in
  let trailers_only := response && bool_decide (is_Some (rs_block_grpc_status s)) in
  if trailers_only && negb end_stream then (false, s <| rs_block_kind := kind_none |>)
  else
    let s1 := if response && negb trailers_only
              then s <| rs_initial_metadata := rs_initial_metadata s ++ rs_block_metadata s |>
              else s <| rs_trailing_metadata := rs_trailing_metadata s ++ rs_block_metadata s |> in
    let s2 := match rs_block_grpc_status s1 with
              | Some code => s1 <| rs_grpc_status := Some code |> | None => s1 end in
    let s3 := match rs_block_grpc_message s2 with
              | Some value => s2 <| rs_grpc_message := Some value |> <| rs_block_grpc_message := None |>
              | None => s2 end in
    (true, s3 <| rs_block_kind := kind_none |>).

(** [Code.fromInt] *)
Definition Code_fromInt (value : Z) : Z := if value <=? 16 then value else StatusCode.Unknown.

Definition httpStatusCode (http_status : Z) : Z :=
  if http_status =? 400 then StatusCode.Internal
  else if http_status =? 401 then StatusCode.Unauthenticated
  else if http_status =? 403 then StatusCode.PermissionDenied
  else if http_status =? 404 then StatusCode.Unimplemented
  else if existsb (Z.eqb http_status) [429; 502; 503; 504] then StatusCode.Unavailable
  else StatusCode.Unknown.

(** The status [finalizeClientStream] gives a stream that was closed without an
    error; [complete] is whether [decoder.finish()] succeeds, [memory] whether
    decoding the message does. *)
Definition final_status (memory complete : bool) (s : ResponseState) : Status :=
  match rs_forced_status s with
  | Some forced => forced
  | None =>
      if negb (rs_saw_response_headers s) then mkStatus StatusCode.Unknown "missing response headers"
      else match rs_http_status s with
      | None => mkStatus StatusCode.Unknown "missing HTTP status"
      | Some http_status =>
          if negb (http_status =? 200) then mkStatus (httpStatusCode http_status) "HTTP request failed"
          else if negb (rs_content_type_grpc s) then mkStatus StatusCode.Unknown "invalid gRPC content-type"
          else match rs_grpc_status s with
          | None => mkStatus StatusCode.Unknown "missing grpc-status"
          | Some grpc_status =>
              if rs_encoding_invalid s
              then mkStatus StatusCode.Unimplemented "response compression is not supported"
              else if rs_metadata_invalid s then mkStatus StatusCode.Internal "invalid response metadata"
              else if negb complete then mkStatus StatusCode.Internal "malformed streaming response"
              else match rs_grpc_message s with
                   | None => mkStatus (Code_fromInt grpc_status) ""
                   | Some encoded =>
                       match decode memory (to_octets encoded) with
                       | None => mkStatus StatusCode.Unknown "invalid grpc-message"
                       | Some decoded => mkStatus (Code_fromInt grpc_status) (of_octets decoded)
                       end
                   end
          end
      end
  end.

(** The client's side of a header block *)
Definition receive_block (limit : Z) (kind : HeaderKind) (end_stream : bool) (block : list field)
    (s : ResponseState) : option (bool * ResponseState) :=
  s ← fields (client_onHeader plenty false limit) block (onBeginHeaders kind s);
  Some (finishClientHeaderBlock end_stream s).

(** ** Receiving the request *)

Definition field_size (f : field) : Z := zlen f.1 + zlen f.2.

Fixpoint block_size (block : list field) : Z :=
  match block with [] => 0 | f :: block => field_size f + block_size block end.

Lemma field_size_nonneg f : 0 ≤ field_size f.
Proof. unfold field_size, zlen. lia. Qed.

Lemma block_size_nonneg block : 0 ≤ block_size block.
Proof. induction block as [|f block IH]; simpl; [done|]. pose proof (field_size_nonneg f). lia. Qed.

Lemma block_size_app a b : block_size (a ++ b) = block_size a + block_size b.
Proof. induction a as [|f a IH]; simpl; [done|]. lia. Qed.

(** The fields of a block, apart from their size *)
Definition server_process (memory : HeaderMemory) (now : Z) : list field → RequestState → option RequestState :=
  fields (λ f, server_field memory now f.1 f.2).

Lemma server_field_size memory now name value s n :
  server_field memory now name value (s <| rq_header_bytes := n |>) =
  (λ s, s <| rq_header_bytes := n |>) <$> server_field memory now name value s.
Proof. unfold server_field. simpl. repeat case_match; simpl; simplify_eq; done. Qed.

Lemma server_process_size memory now block s n :
  server_process memory now block (s <| rq_header_bytes := n |>) =
  (λ s, s <| rq_header_bytes := n |>) <$> server_process memory now block s.
Proof.
  revert s. induction block as [|f block IH]; intros s; [done|]. unfold server_process in *. cbn [fields].
  rewrite server_field_size. destruct (server_field memory now f.1 f.2 s) as [s1|]; [|done]. apply IH.
Qed.

(** A block that is not too large is processed as if sizes did not matter. *)
Lemma server_fields_process memory now block s :
  0 ≤ rq_header_bytes s → rq_header_bytes s + block_size block ≤ 65536 →
  fields (server_onHeader memory now) block s =
  (λ s', s' <| rq_header_bytes := rq_header_bytes s + block_size block |>) <$> server_process memory now block s.
Proof.
  revert s. induction block as [|f block IH]; intros s H0 H; cbn [block_size] in *.
  { destruct s. simpl. by rewrite Z.add_0_r. }
  pose proof (block_size_nonneg block). pose proof (field_size_nonneg f) as Hf.
  cbn [fields]. unfold server_process. cbn [fields]. fold (server_process memory now).
  assert (E : server_onHeader memory now f s =
    server_field memory now f.1 f.2 (s <| rq_header_bytes := rq_header_bytes s + field_size f |>)).
  { unfold server_onHeader, add_usize, usize_max, u64_max, field_size in *.
    rewrite (proj2 (Z.leb_le (zlen f.1 + zlen f.2) _)) by lia.
    rewrite (proj2 (Z.leb_le (rq_header_bytes s + _) _)) by lia.
    by destruct (Z.gtb_spec (rq_header_bytes s + (zlen f.1 + zlen f.2)) (64 * 1024)); [lia|]. }
  rewrite E, server_field_size. destruct (server_field memory now f.1 f.2 s) as [s1|]; [|done].
  change (fields (server_onHeader memory now) block (s1 <| rq_header_bytes := rq_header_bytes s + field_size f |>) =
    (λ s', s' <| rq_header_bytes := rq_header_bytes s + (field_size f + block_size block) |>) <$>
      server_process memory now block s1).
  rewrite IH; [|simpl; lia|simpl; lia]. rewrite server_process_size, <- option_fmap_compose, Z.add_assoc. done.
Qed.

(** The names of the protocol's own headers are not metadata. *)
Lemma request_metadata_name name :
  isRequestMetadata name = true →
  String.eqb name ":path" = false ∧ String.eqb name ":method" = false ∧
  String.eqb name "content-type" = false ∧ String.eqb name "grpc-encoding" = false ∧
  String.eqb name "grpc-accept-encoding" = false ∧ String.eqb name "grpc-timeout" = false.
Proof. intros H. split_and!; apply String.eqb_neq; intros ->; discriminate H. Qed.

Lemma server_process_metadata now es s :
  Forall (λ e, isRequestMetadata e.1 = true ∧ valid_entry e = true) es →
  server_process plenty now (map metadata_field es) s = Some (s <| rq_metadata := rq_metadata s ++ es |>).
Proof.
  intros He. revert s. induction He as [|e es [Hn Hv] He IH]; intros s; cbn [map].
  { destruct s. simpl. by rewrite app_nil_r. }
  unfold server_process in *. cbn [fields].
  destruct (request_metadata_name _ Hn) as (E1 & E2 & E3 & E4 & E5 & E6).
  unfold server_field. cbn [metadata_field fst snd]. rewrite E1, E2, E3, E4, E5, E6, Hn.
  cbn [hm_metadata plenty]. rewrite appendDecoded_encode by done. cbn [mbind option_bind].
  fold (server_field plenty now). rewrite IH. simpl. by rewrite <- app_assoc.
Qed.

Lemma fields_app {S} (h : field → S → option S) a b s :
  fields h (a ++ b) s = (s' ← fields h a s; fields h b s').
Proof.
  revert s. induction a as [|f a IH]; intros s; [done|]. simpl. destruct (h f s) as [s1|]; [|done]. simpl. apply IH.
Qed.

Lemma server_process_app memory now a b s :
  server_process memory now (a ++ b) s = (s' ← server_process memory now a s; server_process memory now b s').
Proof. apply fields_app. Qed.

Lemma server_process_fixed now tls path authority c user_agent :
  server_process plenty now
    [(":method", "POST"); (":scheme", if tls : bool then "https" else "http"); (":path", path);
     (":authority", authority); ("content-type", "application/grpc"); ("te", "trailers");
     ("grpc-encoding", compression_name c); ("grpc-accept-encoding", "identity,gzip");
     ("user-agent", user_agent)]%string RequestState_init =
  Some (mkRequestState (Some path) true true (Some c) true false false None false false 0 []).
Proof. by destruct tls, c. Qed.

(** The timeout header of a call with [timeout] left, [None] for no deadline *)
Definition timeout_header (timeout : option Z) : string :=
  match timeout with
  | None => ""
  | Some t => of_octets (default [] (formatTimeout 16 t))
  end.

Lemma timeout_header_received t :
  in_u64 t → ∃ t', parseTimeout (to_octets (timeout_header (Some t))) = Some t' ∧ t ≤ t' ≤ u64_max ∧
    zlen (timeout_header (Some t)) ≠ 0.
Proof.
  intros Ht. destruct (timeout_header_ok t 16 Ht) as (h & t' & H1 & H2 & H3 & H4 & _); [lia|].
  exists t'. unfold timeout_header. rewrite H1. simpl default. rewrite to_of_octets. split; [done|]. split; [done|].
  rewrite <- olen_string. fold to_octets. rewrite to_of_octets. intros E.
  unfold parseTimeout in H3. rewrite E in H3. discriminate H3.
Qed.

Lemma server_process_timeout now value t s :
  rq_timeout_seen s = false → parseTimeout (to_octets value) = Some t →
  server_process plenty now [("grpc-timeout"%string, value)] s =
  Some (s <| rq_timeout_seen := true |> <| rq_deadline := Some (initAfter now t) |>).
Proof. intros H1 H2. unfold server_process. simpl. unfold server_field. simpl. by rewrite H1, H2. Qed.

(** ** Receiving the response *)

(** What a header block counts for the client's limit *)
Fixpoint charged_size (block : list field) : Z :=
  match block with [] => 0 | f :: block => field_size f + 32 + charged_size block end.

Lemma charged_size_nonneg block : 0 ≤ charged_size block.
Proof. induction block as [|f block IH]; simpl; [done|]. pose proof (field_size_nonneg f). lia. Qed.

Lemma charged_size_app a b : charged_size (a ++ b) = charged_size a + charged_size b.
Proof. induction a as [|f a IH]; simpl; [done|]. lia. Qed.

Section Response.
Context (limit : Z) (limit_u32 : limit ≤ u32_max).

(** Nothing was too large so far. *)
Record sized (s : ResponseState) : Prop := {
  sz_retained : 0 ≤ rs_retained_size s ≤ rs_header_list_size s;
  sz_small : rs_headers_too_large s = false;
  sz_forced : rs_forced_status s = None }.

Lemma client_onHeader_fits f s :
  sized s → rs_header_list_size s + (field_size f + 32) ≤ limit →
  client_onHeader plenty false limit f s =
  client_field plenty false limit f.1 f.2
    (s <| rs_header_list_size := rs_header_list_size s + (field_size f + 32) |>).
Proof.
  intros [Hr Hl _] Hs. unfold client_onHeader. rewrite Hl. pose proof (field_size_nonneg f).
  unfold accountResponseHeaderField, add_usize, usize_max, u64_max, field_size, u32_max in *.
  rewrite (proj2 (Z.leb_le (zlen f.1 + zlen f.2) _)) by lia. cbn [mbind option_bind].
  rewrite (proj2 (Z.leb_le (zlen f.1 + zlen f.2 + 32) _)) by lia. cbn [mbind option_bind].
  destruct (_ || _) eqn:E; [lia|done].
Qed.

Lemma base64_size_ok encoded :
  size_ok encoded = true → ∃ n, base64_size encoded = Some n ∧ 0 ≤ n ≤ olen encoded.
Proof.
  unfold size_ok, base64_size. pose proof (olen_nonneg encoded).
  destruct (ends_with_pad encoded) eqn:Ep.
  - intros E. rewrite E. cbn [negb]. assert (olen encoded ≠ 0).
    { destruct encoded; [discriminate Ep|]. unfold olen. simpl. lia. }
    eexists. split; [done|]. case_match; Z.to_euclidean_division_equations; lia.
  - intros E. destruct (Z.eqb_spec (olen encoded mod 4) 1); [done|].
    eexists. split; [done|]. Z.to_euclidean_division_equations; lia.
Qed.

(** A valid entry is retained at no more than its field counts. *)
Lemma retained_entry e :
  valid_entry e = true → field_size (metadata_field e) ≤ u32_max →
  ∃ n, retainedMetadataFieldSize e.1 (encodeOutboundValue e.1 e.2) = inr n ∧
    0 ≤ n ≤ field_size (metadata_field e) + 32.
Proof.
  destruct e as [key value]. unfold valid_entry, retainedMetadataFieldSize, encodeOutboundValue, field_size.
  cbn [metadata_field fst snd]. unfold encodeOutboundValue.
  intros [_ H]%andb_true_iff Hs. pose proof (zlen_nonneg key).
  destruct (isBinaryKey key) eqn:Eb; cbn [orb negb] in *.
  - rewrite to_of_octets, split_encoded. cbn [retained_values].
    destruct (base64_size_ok (base64_encode (to_octets value))) as (n & -> & Hn); [apply decode_value_encode|].
    assert (Hz : zlen (of_octets (base64_encode (to_octets value))) = olen (base64_encode (to_octets value)))
      by (rewrite <- olen_string; fold (to_octets (of_octets (base64_encode (to_octets value)))); by rewrite to_of_octets).
    rewrite Hz in *. unfold add_usize, usize_max, u64_max, u32_max in *.
    rewrite (proj2 (Z.leb_le (zlen key + n) _)) by lia. cbn [mbind option_bind].
    rewrite (proj2 (Z.leb_le (zlen key + n + 32) _)) by lia. cbn [mbind option_bind].
    rewrite (proj2 (Z.leb_le (0 + _) _)) by lia. eexists. split; [done|]. lia.
  - rewrite H. pose proof (zlen_nonneg value). unfold add_usize, usize_max, u64_max, u32_max in *.
    rewrite (proj2 (Z.leb_le (zlen key + zlen value) _)) by lia. cbn [mbind option_bind negb].
    rewrite (proj2 (Z.leb_le (zlen key + zlen value + 32) _)) by lia. eexists. split; [done|]. lia.
Qed.

Lemma response_metadata_name name :
  isResponseMetadata name = true →
  String.eqb name ":status" = false ∧ String.eqb name "content-type" = false ∧
  String.eqb name "grpc-status" = false ∧ String.eqb name "grpc-message" = false ∧
  String.eqb name "grpc-encoding" = false.
Proof. intros H. split_and!; apply String.eqb_neq; intros ->; discriminate H. Qed.

Lemma client_fields_metadata es s :
  Forall (λ e, isResponseMetadata e.1 = true ∧ valid_entry e = true) es → sized s →
  rs_header_list_size s + charged_size (map metadata_field es) ≤ limit →
  ∃ retained, 0 ≤ retained ≤ rs_header_list_size s + charged_size (map metadata_field es) ∧
  fields (client_onHeader plenty false limit) (map metadata_field es) s =
  Some (s <| rs_block_metadata := rs_block_metadata s ++ es |> <| rs_retained_size := retained |>
          <| rs_header_list_size := rs_header_list_size s + charged_size (map metadata_field es) |>).
Proof.
  intros He. revert s. induction He as [|e es [Hn Hv] He IH]; intros s Hz Hs; cbn [map charged_size] in *.
  { exists (rs_retained_size s). destruct s, Hz as [Hr _ _]. simpl in *. by rewrite app_nil_r, Z.add_0_r. }
  pose proof (charged_size_nonneg (map metadata_field es)). pose proof (field_size_nonneg (metadata_field e)) as Hf.
  cbn [fields]. rewrite client_onHeader_fits by (done || lia).
  destruct (response_metadata_name _ Hn) as (E1 & E2 & E3 & E4 & E5). destruct Hz as [Hr Hl Hfs].
  unfold client_field. cbn [metadata_field fst snd]. rewrite E1, E2, E3, E4, E5.
  unfold processClientResponseMetadata, preflightRetainedMetadata. rewrite Hn.
  destruct (retained_entry e Hv) as (n & -> & Hn'); [lia|].
  set (s1 := s <| rs_header_list_size := rs_header_list_size s + (field_size (metadata_field e) + 32) |>).
  change (rs_retained_size s1) with (rs_retained_size s).
  assert (E : (n >? limit) || (rs_retained_size s >? limit - n) = false) by lia. rewrite E.
  change (rs_block_metadata (s1 <| rs_retained_size := rs_retained_size s + n |>)) with (rs_block_metadata s).
  rewrite appendDecoded_encode by done. cbn [mbind option_bind].
  destruct (IH (s1 <| rs_retained_size := rs_retained_size s + n |> <| rs_block_metadata := rs_block_metadata s ++ [e] |>))
    as (retained & Hb & Hf2); [split; simpl; [lia|done|done]|simpl; lia|].
  simpl in Hb. exists retained. split; [lia|]. rewrite Hf2. destruct s. simpl. rewrite <- app_assoc.
  by rewrite <- Z.add_assoc.
Qed.

(** A field that is not metadata sets what [g] sets, whatever the sizes are. *)
Record plain_field (f : field) (g : ResponseState → ResponseState) : Prop := {
  pf_field s : client_field plenty false limit f.1 f.2 s = Some (g s);
  pf_size s n : g (s <| rs_header_list_size := n |>) = (g s) <| rs_header_list_size := n |>;
  pf_sized s : sized s → sized (g s) ∧ rs_header_list_size (g s) = rs_header_list_size s }.

Lemma plain_fields_size block gs s n m :
  Forall2 plain_field block gs →
  (foldl (λ s g, g s) (s <| rs_header_list_size := n |>) gs) <| rs_header_list_size := m |> =
  (foldl (λ s g, g s) s gs) <| rs_header_list_size := m |>.
Proof.
  intros Hb. revert s. induction Hb as [|f g block gs [_ H2 _] Hb IH]; intros s; [done|]. cbn [foldl].
  by rewrite H2, IH.
Qed.

Lemma client_fields_plain block gs s :
  Forall2 plain_field block gs → sized s → rs_header_list_size s + charged_size block ≤ limit →
  fields (client_onHeader plenty false limit) block s =
  Some ((foldl (λ s g, g s) s gs) <| rs_header_list_size := rs_header_list_size s + charged_size block |>).
Proof.
  intros Hb. revert s. induction Hb as [|f g block gs [H1 H2 H3] Hb IH]; intros s Hz Hs; cbn [charged_size] in *.
  { destruct s. simpl. by rewrite Z.add_0_r. }
  pose proof (charged_size_nonneg block). pose proof (field_size_nonneg f). cbn [fields].
  rewrite client_onHeader_fits, H1 by (done || lia). cbn [mbind option_bind].
  destruct (H3 s Hz) as [[Hr Hl Hf] El]. rewrite H2, IH; [|split; simpl; [lia|done|done]|simpl; lia].
  cbn [foldl]. rewrite (plain_fields_size block) by done.
  by replace (rs_header_list_size s + (field_size f + 32 + charged_size block))
    with (rs_header_list_size s + (field_size f + 32) + charged_size block) by lia.
Qed.

Definition response_fixed (c : Compression) : list field :=
  [(":status", "200"); ("content-type", "application/grpc"); ("grpc-encoding", compression_name c);
   ("grpc-accept-encoding", "identity,gzip")]%string.

Lemma client_fields_fixed c s :
  sized s → rs_header_list_size s + charged_size (response_fixed c) ≤ limit →
  fields (client_onHeader plenty false limit) (response_fixed c) s =
  Some (s <| rs_http_status := Some 200 |> <| rs_content_type_grpc := true |> <| rs_response_compression := c |>
          <| rs_header_list_size := rs_header_list_size s + charged_size (response_fixed c) |>).
Proof.
  refine (client_fields_plain (response_fixed c) [λ s, s <| rs_http_status := Some 200 |>;
    λ s, s <| rs_content_type_grpc := true |>; λ s, s <| rs_response_compression := c |>; λ s, s] s _).
  unfold response_fixed. repeat (apply Forall2_cons_2; [split; intros; first [done|by destruct c|by destruct H]|]).
  by apply Forall2_nil_2.
Qed.

(** The fields that end the trailers, after a [content-type] of the application's *)
Definition status_fields (content_type : option string) (code message : string) : list field :=
  option_list ((λ value, ("content-type"%string, value)) <$> content_type) ++
  [("grpc-status", code); ("grpc-message", message)]%string.

Definition type_after (content_type : option string) (before : bool) : bool :=
  match content_type with None => before | Some value => starts_with "application/grpc" value end.

Lemma client_fields_status content_type code message s n :
  sized s → parseGrpcStatus (to_octets code) = n →
  rs_header_list_size s + charged_size (status_fields content_type code message) ≤ limit →
  fields (client_onHeader plenty false limit) (status_fields content_type code message) s =
  Some (s <| rs_content_type_grpc := type_after content_type (rs_content_type_grpc s) |>
          <| rs_block_grpc_status := Some n |> <| rs_block_grpc_message := Some message |>
          <| rs_header_list_size :=
               rs_header_list_size s + charged_size (status_fields content_type code message) |>).
Proof.
  intros Hz <-. destruct content_type as [value|].
  - refine (client_fields_plain (status_fields (Some value) code message)
      [λ s, s <| rs_content_type_grpc := starts_with "application/grpc" value |>;
       λ s, s <| rs_block_grpc_status := Some (parseGrpcStatus (to_octets code)) |>;
       λ s, s <| rs_block_grpc_message := Some message |>] s _ Hz).
    repeat (apply Forall2_cons_2; [split; intros; first [done|by destruct H]|]). by apply Forall2_nil_2.
  - assert (E : s <| rs_content_type_grpc := rs_content_type_grpc s |> = s) by (by destruct s).
    cbn [type_after]. rewrite E. refine (client_fields_plain (status_fields None code message)
      [λ s, s <| rs_block_grpc_status := Some (parseGrpcStatus (to_octets code)) |>;
       λ s, s <| rs_block_grpc_message := Some message |>] s _ Hz).
    repeat (apply Forall2_cons_2; [split; intros; first [done|by destruct H]|]). by apply Forall2_nil_2.
Qed.

(** The entries that are the application's *)
Lemma valid_names e :
  valid_entry e = true →
  server_isReservedResponseHeader e.1 = String.eqb e.1 "content-type" ∧ isReservedTrailer e.1 = false ∧
  isResponseMetadata e.1 = negb (String.eqb e.1 "content-type").
Proof.
  destruct e as [name value]. unfold valid_entry. cbn [fst snd]. intros [Ha _]%andb_true_iff.
  unfold isResponseMetadata, client_isReservedResponseHeader. rewrite Ha.
  unfold isApplicationKey in Ha. apply andb_true_iff in Ha as [_ Hg%negb_true_iff]. rewrite Hg, orb_false_r.
  assert (H : ∀ other, starts_with "grpc-" other = true → String.eqb name other = false).
  { intros other Ho. apply String.eqb_neq. intros ->. by rewrite Hg in Ho. }
  unfold server_isReservedResponseHeader, isReservedTrailer. simpl existsb.
  rewrite (H "grpc-encoding"%string), (H "grpc-accept-encoding"%string), (H "grpc-status"%string),
    (H "grpc-message"%string) by done. by rewrite orb_false_r.
Qed.

Lemma sent_initial initial :
  Forall (λ e, valid_entry e = true) initial →
  filter (λ e : field, server_isReservedResponseHeader e.1 = false) initial =
    filter (λ e : field, e.1 ≠ "content-type"%string) initial ∧
  Forall (λ e, isResponseMetadata e.1 = true ∧ valid_entry e = true)
    (filter (λ e : field, e.1 ≠ "content-type"%string) initial).
Proof.
  induction 1 as [|e initial He Hi [IH1 IH2]]; [done|]. destruct (valid_names e He) as (E1 & _ & E3).
  rewrite !filter_cons. destruct (String.eqb_spec e.1 "content-type"%string) as [Ee|Ee].
  - rewrite decide_False by (by rewrite E1). rewrite decide_False by (by intros []). done.
  - rewrite decide_True by done. rewrite decide_True by done. split; [by f_equal|]. by constructor.
Qed.

Lemma sent_trailing trailing :
  Forall (λ e, valid_entry e = true) trailing →
  filter (λ e : field, isReservedTrailer e.1 = false) trailing = trailing.
Proof.
  induction 1 as [|e trailing He Ht IH]; [done|]. rewrite filter_cons, decide_True by apply (valid_names e He).
  by f_equal.
Qed.

Lemma status_header code :
  0 ≤ code ≤ 16 → ∃ text, bufPrint 3 (decimal code) = Some text ∧ parseGrpcStatus text = code.
Proof.
  intros H. assert (Hc : forallb (λ n, match bufPrint 3 (decimal (Z.of_nat n)) with
    | Some text => parseGrpcStatus text =? Z.of_nat n | None => false end) (seq 0 17) = true)
    by (vm_compute; reflexivity).
  rewrite forallb_forall in Hc. specialize (Hc (Z.to_nat code)). rewrite Z2Nat.id in Hc by lia.
  specialize (Hc ltac:(apply in_seq; lia)). destruct (bufPrint 3 (decimal code)) as [text|]; [|done].
  exists text. split; [done|]. by apply Z.eqb_eq.
Qed.

#[local] Opaque charged_size.

Lemma finish_response s :
  rs_block_kind s = kind_response → rs_block_grpc_status s = None → rs_block_grpc_message s = None →
  finishClientHeaderBlock false s =
  (true, s <| rs_initial_metadata := rs_initial_metadata s ++ rs_block_metadata s |> <| rs_block_kind := kind_none |>).
Proof. destruct s. simpl. by intros -> -> ->. Qed.

Lemma finish_trailers s n message :
  rs_block_kind s = kind_trailers → rs_block_grpc_status s = Some n → rs_block_grpc_message s = Some message →
  finishClientHeaderBlock true s =
  (true, s <| rs_trailing_metadata := rs_trailing_metadata s ++ rs_block_metadata s |>
           <| rs_grpc_status := Some n |> <| rs_grpc_message := Some message |>
           <| rs_block_grpc_message := None |> <| rs_block_kind := kind_none |>).
Proof. destruct s. simpl. by intros -> -> ->. Qed.

(** What trailers do not change *)
Record same_head (s s' : ResponseState) : Prop := {
  sh_saw : rs_saw_response_headers s' = rs_saw_response_headers s;
  sh_http : rs_http_status s' = rs_http_status s;
  sh_encoding : rs_encoding_invalid s' = rs_encoding_invalid s;
  sh_metadata : rs_metadata_invalid s' = rs_metadata_invalid s;
  sh_forced : rs_forced_status s' = rs_forced_status s }.

(** The state after a response block with metadata [es] *)
Record after_response (c : Compression) (es : entries) (s : ResponseState) : Prop := {
  ar_head : same_head (ResponseState_init <| rs_saw_response_headers := true |> <| rs_http_status := Some 200 |>) s;
  ar_type : rs_content_type_grpc s = true;
  ar_compression : rs_response_compression s = c;
  ar_initial : rs_initial_metadata s = es;
  ar_trailing : rs_trailing_metadata s = [] }.

Lemma receive_response c es :
  Forall (λ e, isResponseMetadata e.1 = true ∧ valid_entry e = true) es →
  charged_size (response_fixed c ++ map metadata_field es) ≤ limit →
  ∃ s, receive_block limit kind_response false (response_fixed c ++ map metadata_field es) ResponseState_init =
      Some (true, s) ∧
    after_response c es s ∧ sized s ∧ rs_header_list_size s = charged_size (response_fixed c ++ map metadata_field es).
Proof.
  intros Hm Hs. unfold receive_block. rewrite charged_size_app in *.
  pose proof (charged_size_nonneg (map metadata_field es)). pose proof (charged_size_nonneg (response_fixed c)).
  set (s0 := onBeginHeaders kind_response ResponseState_init).
  assert (Hz : rs_header_list_size s0 = 0 ∧ sized s0) by (split; [done|by split]). destruct Hz as [Hz Hz'].
  rewrite fields_app, client_fields_fixed by (done || lia). rewrite Hz. cbn [mbind option_bind].
  destruct (client_fields_metadata es (s0 <| rs_http_status := Some 200 |> <| rs_content_type_grpc := true |>
    <| rs_response_compression := c |> <| rs_header_list_size := 0 + charged_size (response_fixed c) |>))
    as (retained & Hr & Hf); [done|split; simpl; [lia|done|done]|simpl; lia|].
  rewrite Hf. cbn [mbind option_bind]. rewrite finish_response by done. eexists. split; [reflexivity|].
  split; [split; [by split|done..]|]. split; [split; [simpl in *; lia|done..]|]. simpl. lia.
Qed.

(** A block of trailers that ends with the status *)
Lemma receive_trailers s es content_type code message n :
  Forall (λ e, isResponseMetadata e.1 = true ∧ valid_entry e = true) es → sized s →
  parseGrpcStatus (to_octets code) = n →
  rs_header_list_size s + charged_size (map metadata_field es ++ status_fields content_type code message) ≤ limit →
  ∃ s', receive_block limit kind_trailers true
      (map metadata_field es ++ status_fields content_type code message) s = Some (true, s') ∧
    same_head s s' ∧ rs_content_type_grpc s' = type_after content_type (rs_content_type_grpc s) ∧
    rs_grpc_status s' = Some n ∧ rs_grpc_message s' = Some message ∧
    rs_trailing_metadata s' = rs_trailing_metadata s ++ es.
Proof.
  intros He Hz Hp Hs. rewrite charged_size_app in Hs. unfold receive_block. rewrite fields_app.
  pose proof (charged_size_nonneg (map metadata_field es)).
  pose proof (charged_size_nonneg (status_fields content_type code message)).
  set (s0 := onBeginHeaders kind_trailers s).
  assert (Hz' : rs_header_list_size s0 = rs_header_list_size s ∧ sized s0) by (destruct Hz; split; [done|by split]).
  destruct Hz' as [El Hz'].
  destruct (client_fields_metadata es s0) as (retained & Hr & ->); [done|done|lia|]. cbn [mbind option_bind].
  rewrite (client_fields_status content_type code message _ n); [|destruct Hz'; split; simpl in *; [lia|done|done]|done|simpl; lia].
  cbn [mbind option_bind]. rewrite (finish_trailers _ n message) by done. eexists. split; [reflexivity|].
  split; [by split|]. done.
Qed.
End Response.

(** ** Properties *)

(** C8. A request arrives as it was made: when the client accepts the metadata of a call
    and its headers fit the server's limit of 64 KiB, the server reads off them the
    method, the compression, exactly the metadata in its order, and a deadline that is
    not before the client's, and starts the call. *)
Theorem request_headers_roundtrip r es timeout now :
  request_metadata es = Some (rh_metadata r) → rh_timeout_header r = timeout_header timeout →
  block_size (submitClientStream r) ≤ 65536 →
  (∀ t, timeout = Some t → in_u64 t ∧ 0 < t ∧ 0 ≤ now ∧ now + t ≤ u64_max) →
  ∃ s, fields (server_onHeader plenty now) (submitClientStream r) RequestState_init = Some s ∧
    startStreaming_check now s = inr (rh_compression r) ∧
    rq_path s = Some (rh_path r) ∧ rq_metadata s = es ∧ rq_accepts_response_gzip s = true ∧
    match timeout, rq_deadline s with
    | None, None => True
    | Some t, Some d => now + t ≤ expires_at_ns d
    | _, _ => False
    end.
Proof.
  intros Hm Ht Hs Htime. unfold request_metadata in Hm. destruct (forallb _ es) eqn:Ef; [|done].
  injection Hm as Hm. assert (He : Forall (λ e, isRequestMetadata e.1 = true ∧ valid_entry e = true) (rh_metadata r)).
  { rewrite <- Hm. apply Forall_forall. intros e He%list_elem_of_In. rewrite forallb_forall in Ef.
    specialize (Ef e He). by apply andb_true_iff in Ef. }
  rewrite server_fields_process by done. unfold submitClientStream. rewrite Ht, !server_process_app.
  rewrite server_process_fixed. cbn [mbind option_bind]. rewrite server_process_app.
  destruct timeout as [t|].
  - destruct (Htime t eq_refl) as (Hu & Hpos & Hn & Hsum).
    destruct (timeout_header_received t Hu) as (t' & Hp & Hle & Hz).
    rewrite (proj2 (Z.eqb_neq _ _) Hz), (server_process_timeout _ _ t') by done. cbn [mbind option_bind].
    rewrite server_process_metadata by done.
    eexists. split; [reflexivity|]. destruct (initAfter_ok now now t t') as [Hx _]; [lia..|].
    split; [unfold startStreaming_check; simpl; by rewrite Hx|]. simpl. split_and!; try done.
    unfold sat_add. lia.
  - change (zlen (timeout_header None) =? 0) with true. cbv iota.
    change (server_process plenty now []) with (@Some RequestState). cbn [mbind option_bind].
    rewrite server_process_metadata by done.
    eexists. split; [reflexivity|]. done.
Qed.

#[local] Opaque charged_size.

Lemma valid_content_type value :
  isValidAsciiValue value = true → valid_entry ("content-type"%string, value) = true.
Proof. intros H. unfold valid_entry. cbn [fst snd]. by rewrite H, orb_true_r. Qed.

(** How a call ends, with or without a [content-type] behind the trailing metadata *)
Lemma call_outcome limit c initial trailing content_type status :
  limit ≤ u32_max → Forall (λ e, valid_entry e = true) initial →
  Forall (λ e, valid_entry e = true ∧ e.1 ≠ "content-type"%string) trailing →
  0 ≤ status_code status ≤ 16 →
  (∀ value, content_type = Some value → isValidAsciiValue value = true) →
  ∃ trailers, submitTrailers true status
      (trailing ++ option_list ((λ value, ("content-type"%string, value)) <$> content_type)) = Some trailers ∧
    (charged_size (submitStreamingResponse c initial) + charged_size trailers ≤ limit →
     ∃ s1 s2, receive_block limit kind_response false (submitStreamingResponse c initial) ResponseState_init =
         Some (true, s1) ∧
       rs_response_compression s1 = c ∧
       rs_initial_metadata s1 = filter (λ e : field, e.1 ≠ "content-type"%string) initial ∧
       receive_block limit kind_trailers true trailers s1 = Some (true, s2) ∧
       rs_trailing_metadata s2 = trailing ∧
       final_status true true s2 = if type_after content_type true then status
                                   else mkStatus StatusCode.Unknown "invalid gRPC content-type").
Proof.
  intros Hl Hi Ht Hc Hv. destruct (status_header _ Hc) as (text & Eb & Ep).
  set (encoded := concat (map encode_byte (to_octets (status_message status)))).
  assert (Hs : submitTrailers true status
      (trailing ++ option_list ((λ value, ("content-type"%string, value)) <$> content_type)) =
    Some (map metadata_field trailing ++ status_fields content_type (of_octets text) (of_octets encoded))).
  { unfold submitTrailers. rewrite Eb. cbn [mbind option_bind encode]. rewrite sent_trailing.
    - rewrite map_app, <- app_assoc. by destruct content_type.
    - apply Forall_app. split; [eapply Forall_impl; [exact Ht|]; naive_solver|].
      destruct content_type as [value|]; [|done]. constructor; [|done]. by apply valid_content_type, Hv. }
  eexists. split; [exact Hs|]. intros Hn. unfold submitStreamingResponse in *.
  destruct (sent_initial initial Hi) as [Ef Hm]. rewrite Ef in *. fold (response_fixed c) in *.
  pose proof (charged_size_nonneg (map metadata_field trailing ++
    status_fields content_type (of_octets text) (of_octets encoded))).
  destruct (receive_response limit Hl c _ Hm) as (s1 & H1 & [Hh1 Hy1 Hc1 Hi1 Ht1] & Hz & Hsz); [lia|].
  pose proof (charged_size_nonneg (response_fixed c ++ map metadata_field (filter (λ e : field, e.1 ≠ "content-type"%string) initial))).
  destruct (receive_trailers limit Hl s1 trailing content_type (of_octets text) (of_octets encoded) (status_code status))
    as (s2 & H2 & Hh2 & Hy2 & Hg & Hg2 & Ht2); [|done|by rewrite to_of_octets|rewrite Hsz; lia|].
  { eapply Forall_impl; [exact Ht|]. intros e [He Hne]. split; [|done].
    destruct (valid_names e He) as (_ & _ & ->). by apply negb_true_iff, String.eqb_neq. }
  exists s1, s2. split; [done|]. split; [done|]. split; [done|]. split; [done|]. split; [by rewrite Ht2, Ht1|].
  destruct Hh1 as [A1 A2 A4 A5 A6], Hh2 as [B1 B2 B4 B5 B6].
  unfold final_status. rewrite B6, A6, B1, A1, B2, A2, Hy2, Hy1, B4, A4, B5, A5, Hg, Hg2. simpl.
  rewrite to_of_octets. unfold encoded. rewrite decode_encode, of_to_octets. unfold Code_fromInt.
  rewrite (proj2 (Z.leb_le _ _)) by lia. destruct (type_after content_type true); [by destruct status|done].
Qed.

(** C9. A response arrives as it was made, for metadata of valid entries and trailing
    metadata without [content-type] (with that key the call fails), and as long as the
    headers and trailers together fit the client's limit: the client has the
    compression of the response, the handler's initial metadata in order without its
    [content-type] entries, which the server does not send, exactly its trailing
    metadata, and its status, code and message, whatever bytes the message holds. *)
Theorem response_roundtrip limit c initial trailing status :
  limit ≤ u32_max → Forall (λ e, valid_entry e = true) initial →
  Forall (λ e, valid_entry e = true ∧ e.1 ≠ "content-type"%string) trailing →
  0 ≤ status_code status ≤ 16 →
  ∃ trailers, submitTrailers true status trailing = Some trailers ∧
    (charged_size (submitStreamingResponse c initial) + charged_size trailers ≤ limit →
     ∃ s1 s2, receive_block limit kind_response false (submitStreamingResponse c initial) ResponseState_init =
         Some (true, s1) ∧
       rs_response_compression s1 = c ∧
       rs_initial_metadata s1 = filter (λ e : field, e.1 ≠ "content-type"%string) initial ∧
       receive_block limit kind_trailers true trailers s1 = Some (true, s2) ∧
       rs_trailing_metadata s2 = trailing ∧ final_status true true s2 = status).
Proof.
  intros Hl Hi Ht Hc. destruct (call_outcome limit c initial trailing None status) as (trailers & Hs & H);
    [done|done|done|done|discriminate|].
  rewrite app_nil_r in Hs. exists trailers. split; [done|]. intros Hn.
  destruct (H Hn) as (s1 & s2 & H1 & H2 & H3 & H4 & H5 & H6). by exists s1, s2.
Qed.

(** C39. A handler can make its own call fail: [content-type], with a value that does not
    start with [application/grpc], is accepted as trailing metadata and sent, unlike in initial metadata; the client takes it for the type of
    the response, and a call that succeeded, or failed with some status, ends as
    UNKNOWN for an invalid content type. *)
Theorem content_type_trailer_fails_call limit c initial trailing value status :
  limit ≤ u32_max → Forall (λ e, valid_entry e = true) initial →
  Forall (λ e, valid_entry e = true ∧ e.1 ≠ "content-type"%string) trailing →
  0 ≤ status_code status ≤ 16 →
  isValidAsciiValue value = true → starts_with "application/grpc" value = false →
  valid_entry ("content-type"%string, value) = true ∧
  ∃ trailers, submitTrailers true status (trailing ++ [("content-type"%string, value)]) = Some trailers ∧
    (charged_size (submitStreamingResponse c initial) + charged_size trailers ≤ limit →
     ∃ s1 s2, receive_block limit kind_response false (submitStreamingResponse c initial) ResponseState_init =
         Some (true, s1) ∧
       receive_block limit kind_trailers true trailers s1 = Some (true, s2) ∧
       final_status true true s2 = mkStatus StatusCode.Unknown "invalid gRPC content-type").
Proof.
  intros Hl Hi Ht Hc Hv Hg. split; [by apply valid_content_type|].
  destruct (call_outcome limit c initial trailing (Some value) status) as (trailers & Hs & H);
    [done|done|done|done|by intros ? [= <-]|].
  exists trailers. split; [done|]. intros Hn. destruct (H Hn) as (s1 & s2 & H1 & _ & _ & H4 & _ & H6).
  exists s1, s2. split; [done|]. split; [done|]. cbn [type_after] in H6. by rewrite Hg in H6.
Qed.

(** ** Examples *)

Definition example_metadata : entries := [("x-id", "7"); ("trace-bin", "a,b"); ("x-id", "8")]%string.

Definition example_request : RequestHead :=
  mkRequestHead false "/pkg.Service/Method" "localhost:80" Gzip "grpc-lite" (timeout_header (Some 5000000000))
    example_metadata.

Lemma request_headers_roundtrip_witness :
  timeout_header (Some 5000000000) = "5000000u"%string ∧
  ∃ s, fields (server_onHeader plenty 100) (submitClientStream example_request) RequestState_init = Some s ∧
    startStreaming_check 100 s = inr Gzip ∧ rq_path s = Some "/pkg.Service/Method"%string ∧
    rq_metadata s = example_metadata ∧ rq_accepts_response_gzip s = true ∧
    match rq_deadline s with Some d => 100 + 5000000000 ≤ expires_at_ns d | None => False end.
Proof.
  split; [vm_compute; reflexivity|].
  apply (request_headers_roundtrip example_request example_metadata (Some 5000000000) 100).
  - vm_compute. reflexivity.
  - reflexivity.
  - vm_compute. discriminate.
  - intros t [= <-]. unfold in_u64, u64_max. lia.
Defined.

Definition example_status : Status := mkStatus StatusCode.NotFound "50% gone"%string.

Lemma response_roundtrip_witness :
  ∃ trailers, submitTrailers true example_status example_metadata = Some trailers ∧
    (charged_size (submitStreamingResponse Gzip example_metadata) + charged_size trailers ≤ 8192 →
     ∃ s1 s2, receive_block 8192 kind_response false (submitStreamingResponse Gzip example_metadata)
         ResponseState_init = Some (true, s1) ∧
       rs_response_compression s1 = Gzip ∧
       rs_initial_metadata s1 = filter (λ e : field, e.1 ≠ "content-type"%string) example_metadata ∧
       receive_block 8192 kind_trailers true trailers s1 = Some (true, s2) ∧
       rs_trailing_metadata s2 = example_metadata ∧ final_status true true s2 = example_status).
Proof.
  apply (response_roundtrip 8192 Gzip example_metadata example_metadata example_status).
  - vm_compute. discriminate.
  - repeat constructor.
  - repeat constructor; discriminate.
  - vm_compute. split; discriminate.
Defined.

Lemma content_type_trailer_fails_call_witness :
  valid_entry ("content-type", "text/plain")%string = true ∧
  ∃ trailers, submitTrailers true Status_default ([] ++ [("content-type", "text/plain")%string]) = Some trailers ∧
    (charged_size (submitStreamingResponse Identity []) + charged_size trailers ≤ 8192 →
     ∃ s1 s2, receive_block 8192 kind_response false (submitStreamingResponse Identity []) ResponseState_init =
         Some (true, s1) ∧
       receive_block 8192 kind_trailers true trailers s1 = Some (true, s2) ∧
       final_status true true s2 = mkStatus StatusCode.Unknown "invalid gRPC content-type").
Proof.
  apply (content_type_trailer_fails_call 8192 Identity [] [] "text/plain" Status_default).
  - vm_compute. discriminate.
  - constructor.
  - constructor.
  - vm_compute. split; discriminate.
  - reflexivity.
  - reflexivity.
Defined.
