(* ===== verification/TypedCall.v ===== *)
(** * The state the typed server calls share

    [TypedCallState] ([cpp/typed_service.hpp]): the C++ object behind a typed
    server call.  Application threads call its operations, the reactor calls
    [OnWritable], [OnCancel] and [OnTerminal]; [mutex_] makes them exclude each
    other.  An operation that calls the transport while it holds the mutex is
    [Code], so the reactor may still work on the call in the meantime, up to a
    callback that needs the mutex.

    [CallWorld] is the call as a whole: the transport's part, the C++ object, the
    reactor callback that waits for the mutex, and the application callbacks made
    so far.  Its steps are the operations, the reactor's events and the
    callbacks, in any order. *)

From S2P Require Import Prelude Status Metadata ServerTransport.

Local Open Scope Z_scope.

(** ** Data *)

(** A [std::function] the application registers, by an identity; an empty one is
    [None]. *)
Abbreviation Function := (option nat).

(** The calls of application callbacks *)
Inductive Invocation : Type :=
  | InvWritable (f : nat)
  | InvCancel (f : nat)
  | InvTerminal (f : nat) (reason : ServerTerminalReason).

#[export] Instance Invocation_eq_dec : EqDecision Invocation.
Proof. solve_decision. Defined.

(** [tcs_call] is whether [call_] holds the call's handle. *)
Record TypedCallState := mkTypedCallState {
  tcs_call : bool;
  tcs_on_writable : Function;
  tcs_on_cancel : Function;
  tcs_on_terminal : Function;
  tcs_writable : bool;
  tcs_cancelled : bool;
  tcs_terminal : bool;
  tcs_finish_submitted : bool;
  tcs_initial_metadata_sent : bool;
  tcs_terminal_reason : option ServerTerminalReason }.

#[export] Instance eta_TypedCallState : Eta TypedCallState := λ s,
  mkTypedCallState (tcs_call s) (tcs_on_writable s) (tcs_on_cancel s) (tcs_on_terminal s)
    (tcs_writable s) (tcs_cancelled s) (tcs_terminal s) (tcs_finish_submitted s)
    (tcs_initial_metadata_sent s) (tcs_terminal_reason s).

(** The constructor, from a retained call *)
Definition TypedCallState_init : TypedCallState :=
  mkTypedCallState true None None None true false false false false None.

(** ** Operations *)

Definition TypedCallState_cancelled (s : TypedCallState) : Code bool :=
  if tcs_cancelled s then Done true else ServerCall_cancelled (tcs_call s).

Definition TypedCallState_terminal (s : TypedCallState) : Code bool :=
  if tcs_finish_submitted s || tcs_terminal s then Done true
  else ServerCall_terminal (tcs_call s).

Definition TypedCallState_SendInitialMetadata (metadata : entries) (compression : Compression)
    (s : TypedCallState) : Code (Error * TypedCallState) :=
  if tcs_terminal s || tcs_finish_submitted s then Done (mkError ErrorCode.Closed, s)
  else if tcs_initial_metadata_sent s then Done (mkError ErrorCode.InvalidState, s)
  else
    error ← ServerCall_SendInitialMetadata (tcs_call s) metadata compression;
    Done (error, if Error_ok error then s <| tcs_initial_metadata_sent := true |> else s).

Definition TypedCallState_EnsureInitialMetadata (compression : Compression)
    (s : TypedCallState) : Code (Error * TypedCallState) :=
  if tcs_initial_metadata_sent s then Done (Error_default, s)
  else
    error ← ServerCall_SendInitialMetadata (tcs_call s) [] compression;
    Done (error, if Error_ok error then s <| tcs_initial_metadata_sent := true |> else s).

Definition TypedCallState_Send (payload : string) (compression : Compression)
    (s : TypedCallState) : Code (Error * TypedCallState) :=
  if tcs_terminal s || tcs_finish_submitted s then Done (mkError ErrorCode.Closed, s)
  else
    r ← TypedCallState_EnsureInitialMetadata compression s;
    let '(metadata_error, s1) := r in
    if negb (Error_ok metadata_error) then Done (metadata_error, s1)
    else
      error ← ServerCall_Send (tcs_call s1) payload compression;
      Done (error, if error_code error =? ErrorCode.WouldBlock
                   then s1 <| tcs_writable := false |> else s1).

Definition TypedCallState_Finish (status : Status) (trailing_metadata : entries)
    (s : TypedCallState) : Code (Error * TypedCallState) :=
  if tcs_terminal s || tcs_finish_submitted s then Done (mkError ErrorCode.Closed, s)
  else
    r ← TypedCallState_EnsureInitialMetadata Identity s;
    let '(metadata_error, s1) := r in
    if negb (Error_ok metadata_error) then Done (metadata_error, s1)
    else
      error ← ServerCall_Finish (tcs_call s1) status trailing_metadata;
      Done (error, if Error_ok error then s1 <| tcs_finish_submitted := true |> else s1).

Definition TypedCallState_ResumeReceive (s : TypedCallState) : Code (Error * TypedCallState) :=
  if tcs_terminal s || tcs_finish_submitted s then Done (mkError ErrorCode.Closed, s)
  else error ← ServerCall_ResumeReceive (tcs_call s); Done (error, s).

(** The setters and the reactor's callbacks return the new state and the
    application callbacks they make once the mutex is released. *)

Definition TypedCallState_SetOnWritable (callback : Function) (s : TypedCallState)
  : TypedCallState * list Invocation :=
  let invoke := tcs_writable s && negb (tcs_cancelled s) && negb (tcs_terminal s) in
  (if negb (tcs_terminal s) then s <| tcs_on_writable := callback |> else s,
   match callback with Some f => if invoke then [InvWritable f] else [] | None => [] end).

Definition TypedCallState_SetOnCancel (callback : Function) (s : TypedCallState)
  : TypedCallState * list Invocation :=
  let invoke := tcs_cancelled s in
  (if negb invoke && negb (tcs_terminal s) then s <| tcs_on_cancel := callback |> else s,
   match callback with Some f => if invoke then [InvCancel f] else [] | None => [] end).

Definition TypedCallState_SetOnTerminal (callback : Function) (s : TypedCallState)
  : TypedCallState * list Invocation :=
  match tcs_terminal_reason s with
  | None => (s <| tcs_on_terminal := callback |>, [])
  | Some reason =>
      (s, match callback with Some f => [InvTerminal f reason] | None => [] end)
  end.

(** [WaitForWritable] returns when its predicate holds; [None] while it waits. *)
Definition TypedCallState_WaitForWritable (s : TypedCallState) : option bool :=
  if tcs_writable s || tcs_cancelled s || tcs_terminal s
  then Some (tcs_writable s && negb (tcs_cancelled s) && negb (tcs_terminal s))
  else None.

Definition TypedCallState_OnWritable (s : TypedCallState) : TypedCallState * list Invocation :=
  (s <| tcs_writable := true |>,
   match tcs_on_writable s with Some f => [InvWritable f] | None => [] end).

Definition TypedCallState_OnCancel (s : TypedCallState) : TypedCallState * list Invocation :=
  (s <| tcs_cancelled := true |>,
   match tcs_on_cancel s with Some f => [InvCancel f] | None => [] end).

Definition TypedCallState_OnTerminal (reason : ServerTerminalReason) (s : TypedCallState)
  : TypedCallState * list Invocation :=
  (s <| tcs_terminal := true |>
     <| tcs_terminal_reason := Some reason |>
     <| tcs_call := false |>
     <| tcs_on_writable := None |>
     <| tcs_on_cancel := None |>
     <| tcs_on_terminal := None |>,
   match tcs_on_terminal s with Some f => [InvTerminal f reason] | None => [] end).

(** ** The call as a system *)

Inductive CallOp : Type :=
  | CallSendInitialMetadata (metadata : entries) (compression : Compression)
  | CallSend (payload : string) (compression : Compression)
  | CallFinish (status : Status) (trailing_metadata : entries)
  | CallResumeReceive.

Definition call_op (op : CallOp) : TypedCallState → Code (Error * TypedCallState) :=
  match op with
  | CallSendInitialMetadata metadata c => TypedCallState_SendInitialMetadata metadata c
  | CallSend payload c => TypedCallState_Send payload c
  | CallFinish status trailing => TypedCallState_Finish status trailing
  | CallResumeReceive => TypedCallState_ResumeReceive
  end.

Record CallWorld := mkCallWorld {
  cw_transport : TransportCall;
  cw_state : TypedCallState;
  cw_waiting : option Callback;
  cw_log : list Invocation }.

#[export] Instance eta_CallWorld : Eta CallWorld := λ w,
  mkCallWorld (cw_transport w) (cw_state w) (cw_waiting w) (cw_log w).

(** A call of a typed method, as [on_start] creates it: explicit initial metadata,
    receiving not paused. *)
Definition start_world (l : Limits) (accepts_gzip : bool) : CallWorld :=
  mkCallWorld (start_call l true false accepts_gzip) TypedCallState_init None [].

Inductive CallLabel : Type :=
  | LOp (op : CallOp) (turns : list Turn)
  | LSetOnWritable (f : Function)
  | LSetOnCancel (f : Function)
  | LSetOnTerminal (f : Function)
  | LReactor (e : ReactorEvent)
  | LCallback (action : ReceiveAction).

Definition invoke (w : CallWorld) (r : TypedCallState * list Invocation) : CallWorld :=
  w <| cw_state := r.1 |> <| cw_log := cw_log w ++ r.2 |>.

(** The C++ side of a waiting reactor callback *)
Definition on_callback (cb : Callback) (s : TypedCallState)
  : TypedCallState * list Invocation :=
  match cb with
  | CbWritable => TypedCallState_OnWritable s
  | CbCancel => TypedCallState_OnCancel s
  | CbTerminal reason => TypedCallState_OnTerminal reason s
  | CbMessage _ | CbRemoteEnd => (s, [])
  end.

(** Its end; [on_message] returns what to do next. *)
Definition callback_return (cb : Callback) (action : ReceiveAction) (t : TransportCall)
  : TransportCall :=
  match cb with CbMessage _ => t <| tc_message_action := Some action |> | _ => t end.

(** A waiting callback that does not find the C++ object: [Find] of
    [TypedMethodRegistration] retains the call first, which takes memory.  A message is
    answered with [Pause]; the other callbacks do nothing.  The terminal callback looks
    the call up by its id and finds it. *)
Definition lose_callback (w : CallWorld) : option CallWorld :=
  match cw_waiting w with
  | None | Some (CbTerminal _) => None
  | Some cb => Some (w <| cw_waiting := None |> <| cw_transport := callback_return cb Pause (cw_transport w) |>)
  end.

Section World.
Context {GZ : GzipSize}.

(** Running one operation: its result and the world after it. *)
Definition run_op {A} (op : TypedCallState → Code (A * TypedCallState)) (turns : list Turn)
    (w : CallWorld) : A * CallWorld :=
  let '(a, s, t, waiting) := run_code (op (cw_state w)) turns (cw_transport w) (cw_waiting w) in
  (a, w <| cw_transport := t |> <| cw_state := s |> <| cw_waiting := waiting |>).

Definition call_step (w : CallWorld) (l : CallLabel) : option CallWorld :=
  match l with
  | LOp op turns => Some (run_op (call_op op) turns w).2
  | LSetOnWritable f => Some (invoke w (TypedCallState_SetOnWritable f (cw_state w)))
  | LSetOnCancel f => Some (invoke w (TypedCallState_SetOnCancel f (cw_state w)))
  | LSetOnTerminal f => Some (invoke w (TypedCallState_SetOnTerminal f (cw_state w)))
  | LReactor e =>
      match cw_waiting w with
      | Some _ => None
      | None =>
          match reactor (cw_transport w) e with
          | None => None
          | Some (t, cb) =>
              Some (w <| cw_transport := t |>
                      <| cw_waiting := cb |>)
          end
      end
  | LCallback action =>
      match cw_waiting w with
      | None => None
      | Some cb =>
          Some (invoke (w <| cw_waiting := None |>
                          <| cw_transport := callback_return cb action (cw_transport w) |>)
                  (on_callback cb (cw_state w)))
      end
  end.

(** ** The invariant of the call *)

Definition is_terminal_cb (w : option Callback) : bool :=
  match w with Some (CbTerminal _) => true | _ => false end.

Definition is_cancel_cb (w : option Callback) : bool :=
  match w with Some CbCancel => true | _ => false end.

(** Whether some callback has not reached the C++ object, which may then wait for the
    call to become writable without being told *)
Context {lost : bool}.

(** What the C++ object [s] knows agrees with the transport [t], up to the
    callback [w] that waits for the mutex. *)
Record world_inv (s : TypedCallState) (t : TransportCall) (w : option Callback) : Prop := {
  wi_transport : transport_inv t;
  wi_explicit : tc_explicit t = true;
  wi_phase : ∀ p, response_phase t = Some p →
    tcs_initial_metadata_sent s = negb (bool_decide (p = PStart)) ∧
    tcs_finish_submitted s = bool_decide (p = PFinished);
  wi_call : tcs_call s = negb (tcs_terminal s);
  wi_terminal : tc_terminal t = tcs_terminal s || is_terminal_cb w;
  wi_terminal_once : tcs_terminal s = true → is_terminal_cb w = false;
  wi_target : tc_target t = negb (tc_terminal t);
  wi_commands : tc_target t = false → tc_commands t = [];
  wi_reason : ∀ r, w = Some (CbTerminal r) → r = tc_terminal_reason t;
  wi_reason_seen : tcs_terminal_reason s =
    if tcs_terminal s then Some (tc_terminal_reason t) else None;
  wi_cancelled : tcs_cancelled s || is_cancel_cb w = true → tc_cancelled t = true;
  wi_cancel_once : tcs_cancelled s = true → is_cancel_cb w = false;
  wi_cancel_called : tc_cancel_called t = tc_cancelled t;
  wi_cancel_live : is_cancel_cb w = true → tcs_terminal s = false;
  wi_writable : lost = false → tcs_writable s = false → call_open t = true →
    tc_writable_requested t = true ∨ w = Some CbWritable;
  wi_action : tc_message_callback_active t = true → tc_message_action t = None →
    ∃ m, w = Some (CbMessage m) }.

Lemma world_inv_start l gz :
  0 ≤ max_outbound_buffer_size l →
  world_inv TypedCallState_init (start_call l true false gz) None.
Proof.
  intros Hl. constructor; try done; [by apply transport_inv_start|].
  intros p [= <-]. done.
Qed.

(** What the reactor does to the fields the invariant reads. *)
Lemma reactor_frame t e t' cb :
  tc_target t = negb (tc_terminal t) → reactor t e = Some (t', cb) →
  tc_history t' = tc_history t ∧ tc_explicit t' = tc_explicit t ∧
  (call_open t' = true → call_open t = true) ∧
  (tc_target t = false → tc_target t' = false ∧ (tc_commands t = [] →
     tc_commands t' = [] ∧ tc_terminal_reason t' = tc_terminal_reason t)) ∧
  (tc_message_callback_active t' = true → tc_message_action t' = None →
     (∃ m, cb = Some (CbMessage m)) ∨
     (tc_message_callback_active t = true ∧ tc_message_action t = None)) ∧
  match cb with
  | None | Some (CbMessage _) | Some CbRemoteEnd => tc_target t' = tc_target t ∧ tc_terminal t' = tc_terminal t ∧
            tc_cancelled t' = tc_cancelled t ∧ tc_cancel_called t' = tc_cancel_called t ∧
            tc_writable_requested t' = tc_writable_requested t
  | Some CbWritable =>
            tc_target t' = tc_target t ∧ tc_terminal t' = tc_terminal t ∧
            tc_cancelled t' = tc_cancelled t ∧ tc_cancel_called t' = tc_cancel_called t
  | Some CbCancel =>
            tc_target t = true ∧ tc_target t' = true ∧ tc_terminal t' = tc_terminal t ∧
            tc_cancel_called t = false ∧ tc_cancelled t' = true ∧ tc_cancel_called t' = true ∧
            tc_finish_queued t' = true
  | Some (CbTerminal r) =>
            tc_target t = true ∧ tc_target t' = false ∧ tc_terminal t = false ∧
            tc_terminal t' = true ∧
            tc_cancelled t' = tc_cancelled t ∧ tc_cancel_called t' = tc_cancel_called t ∧
            tc_commands t' = [] ∧ r = tc_terminal_reason t'
  end.
Proof.
  intros Ht. unfold reactor.
  destruct e; unfold processStreamCommand, failStreaming, releaseOutboundReservation,
    cancelStreaming, forceAbortStreaming, retireStream, discardStreamCommands;
    repeat case_match; intros; simplify_eq/=; try done;
    rewrite ?call_open_spec, ?andb_true_iff in *; simpl;
    intuition first [congruence|left; by eexists].
Qed.

Lemma world_inv_stable s : reactor_stable (world_inv s).
Proof.
  intros t e t' cb Hi Hr. pose proof (reactor_inv _ _ _ _ (wi_transport _ _ _ Hi) Hr) as Hti.
  pose proof (reactor_frame _ _ _ _ (wi_target _ _ _ Hi) Hr) as (Eh & Ee & Eo & Et & Ea & Hcb).
  destruct Hi as [_ Hex Hph Hcall Hterm Hterm1 Htgt Hcmd Hrsn Hseen Hcan Hcan1 Hcc Hlive Hwr Hact].
  assert (Hph' : response_phase t' = response_phase t).
  { unfold response_phase. by rewrite Eh, Ee. }
  simpl in *. rewrite orb_false_r in *.
  assert (Hdead : tc_target t = false → tc_commands t' = [] ∧
                  tc_terminal_reason t' = tc_terminal_reason t).
  { intros Hd. apply Et; auto. }
  assert (Hseen' : tcs_terminal_reason s =
                   if tcs_terminal s then Some (tc_terminal_reason t') else None).
  { rewrite Hseen. destruct (tcs_terminal s); [|done].
    destruct Hdead as [_ ->]; [by rewrite Htgt, Hterm|done]. }
  assert (Hact' : tc_message_callback_active t' = true → tc_message_action t' = None →
                  ∃ m, cb = Some (CbMessage m)).
  { intros Ha Hn. destruct (Ea Ha Hn) as [?|[Ha' Hn']]; [done|]. by destruct (Hact Ha' Hn'). }
  clear Ea Hact. destruct cb as [[m| | | |r]|]; destruct_and?.
  all: constructor; rewrite ?Hph'; simpl; rewrite ?orb_false_r, ?orb_true_r; try congruence; try done.
  all: try (intuition congruence).
  all: try (intros; apply Hdead; congruence).
  all: try (intros _ _ Ho; apply call_open_spec in Ho; destruct_and?; congruence).
  - destruct (tcs_terminal s); [|done]. rewrite Hterm in Htgt. simpl in Htgt. congruence.
  - destruct (tc_terminal t'); simpl; congruence.
Qed.

(** A locked section keeps the invariant, up to what it does to the response. *)
Lemma world_inv_exec s sent fin t w op env r t' :
  world_inv s t w → exec_op op env t = (r, t') →
  (∀ p, response_phase t' = Some p →
     sent = negb (bool_decide (p = PStart)) ∧ fin = bool_decide (p = PFinished)) →
  world_inv (s <| tcs_initial_metadata_sent := sent |> <| tcs_finish_submitted := fin |>) t' w.
Proof.
  intros Hi He Hp. pose proof (exec_op_inv op env t (wi_transport _ _ _ Hi)) as Hti.
  pose proof (exec_op_frame op env t) as Hf. rewrite He in Hti, Hf. simpl in *.
  destruct Hi as [_ Hex _ Hcall Hterm Hterm1 Htgt Hcmd Hrsn Hseen Hcan Hcan1 Hcc Hlive Hwr Hact].
  destruct Hf as [Fex Ftgt Fcan Fterm Fcc Fact Faction Frsn Fwr Fopen Fcmd].
  constructor; simpl; try done; try congruence.
  - intros Hd. rewrite Fcmd; [apply Hcmd|]; congruence.
  - by rewrite Frsn.
  - by rewrite Frsn.
  - intros Hs. rewrite Fcan. by apply Hcan.
  - intros Hl Hs Ho. destruct (Hwr Hl Hs); auto.
  - rewrite Fact, Faction. done.
Qed.

Lemma response_phase_same t t' :
  tc_explicit t' = tc_explicit t →
  tc_history t' = tc_history t ∨ tc_history t' = tc_history t ++ [CmdResumeReceive] →
  transport_inv t → response_phase t' = response_phase t.
Proof.
  intros Ee Eh [(p & Hp & _) _ _ _]. rewrite Hp. unfold response_phase in *. rewrite Ee.
  destruct Eh as [->| ->]; [done|]. by rewrite (response_phase_snoc _ _ _ Hp).
Qed.

(** A section that fails, or that queues no command of the response. *)
Lemma world_inv_exec_same s t w op env r t' :
  world_inv s t w → exec_op op env t = (r, t') →
  (r = None → op_command op = None) → world_inv s t' w.
Proof.
  intros Hi He Hr. pose proof (world_inv_exec s (tcs_initial_metadata_sent s)
    (tcs_finish_submitted s) t w op env r t' Hi He) as H. destruct s. apply H. clear H.
  pose proof (exec_op_history _ _ _ _ _ He) as Hh. pose proof (exec_op_frame op env t) as Hf.
  rewrite He in Hf. simpl in Hf.
  rewrite (response_phase_same t t'); [apply Hi|apply Hf| |apply Hi].
  destruct r as [e|]; [done|]. by rewrite Hr in Hh.
Qed.

(** The phases before and after a section that queues a response command. *)
Lemma world_inv_exec_step s t w op env t' c :
  world_inv s t w → exec_op op env t = (None, t') → op_command op = Some c →
  ∃ p p', response_phase t = Some p ∧ response_step p c = Some p' ∧
    response_phase t' = Some p' ∧ p ≠ PFinished.
Proof.
  intros Hi He Hc. pose proof (exec_op_history _ _ _ _ _ He) as Hh. rewrite Hc in Hh.
  destruct Hh as [Ho Hh]. pose proof (wi_transport _ _ _ Hi) as Hti.
  destruct (open_phase _ Hti Ho) as (p & Hp & Hf & _). exists p.
  pose proof (exec_op_inv op env t Hti) as Hti'. rewrite He in Hti'.
  pose proof (exec_op_frame op env t) as Hfr. rewrite He in Hfr. simpl in *.
  destruct (ti_phase _ Hti') as (p' & Hp' & _). exists p'.
  assert (E : response_phase t' = response_step p c).
  { unfold response_phase. rewrite Hh, (of_explicit _ _ Hfr). by apply response_phase_snoc. }
  split_and!; congruence.
Qed.

Lemma world_inv_exec_metadata s t w es c env t' :
  world_inv s t w → exec_op (OpInitialMetadata es c) env t = (None, t') →
  world_inv (s <| tcs_initial_metadata_sent := true |>) t' w.
Proof.
  intros Hi He. destruct (world_inv_exec_step _ _ _ _ _ _ _ Hi He eq_refl) as (p & p' & Hp & Hs & Hp' & _).
  pose proof (world_inv_exec s true (tcs_finish_submitted s) _ _ _ _ _ _ Hi He) as H.
  destruct s. apply H. intros p1. rewrite Hp'. intros [= <-].
  destruct (wi_phase _ _ _ Hi _ Hp) as [_ ->]. by destruct p; simplify_eq/=.
Qed.

Lemma world_inv_exec_send s t w payload c env t' :
  world_inv s t w → exec_op (OpSendCommit payload c) env t = (None, t') → world_inv s t' w.
Proof.
  intros Hi He. destruct (world_inv_exec_step _ _ _ _ _ _ _ Hi He eq_refl) as (p & p' & Hp & Hs & Hp' & _).
  pose proof (world_inv_exec s (tcs_initial_metadata_sent s) (tcs_finish_submitted s)
    _ _ _ _ _ _ Hi He) as H.
  destruct s. apply H. intros p1. rewrite Hp'. intros [= <-].
  destruct (wi_phase _ _ _ Hi _ Hp) as [-> ->]. by destruct p; simplify_eq/=.
Qed.

Lemma world_inv_exec_finish s t w code message trailing env t' :
  world_inv s t w → exec_op (OpFinish code message trailing) env t = (None, t') →
  world_inv (s <| tcs_finish_submitted := true |>) t' w.
Proof.
  intros Hi He. destruct (world_inv_exec_step _ _ _ _ _ _ _ Hi He eq_refl) as (p & p' & Hp & Hs & Hp' & _).
  pose proof (world_inv_exec s (tcs_initial_metadata_sent s) true _ _ _ _ _ _ Hi He) as H.
  destruct s. apply H. intros p1. rewrite Hp'. intros [= <-].
  destruct (wi_phase _ _ _ Hi _ Hp) as [-> _]. by destruct p; simplify_eq/=.
Qed.

(** [WouldBlock] is only reported once the reactor has been asked to call back. *)
Lemma exec_would_block op env t t' :
  exec_op op env t = (Some SE_WouldBlock, t') → tc_writable_requested t' = true.
Proof.
  destruct op; simpl;
    unfold serverCallSendInitialMetadata, serverCallSend_check, serverCallSend_commit,
      checkRetainedSendLocked, encodeWithCompression,
      checkOutboundCapacityLocked, serverCallFinish, serverCallResumeReceive, serverCallAbort,
      enqueue, enqueue_error;
    repeat (case_match; simplify_eq/=; try done).
  all: by intros [= <-].
Qed.

(** ** The operations keep the invariant *)

Lemma c_result_ok r : Error_ok (Error_of_c (c_result r)) = bool_decide (r = None).
Proof. by destruct r as [[]|]. Qed.

Lemma c_result_would_block r :
  (error_code (Error_of_c (c_result r)) =? ErrorCode.WouldBlock) =
  bool_decide (r = Some SE_WouldBlock).
Proof. by destruct r as [[]|]. Qed.

(** A [Code] that is one section whose result is returned. *)
Lemma wp_section (Q : Error → TransportCall → option Callback → Prop) s op t w :
  world_inv s t w →
  (∀ t1 w1 env r t2, world_inv s t1 w1 → exec_op op env t1 = (r, t2) →
     Q (Error_of_c (c_result r)) t2 w1) →
  wp (e ← Locked op (λ r, Done (c_result r)); Done (Error_of_c e)) Q t w.
Proof.
  intros Hi HQ. apply (wp_locked (world_inv s)); [apply world_inv_stable|done|].
  intros. apply wp_done. eauto.
Qed.

Lemma wp_ServerCall_SendInitialMetadata s es c t w :
  world_inv s t w →
  wp (ServerCall_SendInitialMetadata (tcs_call s) es c)
    (λ e t' w', world_inv (if Error_ok e then s <| tcs_initial_metadata_sent := true |> else s)
                  t' w') t w.
Proof.
  intros Hi. unfold ServerCall_SendInitialMetadata. destruct (tcs_call s); [|by apply wp_done].
  unfold grpc_lite_server_call_send_initial_metadata. rewrite parseCompression_value.
  apply (wp_section _ s); [done|]. intros t1 w1 env r t2 Hi1 E. rewrite c_result_ok.
  case_bool_decide as Hr; [subst; by eapply world_inv_exec_metadata|].
  by eapply world_inv_exec_same.
Qed.

Lemma wp_ServerCall_Finish s status es t w :
  world_inv s t w →
  wp (ServerCall_Finish (tcs_call s) status es)
    (λ e t' w', world_inv (if Error_ok e then s <| tcs_finish_submitted := true |> else s)
                  t' w') t w.
Proof.
  intros Hi. unfold ServerCall_Finish. destruct (tcs_call s); [|by apply wp_done].
  unfold grpc_lite_server_call_finish. cbn [negb]. case_match; [by apply wp_done|].
  rewrite bytes_Bytes. apply (wp_section _ s); [done|]. intros t1 w1 env r t2 Hi1 E.
  rewrite c_result_ok. case_bool_decide as Hr; [subst; by eapply world_inv_exec_finish|].
  by eapply world_inv_exec_same.
Qed.

Lemma wp_ServerCall_ResumeReceive s t w :
  world_inv s t w →
  wp (ServerCall_ResumeReceive (tcs_call s)) (λ _ t' w', world_inv s t' w') t w.
Proof.
  intros Hi. unfold ServerCall_ResumeReceive. destruct (tcs_call s); [|by apply wp_done].
  apply (wp_section _ s); [done|]. intros. by eapply world_inv_exec_same.
Qed.

(** What a send leaves behind: when it would block, the reactor knows. *)
Definition send_post (s : TypedCallState) (e : Error) (t : TransportCall) (w : option Callback)
  : Prop :=
  world_inv s t w ∧
  ((error_code e =? ErrorCode.WouldBlock) = true → tc_writable_requested t = true).

Lemma wp_ServerCall_Send s payload c t w :
  world_inv s t w →
  wp (ServerCall_Send (tcs_call s) payload c) (send_post s) t w.
Proof.
  intros Hi. unfold ServerCall_Send. destruct (tcs_call s); [|by apply wp_done].
  unfold grpc_lite_server_call_send. rewrite bytes_Bytes, parseCompression_value.
  apply (wp_locked (world_inv s)); [apply world_inv_stable|done|].
  intros t1 w1 env r t2 Hi1 E. cbn.
  assert (Hi2 : world_inv s t2 w1) by by eapply world_inv_exec_same.
  destruct r as [e|].
  - apply wp_done. split; [done|].
    change (mapServerError e) with (c_result (Some e)). rewrite c_result_would_block.
    rewrite bool_decide_eq_true. intros [= ->]. by eapply exec_would_block.
  - apply (wp_locked (world_inv s)); [apply world_inv_stable|done|].
    intros t3 w3 env3 r3 t4 Hi3 E3. apply wp_done. split.
    + destruct r3; [by eapply world_inv_exec_same|by eapply world_inv_exec_send].
    + rewrite c_result_would_block, bool_decide_eq_true. intros ->. by eapply exec_would_block.
Qed.

Lemma world_inv_would_block s t w :
  world_inv s t w → tc_writable_requested t = true →
  world_inv (s <| tcs_writable := false |>) t w.
Proof. intros [] Hw. constructor; simpl; auto. Qed.

Lemma wp_EnsureInitialMetadata s c t w :
  world_inv s t w →
  wp (TypedCallState_EnsureInitialMetadata c s) (λ r t' w', world_inv r.2 t' w') t w.
Proof.
  intros Hi. unfold TypedCallState_EnsureInitialMetadata. case_match; [by apply wp_done|].
  apply wp_bind. intros turns e t' w' E. apply wp_done.
  by eapply wp_ServerCall_SendInitialMetadata.
Qed.

Lemma wp_call_op op s t w :
  world_inv s t w → wp (call_op op s) (λ r t' w', world_inv r.2 t' w') t w.
Proof.
  intros Hi. destruct op; simpl.
  - unfold TypedCallState_SendInitialMetadata. case_match; [by apply wp_done|].
    case_match; [by apply wp_done|]. apply wp_bind. intros turns e t' w' E. apply wp_done.
    by eapply wp_ServerCall_SendInitialMetadata.
  - unfold TypedCallState_Send. case_match; [by apply wp_done|].
    apply wp_bind. intros turns [e s1] t1 w1 E1. apply wp_EnsureInitialMetadata in E1 as Hi1; [|done].
    case_match; [by apply wp_done|]. apply wp_bind. intros turns2 e2 t2 w2 E2.
    apply wp_ServerCall_Send in E2 as [Hi2 Hw]; [|done]. apply wp_done. simpl.
    case_match; [apply world_inv_would_block; auto|done].
  - unfold TypedCallState_Finish. case_match; [by apply wp_done|].
    apply wp_bind. intros turns [e s1] t1 w1 E1. apply wp_EnsureInitialMetadata in E1 as Hi1; [|done].
    case_match; [by apply wp_done|]. apply wp_bind. intros turns2 e2 t2 w2 E2. apply wp_done.
    by eapply wp_ServerCall_Finish.
  - unfold TypedCallState_ResumeReceive. case_match; [by apply wp_done|].
    apply wp_bind. intros turns e t1 w1 E. apply wp_done. by eapply wp_ServerCall_ResumeReceive.
Qed.

Definition call_inv (w : CallWorld) : Prop :=
  world_inv (cw_state w) (cw_transport w) (cw_waiting w).

Lemma call_inv_start l gz :
  0 ≤ max_outbound_buffer_size l → call_inv (start_world l gz).
Proof. apply world_inv_start. Qed.

Lemma run_op_spec {A} (op : TypedCallState → Code (A * TypedCallState)) turns w :
  ∃ a s t cb,
    run_code (op (cw_state w)) turns (cw_transport w) (cw_waiting w) = (a, s, t, cb) ∧
    run_op op turns w = (a, mkCallWorld t s cb (cw_log w)).
Proof.
  unfold run_op. destruct (run_code _ _ _ _) as [[[a s] t] cb]. by exists a, s, t, cb.
Qed.

(** The setters only touch the registered functions. *)
Lemma world_inv_set s f g h t w :
  world_inv s t w →
  world_inv (s <| tcs_on_writable := f |> <| tcs_on_cancel := g |> <| tcs_on_terminal := h |>) t w.
Proof. intros []. by constructor. Qed.

Lemma on_callback_inv cb action s t :
  world_inv s t (Some cb) → world_inv (on_callback cb s).1 (callback_return cb action t) None.
Proof.
  intros [Hti Hex Hph Hcall Hterm Hterm1 Htgt Hcmd Hrsn Hseen Hcan Hcan1 Hcc Hlive Hwr Hact].
  assert (Hti' : transport_inv (t <| tc_message_action := Some action |>)).
  { destruct Hti. by constructor. }
  destruct cb as [m| | | |r]; simpl in *; rewrite ?orb_false_r, ?orb_true_r in *.
  all: constructor; simpl; rewrite ?orb_false_r; try done.
  all: try (intros Hl Hs Ho; destruct (Hwr Hl Hs Ho); by auto).
  all: try (intros Ha Hn; by destruct (Hact Ha Hn)).
  by rewrite (Hrsn r).
Qed.

Lemma call_step_inv w l w' : call_inv w → call_step w l = Some w' → call_inv w'.
Proof.
  unfold call_inv. intros Hi. destruct l; simpl.
  - intros [= <-]. destruct (run_op_spec (call_op op) turns w) as (a & s & t & cb & E & ->).
    by apply (wp_call_op op) in E.
  - intros [= <-]. simpl. unfold TypedCallState_SetOnWritable. simpl. case_match; [|done].
    by apply (world_inv_set _ f (tcs_on_cancel (cw_state w)) (tcs_on_terminal (cw_state w))) in Hi.
  - intros [= <-]. simpl. unfold TypedCallState_SetOnCancel. simpl. case_match; [|done].
    by apply (world_inv_set _ (tcs_on_writable (cw_state w)) f (tcs_on_terminal (cw_state w))) in Hi.
  - intros [= <-]. simpl. unfold TypedCallState_SetOnTerminal. simpl. case_match; [done|].
    by apply (world_inv_set _ (tcs_on_writable (cw_state w)) (tcs_on_cancel (cw_state w)) f) in Hi.
  - destruct (cw_waiting w) as [cb|] eqn:Ew; [done|].
    destruct (reactor _ e) as [[t cb]|] eqn:E; [|done]. intros [= <-]. simpl.
    by eapply world_inv_stable.
  - destruct (cw_waiting w) as [cb|] eqn:Ew; [|done]. intros [= <-]. simpl.
    by apply on_callback_inv.
Qed.

Lemma run_inv l gz ls w :
  0 ≤ max_outbound_buffer_size l →
  run call_step (start_world l gz) ls = Some w → call_inv w.
Proof.
  intros Hl. apply run_invariant; [|by apply call_inv_start]. intros. by eapply call_step_inv.
Qed.

Lemma limits_stable l : reactor_stable (λ t _, tc_limits t = l).
Proof.
  intros t e t' cb Hl. unfold reactor.
  destruct e; unfold processStreamCommand, failStreaming, releaseOutboundReservation,
    cancelStreaming, forceAbortStreaming, retireStream, discardStreamCommands;
    repeat case_match; intros; by simplify_eq/=.
Qed.

Lemma exec_op_limits op env t : tc_limits (exec_op op env t).2 = tc_limits t.
Proof.
  destruct op; simpl;
    unfold serverCallSendInitialMetadata, serverCallSend_check, serverCallSend_commit,
      checkOutboundCapacityLocked, serverCallFinish, serverCallResumeReceive, serverCallAbort, enqueue;
    repeat (case_match; simplify_eq/=; try done).
Qed.

Lemma call_step_limits w l w' :
  call_step w l = Some w' → tc_limits (cw_transport w') = tc_limits (cw_transport w).
Proof.
  destruct l; simpl; try by intros [= <-].
  - intros [= <-]. destruct (run_op_spec (call_op op) turns w) as (a & s & t & cb & E & ->). simpl.
    apply (wp_pres (λ t _, tc_limits t = tc_limits (cw_transport w))) in E; try done.
    + apply limits_stable.
    + intros. simpl. by rewrite exec_op_limits.
  - destruct (cw_waiting w); [done|]. destruct (reactor _ e) as [[t cb]|] eqn:E; [|done].
    intros [= <-]. simpl. by apply (limits_stable _ _ _ _ _ eq_refl) in E.
  - destruct (cw_waiting w) as [cb|]; [|done]. intros [= <-]. by destruct cb.
Qed.

Lemma run_limits l gz ls w :
  run call_step (start_world l gz) ls = Some w → tc_limits (cw_transport w) = l.
Proof.
  apply (run_invariant call_step (λ w, tc_limits (cw_transport w) = l)); [|done].
  intros ? ? ? <- H. by eapply call_step_limits.
Qed.
(** Once the status is submitted or the call has ended, an operation does nothing. *)
Lemma closed_op op s :
  tcs_terminal s || tcs_finish_submitted s = true →
  call_op op s = Done (mkError ErrorCode.Closed, s).
Proof.
  intros Hc. destruct op; simpl;
    unfold TypedCallState_SendInitialMetadata, TypedCallState_Send, TypedCallState_Finish,
      TypedCallState_ResumeReceive; by rewrite Hc.
Qed.

Lemma closed_run_op op turns w :
  tcs_terminal (cw_state w) || tcs_finish_submitted (cw_state w) = true →
  run_op (call_op op) turns w = (mkError ErrorCode.Closed, w).
Proof. intros Hc. unfold run_op. rewrite closed_op by done. simpl. by destruct w. Qed.

Lemma on_callback_finished cb s :
  tcs_finish_submitted (on_callback cb s).1 = tcs_finish_submitted s.
Proof. by destruct cb. Qed.

Lemma call_step_finished w l w' :
  call_inv w → tcs_finish_submitted (cw_state w) = true → call_step w l = Some w' →
  tcs_finish_submitted (cw_state w') = true ∧
  tc_history (cw_transport w') = tc_history (cw_transport w).
Proof.
  intros Hi Hf. destruct l; cbn [call_step].
  - intros [= <-]. by rewrite closed_run_op by (by rewrite Hf, orb_true_r).
  - intros [= <-]. simpl. unfold TypedCallState_SetOnWritable. by case_match.
  - intros [= <-]. simpl. unfold TypedCallState_SetOnCancel. by case_match.
  - intros [= <-]. simpl. unfold TypedCallState_SetOnTerminal. by case_match.
  - destruct (cw_waiting w); [done|]. destruct (reactor _ e) as [[t cb]|] eqn:E; [|done].
    intros [= <-]. simpl. split; [done|].
    apply reactor_frame in E; [apply E|apply Hi].
  - destruct (cw_waiting w) as [cb|]; [|done]. intros [= <-]. simpl.
    rewrite on_callback_finished. by destruct cb.
Qed.

(** The section a successful [Finish] ends with. *)
Lemma wp_Finish_command s status es t w :
  wp (TypedCallState_Finish status es s)
    (λ r t' _, Error_ok r.1 = true →
       tcs_finish_submitted r.2 = true ∧
       ∃ h, tc_history t' = h ++ [CmdFinish (cast_u32 (status_code status)) (status_message status) es])
    t w.
Proof.
  unfold TypedCallState_Finish. case_match; [by apply wp_done|].
  apply wp_bind. intros turns [e s1] t1 w1 _. case_match eqn:Hn.
  { apply wp_done. simpl. intros He. by rewrite He in Hn. }
  unfold ServerCall_Finish. destruct (tcs_call s1); [|by apply wp_done].
  unfold grpc_lite_server_call_finish. cbn [negb]. case_match; [by apply wp_done|].
  rewrite bytes_Bytes. apply wp_bind.
  apply (wp_locked (λ _ _, True)); [done..|]. intros t2 w2 env r t3 _ E. apply wp_done, wp_done.
  simpl. rewrite c_result_ok, bool_decide_eq_true. intros ->.
  split; [done|]. apply exec_op_history in E as [_ E]. by eexists.
Qed.

(** ** Waking a blocked writer

    What the reactor does when nothing else happens: it makes the callback that
    waits; after a message callback it goes on, hands every queued command to the session and sends everything; if
    the call no longer accepts messages, it ends the call. *)

Definition drain (t : TransportCall) : list CallLabel :=
  ((λ _, LReactor (RProcess true true)) <$> tc_commands t) ++
  [LReactor (RRelease (tc_outbound_reserved_bytes t))].

Definition wake_up (w : CallWorld) : list CallLabel :=
  let t := cw_transport w in
  let go_on :=
    (if tc_message_callback_active t then [LReactor RDeliverEnd] else []) ++
    (if call_open t then drain t else [LReactor RRetire]) ++ [LCallback Continue] in
  match cw_waiting w with
  | Some (CbMessage _) | Some CbRemoteEnd => LCallback Continue :: go_on
  | Some _ => [LCallback Continue]
  | None => go_on
  end.

(** The part of the transport that draining needs, and keeps. *)
Record drainable (t : TransportCall) (bytes : Z) : Prop := {
  dr_open : call_open t = true;
  dr_idle : tc_message_callback_active t = false;
  dr_writable : tc_writable_requested t = true;
  dr_bytes : tc_outbound_reserved_bytes t = bytes;
  dr_limit : 0 ≤ max_outbound_buffer_size (tc_limits t) }.

Lemma process_drainable c t b rest :
  drainable t b → drainable (processStreamCommand c true true (t <| tc_commands := rest |>)) b ∧
  tc_commands (processStreamCommand c true true (t <| tc_commands := rest |>)) = rest.
Proof.
  intros [Ho Hm Hw Hb Hl]. apply call_open_spec in Ho as (H1 & H2 & H3 & H4).
  unfold processStreamCommand. simpl. rewrite H2, H4. simpl.
  destruct c; repeat case_match; (split; [constructor|]); simpl; rewrite ?call_open_spec; done.
Qed.

Lemma run_drain_commands s log cs t b :
  drainable t b → tc_commands t = cs →
  ∃ t', run call_step (mkCallWorld t s None log) ((λ _, LReactor (RProcess true true)) <$> cs) =
          Some (mkCallWorld t' s None log) ∧ drainable t' b ∧ tc_commands t' = [].
Proof.
  revert t. induction cs as [|c cs IH]; intros t Hd Hc; [by exists t|].
  destruct (process_drainable c t b cs Hd) as [Hd1 Hc1].
  destruct (IH _ Hd1 Hc1) as (t' & Hr & Hd' & Hc'). exists t'. split; [|done].
  cbn [fmap list_fmap run call_step cw_waiting cw_transport]. unfold reactor.
  by rewrite (dr_idle _ _ Hd), Hc.
Qed.

Lemma run_drain s log t b :
  drainable t b → 0 ≤ b →
  ∃ t', run call_step (mkCallWorld t s None log) (drain t) =
          Some (mkCallWorld t' s (Some CbWritable) log).
Proof.
  intros Hd Hb. destruct (run_drain_commands s log _ t b Hd eq_refl) as (t1 & Hr & Hd1 & Hc1).
  destruct Hd1 as [Ho Hm Hw Hb1 Hl]. apply call_open_spec in Ho as (H1 & H2 & H3 & H4).
  unfold drain. rewrite (dr_bytes _ _ Hd). eexists. apply run_app. exists (mkCallWorld t1 s None log).
  split; [done|]. cbn [run call_step cw_waiting cw_transport]. unfold reactor.
  rewrite Hm, Hc1, Hb1. simpl.
  rewrite (proj2 (Z.leb_le 0 b)), (proj2 (Z.leb_le b (b - 0))) by lia. simpl.
  unfold releaseOutboundReservation, outboundLowWatermark. simpl.
  rewrite Hw, H2, H3, H4, Hb1, Z.sub_diag. simpl.
  rewrite (proj2 (Z.leb_le _ _)); [done|]. by apply Z.div_pos.
Qed.

Lemma callback_wakes cb s :
  cb = CbWritable ∨ cb = CbCancel ∨ (∃ r, cb = CbTerminal r) →
  TypedCallState_WaitForWritable (on_callback cb s).1 ≠ None.
Proof.
  intros [->|[->|[r ->]]]; unfold TypedCallState_WaitForWritable; simpl; by rewrite ?orb_true_r.
Qed.

(** The end of a message callback leaves alone what draining needs. *)
Lemma deliver_end_drainable s log t b :
  tc_message_callback_active t = true → tc_message_action t ≠ None →
  ∃ t', run call_step (mkCallWorld t s None log) [LReactor RDeliverEnd] =
          Some (mkCallWorld t' s None log) ∧
    tc_message_callback_active t' = false ∧ call_open t' = call_open t ∧ drain t' = drain t ∧
    tc_target t' = tc_target t ∧ tc_terminal t' = tc_terminal t ∧
    (drainable (t <| tc_message_callback_active := false |>) b → drainable t' b).
Proof.
  intros Ha Hn. cbn [run call_step cw_waiting cw_transport]. unfold reactor.
  destruct (tc_message_action t) as [action|]; [|done]. rewrite Ha. cbn [negb].
  eexists. split; [done|]. case_match; split_and!; try done; intros []; by constructor.
Qed.

(** A world whose writer is blocked, with no callback under way. *)
Lemma blocked_drainable w :
  lost = false → call_inv w → TypedCallState_WaitForWritable (cw_state w) = None → cw_waiting w = None →
  tc_target (cw_transport w) = true ∧ tc_terminal (cw_transport w) = false ∧
  (call_open (cw_transport w) = true →
   drainable ((cw_transport w) <| tc_message_callback_active := false |>)
     (tc_outbound_reserved_bytes (cw_transport w))).
Proof.
  intros Hl Hi Hb Hw. unfold TypedCallState_WaitForWritable in Hb.
  case_match eqn:Hs; [done|]. apply orb_false_iff in Hs as [Hs Ht].
  apply orb_false_iff in Hs as [Hs Hc]. unfold call_inv in Hi. rewrite Hw in Hi.
  destruct Hi as [Hti _ _ _ Hterm _ Htgt _ _ _ _ _ _ _ Hwr _]. simpl in *.
  rewrite Ht in Hterm. simpl in Hterm. rewrite Hterm in Htgt. split_and!; [done..|].
  intros Ho. pose proof (ti_queued _ Hti). pose proof (ti_limit _ Hti).
  constructor; simpl; try done; [by destruct (Hwr Hl Hs Ho)|lia].
Qed.

Lemma run_go_on w :
  lost = false → call_inv w → TypedCallState_WaitForWritable (cw_state w) = None → cw_waiting w = None →
  ∃ w', run call_step w (wake_up w) = Some w' ∧
    TypedCallState_WaitForWritable (cw_state w') ≠ None.
Proof.
  intros Hl Hi Hb Hw. unfold wake_up. rewrite Hw.
  destruct (blocked_drainable w Hl Hi Hb Hw) as (Htgt & Hterm & Hd).
  destruct w as [t s wt log]. simpl in *. subst wt.
  assert (∃ t1, run call_step (mkCallWorld t s None log)
      (if tc_message_callback_active t then [LReactor RDeliverEnd] else []) =
        Some (mkCallWorld t1 s None log) ∧
      tc_message_callback_active t1 = false ∧ call_open t1 = call_open t ∧ drain t1 = drain t ∧
      tc_target t1 = true ∧ tc_terminal t1 = false ∧
      (call_open t = true → drainable t1 (tc_outbound_reserved_bytes t)))
    as (t1 & Hr1 & Hm1 & Ho1 & Hdr1 & Htgt1 & Hterm1 & Hd1).
  { destruct (tc_message_callback_active t) eqn:Ha.
    - destruct (deliver_end_drainable s log t (tc_outbound_reserved_bytes t) Ha)
        as (t1 & ? & ? & ? & ? & Et & Em & ?).
      { intros Hn. by destruct (wi_action _ _ _ Hi Ha Hn). }
      exists t1. rewrite Et, Em. split_and!; auto.
    - exists t. split_and!; try done. intros Ho. destruct (Hd Ho). by constructor. }
  assert (∃ t2 cb, run call_step (mkCallWorld t1 s None log)
      (if call_open t then drain t else [LReactor RRetire]) =
        Some (mkCallWorld t2 s (Some cb) log) ∧
      (cb = CbWritable ∨ cb = CbCancel ∨ ∃ r, cb = CbTerminal r)) as (t2 & cb & Hr2 & Hcb).
  { destruct (call_open t) eqn:Ho.
    - destruct (run_drain s log t1 _ (Hd1 eq_refl)) as (t2 & Hr2).
      { pose proof (ti_queued _ (wi_transport _ _ _ Hi)). simpl in *. lia. }
      rewrite <- Hdr1. exists t2, CbWritable. by auto.
    - cbn [run call_step cw_waiting cw_transport]. unfold reactor, retireStream.
      rewrite Hm1, Htgt1, Hterm1. eexists _, _. split; [done|]. by eauto. }
  exists (invoke (mkCallWorld (callback_return cb Continue t2) s None log) (on_callback cb s)).
  split; [|by apply callback_wakes].
  apply run_app. eexists. split; [done|]. apply run_app. by eexists.
Qed.

Lemma run_wake_up w :
  lost = false → call_inv w → TypedCallState_WaitForWritable (cw_state w) = None →
  ∃ w', run call_step w (wake_up w) = Some w' ∧
    TypedCallState_WaitForWritable (cw_state w') ≠ None.
Proof.
  intros Hl Hi Hb. destruct w as [t s [cb|] log]; [|by apply run_go_on].
  destruct cb as [m| | | |r].
  - apply (run_go_on (mkCallWorld (callback_return (CbMessage m) Continue t) s None (log ++ [])));
      [done| |done|done]. by apply (on_callback_inv (CbMessage m)).
  - apply (run_go_on (mkCallWorld t s None (log ++ []))); [done| |done|done].
    by apply (on_callback_inv CbRemoteEnd Continue).
  - eexists. split; [done|]. apply callback_wakes. auto.
  - eexists. split; [done|]. apply callback_wakes. auto.
  - eexists. split; [done|]. apply callback_wakes. eauto.
Qed.

(** ** Callbacks the application registers *)

Definition cancel_calls (f : nat) (log : list Invocation) : nat :=
  length (filter (λ i, i = InvCancel f) log).

Definition terminal_calls (f : nat) (log : list Invocation) : list ServerTerminalReason :=
  omap (λ i, match i with
             | InvTerminal g r => if decide (g = f) then Some r else None
             | _ => None
             end) log.

Lemma cancel_calls_app f log log' :
  cancel_calls f (log ++ log') = (cancel_calls f log + cancel_calls f log')%nat.
Proof. unfold cancel_calls. by rewrite filter_app, length_app. Qed.

Lemma terminal_calls_app f log log' :
  terminal_calls f (log ++ log') = terminal_calls f log ++ terminal_calls f log'.
Proof. apply omap_app. Qed.

(** The operations leave the callbacks and what they depend on alone. *)
Definition same_callbacks (s s' : TypedCallState) : Prop :=
  tcs_on_cancel s' = tcs_on_cancel s ∧ tcs_on_terminal s' = tcs_on_terminal s ∧
  tcs_cancelled s' = tcs_cancelled s ∧ tcs_terminal s' = tcs_terminal s ∧
  tcs_terminal_reason s' = tcs_terminal_reason s.

Lemma wp_Ensure_callbacks c s t w :
  wp (TypedCallState_EnsureInitialMetadata c s) (λ r _ _, same_callbacks s r.2) t w.
Proof.
  unfold TypedCallState_EnsureInitialMetadata. case_match; [by apply wp_done|].
  apply wp_bind. intros turns e t1 w1 _. apply wp_done. simpl. by case_match.
Qed.

Lemma wp_call_op_callbacks op s t w :
  wp (call_op op s) (λ r _ _, same_callbacks s r.2) t w.
Proof.
  destruct op; simpl;
    unfold TypedCallState_SendInitialMetadata, TypedCallState_Send, TypedCallState_Finish,
      TypedCallState_ResumeReceive; (case_match; [by apply wp_done|]).
  - case_match; [by apply wp_done|]. apply wp_bind. intros turns e t1 w1 _. apply wp_done.
    simpl. by case_match.
  - apply wp_bind. intros turns [e s1] t1 w1 E. apply wp_Ensure_callbacks in E.
    case_match; [by apply wp_done|]. apply wp_bind. intros turns2 e2 t2 w2 _. apply wp_done.
    simpl in *. by case_match.
  - apply wp_bind. intros turns [e s1] t1 w1 E. apply wp_Ensure_callbacks in E.
    case_match; [by apply wp_done|]. apply wp_bind. intros turns2 e2 t2 w2 _. apply wp_done.
    simpl in *. by case_match.
  - apply wp_bind. intros turns e t1 w1 _. by apply wp_done.
Qed.

Lemma run_op_callbacks op turns w :
  same_callbacks (cw_state w) (cw_state (run_op (call_op op) turns w).2) ∧
  cw_log (run_op (call_op op) turns w).2 = cw_log w.
Proof.
  destruct (run_op_spec (call_op op) turns w) as (a & s & t & cb & E & ->).
  by apply wp_call_op_callbacks in E.
Qed.

(** [f] has not been registered yet. *)
Definition fresh (f : nat) (w : CallWorld) : Prop :=
  tcs_on_cancel (cw_state w) ≠ Some f ∧ cancel_calls f (cw_log w) = 0%nat ∧
  tcs_on_terminal (cw_state w) ≠ Some f ∧ terminal_calls f (cw_log w) = [].

Lemma fresh_step f w l w' :
  fresh f w → l ≠ LSetOnCancel (Some f) → l ≠ LSetOnTerminal (Some f) →
  call_step w l = Some w' → fresh f w'.
Proof.
  unfold fresh. intros (H1 & H2 & H3 & H4) Hl1 Hl2.
  destruct l; cbn [call_step].
  - intros [= <-]. destruct (run_op_callbacks op turns w) as [(-> & -> & _) ->]. done.
  - intros [= <-]. simpl. rewrite cancel_calls_app, terminal_calls_app, H2, H4.
    destruct f0, (tcs_terminal (cw_state w)); simpl; by repeat case_match.
  - intros [= <-]. simpl. rewrite cancel_calls_app, terminal_calls_app, H2, H4.
    destruct f0 as [g|], (tcs_terminal (cw_state w)), (tcs_cancelled (cw_state w)); simpl; try done;
      unfold cancel_calls; rewrite ?filter_cons, ?decide_False by congruence;
      split_and!; try done; congruence.
  - intros [= <-]. simpl. rewrite cancel_calls_app, terminal_calls_app, H2, H4.
    unfold TypedCallState_SetOnTerminal.
    destruct (tcs_terminal_reason (cw_state w)), f0 as [g|]; simpl; try done;
      rewrite ?decide_False by congruence; split_and!; try done; congruence.
  - destruct (cw_waiting w); [done|]. destruct (reactor _ e) as [[t cb]|]; [|done].
    by intros [= <-].
  - destruct (cw_waiting w) as [cb|]; [|done]. intros [= <-]. simpl.
    rewrite cancel_calls_app, terminal_calls_app, H2, H4.
    destruct cb; simpl; try done; (split_and!; try done);
      case_match; simplify_eq; simpl; try done;
      unfold cancel_calls; rewrite ?filter_cons, ?decide_False by congruence; done.
Qed.

Lemma run_fresh f l gz ls w :
  LSetOnCancel (Some f) ∉ ls → LSetOnTerminal (Some f) ∉ ls →
  run call_step (start_world l gz) ls = Some w → fresh f w.
Proof.
  assert (Hgen : ∀ ls w0, fresh f w0 → LSetOnCancel (Some f) ∉ ls → LSetOnTerminal (Some f) ∉ ls →
    run call_step w0 ls = Some w → fresh f w).
  { clear ls. induction ls as [|lb ls IH]; intros w0 Hf Hc Ht; simpl; [by intros [= <-]|].
    apply not_elem_of_cons in Hc as [Hc1 Hc], Ht as [Ht1 Ht].
    destruct (call_step w0 lb) as [w1|] eqn:E; [|done].
    apply IH; try done. by eapply fresh_step. }
  by apply Hgen.
Qed.

(** [f] was the last function given to [SetOnCancel], to [SetOnTerminal]. *)
Definition cancel_registered (f : nat) (w : CallWorld) : Prop :=
  cancel_calls f (cw_log w) = Nat.b2n (tcs_cancelled (cw_state w)) ∧
  (tcs_cancelled (cw_state w) = false → tcs_terminal (cw_state w) = false →
   tcs_on_cancel (cw_state w) = Some f).

Definition terminal_registered (f : nat) (w : CallWorld) : Prop :=
  terminal_calls f (cw_log w) = option_list (tcs_terminal_reason (cw_state w)) ∧
  (tcs_terminal_reason (cw_state w) = None → tcs_on_terminal (cw_state w) = Some f).

Lemma set_on_cancel_registers f w w' :
  fresh f w → call_step w (LSetOnCancel (Some f)) = Some w' → cancel_registered f w'.
Proof.
  intros (_ & Hc & _) [= <-]. unfold cancel_registered. simpl. rewrite cancel_calls_app, Hc.
  unfold TypedCallState_SetOnCancel. simpl.
  destruct (tcs_cancelled (cw_state w)) eqn:E1, (tcs_terminal (cw_state w)) eqn:E2; simpl;
    rewrite ?E1, ?E2; try done.
  all: split; [|done]; unfold cancel_calls; by rewrite filter_cons, decide_True.
Qed.

Lemma set_on_terminal_registers f w w' :
  fresh f w → call_step w (LSetOnTerminal (Some f)) = Some w' → terminal_registered f w'.
Proof.
  intros (_ & _ & _ & Hc) [= <-]. unfold terminal_registered. simpl.
  rewrite terminal_calls_app, Hc. unfold TypedCallState_SetOnTerminal.
  destruct (tcs_terminal_reason (cw_state w)) eqn:E; simpl; rewrite ?E; [|done].
  by rewrite decide_True.
Qed.

Lemma cancel_registered_step f w l w' :
  call_inv w → cancel_registered f w → (∀ g, l ≠ LSetOnCancel g) →
  call_step w l = Some w' → cancel_registered f w'.
Proof.
  unfold cancel_registered. intros Hi [Hc Hr] Hl. destruct l; cbn [call_step].
  - intros [= <-]. by destruct (run_op_callbacks op turns w) as [(-> & _ & -> & -> & _) ->].
  - intros [= <-]. simpl. rewrite cancel_calls_app, Hc.
    destruct f0, (tcs_terminal (cw_state w)) eqn:E; simpl; rewrite ?E; repeat case_match; simpl;
      rewrite ?Nat.add_0_r; auto.
  - by destruct (Hl f0).
  - intros [= <-]. simpl. rewrite cancel_calls_app, Hc. unfold TypedCallState_SetOnTerminal.
    destruct f0, (tcs_terminal_reason (cw_state w)); simpl; rewrite ?Nat.add_0_r; auto.
  - destruct (cw_waiting w); [done|]. destruct (reactor _ e) as [[t cb]|]; [|done].
    by intros [= <-].
  - destruct (cw_waiting w) as [cb|] eqn:Ew; [|done]. intros [= <-]. simpl.
    rewrite cancel_calls_app, Hc. unfold call_inv in Hi. rewrite Ew in Hi.
    destruct cb; simpl; rewrite ?Nat.add_0_r; try done.
    + destruct (tcs_on_writable _); simpl; by rewrite ?Nat.add_0_r.
    + pose proof (wi_cancel_live _ _ _ Hi eq_refl) as Ht.
      destruct (tcs_cancelled (cw_state w)) eqn:Ec; [by pose proof (wi_cancel_once _ _ _ Hi Ec)|].
      rewrite Hr by done. split; [|done]. unfold cancel_calls. by rewrite filter_cons, decide_True.
    + destruct (tcs_on_terminal _); simpl; by rewrite ?Nat.add_0_r.
Qed.

Lemma terminal_registered_step f w l w' :
  call_inv w → terminal_registered f w → (∀ g, l ≠ LSetOnTerminal g) →
  call_step w l = Some w' → terminal_registered f w'.
Proof.
  unfold terminal_registered. intros Hi [Hc Hr] Hl. destruct l; cbn [call_step].
  - intros [= <-]. by destruct (run_op_callbacks op turns w) as [(_ & -> & _ & _ & ->) ->].
  - intros [= <-]. simpl. rewrite terminal_calls_app, Hc.
    destruct f0, (tcs_terminal (cw_state w)); simpl; repeat case_match; simpl;
      rewrite ?app_nil_r; auto.
  - intros [= <-]. simpl. rewrite terminal_calls_app, Hc. unfold TypedCallState_SetOnCancel.
    destruct f0; simpl; repeat case_match; simpl; rewrite ?app_nil_r; auto.
  - by destruct (Hl f0).
  - destruct (cw_waiting w); [done|]. destruct (reactor _ e) as [[t cb]|]; [|done].
    by intros [= <-].
  - destruct (cw_waiting w) as [cb|] eqn:Ew; [|done]. intros [= <-]. simpl.
    rewrite terminal_calls_app, Hc. unfold call_inv in Hi. rewrite Ew in Hi.
    destruct cb as [m| | | |r]; simpl; rewrite ?app_nil_r; try done.
    + destruct (tcs_on_writable _); simpl; by rewrite ?app_nil_r.
    + destruct (tcs_on_cancel _); simpl; by rewrite ?app_nil_r.
    + pose proof (wi_reason_seen _ _ _ Hi) as Hs. pose proof (wi_terminal_once _ _ _ Hi) as Ho.
      destruct (tcs_terminal (cw_state w)); [by specialize (Ho eq_refl)|].
      rewrite Hs in *. rewrite Hr by done. simpl. by rewrite decide_True.
Qed.

(** An invariant from a registration step to the end of a run whose later labels
    satisfy [P]. *)
Lemma run_registered (R : CallWorld → Prop) (P : CallLabel → Prop) l gz ls1 lb ls2 w :
  0 ≤ max_outbound_buffer_size l →
  (∀ w1 w2, call_inv w1 → run call_step (start_world l gz) ls1 = Some w1 →
     call_step w1 lb = Some w2 → R w2) →
  (∀ w1 l' w2, call_inv w1 → R w1 → P l' → call_step w1 l' = Some w2 → R w2) →
  Forall P ls2 →
  run call_step (start_world l gz) (ls1 ++ lb :: ls2) = Some w → call_inv w ∧ R w.
Proof.
  intros Hl Hreg Hstep HP (w1 & H1 & H2)%run_app. apply run_inv in H1 as Hi1; [|done].
  simpl in H2. destruct (call_step w1 lb) as [w2|] eqn:E; [|done].
  assert (Hi2 : call_inv w2) by by eapply call_step_inv.
  assert (HR2 : R w2) by by apply (Hreg w1).
  clear -Hstep HP Hi2 HR2 H2. revert w2 Hi2 HR2 H2.
  induction HP as [|l' ls Hl' HP IH]; intros w2 Hi2 HR2; simpl; [by intros [= <-]|].
  destruct (call_step w2 l') as [w3|] eqn:E; [|done].
  apply IH; [by eapply call_step_inv|by eapply Hstep].
Qed.
End World.

Lemma lose_callback_inv {GZ : GzipSize} lost w w' : call_inv (lost := lost) w → lose_callback w = Some w' → call_inv (lost := true) w'.
Proof.
  unfold call_inv, lose_callback. intros [Hti Hex Hph Hcall Hterm Hterm1 Htgt Hcmd Hrsn Hseen Hcan Hcan1 Hcc Hlive Hwr Hact].
  assert (Hti' : transport_inv ((cw_transport w) <| tc_message_action := Some Pause |>)) by by destruct Hti.
  destruct (cw_waiting w) as [[m| | | |r]|]; try done; intros [= <-]; simpl in *; rewrite ?orb_false_r, ?orb_true_r in *.
  all: constructor; simpl; rewrite ?orb_false_r; try done.
  all: try (intros Ha Hn; by destruct (Hact Ha Hn)).
  intros _. by apply Hcan.
Qed.

(** ** Theorems *)

(** C1. Whatever the application threads and the reactor do, the commands a typed call
    ever gives the transport are one response: initial metadata once and first,
    then messages, then at most one status and nothing after it.  The flags
    [initial_metadata_sent_] and [finish_submitted_] say exactly how far the
    response is, and the bytes reserved for unsent messages stay within the
    server's limit. *)
Theorem typed_response_protocol {GZ : GzipSize} l gz ls w :
  0 ≤ max_outbound_buffer_size l →
  run call_step (start_world l gz) ls = Some w →
  ∃ p, response_phase (cw_transport w) = Some p ∧
    tcs_initial_metadata_sent (cw_state w) = negb (bool_decide (p = PStart)) ∧
    tcs_finish_submitted (cw_state w) = bool_decide (p = PFinished) ∧
    0 ≤ tc_outbound_reserved_bytes (cw_transport w) ≤ max_outbound_buffer_size l.
Proof.
  intros Hl Hr. pose proof (run_inv (lost := false) _ _ _ _ Hl Hr) as Hi.
  pose proof (wi_transport _ _ _ Hi) as Ht. destruct (ti_phase _ Ht) as (p & Hp & _).
  destruct (wi_phase _ _ _ Hi _ Hp). exists p. rewrite <- (run_limits _ _ _ _ Hr).
  pose proof (ti_queued _ Ht). pose proof (ti_limit _ Ht). split_and!; try done; lia.
Qed.

(** A call with room for 20 bytes: the second message has to wait until the first
    has gone out. *)
Definition example_limits : Limits := mkLimits 4194304 20.

Definition example_run : list CallLabel :=
  [LSetOnWritable (Some 1%nat); LOp (CallSend "0123456789" Identity) [];
   LOp (CallSend "abcdefghij" Identity) []; LReactor (RProcess true true);
   LReactor (RProcess true true); LReactor (RRelease 15); LCallback Continue;
   LOp (CallSend "abcdefghij" Identity) []; LOp (CallFinish Status_default []) [];
   LReactor (RProcess true true); LReactor (RProcess true true); LReactor (RRelease 15);
   LReactor RRetire; LCallback Continue].

Definition example_world (n : nat) : CallWorld :=
  default (start_world example_limits false)
    (run (@call_step stored_gzip) (start_world example_limits false) (take n example_run)).

Lemma typed_response_protocol_witness :
  tc_history (cw_transport (example_world 14)) =
    [CmdInitialMetadata [] Identity; CmdSend "0123456789" Identity;
     CmdSend "abcdefghij" Identity; CmdFinish 0 "" []] ∧
  ∃ p, response_phase (cw_transport (example_world 14)) = Some p ∧
    tcs_initial_metadata_sent (cw_state (example_world 14)) = negb (bool_decide (p = PStart)) ∧
    tcs_finish_submitted (cw_state (example_world 14)) = bool_decide (p = PFinished) ∧
    0 ≤ tc_outbound_reserved_bytes (cw_transport (example_world 14)) ≤ 20.
Proof.
  split; [vm_compute; reflexivity|].
  apply (@typed_response_protocol stored_gzip example_limits false example_run (example_world 14));
    vm_compute; done.
Defined.

(** A status that was accepted is the end of the response: from then on every
    operation returns [Closed] and changes nothing, and the accepted status stays
    the last command the call gave the transport. *)
Lemma finish_is_final {GZ : GzipSize} l gz ls1 w1 status trailing turns e w2 ls2 w3 :
  0 ≤ max_outbound_buffer_size l →
  run call_step (start_world l gz) ls1 = Some w1 →
  run_op (TypedCallState_Finish status trailing) turns w1 = (e, w2) → Error_ok e = true →
  run call_step w2 ls2 = Some w3 →
  (∀ op turns', run_op (call_op op) turns' w3 = (mkError ErrorCode.Closed, w3)) ∧
  ∃ h, tc_history (cw_transport w3) =
       h ++ [CmdFinish (cast_u32 (status_code status)) (status_message status) trailing].
Proof.
  intros Hl H1 Hop He H2. apply (run_inv (lost := false)) in H1 as Hi1; [|done].
  assert (Hi2 : call_inv (lost := false) w2).
  { apply (call_step_inv (lost := false) w1 (LOp (CallFinish status trailing) turns)); [done|]. simpl. by rewrite Hop. }
  destruct (run_op_spec (TypedCallState_Finish status trailing) turns w1)
    as (a & s & t & cb & E & Eop). rewrite Hop in Eop. simplify_eq.
  destruct (wp_Finish_command _ _ _ _ _ _ _ _ _ E He) as [Hf [h Hh]]. simpl in *.
  set (w2 := mkCallWorld t s cb (cw_log w1)) in *.
  assert (call_inv (lost := false) w3 ∧ tcs_finish_submitted (cw_state w3) = true ∧
          tc_history (cw_transport w3) = tc_history t) as (_ & Hf3 & Hh3).
  { revert H2. apply (run_invariant call_step (λ w, call_inv (lost := false) w ∧
      tcs_finish_submitted (cw_state w) = true ∧ tc_history (cw_transport w) = tc_history t));
      [|done].
    intros w lb w' (Hi & Hfw & Hhw) Hs.
    destruct (call_step_finished _ _ _ Hi Hfw Hs) as [? Hh']. rewrite Hh'.
    split_and!; [by eapply call_step_inv|done|done]. }
  split; [|by exists h; rewrite Hh3].
  intros. apply closed_run_op. by rewrite Hf3, orb_true_r.
Qed.

Lemma finish_is_final_witness :
  let w1 := example_world 8 in
  let r := @run_op stored_gzip _ (TypedCallState_Finish Status_default []) [] w1 in
  let w3 := default r.2 (run (@call_step stored_gzip) r.2 (drop 9 example_run)) in
  (∀ op turns', @run_op stored_gzip _ (call_op op) turns' w3 = (mkError ErrorCode.Closed, w3)) ∧
  ∃ h, tc_history (cw_transport w3) = h ++ [CmdFinish (cast_u32 0) "" []].
Proof.
  apply (@finish_is_final stored_gzip example_limits false (take 8 example_run) (example_world 8)
    Status_default [] [] Error_default
    (@run_op stored_gzip _ (TypedCallState_Finish Status_default []) [] (example_world 8)).2
    (drop 9 example_run)); vm_compute; done.
Defined.

(** C22. No wake-up is lost: in every reachable state in which a thread is blocked in
    [WaitForWritable], what the reactor does next on its own ([wake_up]: the
    waiting callback, or sending what is queued, or ending the call) releases that
    thread, where its callbacks find the call ([Find] does not fail for want of
    memory).  This covers a reactor callback that arrives while [Send] is still
    recording that it would block. *)
Theorem blocked_writer_is_woken {GZ : GzipSize} l gz ls w :
  0 ≤ max_outbound_buffer_size l →
  run call_step (start_world l gz) ls = Some w →
  TypedCallState_WaitForWritable (cw_state w) = None →
  ∃ w', run call_step w (wake_up w) = Some w' ∧
    TypedCallState_WaitForWritable (cw_state w') ≠ None.
Proof. intros Hl Hr. apply (run_wake_up (lost := false)); [done|]. by eapply (run_inv (lost := false)). Qed.

Lemma blocked_writer_is_woken_witness :
  wake_up (example_world 3) =
    [LReactor (RProcess true true); LReactor (RProcess true true); LReactor (RRelease 15); LCallback Continue] ∧
  ∃ w', run (@call_step stored_gzip) (example_world 3) (wake_up (example_world 3)) = Some w' ∧
    TypedCallState_WaitForWritable (cw_state w') ≠ None.
Proof.
  split; [vm_compute; reflexivity|].
  apply (@blocked_writer_is_woken stored_gzip example_limits false (take 3 example_run));
    vm_compute; done.
Defined.

(** A function given to [SetOnCancel] is called exactly once when the call is
    cancelled, and never otherwise, whether the cancellation comes before, during
    or after the registration. *)
Lemma on_cancel_exactly_once {GZ : GzipSize} l gz ls1 f ls2 w :
  0 ≤ max_outbound_buffer_size l →
  LSetOnCancel (Some f) ∉ ls1 → LSetOnTerminal (Some f) ∉ ls1 →
  Forall (λ lb, ∀ g, lb ≠ LSetOnCancel g) ls2 →
  run call_step (start_world l gz) (ls1 ++ LSetOnCancel (Some f) :: ls2) = Some w →
  cancel_calls f (cw_log w) = Nat.b2n (tcs_cancelled (cw_state w)).
Proof.
  intros Hl Hf1 Hf2 Hls Hr.
  apply (run_registered (lost := false) (cancel_registered f) (λ lb, ∀ g, lb ≠ LSetOnCancel g))
    in Hr as [_ [Hc _]]; try done.
  - intros w1 w2 _ H1. apply set_on_cancel_registers. by eapply run_fresh.
  - intros. by eapply cancel_registered_step.
Qed.

(** A function given to [SetOnTerminal] is called exactly once when the call has
    ended, with the reason the transport recorded, and never before. *)
Lemma on_terminal_exactly_once {GZ : GzipSize} l gz ls1 f ls2 w :
  0 ≤ max_outbound_buffer_size l →
  LSetOnCancel (Some f) ∉ ls1 → LSetOnTerminal (Some f) ∉ ls1 →
  Forall (λ lb, ∀ g, lb ≠ LSetOnTerminal g) ls2 →
  run call_step (start_world l gz) (ls1 ++ LSetOnTerminal (Some f) :: ls2) = Some w →
  terminal_calls f (cw_log w) =
    if tcs_terminal (cw_state w) then [tc_terminal_reason (cw_transport w)] else [].
Proof.
  intros Hl Hf1 Hf2 Hls Hr.
  apply (run_registered (lost := false) (terminal_registered f) (λ lb, ∀ g, lb ≠ LSetOnTerminal g))
    in Hr as [Hi [Hc _]]; try done.
  - rewrite Hc, (wi_reason_seen _ _ _ Hi). by case_match.
  - intros w1 w2 _ H1. apply set_on_terminal_registers. by eapply run_fresh.
  - intros. by eapply terminal_registered_step.
Qed.

(** A peer that cancels between two registrations. *)
Definition cancel_run : list CallLabel :=
  [LSetOnCancel (Some 1%nat); LOp (CallSend "hello" Identity) [];
   LReactor (RCancel PeerCancelled); LCallback Continue; LSetOnTerminal (Some 2%nat);
   LReactor RRetire; LCallback Continue].

Definition cancel_world : CallWorld :=
  default (start_world example_limits false)
    (run (@call_step stored_gzip) (start_world example_limits false) cancel_run).

Lemma on_cancel_exactly_once_witness :
  tcs_cancelled (cw_state cancel_world) = true ∧
  cancel_calls 1 (cw_log cancel_world) = Nat.b2n (tcs_cancelled (cw_state cancel_world)).
Proof.
  split; [vm_compute; reflexivity|].
  apply (@on_cancel_exactly_once stored_gzip example_limits false [] 1 (drop 1 cancel_run)).
  - vm_compute. done.
  - apply not_elem_of_nil.
  - apply not_elem_of_nil.
  - by repeat constructor.
  - vm_compute. reflexivity.
Defined.

Lemma on_terminal_exactly_once_witness :
  terminal_calls 2 (cw_log cancel_world) = [PeerCancelled] ∧
  terminal_calls 2 (cw_log cancel_world) =
    if tcs_terminal (cw_state cancel_world)
    then [tc_terminal_reason (cw_transport cancel_world)] else [].
Proof.
  split; [vm_compute; reflexivity|].
  apply (@on_terminal_exactly_once stored_gzip example_limits false (take 4 cancel_run) 2
           (drop 5 cancel_run)).
  - vm_compute. done.
  - simpl. rewrite !not_elem_of_cons. by split_and!; [..|apply not_elem_of_nil].
  - simpl. rewrite !not_elem_of_cons. by split_and!; [..|apply not_elem_of_nil].
  - by repeat constructor.
  - vm_compute. reflexivity.
Defined.
