(* ===== verification/BoundedExecutor.v ===== *)
(** * A bounded executor over retained calls

    [examples/cpp_bounded_executor/main.cc]: one worker thread that answers calls
    which a reactor hands over, with room for a single job.  The reactor's callback
    never waits: when the worker is busy, the executor is closed or its mutex is
    taken, the call is refused with [RESOURCE_EXHAUSTED].

    The world has the executor, the gate that stands for the application's work, the
    condition variable [ready_] with its two waiters, and the server calls as
    [ServerTransport] has them.  A step is one section under the mutex of the
    executor or the gate, one section of an operation on a call, or one event of a
    reactor, in any order.  The method has no callback but [on_remote_end], so
    reactors do not wait for the application. *)

From S2P Require Import Prelude Status Metadata ServerTransport TypedCall.

Local Open Scope Z_scope.

(** ** Answers *)

Definition kResponse : string := String (Ascii.ascii_of_nat 10) (String (Ascii.ascii_of_nat 2) "ok").

Definition executor_full : Status := mkStatus StatusCode.ResourceExhausted "executor full".

(** [if (!call.SendInitialMetadata().ok() || ... !call.Finish(...).ok()) call.Abort()];
    [call_] is whether the wrapper holds a call. *)
Definition finish_or_abort (call_ : bool) (status : Status) : Code () :=
  e ← ServerCall_Finish call_ status []; if Error_ok e then Done () else ServerCall_Abort call_.

(** What the worker does with a call when the work is done *)
Definition answer_accepted (call_ : bool) : Code () :=
  cancelled ← ServerCall_cancelled call_;
  if cancelled : bool then Done ()
  else
    terminal ← ServerCall_terminal call_;
    if terminal : bool then Done ()
    else
      e ← ServerCall_SendInitialMetadata call_ [] Identity;
      if negb (Error_ok e) then ServerCall_Abort call_
      else
        e ← ServerCall_Send call_ kResponse Identity;
        if negb (Error_ok e) then ServerCall_Abort call_ else finish_or_abort call_ Status_default.

(** What the callback does with a call the executor has refused *)
Definition answer_rejected (call_ : bool) : Code () :=
  e ← ServerCall_SendInitialMetadata call_ [] Identity;
  if negb (Error_ok e) then ServerCall_Abort call_ else finish_or_abort call_ executor_full.

(** ** The executor and the gate *)

(** [slot_] is the call it holds, if any. *)
Record Executor := mkExecutor { slot_ : option nat; busy_ : bool; closed_ : bool; started_ : bool }.

#[export] Instance eta_Executor : Eta Executor := λ x, mkExecutor (slot_ x) (busy_ x) (closed_ x) (started_ x).

(** The result, what the caller's variable holds afterwards, and the executor.
    [contended] is whether [try_to_lock] fails. *)
Definition TrySubmit (contended : bool) (call : option nat) (x : Executor) : bool * option nat * Executor :=
  if contended || closed_ x || busy_ x then (false, call, x)
  else (true, None, x <| slot_ := call |> <| busy_ := true |>).

(** The state change of [Close]; its [notify_one] is in the step. *)
Definition Close (x : Executor) : Executor := x <| closed_ := true |>.

Record WorkGate := mkWorkGate { entered_ : bool; released_ : bool }.

(** [WorkGate::Run] up to its wait: the gate, and whether the wait ends at once *)
Definition WorkGate_Run (g : WorkGate) : WorkGate * bool := (mkWorkGate true (released_ g), released_ g).

Definition Release (g : WorkGate) : WorkGate := mkWorkGate (entered_ g) true.

(** Where the worker is: not created, before [Run], in [ready_.wait], with a call
    before or in [WorkGate::Run], answering, after [call = {}], after [Run] *)
Inductive Worker : Type :=
  | WNone
  | WCreated
  | WWaiting (signalled : bool)
  | WCall (call : option nat)
  | WInGate (call : option nat)
  | WAnswering (call : option nat) (rest : Code ())
  | WReleased
  | WExited.

(** The thread that calls [Start] and [Join] *)
Inductive Starter : Set := SBefore | SWaiting (signalled : bool) | SStarted | SJoined.

(** [w_accepted], [w_done] (by the worker) and [w_refused] are ghost: the calls in
    the order in which that happened to them. *)
Record World := mkWorld {
  w_executor : Executor;
  w_gate : WorkGate;
  w_worker : Worker;
  w_starter : Starter;
  w_calls : gmap nat TransportCall;
  w_callbacks : gmap nat (Code ());
  w_accepted : list nat;
  w_done : list nat;
  w_refused : list nat }.

#[export] Instance eta_World : Eta World := λ w,
  mkWorld (w_executor w) (w_gate w) (w_worker w) (w_starter w) (w_calls w) (w_callbacks w) (w_accepted w) (w_done w)
    (w_refused w).

(** [ready_.notify_one()]: one of the threads in [ready_.wait] that was not woken
    yet; [starter_first] chooses when both are. *)
Definition notify_one (starter_first : bool) (w : World) : World :=
  let wake_starter := w <| w_starter := SWaiting true |> in
  let wake_worker := w <| w_worker := WWaiting true |> in
  match w_starter w, w_worker w with
  | SWaiting false, WWaiting false => if starter_first then wake_starter else wake_worker
  | SWaiting false, _ => wake_starter
  | _, WWaiting false => wake_worker
  | _, _ => w
  end.

(** [Run] from the head of its loop, with the mutex: the predicate of the wait, the
    test and taking the call out of the slot *)
Definition run_loop (w : World) : World :=
  let x := w_executor w in
  if closed_ x || busy_ x then
    if negb (busy_ x) then w <| w_worker := WExited |>
    else w <| w_worker := WCall (slot_ x) |> <| w_executor := x <| slot_ := None |> |>
  else w <| w_worker := WWaiting false |>.

Section World.
Context {GZ : GzipSize}.

(** One section of an operation on a call *)
Definition code_step (env : OpEnv) (m : Code ()) (t : TransportCall) : Code () * TransportCall :=
  match m with
  | Done a => (Done a, t)
  | Locked op k => let '(r, t') := exec_op op env t in (k r, t')
  | Query q k => (k (exec_query q t), t)
  end.

(** The same for a variable that may hold no call; then there is no operation. *)
Definition call_step (env : OpEnv) (call : option nat) (m : Code ()) (calls : gmap nat TransportCall)
  : Code () * gmap nat TransportCall :=
  match call with
  | None => (m, calls)
  | Some c =>
      match calls !! c with
      | None => (m, calls)
      | Some t => let '(m', t') := code_step env m t in (m', <[c := t']> calls)
      end
  end.

(** An event of a reactor.  The method has no [on_message], which stands for
    [GRPC_LITE_RECEIVE_CONTINUE]. *)
Definition reactor_event (e : ReactorEvent) (t : TransportCall) : TransportCall :=
  match reactor t e with
  | None => t
  | Some (t', Some (CbMessage _)) => t' <| tc_message_action := Some Continue |>
  | Some (t', _) => t'
  end.

(** The next section of the worker; [throws] is whether [work_.Run] throws. *)
Definition worker_step (env : OpEnv) (throws starter_first : bool) (w : World) : option World :=
  match w_worker w with
  | WNone | WExited => None
  | WCreated =>
      Some (run_loop (notify_one starter_first (w <| w_executor := (w_executor w) <| started_ := true |> |>)))
  | WWaiting signalled => if signalled then Some (run_loop w) else None
  | WCall call =>
      let answer := WAnswering call (answer_accepted (bool_decide (is_Some call))) in
      if throws then Some (w <| w_worker := WAnswering call (ServerCall_Abort (bool_decide (is_Some call))) |>)
      else
        let '(gate, through) := WorkGate_Run (w_gate w) in
        Some (w <| w_gate := gate |> <| w_worker := if through : bool then answer else WInGate call |>)
  | WInGate call =>
      if released_ (w_gate w)
      then Some (w <| w_worker := WAnswering call (answer_accepted (bool_decide (is_Some call))) |>) else None
  | WAnswering call (Done _) =>
      Some (w <| w_worker := WReleased |> <| w_done := w_done w ++ option_list call |>)
  | WAnswering call m =>
      let '(m', calls) := call_step env call m (w_calls w) in
      Some (w <| w_worker := WAnswering call m' |> <| w_calls := calls |>)
  | WReleased => Some (run_loop (w <| w_executor := (w_executor w) <| busy_ := false |> |>))
  end.

(** How [TrySubmit] comes out in the callback *)
Inductive Submission : Set := Contended | Acquired (starter_first : bool) | SubmitThrows.

#[export] Instance Submission_eq_dec : EqDecision Submission.
Proof. solve_decision. Defined.

(** [on_remote_end] of call [c] up to the answer of a refused call *)
Definition on_remote_end (s : Submission) (c : nat) (w : World) : World :=
  match s with
  | SubmitThrows => w <| w_callbacks := <[c := ServerCall_Abort true]> (w_callbacks w) |>
  | _ =>
      let contended := match s with Contended => true | _ => false end in
      let '(accepted, _, x) := TrySubmit contended (Some c) (w_executor w) in
      if accepted : bool then
        notify_one (match s with Acquired b => b | _ => false end)
          (w <| w_executor := x |> <| w_accepted := w_accepted w ++ [c] |>)
      else w <| w_callbacks := <[c := answer_rejected true]> (w_callbacks w) |>
  end.

Inductive Label : Type :=
  | LStart                                        (** [executor.Start()] up to its wait *)
  | LStarted                                      (** its return *)
  | LWorker (env : OpEnv) (throws starter_first : bool)
  | LSpurious                                     (** a wait of the worker ends for no reason *)
  | LNewCall (c : nat) (l : Limits) (paused gz : bool)
  | LReactor (c : nat) (e : ReactorEvent)
  | LRemoteEnd (c : nat) (s : Submission)
  | LCallback (c : nat) (env : OpEnv)
  | LClose (starter_first : bool)
  | LRelease
  | LJoined.

Definition executor_step (w : World) (l : Label) : option World :=
  match l with
  | LStart =>
      match w_starter w with
      | SBefore => Some (w <| w_worker := WCreated |> <| w_starter := SWaiting false |>)
      | _ => None
      end
  | LStarted =>
      match w_starter w with
      | SWaiting true => Some (w <| w_starter := if started_ (w_executor w) then SStarted else SWaiting false |>)
      | _ => None
      end
  | LWorker env throws starter_first => worker_step env throws starter_first w
  | LSpurious => match w_worker w with WWaiting _ => Some (run_loop w) | _ => None end
  | LNewCall c l paused gz =>
      match w_calls w !! c with
      | None =>
          if 0 <=? max_outbound_buffer_size l
          then Some (w <| w_calls := <[c := start_call l true paused gz]> (w_calls w) |>) else None
      | Some _ => None
      end
  | LReactor c e =>
      match e, w_calls w !! c with
      | RRemoteEnd, _ | _, None => None
      | _, Some t => Some (w <| w_calls := <[c := reactor_event e t]> (w_calls w) |>)
      end
  | LRemoteEnd c s =>
      match w_starter w, w_calls w !! c with
      | (SStarted | SJoined), Some t =>
          match reactor t RRemoteEnd with
          | Some (t', Some CbRemoteEnd) => Some (on_remote_end s c (w <| w_calls := <[c := t']> (w_calls w) |>))
          | _ => None
          end
      | _, _ => None
      end
  | LCallback c env =>
      match w_callbacks w !! c with
      | None => None
      | Some (Done _) =>
          Some (w <| w_callbacks := delete c (w_callbacks w) |> <| w_refused := w_refused w ++ [c] |>)
      | Some m =>
          let '(m', calls) := call_step env (Some c) m (w_calls w) in
          Some (w <| w_callbacks := <[c := m']> (w_callbacks w) |> <| w_calls := calls |>)
      end
  | LClose starter_first =>
      Some (notify_one starter_first (w <| w_executor := Close (w_executor w) |>))
  | LRelease => Some (w <| w_gate := Release (w_gate w) |>)
  | LJoined =>
      match w_starter w, w_worker w with
      | SStarted, WExited => if closed_ (w_executor w) then Some (w <| w_starter := SJoined |>) else None
      | _, _ => None
      end
  end.

Definition world_init : World :=
  mkWorld (mkExecutor None false false false) (mkWorkGate false false) WNone SBefore ∅ ∅ [] [] [].

(** ** Calls under interference *)

Definition reactor_events (es : list ReactorEvent) (t : TransportCall) : TransportCall :=
  fold_left (λ t e, reactor_event e t) es t.

(** What the flags of a call say about each other *)
Record call_ok (t : TransportCall) : Prop := {
  co_target : tc_target t = negb (tc_terminal t);
  co_cancelled : tc_cancelled t = true → tc_finish_queued t = true;
  co_abort : tc_force_abort_requested t = true → tc_finish_queued t = true }.

Lemma reactor_ok t e t' cb : call_ok t → reactor t e = Some (t', cb) → call_ok t'.
Proof.
  intros [Ht Hc Ha]. unfold reactor.
  destruct e; unfold processStreamCommand, failStreaming, releaseOutboundReservation,
    cancelStreaming, forceAbortStreaming, retireStream, discardStreamCommands;
    repeat case_match; intros; simplify_eq/=; try done; split; simpl; try done; try congruence; auto.
Qed.

Lemma exec_op_ok op env t : call_ok t → call_ok (exec_op op env t).2.
Proof.
  intros [Ht Hc Ha]. destruct op; simpl;
    unfold serverCallSendInitialMetadata, serverCallSend_check, serverCallSend_commit,
      checkOutboundCapacityLocked, serverCallFinish, serverCallResumeReceive, serverCallAbort, enqueue;
    repeat (case_match; simplify_eq/=; try done); split; simpl; try done; try congruence; auto;
    unfold call_closed in *; rewrite !orb_false_iff in *; naive_solver congruence.
Qed.

(** A reactor changes no command, and what is over stays over. *)
Lemma reactor_event_frame t e :
  call_ok t →
  call_ok (reactor_event e t) ∧ tc_history (reactor_event e t) = tc_history t ∧
  tc_explicit (reactor_event e t) = tc_explicit t ∧
  (call_open (reactor_event e t) = true → call_open t = true) ∧
  (tc_remote_end_called t = true → tc_remote_end_called (reactor_event e t) = true).
Proof.
  intros Hok. unfold reactor_event. destruct (reactor t e) as [[t' cb]|] eqn:E; [|done].
  pose proof (reactor_ok t e t' cb Hok E) as Hok'. pose proof (reactor_frame t e t' cb (co_target t Hok) E) as Hf.
  destruct Hf as (Hh & Hx & Ho & _). assert (tc_remote_end_called t = true → tc_remote_end_called t' = true) as Hr.
  { revert E. clear. unfold reactor. destruct e; unfold processStreamCommand, failStreaming, releaseOutboundReservation,
      cancelStreaming, forceAbortStreaming, retireStream, discardStreamCommands;
      repeat case_match; intros; simplify_eq/=; done. }
  destruct cb as [[]|]; try done. split_and!; try done. by destruct Hok'; split.
Qed.

Lemma reactor_events_frame es t :
  call_ok t →
  call_ok (reactor_events es t) ∧ tc_history (reactor_events es t) = tc_history t ∧
  tc_explicit (reactor_events es t) = tc_explicit t ∧
  (call_open (reactor_events es t) = true → call_open t = true).
Proof.
  revert t. induction es as [|e es IH]; intros t Ht; [done|]. simpl.
  destruct (reactor_event_frame t e Ht) as (H1 & H2 & H3 & H4 & _).
  destruct (IH (reactor_event e t) H1) as (H5 & H6 & H7 & H8). split_and!; [done|congruence..|auto].
Qed.

(** *** Code with reactors at work between its sections

    [ends m Q t]: from [t] on, whatever the reactors and the environment do, the
    sections of [m] run to the end and then [Q] holds. *)
Fixpoint ends (m : Code ()) (Q : TransportCall → Prop) (t : TransportCall) : Prop :=
  match m with
  | Done _ => ∀ es, Q (reactor_events es t)
  | Locked op k => ∀ es env r t', exec_op op env (reactor_events es t) = (r, t') → ends (k r) Q t'
  | Query q k => ∀ es, let t' := reactor_events es t in ends (k (exec_query q t')) Q t'
  end.

Lemma ends_reactor m Q t e : ends m Q t → ends m Q (reactor_event e t).
Proof.
  destruct m as [a|op k|q k]; simpl; intros H es.
  - apply (H (e :: es)).
  - intros env r t'. apply (H (e :: es)).
  - apply (H (e :: es)).
Qed.

Lemma ends_step env m Q t m' t' : ends m Q t → code_step env m t = (m', t') → ends m' Q t'.
Proof.
  destruct m as [a|op k|q k]; simpl.
  - by intros H [= <- <-].
  - intros H. destruct (exec_op op env t) as [r t1] eqn:E. intros [= <- <-]. by apply (H [] env r t1).
  - intros H [= <- <-]. apply (H []).
Qed.

(** The rule for one section, with what the reactors leave alone *)
Lemma ends_locked op k Q t :
  call_ok t →
  (∀ t1 env r t2, call_ok t1 → tc_history t1 = tc_history t → tc_explicit t1 = tc_explicit t →
     (call_open t1 = true → call_open t = true) →
     exec_op op env t1 = (r, t2) → call_ok t2 → ends (k r) Q t2) →
  ends (Locked op k) Q t.
Proof.
  intros Ht Hk es env r t'. destruct (reactor_events_frame es t Ht) as (H1 & H2 & H3 & H4). intros E.
  apply (Hk _ env r t' H1 H2 H3 H4 E). pose proof (exec_op_ok op env _ H1) as H5. by rewrite E in H5.
Qed.

Lemma ends_query q k Q t :
  call_ok t →
  (∀ t1, call_ok t1 → tc_history t1 = tc_history t → (call_open t1 = true → call_open t = true) →
     ends (k (exec_query q t1)) Q t1) →
  ends (Query q k) Q t.
Proof.
  intros Ht Hk es. simpl. destruct (reactor_events_frame es t Ht) as (H1 & H2 & H3 & H4). by apply Hk.
Qed.

(** *** What the answers come to *)

(** The call is over, and what was sent on it is a beginning of [cmds]. *)
Definition answered (cmds : list StreamCommand) (t : TransportCall) : Prop :=
  call_ok t ∧ call_open t = false ∧ ∃ n, tc_history t = take n cmds.

(** Nothing has been sent on the call yet. *)
Record unanswered (t : TransportCall) : Prop := {
  ua_ok : call_ok t;
  ua_history : tc_history t = [];
  ua_commands : tc_commands t = [];
  ua_explicit : tc_explicit t = true;
  ua_headers : call_open t = true → tc_response_headers_queued t = false;
  ua_reserved : tc_outbound_reserved_bytes t = 0 }.

Definition response : list StreamCommand :=
  [CmdInitialMetadata [] Identity; CmdSend kResponse Identity; CmdFinish (status_code Status_default) "" []].

Definition refusal : list StreamCommand :=
  [CmdInitialMetadata [] Identity; CmdFinish (status_code executor_full) "executor full" []].

Lemma answered_reactor cmds e t : answered cmds t → answered cmds (reactor_event e t).
Proof.
  intros (Hok & Ho & n & Hn). destruct (reactor_event_frame t e Hok) as (H1 & H2 & H3 & H4 & _).
  split_and!; [done| |exists n; congruence].
  destruct (call_open (reactor_event e t)) eqn:E; [|done]. rewrite H4 in Ho; done.
Qed.

Lemma answered_reactors cmds es t : answered cmds t → answered cmds (reactor_events es t).
Proof. revert t. induction es as [|e es IH]; intros t Ht; [done|]. apply IH. by apply answered_reactor. Qed.

Lemma unanswered_reactor e t : unanswered t → unanswered (reactor_event e t).
Proof.
  intros [Hok Hh Hc Hx Hq Hr]. destruct (reactor_event_frame t e Hok) as (H1 & H2 & H3 & H4 & _).
  split; [done|congruence| |congruence| |]; [|intros Ho; specialize (Hq (H4 Ho)); revert Ho|]; clear H1 H2 H3 H4 Hok;
    unfold reactor_event, reactor;
    destruct e; unfold processStreamCommand, failStreaming, releaseOutboundReservation,
      cancelStreaming, forceAbortStreaming, retireStream, discardStreamCommands;
    repeat (case_match; simplify_eq/=; try done); rewrite ?Hc in *; simpl in *; try done; try lia;
    unfold call_open, call_closed; simpl; by rewrite andb_false_r.
Qed.

Lemma unanswered_start l paused gz : unanswered (start_call l true paused gz).
Proof. by split. Qed.

(** A section that succeeds sends its command, and one that fails nothing. *)
Lemma exec_op_sends op env t r t' :
  op ≠ OpResumeReceive → exec_op op env t = (r, t') →
  match r, op_command op with
  | None, Some c => call_open t = true ∧ tc_history t' = tc_history t ++ [c]
  | _, _ => tc_history t' = tc_history t
  end.
Proof.
  intros Hne. destruct op; try done; simpl;
    unfold serverCallSendInitialMetadata, serverCallSend_check, serverCallSend_commit,
      checkOutboundCapacityLocked, serverCallFinish, serverCallAbort, enqueue;
    repeat (case_match; simplify_eq/=; try done; auto); intros; simplify_eq/=; auto;
    (split; [|done]); rewrite ?negb_false_iff in *.
  all: try (by eapply check_send_open).
  all: unfold call_open; by apply andb_true_iff; rewrite negb_true_iff.
Qed.

Lemma abort_closes t : call_ok t → call_open (serverCallAbort t) = false.
Proof.
  intros [_ _ Ha]. unfold serverCallAbort, call_open, call_closed.
  destruct (tc_target t) eqn:E1; simpl; [|by rewrite E1].
  destruct (tc_streaming_active t) eqn:E2, (tc_transport_closed t) eqn:E3; simpl;
    rewrite ?E1, ?E2, ?E3; simpl; rewrite ?orb_true_r; try done.
  destruct (tc_force_abort_requested t) eqn:E4; simpl; rewrite ?E1, ?E2, ?E3; [by rewrite Ha|done].
Qed.

Lemma finish_closes code message trailing env t t' :
  exec_op (OpFinish code message trailing) env t = (None, t') → call_open t' = false.
Proof.
  simpl. unfold serverCallFinish, enqueue. repeat case_match; intros; simplify_eq/=.
  unfold call_open, call_closed. simpl. by rewrite orb_true_r, andb_false_r.
Qed.

Definition abort_code : Code () := Locked OpAbort (λ _, Done ()).

Lemma ends_abort cmds n t : call_ok t → tc_history t = take n cmds → ends abort_code (answered cmds) t.
Proof.
  intros Ht Hn. apply ends_locked; [done|]. intros t1 env r t2 H1 Hh _ _ E H2 es.
  apply answered_reactors. simpl in E. injection E as <- <-. split_and!; [done|by apply abort_closes|].
  exists n. rewrite <- Hn, <- Hh. unfold serverCallAbort. repeat case_match; done.
Qed.

(** A section of an answer: the answer goes on when it succeeds, and ends in an abort
    when it fails. *)
Lemma ends_send op c (k : option ServerError → Code ()) pre post t :
  op ≠ OpResumeReceive → op_command op = Some c → call_ok t → tc_history t = pre →
  (∀ e, k (Some e) = abort_code) →
  (∀ env t1 t2, exec_op op env t1 = (None, t2) → call_ok t2 → tc_history t2 = pre ++ [c] →
     ends (k None) (answered (pre ++ c :: post)) t2) →
  ends (Locked op k) (answered (pre ++ c :: post)) t.
Proof.
  intros Hne Hc Ht Hpre Hfail Hk. apply ends_locked; [done|]. intros t1 env r t2 H1 Hh _ _ E H2.
  pose proof (exec_op_sends op env t1 r t2 Hne E) as Hs. rewrite Hc in Hs. destruct r as [e|].
  - rewrite Hfail. apply (ends_abort _ (length pre)); [done|]. rewrite take_app_length. congruence.
  - destruct Hs as [_ Hs]. apply (Hk env t1); [done..|congruence].
Qed.

Lemma ends_finish code message (k : option ServerError → Code ()) pre t :
  call_ok t → tc_history t = pre → (∀ e, k (Some e) = abort_code) → k None = Done () →
  ends (Locked (OpFinish code message []) k) (answered (pre ++ [CmdFinish code message []])) t.
Proof.
  intros Ht Hpre Hfail Hdone. eapply ends_send; [done..|]. intros env t1 t2 E H2 Hh. rewrite Hdone. intros es.
  apply answered_reactors. split_and!; [done|by eapply finish_closes|]. exists (length (pre ++ [CmdFinish code message []])).
  by rewrite firstn_all.
Qed.

Lemma rejected_answered t : unanswered t → ends (answer_rejected true) (answered refusal) t.
Proof.
  intros [Hok Hh _ _ _ _]. change refusal with ([] ++ CmdInitialMetadata [] Identity :: tail refusal).
  eapply ends_send; [done..| |]; [by intros []|]. intros env t1 t2 _ H2 Hh2.
  by apply (ends_finish 8 "executor full" _ [CmdInitialMetadata [] Identity]); [| |intros []|].
Qed.

Lemma accepted_answered t : unanswered t → ends (answer_accepted true) (answered response) t.
Proof.
  intros [Hok Hh _ _ _ _]. apply ends_query; [done|]. intros t1 H1 Hh1 Ho1. destruct (exec_query QCancelled t1) eqn:Ec.
  { intros es. apply answered_reactors. split_and!; [done| |by exists 0%nat; rewrite Hh1].
    unfold call_open, call_closed. rewrite (co_cancelled t1 H1) by done. by rewrite orb_true_r, andb_false_r. }
  apply ends_query; [done|]. intros t2 H2 Hh2 Ho2. destruct (exec_query QTerminal t2) eqn:Et.
  { intros es. apply answered_reactors. split_and!; [done| |exists 0%nat; rewrite Hh2, Hh1; done].
    unfold call_open. rewrite (co_target t2 H2). simpl in Et. by rewrite Et. }
  change response with ([] ++ CmdInitialMetadata [] Identity :: tail response).
  eapply ends_send; [done| |done|congruence|by intros []|]; [done|]. intros env t3 t4 _ H4 Hh4. simpl in Hh4.
  apply ends_locked; [done|]. intros t5 env' r t6 H5 Hh5 _ _ E6 H6.
  apply exec_op_sends in E6; [|done]. destruct r as [e|]; simpl in E6.
  { change (ends (if negb (Error_ok (Error_of_c (c_result (Some e)))) then abort_code else finish_or_abort true Status_default)
      (answered response) t6). rewrite c_result_ok. apply (ends_abort _ 1); [done|]. simpl. congruence. }
  change ([] ++ CmdInitialMetadata [] Identity :: tail response)
    with ([CmdInitialMetadata [] Identity] ++ CmdSend kResponse Identity :: [CmdFinish 0 "" []]).
  eapply ends_send; [done| |done|congruence|by intros []|]; [done|]. intros env'' t7 t8 _ H8 Hh8.
  by apply (ends_finish 0 "" _ [CmdInitialMetadata [] Identity; CmdSend kResponse Identity]); [| |intros []|].
Qed.

(** ** Control: executor, worker and starter *)

(** The call the worker has in its hands *)
Definition in_hand (wk : Worker) : option nat :=
  match wk with WCall call | WInGate call | WAnswering call _ => call | _ => None end.

(** What the place of the worker says about the executor.  A worker that waits and has
    not been woken has nothing to do: no wake-up is lost. *)
Definition worker_inv (x : Executor) (wk : Worker) : Prop :=
  match wk with
  | WNone | WCreated => slot_ x = None ∧ busy_ x = false ∧ started_ x = false
  | WWaiting signalled =>
      started_ x = true ∧ busy_ x = bool_decide (is_Some (slot_ x)) ∧
      (signalled = false → closed_ x = false ∧ busy_ x = false)
  | WCall call | WInGate call | WAnswering call _ =>
      started_ x = true ∧ busy_ x = true ∧ slot_ x = None ∧ is_Some call
  | WReleased => started_ x = true ∧ busy_ x = true ∧ slot_ x = None
  | WExited => started_ x = true ∧ busy_ x = false ∧ slot_ x = None ∧ closed_ x = true
  end.

Definition starter_inv (x : Executor) (wk : Worker) (st : Starter) : Prop :=
  match st with
  | SBefore => wk = WNone
  | SWaiting false => wk = WCreated
  | SWaiting true => wk ≠ WNone
  | SStarted | SJoined => started_ x = true
  end.

Definition control_inv (w : World) : Prop :=
  worker_inv (w_executor w) (w_worker w) ∧ starter_inv (w_executor w) (w_worker w) (w_starter w).

Lemma run_loop_control w :
  started_ (w_executor w) = true → busy_ (w_executor w) = bool_decide (is_Some (slot_ (w_executor w))) →
  starter_inv (w_executor w) (WWaiting true) (w_starter w) → control_inv (run_loop w).
Proof.
  destruct w as [x g wk st calls cbs acc dn rf]. unfold control_inv, run_loop. simpl.
  destruct x as [[c|] [] [] []], st as [|[]| |]; simpl; intros; try done; split_and!; try done; by eexists.
Qed.

(** Waking a thread keeps the control when the executor has something for it. *)
Lemma notify_control b w :
  worker_inv (w_executor w) (match w_worker w with WWaiting _ => WWaiting true | wk => wk end) →
  starter_inv (w_executor w) (w_worker w) (w_starter w) → control_inv (notify_one b w).
Proof.
  destruct w as [x g wk st calls cbs acc dn rf]. unfold control_inv, notify_one. simpl.
  destruct st as [|[]| |], wk as [| |[]|?|?|? ?| |]; simpl; intros; try done; by destruct b.
Qed.

Lemma worker_step_control env throws b w w' :
  control_inv w → worker_step env throws b w = Some w' → control_inv w'.
Proof.
  intros [Hw Hs]. unfold worker_step, WorkGate_Run. destruct (w_worker w) as [| |signalled|call|call|call m| |] eqn:Ew; simpl in Hw.
  - done.
  - intros [= <-]. destruct Hw as (Hslot & Hbusy & Hst).
    apply run_loop_control; unfold notify_one; simpl; rewrite Ew; destruct (w_starter w) as [|[]| |] eqn:Es; simpl;
      rewrite ?Hslot, ?Hbusy, ?Es; try done.
  - destruct signalled; [|done]. intros [= <-]. destruct Hw as (H1 & H2 & _). apply run_loop_control; [done..|].
    by destruct (w_starter w) as [|[]| |].
  - destruct throws; intros [= <-]; unfold control_inv; simpl.
    + destruct (w_starter w) as [|[]| |]; done.
    + destruct (released_ (w_gate w)), (w_starter w) as [|[]| |]; done.
  - destruct (released_ (w_gate w)); [|done]. intros [= <-]. unfold control_inv. simpl.
    destruct (w_starter w) as [|[]| |]; done.
  - destruct Hw as (H1 & H2 & H3 & H4). destruct m as [a|op k|q k]; [intros [= <-]|..]; unfold control_inv.
    + simpl. destruct (w_starter w) as [|[]| |]; done.
    + destruct (call_step _ _ _ _) as [m' calls]. intros [= <-]. simpl. destruct (w_starter w) as [|[]| |]; done.
    + destruct (call_step _ _ _ _) as [m' calls]. intros [= <-]. simpl. destruct (w_starter w) as [|[]| |]; done.
  - intros [= <-]. destruct Hw as (H1 & H2 & H3). apply run_loop_control; simpl; [done|by rewrite H3|].
    by destruct (w_starter w) as [|[]| |].
  - done.
Qed.

Lemma on_remote_end_control s c w :
  control_inv w → started_ (w_executor w) = true → control_inv (on_remote_end s c w).
Proof.
  intros [Hw Hs] Hst. unfold on_remote_end.
  assert (∀ contended b, control_inv (
    let '(accepted, _, x) := TrySubmit contended (Some c) (w_executor w) in
      if accepted : bool then
        notify_one b (w <| w_executor := x |> <| w_accepted := w_accepted w ++ [c] |>)
      else w <| w_callbacks := <[c := answer_rejected true]> (w_callbacks w) |>)) as Hsub.
  { intros contended b. unfold TrySubmit. destruct (contended || closed_ (w_executor w) || busy_ (w_executor w)) eqn:E.
    - by split.
    - apply orb_false_iff in E as [E Eb]. apply orb_false_iff in E as [_ E]. apply notify_control; simpl.
      + destruct (w_worker w) as [| |[]|?|?|? ?| |]; simpl in *; destruct_and?; try congruence; by split_and!.
      + destruct (w_starter w) as [|[]| |]; done. }
  destruct s; [apply (Hsub true false)|apply (Hsub false starter_first)|by split].
Qed.

Lemma control_step w l w' : control_inv w → executor_step w l = Some w' → control_inv w'.
Proof.
  intros Hc. destruct l as [| |env throws b| |c l paused gz|c e|c s|c env|b| |]; cbn [executor_step].
  - destruct Hc as [Hw Hs]. destruct (w_starter w); try done. intros [= <-]. simpl in Hs. rewrite Hs in Hw. by split.
  - destruct Hc as [Hw Hs]. destruct (w_starter w) as [|[]| |]; try done. intros [= <-]. simpl in Hs.
    split; [done|]. simpl. destruct (started_ (w_executor w)) eqn:E; simpl; [done|].
    destruct (w_worker w); simpl in *; try done; naive_solver congruence.
  - by apply worker_step_control.
  - destruct Hc as [Hw Hs]. destruct (w_worker w); try done. intros [= <-]. destruct Hw as (H1 & H2 & _).
    apply run_loop_control; [done..|]. by destruct (w_starter w) as [|[]| |].
  - destruct (w_calls w !! c); [done|]. case_match; [|done]. by intros [= <-].
  - destruct e, (w_calls w !! c); try done; by intros [= <-].
  - destruct Hc as [Hw Hs]. destruct (w_starter w) eqn:Es; try done.
    all: destruct (w_calls w !! c) as [t|]; [|done]; destruct (reactor t RRemoteEnd) as [[t' [[]|]]|]; try done.
    all: intros [= <-]; apply on_remote_end_control; [|by simpl in Hs]; split; simpl; [done|by rewrite Es].
  - destruct (w_callbacks w !! c) as [m|]; [|done]. destruct m; [by intros [= <-]|..];
      destruct (call_step _ _ _ _) as [m' calls]; by intros [= <-].
  - destruct Hc as [Hw Hs]. intros [= <-]. apply notify_control; simpl.
    + destruct (w_worker w) as [| |[]|?|?|? ?| |]; simpl in *; naive_solver.
    + destruct (w_starter w) as [|[]| |]; done.
  - by intros [= <-].
  - destruct Hc as [Hw Hs]. destruct (w_starter w), (w_worker w) eqn:Ew; try done. destruct (closed_ _); [|done].
    intros [= <-]. split; simpl; by rewrite ?Ew.
Qed.

(** ** Data: who has which call, and what was sent on it *)

Definition answering (wk : Worker) : option (nat * Code ()) :=
  match wk with WAnswering (Some c) m => Some (c, m) | _ => None end.

Definition outstanding (w : World) : list nat :=
  option_list (in_hand (w_worker w)) ++ option_list (slot_ (w_executor w)).

Definition submitted (w : World) (c : nat) : Prop :=
  c ∈ w_accepted w ∨ is_Some (w_callbacks w !! c) ∨ c ∈ w_refused w.

(** The state of a call by the place where it is *)
Record call_data (w : World) (c : nat) (t : TransportCall) : Prop := {
  cd_ok : call_ok t;
  cd_seen : submitted w c → tc_remote_end_called t = true;
  cd_unanswered : c ∉ w_done w → c ∉ w_refused w → w_callbacks w !! c = None →
    (∀ m, answering (w_worker w) ≠ Some (c, m)) → unanswered t;
  cd_callback m : w_callbacks w !! c = Some m → ends m (answered refusal) t;
  cd_answering m : answering (w_worker w) = Some (c, m) → ends m (answered response) t;
  cd_done : c ∈ w_done w → answered response t;
  cd_refused : c ∈ w_refused w → answered refusal t }.

Record data_inv (w : World) : Prop := {
  di_accepted : w_accepted w = w_done w ++ outstanding w;
  di_nodup : NoDup (w_accepted w ++ w_refused w);
  di_callbacks c : is_Some (w_callbacks w !! c) → (c ∉ w_accepted w) ∧ c ∉ w_refused w;
  di_known c : submitted w c → is_Some (w_calls w !! c);
  di_call c t : w_calls w !! c = Some t → call_data w c t }.

(** Steps that leave the data alone *)
Lemma data_frame w w' :
  w_calls w' = w_calls w → w_callbacks w' = w_callbacks w → w_accepted w' = w_accepted w → w_done w' = w_done w →
  w_refused w' = w_refused w → outstanding w' = outstanding w →
  answering (w_worker w') = answering (w_worker w) → data_inv w → data_inv w'.
Proof.
  intros H1 H2 H3 H4 H5 H6 H7 [D1 D2 D3 D4 D5]. split; unfold submitted in *; rewrite ?H1, ?H2, ?H3, ?H4, ?H5, ?H6; [done..|].
  intros c t Ht. destruct (D5 c t Ht). split; unfold submitted in *; rewrite ?H2, ?H3, ?H4, ?H5, ?H7; done.
Qed.

Lemma notify_frame b w :
  let w' := notify_one b w in
  w_calls w' = w_calls w ∧ w_callbacks w' = w_callbacks w ∧ w_accepted w' = w_accepted w ∧ w_done w' = w_done w ∧
  w_refused w' = w_refused w ∧ outstanding w' = outstanding w ∧ answering (w_worker w') = answering (w_worker w) ∧
  w_executor w' = w_executor w ∧ w_gate w' = w_gate w.
Proof.
  destruct w as [x g wk st calls cbs acc dn rf]. unfold notify_one, outstanding. simpl.
  destruct st as [|[]| |], wk as [| |[]|?|?|? ?| |], b; done.
Qed.

Lemma notify_data b w : data_inv w → data_inv (notify_one b w).
Proof.
  destruct (notify_frame b w) as (? & ? & ? & ? & ? & ? & ? & _). by apply data_frame.
Qed.

Lemma run_loop_data w :
  busy_ (w_executor w) = bool_decide (is_Some (slot_ (w_executor w))) → in_hand (w_worker w) = None →
  data_inv w → data_inv (run_loop w).
Proof.
  intros Hb Hh. assert (answering (w_worker w) = None) as Ha by (destruct (w_worker w) as [| | | | |[]| |]; done).
  apply data_frame; unfold run_loop, outstanding;
    destruct (closed_ (w_executor w)) eqn:E1, (busy_ (w_executor w)) eqn:E2; simpl; rewrite ?Hh, ?Ha; try done;
    destruct (slot_ (w_executor w)); simpl; try done; rewrite ?bool_decide_false in Hb; try done; by intros [].
Qed.

(** A change of one call that keeps its data *)
Lemma data_update w c t t' :
  w_calls w !! c = Some t → call_data w c t' → data_inv w → data_inv (w <| w_calls := <[c := t']> (w_calls w) |>).
Proof.
  intros Ht Hd [D1 D2 D3 D4 D5]. split; simpl; [done..| |].
  - intros c' Hc'. apply lookup_insert_is_Some'. right. by apply D4.
  - intros c' t1 [[<- <-]|[Hne Ht1]]%lookup_insert_Some.
    + by destruct Hd.
    + by destruct (D5 c' t1 Ht1).
Qed.

Lemma reactor_data w c e t : data_inv w → w_calls w !! c = Some t → call_data w c (reactor_event e t).
Proof.
  intros Hd Ht. destruct (di_call w Hd c t Ht) as [C1 C2 C3 C4 C5 C6 C7].
  destruct (reactor_event_frame t e C1) as (H1 & H2 & H3 & H4 & H5). split; [done|..].
  - auto.
  - intros. apply unanswered_reactor. auto.
  - intros. apply ends_reactor. auto.
  - intros. apply ends_reactor. auto.
  - intros. apply answered_reactor. auto.
  - intros. apply answered_reactor. auto.
Qed.

(** One section of an operation on a call keeps the data of the call, for the owner
    with the rest of its code. *)
Lemma code_step_frame env m t m' t' :
  call_ok t → code_step env m t = (m', t') →
  call_ok t' ∧ tc_remote_end_called t' = tc_remote_end_called t.
Proof.
  intros Ht. destruct m as [a|op k|q k]; simpl; [by intros [= <- <-]| |by intros [= <- <-]].
  destruct (exec_op op env t) as [r t1] eqn:E. intros [= <- <-].
  pose proof (exec_op_ok op env t Ht) as Hok. rewrite E in Hok. split; [done|]. revert E. clear.
  destruct op; simpl;
    unfold serverCallSendInitialMetadata, serverCallSend_check, serverCallSend_commit,
      checkOutboundCapacityLocked, serverCallFinish, serverCallResumeReceive, serverCallAbort, enqueue;
    repeat (case_match; simplify_eq/=; try done); intros; by simplify_eq/=.
Qed.

Lemma in_hand_data w c :
  data_inv w → in_hand (w_worker w) = Some c →
  c ∈ w_accepted w ∧ (c ∉ w_done w) ∧ (c ∉ w_refused w) ∧ w_callbacks w !! c = None ∧ is_Some (w_calls w !! c).
Proof.
  intros Hd Hc. assert (c ∈ w_accepted w) as Hin.
  { rewrite (di_accepted w Hd). unfold outstanding. rewrite Hc. simpl. set_solver. }
  pose proof (di_nodup w Hd) as Hnd. apply NoDup_app in Hnd as (Hnd & Hdis & _).
  rewrite (di_accepted w Hd) in Hnd. apply NoDup_app in Hnd as (_ & Hdis' & _).
  split_and!; [done| |by apply Hdis| |].
  - intros Hdone. apply (Hdis' c Hdone). unfold outstanding. rewrite Hc. simpl. set_solver.
  - apply eq_None_not_Some. intros Hs. by destruct (di_callbacks w Hd c Hs).
  - apply (di_known w Hd). by left.
Qed.

(** The worker begins to answer the call in its hands. *)
Lemma begin_answer_data w g c m :
  data_inv w → in_hand (w_worker w) = Some c → answering (w_worker w) = None →
  (∀ t, unanswered t → ends m (answered response) t) →
  data_inv (w <| w_gate := g |> <| w_worker := WAnswering (Some c) m |>).
Proof.
  intros Hd Hc Ha Hm. destruct (in_hand_data w c Hd Hc) as (Hin & Hnd & Hnr & Hnc & _).
  pose proof Hd as [D1 D2 D3 D4 D5]. split; [|done..|].
  - simpl. rewrite D1. unfold outstanding. by rewrite Hc.
  - intros c' t Ht. simpl in Ht. destruct (D5 c' t Ht) as [C1 C2 C3 C4 C5 C6 C7].
    split; simpl; [done..| |done| |done|done].
    + intros H1 H2 H3 H4. apply C3; [done..|]. by rewrite Ha.
    + intros m' [= -> <-]. apply Hm, C3; [done..|]. by rewrite Ha.
Qed.

Lemma answer_step_data w env c m m' t t' :
  data_inv w → w_worker w = WAnswering (Some c) m → w_calls w !! c = Some t → code_step env m t = (m', t') →
  data_inv (w <| w_worker := WAnswering (Some c) m' |> <| w_calls := <[c := t']> (w_calls w) |>).
Proof.
  intros Hd Hw Ht E. destruct (in_hand_data w c Hd) as (Hin & Hnd & Hnr & Hnc & _); [by rewrite Hw|].
  pose proof Hd as [D1 D2 D3 D4 D5]. split; simpl; [|done..| |].
  - rewrite D1. unfold outstanding. by rewrite Hw.
  - intros c' Hc'. apply lookup_insert_is_Some'. right. by apply D4.
  - intros c' t1 [[<- <-]|[Hne Ht1]]%lookup_insert_Some.
    + destruct (D5 c t Ht) as [C1 C2 C3 C4 C5 C6 C7]. destruct (code_step_frame env m t m' t' C1 E) as [H1 H2].
      split; simpl; [done|by rewrite H2; apply C2|by intros _ _ _ H; destruct (H m')|by rewrite Hnc| |done|done].
      intros m1 [= <-]. eapply ends_step; [|exact E]. apply C5. by rewrite Hw.
    + destruct (D5 c' t1 Ht1) as [C1 C2 C3 C4 C5 C6 C7]. split; simpl; [done..| |done| |done|done].
      * intros H1 H2 H3 H4. apply C3; [done..|]. rewrite Hw. simpl. congruence.
      * intros m1 [= ? ?]. congruence.
Qed.

Lemma worker_step_data env throws b w w' :
  control_inv w → data_inv w → worker_step env throws b w = Some w' → data_inv w'.
Proof.
  intros [Hw _] Hd. unfold worker_step, WorkGate_Run. destruct (w_worker w) as [| |signalled|call|call|call m| |] eqn:Ew; simpl in Hw.
  - done.
  - intros [= <-]. destruct Hw as (Hslot & Hbusy & Hst).
    set (w1 := w <| w_executor := _ |>). destruct (notify_frame b w1) as (_ & _ & _ & _ & _ & _ & _ & Hx & _).
    apply run_loop_data; [by rewrite Hx; simpl; rewrite Hbusy, Hslot| |].
    + unfold notify_one. simpl. rewrite Ew. by destruct (w_starter w) as [|[]| |]; simpl; rewrite ?Ew.
    + apply notify_data. revert Hd. apply data_frame; done.
  - destruct signalled; [|done]. intros [= <-]. apply run_loop_data; [apply Hw|by rewrite Ew|done].
  - destruct Hw as (_ & _ & _ & [c ->]). rewrite bool_decide_true by eauto.
    destruct throws; [|destruct (released_ (w_gate w))]; intros [= <-].
    + pose proof (begin_answer_data w (w_gate w) c abort_code Hd) as Hb. rewrite Ew in Hb.
      destruct w. apply Hb; [done..|]. intros t [Hok Hh]. by apply (ends_abort _ 0).
    + apply begin_answer_data; [done|by rewrite Ew..|apply accepted_answered].
    + revert Hd. apply data_frame; try done; unfold outstanding; simpl; by rewrite Ew.
  - destruct Hw as (_ & _ & _ & [c ->]). rewrite bool_decide_true by eauto.
    destruct (released_ (w_gate w)); [|done]. intros [= <-].
    pose proof (begin_answer_data w (w_gate w) c (answer_accepted true) Hd) as Hb. rewrite Ew in Hb.
    destruct w. apply Hb; [done..|]. apply accepted_answered.
  - destruct Hw as (_ & _ & _ & [c ->]). destruct (in_hand_data w c Hd) as (Hin & Hnd & Hnr & Hnc & [t Ht]);
      [by rewrite Ew|].
    destruct m as [a|op k|q k].
    + intros [= <-]. pose proof Hd as [D1 D2 D3 D4 D5]. split; [|done..|].
      * simpl. rewrite D1. unfold outstanding. rewrite Ew. simpl. by rewrite <- app_assoc.
      * intros c' t' Ht'. destruct (D5 c' t' Ht') as [C1 C2 C3 C4 C5 C6 C7]. split; simpl; [done..| |done|done| |done].
        -- intros H1 H2 H3 _. apply C3; [set_solver|done..|]. rewrite Ew. simpl. set_solver.
        -- intros [?|Hc%list_elem_of_singleton]%elem_of_app; [auto|]. subst c'. simplify_eq/=.
           pose proof (C5 (Done a)) as C. rewrite Ew in C. by apply (C eq_refl []).
    + unfold call_step. rewrite Ht. destruct (code_step env (Locked op k) t) as [m' t'] eqn:E. intros [= <-].
      by eapply answer_step_data.
    + unfold call_step. rewrite Ht. destruct (code_step env (Query q k) t) as [m' t'] eqn:E. intros [= <-].
      by eapply answer_step_data.
  - intros [= <-]. destruct Hw as (_ & _ & Hslot). apply run_loop_data; simpl; [by rewrite Hslot|by rewrite Ew|].
    revert Hd. apply data_frame; done.
  - done.
Qed.

Lemma remote_end_unseen t t' cb :
  call_ok t → reactor t RRemoteEnd = Some (t', cb) → tc_remote_end_called t = false ∧ tc_remote_end_called t' = true.
Proof. intros _. unfold reactor. repeat case_match; intros; simplify_eq/=; rewrite ?orb_false_iff in *; naive_solver. Qed.

Lemma new_unanswered w c t : data_inv w → w_calls w !! c = Some t → ¬ submitted w c → unanswered t.
Proof.
  intros Hd Ht Hnew. apply (cd_unanswered w c t (di_call w Hd c t Ht)).
  - intros Hin. apply Hnew. left. rewrite (di_accepted w Hd). set_solver.
  - intros Hin. apply Hnew. by right; right.
  - apply eq_None_not_Some. intros Hin. apply Hnew. by right; left.
  - intros m1 Hm1. apply Hnew. left. rewrite (di_accepted w Hd). apply elem_of_app. right. unfold outstanding.
    destruct (w_worker w) as [| | | | |[] ?| |]; simplify_eq/=. set_solver.
Qed.

(** A call that has not been submitted goes to its callback. *)
Lemma refuse_data w c t m :
  data_inv w → w_calls w !! c = Some t → ¬ submitted w c → tc_remote_end_called t = true →
  (∀ t, unanswered t → ends m (answered refusal) t) →
  data_inv (w <| w_callbacks := <[c := m]> (w_callbacks w) |>).
Proof.
  intros Hd Ht Hnew Hcalled Hm. pose proof Hd as [D1 D2 D3 D4 D5]. split; simpl; [done|done| | |].
  - intros c'. rewrite lookup_insert_is_Some'. intros [<-|?]; [|by apply D3]. unfold submitted in Hnew. tauto.
  - intros c' Hs. unfold submitted in Hs. simpl in Hs. rewrite lookup_insert_is_Some' in Hs.
    destruct (decide (c = c')) as [<-|]; [by eexists|]. apply D4. unfold submitted. tauto.
  - intros c' t' Ht'. destruct (D5 c' t' Ht') as [C1 C2 C3 C4 C5 C6 C7]. split; simpl; [done|..|done|done|done].
    + unfold submitted. simpl. rewrite lookup_insert_is_Some'. intros Hs. destruct (decide (c = c')) as [<-|]; [congruence|].
      apply C2. unfold submitted. tauto.
    + intros H1 H2 [H3 _]%lookup_insert_None H4. by apply C3.
    + intros m' [[<- <-]|[Hne Hc']]%lookup_insert_Some; [|by apply C4]. apply Hm. by apply (new_unanswered w c).
Qed.

(** Or it goes into the slot, when that is free. *)
Lemma accept_data w c t x :
  data_inv w → w_calls w !! c = Some t → ¬ submitted w c → tc_remote_end_called t = true →
  in_hand (w_worker w) = None → slot_ (w_executor w) = None → slot_ x = Some c →
  data_inv (w <| w_executor := x |> <| w_accepted := w_accepted w ++ [c] |>).
Proof.
  intros Hd Ht Hnew Hcalled Eh Es Ex. pose proof Hd as [D1 D2 D3 D4 D5].
  assert (∀ c', c' ∈ w_accepted w ++ [c] ↔ c' = c ∨ c' ∈ w_accepted w) as Hmem.
  { intros c'. rewrite elem_of_app, list_elem_of_singleton. tauto. }
  split; simpl.
  - rewrite D1. unfold outstanding. simpl. by rewrite Eh, Es, Ex, app_nil_r.
  - apply (NoDup_Permutation_proper _ (c :: w_accepted w ++ w_refused w)); [solve_Permutation|].
    apply NoDup_cons. split; [|done]. rewrite elem_of_app. unfold submitted in Hnew. tauto.
  - intros c' Hc'. destruct (D3 c' Hc') as [H1 H2]. split; [|done]. rewrite Hmem.
    intros [->|?]; [|done]. apply Hnew. by right; left.
  - intros c' Hs. unfold submitted in Hs. simpl in Hs. rewrite Hmem in Hs.
    destruct (decide (c' = c)) as [->|]; [by eexists|]. apply D4. unfold submitted. tauto.
  - intros c' t' Ht'. destruct (D5 c' t' Ht') as [C1 C2 C3 C4 C5 C6 C7]. split; simpl; [done| |done..].
    unfold submitted. simpl. rewrite Hmem. intros Hs.
    destruct (decide (c' = c)) as [->|]; [congruence|]. apply C2. unfold submitted. tauto.
Qed.

Lemma on_remote_end_data s c t w :
  control_inv w → data_inv w → w_calls w !! c = Some t → ¬ submitted w c → tc_remote_end_called t = true →
  data_inv (on_remote_end s c w).
Proof.
  intros [Hw _] Hd Ht Hnew Hcalled.
  assert (∀ contended b, data_inv (
    let '(accepted, _, x) := TrySubmit contended (Some c) (w_executor w) in
      if accepted : bool then
        notify_one b (w <| w_executor := x |> <| w_accepted := w_accepted w ++ [c] |>)
      else w <| w_callbacks := <[c := answer_rejected true]> (w_callbacks w) |>)) as Hsub.
  { intros contended b. unfold TrySubmit. destruct (contended || closed_ (w_executor w) || busy_ (w_executor w)) eqn:E.
    { eapply refuse_data; [done..|]. apply rejected_answered. }
    apply orb_false_iff in E as [_ Eb]. apply notify_data.
    assert (in_hand (w_worker w) = None ∧ slot_ (w_executor w) = None) as [Eh Es].
    { destruct (w_worker w) as [| |[]|?|?|? ?| |]; simpl in *; destruct_and?; try congruence; split_and!; try done;
        destruct (slot_ (w_executor w)); simpl in *; congruence. }
    by eapply accept_data. }
  unfold on_remote_end. destruct s; [apply (Hsub true)|apply (Hsub false)|].
  eapply refuse_data; [done..|]. intros t' [Hok Hh]. by apply (ends_abort _ 0).
Qed.

(** A callback goes on with the refusal of its call. *)
Lemma callback_step_data w env c m m' t t' :
  data_inv w → w_callbacks w !! c = Some m → w_calls w !! c = Some t → code_step env m t = (m', t') →
  data_inv (w <| w_callbacks := <[c := m']> (w_callbacks w) |> <| w_calls := <[c := t']> (w_calls w) |>).
Proof.
  intros Hd Hm Ht E. destruct (di_callbacks w Hd c) as [Hna Hnr]; [by rewrite Hm|].
  pose proof Hd as [D1 D2 D3 D4 D5].
  assert (∀ c', is_Some (<[c := m']> (w_callbacks w) !! c') ↔ is_Some (w_callbacks w !! c')) as Hsome.
  { intros c'. rewrite lookup_insert_is_Some'. split; [intros [<-|]; [by rewrite Hm|done]|by right]. }
  split; simpl; [done|done| | |].
  - intros c' Hc'. apply D3. by apply Hsome.
  - intros c' Hs. apply lookup_insert_is_Some'. right. apply D4. unfold submitted in *. simpl in Hs. by rewrite Hsome in Hs.
  - intros c' t1 [[<- <-]|[Hne Ht1]]%lookup_insert_Some.
    + destruct (D5 c t Ht) as [C1 C2 C3 C4 C5 C6 C7]. destruct (code_step_frame env m t m' t' C1 E) as [H1 H2].
      split; simpl; [done| |by rewrite lookup_insert_eq| | | |done].
      * intros Hs. rewrite H2. apply C2. right. left. by rewrite Hm.
      * intros m1 [[_ <-]|[]]%lookup_insert_Some; [|done]. eapply ends_step; [|exact E]. by apply C4.
      * intros m1 Hm1. exfalso. apply Hna. rewrite D1. apply elem_of_app. right. unfold outstanding.
        destruct (w_worker w) as [| | | | |[] ?| |]; simplify_eq/=. set_solver.
      * intros Hin. exfalso. apply Hna. rewrite D1. set_solver.
    + destruct (D5 c' t1 Ht1) as [C1 C2 C3 C4 C5 C6 C7]. split; simpl; [done| | | |done..].
      * unfold submitted. simpl. rewrite Hsome. apply C2.
      * by rewrite lookup_insert_ne by done.
      * rewrite lookup_insert_ne by done. apply C4.
Qed.

Lemma callback_done_data w c a :
  data_inv w → w_callbacks w !! c = Some (Done a) →
  data_inv (w <| w_callbacks := delete c (w_callbacks w) |> <| w_refused := w_refused w ++ [c] |>).
Proof.
  intros Hd Hm. destruct (di_callbacks w Hd c) as [Hna Hnr]; [by rewrite Hm|].
  pose proof Hd as [D1 D2 D3 D4 D5].
  assert (∀ c', submitted (w <| w_callbacks := delete c (w_callbacks w) |> <| w_refused := w_refused w ++ [c] |>) c' →
    submitted w c') as Hsub.
  { intros c'. unfold submitted. simpl. rewrite lookup_delete_is_Some, elem_of_app, list_elem_of_singleton.
    intros [?|[[_ ?]|[?| ->]]]; eauto. }
  split; simpl; [done| | |by intros c' ?%Hsub; apply D4|].
  - rewrite app_assoc. apply NoDup_app. split_and!; [done| |apply NoDup_singleton].
    intros c' Hc'. rewrite list_elem_of_singleton. intros ->. apply elem_of_app in Hc' as [?|?]; done.
  - intros c' [Hne Hs]%lookup_delete_is_Some. destruct (D3 c' Hs). split; [done|]. rewrite elem_of_app, list_elem_of_singleton.
    by intros [?| ->].
  - intros c' t Ht. destruct (D5 c' t Ht) as [C1 C2 C3 C4 C5 C6 C7]. split; simpl; [done|by intros ?%Hsub; apply C2| | |done..|].
    + intros H1 H2 H3 H4. rewrite elem_of_app, list_elem_of_singleton in H2. apply C3; [done|tauto| |done].
      apply lookup_delete_None in H3 as [->|?]; [tauto|done].
    + intros m1 [_ Hm1]%lookup_delete_Some. by apply C4.
    + rewrite elem_of_app, list_elem_of_singleton. intros [?| ->]; [by apply C7|]. by apply (C4 (Done a) Hm []).
Qed.

Lemma new_call_data w c l paused gz :
  data_inv w → w_calls w !! c = None → data_inv (w <| w_calls := <[c := start_call l true paused gz]> (w_calls w) |>).
Proof.
  intros Hd Hnew. pose proof Hd as [D1 D2 D3 D4 D5].
  assert (¬ submitted w c) as Hns by (intros Hs; destruct (D4 c Hs); congruence).
  split; simpl; [done..| |].
  - intros c' Hs. apply lookup_insert_is_Some'. right. by apply D4.
  - intros c' t [[<- <-]|[Hne Ht]]%lookup_insert_Some; [|by destruct (D5 c' t Ht)].
    assert ((c ∉ w_accepted w) ∧ (c ∉ w_refused w) ∧ w_callbacks w !! c = None) as (H1 & H2 & H3).
    { unfold submitted in Hns. split_and!; [tauto|tauto|]. apply eq_None_not_Some. tauto. }
    split; simpl; [done|done|done|by rewrite H3| | |done].
    + intros m Hm. exfalso. apply H1. rewrite D1. apply elem_of_app. right. unfold outstanding.
      destruct (w_worker w) as [| | | | |[] ?| |]; simplify_eq/=. set_solver.
    + intros Hin. exfalso. apply H1. rewrite D1. set_solver.
Qed.

Lemma data_step w l w' : control_inv w → data_inv w → executor_step w l = Some w' → data_inv w'.
Proof.
  intros Hc Hd. destruct l as [| |env throws b| |c l paused gz|c e|c s|c env|b| |]; cbn [executor_step].
  - destruct Hc as [Hw Hs]. destruct (w_starter w) eqn:Es; try done. simpl in Hs. intros [= <-].
    revert Hd. apply data_frame; try done; unfold outstanding; simpl; by rewrite Hs.
  - destruct (w_starter w) as [|[]| |]; try done. intros [= <-]. revert Hd. apply data_frame; done.
  - by apply worker_step_data.
  - destruct Hc as [Hw _]. destruct (w_worker w) eqn:Ew; try done. intros [= <-].
    apply run_loop_data; [apply Hw|by rewrite Ew|done].
  - destruct (w_calls w !! c) eqn:E; [done|]. case_match; [|done]. intros [= <-]. by apply new_call_data.
  - destruct (w_calls w !! c) as [t|] eqn:Ht; [|by destruct e].
    assert (data_inv (w <| w_calls := <[c := reactor_event e t]> (w_calls w) |>)) as Hr
      by (eapply data_update; [done|by apply reactor_data|done]).
    destruct e; try done; by intros [= <-].
  - assert (w_calls w !! c = None ∨ ∃ t, w_calls w !! c = Some t) as [Ht|[t Ht]] by (destruct (w_calls w !! c); eauto).
    { rewrite Ht. by destruct (w_starter w). }
    rewrite Ht. destruct (di_call w Hd c t Ht) as [C1 C2 _ _ _ _ _].
    destruct (reactor t RRemoteEnd) as [[t' cb]|] eqn:Er; [|by destruct (w_starter w)].
    destruct (remote_end_unseen t t' cb C1 Er) as [Hun Hseen].
    assert (reactor_event RRemoteEnd t = t' ∨ ∃ m, cb = Some (CbMessage m)) as Hev.
    { unfold reactor_event. rewrite Er. destruct cb as [[]|]; eauto. }
    destruct (w_starter w) eqn:Es; try done.
    all: destruct cb as [[]|]; try done; intros [= <-]; destruct Hev as [<-|[? ?]]; [|done].
    all: assert (control_inv (w <| w_calls := <[c := reactor_event RRemoteEnd t]> (w_calls w) |>)) as Hc1 by done.
    all: apply (on_remote_end_data s c (reactor_event RRemoteEnd t)); [exact Hc1| |by simpl; rewrite lookup_insert_eq| |done].
    all: try (eapply data_update; [done|by apply reactor_data|done]).
    all: intros Hs; rewrite C2 in Hun; done.
  - destruct (w_callbacks w !! c) as [m|] eqn:Em; [|done].
    destruct m as [a|op k|q k]; [intros [= <-]; by eapply callback_done_data|..].
    all: destruct (di_known w Hd c) as [t Ht]; [by right; left; rewrite Em|].
    all: unfold call_step; rewrite Ht; destruct (code_step env _ t) as [m' t'] eqn:E; intros [= <-].
    all: by eapply callback_step_data.
  - intros [= <-]. apply notify_data. revert Hd. apply data_frame; done.
  - intros [= <-]. revert Hd. apply data_frame; done.
  - destruct (w_starter w), (w_worker w) eqn:Ew; try done. destruct (closed_ _); [|done].
    intros [= <-]. revert Hd. apply data_frame; try done; unfold outstanding; simpl; by rewrite Ew.
Qed.

(** ** What holds in every world *)

Definition world_inv (w : World) : Prop := control_inv w ∧ data_inv w.

Lemma world_inv_init : world_inv world_init.
Proof.
  split; [by split|]. split; simpl; try done; [apply NoDup_nil_2|by intros c [? ?]|].
  intros c [Hc|[[? Hc]|Hc]]; simpl in Hc; [by apply elem_of_nil in Hc|done|by apply elem_of_nil in Hc].
Qed.

Lemma world_inv_step w l w' : world_inv w → executor_step w l = Some w' → world_inv w'.
Proof. intros [Hc Hd] E. split; [by eapply control_step|by eapply data_step]. Qed.

Lemma world_inv_run ls w : run executor_step world_init ls = Some w → world_inv w.
Proof. apply run_invariant; [apply world_inv_step|apply world_inv_init]. Qed.

Lemma outstanding_one w : control_inv w → (length (outstanding w) ≤ 1)%nat.
Proof.
  intros [Hw _]. unfold outstanding. destruct (w_worker w) as [| |[]|[]|[]|[] ?| |]; simpl in *; destruct_and?;
    destruct (slot_ (w_executor w)); simpl; try done; lia.
Qed.

(** *** After [Close] *)

Lemma run_loop_frame w :
  closed_ (w_executor (run_loop w)) = closed_ (w_executor w) ∧ w_accepted (run_loop w) = w_accepted w ∧
  w_gate (run_loop w) = w_gate w.
Proof. unfold run_loop. by destruct (closed_ (w_executor w)) eqn:E1, (busy_ (w_executor w)) eqn:E2; simpl; rewrite ?E1. Qed.

Lemma worker_step_closed env throws b w w' :
  worker_step env throws b w = Some w' →
  closed_ (w_executor w') = closed_ (w_executor w) ∧ w_accepted w' = w_accepted w ∧
  released_ (w_gate w') = released_ (w_gate w).
Proof.
  unfold worker_step, WorkGate_Run. destruct (w_worker w) as [| |[]|call|call|call []| |]; try done.
  - intros [= <-]. set (w1 := w <| w_executor := _ |>).
    destruct (notify_frame b w1) as (_ & _ & H1 & _ & _ & _ & _ & H2 & H3).
    destruct (run_loop_frame (notify_one b w1)) as (H4 & H5 & H6). rewrite H4, H5, H6, H1, H2, H3. done.
  - intros [= <-]. destruct (run_loop_frame w) as (H1 & H2 & H3). by rewrite H3.
  - destruct throws; intros [= <-]; done.
  - destruct (released_ (w_gate w)) eqn:E; [|done]. intros [= <-]. simpl. by rewrite E.
  - by intros [= <-].
  - destruct (call_step _ _ _ _). by intros [= <-].
  - destruct (call_step _ _ _ _). by intros [= <-].
  - intros [= <-]. match goal with |- context [run_loop ?w1] => destruct (run_loop_frame w1) as (H1 & H2 & H3) end.
    by rewrite H1, H2, H3.
Qed.

Lemma closed_step w l w' :
  executor_step w l = Some w' → closed_ (w_executor w) = true →
  closed_ (w_executor w') = true ∧ w_accepted w' = w_accepted w ∧
  (released_ (w_gate w) = true → released_ (w_gate w') = true).
Proof.
  intros E Hcl. destruct l as [| |env throws b| |c l paused gz|c e|c s|c env|b| |]; cbn [executor_step] in E.
  - by destruct (w_starter w); simplify_eq/=.
  - by destruct (w_starter w) as [|[]| |]; simplify_eq/=.
  - destruct (worker_step_closed env throws b w w' E) as (-> & -> & ->). done.
  - destruct (w_worker w); simplify_eq/=. destruct (run_loop_frame w) as (-> & -> & ->). done.
  - by destruct (w_calls w !! c); simplify_eq/=; destruct (0 <=? _); simplify_eq/=.
  - by destruct e, (w_calls w !! c); simplify_eq/=.
  - assert (∀ w1, closed_ (w_executor w1) = true →
      closed_ (w_executor (on_remote_end s c w1)) = true ∧ w_accepted (on_remote_end s c w1) = w_accepted w1 ∧
      w_gate (on_remote_end s c w1) = w_gate w1) as Hr.
    { intros w1 Hw1. unfold on_remote_end, TrySubmit. destruct s; rewrite ?Hw1; simpl; by rewrite ?Hw1. }
    destruct (w_starter w); try done; destruct (w_calls w !! c); try done;
      destruct (reactor _ RRemoteEnd) as [[t' [[]|]]|]; try done; injection E as <-;
      match goal with |- context [on_remote_end s c ?w1] => destruct (Hr w1 Hcl) as (-> & -> & ->); done end.
  - destruct (w_callbacks w !! c) as [[]|]; simplify_eq/=; try done; destruct (w_calls w !! c); simplify_eq/=; try done;
      repeat case_match; simplify_eq/=; done.
  - injection E as <-. match goal with |- context [notify_one b ?w1] =>
      destruct (notify_frame b w1) as (_ & _ & H1 & _ & _ & _ & _ & H2 & H3) end. by rewrite H1, H2, H3.
  - by simplify_eq/=.
  - destruct (w_starter w), (w_worker w); try done. rewrite Hcl in E. by injection E as <-.
Qed.

(** C28. The executor keeps its promises, whatever reactors, callbacks and the worker do
    and however they interleave.  Each call is accepted or refused at most once; at
    most one accepted call is outstanding, and when the worker has ended, none is.
    When the worker or the callback lets go of a call, the call is over, and what was
    sent on it is the response, or the refusal, or a beginning of it that an abort or
    a cancellation cut short.  After [Close] no call is accepted any more. *)
Theorem executor_safe ls w :
  run executor_step world_init ls = Some w →
  w_accepted w = w_done w ++ outstanding w ∧ (length (outstanding w) ≤ 1)%nat ∧
  (w_worker w = WExited → outstanding w = []) ∧
  NoDup (w_accepted w ++ w_refused w) ∧
  (∀ c, c ∈ w_done w → ∃ t n, w_calls w !! c = Some t ∧ call_open t = false ∧ tc_history t = take n response) ∧
  (∀ c, c ∈ w_refused w → ∃ t n, w_calls w !! c = Some t ∧ call_open t = false ∧ tc_history t = take n refusal) ∧
  (closed_ (w_executor w) = true → ∀ ls' w', run executor_step w ls' = Some w' → w_accepted w' = w_accepted w).
Proof.
  intros Hrun. destruct (world_inv_run ls w Hrun) as [Hc Hd]. split_and!.
  - apply Hd.
  - by apply outstanding_one.
  - intros Hx. destruct Hc as [Hw _]. unfold outstanding. rewrite Hx in *. destruct Hw as (_ & _ & -> & _). done.
  - apply Hd.
  - intros c Hin. destruct (di_known w Hd c) as [t Ht]; [left; rewrite (di_accepted w Hd); set_solver|].
    destruct (cd_done w c t (di_call w Hd c t Ht) Hin) as (_ & Ho & n & Hn). eauto.
  - intros c Hin. destruct (di_known w Hd c) as [t Ht]; [by right; right|].
    destruct (cd_refused w c t (di_call w Hd c t Ht) Hin) as (_ & Ho & n & Hn). eauto.
  - intros Hcl ls' w' Hrun'.
    assert (closed_ (w_executor w') = true ∧ w_accepted w' = w_accepted w) as [_ H]; [|done].
    revert Hrun'. apply (run_invariant executor_step (λ x, closed_ (w_executor x) = true ∧ w_accepted x = w_accepted w)); [|done].
    intros x l x' [Hx1 Hx2] E. destruct (closed_step x l x' E Hx1) as (H1 & H2 & _). split; [done|congruence].
Qed.

(** ** The worker ends *)

(** Code with at most [n] sections left *)
Inductive code_within : nat → Code () → Prop :=
  | within_done n a : code_within n (Done a)
  | within_locked n op k : (∀ r, code_within n (k r)) → code_within (S n) (Locked op k)
  | within_query n q k : (∀ b, code_within n (k b)) → code_within (S n) (Query q k).

Lemma code_within_mono n m k : code_within n k → (n ≤ m)%nat → code_within m k.
Proof.
  intros Hw. revert m. induction Hw as [|n op k Hk IH|n q k Hk IH]; intros m Hm; [constructor|..];
    destruct m as [|m]; try lia; constructor; intros; apply IH; lia.
Qed.

Lemma abort_within call_ : code_within 1 (ServerCall_Abort call_).
Proof. destruct call_; repeat constructor. Qed.

Lemma answer_within call_ : code_within 7 (answer_accepted call_).
Proof.
  destruct call_; [|repeat constructor].
  constructor. intros []; [constructor|]. constructor. intros []; [constructor|].
  constructor. intros [e|]; [destruct e; repeat constructor|]. constructor. intros [e|]; [destruct e; repeat constructor|].
  constructor. intros [e|]; [destruct e; repeat constructor|]. constructor. intros [e|]; [destruct e; repeat constructor|].
  constructor.
Qed.

(** At most [n] steps of the worker are left once the executor is closed and the gate
    open. *)
Definition worker_left (wk : Worker) (n : nat) : Prop :=
  match wk with
  | WNone => False
  | WExited => True
  | WReleased => 1 ≤ n
  | WAnswering _ m => ∃ k, code_within k m ∧ k + 2 ≤ n
  | WInGate _ => 10 ≤ n
  | WCall _ => 11 ≤ n
  | WWaiting _ => 12 ≤ n
  | WCreated => 13 ≤ n
  end%nat.

Lemma worker_left_mono wk n m : worker_left wk n → (n ≤ m)%nat → worker_left wk m.
Proof. destruct wk; simpl; try lia; try done. intros (k & ? & ?) ?. exists k. split; [done|lia]. Qed.

Lemma run_loop_left w :
  closed_ (w_executor w) = true → worker_left (w_worker (run_loop w)) 11 ∧
  (busy_ (w_executor w) = false → w_worker (run_loop w) = WExited).
Proof. intros Hc. unfold run_loop. rewrite Hc. destruct (busy_ (w_executor w)); simpl; split; try done; lia. Qed.

Lemma worker_step_left env throws b w w' n :
  world_inv w → closed_ (w_executor w) = true → worker_left (w_worker w) n →
  worker_step env throws b w = Some w' → ∃ n', n = S n' ∧ worker_left (w_worker w') n'.
Proof.
  intros [[Hw _] Hd] Hcl Hl. unfold worker_step, WorkGate_Run.
  destruct (w_worker w) as [| |[]|call|call|call m| |] eqn:Ew; simpl in Hl; try done.
  - intros [= <-]. destruct n as [|n]; [lia|]. exists n. split; [done|]. set (w1 := w <| w_executor := _ |>).
    destruct (notify_frame b w1) as (_ & _ & _ & _ & _ & _ & _ & Hx & _).
    eapply worker_left_mono; [apply run_loop_left; by rewrite Hx|lia].
  - intros [= <-]. destruct n as [|n]; [lia|]. exists n. split; [done|].
    eapply worker_left_mono; [by apply run_loop_left|lia].
  - destruct n as [|n]; [lia|]. intros E. exists n. split; [done|].
    destruct throws; [|destruct (released_ (w_gate w))]; injection E as <-; simpl.
    + exists 1%nat. split; [apply abort_within|lia].
    + exists 7%nat. split; [apply answer_within|lia].
    + lia.
  - destruct (released_ (w_gate w)); [|done]. intros [= <-]. destruct n as [|n]; [lia|]. exists n. split; [done|].
    exists 7%nat. split; [apply answer_within|lia].
  - destruct Hl as (k & Hk & Hn). destruct n as [|n]; [lia|]. intros E. exists n. split; [done|].
    destruct Hw as (_ & _ & _ & [c ->]). destruct m as [a|op kk|q kk]; [injection E as <-; simpl; lia|..].
    all: destruct (in_hand_data w c Hd) as (_ & _ & _ & _ & [t Ht]); [by rewrite Ew|].
    all: unfold call_step in E; rewrite Ht in E; simpl in E; inversion Hk as [|j ? ? Hj|j ? ? Hj]; subst.
    + destruct (exec_op op env t). injection E as <-. exists j. split; [apply Hj|lia].
    + injection E as <-. exists j. split; [apply Hj|lia].
  - intros [= <-]. destruct n as [|n]; [lia|]. exists n. split; [done|].
    match goal with |- context [run_loop ?w1] => by rewrite (proj2 (run_loop_left w1 Hcl)) end.
Qed.

Lemma worker_step_enabled env throws b w :
  control_inv w → closed_ (w_executor w) = true → released_ (w_gate w) = true → w_worker w ≠ WNone →
  w_worker w = WExited ∨ is_Some (worker_step env throws b w).
Proof.
  intros [Hw _] Hcl Hr Hn. unfold worker_step, WorkGate_Run.
  destruct (w_worker w) as [| |[]|call|call|call []| |]; simpl in Hw; try done; eauto.
  - destruct Hw as (_ & _ & H). destruct (H eq_refl). congruence.
  - destruct throws; eauto.
  - rewrite Hr. eauto.
  - destruct (call_step _ _ _ _). eauto.
  - destruct (call_step _ _ _ _). eauto.
Qed.

Definition is_worker_step (l : Label) : bool := match l with LWorker _ _ _ => true | _ => false end.

(** Steps of others take the worker no further from its end. *)
Lemma other_step_left w l w' n :
  world_inv w → closed_ (w_executor w) = true → executor_step w l = Some w' → is_worker_step l = false →
  worker_left (w_worker w) n → worker_left (w_worker w') n.
Proof.
  intros [[Hw Hs] _] Hcl E Hl Hn. assert (∀ b w1, worker_left (w_worker w1) n → worker_left (w_worker (notify_one b w1)) n) as Hnot.
  { intros b [x g wk st calls cbs acc dn rf]. unfold notify_one. simpl.
    destruct st as [|[]| |], wk as [| |[]|?|?|? ?| |], b; done. }
  destruct l as [| |env throws b| |c l paused gz|c e|c s|c env|b| |]; cbn [executor_step] in E; try done.
  - destruct (w_starter w); try done. simpl in Hs. by rewrite Hs in Hn.
  - by destruct (w_starter w) as [|[]| |]; simplify_eq/=.
  - destruct (w_worker w); try done. injection E as <-. simpl in Hn.
    eapply worker_left_mono; [by apply run_loop_left|lia].
  - by destruct (w_calls w !! c); simplify_eq/=; destruct (0 <=? _); simplify_eq/=.
  - by destruct e, (w_calls w !! c); simplify_eq/=.
  - assert (∀ w1, closed_ (w_executor w1) = true → w_worker (on_remote_end s c w1) = w_worker w1) as Hr.
    { intros w1 Hw1. unfold on_remote_end, TrySubmit. by destruct s; rewrite ?Hw1; simpl; rewrite ?Hw1. }
    destruct (w_starter w); try done; destruct (w_calls w !! c); try done;
      destruct (reactor _ RRemoteEnd) as [[t' [[]|]]|]; try done; injection E as <-;
      match goal with |- context [on_remote_end s c ?w1] => by rewrite (Hr w1 Hcl) end.
  - destruct (w_callbacks w !! c) as [[]|]; simplify_eq/=; try done; destruct (w_calls w !! c); simplify_eq/=; try done;
      repeat case_match; simplify_eq/=; done.
  - injection E as <-. by apply Hnot.
  - by injection E as <-.
  - destruct (w_starter w), (w_worker w) eqn:Ew; try done. rewrite Hcl in E. injection E as <-. simpl. by rewrite Ew.
Qed.

Lemma drain_run ls w w' n :
  world_inv w → closed_ (w_executor w) = true → released_ (w_gate w) = true → worker_left (w_worker w) n →
  run executor_step w ls = Some w' →
  (length (filter is_worker_step ls) ≤ n)%nat ∧ world_inv w' ∧ closed_ (w_executor w') = true ∧
  released_ (w_gate w') = true ∧ worker_left (w_worker w') n.
Proof.
  revert w n. induction ls as [|l ls IH]; intros w n Hi Hcl Hr Hn Hrun; cbn [run] in Hrun.
  { injection Hrun as <-. split_and!; [simpl; lia|done..]. }
  destruct (executor_step w l) as [w1|] eqn:E; [|done]. destruct (closed_step w l w1 E Hcl) as (Hcl1 & _ & Hr1).
  pose proof (world_inv_step w l w1 Hi E) as Hi1. rewrite filter_cons. destruct (is_worker_step l) eqn:El.
  - destruct l; try done. destruct (worker_step_left _ _ _ _ _ n Hi Hcl Hn E) as (n' & -> & Hn').
    destruct (IH w1 n' Hi1 Hcl1 (Hr1 Hr) Hn' Hrun) as (H1 & H2 & H3 & H4 & H5). simpl.
    split_and!; [lia|done..|]. eapply worker_left_mono; [done|lia].
  - pose proof (other_step_left w l w1 n Hi Hcl E El Hn) as Hn1. simpl. exact (IH w1 n Hi1 Hcl1 (Hr1 Hr) Hn1 Hrun).
Qed.

(** The code in the worker's hands is a rest of an answer. *)
Definition code_inv (w : World) : Prop := match w_worker w with WAnswering _ m => code_within 7 m | _ => True end.

Lemma run_loop_code w : code_inv (run_loop w).
Proof. unfold code_inv, run_loop. by destruct (closed_ (w_executor w)), (busy_ (w_executor w)). Qed.

Lemma notify_code b w : code_inv w → code_inv (notify_one b w).
Proof.
  destruct w as [x g wk st calls cbs acc dn rf]. unfold code_inv, notify_one. simpl.
  destruct st as [|[]| |], wk as [| |[]|?|?|? ?| |], b; done.
Qed.

Lemma worker_step_code env throws b w w' : code_inv w → worker_step env throws b w = Some w' → code_inv w'.
Proof.
  unfold worker_step, WorkGate_Run. intros Hc E. destruct (w_worker w) as [| |[]|call|call|call m| |] eqn:Ew; try done.
  - injection E as <-. apply run_loop_code.
  - injection E as <-. apply run_loop_code.
  - pose proof (answer_within (bool_decide (is_Some call))). pose proof (abort_within (bool_decide (is_Some call))).
    destruct throws, (released_ (w_gate w)); injection E as <-; unfold code_inv; simpl; try done;
      eapply code_within_mono; eauto; lia.
  - destruct (released_ (w_gate w)); [|done]. injection E as <-. apply answer_within.
  - unfold code_inv in Hc. rewrite Ew in Hc. assert (∀ m' calls, call_step env call m (w_calls w) = (m', calls) → code_within 7 m') as Hm.
    { unfold call_step. intros m' calls. destruct call as [c|]; [|by intros [= <- _]].
      destruct (w_calls w !! c) as [t|]; [|by intros [= <- _]].
      destruct (code_step env m t) as [m1 t1] eqn:Em. intros [= <- _]. destruct m as [a|op k|q k]; simpl in Em.
      - by injection Em as <- _.
      - destruct (exec_op op env t). injection Em as <- _. inversion Hc as [|j ? ? Hj|]; subst.
        eapply code_within_mono; [apply Hj|lia].
      - injection Em as <- _. inversion Hc as [| |j ? ? Hj]; subst. eapply code_within_mono; [apply Hj|lia]. }
    destruct m; [by injection E as <-|..]; destruct (call_step _ _ _ _) as [m' calls] eqn:Es; injection E as <-;
      unfold code_inv; simpl; by eapply Hm.
  - injection E as <-. apply run_loop_code.
Qed.

Lemma code_inv_step w l w' : code_inv w → executor_step w l = Some w' → code_inv w'.
Proof.
  intros Hc E. destruct l as [| |env throws b| |c l paused gz|c e|c s|c env|b| |]; cbn [executor_step] in E.
  - by destruct (w_starter w); simplify_eq/=.
  - by destruct (w_starter w) as [|[]| |]; simplify_eq/=.
  - by eapply worker_step_code.
  - destruct (w_worker w); try done. injection E as <-. apply run_loop_code.
  - by destruct (w_calls w !! c); simplify_eq/=; destruct (0 <=? _); simplify_eq/=.
  - by destruct e, (w_calls w !! c); simplify_eq/=.
  - destruct (w_starter w); try done; destruct (w_calls w !! c); try done;
      destruct (reactor _ RRemoteEnd) as [[t' [[]|]]|]; try done; injection E as <-;
      unfold on_remote_end, TrySubmit; destruct s; simpl; try done; destruct (closed_ _ || busy_ _); try done;
      by apply notify_code.
  - destruct (w_callbacks w !! c) as [[]|]; simplify_eq/=; try done; destruct (w_calls w !! c); simplify_eq/=; try done;
      repeat case_match; simplify_eq/=; done.
  - injection E as <-. by apply notify_code.
  - by injection E as <-.
  - destruct (w_starter w), (w_worker w); try done. case_match; [|done]. by injection E as <-.
Qed.

(** C29. [Join] returns: once [Close] was called and the application's work is released,
    then in whatever order the threads run, the worker takes at most 13 more
    steps, every one of them can be taken until it has ended (no wake-up is lost,
    nothing it waits for is missing), and then [join] can return. *)
Theorem executor_drains ls w ls' w' :
  run executor_step world_init ls = Some w → w_worker w ≠ WNone →
  closed_ (w_executor w) = true → released_ (w_gate w) = true →
  run executor_step w ls' = Some w' →
  (length (filter is_worker_step ls') ≤ 13)%nat ∧
  ((w_worker w' = WExited ∧ (w_starter w' = SStarted → is_Some (executor_step w' LJoined))) ∨
   ∀ env throws b, is_Some (executor_step w' (LWorker env throws b))).
Proof.
  intros Hrun Hne Hcl Hr Hrun'. pose proof (world_inv_run ls w Hrun) as Hi.
  assert (code_inv w) as Hcode by (revert Hrun; by apply run_invariant; [apply code_inv_step|]).
  assert (worker_left (w_worker w) 13) as Hl.
  { unfold code_inv in Hcode. destruct (w_worker w) as [| |[]|call|call|call m| |] eqn:Ew; simpl; try lia; try done.
    exists 7%nat. split; [done|lia]. }
  destruct (drain_run ls' w w' 13 Hi Hcl Hr Hl Hrun') as (Hcount & [Hc' Hd'] & Hcl' & Hr' & Hl'). split; [done|].
  assert (w_worker w' ≠ WNone) as Hne' by (by intros Hx; rewrite Hx in Hl').
  assert (w_worker w' = WExited ∨ w_worker w' ≠ WExited) as [Hx|Hx] by (destruct (w_worker w'); auto).
  - left. split; [done|]. intros Hs. cbn [executor_step]. rewrite Hs, Hx, Hcl'. eauto.
  - right. intros env throws b. by destruct (worker_step_enabled env throws b w' Hc' Hcl' Hr' Hne').
Qed.
(** ** Calls that are left alone are answered in full *)

(** Code whose sections follow each other: how many they are, and where they end *)
Fixpoint run_alone (env : OpEnv) (m : Code ()) (t : TransportCall) : nat * TransportCall :=
  match m with
  | Done _ => (0%nat, t)
  | Locked op k => let '(r, t1) := exec_op op env t in let '(n, t2) := run_alone env (k r) t1 in (S n, t2)
  | Query q k => let '(n, t1) := run_alone env (k (exec_query q t)) t in (S n, t1)
  end.

Lemma run_alone_step env m t n t' :
  run_alone env m t = (S n, t') → ∃ m1 t1, code_step env m t = (m1, t1) ∧ run_alone env m1 t1 = (n, t').
Proof.
  destruct m as [a|op k|q k]; simpl; [done|..].
  - destruct (exec_op op env t) as [r t1]. destruct (run_alone env (k r) t1) as [n1 t2] eqn:E. intros [= -> ->]. eauto.
  - destruct (run_alone env (k (exec_query q t)) t) as [n1 t1] eqn:E. intros [= -> ->]. eauto.
Qed.

Lemma run_alone_zero env m t t' : run_alone env m t = (0%nat, t') → m = Done () ∧ t' = t.
Proof.
  destruct m as [[]|op k|q k]; simpl; [by intros [= ->]|..].
  - destruct (exec_op op env t) as [r t1]. by destruct (run_alone env (k r) t1).
  - by destruct (run_alone env (k (exec_query q t)) t).
Qed.

Lemma worker_alone env throws b n : ∀ w c m t t',
  w_worker w = WAnswering (Some c) m → w_calls w !! c = Some t → run_alone env m t = (n, t') →
  ∃ w', run executor_step w (replicate (S n) (LWorker env throws b)) = Some w' ∧
    w_done w' = w_done w ++ [c] ∧ w_calls w' !! c = Some t'.
Proof.
  induction n as [|n IH]; intros w c m t t' Hw Ht Hm.
  - apply run_alone_zero in Hm as [-> ->]. eexists. split_and!.
    + simpl. unfold worker_step. by rewrite Hw.
    + done.
    + done.
  - apply run_alone_step in Hm as Hs. destruct Hs as (m1 & t1 & E & Hm1).
    destruct (IH (w <| w_worker := WAnswering (Some c) m1 |> <| w_calls := <[c := t1]> (w_calls w) |>) c m1 t1 t')
      as (w' & Hrun & H1 & H2); [done|by simpl; rewrite lookup_insert_eq|done|].
    exists w'. split; [|done]. rewrite <- Hrun. change (replicate (S (S n)) ?l) with (l :: replicate (S n) l).
    cbn [run]. cbn [executor_step]. unfold worker_step. rewrite Hw. unfold call_step. rewrite Ht, E. by destruct m.
Qed.

Lemma callback_alone env n : ∀ w c m t t',
  w_callbacks w !! c = Some m → w_calls w !! c = Some t → run_alone env m t = (n, t') →
  ∃ w', run executor_step w (replicate (S n) (LCallback c env)) = Some w' ∧
    w_refused w' = w_refused w ++ [c] ∧ w_calls w' !! c = Some t'.
Proof.
  induction n as [|n IH]; intros w c m t t' Hw Ht Hm.
  - apply run_alone_zero in Hm as [-> ->]. eexists. split_and!; [simpl; by rewrite Hw|done..].
  - apply run_alone_step in Hm as Hs. destruct Hs as (m1 & t1 & E & Hm1).
    destruct (IH (w <| w_callbacks := <[c := m1]> (w_callbacks w) |> <| w_calls := <[c := t1]> (w_calls w) |>) c m1 t1 t')
      as (w' & Hrun & H1 & H2); [by simpl; rewrite lookup_insert_eq..|done|].
    exists w'. split; [|done]. rewrite <- Hrun. change (replicate (S (S n)) ?l) with (l :: replicate (S n) l).
    cbn [run]. cbn [executor_step]. rewrite Hw. unfold call_step. rewrite Ht, E. by destruct m.
Qed.

(** An answer that meets no failure *)
Definition alone (m : Code ()) (t : TransportCall) (n : nat) (cmds : list StreamCommand) : Prop :=
  ∃ t', run_alone env_ok m t = (n, t') ∧ tc_history t' = cmds.

Lemma alone_locked op k t t1 n cmds :
  exec_op op env_ok t = (None, t1) → alone (k None) t1 n cmds → alone (Locked op k) t (S n) cmds.
Proof. intros E (t' & H1 & H2). exists t'. simpl. by rewrite E, H1. Qed.

Lemma alone_query q k t n cmds : alone (k (exec_query q t)) t n cmds → alone (Query q k) t (S n) cmds.
Proof. intros (t' & H1 & H2). exists t'. simpl. by rewrite H1. Qed.

(** The call is open with [h] sent on it, the initial metadata among it. *)
Record under_way (h : list StreamCommand) (t : TransportCall) : Prop := {
  uw_target : tc_target t = true;
  uw_open : call_closed t = false;
  uw_headers : tc_response_headers_queued t = true;
  uw_history : tc_history t = h }.

Lemma initial_alone t :
  unanswered t → call_open t = true →
  ∃ t1, exec_op (OpInitialMetadata [] Identity) env_ok t = (None, t1) ∧
    under_way [CmdInitialMetadata [] Identity] t1 ∧ tc_limits t1 = tc_limits t ∧ tc_outbound_reserved_bytes t1 = 0.
Proof.
  intros [_ Hh Hc Hx Hq Hr] Ho. specialize (Hq Ho). apply andb_true_iff in Ho as [H1 H2%negb_true_iff].
  simpl. unfold serverCallSendInitialMetadata, enqueue. simpl. rewrite H1, H2, Hx, Hq. simpl. eexists. split; [done|].
  split; [|done]. split; simpl; [done|done|done|by rewrite Hh].
Qed.

Lemma capacity_alone t :
  tc_outbound_reserved_bytes t = 0 → 9 ≤ max_outbound_buffer_size (tc_limits t) →
  checkOutboundCapacityLocked 9 t = (None, t).
Proof.
  intros Hr Hb. unfold checkOutboundCapacityLocked. rewrite Hr, Z.sub_0_r.
  destruct (Z.gtb_spec 9 (max_outbound_buffer_size (tc_limits t))); [lia|].
  by destruct (Z.gtb_spec 0 (max_outbound_buffer_size (tc_limits t))); [lia|].
Qed.

Lemma check_send_alone h t :
  under_way h t → tc_outbound_reserved_bytes t = 0 → 4 ≤ max_message_size (tc_limits t) →
  9 ≤ max_outbound_buffer_size (tc_limits t) → exec_op (OpSendCheck kResponse Identity) env_ok t = (None, t).
Proof.
  intros [H1 H2 H3 _] Hr Hm Hb. simpl. unfold serverCallSend_check, checkRetainedSendLocked.
  rewrite H1, H2, H3. change (zlen kResponse) with 4.
  change (add_usize 4 header_size) with (Some 9). simpl. rewrite andb_false_r.
  destruct (Z.gtb_spec 4 (max_message_size (tc_limits t))); [lia|].
  by apply capacity_alone.
Qed.

Lemma commit_send_alone h t :
  under_way h t → tc_outbound_reserved_bytes t = 0 → 9 ≤ max_outbound_buffer_size (tc_limits t) →
  ∃ t1, exec_op (OpSendCommit kResponse Identity) env_ok t = (None, t1) ∧ under_way (h ++ [CmdSend kResponse Identity]) t1.
Proof.
  intros [H1 H2 H3 H4] Hr Hb. simpl. unfold serverCallSend_commit, checkRetainedSendLocked.
  change (encodeWithCompression env_ok kResponse Identity) with (@None ServerError).
  change (encoded_size kResponse Identity) with 9. rewrite H1, H2, H3. simpl. rewrite andb_false_r.
  rewrite capacity_alone by done.
  eexists. split; [done|]. split; simpl; [done|done|done|by rewrite H4].
Qed.

Lemma finish_alone h code message k t :
  under_way h t → k None = Done () →
  alone (Locked (OpFinish code message []) k) t 1 (h ++ [CmdFinish code message []]).
Proof.
  intros [H1 H2 H3 H4] Hk. eexists. simpl. unfold serverCallFinish, enqueue. simpl. rewrite H1, H2, H3. simpl. rewrite Hk.
  split; [done|]. simpl. by rewrite H4.
Qed.

Lemma accepted_alone t :
  unanswered t → call_open t = true → 4 ≤ max_message_size (tc_limits t) → 9 ≤ max_outbound_buffer_size (tc_limits t) →
  alone (answer_accepted true) t 6 response.
Proof.
  intros Hu Ho Hm Hb. destruct (initial_alone t Hu Ho) as (t1 & E1 & U1 & Hl & Hr).
  destruct (commit_send_alone _ t1 U1 Hr) as (t2 & E2 & U2); [congruence|]. rewrite <- Hl in Hm, Hb.
  apply alone_query. replace (exec_query QCancelled t) with false; [apply alone_query; replace (exec_query QTerminal t) with false|].
  - eapply alone_locked; [exact E1|]. eapply alone_locked; [by eapply check_send_alone|].
    eapply alone_locked; [exact E2|]. by apply (finish_alone _ 0 "" _ t2 U2).
  - apply andb_true_iff in Ho as [H1 _]. destruct (ua_ok t Hu) as [H2 _ _]. simpl. by destruct (tc_terminal t); rewrite H1 in H2.
  - apply andb_true_iff in Ho as [_ H1%negb_true_iff]. destruct (ua_ok t Hu) as [_ H2 _]. simpl.
    unfold call_closed in H1. rewrite !orb_false_iff in H1. destruct (tc_cancelled t); [|done]. rewrite H2 in H1; naive_solver.
Qed.

Lemma rejected_alone t : unanswered t → call_open t = true → alone (answer_rejected true) t 2 refusal.
Proof.
  intros Hu Ho. destruct (initial_alone t Hu Ho) as (t1 & E1 & U1 & _). eapply alone_locked; [exact E1|].
  by apply (finish_alone _ 8 "executor full" _ t1 U1).
Qed.
Lemma in_hand_unanswered w c t :
  data_inv w → w_calls w !! c = Some t → w_worker w = WCall (Some c) ∨ w_worker w = WInGate (Some c) → unanswered t.
Proof.
  intros Hd Ht Hw. destruct (in_hand_data w c Hd) as (Hin & Hnd & Hnr & Hnc & _); [by destruct Hw as [-> | ->]|].
  apply (cd_unanswered w c t (di_call w Hd c t Ht)); [done..|]. by destruct Hw as [-> | ->].
Qed.

(** A call that nobody interferes with is answered in full.  The one the worker has
    gets the response, in eight steps of the worker from the end of the application's
    work on.  One whose request ends while the executor is busy, closed or contended
    gets [RESOURCE_EXHAUSTED] from the callback itself, without a step of the worker;
    else it is accepted. *)
Lemma executor_answers ls w c t :
  run executor_step world_init ls = Some w → w_calls w !! c = Some t → call_open t = true →
  4 ≤ max_message_size (tc_limits t) → 9 ≤ max_outbound_buffer_size (tc_limits t) →
  (∀ b, w_worker w = WCall (Some c) ∨ w_worker w = WInGate (Some c) → released_ (w_gate w) = true →
     ∃ w' t', run executor_step w (replicate 8 (LWorker env_ok false b)) = Some w' ∧
       w_done w' = w_done w ++ [c] ∧ w_calls w' !! c = Some t' ∧ tc_history t' = response) ∧
  (∀ s w0, s ≠ SubmitThrows → executor_step w (LRemoteEnd c s) = Some w0 →
     if bool_decide (s = Contended) || closed_ (w_executor w) || busy_ (w_executor w)
     then ∃ w' t', run executor_step w0 (replicate 3 (LCallback c env_ok)) = Some w' ∧
       w_refused w' = w_refused w ++ [c] ∧ w_calls w' !! c = Some t' ∧ tc_history t' = refusal
     else w_accepted w0 = w_accepted w ++ [c]).
Proof.
  intros Hrun Ht Ho Hm Hb. destruct (world_inv_run ls w Hrun) as [_ Hd]. split.
  - intros b Hw Hr. destruct (accepted_alone t (in_hand_unanswered w c t Hd Ht Hw) Ho Hm Hb) as (t' & E & Hh).
    assert (∃ w1, worker_step env_ok false b w = Some w1 ∧ w_worker w1 = WAnswering (Some c) (answer_accepted true) ∧
      w_calls w1 = w_calls w ∧ w_done w1 = w_done w) as (w1 & E1 & Hw1 & Hc1 & Hd1).
    { unfold worker_step, WorkGate_Run. destruct Hw as [-> | ->]; rewrite Hr; eexists; split; done. }
    destruct (worker_alone env_ok false b 6 w1 c _ t t' Hw1) as (w' & Hrun' & H1 & H2); [by rewrite Hc1|done|].
    exists w', t'. split_and!; [|congruence|done|done]. change (replicate 8 ?l) with (l :: replicate 7 l).
    cbn [run]. cbn [executor_step]. by rewrite E1.
  - intros s w0 Hs E. cbn [executor_step] in E. rewrite Ht in E.
    destruct (reactor t RRemoteEnd) as [[t1 cb]|] eqn:Er; [|by destruct (w_starter w)].
    destruct (remote_end_unseen t t1 cb (cd_ok w c t (di_call w Hd c t Ht)) Er) as [Hun _].
    assert (unanswered t) as Hu.
    { apply (new_unanswered w c t Hd Ht). intros Hsub. by rewrite (cd_seen w c t (di_call w Hd c t Ht) Hsub) in Hun. }
    assert (cb = Some CbRemoteEnd ∧ w0 = on_remote_end s c (w <| w_calls := <[c := t1]> (w_calls w) |>)) as [-> ->].
    { destruct (w_starter w), cb as [[]|]; simplify_eq/=; done. }
    assert (call_open t1 = true) as Ho1.
    { revert Er Ho. clear. unfold reactor. repeat case_match; intros; by simplify_eq/=. }
    pose proof (unanswered_reactor RRemoteEnd t Hu) as Hu1. unfold reactor_event in Hu1. rewrite Er in Hu1.
    destruct (rejected_alone t1 Hu1 Ho1) as (t' & E' & Hh). unfold on_remote_end, TrySubmit.
    assert (∃ w' t', run executor_step (w <| w_calls := <[c := t1]> (w_calls w) |>
      <| w_callbacks := <[c := answer_rejected true]> (w_callbacks w) |>) (replicate 3 (LCallback c env_ok)) = Some w' ∧
      w_refused w' = w_refused w ++ [c] ∧ w_calls w' !! c = Some t' ∧ tc_history t' = refusal) as Href.
    { edestruct callback_alone as (w' & H1 & H2 & H3); [| |exact E'|eexists w', t'; split_and!; [exact H1|done..]].
      all: simpl; by rewrite lookup_insert_eq. }
    destruct s as [|b|]; [exact Href| |done]. simpl. destruct (closed_ _ || busy_ _); [exact Href|].
    by match goal with |- w_accepted (notify_one b ?x) = _ => destruct (notify_frame b x) as (_ & _ & -> & _) end.
Qed.
End World.

(** ** A run of the example *)

Definition example_limits : Limits := mkLimits 4096 4096.
Definition worker : Label := LWorker env_ok false false.

(** Call 7 is accepted, call 8 refused while the worker is busy. *)
Definition example_run : list Label :=
  [LStart; worker; LStarted; LNewCall 7 example_limits false false; LNewCall 8 example_limits false false;
   LRemoteEnd 7 (Acquired false); worker; worker; LRemoteEnd 8 (Acquired false)] ++
  replicate 3 (LCallback 8 env_ok).

(** The application's work ends, and so does the worker. *)
Definition example_close : list Label := [LClose false; LRelease].
Definition example_drain : list Label := replicate 9 worker.
Definition example_step : World → Label → option World := executor_step (GZ := stored_gzip).
Definition example_world (ls : list Label) : World := default world_init (run example_step world_init ls).
Definition history_of (w : World) (c : nat) : list StreamCommand := from_option tc_history [] (w_calls w !! c).

Lemma example_reaches ls :
  bool_decide (is_Some (run example_step world_init ls)) = true → run example_step world_init ls = Some (example_world ls).
Proof. intros [w Hw]%bool_decide_eq_true. unfold example_world. by rewrite Hw. Qed.

(** In the end call 7 has its response, call 8 its refusal, and the worker has ended. *)
Lemma executor_safe_witness :
  let w := example_world (example_run ++ example_close ++ example_drain) in
  w_done w = [7%nat] ∧ w_refused w = [8%nat] ∧ outstanding w = [] ∧
  history_of w 7 = response ∧ history_of w 8 = refusal ∧ NoDup (w_accepted w ++ w_refused w).
Proof.
  intros w. destruct (executor_safe (GZ := stored_gzip) (example_run ++ example_close ++ example_drain) w)
    as (_ & _ & Hex & Hnd & _); [apply example_reaches; vm_compute; reflexivity|].
  split_and!; [vm_compute; reflexivity|vm_compute; reflexivity|apply Hex|vm_compute; reflexivity..|exact Hnd].
  vm_compute. reflexivity.
Defined.

(** The worker's nine steps end it, with the mutex contended by nobody. *)
Lemma executor_drains_witness :
  w_worker (example_world (example_run ++ example_close ++ example_drain)) = WExited ∧
  (length (filter is_worker_step example_drain) ≤ 13)%nat.
Proof.
  destruct (executor_drains (GZ := stored_gzip) (example_run ++ example_close)
    (example_world (example_run ++ example_close)) example_drain
    (default world_init (run example_step (example_world (example_run ++ example_close)) example_drain))) as [Hn _].
  - apply example_reaches. vm_compute. reflexivity.
  - vm_compute. discriminate.
  - vm_compute. reflexivity.
  - vm_compute. reflexivity.
  - assert (is_Some (run example_step (example_world (example_run ++ example_close)) example_drain)) as [w Hw]
      by (apply (bool_decide_eq_true_1 _); vm_compute; reflexivity).
    unfold example_step in *. by rewrite Hw.
  - split; [vm_compute; reflexivity|exact Hn].
Defined.

(** The worker answers call 7 when its work is released. *)
Lemma executor_answers_witness :
  ∃ w' t', run example_step (example_world (example_run ++ [LRelease])) (replicate 8 worker) = Some w' ∧
    w_calls w' !! 7%nat = Some t' ∧ tc_history t' = response.
Proof.
  set (w := example_world (example_run ++ [LRelease])).
  assert (is_Some (w_calls w !! 7%nat)) as [t Ht] by (apply (bool_decide_eq_true_1 _); vm_compute; reflexivity).
  assert (from_option (λ t, (call_open t, tc_limits t)) (false, example_limits) (w_calls w !! 7%nat) = (true, example_limits)) as Hb
    by (vm_compute; reflexivity).
  rewrite Ht in Hb. simpl in Hb. injection Hb as Ho Hl.
  destruct (executor_answers (GZ := stored_gzip) (example_run ++ [LRelease]) w 7 t) as [H _].
  - apply example_reaches. vm_compute. reflexivity.
  - exact Ht.
  - exact Ho.
  - rewrite Hl. simpl. lia.
  - rewrite Hl. simpl. lia.
  - destruct (H false) as (w' & t' & H1 & _ & H2 & H3); [right; vm_compute; reflexivity|vm_compute; reflexivity|].
    exists w', t'. split; [exact H1|]. split; [exact H2|exact H3].
Defined.
