(* ===== verification/RequestStream.v ===== *)
(** * The request stream of a typed server call

    [TypedRequestStreamState] ([cpp/typed_service.hpp]): a mailbox of one message
    between the reactor, which parses and stores each request message and then
    pauses, and the application threads that read.  A reader takes the message
    under the stream's mutex and then asks the transport to resume, which may
    happen while the message callback is still returning.

    [StreamWorld] puts the mailbox, its readers and the call together. *)

From S2P Require Import Prelude Status Metadata ServerTransport TypedCall.

Local Open Scope Z_scope.

(** ** The mailbox *)

Record RequestStream (M : Type) := mkRequestStream {
  rs_message : option M;
  rs_remote_end : bool;
  rs_rejected : bool;
  rs_cancelled : bool;
  rs_terminal : bool }.
Arguments mkRequestStream {M}.
Arguments rs_message {M}.
Arguments rs_remote_end {M}.
Arguments rs_rejected {M}.
Arguments rs_cancelled {M}.
Arguments rs_terminal {M}.

#[export] Instance eta_RequestStream M : Eta (RequestStream M) := λ s,
  mkRequestStream (rs_message s) (rs_remote_end s) (rs_rejected s) (rs_cancelled s)
    (rs_terminal s).

Definition RequestStream_init {M} : RequestStream M := mkRequestStream None false false false false.

Section Stream.
Context {GZ : GzipSize} {M : Type} {MM : Message M}.

(** [rejected_ = true; call_->Finish(status, nullptr)]: the result of [Finish] is
    not looked at. *)
Definition reject (status : Status) (turns : list Turn) (s : RequestStream M) (w : CallWorld)
  : ReceiveAction * (RequestStream M * CallWorld) :=
  (Pause, (s <| rs_rejected := true |>, (run_op (TypedCallState_Finish status []) turns w).2)).

Definition RequestStream_OnMessage (payload : string) (turns : list Turn)
    (s : RequestStream M) (w : CallWorld) : ReceiveAction * (RequestStream M * CallWorld) :=
  if rs_rejected s || rs_remote_end s || rs_terminal s then (Pause, (s, w))
  else match rs_message s with
  | Some _ => reject (mkStatus StatusCode.Internal "request backpressure violated") turns s w
  | None =>
      if zlen payload >? int32_max
      then reject (mkStatus StatusCode.ResourceExhausted "request is too large to parse") turns s w
      else match ParseFromArray payload with
      | None => reject (mkStatus StatusCode.InvalidArgument "failed to parse request") turns s w
      | Some parsed => (Pause, (s <| rs_message := Some parsed |>, w))
      end
  end.

Definition RequestStream_OnRemoteEnd (s : RequestStream M) : RequestStream M :=
  s <| rs_remote_end := true |>.
Definition RequestStream_OnCancel (s : RequestStream M) : RequestStream M :=
  s <| rs_cancelled := true |>.
Definition RequestStream_OnTerminal (s : RequestStream M) : RequestStream M :=
  s <| rs_terminal := true |>.

(** [Read] in three pieces, since other threads run between them.  The first waits
    for a message or an end, [None] while it waits; the message it takes, if any. *)
Definition RequestStream_Read_take (s : RequestStream M) : option (option M * RequestStream M) :=
  match rs_message s with
  | Some m => Some (Some m, s <| rs_message := None |>)
  | None =>
      if rs_remote_end s || rs_rejected s || rs_cancelled s || rs_terminal s
      then Some (None, s) else None
  end.

(** The second asks to resume: its error, and whether the third is due. *)
Definition RequestStream_Read_resume (turns : list Turn) (w : CallWorld)
  : (Error * bool) * CallWorld :=
  let '(resume_error, w') := run_op TypedCallState_ResumeReceive turns w in
  ((resume_error,
    negb (Error_ok resume_error) && negb (Error_is resume_error ErrorCode.Closed) &&
    negb (Error_is resume_error ErrorCode.Unavailable)), w').

(** The third ends the call. *)
Definition RequestStream_Read_fail (turns : list Turn) (w : CallWorld) : CallWorld :=
  (run_op (TypedCallState_Finish
     (mkStatus StatusCode.Internal "failed to resume request stream") []) turns w).2.

(** ** The stream as a system

    [sw_told]: the stream has been told of the cancellation or the end that waits
    for the call; [sw_resuming], [sw_failing]: the readers before the second and
    the third piece of [Read].  Ghost fields: the messages stored and the messages
    read so far, the results of resuming, and whether a message has not found the
    call. *)

Record StreamWorld := mkStreamWorld {
  sw_call : CallWorld;
  sw_stream : RequestStream M;
  sw_told : bool;
  sw_resuming : nat;
  sw_failing : nat;
  sw_accepted : list M;
  sw_read : list M;
  sw_resumed : list Error;
  sw_missed : bool }.

#[export] Instance eta_StreamWorld : Eta StreamWorld := λ w,
  mkStreamWorld (sw_call w) (sw_stream w) (sw_told w) (sw_resuming w) (sw_failing w)
    (sw_accepted w) (sw_read w) (sw_resumed w) (sw_missed w).

Definition start_stream (l : Limits) (accepts_gzip : bool) : StreamWorld :=
  mkStreamWorld (start_world l accepts_gzip) RequestStream_init false 0 0 [] [] [] false.

Inductive StreamLabel : Type :=
  | SCall (l : CallLabel)
  | STell
  | SCallback (turns : list Turn)
  | SLost
  | SReadTake
  | SReadResume (turns : list Turn)
  | SReadFail (turns : list Turn).

(** What other code may do to the call: everything but resume, which only readers
    do, and but finish a reactor callback, which concerns the stream too. *)
Definition foreign (l : CallLabel) : bool :=
  match l with LOp CallResumeReceive _ | LCallback _ => false | _ => true end.

(** The reactor callback that waits: [on_message], [on_remote_end], or the part of
    [on_cancel] and [on_terminal] that concerns the call. *)
Definition stream_callback (turns : list Turn) (w : StreamWorld) : option StreamWorld :=
  match cw_waiting (sw_call w) with
  | None => None
  | Some (CbMessage payload) =>
      let '(action, (s, c)) := RequestStream_OnMessage payload turns (sw_stream w) (sw_call w) in
      match call_step c (LCallback action) with
      | None => None
      | Some c' =>
          Some (w <| sw_call := c' |> <| sw_stream := s |>
                  <| sw_accepted := sw_accepted w ++
                       match rs_message (sw_stream w), rs_message s with
                       | None, Some m => [m]
                       | _, _ => []
                       end |>)
      end
  | Some CbRemoteEnd =>
      match call_step (sw_call w) (LCallback Continue) with
      | None => None
      | Some c' => Some (w <| sw_call := c' |>
                           <| sw_stream := RequestStream_OnRemoteEnd (sw_stream w) |>)
      end
  | Some CbWritable =>
      match call_step (sw_call w) (LCallback Continue) with
      | None => None
      | Some c' => Some (w <| sw_call := c' |>)
      end
  | Some CbCancel | Some (CbTerminal _) =>
      if sw_told w then
        match call_step (sw_call w) (LCallback Continue) with
        | None => None
        | Some c' => Some (w <| sw_call := c' |> <| sw_told := false |>)
        end
      else None
  end.

(** The callback that waits does not find the call ([Find] returns nothing): a message is
    not stored, and the stream is not told of its end or of a cancellation. *)
Definition stream_lost (w : StreamWorld) : option StreamWorld :=
  if sw_told w then None
  else match lose_callback (sw_call w) with
       | None => None
       | Some c =>
           Some (w <| sw_call := c |>
                   <| sw_missed := match cw_waiting (sw_call w) with Some (CbMessage _) => true | _ => sw_missed w end |>)
       end.

Definition stream_step (w : StreamWorld) (l : StreamLabel) : option StreamWorld :=
  match l with
  | SCall cl =>
      if negb (foreign cl) then None
      else match call_step (sw_call w) cl with
           | None => None
           | Some c => Some (w <| sw_call := c |>)
           end
  | STell =>
      if sw_told w then None
      else match cw_waiting (sw_call w) with
           | Some CbCancel =>
               Some (w <| sw_told := true |>
                       <| sw_stream := RequestStream_OnCancel (sw_stream w) |>)
           | Some (CbTerminal _) =>
               Some (w <| sw_told := true |>
                       <| sw_stream := RequestStream_OnTerminal (sw_stream w) |>)
           | _ => None
           end
  | SCallback turns => stream_callback turns w
  | SLost => stream_lost w
  | SReadTake =>
      match RequestStream_Read_take (sw_stream w) with
      | None => None
      | Some (None, _) => Some w
      | Some (Some m, s) =>
          Some (w <| sw_stream := s |> <| sw_resuming := S (sw_resuming w) |>
                  <| sw_read := sw_read w ++ [m] |>)
      end
  | SReadResume turns =>
      match sw_resuming w with
      | O => None
      | S n =>
          let '((error, fail), c) := RequestStream_Read_resume turns (sw_call w) in
          Some (w <| sw_call := c |> <| sw_resuming := n |>
                  <| sw_failing := if fail then S (sw_failing w) else sw_failing w |>
                  <| sw_resumed := sw_resumed w ++ [error] |>)
      end
  | SReadFail turns =>
      match sw_failing w with
      | O => None
      | S n => Some (w <| sw_failing := n |>
                       <| sw_call := RequestStream_Read_fail turns (sw_call w) |>)
      end
  end.

(** ** The receiving side of the transport

    [occupied]: a message is in the mailbox or with a reader who has not resumed
    yet; [excuse]: the stream was rejected, a message was lost, or resuming failed for
    want of resources. *)

(** Receiving is stopped, or will be when the message callback ends, and nobody
    has asked to resume. *)
Definition held (t : TransportCall) : Prop :=
  (tc_receive_paused t = true ∧ tc_resume_queued t = false ∧
     tc_message_callback_active t = false) ∨
  (tc_message_callback_active t = true ∧ tc_message_action t = Some Pause ∧
     tc_resume_requested t = false).

Definition resumes (cs : list StreamCommand) : nat :=
  length (filter (λ c, c = CmdResumeReceive) cs).

Record receive_inv (occupied excuse : bool) (t : TransportCall) (w : option Callback) : Prop := {
  ri_queued : tc_streaming_active t = true →
    resumes (tc_commands t) = Nat.b2n (tc_resume_queued t);
  ri_paused : tc_streaming_active t = true → tc_resume_queued t = true →
    tc_receive_paused t = true;
  ri_requested : tc_resume_requested t = true → tc_message_callback_active t = true;
  ri_active : tc_message_callback_active t = true →
    tc_receive_paused t = false ∧ tc_resume_queued t = false;
  ri_pause : tc_message_action t = None ∨ tc_message_action t = Some Pause;
  ri_action : tc_message_callback_active t = true → tc_message_action t = None →
    ∃ m, w = Some (CbMessage m);
  ri_message : ∀ m, w = Some (CbMessage m) →
    occupied = false ∧ tc_message_callback_active t = true ∧ tc_message_action t = None ∧
    tc_resume_requested t = false ∧ tc_remote_end_called t = false;
  ri_held : occupied = true → tc_streaming_active t = true → held t;
  ri_flow : occupied = false → excuse = false → call_open t = true →
    (∀ m, w ≠ Some (CbMessage m)) →
    (tc_receive_paused t = true → tc_resume_queued t = true) ∧
    (tc_message_callback_active t = true → tc_resume_requested t = true);
  ri_remote : w = Some CbRemoteEnd → tc_remote_end_called t = true }.

Lemma resumes_cons c cs :
  resumes (c :: cs) = (Nat.b2n (bool_decide (c = CmdResumeReceive)) + resumes cs)%nat.
Proof. unfold resumes. rewrite filter_cons. by case_decide; rewrite ?bool_decide_true, ?bool_decide_false by done. Qed.

Lemma resumes_app cs cs' : resumes (cs ++ cs') = (resumes cs + resumes cs')%nat.
Proof. unfold resumes. by rewrite filter_app, length_app. Qed.

Ltac receive_solve :=
  constructor; unfold held; simpl; rewrite ?call_open_spec in *; simpl;
  try (intuition congruence).

Lemma receive_inv_stable occupied excuse : reactor_stable (receive_inv occupied excuse).
Proof.
  intros t e t' cb Hr He. destruct Hr as [H0 H1 H2 H3 H4 Ha H5 H6 H7 H9]. unfold held in *.
  pose proof (λ a b c, H7 a b c ltac:(done)) as H7'. clear H7. rename H7' into H7.
  destruct e.
  - revert He. unfold reactor. destruct (tc_message_callback_active t) eqn:Em; [done|].
    destruct (tc_commands t) as [|c rest] eqn:Ec; [done|]. rewrite resumes_cons in H0.
    intros [= <- <-]. unfold processStreamCommand, failStreaming.
    destruct c; simpl in H0; [repeat case_match; simplify_eq/=; receive_solve..|].
    assert (Hq : tc_streaming_active t = true → tc_resume_queued t = true ∧ resumes rest = 0%nat).
    { intros Hs. specialize (H0 Hs). destruct (tc_resume_queued t); simpl in H0; [split; [done|lia]|lia]. }
    clear H0. simpl. destruct (tc_streaming_active t) eqn:Es, (tc_transport_closed t) eqn:Et;
      simpl; receive_solve.
  - revert He. unfold reactor. destruct (tc_message_callback_active t) eqn:Em; [done|].
    destruct (_ || _) eqn:E; [done|]. intros [= <- <-].
    apply orb_false_iff in E as [E Hre]. apply orb_false_iff in E as [Es Ep].
    apply negb_false_iff in Es. rewrite Es, Ep in *.
    assert (Hq : tc_resume_queued t = false) by (destruct (tc_resume_queued t); intuition congruence).
    assert (Ho : occupied = false) by (destruct occupied; intuition congruence).
    assert (Hrq : tc_resume_requested t = false)
      by (destruct (tc_resume_requested t); intuition congruence).
    clear H6 H7. receive_solve; [by eauto|]. intros _ _ _ Hn. by destruct (Hn payload).
  - revert He. unfold reactor. destruct (tc_message_action t) as [action|] eqn:Ea; [|done].
    destruct (tc_message_callback_active t) eqn:Em; [|done]. intros [= <- <-].
    destruct H4 as [|H4]; [done|]. injection H4 as ->.
    destruct (H3 eq_refl) as [Hp Hq]. rewrite Hp, Hq in *.
    destruct (tc_streaming_active t) eqn:Es, (tc_resume_requested t) eqn:Er; simpl;
      receive_solve.
  - revert He. unfold reactor. destruct (tc_message_callback_active t) eqn:Em; [done|].
    destruct (_ || _) eqn:E; [done|]. intros [= <- <-]. receive_solve.
  - revert He. unfold reactor, releaseOutboundReservation.
    repeat case_match; intros; simplify_eq/=; receive_solve.
  - revert He. unfold reactor, cancelStreaming, discardStreamCommands.
    repeat case_match; intros; simplify_eq/=; receive_solve.
  - revert He. unfold reactor, failStreaming.
    repeat case_match; intros; simplify_eq/=; receive_solve.
  - revert He. unfold reactor, forceAbortStreaming, discardStreamCommands.
    repeat case_match; intros; simplify_eq/=; receive_solve.
  - revert He. unfold reactor, retireStream, discardStreamCommands.
    repeat case_match; intros; simplify_eq/=; receive_solve.
Qed.

Lemma receive_inv_exec op env t w occupied excuse :
  op ≠ OpResumeReceive → receive_inv occupied excuse t w →
  receive_inv occupied excuse (exec_op op env t).2 w.
Proof.
  intros Hop Hr. destruct op; simpl; try done;
    unfold serverCallSendInitialMetadata, serverCallSend_check, serverCallSend_commit,
      checkOutboundCapacityLocked, serverCallFinish, serverCallAbort, enqueue;
    repeat (case_match; simplify_eq/=; try done).
  all: destruct Hr as [H0' H1' H2' H3' H4' H8' H5' H6' H7' H9'].
  all: constructor; unfold held in *; simpl; rewrite ?resumes_app, ?Nat.add_0_r; try done.
  all: intros Ho He Hc; apply H7'; try done.
  all: unfold call_closed in *; rewrite ?orb_false_iff, ?negb_false_iff in *.
  all: revert Hc; rewrite !call_open_spec; simpl; intuition congruence.
Qed.

(** The message leaves without a request to resume. *)
Lemma receive_inv_vacate excuse excuse' t w :
  receive_inv true excuse t w → (excuse' = false → call_open t = true → False) →
  receive_inv false excuse' t w.
Proof.
  intros [H0 H1 H2 H3 H4 H8 H5 H6 H7 H9] Hf. constructor; try done.
  - intros m Hm. by destruct (H5 m Hm).
  - intros _ He Ho. by destruct Hf.
Qed.

(** What a reader's request to resume meets: the stream is held, so resuming works
    or the call is over or resources are exhausted; it is never refused because
    receiving was not paused. *)
Lemma exec_resume_receive excuse env t w r t' :
  receive_inv true excuse t w → serverCallResumeReceive env t = (r, t') →
  (r = None ∨ r = Some SE_CallClosed ∨ r = Some SE_OutOfMemory ∨ r = Some SE_OtherError) ∧
  receive_inv false (excuse || bool_decide (r = Some SE_OutOfMemory)
                            || bool_decide (r = Some SE_OtherError)) t' w.
Proof.
  intros Hr. unfold serverCallResumeReceive, enqueue.
  destruct (tc_target t) eqn:Et; simpl.
  2: { intros [= <- <-]. split; [auto|]. apply (receive_inv_vacate excuse); [done|].
       intros _ Ho%call_open_spec. intuition congruence. }
  destruct (call_closed t) eqn:Ec.
  { intros [= <- <-]. split; [auto|]. apply (receive_inv_vacate excuse); [done|].
    intros _ Ho. unfold call_open in Ho. by rewrite Ec, andb_false_r in Ho. }
  assert (Hs : tc_streaming_active t = true).
  { unfold call_closed in Ec. destruct (tc_streaming_active t); [done|]. done. }
  pose proof (ri_held _ _ _ _ Hr eq_refl Hs) as [(Hp & Hq & Ha)|(Ha & Hact & Hrq)].
  - assert (Hrq : tc_resume_requested t = false).
    { pose proof (ri_requested _ _ _ _ Hr). destruct (tc_resume_requested t); intuition congruence. }
    rewrite Hq, Hrq, Hp. simpl. destruct (env_enqueue env) as [[]|]; intros [= <- <-]; simpl;
      (split; [by auto|]).
    1, 2: rewrite ?orb_true_r; apply (receive_inv_vacate excuse); [|by rewrite ?orb_true_r];
      destruct Hr as [H0 H1 H2 H3 H4 H8 H5 H6 H7 H9]; constructor; unfold held in *; simpl;
      rewrite ?Hq in *; try done; intros _ _; by auto.
    destruct Hr as [H0 H1 H2 H3 H4 H8 H5 H6 H7 H9].
    constructor; simpl; try done; rewrite ?Ha, ?Hrq, ?Hp; try done.
    + intros _. rewrite resumes_app, H0, Hq; done.
    + intros m Hm. by destruct (H5 m Hm).
  - destruct (ri_active _ _ _ _ Hr Ha) as [Hp Hq]. rewrite Hq, Hrq, Hp, Ha. simpl.
    intros [= <- <-]. simpl. split; [auto|]. rewrite !orb_false_r.
    destruct Hr as [H0 H1 H2 H3 H4 H8 H5 H6 H7 H9]. constructor; simpl; try done.
    + intros m Hm. by destruct (H5 m Hm).
    + rewrite Hp. done.
Qed.

(** Only [ResumeReceive] resumes. *)
Lemma code_no_resume op s :
  op ≠ CallResumeReceive → code_all (λ o, o ≠ OpResumeReceive) (call_op op s).
Proof.
  intros Hop. destruct op; simpl; try done;
    unfold TypedCallState_SendInitialMetadata, TypedCallState_Send, TypedCallState_Finish,
      TypedCallState_EnsureInitialMetadata, ServerCall_SendInitialMetadata, ServerCall_Send,
      ServerCall_Finish, grpc_lite_server_call_send_initial_metadata,
      grpc_lite_server_call_send, grpc_lite_server_call_finish;
    repeat (first [case_match | apply code_all_bind; [|intros] | split; [done|intros]]; simpl; try done).
Qed.

(** ** The invariant of the stream *)

Definition occupied (w : StreamWorld) : bool :=
  bool_decide (is_Some (rs_message (sw_stream w))) || negb (sw_resuming w =? 0)%nat.

(** Resuming failed for want of memory or because the reactor could not be woken. *)
Definition resource_error (e : Error) : bool :=
  Error_is e ErrorCode.OutOfMemory || Error_is e ErrorCode.Internal.

Definition excused (w : StreamWorld) : bool :=
  rs_rejected (sw_stream w) || existsb resource_error (sw_resumed w) || sw_missed w.

Definition resume_result (e : Error) : Prop :=
  Error_ok e = true ∨ Error_is e ErrorCode.Closed = true ∨ resource_error e = true.

Record stream_inv (w : StreamWorld) : Prop := {
  si_call : call_inv (lost := true) (sw_call w);
  si_receive : receive_inv (occupied w) (excused w) (cw_transport (sw_call w))
                 (cw_waiting (sw_call w));
  si_one : sw_resuming w = 0%nat ∨ (sw_resuming w = 1%nat ∧ rs_message (sw_stream w) = None);
  si_fifo : sw_accepted w = sw_read w ++ option_list (rs_message (sw_stream w));
  si_remote_end : rs_remote_end (sw_stream w) = true →
    tc_remote_end_called (cw_transport (sw_call w)) = true;
  si_terminal : rs_terminal (sw_stream w) = true → tc_terminal (cw_transport (sw_call w)) = true;
  si_resumed : Forall resume_result (sw_resumed w) }.

Lemma stream_inv_start l gz :
  0 ≤ max_outbound_buffer_size l → stream_inv (start_stream l gz).
Proof.
  intros Hl. constructor; simpl; auto.
  - by apply call_inv_start.
  - by constructor; auto.
Qed.

(** Steps that leave the receiving side alone. *)
Lemma receive_inv_call_step occ exc w l w' :
  foreign l = true →
  receive_inv occ exc (cw_transport w) (cw_waiting w) → call_step w l = Some w' →
  receive_inv occ exc (cw_transport w') (cw_waiting w').
Proof.
  intros Hf Hr. destruct l as [op turns| | | |e|]; cbn [call_step]; try done; try by intros [= <-].
  - intros [= <-]. destruct (run_op_spec (call_op op) turns w) as (a & s & t & cb & E & ->). simpl.
    apply (wp_pres_ops (λ o, o ≠ OpResumeReceive) (receive_inv occ exc)) in E; try done.
    + apply receive_inv_stable.
    + intros. by apply receive_inv_exec.
    + apply code_no_resume. by intros ->.
  - destruct (cw_waiting w) eqn:Ew; [done|]. destruct (reactor _ e) as [[t cb]|] eqn:E; [|done].
    intros [= <-]. simpl. by eapply receive_inv_stable.
Qed.

Lemma receive_inv_run_op occ exc op turns w :
  op ≠ CallResumeReceive →
  receive_inv occ exc (cw_transport w) (cw_waiting w) →
  receive_inv occ exc (cw_transport (run_op (call_op op) turns w).2)
    (cw_waiting (run_op (call_op op) turns w).2).
Proof.
  intros Hop Hr. apply (receive_inv_call_step occ exc w (LOp op turns)); [by destruct op|done|done].
Qed.

(** The result of [ResumeReceive] for a reader that holds the message. *)
Lemma wp_resume_receive s exc t w :
  world_inv (lost := true) s t w → receive_inv true exc t w →
  wp (TypedCallState_ResumeReceive s)
    (λ r t' w', resume_result r.1 ∧ receive_inv false (exc || resource_error r.1) t' w') t w.
Proof.
  intros Hw Hr. unfold TypedCallState_ResumeReceive.
  destruct (tcs_terminal s || tcs_finish_submitted s) eqn:Ec.
  { apply wp_done. split; [by right; left|]. simpl.
    apply (receive_inv_vacate exc); [done|]. intros _ Ho%call_open_spec.
    destruct (ti_phase _ (wi_transport _ _ _ Hw)) as (p & Hp & Hf & _).
    destruct (wi_phase _ _ _ Hw _ Hp) as [_ Hfin]. pose proof (wi_terminal _ _ _ Hw) as Ht.
    pose proof (wi_target _ _ _ Hw) as Htg. apply orb_true_iff in Ec as [Ec|Ec]; rewrite Ec in *.
    - simpl in Ht. rewrite Ht in Htg. simpl in Htg. intuition congruence.
    - symmetry in Hfin. apply bool_decide_eq_true in Hfin. intuition congruence. }
  unfold ServerCall_ResumeReceive. rewrite (wi_call _ _ _ Hw).
  apply orb_false_iff in Ec as [-> _]. simpl.
  apply (wp_locked (receive_inv true exc)); [apply receive_inv_stable|done|].
  intros t1 w1 env r t2 Hr1 E. apply wp_done. simpl.
  destruct (exec_resume_receive _ _ _ _ _ _ Hr1 E) as [Hres Hr2].
  destruct Hres as [->|[->|[->| ->]]]; (split; [unfold resume_result; by auto|]);
    revert Hr2; simpl; by rewrite ?orb_true_r, ?orb_false_r.
Qed.

Lemma call_inv_run_op op turns w : call_inv (lost := true) w → call_inv (lost := true) (run_op (call_op op) turns w).2.
Proof. intros Hi. by apply (call_step_inv w (LOp op turns)). Qed.

Lemma run_op_waiting op turns w cb :
  cw_waiting w = Some cb → cw_waiting (run_op (call_op op) turns w).2 = Some cb.
Proof.
  intros Hw. destruct (run_op_spec (call_op op) turns w) as (a & s & t & cb' & E & ->). simpl.
  apply (wp_pres (λ _ w, w = Some cb)) in E; try done.
Qed.

(** The end of a reactor callback that is not [on_message]. *)
Lemma receive_inv_callback occ exc action w cb w' :
  cw_waiting w = Some cb → (∀ m, cb ≠ CbMessage m) →
  receive_inv occ exc (cw_transport w) (cw_waiting w) →
  call_step w (LCallback action) = Some w' →
  receive_inv occ exc (cw_transport w') (cw_waiting w').
Proof.
  intros Hw Hm Hr. cbn [call_step]. rewrite Hw. intros [= <-]. simpl. rewrite Hw in Hr.
  destruct Hr as [H0 H1 H2 H3 H4 H8 H5 H6 H7 H9].
  destruct cb; [by destruct (Hm payload)|..]; constructor; simpl; try done;
    try (intros Ha Hn; by destruct (H8 Ha Hn)).
  all: intros; by apply H7.
Qed.

(** The end of [on_message], which always pauses: with a message stored the stream
    is held, without one the stream was rejected or ended. *)
Lemma receive_inv_message occ exc w m w' :
  cw_waiting w = Some (CbMessage m) →
  receive_inv false exc (cw_transport w) (cw_waiting w) →
  (occ = true ∨ exc = true ∨ call_open (cw_transport w) = false) →
  call_step w (LCallback Pause) = Some w' →
  receive_inv occ exc (cw_transport w') (cw_waiting w').
Proof.
  intros Hw Hr Ho. cbn [call_step]. rewrite Hw. intros [= <-]. simpl. rewrite Hw in Hr.
  destruct (ri_message _ _ _ _ Hr m eq_refl) as (_ & Ha & _ & Hrq & _).
  destruct (ri_active _ _ _ _ Hr Ha) as [Hp Hq].
  destruct Hr as [H0 H1 H2 H3 H4 H8 H5 H6 H7 H9]. constructor; simpl; try done; auto.
  - intros _ _. right. simpl. by rewrite Ha, Hrq.
  - intros -> -> Hop. destruct Ho as [|[|Ho]]; try done.
    change (call_open (cw_transport w) = true) in Hop. congruence.
Qed.

(** Flags of the transport that are never reset. *)
Definition latched (b : bool * bool) (t : TransportCall) (_ : option Callback) : Prop :=
  (b.1 = true → tc_remote_end_called t = true) ∧ (b.2 = true → tc_terminal t = true).

Lemma latched_stable b : reactor_stable (latched b).
Proof.
  intros t e t' cb Hl. unfold reactor.
  destruct e; unfold processStreamCommand, failStreaming, releaseOutboundReservation,
    cancelStreaming, forceAbortStreaming, retireStream, discardStreamCommands;
    repeat case_match; intros; simplify_eq/=; unfold latched in *; simpl; intuition.
Qed.

Lemma latched_exec b op env t w : latched b t w → latched b (exec_op op env t).2 w.
Proof.
  intros Hl. destruct op; simpl;
    unfold serverCallSendInitialMetadata, serverCallSend_check, serverCallSend_commit,
      checkOutboundCapacityLocked, serverCallFinish, serverCallResumeReceive, serverCallAbort, enqueue;
    repeat (case_match; simplify_eq/=; try done).
Qed.

Lemma latched_run_op {A} b (op : TypedCallState → Code (A * TypedCallState)) turns w :
  latched b (cw_transport w) None → latched b (cw_transport (run_op op turns w).2) None.
Proof.
  intros Hl. destruct (run_op_spec op turns w) as (a & s & t & cb & E & ->). simpl.
  apply (wp_pres (latched b)) in E; try done; [apply latched_stable|].
  intros. by apply latched_exec.
Qed.

Lemma latched_call_step b w l w' :
  latched b (cw_transport w) None → call_step w l = Some w' → latched b (cw_transport w') None.
Proof.
  intros Hl. destruct l; cbn [call_step]; try by intros [= <-].
  - intros [= <-]. by apply latched_run_op.
  - destruct (cw_waiting w); [done|]. destruct (reactor _ e) as [[t cb]|] eqn:E; [|done].
    intros [= <-]. exact (latched_stable b _ _ _ _ Hl E).
  - destruct (cw_waiting w) as [cb|]; [|done]. intros [= <-]. by destruct cb.
Qed.

Definition stream_latch (w : StreamWorld) : bool * bool :=
  (rs_remote_end (sw_stream w), rs_terminal (sw_stream w)).

Lemma si_latched w : stream_inv w → latched (stream_latch w) (cw_transport (sw_call w)) None.
Proof. intros Hi. split; simpl; apply Hi. Qed.

(** [OnMessage], for a message the reactor is delivering. *)
Lemma OnMessage_inv w payload turns :
  stream_inv w → cw_waiting (sw_call w) = Some (CbMessage payload) →
  occupied w = false ∧ sw_resuming w = 0%nat ∧ rs_message (sw_stream w) = None ∧
  ∃ s c, RequestStream_OnMessage payload turns (sw_stream w) (sw_call w) = (Pause, (s, c)) ∧
    call_inv (lost := true) c ∧ cw_waiting c = Some (CbMessage payload) ∧
    latched (rs_remote_end s, rs_terminal s) (cw_transport c) None ∧
    receive_inv false (rs_rejected s || existsb resource_error (sw_resumed w) || sw_missed w)
      (cw_transport c) (cw_waiting c) ∧
    (is_Some (rs_message s) ∨ rs_rejected s = true ∨ call_open (cw_transport c) = false).
Proof.
  intros Hi Hw. pose proof (si_receive _ Hi) as Hr. rewrite Hw in Hr.
  destruct (ri_message _ _ _ _ Hr payload eq_refl) as (Ho & _ & _ & _ & Hre).
  pose proof Ho as Ho'. unfold occupied in Ho'. apply orb_false_iff in Ho' as [Hm Hn].
  apply bool_decide_eq_false in Hm. rewrite <- eq_None_not_Some in Hm.
  apply negb_false_iff, Nat.eqb_eq in Hn. split_and!; [done..|].
  assert (Hrej : ∀ st, let c := (run_op (TypedCallState_Finish st []) turns (sw_call w)).2 in
    call_inv (lost := true) c ∧ cw_waiting c = Some (CbMessage payload) ∧
    latched (stream_latch w) (cw_transport c) None ∧
    receive_inv false true (cw_transport c) (cw_waiting c)).
  { intros st. split_and!.
    - apply (call_inv_run_op (CallFinish st [])), Hi.
    - by apply (run_op_waiting (CallFinish st [])).
    - by apply latched_run_op, si_latched.
    - apply (receive_inv_run_op false true (CallFinish st [])); [done|]. rewrite Hw.
      rewrite Ho in Hr. destruct Hr. by constructor. }
  unfold RequestStream_OnMessage, reject. rewrite Hm.
  destruct (rs_rejected (sw_stream w) || _ || _) eqn:Edone.
  { eexists _, _. split; [done|]. rewrite Ho in Hr. rewrite Hw. split_and!; try done; [apply Hi|by apply si_latched|].
    right. apply orb_true_iff in Edone as [Edone|Edone]; [apply orb_true_iff in Edone as [|Edone]|]; auto.
    - pose proof (si_remote_end _ Hi Edone). congruence.
    - pose proof (si_terminal _ Hi Edone) as Ht.
      pose proof (wi_target _ _ _ (si_call _ Hi)) as Htg. rewrite Ht in Htg.
      right. unfold call_open. by rewrite Htg. }
  destruct (_ >? _); [|destruct (ParseFromArray payload) as [parsed|]].
  1, 3: edestruct Hrej as (? & ? & ? & ?); eexists _, _; split; [done|]; split_and!; try done; by auto.
  eexists _, _. split; [done|]. rewrite Ho in Hr. rewrite Hw. split_and!; try done; [apply Hi|by apply si_latched|].
  left. by eexists.
Qed.

Lemma stream_call_inv w c :
  stream_inv w → call_inv (lost := true) c → latched (stream_latch w) (cw_transport c) None →
  receive_inv (occupied w) (excused w) (cw_transport c) (cw_waiting c) →
  stream_inv (w <| sw_call := c |>).
Proof.
  intros [] Hc [Hl1 Hl2] Hr. by constructor.
Qed.

(** The callbacks other than [on_message]. *)
Lemma stream_callback_inv w cb c :
  stream_inv w → cw_waiting (sw_call w) = Some cb → (∀ m, cb ≠ CbMessage m) →
  call_step (sw_call w) (LCallback Continue) = Some c → stream_inv (w <| sw_call := c |>).
Proof.
  intros Hi Hw Hm Hs. apply stream_call_inv; [done|..].
  - eapply call_step_inv; [apply Hi|done].
  - eapply latched_call_step; [by apply si_latched|done].
  - eapply receive_inv_callback; [done..|apply Hi|done].
Qed.

Lemma stream_message_inv w payload turns w' :
  stream_inv w → cw_waiting (sw_call w) = Some (CbMessage payload) →
  stream_callback turns w = Some w' → stream_inv w'.
Proof.
  intros Hi Hw. unfold stream_callback. rewrite Hw.
  destruct (OnMessage_inv w payload turns Hi Hw)
    as (Ho & Hn & Hm & s & c & -> & Hc & Hcw & [Hl1 Hl2] & Hr & Hres).
  destruct (call_step c (LCallback Pause)) as [c'|] eqn:Es; [|done]. intros [= <-].
  constructor; simpl.
  - by eapply call_step_inv.
  - unfold occupied, excused in *. simpl in *. rewrite Hn, orb_false_r in *.
    eapply receive_inv_message; [done|done| |done].
    destruct Hres as [Hs|[Hs|Hs]]; [left; by apply bool_decide_eq_true|right; left; by rewrite Hs|auto].
  - by left.
  - rewrite (si_fifo _ Hi), Hm. simpl. rewrite app_nil_r. by destruct (rs_message s).
  - intros Hre. apply (latched_call_step (rs_remote_end s, rs_terminal s)) in Es; [|done].
    by apply Es.
  - intros Hre. apply (latched_call_step (rs_remote_end s, rs_terminal s)) in Es; [|done].
    by apply Es.
  - apply Hi.
Qed.

Lemma receive_inv_excuse occ exc t w : receive_inv occ exc t w → receive_inv occ true t w.
Proof. intros []. by constructor. Qed.

(** For the transport a lost callback is one that returns [Pause]. *)
Lemma lose_callback_step c c' :
  lose_callback c = Some c' → ∃ cb c1, cw_waiting c = Some cb ∧ call_step c (LCallback Pause) = Some c1 ∧
    cw_transport c1 = cw_transport c' ∧ cw_waiting c1 = cw_waiting c'.
Proof.
  unfold lose_callback. destruct (cw_waiting c) as [cb|] eqn:Hw; [|done]. intros H. exists cb. eexists. split; [done|].
  cbn [call_step]. rewrite Hw. split; [done|]. by destruct cb; simplify_eq.
Qed.

Lemma stream_lost_inv w w' : stream_inv w → stream_lost w = Some w' → stream_inv w'.
Proof.
  intros Hi. unfold stream_lost. destruct (sw_told w); [done|]. destruct (lose_callback (sw_call w)) as [c|] eqn:El; [|done].
  pose proof (lose_callback_inv _ _ _ (si_call _ Hi) El) as Hc. pose proof (si_receive _ Hi) as Hr.
  assert (latched (stream_latch w) (cw_transport c) None) as [Hl1 Hl2].
  { destruct (si_latched w Hi) as [H1 H2]. unfold lose_callback in El. by destruct (cw_waiting (sw_call w)) as [[]|]; simplify_eq. }
  assert (receive_inv (occupied w) (excused (w <| sw_missed := match cw_waiting (sw_call w) with Some (CbMessage _) => true | _ => sw_missed w end |>))
    (cw_transport c) (cw_waiting c)) as Hr'.
  { destruct (lose_callback_step _ _ El) as (cb & c1 & Hw & Hs & <- & <-). rewrite Hw. destruct cb as [m| | | |r].
    - rewrite Hw in Hr. destruct (ri_message _ _ _ _ Hr m eq_refl) as (Ho & _). rewrite <- Hw, Ho in *. unfold excused. simpl.
      rewrite orb_true_r. eapply receive_inv_message; [exact Hw|by eapply receive_inv_excuse|auto|exact Hs].
    - eapply receive_inv_callback; [exact Hw|done|exact Hr|exact Hs].
    - eapply receive_inv_callback; [exact Hw|done|exact Hr|exact Hs].
    - eapply receive_inv_callback; [exact Hw|done|exact Hr|exact Hs].
    - eapply receive_inv_callback; [exact Hw|done|exact Hr|exact Hs]. }
  intros [= <-]. destruct Hi. by constructor.
Qed.

Lemma stream_step_inv w l w' : stream_inv w → stream_step w l = Some w' → stream_inv w'.
Proof.
  intros Hi. destruct l; cbn [stream_step].
  - destruct (foreign l) eqn:Ef; [|done]. simpl.
    destruct (call_step (sw_call w) l) as [c|] eqn:Es; [|done]. intros [= <-].
    apply stream_call_inv; [done|..].
    + eapply call_step_inv; [apply Hi|done].
    + eapply latched_call_step; [by apply si_latched|done].
    + eapply receive_inv_call_step; [done|apply Hi|done].
  - destruct (sw_told w); [done|]. destruct (cw_waiting (sw_call w)) as [[]|] eqn:Hw; try done;
      intros [= <-]; destruct Hi as [Hc Hr H1 H2 H3 H4 H5]; constructor; simpl; try done.
    intros _. rewrite (wi_terminal _ _ _ Hc), Hw. by rewrite orb_true_r.
  - destruct (cw_waiting (sw_call w)) as [cb|] eqn:Hw; [|unfold stream_callback; by rewrite Hw].
    destruct cb as [m| | | |r]; [by apply (stream_message_inv w m)|..];
      unfold stream_callback; rewrite Hw; repeat case_match; try done; intros [= <-].
    all: assert (Hi' : stream_inv (w <| sw_call := c |>)) by (by eapply stream_callback_inv).
    all: destruct Hi'; constructor; simpl in *; try done.
    intros _. simpl in H. rewrite Hw in H. injection H as <-. simpl.
    pose proof (si_receive _ Hi) as Hr. by apply Hr.
  - by apply stream_lost_inv.
  - unfold RequestStream_Read_take. destruct (rs_message (sw_stream w)) as [m|] eqn:Em.
    + intros [= <-]. destruct Hi as [Hc Hr H1 H2 H3 H4 H5].
      assert (Hn : sw_resuming w = 0%nat) by (destruct H1 as [|[_ H1]]; congruence).
      assert (Ho : occupied w = true) by (unfold occupied; by rewrite Em).
      constructor; simpl; auto.
      * unfold occupied in *. simpl. by rewrite Ho in Hr.
      * rewrite H2, Em. simpl. by rewrite app_nil_r.
    + destruct (_ || _ || _ || _); [|done]. intros Hs. by simplify_eq.
  - destruct (sw_resuming w) as [|n] eqn:En; [done|].
    destruct Hi as [Hc Hr H1 H2 H3 H4 H5].
    destruct H1 as [|[H1 Hm]]; [congruence|]. assert (n = 0%nat) as -> by congruence.
    assert (Ho : occupied w = true) by (unfold occupied; by rewrite En, orb_true_r).
    rewrite Ho in Hr. unfold RequestStream_Read_resume.
    pose proof (call_inv_run_op CallResumeReceive turns (sw_call w) Hc) as Hc'.
    pose proof (latched_run_op _ TypedCallState_ResumeReceive turns (sw_call w)
      (conj H3 H4 : latched (stream_latch w) _ None)) as [Hl1 Hl2].
    simpl in Hc'.
    destruct (run_op_spec TypedCallState_ResumeReceive turns (sw_call w)) as (e & s & t & cb & E & Er).
    rewrite Er in *. intros [= <-]. simpl in *.
    destruct (wp_resume_receive _ _ _ _ Hc Hr _ _ _ _ E) as [Hres Hr']. simpl in *.
    constructor; simpl; auto.
    + unfold occupied, excused in *. simpl. rewrite Hm, existsb_app. simpl.
      by destruct (rs_rejected (sw_stream w)), (existsb resource_error (sw_resumed w)), (resource_error e), (sw_missed w).
    + apply Forall_app. by split; [|constructor].
  - destruct (sw_failing w) as [|n]; [done|]. intros [= <-].
    set (op := CallFinish (mkStatus StatusCode.Internal "failed to resume request stream") []).
    assert (Hi' : stream_inv (w <| sw_call := (run_op (call_op op) turns (sw_call w)).2 |>)).
    { apply stream_call_inv; [done|..].
      - apply call_inv_run_op, Hi.
      - by apply latched_run_op, si_latched.
      - by apply receive_inv_run_op, Hi. }
    destruct Hi'. by constructor.
Qed.

Lemma stream_run_inv l gz ls w :
  0 ≤ max_outbound_buffer_size l →
  run stream_step (start_stream l gz) ls = Some w → stream_inv w.
Proof.
  intros Hl. apply run_invariant; [|by apply stream_inv_start]. intros. by eapply stream_step_inv.
Qed.

(** ** The reactor can always go on

    What it does on its own before it delivers the next message: it ends the
    message callback and works off the queued commands. *)

Definition unblock (t : TransportCall) : list StreamLabel :=
  (if tc_message_callback_active t then [SCall (LReactor RDeliverEnd)] else []) ++
  ((λ _, SCall (LReactor (RProcess true true))) <$> tc_commands t).

(** An open call whose receiving is stopped only by a queued request to resume. *)
Record flowing (t : TransportCall) : Prop := {
  fl_open : call_open t = true;
  fl_idle : tc_message_callback_active t = false;
  fl_remote : tc_remote_end_called t = false;
  fl_paused : tc_receive_paused t = true → CmdResumeReceive ∈ tc_commands t }.

Lemma process_flowing c t rest :
  flowing t → tc_commands t = c :: rest →
  flowing (processStreamCommand c true true (t <| tc_commands := rest |>)) ∧
  tc_commands (processStreamCommand c true true (t <| tc_commands := rest |>)) = rest.
Proof.
  intros [Ho Hi Hr Hp] Hc. apply call_open_spec in Ho as (H1 & H2 & H3 & H4).
  rewrite Hc, elem_of_cons in Hp. unfold processStreamCommand. simpl. rewrite H2, H4. simpl.
  destruct c; repeat case_match; (split; [constructor|]); simpl; rewrite ?call_open_spec; try done;
    intros Hp'; destruct (Hp Hp'); done.
Qed.

Lemma run_unblock_commands w cs t :
  flowing t → tc_commands t = cs → cw_transport (sw_call w) = t → cw_waiting (sw_call w) = None →
  ∃ w', run stream_step w ((λ _, SCall (LReactor (RProcess true true))) <$> cs) = Some w' ∧
    flowing (cw_transport (sw_call w')) ∧ tc_commands (cw_transport (sw_call w')) = [] ∧
    cw_waiting (sw_call w') = None.
Proof.
  revert w t. induction cs as [|c cs IH]; intros w t Hf Hc Ht Hw.
  { exists w. by rewrite Ht. }
  destruct (process_flowing c t cs Hf Hc) as [Hf1 Hc1].
  destruct w as [[t0 s0 wt log] st told n f a r e missed]. simpl in Ht, Hw. subst t0 wt.
  set (t1 := processStreamCommand c true true (t <| tc_commands := cs |>)) in *.
  destruct (IH (mkStreamWorld (mkCallWorld t1 s0 None log) st told n f a r e missed) t1 Hf1 Hc1)
    as (w' & Hr & Hf' & Hc' & Hw'); [done..|].
  exists w'. split_and!; try done. rewrite <- Hr.
  cbn [fmap list_fmap run stream_step foreign negb call_step sw_call cw_waiting cw_transport].
  unfold reactor. by rewrite (fl_idle _ Hf), Hc.
Qed.

Lemma run_unblock w :
  stream_inv w → cw_waiting (sw_call w) = None →
  call_open (cw_transport (sw_call w)) = true → occupied w = false → excused w = false →
  tc_remote_end_called (cw_transport (sw_call w)) = false →
  ∃ w', run stream_step w (unblock (cw_transport (sw_call w))) = Some w' ∧
    cw_waiting (sw_call w') = None ∧
    ∀ payload, reactor (cw_transport (sw_call w')) (RDeliverBegin payload) ≠ None.
Proof.
  intros Hi Hw Ho Hocc Hexc Hre. pose proof (si_receive _ Hi) as Hr. rewrite Hw, Hocc, Hexc in Hr.
  destruct (ri_flow _ _ _ _ Hr eq_refl eq_refl Ho) as [Hp Ha]; [done|].
  pose proof Ho as (H1 & H2 & H3 & H4)%call_open_spec.
  assert (∃ w1, run stream_step w (if tc_message_callback_active (cw_transport (sw_call w))
      then [SCall (LReactor RDeliverEnd)] else []) = Some w1 ∧
    flowing (cw_transport (sw_call w1)) ∧ cw_waiting (sw_call w1) = None ∧
    tc_commands (cw_transport (sw_call w1)) = tc_commands (cw_transport (sw_call w)))
    as (w1 & Hr1 & Hf1 & Hw1 & Hc1).
  { destruct (tc_message_callback_active _) eqn:Em.
    - destruct (ri_active _ _ _ _ Hr Em) as [Hp0 Hq0].
      destruct (ri_pause _ _ _ _ Hr) as [Hact|Hact]; [by destruct (ri_action _ _ _ _ Hr Em Hact)|].
      cbn [run stream_step foreign negb call_step]. rewrite Hw. unfold reactor.
      rewrite Hact, Em, (Ha eq_refl), andb_false_r. simpl. eexists. split; [done|].
      split_and!; try done. constructor; simpl; try done. by rewrite Hp0.
    - exists w. split_and!; try done. constructor; try done. intros Hpd. specialize (Hp Hpd).
      pose proof (ri_queued _ _ _ _ Hr H2) as Hq. rewrite Hp in Hq. unfold resumes in Hq.
      destruct (filter _ _) as [|c cs] eqn:Ef; [done|].
      assert (Hin : c ∈ filter (λ c, c = CmdResumeReceive) (tc_commands (cw_transport (sw_call w))))
        by (rewrite Ef; constructor).
      by apply list_elem_of_filter in Hin as [-> Hin]. }
  destruct (run_unblock_commands w1 _ _ Hf1 eq_refl eq_refl Hw1) as (w2 & Hr2 & Hf2 & Hc2 & Hw2).
  exists w2. split_and!; [|done|].
  - unfold unblock. apply run_app. exists w1. by rewrite <- Hc1.
  - intros payload. unfold reactor. destruct Hf2 as [Ho2 Hi2 Hre2 Hp2].
    apply call_open_spec in Ho2 as (_ & Hs2 & _). rewrite Hi2, Hs2, Hre2. simpl.
    destruct (tc_receive_paused (cw_transport (sw_call w2))); [|discriminate].
    specialize (Hp2 eq_refl). rewrite Hc2 in Hp2. by apply not_elem_of_nil in Hp2.
Qed.
End Stream.

(** ** Theorems *)

(** Messages are read once each and in the order in which they arrived: what the
    readers have got so far, followed by the message in the mailbox if there is
    one, is exactly what the reactor has stored. *)
Lemma request_stream_fifo {GZ : GzipSize} {M} {MM : Message M} l gz ls w :
  0 ≤ max_outbound_buffer_size l →
  run stream_step (start_stream (M := M) l gz) ls = Some w →
  sw_accepted w = sw_read w ++ option_list (rs_message (sw_stream w)).
Proof. intros Hl Hr. by apply stream_run_inv in Hr as []. Qed.

(** C6. Backpressure holds: whenever the reactor delivers a message, the mailbox is
    empty and no reader is between taking a message and resuming, so a message
    that parses is stored and no stored message is ever overwritten; the branch
    that reports "request backpressure violated" is never taken.  (The callback is one
    that finds the call; a message whose call cannot be retained is lost, [SLost].) *)
Theorem request_backpressure {GZ : GzipSize} {M} {MM : Message M} l gz ls w payload m turns :
  0 ≤ max_outbound_buffer_size l →
  run stream_step (start_stream (M := M) l gz) ls = Some w →
  cw_waiting (sw_call w) = Some (CbMessage payload) →
  rs_rejected (sw_stream w) = false → rs_terminal (sw_stream w) = false →
  zlen payload ≤ int32_max → ParseFromArray payload = Some m →
  rs_message (sw_stream w) = None ∧ sw_resuming w = 0%nat ∧
  ∃ w', stream_step w (SCallback turns) = Some w' ∧
    rs_message (sw_stream w') = Some m ∧ sw_accepted w' = sw_accepted w ++ [m].
Proof.
  intros Hl Hr Hw Hrej Hterm Hsz Hp. apply stream_run_inv in Hr as Hi; [|done].
  pose proof (si_receive _ Hi) as Hrc. rewrite Hw in Hrc.
  destruct (ri_message _ _ _ _ Hrc payload eq_refl) as (_ & _ & _ & _ & Hre).
  destruct (OnMessage_inv w payload turns Hi Hw) as (_ & Hn & Hm & _).
  assert (Hre' : rs_remote_end (sw_stream w) = false).
  { destruct (rs_remote_end (sw_stream w)) eqn:E; [|done]. by rewrite (si_remote_end _ Hi E) in Hre. }
  split_and!; [done..|]. cbn [stream_step]. unfold stream_callback, RequestStream_OnMessage.
  rewrite Hw, Hrej, Hterm, Hre', Hm, Hp. simpl. rewrite Z.gtb_ltb, (proj2 (Z.ltb_ge _ _)) by done.
  cbn [call_step]. rewrite Hw. by eexists.
Qed.

(** Resuming after a read is never refused: it succeeds, or the call is over, or
    the library is out of memory or cannot wake its reactor.  In particular it
    never meets a stream that was not paused, even when the reader is faster than
    the return of the message callback. *)
Lemma resume_never_refused {GZ : GzipSize} {M} {MM : Message M} l gz ls w :
  0 ≤ max_outbound_buffer_size l →
  run stream_step (start_stream (M := M) l gz) ls = Some w →
  Forall resume_result (sw_resumed w).
Proof. intros Hl Hr. by apply stream_run_inv in Hr as []. Qed.

(** C24. Reading never stalls: while the call is open and the request not complete,
    when no message is in the mailbox or with a reader, and no message was rejected or
    lost and no resume failed for want of resources, the reactor on its own gets to where it delivers the next message. *)
Theorem reading_never_stalls {GZ : GzipSize} {M} {MM : Message M} l gz ls w :
  0 ≤ max_outbound_buffer_size l →
  run stream_step (start_stream (M := M) l gz) ls = Some w →
  cw_waiting (sw_call w) = None → call_open (cw_transport (sw_call w)) = true →
  occupied w = false → excused w = false →
  tc_remote_end_called (cw_transport (sw_call w)) = false →
  ∃ w', run stream_step w (unblock (cw_transport (sw_call w))) = Some w' ∧
    cw_waiting (sw_call w') = None ∧
    ∀ payload, reactor (cw_transport (sw_call w')) (RDeliverBegin payload) ≠ None.
Proof. intros Hl Hr. apply run_unblock. by eapply stream_run_inv. Qed.

(** ** Examples *)

Definition string_message : Message string := {|
  SerializeToString s := Some s;
  ParseFromArray s := if decide (s = "bad"%string) then None else Some s |}.

(** Two messages; the reader of the first resumes before its callback returned. *)
Definition stream_run : list StreamLabel :=
  [SCall (LReactor (RDeliverBegin "a")); SCallback []; SReadTake; SReadResume [];
   SCall (LReactor RDeliverEnd); SCall (LReactor (RDeliverBegin "b")); SCallback [];
   SCall (LReactor RDeliverEnd); SReadTake; SReadResume []].

Definition stream_world (n : nat) : StreamWorld (M := string) :=
  default (start_stream example_limits false)
    (run (@stream_step stored_gzip _ string_message) (start_stream example_limits false)
       (take n stream_run)).

Lemma request_stream_fifo_witness :
  sw_accepted (stream_world 8) = ["a"; "b"]%string ∧ sw_read (stream_world 8) = ["a"]%string ∧
  sw_accepted (stream_world 8) =
    sw_read (stream_world 8) ++ option_list (rs_message (sw_stream (stream_world 8))).
Proof.
  split; [vm_compute; reflexivity|]. split; [vm_compute; reflexivity|].
  apply (@request_stream_fifo stored_gzip string string_message example_limits false
           (take 8 stream_run)); vm_compute; done.
Defined.

Lemma request_backpressure_witness :
  cw_waiting (sw_call (stream_world 6)) = Some (CbMessage "b") ∧
  rs_message (sw_stream (stream_world 6)) = None ∧ sw_resuming (stream_world 6) = 0%nat ∧
  ∃ w', @stream_step stored_gzip _ string_message (stream_world 6) (SCallback []) = Some w' ∧
    rs_message (sw_stream w') = Some "b"%string ∧
    sw_accepted w' = sw_accepted (stream_world 6) ++ ["b"%string].
Proof.
  split; [vm_compute; reflexivity|].
  apply (@request_backpressure stored_gzip string string_message example_limits false
           (take 6 stream_run) (stream_world 6) "b" "b"%string []); vm_compute; done.
Defined.

Lemma resume_never_refused_witness :
  sw_resumed (stream_world 10) = [Error_default; Error_default] ∧
  Forall resume_result (sw_resumed (stream_world 10)).
Proof.
  split; [vm_compute; reflexivity|].
  apply (@resume_never_refused stored_gzip string string_message example_limits false stream_run);
    vm_compute; done.
Defined.

Lemma reading_never_stalls_witness :
  unblock (cw_transport (sw_call (stream_world 10))) = [SCall (LReactor (RProcess true true))] ∧
  ∃ w', run (@stream_step stored_gzip _ string_message) (stream_world 10)
          (unblock (cw_transport (sw_call (stream_world 10)))) = Some w' ∧
    cw_waiting (sw_call w') = None ∧
    ∀ payload, @reactor stored_gzip (cw_transport (sw_call w')) (RDeliverBegin payload) ≠ None.
Proof.
  split; [vm_compute; reflexivity|].
  apply (@reading_never_stalls stored_gzip string string_message example_limits false stream_run);
    vm_compute; done.
Defined.
