(* ===== verification/Registration.v ===== *)
(** * Registered methods

    [TypedMethodRegistration] ([cpp/typed_service.hpp]): what a registration keeps
    for each call of its method ([CallState]), the callbacks it gives the server,
    and the table of the calls in progress ([Impl]).

    [Section Call] is one call of a method whose request is a single message: the
    messages that arrive, the end of the request and the handler.  [Section
    Table] is the table. *)

From S2P Require Import Prelude Status Metadata ServerTransport TypedCall RequestStream.

Local Open Scope Z_scope.

(** ** One call *)

(** [CallState], the part of a method without client streaming *)
Record CallState (M : Type) := mkCallState {
  cs_request : option M;
  cs_request_count : Z;
  cs_rejected : bool;
  cs_dispatched : bool }.
Arguments mkCallState {M}.
Arguments cs_request {M}.
Arguments cs_request_count {M}.
Arguments cs_rejected {M}.
Arguments cs_dispatched {M}.

#[export] Instance eta_CallState M : Eta (CallState M) := λ s,
  mkCallState (cs_request s) (cs_request_count s) (cs_rejected s) (cs_dispatched s).

Definition CallState_init {M} : CallState M := mkCallState None 0 false false.

(** What the service does with a call: the handler gets the request, or the call
    ends with a status. *)
Inductive Verdict (M : Type) : Type :=
  | Handle (request : M)
  | Refuse (status : Status).
Arguments Handle {M}.
Arguments Refuse {M}.

Definition duplicate_request : Status :=
  mkStatus StatusCode.InvalidArgument "duplicate request message".
Definition request_too_large : Status :=
  mkStatus StatusCode.ResourceExhausted "request is too large to parse".
Definition request_unparsable : Status :=
  mkStatus StatusCode.InvalidArgument "failed to parse request".
Definition request_missing : Status :=
  mkStatus StatusCode.InvalidArgument "request message is missing".
Definition service_unavailable : Status :=
  mkStatus StatusCode.Unavailable "event service is unavailable".

Section Call.
Context {GZ : GzipSize} {M : Type} {MM : Message M}.

(** [OnMessage]: the status [typed_call->Finish] is called with, if it is. *)
Definition CallState_OnMessage (payload : string) (s : CallState M)
  : (ReceiveAction * option Status) * CallState M :=
  if cs_rejected s || cs_dispatched s then ((Continue, None), s)
  else if negb (cs_request_count s =? 0)
  then ((Continue, Some duplicate_request), s <| cs_rejected := true |>)
  else
    let s1 := s <| cs_request_count := 1 |> in
    if zlen payload >? int32_max
    then ((Continue, Some request_too_large), s1 <| cs_rejected := true |>)
    else match ParseFromArray payload with
    | None => ((Continue, Some request_unparsable), s1 <| cs_rejected := true |>)
    | Some parsed => ((Continue, None), s1 <| cs_request := Some parsed |>)
    end.

(** [TakeRequest]: the request, and the status of the [Finish] it calls.  The
    request that is returned is moved out of an [optional] that stays engaged. *)
Definition CallState_TakeRequest (s : CallState M)
  : (option M * option Status) * CallState M :=
  if cs_rejected s || cs_dispatched s then ((None, None), s)
  else match (if cs_request_count s =? 1 then cs_request s else None) with
  | None => ((None, Some request_missing), s <| cs_rejected := true |>)
  | Some request => ((Some request, None), s <| cs_dispatched := true |>)
  end.

(** [on_remote_end]; [handler] is whether the application handler is still set. *)
Definition on_remote_end (handler : bool) (s : CallState M)
  : option (Verdict M) * CallState M :=
  match CallState_TakeRequest s with
  | ((None, None), s') => (None, s')
  | ((None, Some status), s') => (Some (Refuse status), s')
  | ((Some request, _), s') =>
      (Some (if handler then Handle request else Refuse service_unavailable), s')
  end.

(** The call as a system.  Ghost fields: the payloads that reached the call, the
    verdicts, with which handler the request ended, and whether a message or the end of
    the request has not found the call. *)
Record MethodWorld := mkMethodWorld {
  mw_call : CallWorld;
  mw_state : CallState M;
  mw_handler : bool;
  mw_payloads : list string;
  mw_verdicts : list (Verdict M);
  mw_ended : option bool;
  mw_lost : bool }.

#[export] Instance eta_MethodWorld : Eta MethodWorld := λ w,
  mkMethodWorld (mw_call w) (mw_state w) (mw_handler w) (mw_payloads w) (mw_verdicts w)
    (mw_ended w) (mw_lost w).

Definition start_method (l : Limits) (accepts_gzip handler : bool) : MethodWorld :=
  mkMethodWorld (start_world l accepts_gzip) CallState_init handler [] [] None false.

Inductive MethodLabel : Type :=
  | MCall (l : CallLabel)
  | MCallback (turns : list Turn)
  | MLost
  | MDisable.

(** [typed_call->Finish(status, nullptr)] *)
Definition refuse (status : Status) (turns : list Turn) (c : CallWorld) : CallWorld :=
  (run_op (TypedCallState_Finish status []) turns c).2.

(** [on_start] of a method with client streaming, once the call is in the table: the
    handler gets the request stream, or the call is refused. *)
Definition start_streaming (handler : bool) (turns : list Turn) (c : CallWorld) : CallWorld :=
  if handler then c else refuse service_unavailable turns c.

(** The reactor callback that waits, and finds the call *)
Definition method_callback (turns : list Turn) (w : MethodWorld) : option MethodWorld :=
  match cw_waiting (mw_call w) with
  | None => None
  | Some (CbMessage payload) =>
      let '((action, status), s) := CallState_OnMessage payload (mw_state w) in
      let c := match status with
               | Some status => refuse status turns (mw_call w)
               | None => mw_call w
               end in
      match call_step c (LCallback action) with
      | None => None
      | Some c' =>
          Some (w <| mw_call := c' |> <| mw_state := s |>
                  <| mw_payloads := mw_payloads w ++ [payload] |>
                  <| mw_verdicts := mw_verdicts w ++ option_list (Refuse <$> status) |>)
      end
  | Some CbRemoteEnd =>
      let '(verdict, s) := on_remote_end (mw_handler w) (mw_state w) in
      let c := match verdict with
               | Some (Refuse status) => refuse status turns (mw_call w)
               | _ => mw_call w
               end in
      match call_step c (LCallback Continue) with
      | None => None
      | Some c' =>
          Some (w <| mw_call := c' |> <| mw_state := s |>
                  <| mw_verdicts := mw_verdicts w ++ option_list verdict |>
                  <| mw_ended := Some (mw_handler w) |>)
      end
  | Some _ =>
      match call_step (mw_call w) (LCallback Continue) with
      | None => None
      | Some c' => Some (w <| mw_call := c' |>)
      end
  end.

(** The same when [Find] returns nothing: a message is answered with [Pause] and lost,
    the end of the request is ignored, and the call is not told that it is writable or
    cancelled. *)
Definition method_lost (w : MethodWorld) : option MethodWorld :=
  match lose_callback (mw_call w) with
  | None => None
  | Some c =>
      Some (w <| mw_call := c |>
              <| mw_lost := match cw_waiting (mw_call w) with
                            | Some (CbMessage _) | Some CbRemoteEnd => true
                            | _ => mw_lost w
                            end |>)
  end.

Definition method_step (w : MethodWorld) (l : MethodLabel) : option MethodWorld :=
  match l with
  | MCall cl =>
      match cl with
      | LCallback _ => None
      | _ => match call_step (mw_call w) cl with
             | None => None
             | Some c => Some (w <| mw_call := c |>)
             end
      end
  | MCallback turns => method_callback turns w
  | MLost => method_lost w
  | MDisable => Some (w <| mw_handler := false |>)
  end.

(** *** What the service promises

    The verdict on a request, from the payloads that arrived before its end. *)
Definition verdict (payloads : list string) (handler : bool) : Verdict M :=
  match payloads with
  | [] => Refuse request_missing
  | p :: rest =>
      if zlen p >? int32_max then Refuse request_too_large
      else match ParseFromArray p with
      | None => Refuse request_unparsable
      | Some m =>
          match rest with
          | [] => if handler then Handle m else Refuse service_unavailable
          | _ => Refuse duplicate_request
          end
      end
  end.

(** Without a handler the whole response of a streaming method is the status. *)
Lemma start_streaming_refuses l gz :
  tc_history (cw_transport (start_streaming false [] (start_world l gz))) =
    [CmdInitialMetadata [] Identity; CmdFinish StatusCode.Unavailable "event service is unavailable" []].
Proof. reflexivity. Qed.

Lemma start_streaming_inv handler turns c :
  call_inv (lost := true) c → call_inv (lost := true) (start_streaming handler turns c).
Proof. intros Hi. destruct handler; [done|]. by apply (call_inv_run_op (CallFinish service_unavailable [])). Qed.

(** *** The messages of one request *)

Definition message_step (a : CallState M * list (Verdict M)) (payload : string)
  : CallState M * list (Verdict M) :=
  let '((_, status), s) := CallState_OnMessage payload a.1 in
  (s, a.2 ++ option_list (Refuse <$> status)).

Definition messages (payloads : list string) : CallState M * list (Verdict M) :=
  fold_left message_step payloads (CallState_init, []).

Lemma messages_snoc payloads p :
  messages (payloads ++ [p]) = message_step (messages payloads) p.
Proof. unfold messages. by rewrite fold_left_app. Qed.

(** A refused call ignores further messages. *)
Lemma fold_rejected payloads a :
  cs_rejected a.1 = true → fold_left message_step payloads a = a.
Proof.
  revert a. induction payloads as [|p payloads IH]; intros [s vs] Hr; simpl in *; [done|].
  unfold message_step at 2, CallState_OnMessage. simpl. rewrite Hr. simpl. rewrite app_nil_r.
  by apply IH.
Qed.

Lemma messages_verdict payloads handler :
  (messages payloads).2 ++ option_list (on_remote_end handler (messages payloads).1).1 =
    [verdict payloads handler] ∧
  cs_rejected (on_remote_end handler (messages payloads).1).2 ||
    cs_dispatched (on_remote_end handler (messages payloads).1).2 = true.
Proof.
  unfold messages. destruct payloads as [|p rest]; [done|]. simpl.
  unfold message_step at 2 4 6 8, CallState_OnMessage. simpl.
  destruct (zlen p >? int32_max).
  { by rewrite !fold_rejected. }
  destruct (ParseFromArray p) as [m|]; [|by rewrite !fold_rejected].
  destruct rest as [|q rest]; simpl; [by destruct handler|].
  by rewrite !fold_rejected.
Qed.

(** *** The invariant *)

(** The callbacks for messages come before the one for their end. *)
Definition remote_inv (t : TransportCall) (w : option Callback) : Prop :=
  (∀ m, w = Some (CbMessage m) → tc_remote_end_called t = false) ∧
  (w = Some CbRemoteEnd → tc_remote_end_called t = true).

Lemma remote_inv_stable : reactor_stable remote_inv.
Proof.
  intros t e t' cb [H1 H2]. unfold reactor.
  destruct e; unfold processStreamCommand, failStreaming, releaseOutboundReservation,
    cancelStreaming, forceAbortStreaming, retireStream, discardStreamCommands;
    repeat case_match; intros; simplify_eq/=; split; simpl; try done.
  intros _ _. by repeat match goal with H : _ || _ = false |- _ => apply orb_false_iff in H as [? ?] end.
Qed.

Lemma remote_end_exec op env t :
  tc_remote_end_called (exec_op op env t).2 = tc_remote_end_called t.
Proof.
  destruct op; simpl;
    unfold serverCallSendInitialMetadata, serverCallSend_check, serverCallSend_commit,
      checkOutboundCapacityLocked, serverCallFinish, serverCallResumeReceive, serverCallAbort, enqueue;
    repeat (case_match; simplify_eq/=; try done).
Qed.

(** What one call does to the request's end: nothing, unless the reactor just
    announced it. *)
Definition quiet (b : bool) (t : TransportCall) (w : option Callback) : Prop :=
  remote_inv t w ∧ (b = true → tc_remote_end_called t = true ∧ w ≠ Some CbRemoteEnd).

Lemma quiet_stable b : reactor_stable (quiet b).
Proof.
  intros t e t' cb [Hr Hb] He. split; [by eapply remote_inv_stable|].
  intros Hb'. destruct (Hb Hb') as [Hc _]. revert He. unfold reactor.
  destruct e; unfold processStreamCommand, failStreaming, releaseOutboundReservation,
    cancelStreaming, forceAbortStreaming, retireStream, discardStreamCommands;
    repeat case_match; intros; simplify_eq/=; try done.
  by rewrite Hc, orb_true_r in *.
Qed.

Lemma quiet_exec b op env t w : quiet b t w → quiet b (exec_op op env t).2 w.
Proof. unfold quiet, remote_inv. by rewrite remote_end_exec. Qed.

Lemma quiet_run_op {A} b (op : TypedCallState → Code (A * TypedCallState)) turns w :
  quiet b (cw_transport w) (cw_waiting w) →
  quiet b (cw_transport (run_op op turns w).2) (cw_waiting (run_op op turns w).2).
Proof.
  intros Hq. destruct (run_op_spec op turns w) as (a & s & t & cb & E & ->).
  apply (wp_pres (quiet b)) in E; try done; [apply quiet_stable|]. intros. by apply quiet_exec.
Qed.

Lemma quiet_call_step b w l w' :
  quiet b (cw_transport w) (cw_waiting w) → call_step w l = Some w' →
  quiet b (cw_transport w') (cw_waiting w').
Proof.
  intros Hq. destruct l; cbn [call_step]; try by intros [= <-].
  - intros [= <-]. by apply quiet_run_op.
  - destruct (cw_waiting w) eqn:Ew; [done|]. destruct (reactor _ e) as [[t cb]|] eqn:E; [|done].
    intros [= <-]. exact (quiet_stable b _ _ _ _ Hq E).
  - destruct (cw_waiting w) as [cb|]; [|done]. intros [= <-]. destruct Hq as [_ Hb].
    split; [done|]. intros Hb'. destruct (Hb Hb') as [Hc _]. by destruct cb.
Qed.

(** The end of the request, once announced, waits for its callback. *)
Definition expecting (b : bool) (t : TransportCall) (w : option Callback) : Prop :=
  b = true → tc_remote_end_called t = true → w = Some CbRemoteEnd.

Lemma expecting_stable b : reactor_stable (expecting b).
Proof.
  intros t e t' cb He. unfold expecting in *. unfold reactor.
  destruct e; unfold processStreamCommand, failStreaming, releaseOutboundReservation,
    cancelStreaming, forceAbortStreaming, retireStream, discardStreamCommands;
    repeat case_match; intros; simplify_eq/=; try done; by discriminate He.
Qed.

Lemma expecting_run_op {A} b (op : TypedCallState → Code (A * TypedCallState)) turns w :
  expecting b (cw_transport w) (cw_waiting w) →
  expecting b (cw_transport (run_op op turns w).2) (cw_waiting (run_op op turns w).2).
Proof.
  intros Hq. destruct (run_op_spec op turns w) as (a & s & t & cb & E & ->).
  apply (wp_pres (expecting b)) in E; try done; [apply expecting_stable|].
  intros. unfold expecting in *. by rewrite remote_end_exec.
Qed.

Lemma expecting_call_step b w l w' :
  expecting b (cw_transport w) (cw_waiting w) → (b = true → cw_waiting w = Some CbRemoteEnd → ∀ a, l ≠ LCallback a) →
  call_step w l = Some w' → expecting b (cw_transport w') (cw_waiting w').
Proof.
  intros Hq Hl. destruct l; cbn [call_step]; try by intros [= <-].
  - intros [= <-]. by apply expecting_run_op.
  - destruct (cw_waiting w) eqn:Ew; [done|]. destruct (reactor _ e) as [[t cb]|] eqn:E; [|done].
    intros [= <-]. exact (expecting_stable b _ _ _ _ Hq E).
  - destruct (cw_waiting w) as [cb|] eqn:Ew; [|done]. intros [= <-] Hb Hr.
    exfalso. refine (Hl Hb _ action eq_refl). destruct cb; simpl in Hr; by apply Hq.
Qed.

(** The end of the request is still to come, or waits for its callback. *)
Definition open_request (w : MethodWorld) : bool := negb (mw_lost w) && bool_decide (mw_ended w = None).

Record method_inv (w : MethodWorld) : Prop := {
  mi_quiet : quiet (bool_decide (is_Some (mw_ended w))) (cw_transport (mw_call w)) (cw_waiting (mw_call w));
  mi_expecting : expecting (open_request w) (cw_transport (mw_call w)) (cw_waiting (mw_call w));
  mi_verdicts : match mw_ended w with
    | None => (mw_state w, mw_verdicts w) = messages (mw_payloads w)
    | Some h => mw_verdicts w = [verdict (mw_payloads w) h]
    end }.

Lemma method_call_inv w l c :
  method_inv w → (cw_waiting (mw_call w) = Some CbRemoteEnd → ∀ a, l ≠ LCallback a) →
  call_step (mw_call w) l = Some c → method_inv (w <| mw_call := c |>).
Proof.
  intros [Hq He Hm] Hl Hs. split; simpl; [by eapply quiet_call_step| |done].
  eapply expecting_call_step; [exact He|intros _; exact Hl|exact Hs].
Qed.

(** Refusing a call on the reactor thread. *)
Lemma refuse_inv b b' status turns c cb :
  quiet b (cw_transport c) (cw_waiting c) → expecting b' (cw_transport c) (cw_waiting c) → cw_waiting c = Some cb →
  cw_waiting (refuse status turns c) = Some cb ∧
  quiet b (cw_transport (refuse status turns c)) (cw_waiting (refuse status turns c)) ∧
  expecting b' (cw_transport (refuse status turns c)) (cw_waiting (refuse status turns c)).
Proof.
  intros Hq He Hw. split_and!; [by apply (run_op_waiting (CallFinish status []))|by apply quiet_run_op|by apply expecting_run_op].
Qed.

Lemma method_message_inv w payload turns w' :
  method_inv w → cw_waiting (mw_call w) = Some (CbMessage payload) →
  method_callback turns w = Some w' → method_inv w'.
Proof.
  intros [Hq He Hm] Hw. unfold method_callback. rewrite Hw.
  destruct (CallState_OnMessage payload (mw_state w)) as [[action status] s] eqn:E.
  set (c := match status with Some st => refuse st turns (mw_call w) | None => mw_call w end).
  destruct (call_step c (LCallback action)) as [c'|] eqn:Es; [|done]. intros [= <-].
  assert (cw_waiting c = Some (CbMessage payload) ∧
    quiet (bool_decide (is_Some (mw_ended w))) (cw_transport c) (cw_waiting c) ∧
    expecting (open_request w) (cw_transport c) (cw_waiting c)) as (Hcw & Hcq & Hce).
  { subst c. destruct status as [st|]; [|done]. by apply refuse_inv. }
  destruct (mw_ended w) as [h|] eqn:Ee.
  { destruct Hq as [[Hq _] Hb]. rewrite Hw in *. specialize (Hq payload eq_refl).
    destruct Hb as [Hb _]; [done|]. congruence. }
  split; simpl; [rewrite Ee; by eapply quiet_call_step|..].
  - eapply expecting_call_step; [exact Hce|by rewrite Hcw|done].
  - rewrite Ee, messages_snoc, <- Hm. unfold message_step. simpl. by rewrite E.
Qed.

Lemma method_end_inv w turns w' :
  method_inv w → cw_waiting (mw_call w) = Some CbRemoteEnd →
  method_callback turns w = Some w' → method_inv w'.
Proof.
  intros [Hq He Hm] Hw. unfold method_callback. rewrite Hw.
  destruct (on_remote_end (mw_handler w) (mw_state w)) as [v s] eqn:E.
  set (c := match v with Some (Refuse st) => refuse st turns (mw_call w) | _ => mw_call w end).
  destruct (call_step c (LCallback Continue)) as [c'|] eqn:Es; [|done]. intros [= <-].
  destruct (mw_ended w) as [h|] eqn:Ee.
  { destruct Hq as [_ Hb]. destruct Hb as [_ Hb]; [done|]. congruence. }
  assert (Hc : cw_waiting c = Some CbRemoteEnd ∧ quiet false (cw_transport c) (cw_waiting c)).
  { subst c. destruct v as [[m|st]|]; try done. by edestruct refuse_inv as (? & ? & _). }
  destruct Hc as (Hcw & Hcq). split; simpl.
  - destruct Hcq as [[_ Hre] _]. rewrite Hcw in Hre. specialize (Hre eq_refl).
    revert Es. cbn [call_step]. rewrite Hcw. intros [= <-]. done.
  - unfold open_request, expecting. simpl. by rewrite andb_false_r.
  - destruct (messages_verdict (mw_payloads w) (mw_handler w)) as [Hv _].
    rewrite <- Hm in Hv. simpl in Hv. by rewrite E in Hv.
Qed.

Lemma method_lost_inv w w' : method_inv w → method_lost w = Some w' → method_inv w'.
Proof.
  intros [Hq He Hm]. unfold method_lost. destruct (lose_callback (mw_call w)) as [c|] eqn:El; [|done]. intros [= <-].
  destruct (lose_callback_step _ _ El) as (cb & c1 & Hw & Hs & E1 & E2). split; simpl; [| |done].
  - rewrite <- E1, <- E2. by eapply quiet_call_step.
  - rewrite <- E1, <- E2, Hw. destruct cb; try done.
    all: eapply expecting_call_step; [exact He|by rewrite Hw|exact Hs].
Qed.

Lemma method_step_inv w l w' : method_inv w → method_step w l = Some w' → method_inv w'.
Proof.
  intros Hi. destruct l as [cl|turns| |]; cbn [method_step].
  - destruct cl; try done; destruct (call_step (mw_call w) _) as [c|] eqn:Es; try done;
      intros [= <-]; (refine (method_call_inv w _ _ Hi _ Es); intros _ a; discriminate).
  - destruct (cw_waiting (mw_call w)) as [cb|] eqn:Hw; [|unfold method_callback; by rewrite Hw].
    destruct cb as [m| | | |r]; [by apply (method_message_inv w m)|by apply method_end_inv|..];
      unfold method_callback; rewrite Hw; case_match eqn:Es; try done;
      intros [= <-]; (refine (method_call_inv w _ _ Hi _ Es); by rewrite Hw).
  - by apply method_lost_inv.
  - intros [= <-]. by destruct Hi.
Qed.

Lemma method_run_inv l gz handler ls w :
  run method_step (start_method l gz handler) ls = Some w → method_inv w.
Proof.
  apply run_invariant; [intros; by eapply method_step_inv|]. by split.
Qed.

(** Before the request has ended the handler has not run. *)
Lemma messages_refuse payloads :
  (messages payloads).2 = [] ∨ ∃ st, (messages payloads).2 = [Refuse st].
Proof.
  unfold messages. destruct payloads as [|p rest]; [by left|]. simpl.
  unfold message_step at 2 4, CallState_OnMessage. simpl.
  destruct (zlen p >? int32_max); [rewrite fold_rejected by done; right; by eexists|].
  destruct (ParseFromArray p) as [m|]; [|rewrite fold_rejected by done; right; by eexists].
  destruct rest as [|q rest]; [by left|]. simpl. rewrite fold_rejected by done. right. by eexists.
Qed.

(** ** The table of calls *)

(** [Impl]; [MethodWorld] above is what an entry of the table stands for. *)
Record Registration := mkRegistration {
  reg_calls : gmap nat (CallState M);
  reg_application_handler : bool;
  reg_registered : bool;
  reg_registering : bool }.

#[export] Instance eta_Registration : Eta Registration := λ r,
  mkRegistration (reg_calls r) (reg_application_handler r) (reg_registered r) (reg_registering r).

Definition Registration_init : Registration := mkRegistration ∅ false false false.

(** [Register] up to the call of [RegisterStream], and from its result on.
    [handler] is whether the function given is not empty. *)
Definition Register_begin (handler : bool) (r : Registration) : option Error * Registration :=
  if reg_registered r || reg_registering r then (Some (mkError ErrorCode.InvalidState), r)
  else (None, r <| reg_registering := true |> <| reg_application_handler := handler |>).

Definition Register_end (error : Error) (r : Registration) : Error * Registration :=
  let r1 := if Error_ok error then r <| reg_registered := true |>
            else r <| reg_application_handler := false |> in
  (error, r1 <| reg_registering := false |>).

(** [on_start]: [call_id] is the id of the retained call, [None] when retaining it
    failed. *)
Definition on_start (call_id : option nat) (r : Registration) : Registration :=
  match call_id with
  | None => r
  | Some id => r <| reg_calls := <[id := CallState_init]> (reg_calls r) |>
  end.

(** [Find]; [None] is a null pointer. *)
Definition Find (call_id : option nat) (r : Registration) : option (CallState M) :=
  id ← call_id; reg_calls r !! id.

(** [on_terminal]: the entry is taken out; the state it was, if it was there. *)
Definition on_terminal (call_id : nat) (r : Registration) : option (CallState M) * Registration :=
  match reg_calls r !! call_id with
  | None => (None, r)
  | Some s => (Some s, r <| reg_calls := delete call_id (reg_calls r) |>)
  end.

(** [Disable], which the destructor calls *)
Definition Disable (r : Registration) : Registration := r <| reg_application_handler := false |>.

(** The action of [on_message] on the table; [on_remote_end] is alike. *)
Definition on_message (call_id : option nat) (payload : string) (r : Registration)
  : (ReceiveAction * option Status) * Registration :=
  match call_id, Find call_id r with
  | Some id, Some s =>
      let '(result, s') := CallState_OnMessage payload s in
      (result, r <| reg_calls := <[id := s']> (reg_calls r) |>)
  | _, _ => ((Pause, None), r)
  end.

Definition on_remote_end_found (call_id : option nat) (r : Registration)
  : option (Verdict M) * Registration :=
  match call_id, Find call_id r with
  | Some id, Some s =>
      let '(v, s') := on_remote_end (reg_application_handler r) s in
      (v, r <| reg_calls := <[id := s']> (reg_calls r) |>)
  | _, _ => (None, r)
  end.

(** What happens at the table, with the id of the call concerned; whether
    retaining it worked. *)
Inductive TableEvent : Type :=
  | TStart (id : nat) (retained : bool)
  | TMessage (id : nat) (retained : bool) (payload : string)
  | TRemoteEnd (id : nat) (retained : bool)
  | TTerminal (id : nat).

Definition event_id (e : TableEvent) : nat :=
  match e with TStart id _ | TMessage id _ _ | TRemoteEnd id _ | TTerminal id => id end.

Definition retained_id (id : nat) (retained : bool) : option nat :=
  if retained then Some id else None.

Definition table_step (r : Registration) (e : TableEvent) : Registration :=
  match e with
  | TStart id retained => on_start (retained_id id retained) r
  | TMessage id retained payload => (on_message (retained_id id retained) payload r).2
  | TRemoteEnd id retained => (on_remote_end_found (retained_id id retained) r).2
  | TTerminal id => (on_terminal id r).2
  end.

(** The same for one call on its own. *)
Definition entry_step (o : option (CallState M)) (e : TableEvent) : option (CallState M) :=
  match e with
  | TStart _ retained => if retained then Some CallState_init else o
  | TMessage _ retained payload =>
      if retained then (λ s, (CallState_OnMessage payload s).2) <$> o else o
  | TRemoteEnd _ retained => if retained then (λ s, (on_remote_end true s).2) <$> o else o
  | TTerminal _ => None
  end.

(** Whether the handler is set does not matter for the state of a call. *)
Lemma on_remote_end_state handler s :
  (on_remote_end handler s).2 = (on_remote_end true s).2.
Proof.
  unfold on_remote_end. by destruct (CallState_TakeRequest s) as [[[m|] [st|]] s'].
Qed.

Lemma table_step_lookup r e id :
  reg_calls (table_step r e) !! id =
  if decide (event_id e = id) then entry_step (reg_calls r !! id) e else reg_calls r !! id.
Proof.
  destruct e as [i ret|i ret p|i ret|i]; simpl.
  - unfold on_start, retained_id. destruct ret; simpl; [|by case_decide].
    case_decide; subst; [by rewrite lookup_insert_eq|by rewrite lookup_insert_ne].
  - unfold on_message, Find, retained_id. destruct ret; simpl; [|by case_decide].
    destruct (reg_calls r !! i) as [s|] eqn:E; simpl.
    + destruct (CallState_OnMessage p s) as [res s'] eqn:Es. simpl.
      case_decide; subst; [by rewrite lookup_insert_eq, E; simpl; rewrite Es|by rewrite lookup_insert_ne].
    + case_decide; subst; [by rewrite E|done].
  - unfold on_remote_end_found, Find, retained_id. destruct ret; simpl; [|by case_decide].
    destruct (reg_calls r !! i) as [s|] eqn:E; simpl.
    + destruct (on_remote_end (reg_application_handler r) s) as [v s'] eqn:Es. simpl.
      case_decide; subst; [|by rewrite lookup_insert_ne].
      rewrite lookup_insert_eq, E. simpl. by rewrite <- (on_remote_end_state (reg_application_handler r)), Es.
    + case_decide; subst; [by rewrite E|done].
  - unfold on_terminal. destruct (reg_calls r !! i) as [s|] eqn:E; simpl.
    + case_decide; subst; [by rewrite lookup_delete_eq|by rewrite lookup_delete_ne].
    + case_decide; subst; done.
Qed.
End Call.

(** ** Theorems *)

(** C11. Every request gets at most one verdict, the one its payloads deserve: once its end
    has reached the call, the handler has run exactly once with the parsed message, or
    the call has been refused exactly once with the status that names what was wrong (no
    message, a second message, too large, unparsable, no handler), by the payloads that
    have reached it; before the end, the handler has not run.  The end does reach the
    call, as soon as the transport has announced it and its callback has returned,
    unless a message or the end was lost because [Find] could not retain the call: such
    a request may stay without a verdict. *)
Theorem one_verdict_per_call {GZ : GzipSize} {M} {MM : Message M} l gz handler ls w :
  run method_step (start_method (M := M) l gz handler) ls = Some w →
  match mw_ended w with
  | Some h => mw_verdicts w = [verdict (mw_payloads w) h]
  | None => mw_verdicts w = [] ∨ ∃ st, mw_verdicts w = [Refuse st]
  end ∧
  (tc_remote_end_called (cw_transport (mw_call w)) = true → cw_waiting (mw_call w) ≠ Some CbRemoteEnd →
   mw_lost w = false → is_Some (mw_ended w)).
Proof.
  intros Hr. apply method_run_inv in Hr as [_ He Hm]. split.
  - destruct (mw_ended w); [done|]. rewrite (f_equal snd Hm : mw_verdicts w = _). apply messages_refuse.
  - intros Hc Hw Hl. unfold expecting, open_request in He. rewrite Hl in He.
    destruct (mw_ended w); [by eexists|]. by destruct (Hw (He eq_refl Hc)).
Qed.

(** Calls do not mix in the table: after any sequence of starts, messages, ends
    and terminal callbacks of any calls, the entry of a call is what its own
    events alone would have left; in particular the entry of a call that has
    ended is gone. *)
Lemma table_isolation {M} {MM : Message M} es (r : Registration (M := M)) id :
  reg_calls (fold_left table_step es r) !! id =
  fold_left entry_step (filter (λ e, event_id e = id) es) (reg_calls r !! id).
Proof.
  revert r. induction es as [|e es IH]; intros r; [done|]. simpl.
  rewrite IH, table_step_lookup, filter_cons. by case_decide.
Qed.

(** A request of two messages: the second one is refused, and the end changes
    nothing. *)
Definition method_run : list MethodLabel :=
  [MCall (LReactor (RDeliverBegin "a")); MCallback []; MCall (LReactor RDeliverEnd);
   MCall (LReactor (RDeliverBegin "b")); MCallback []; MCall (LReactor RDeliverEnd);
   MCall (LReactor RRemoteEnd); MCallback []].

Definition method_world : MethodWorld (M := string) :=
  default (start_method example_limits false true)
    (run (@method_step stored_gzip _ string_message) (start_method example_limits false true)
       method_run).

Lemma one_verdict_per_call_witness :
  tc_history (cw_transport (mw_call method_world)) =
    [CmdInitialMetadata [] Identity;
     CmdFinish StatusCode.InvalidArgument "duplicate request message" []] ∧
  mw_verdicts method_world = [@verdict _ string_message (mw_payloads method_world) true].
Proof.
  split; [vm_compute; reflexivity|].
  destruct (@one_verdict_per_call stored_gzip string string_message example_limits false true method_run method_world)
    as [H _]; [vm_compute; reflexivity|]. exact H.
Defined.

(** A request whose message is lost has no verdict, and receives no more. *)
Example lost_request_no_verdict :
  ∃ w, run (@method_step stored_gzip _ string_message) (start_method example_limits false true)
      [MCall (LReactor (RDeliverBegin "a")); MLost; MCall (LReactor RDeliverEnd)] = Some w ∧
    mw_verdicts w = [] ∧ tc_receive_paused (cw_transport (mw_call w)) = true.
Proof. eexists. split; [vm_compute; reflexivity|]. split; reflexivity. Qed.
