(* ===== verification/TypedResponse.v ===== *)
(** * Application threads and the typed call classes

    The code of an application thread is a sequence of operations on a call, each
    under [TypedCallState]'s mutex, with the rest of the program running in
    between.  [Thread] is such code; its schedule says what runs before each
    operation ([slot_labels]) and while it runs ([slot_turns]); when the schedule
    ends the thread has not returned yet.

    On top of it: [FinishResponse] and the classes [UnaryCall],
    [ServerStreamingCall], [ClientStreamingCall] and [BidirectionalStreamingCall]
    ([cpp/typed_service.hpp]). *)

From S2P Require Import Prelude Status Metadata ServerTransport TypedCall RequestStream.

Local Open Scope Z_scope.

(** ** Worlds

    The program a thread runs in: a system with a call in it.  Every step of it
    keeps the call's invariant and only adds to what was queued for the transport
    ([follows], below). *)

Class World (W L : Type) := {
  w_step : W → L → option W;
  w_call : W → CallWorld;
  w_with_call : CallWorld → W → W }.
#[export] Hint Mode World ! - : typeclass_instances.

(** A call alone, and a call with a request stream *)
#[export] Instance call_world {GZ : GzipSize} : World CallWorld CallLabel := {|
  w_step := call_step;
  w_call w := w;
  w_with_call c _ := c |}.

#[export] Instance streaming_world {GZ : GzipSize} {M} {MM : Message M} :
    World (StreamWorld (M := M)) StreamLabel := {|
  w_step := stream_step;
  w_call := sw_call;
  w_with_call c w := w <| sw_call := c |> |}.

(** A world whose call has a request stream *)
Class HasStream (W M : Type) := {
  w_stream : W → StreamWorld (M := M);
  w_with_stream : StreamWorld (M := M) → W → W }.
#[export] Hint Mode HasStream ! - : typeclass_instances.

#[export] Instance streaming_has_stream M : HasStream (StreamWorld (M := M)) M := {|
  w_stream w := w;
  w_with_stream w _ := w |}.

(** ** Threads *)

Record Slot (L : Type) := mkSlot { slot_labels : list L; slot_turns : list Turn }.
Arguments mkSlot {L}.
Arguments slot_labels {L}.
Arguments slot_turns {L}.

(** What a thread works on: the world and the metadata objects. *)
Record ThreadState (W : Type) := mkThreadState { ts_world : W; ts_heap : MetadataHeap }.
Arguments mkThreadState {W}.
Arguments ts_world {W}.
Arguments ts_heap {W}.

#[export] Instance eta_ThreadState W : Eta (ThreadState W) := λ s,
  mkThreadState (ts_world s) (ts_heap s).

Definition ts_call {W L} {WW : World W L} (s : ThreadState W) : CallWorld := w_call (ts_world s).

(** A thread returns, or is still at work when its schedule ends, or its behaviour
    is undefined. *)
Inductive Outcome (W L A : Type) : Type :=
  | Returned (a : A) (slots : list (Slot L)) (s : ThreadState W)
  | Pending
  | Undefined.
Arguments Returned {W L A}.
Arguments Pending {W L A}.
Arguments Undefined {W L A}.

Definition Thread (W L A : Type) : Type := list (Slot L) → ThreadState W → Outcome W L A.

#[export] Instance thread_ret {W L} : MRet (Thread W L) := λ A a slots s, Returned a slots s.
#[export] Instance thread_bind {W L} : MBind (Thread W L) := λ A B k m slots s,
  match m slots s with
  | Returned a slots' s' => k a slots' s'
  | Pending => Pending
  | Undefined => Undefined
  end.

(** Code that works on metadata objects only *)
Definition heap {W L A} (m : heapM A) : Thread W L A := λ slots s,
  match m (ts_heap s) with
  | Some (a, h) => Returned a slots (s <| ts_heap := h |>)
  | None => Undefined
  end.

(** The entries a [const Metadata*] shows the library *)
Definition metadata_entries (metadata : ptr) : heapM entries :=
  match metadata with None => mret [] | Some handle => metadataStorage handle end.

Section Threads.
Context {GZ : GzipSize} {W L : Type} {WW : World W L}.

Local Abbreviation Thread := (Thread W L).
Local Abbreviation Outcome := (Outcome W L).
Local Abbreviation Slot := (Slot L).
Local Abbreviation ThreadState := (ThreadState W).

(** One operation under the mutex *)
Definition operation {A} (op : TypedCallState → Code (A * TypedCallState)) : Thread A :=
  λ slots s,
  match slots with
  | [] => Pending
  | slot :: rest =>
      match run w_step (ts_world s) (slot_labels slot) with
      | None => Pending
      | Some w =>
          let '(a, c) := run_op op (slot_turns slot) (w_call w) in
          Returned a rest (s <| ts_world := w_with_call c w |>)
      end
  end.

(** An operation that reads the state only *)
Definition query {A} (op : TypedCallState → Code A) : Thread A :=
  operation (λ s, a ← op s; Done (a, s)).

(** A setter, which may call the function it is given *)
Definition setter (l : CallLabel) : Thread () := λ slots s,
  match slots with
  | [] => Pending
  | slot :: rest =>
      match run w_step (ts_world s) (slot_labels slot) with
      | None => Pending
      | Some w =>
          match call_step (w_call w) l with
          | None => Pending
          | Some c => Returned () rest (s <| ts_world := w_with_call c w |>)
          end
      end
  end.

(** [state_->WaitForWritable()]: waits as long as the predicate is false. *)
Fixpoint wait_for_writable (slots : list Slot) (s : ThreadState) : Outcome bool :=
  match slots with
  | [] => Pending
  | slot :: rest =>
      match run w_step (ts_world s) (slot_labels slot) with
      | None => Pending
      | Some w =>
          match TypedCallState_WaitForWritable (cw_state (w_call w)) with
          | Some b => Returned b rest (s <| ts_world := w |>)
          | None => wait_for_writable rest (s <| ts_world := w |>)
          end
      end
  end.

(** ** [TypedRequestStreamState::Read] *)

Section Read.
Context {M : Type} {MM : Message M} {HS : HasStream W M}.

(** The first piece, which waits, and the two pieces that follow it when a message
    was taken. *)
Fixpoint read_take (slots : list Slot) (s : ThreadState) : Outcome (option M) :=
  match slots with
  | [] => Pending
  | slot :: rest =>
      match run w_step (ts_world s) (slot_labels slot) with
      | None => Pending
      | Some w =>
          match RequestStream_Read_take (sw_stream (w_stream w)) with
          | None => read_take rest (s <| ts_world := w |>)
          | Some (m, _) =>
              match stream_step (w_stream w) SReadTake with
              | None => Pending
              | Some w' => Returned m rest (s <| ts_world := w_with_stream w' w |>)
              end
          end
      end
  end.

Definition read_piece {A} (f : list Turn → StreamWorld (M := M) → A * option (StreamWorld (M := M)))
  : Thread A := λ slots s,
  match slots with
  | [] => Pending
  | slot :: rest =>
      match run w_step (ts_world s) (slot_labels slot) with
      | None => Pending
      | Some w =>
          match f (slot_turns slot) (w_stream w) with
          | (a, Some w') => Returned a rest (s <| ts_world := w_with_stream w' w |>)
          | (_, None) => Pending
          end
      end
  end.

(** [request] is whether the pointer the message goes to is not null; the message,
    or [None] for the result false. *)
Definition RequestStream_Read (request : bool) : Thread (option M) :=
  if negb request then mret None else
  m ← read_take;
  match m with
  | None => mret None
  | Some message =>
      fail ← read_piece (λ turns w,
        ((RequestStream_Read_resume turns (sw_call w)).1.2, stream_step w (SReadResume turns)));
      if (fail : bool) then
        _ ← read_piece (λ turns w, ((), stream_step w (SReadFail turns)));
        mret (Some message)
      else mret (Some message)
  end.

Definition ClientStreamingCall_Read (state_ request : bool) : Thread (option M) :=
  if state_ then RequestStream_Read request else mret None.

Definition BidirectionalStreamingCall_Read (state_ request : bool) : Thread (option M) :=
  if state_ then RequestStream_Read request else mret None.
End Read.

(** ** [FinishResponse] *)

Context {Response : Type} {MR : Message Response}.

Definition serialize_failed : Status := mkStatus StatusCode.Internal "failed to serialize response".

Definition FinishResponse (response : Response) (status : Status)
    (trailing_metadata : entries) (compression : Compression) : Thread Error :=
  if negb (Status_ok status) then operation (TypedCallState_Finish status trailing_metadata)
  else match SerializeToString response with
  | None => operation (TypedCallState_Finish serialize_failed trailing_metadata)
  | Some payload =>
      send_error ← operation (TypedCallState_Send payload compression);
      if negb (Error_ok send_error) then
        finish_error ← operation (TypedCallState_Finish (SendErrorStatus send_error) trailing_metadata);
        mret (if Error_ok finish_error then send_error else finish_error)
      else operation (TypedCallState_Finish Status_default trailing_metadata)
  end.

(** ** The call classes

    What the four classes have in common, and what the code that is generic in the
    class uses. *)

Class CallClass := {
  call_cancelled : Thread bool;
  call_terminal : Thread bool;
  call_SendInitialMetadata : entries → Compression → Thread Error;
  call_Finish : Status → entries → Thread Error;
  call_SetOnCancel : Function → Thread ();
  call_SetOnTerminal : Function → Thread () }.

Definition invalid_state : Thread Error := mret (mkError ErrorCode.InvalidState).

(** [state_] is whether the object holds a call or was moved from; the classes with
    a request stream reach the call through it. *)

Definition UnaryCall (state_ : bool) : CallClass := {|
  call_cancelled := if state_ then query TypedCallState_cancelled else mret false;
  call_terminal := if negb state_ then mret true else query TypedCallState_terminal;
  call_SendInitialMetadata metadata compression :=
    if negb state_ then invalid_state
    else operation (TypedCallState_SendInitialMetadata metadata compression);
  call_Finish status trailing_metadata :=
    if negb state_ then invalid_state
    else operation (TypedCallState_Finish status trailing_metadata);
  call_SetOnCancel callback := if state_ then setter (LSetOnCancel callback) else mret ();
  call_SetOnTerminal callback := if state_ then setter (LSetOnTerminal callback) else mret () |}.

Definition UnaryCall_Finish (state_ : bool) (response : Response) (status : Status)
    (trailing_metadata : entries) (compression : Compression) : Thread Error :=
  if negb state_ then invalid_state
  else FinishResponse response status trailing_metadata compression.

Definition ServerStreamingCall (state_ : bool) : CallClass := {|
  call_cancelled := if state_ then query TypedCallState_cancelled else mret false;
  call_terminal := if negb state_ then mret true else query TypedCallState_terminal;
  call_SendInitialMetadata metadata compression :=
    if negb state_ then invalid_state
    else operation (TypedCallState_SendInitialMetadata metadata compression);
  call_Finish status trailing_metadata :=
    if negb state_ then invalid_state
    else operation (TypedCallState_Finish status trailing_metadata);
  call_SetOnCancel callback := if state_ then setter (LSetOnCancel callback) else mret ();
  call_SetOnTerminal callback := if state_ then setter (LSetOnTerminal callback) else mret () |}.

Definition ServerStreamingCall_TryWrite (state_ : bool) (response : Response)
    (compression : Compression) : Thread Error :=
  if negb state_ then invalid_state
  else match SerializeToString response with
  | None =>
      finish_error ← operation (TypedCallState_Finish serialize_failed []);
      mret (if Error_ok finish_error then mkError ErrorCode.Internal else finish_error)
  | Some payload => operation (TypedCallState_Send payload compression)
  end.

Definition ServerStreamingCall_WaitForWritable (state_ : bool) : Thread bool :=
  if state_ then wait_for_writable else mret false.

Definition ServerStreamingCall_SetOnWritable (state_ : bool) (callback : Function) : Thread () :=
  if state_ then setter (LSetOnWritable callback) else mret ().

Definition ClientStreamingCall (state_ : bool) : CallClass := {|
  call_cancelled := if state_ then query TypedCallState_cancelled else mret false;
  call_terminal := if negb state_ then mret true else query TypedCallState_terminal;
  call_SendInitialMetadata metadata compression :=
    if negb state_ then invalid_state
    else operation (TypedCallState_SendInitialMetadata metadata compression);
  call_Finish status trailing_metadata :=
    if negb state_ then invalid_state
    else operation (TypedCallState_Finish status trailing_metadata);
  call_SetOnCancel callback := if state_ then setter (LSetOnCancel callback) else mret ();
  call_SetOnTerminal callback := if state_ then setter (LSetOnTerminal callback) else mret () |}.

Definition ClientStreamingCall_Finish (state_ : bool) (response : Response) (status : Status)
    (trailing_metadata : entries) (compression : Compression) : Thread Error :=
  if negb state_ then invalid_state
  else FinishResponse response status trailing_metadata compression.

Definition BidirectionalStreamingCall (state_ : bool) : CallClass := {|
  call_cancelled := if state_ then query TypedCallState_cancelled else mret false;
  call_terminal := if negb state_ then mret true else query TypedCallState_terminal;
  call_SendInitialMetadata metadata compression :=
    if negb state_ then invalid_state
    else operation (TypedCallState_SendInitialMetadata metadata compression);
  call_Finish status trailing_metadata :=
    if negb state_ then invalid_state
    else operation (TypedCallState_Finish status trailing_metadata);
  call_SetOnCancel callback := if state_ then setter (LSetOnCancel callback) else mret ();
  call_SetOnTerminal callback := if state_ then setter (LSetOnTerminal callback) else mret () |}.

Definition BidirectionalStreamingCall_TryWrite (state_ : bool) (response : Response)
    (compression : Compression) : Thread Error :=
  if negb state_ then invalid_state
  else match SerializeToString response with
  | None =>
      finish_error ← operation (TypedCallState_Finish serialize_failed []);
      mret (if Error_ok finish_error then mkError ErrorCode.Internal else finish_error)
  | Some payload => operation (TypedCallState_Send payload compression)
  end.

Definition BidirectionalStreamingCall_WaitForWritable (state_ : bool) : Thread bool :=
  if state_ then wait_for_writable else mret false.

Definition BidirectionalStreamingCall_SetOnWritable (state_ : bool) (callback : Function)
  : Thread () :=
  if state_ then setter (LSetOnWritable callback) else mret ().

(** ** Lemmas *)

Lemma history_stable h0 : reactor_stable (λ t _, h0 `prefix_of` tc_history t).
Proof.
  intros t e t' cb Hl. unfold reactor.
  destruct e; unfold processStreamCommand, failStreaming, releaseOutboundReservation,
    cancelStreaming, forceAbortStreaming, retireStream, discardStreamCommands;
    repeat case_match; intros; by simplify_eq/=.
Qed.

Lemma history_exec h0 op env t :
  h0 `prefix_of` tc_history t → h0 `prefix_of` tc_history (exec_op op env t).2.
Proof.
  intros Hp. destruct (exec_op op env t) as [r t'] eqn:E. apply exec_op_history in E.
  simpl. destruct r; [|destruct (op_command op)].
  - destruct E as [-> | ->]; auto using prefix_app_r.
  - destruct E as [_ ->]. auto using prefix_app_r.
  - destruct E as [-> | ->]; auto using prefix_app_r.
Qed.

(** The section a successful [Send] ends with. *)
Lemma wp_Send_command h0 s payload c t w :
  h0 `prefix_of` tc_history t →
  wp (TypedCallState_Send payload c s)
    (λ r t' _, Error_ok r.1 = true →
       ∃ h, h0 `prefix_of` h ∧ tc_history t' = h ++ [CmdSend payload c]) t w.
Proof.
  intros Hp. unfold TypedCallState_Send. case_match; [by apply wp_done|].
  apply wp_bind. intros turns [e s1] t1 w1 E1. case_match eqn:Hn.
  { apply wp_done. simpl. intros He. by rewrite He in Hn. }
  apply (wp_pres (λ t _, h0 `prefix_of` tc_history t)) in E1;
    [|apply history_stable|intros; by apply history_exec|done].
  unfold ServerCall_Send. destruct (tcs_call s1); [|by apply wp_done].
  unfold grpc_lite_server_call_send. rewrite bytes_Bytes, parseCompression_value. cbn.
  apply (wp_locked (λ t _, h0 `prefix_of` tc_history t)); [apply history_stable|done|].
  intros t2 w2 env r t3 Hp2 E2. destruct r as [err|].
  { apply wp_done. cbn [fst]. change (mapServerError err) with (c_result (Some err)).
    by rewrite c_result_ok. }
  apply (history_exec h0 (OpSendCheck payload c) env) in Hp2. rewrite E2 in Hp2.
  apply (wp_locked (λ t _, h0 `prefix_of` tc_history t)); [apply history_stable|done|].
  intros t4 w4 env4 r t5 Hp4 E. apply wp_done.
  cbn [fst]. rewrite c_result_ok, bool_decide_eq_true. intros ->.
  apply exec_op_history in E as [_ E]. by eexists.
Qed.

(** What a thread does to its call: it keeps the invariant and only adds to what
    was queued. *)
Definition follows (c c' : CallWorld) : Prop :=
  (call_inv (lost := true) c → call_inv (lost := true) c') ∧ tc_history (cw_transport c) `prefix_of` tc_history (cw_transport c').

#[export] Instance follows_preorder : PreOrder follows.
Proof.
  split; [by intros c; split|]. intros a b c [H1 H2] [H3 H4]. split; [auto|by etrans].
Qed.

Lemma run_op_history {A} (op : TypedCallState → Code (A * TypedCallState)) turns w :
  tc_history (cw_transport w) `prefix_of` tc_history (cw_transport (run_op op turns w).2).
Proof.
  destruct (run_op_spec op turns w) as (a & s & t & cb & E & ->).
  apply (wp_pres (λ t _, tc_history (cw_transport w) `prefix_of` tc_history t)) in E; try done.
  - apply history_stable.
  - intros. by apply history_exec.
Qed.

Lemma call_step_follows w l w' : call_step w l = Some w' → follows w w'.
Proof.
  intros Hs. split; [intros; by eapply call_step_inv|]. revert Hs.
  destruct l; cbn [call_step]; try by intros [= <-].
  - intros [= <-]. apply run_op_history.
  - destruct (cw_waiting w); [done|]. destruct (reactor _ e) as [[t cb]|] eqn:E; [|done].
    intros [= <-]. simpl. by eapply history_stable.
  - destruct (cw_waiting w) as [cb|]; [|done]. intros [= <-]. by destruct cb.
Qed.

Lemma run_follows w ls w' : run call_step w ls = Some w' → follows w w'.
Proof.
  apply (run_preorder call_step follows); [done|intros a b c; apply transitivity|].
  apply call_step_follows.
Qed.

(** What every world promises the threads that run in it *)
Class WorldLaws : Prop := {
  w_call_with : ∀ c (w : W), w_call (w_with_call c w) = c;
  w_step_follows : ∀ (w : W) l w', w_step w l = Some w' → follows (w_call w) (w_call w') }.

Context {WL : WorldLaws}.

Lemma w_run_follows (w : W) ls w' : run w_step w ls = Some w' → follows (w_call w) (w_call w').
Proof.
  apply (run_preorder w_step (λ a b, follows (w_call a) (w_call b)));
    [done|intros a b c; apply transitivity|].
  apply w_step_follows.
Qed.

Definition well_behaved {A} (m : Thread A) : Prop :=
  ∀ slots s a slots' s', m slots s = Returned a slots' s' →
    follows (ts_call s) (ts_call s').

Lemma well_behaved_ret {A} (a : A) : well_behaved (mret a).
Proof. by intros slots s a' slots' s' [= <- <- <-]. Qed.

Lemma well_behaved_bind {A B} (m : Thread A) (k : A → Thread B) :
  well_behaved m → (∀ a, well_behaved (k a)) → well_behaved (m ≫= k).
Proof.
  intros Hm Hk slots s b slots' s'. unfold mbind, thread_bind.
  destruct (m slots s) as [a slots1 s1| |] eqn:E; try done. intros E2.
  etrans; [by eapply Hm|by eapply Hk].
Qed.

Lemma well_behaved_heap {A} (m : heapM A) : well_behaved (heap m).
Proof.
  intros slots s a slots' s'. unfold heap. destruct (m (ts_heap s)) as [[x h]|]; [|done].
  by intros [= <- <- <-].
Qed.

Lemma operation_returned {A} (op : TypedCallState → Code (A * TypedCallState)) slots s a slots' s' :
  operation op slots s = Returned a slots' s' →
  ∃ slot w, slots = slot :: slots' ∧ run w_step (ts_world s) (slot_labels slot) = Some w ∧
    run_op op (slot_turns slot) (w_call w) = (a, ts_call s') ∧ ts_heap s' = ts_heap s.
Proof.
  unfold operation. destruct slots as [|slot rest]; [done|].
  destruct (run w_step _ _) as [w|] eqn:Hw; [|done].
  destruct (run_op op (slot_turns slot) (w_call w)) as [x c'] eqn:E. intros [= <- <- <-].
  exists slot, w. unfold ts_call. simpl. by rewrite E, w_call_with.
Qed.

Lemma well_behaved_call op : well_behaved (operation (call_op op)).
Proof.
  intros slots s a slots' s' (slot & w & -> & Hw & Ho & _)%operation_returned.
  etrans; [by eapply w_run_follows|].
  apply (call_step_follows _ (LOp op (slot_turns slot))). simpl. by rewrite Ho.
Qed.

Lemma operation_Send_ok payload c slots s e slots' s' :
  operation (TypedCallState_Send payload c) slots s = Returned e slots' s' → Error_ok e = true →
  ∃ h, tc_history (cw_transport (ts_call s)) `prefix_of` h ∧
       tc_history (cw_transport (ts_call s')) = h ++ [CmdSend payload c].
Proof.
  intros (slot & w & -> & Hw & Ho & _)%operation_returned He.
  apply w_run_follows in Hw as [_ Hw].
  destruct (run_op_spec (TypedCallState_Send payload c) (slot_turns slot) (w_call w))
    as (a & st & t & cb & E & Eo). rewrite Ho in Eo. injection Eo as <- ->. simpl.
  by apply (wp_Send_command _ _ _ _ _ _ Hw _ _ _ _ E).
Qed.

Lemma operation_Finish_ok status es slots s e slots' s' :
  operation (TypedCallState_Finish status es) slots s = Returned e slots' s' → Error_ok e = true →
  ∃ h, tc_history (cw_transport (ts_call s')) =
       h ++ [CmdFinish (cast_u32 (status_code status)) (status_message status) es].
Proof.
  intros (slot & w & -> & _ & Ho & _)%operation_returned He.
  destruct (run_op_spec (TypedCallState_Finish status es) (slot_turns slot) (w_call w))
    as (a & st & t & cb & E & Eo). rewrite Ho in Eo. injection Eo as <- ->. simpl.
  by apply (wp_Finish_command _ _ _ _ _ _ _ _ _ E).
Qed.

(** A thread uses up its schedule. *)
Definition consumes {A} (m : Thread A) (n : nat) : Prop :=
  ∀ slots s a slots' s', m slots s = Returned a slots' s' → (length slots' + n ≤ length slots)%nat.

Lemma consumes_operation {A} (op : TypedCallState → Code (A * TypedCallState)) :
  consumes (operation op) 1.
Proof.
  intros slots s a slots' s' (slot & c & -> & _)%operation_returned. simpl. lia.
Qed.

Lemma consumes_ret {A} (a : A) : consumes (mret a) 0.
Proof. intros slots s a' slots' s' [= <- <- <-]. lia. Qed.

Lemma consumes_bind {A B} (m : Thread A) (k : A → Thread B) n1 n2 :
  consumes m n1 → (∀ a, consumes (k a) n2) → consumes (m ≫= k) (n1 + n2).
Proof.
  intros Hm Hk slots s b slots' s'. unfold mbind, thread_bind.
  destruct (m slots s) as [a slots1 s1| |] eqn:E; try done. intros E2.
  apply Hm in E. apply Hk in E2. lia.
Qed.

Lemma consumes_wait : consumes wait_for_writable 1.
Proof.
  intros slots. induction slots as [|slot rest IH]; intros s a slots' s'; simpl; [done|].
  destruct (run w_step _ _) as [w|]; [|done].
  destruct (TypedCallState_WaitForWritable _) as [b|].
  - intros [= <- <- <-]. lia.
  - intros H%IH. lia.
Qed.

Lemma well_behaved_setter l : well_behaved (setter l).
Proof.
  intros slots s a slots' s'. unfold setter, ts_call. destruct slots as [|slot rest]; [done|].
  destruct (run w_step _ _) as [w|] eqn:Hw; [|done].
  destruct (call_step _ _) as [c|] eqn:Hc; [|done]. intros [= <- <- <-]. simpl.
  rewrite w_call_with. etrans; [by eapply w_run_follows|by eapply call_step_follows].
Qed.

Lemma well_behaved_wait : well_behaved wait_for_writable.
Proof.
  intros slots. induction slots as [|slot rest IH]; intros s a slots' s'; simpl; [done|].
  destruct (run w_step _ _) as [w|] eqn:Hw; [|done]. apply w_run_follows in Hw.
  destruct (TypedCallState_WaitForWritable _) as [b|]; [by intros [= <- <- <-]|].
  intros H%IH. by etrans.
Qed.
End Threads.

#[export] Instance call_world_laws {GZ : GzipSize} : WorldLaws (WW := call_world).
Proof. split; [done|]. apply call_step_follows. Qed.

Lemma run_op_follows {GZ : GzipSize} op turns c : follows c (run_op (call_op op) turns c).2.
Proof. by apply (call_step_follows _ (LOp op turns)). Qed.

Lemma OnMessage_follows {GZ : GzipSize} {M} {MM : Message M} payload turns
    (s : RequestStream M) c action s' c' :
  RequestStream_OnMessage payload turns s c = (action, (s', c')) → follows c c'.
Proof.
  unfold RequestStream_OnMessage, reject. repeat case_match; intros [= <- <- <-]; try done;
    apply (run_op_follows (CallFinish _ [])).
Qed.

#[export] Instance streaming_world_laws {GZ : GzipSize} {M} {MM : Message M} :
  WorldLaws (WW := streaming_world (M := M)).
Proof.
  split; [done|]. intros w l w'. simpl. destruct l; cbn [stream_step]; unfold stream_callback.
  - destruct (foreign l); [|done]. destruct (call_step _ _) as [c|] eqn:E; [|done].
    intros [= <-]. by eapply call_step_follows.
  - repeat case_match; intros; by simplify_eq/=.
  - destruct (cw_waiting (sw_call w)) as [cb|]; [|done]. destruct cb as [payload| | | |reason].
    1: destruct (RequestStream_OnMessage _ _ _ _) as [action [s c]] eqn:E.
    all: repeat case_match; try done; intros [= <-]; simpl; try (by eapply call_step_follows).
    all: etrans; [by eapply OnMessage_follows|by eapply call_step_follows].
  - unfold stream_lost. destruct (sw_told w); [done|]. destruct (lose_callback (sw_call w)) as [c|] eqn:El; [|done]. intros [= <-].
    split; [intros Hc; by eapply lose_callback_inv|]. unfold lose_callback in El. simpl.
    by destruct (cw_waiting (sw_call w)) as [[]|]; simplify_eq.
  - repeat case_match; intros; by simplify_eq/=.
  - destruct (sw_resuming w); [done|]. unfold RequestStream_Read_resume.
    pose proof (run_op_follows CallResumeReceive turns (sw_call w)) as H.
    simpl in H. destruct (run_op _ _ _) as [e c]. by intros [= <-].
  - destruct (sw_failing w); [done|]. intros [= <-].
    apply (run_op_follows (CallFinish _ [])).
Qed.

(** ** Theorems *)

(** When [FinishResponse] reports success, the transport has the whole response:
    for an OK status the serialised message followed by an OK status with the
    trailing metadata, whatever other threads did in between; for a failed status
    that status; for a message that does not serialise an INTERNAL status. *)
Lemma finish_response_complete {GZ : GzipSize} {W L} {WW : World W L} {WL : WorldLaws (WW := WW)}
    {Response} {MR : Message Response}
    (response : Response) status trailing compression slots (s : ThreadState W) e slots' s' :
  FinishResponse response status trailing compression slots s = Returned e slots' s' →
  Error_ok e = true →
  if Status_ok status then
    match SerializeToString response with
    | Some payload => ∃ h1 h2,
        tc_history (cw_transport (ts_call s')) =
        h1 ++ [CmdSend payload compression] ++ h2 ++ [CmdFinish (cast_u32 0) "" trailing]
    | None => ∃ h,
        tc_history (cw_transport (ts_call s')) =
        h ++ [CmdFinish (cast_u32 StatusCode.Internal) "failed to serialize response" trailing]
    end
  else ∃ h, tc_history (cw_transport (ts_call s')) =
            h ++ [CmdFinish (cast_u32 (status_code status)) (status_message status) trailing].
Proof.
  unfold FinishResponse. destruct (Status_ok status); simpl; [|apply operation_Finish_ok].
  destruct (SerializeToString response) as [payload|]; [|apply operation_Finish_ok].
  unfold mbind, thread_bind.
  destruct (operation _ slots s) as [se slots1 s1| |] eqn:E1; try done.
  destruct (Error_ok se) eqn:Ese; simpl.
  - intros E2 He. destruct (operation_Send_ok _ _ _ _ _ _ _ E1 Ese) as (h1 & _ & H1).
    destruct (operation_Finish_ok _ _ _ _ _ _ _ E2 He) as [h H2].
    destruct (well_behaved_call (CallFinish Status_default trailing) _ _ _ _ _ E2) as [_ [h2 Hh]].
    rewrite H1, H2 in Hh. destruct h2 as [|x h2 _] using rev_ind.
    + rewrite app_nil_r in Hh. apply app_inj_tail in Hh as [_ Hh]. done.
    + rewrite H2. rewrite app_assoc in Hh. apply app_inj_tail in Hh as [-> _].
      exists h1, h2. by rewrite <- !app_assoc.
  - destruct (operation _ slots1 s1) as [fe slots2 s2| |]; try done. intros [= <- <- <-].
    destruct (Error_ok fe) eqn:Ef; intros He; congruence.
Qed.

#[local] Existing Instance stored_gzip.
#[local] Existing Instance string_message.

(** The reactor sends the first message while the status is on its way. *)
Definition finish_slots : list (Slot CallLabel) :=
  [mkSlot [] []; mkSlot [LReactor (RProcess true true); LReactor (RProcess true true)] []].

Definition finish_state : ThreadState CallWorld :=
  mkThreadState (start_world example_limits false) (mkHeap ∅ 0 []).

Definition finish_result : Outcome CallWorld CallLabel Error :=
  FinishResponse "0123456789"%string Status_default [("k", "v")]%string Identity finish_slots
    finish_state.

Definition finish_final : ThreadState CallWorld :=
  match finish_result with Returned _ _ s => s | _ => finish_state end.

Lemma finish_response_complete_witness :
  finish_result = Returned Error_default [] finish_final ∧
  ∃ h1 h2, tc_history (cw_transport (ts_call finish_final)) =
    h1 ++ [CmdSend "0123456789" Identity] ++ h2 ++
    [CmdFinish (cast_u32 0) "" [("k", "v")]%string].
Proof.
  split; [vm_compute; reflexivity|].
  refine (finish_response_complete "0123456789"%string Status_default [("k", "v")]%string Identity
    finish_slots finish_state Error_default [] finish_final _ _); vm_compute; reflexivity.
Defined.
