(* ===== verification/AdmissionGate.v ===== *)
(** * The admission gate of a dispatched call

    [internal::CallAdmissionGate] ([cpp/sync_service.hpp]): one atomic that decides
    between the executor, which wants to start the handler, and the cancellation of
    the call, which wants to keep it from starting.

    [BeginStart], [CommitStart] and [Stop] are given as the atomic accesses they
    make; [GateWorld] runs any number of threads that call them, interleaved at
    every access, with the spurious failures [compare_exchange_weak] allows. *)

From S2P Require Import Prelude.

(** ** The atomic *)

Inductive GateState : Set := Queued | Starting | Running | Stopped.

#[export] Instance GateState_eq_dec : EqDecision GateState.
Proof. solve_decision. Defined.

Definition gate_init : GateState := Queued.

(** The result, the value of [expected] afterwards and that of the atomic.  The
    weak form may also fail when the values agree. *)
Definition compare_exchange (spurious : bool) (expected desired value : GateState)
  : bool * GateState * GateState :=
  if bool_decide (value = expected) && negb spurious then (true, expected, desired)
  else (false, value, value).

Definition compare_exchange_strong := compare_exchange false.

Definition BeginStart (value : GateState) : bool * GateState :=
  let '(r, _, value') := compare_exchange_strong Queued Starting value in (r, value').

Definition CommitStart (value : GateState) : bool * GateState :=
  let '(r, _, value') := compare_exchange_strong Starting Running value in (r, value').

(** Where a thread is in [Stop]: before the load, before the test of the loop with
    what it last saw, or after the return. *)
Inductive StopPoint : Set := StopLoad | StopLoop (state : GateState) | StopReturned.

Definition stop_pending (state : GateState) : bool :=
  match state with Queued | Starting => true | _ => false end.

Definition Stop_step (spurious : bool) (p : StopPoint) (value : GateState)
  : StopPoint * GateState :=
  match p with
  | StopLoad => (StopLoop value, value)
  | StopLoop state =>
      if stop_pending state then
        let '(r, state', value') := compare_exchange spurious state Stopped value in
        (if r : bool then StopReturned else StopLoop state', value')
      else (StopReturned, value)
  | StopReturned => (StopReturned, value)
  end.

(** [Stop] as one step: what it does when nobody interferes. *)
Definition Stop (value : GateState) : GateState := if stop_pending value then Stopped else value.

(** ** Threads at the gate

    [if (!admission.BeginStart() || !admission.CommitStart()) return;], then the
    handler. *)

Inductive GateThread : Set :=
  | BeforeBegin
  | BeforeCommit
  | InHandler
  | Refused
  | Stopping (p : StopPoint).

Definition thread_step (spurious : bool) (th : GateThread) (value : GateState)
  : GateThread * GateState :=
  match th with
  | BeforeBegin => let '(r, v) := BeginStart value in (if r : bool then BeforeCommit else Refused, v)
  | BeforeCommit => let '(r, v) := CommitStart value in (if r : bool then InHandler else Refused, v)
  | InHandler | Refused => (th, value)
  | Stopping p => let '(p', v) := Stop_step spurious p value in (Stopping p', v)
  end.

Record GateWorld := mkGateWorld { gw_value : GateState; gw_threads : list GateThread }.

Inductive GateLabel : Set := GRun | GStop | GStep (thread : nat) (spurious : bool).

Definition gate_step (w : GateWorld) (l : GateLabel) : option GateWorld :=
  match l with
  | GRun => Some (mkGateWorld (gw_value w) (gw_threads w ++ [BeforeBegin]))
  | GStop => Some (mkGateWorld (gw_value w) (gw_threads w ++ [Stopping StopLoad]))
  | GStep i spurious =>
      match gw_threads w !! i with
      | None => None
      | Some th =>
          let '(th', v) := thread_step spurious th (gw_value w) in
          Some (mkGateWorld v (<[i := th']> (gw_threads w)))
      end
  end.

Definition gate_world : GateWorld := mkGateWorld gate_init [].

(** ** Counting threads *)

#[export] Instance StopPoint_eq_dec : EqDecision StopPoint.
Proof. solve_decision. Defined.
#[export] Instance GateThread_eq_dec : EqDecision GateThread.
Proof. solve_decision. Defined.

Definition at_point (th : GateThread) (ths : list GateThread) : nat :=
  length (filter (λ x, x = th) ths).

Definition is_at (th x : GateThread) : nat := if bool_decide (x = th) then 1 else 0.

Lemma at_point_cons th x ths : at_point th (x :: ths) = is_at th x + at_point th ths.
Proof.
  unfold at_point, is_at. rewrite filter_cons. case_decide; case_bool_decide; done.
Qed.

Lemma at_point_snoc th x ths : at_point th (ths ++ [x]) = at_point th ths + is_at th x.
Proof.
  induction ths as [|y ths IH]; simpl; rewrite !at_point_cons; [by rewrite Nat.add_0_r|lia].
Qed.

Lemma at_point_insert th x y ths i :
  ths !! i = Some x → at_point th (<[i := y]> ths) + is_at th x = at_point th ths + is_at th y.
Proof.
  revert i. induction ths as [|z ths IH]; intros [|i] Hi; simplify_eq/=;
    rewrite !at_point_cons; [lia|]. specialize (IH i Hi). lia.
Qed.

Lemma at_point_elem th ths : th ∈ ths → 0 < at_point th ths.
Proof.
  induction 1; rewrite at_point_cons; unfold is_at; [rewrite bool_decide_true by done|]; lia.
Qed.

Lemma at_point_pos th ths : 0 < at_point th ths → th ∈ ths.
Proof.
  induction ths as [|x ths IH]; [by intros ?%Nat.lt_irrefl|]. rewrite at_point_cons. unfold is_at.
  case_bool_decide; subst; [by left|]. intros ?. right. auto.
Qed.

Lemma at_point_zero th ths : at_point th ths = 0 → th ∉ ths.
Proof. intros H Hin%at_point_elem. lia. Qed.

(** ** The invariant *)

Definition final (value : GateState) : Prop := value = Running ∨ value = Stopped.

(** What the threads that hold the gate say about it. *)
Record gate_inv (w : GateWorld) : Prop := {
  gi_queued : gw_value w = Queued → at_point BeforeCommit (gw_threads w) = 0;
  gi_starting : gw_value w = Starting → at_point BeforeCommit (gw_threads w) = 1;
  gi_running : gw_value w = Running → at_point BeforeCommit (gw_threads w) = 0;
  gi_handler : at_point InHandler (gw_threads w) = if decide (gw_value w = Running) then 1 else 0;
  gi_returned : Stopping StopReturned ∈ gw_threads w → final (gw_value w);
  gi_seen : ∀ v, Stopping (StopLoop v) ∈ gw_threads w → final v → gw_value w = v }.

Lemma gate_inv_start : gate_inv gate_world.
Proof. split; try done; simpl; set_solver. Qed.

Lemma elem_of_insert_inv {A} (l : list A) i (x y : A) : y ∈ <[i := x]> l → y = x ∨ y ∈ l.
Proof.
  intros [j Hj]%list_elem_of_lookup. apply list_lookup_insert_Some in Hj as [(-> & <- & _)|[_ Hj]].
  - by left.
  - right. by eapply list_elem_of_lookup_2.
Qed.

(** A thread's step keeps what the other threads know. *)
Lemma thread_step_final spurious th v th' v' :
  thread_step spurious th v = (th', v') → final v → v' = v.
Proof.
  intros E [-> | ->]; destruct th as [| | | |[|[]|]], spurious; vm_compute in E; congruence.
Qed.

(** A [Stop] that saw a final value saw the present one, and it returns only when
    the value is final. *)
Lemma thread_step_learns spurious th v th' v' :
  thread_step spurious th v = (th', v') →
  (∀ u, th = Stopping (StopLoop u) → final u → v = u) →
  (th = Stopping StopReturned → final v) →
  (th' = Stopping StopReturned → final v') ∧ (∀ u, th' = Stopping (StopLoop u) → v' = u).
Proof.
  assert (Hr : final Running) by by left. assert (Hs : final Stopped) by by right.
  intros E H1 H2. destruct th as [| | | |[|[]|]]; try specialize (H1 _ eq_refl);
    try specialize (H2 eq_refl); destruct v, spurious; injection E as <- <-; split; intros;
    simplify_eq; auto; exfalso; (by discriminate (H1 Hr)) || (by discriminate (H1 Hs)).
Qed.

Lemma gate_step_inv w l w' : gate_inv w → gate_step w l = Some w' → gate_inv w'.
Proof.
  intros [Hq Hs Hr Hh Hret Hseen]. destruct l as [| |i spurious]; cbn [gate_step].
  1,2: intros [= <-]; split; simpl; rewrite ?at_point_snoc; simpl; rewrite ?Nat.add_0_r; auto;
    [intros H|intros v H]; apply elem_of_app in H as [|H%list_elem_of_singleton]; auto; done.
  destruct w as [v ths]. simpl in *. destruct (ths !! i) as [th|] eqn:Hi; [|done].
  destruct (thread_step spurious th v) as [th' v'] eqn:E. intros [= <-].
  pose proof (at_point_insert BeforeCommit _ th' _ _ Hi) as HB.
  pose proof (at_point_insert InHandler _ th' _ _ Hi) as HH.
  pose proof (list_elem_of_lookup_2 _ _ _ Hi) as Hin.
  pose proof (thread_step_final _ _ _ _ _ E) as Hfin.
  assert (Hret' : Stopping StopReturned ∈ ths → final v') by (intros Hf; by rewrite (Hfin (Hret Hf)); auto).
  assert (Hseen' : ∀ u, Stopping (StopLoop u) ∈ ths → final u → v' = u).
  { intros u Hu Hf. pose proof (Hseen u Hu Hf) as ->. auto. }
  destruct (thread_step_learns _ _ _ _ _ E) as [Hnew Hnew'];
    [by intros u ->; apply Hseen|by intros ->; apply Hret|].
  split; simpl; [| | | |intros [?|?]%elem_of_insert_inv; auto|intros u [?|?]%elem_of_insert_inv; auto].
  all: clear Hret Hret' Hseen Hseen' Hnew Hnew' Hin Hi Hfin; revert HB HH Hq Hs Hr Hh;
    generalize (at_point BeforeCommit ths) (at_point InHandler ths)
      (at_point BeforeCommit (<[i := th']> ths)) (at_point InHandler (<[i := th']> ths));
    destruct th as [| | | |[|[]|]], v, spurious; injection E as <- <-; unfold is_at;
    rewrite ?bool_decide_true, ?bool_decide_false by done; simpl; intros;
    try done; try specialize (Hq eq_refl); try specialize (Hs eq_refl);
    try specialize (Hr eq_refl); lia.
Qed.

Lemma gate_run_inv ls w : run gate_step gate_world ls = Some w → gate_inv w.
Proof. apply run_invariant; [apply gate_step_inv|apply gate_inv_start]. Qed.

(** A final value stays. *)
Lemma gate_run_final ls w w' :
  final (gw_value w) → run gate_step w ls = Some w' → gw_value w' = gw_value w.
Proof.
  intros Hf Hr. assert (H : final (gw_value w') ∧ gw_value w' = gw_value w); [|apply H].
  revert Hr. apply (run_invariant gate_step (λ x, final (gw_value x) ∧ gw_value x = gw_value w));
    [|done].
  intros x l x' [Hx <-]. destruct l as [| |i spurious]; cbn [gate_step]; [by intros [= <-]..|].
  destruct (gw_threads x !! i) as [th|]; [|done].
  destruct (thread_step spurious th (gw_value x)) as [th' v] eqn:E. intros [= <-].
  apply thread_step_final in E; [|done]. simpl. by rewrite E.
Qed.

(** ** How far a [Stop] is from its return *)

Definition rank (value : GateState) : nat :=
  match value with Queued => 2 | Starting => 1 | _ => 0 end.

Definition stop_left (p : StopPoint) : nat :=
  match p with StopLoad => 4 | StopLoop u => S (rank u) | StopReturned => 0 end.

(** What it saw is the present value or an earlier one. *)
Definition stop_seen (p : StopPoint) (value : GateState) : Prop :=
  match p with StopLoop u => u = value ∨ rank value < rank u | _ => True end.

(** Thread [i] is in [Stop], at most [n] steps of its own from the return. *)
Definition stopping (i n : nat) (w : GateWorld) : Prop :=
  ∃ p, gw_threads w !! i = Some (Stopping p) ∧ stop_left p ≤ n ∧ stop_seen p (gw_value w).

Lemma thread_step_rank spurious th v th' v' :
  thread_step spurious th v = (th', v') → v' = v ∨ rank v' < rank v.
Proof.
  intros E. destruct th as [| | | |[|[]|]], v, spurious; injection E as _ <-; simpl; auto; lia.
Qed.

Lemma stop_seen_mono p v v' : (v' = v ∨ rank v' < rank v) → stop_seen p v → stop_seen p v'.
Proof. destruct p; simpl; [done|intros [-> | ?] [-> | ?]; auto; right; lia|done]. Qed.

Lemma Stop_step_left spurious p v p' v' :
  Stop_step spurious p v = (p', v') → stop_seen p v →
  stop_seen p' v' ∧ stop_left p' ≤ (if spurious : bool then stop_left p else pred (stop_left p)).
Proof.
  destruct p as [|u|]; simpl.
  - intros [= <- <-] _. simpl. split; [by left|]. destruct v, spurious; simpl; lia.
  - destruct u, v, spurious; simpl; intros [= <- <-] [|]; simplify_eq; simpl in *; split; auto; lia.
  - intros [= <- <-] _. split; [done|]. simpl. destruct spurious; lia.
Qed.

#[export] Instance GateLabel_eq_dec : EqDecision GateLabel.
Proof. solve_decision. Defined.

(** The steps of thread [i] in a schedule that do not fail spuriously *)
Definition own_steps (i : nat) (ls : list GateLabel) : nat :=
  length (filter (λ l, l = GStep i false) ls).

Lemma stopping_step i n w l w' :
  stopping i n w → gate_step w l = Some w' →
  stopping i (if decide (l = GStep i false) then pred n else n) w'.
Proof.
  intros (p & Hp & Hn & Hs). destruct l as [| |j spurious]; cbn [gate_step].
  1,2: intros [= <-]; exists p; simpl; split_and!; auto using lookup_app_l_Some.
  destruct (gw_threads w !! j) as [th|] eqn:Hj; [|done].
  destruct (thread_step spurious th (gw_value w)) as [th' v] eqn:E. intros [= <-].
  destruct (decide (j = i)) as [->|Hne].
  - rewrite Hj in Hp. injection Hp as ->. simpl in E.
    destruct (Stop_step spurious p (gw_value w)) as [p' v'] eqn:E'. injection E as <- <-.
    destruct (Stop_step_left _ _ _ _ _ E' Hs) as [Hs' Hl]. exists p'. simpl.
    split_and!; [by eapply list_lookup_insert_eq, lookup_lt_Some| |done].
    destruct spurious; case_decide; simplify_eq; lia.
  - exists p. simpl. rewrite list_lookup_insert_ne by done.
    split_and!; [done|case_decide; simplify_eq; lia|].
    eapply stop_seen_mono, Hs. by eapply thread_step_rank.
Qed.

Lemma stopping_run i n ls w w' :
  stopping i n w → run gate_step w ls = Some w' → stopping i (n - own_steps i ls) w'.
Proof.
  revert n w. induction ls as [|l ls IH]; intros n w Hst; simpl.
  - intros [= <-]. by rewrite Nat.sub_0_r.
  - destruct (gate_step w l) as [w1|] eqn:E; [|done]. intros Hr.
    eapply IH in Hr; [|by eapply stopping_step]. unfold own_steps in *. rewrite filter_cons.
    destruct (decide (l = GStep i false)); simpl; [|done].
    by replace (n - S _) with (pred n - length (filter (λ l, l = GStep i false) ls)) by lia.
Qed.

(** ** Without a [Stop] *)

(** What holds while nobody calls [Stop] *)
Record undisturbed (w : GateWorld) : Prop := {
  ud_value : gw_value w ≠ Stopped;
  ud_refused : Refused ∈ gw_threads w → gw_value w ≠ Queued;
  ud_threads : ∀ p, Stopping p ∉ gw_threads w }.

Lemma undisturbed_step w l w' :
  l ≠ GStop → gate_inv w → undisturbed w → gate_step w l = Some w' → undisturbed w'.
Proof.
  intros Hl Hgi [Hv Hr Ht]. destruct l as [| |i spurious]; cbn [gate_step]; [|done|].
  { intros [= <-]. split; simpl; [done| |].
    - intros [|H%list_elem_of_singleton]%elem_of_app; [auto|done].
    - intros p [H|H%list_elem_of_singleton]%elem_of_app; [by eapply Ht|done]. }
  destruct (gw_threads w !! i) as [th|] eqn:Hi; [|done].
  pose proof (list_elem_of_lookup_2 _ _ _ Hi) as Hin.
  assert (Hq : gw_value w = Queued → th ≠ BeforeCommit).
  { intros Hq ->. by apply (at_point_zero _ _ (gi_queued _ Hgi Hq)). }
  destruct w as [v ths]. simpl in *.
  destruct (thread_step spurious th v) as [th' v'] eqn:E. intros [= <-].
  assert (v' ≠ Stopped ∧ (v' = Queued → v = Queued ∧ th' ≠ Refused) ∧ ∀ p, th' ≠ Stopping p)
    as (H1 & H2 & H3).
  { destruct th as [| | | |p]; [..|by destruct (Ht p)]; destruct v; injection E as <- <-;
      split_and!; try done; intros _; exfalso; (by apply Hr) || (by apply Hq). }
  split; simpl; [done| |].
  - intros [<-|H]%elem_of_insert_inv Hq'; destruct (H2 Hq'); [done|]. by apply Hr.
  - intros p [<-|H]%elem_of_insert_inv; [by eapply H3|by eapply Ht].
Qed.

(** ** Theorems *)

(** C10. However many threads race for the gate, the handler starts at most once, and
    it has started exactly when the gate says [Running]. *)
Theorem handler_starts_once ls w :
  run gate_step gate_world ls = Some w →
  at_point InHandler (gw_threads w) = if decide (gw_value w = Running) then 1 else 0.
Proof. intros Hr. apply gi_handler. by eapply gate_run_inv. Qed.

(** A race of two runners and a [Stop] that the first runner wins *)
Definition gate_race : list GateLabel :=
  [GRun; GStop; GRun; GStep 1 false; GStep 0 false; GStep 1 true; GStep 2 false; GStep 0 false;
   GStep 1 false; GStep 1 false].

Definition race_world (n : nat) : GateWorld :=
  default gate_world (run gate_step gate_world (take n gate_race)).

Lemma handler_starts_once_witness :
  gw_threads (race_world 10) = [InHandler; Stopping StopReturned; Refused] ∧
  at_point InHandler (gw_threads (race_world 10)) =
    if decide (gw_value (race_world 10) = Running) then 1 else 0.
Proof.
  split; [vm_compute; reflexivity|].
  apply (handler_starts_once gate_race). vm_compute. reflexivity.
Defined.

(** When a [Stop] has returned, the handler has started before or never will. *)
Lemma stop_prevents_start ls1 w1 ls2 w2 :
  run gate_step gate_world ls1 = Some w1 → Stopping StopReturned ∈ gw_threads w1 →
  run gate_step w1 ls2 = Some w2 →
  at_point InHandler (gw_threads w2) = at_point InHandler (gw_threads w1).
Proof.
  intros H1 Hin H2. pose proof (gate_run_inv _ _ H1) as Hi1.
  assert (Hi2 : gate_inv w2) by (eapply run_invariant; [apply gate_step_inv|done|done]).
  rewrite (gi_handler _ Hi1), (gi_handler _ Hi2).
  by rewrite (gate_run_final _ _ _ (gi_returned _ Hi1 Hin) H2).
Qed.

Lemma stop_prevents_start_witness :
  let w1 := default gate_world (run gate_step gate_world
    [GRun; GStop; GStep 0 false; GStep 1 false; GStep 1 false]) in
  ∃ w2, run gate_step w1 [GStep 0 false] = Some w2 ∧ gw_threads w2 !! 0 = Some Refused ∧
    at_point InHandler (gw_threads w2) = at_point InHandler (gw_threads w1).
Proof.
  eexists. split; [vm_compute; reflexivity|]. split; [vm_compute; reflexivity|].
  apply (stop_prevents_start [GRun; GStop; GStep 0 false; GStep 1 false; GStep 1 false] _
    [GStep 0 false]); [vm_compute; reflexivity| |vm_compute; reflexivity].
  vm_compute. by repeat constructor.
Defined.

(** C27. [Stop] terminates: whatever the other threads do and however often its
    exchange fails spuriously, four other steps of its own take it to its end. *)
Theorem stop_terminates i ls w w' :
  gw_threads w !! i = Some (Stopping StopLoad) → run gate_step w ls = Some w' →
  4 ≤ own_steps i ls → gw_threads w' !! i = Some (Stopping StopReturned).
Proof.
  intros Hi Hr Hn. assert (H : stopping i 4 w) by by exists StopLoad.
  destruct (stopping_run _ _ _ _ _ H Hr) as (p & Hp & Hl & _).
  destruct p; simpl in Hl; [lia..|done].
Qed.

Lemma stop_terminates_witness :
  gw_threads (race_world 3) !! 1 = Some (Stopping StopLoad) ∧
  gw_threads (default gate_world (run gate_step (race_world 3) (drop 3 gate_race ++ [GStep 1 false])))
    !! 1 = Some (Stopping StopReturned).
Proof.
  split; [reflexivity|].
  eapply (stop_terminates 1 (drop 3 gate_race ++ [GStep 1 false]) (race_world 3));
    [reflexivity|vm_compute; reflexivity|vm_compute; lia].
Defined.

(** When nobody calls [Stop] the handler is not lost: once all runners have got
    past the gate, one of them has started it. *)
Lemma start_is_not_lost ls w :
  GStop ∉ ls → run gate_step gate_world ls = Some w → gw_threads w ≠ [] →
  BeforeBegin ∉ gw_threads w → BeforeCommit ∉ gw_threads w →
  at_point InHandler (gw_threads w) = 1.
Proof.
  intros Hls Hr Hne Hb Hc.
  assert (gate_inv w ∧ undisturbed w) as [Hi [Hv Hrf Ht]].
  { revert Hr. apply (run_invariant_on gate_step (λ l, l ≠ GStop) (λ w, gate_inv w ∧ undisturbed w)).
    - intros x l x' Hl [Hx Hu] Hs. split; [by eapply gate_step_inv|by eapply undisturbed_step].
    - apply Forall_forall. by intros l Hl ->.
    - split; [apply gate_inv_start|]. split; simpl; [done|set_solver..]. }
  rewrite (gi_handler _ Hi). destruct (gw_threads w) as [|th ths] eqn:E; [done|].
  destruct (gw_value w) eqn:Ev; simpl; try done; exfalso.
  - destruct th; [set_solver|set_solver| |apply Hrf; set_solver|by destruct (Ht p); left].
    pose proof (gi_handler _ Hi) as H. rewrite Ev, E, at_point_cons in H. vm_compute in H. lia.
  - pose proof (gi_starting _ Hi Ev) as H. rewrite E in H.
    apply Hc. apply at_point_pos. lia.
Qed.

Lemma start_is_not_lost_witness :
  let w := default gate_world (run gate_step gate_world
    [GRun; GRun; GStep 0 false; GStep 1 false; GStep 0 false]) in
  gw_threads w = [InHandler; Refused] ∧ at_point InHandler (gw_threads w) = 1.
Proof.
  split; [vm_compute; reflexivity|].
  apply (start_is_not_lost [GRun; GRun; GStep 0 false; GStep 1 false; GStep 0 false]).
  - intros H. repeat (apply elem_of_cons in H as [H|H]; [discriminate H|]). by apply not_elem_of_nil in H.
  - vm_compute. reflexivity.
  - vm_compute. discriminate.
  - vm_compute. intros H. by repeat (apply elem_of_cons in H as [H|H]; [discriminate H|]); apply not_elem_of_nil in H.
  - vm_compute. intros H. by repeat (apply elem_of_cons in H as [H|H]; [discriminate H|]); apply not_elem_of_nil in H.
Defined.
