(* ===== verification/SyncService.v ===== *)
(** * The synchronous service layer

    [cpp/sync_service.hpp] with [grpc::ServerContext] ([grpcpp/server_context.h])
    and the server streams of [grpcpp/support/sync_stream.h]: an accepted call is
    handed to an executor, whose thread runs the application's handler and then
    sends the response.

    A handler is a program ([Handler]) over what its context and stream offer; the
    four [Dispatch] functions and the [Run] of their [State] objects are threads
    ([TypedResponse]) in a world with an admission gate ([DispatchWorld]). *)

From S2P Require Import Prelude Status Metadata ServerTransport TypedCall RequestStream.
From S2P Require Import AdmissionGate TypedResponse.

Local Open Scope Z_scope.

(** ** Compression *)

Definition GrpcCompression (compression : Compression) : grpc_compression_algorithm :=
  match compression with Gzip => GRPC_COMPRESS_GZIP | Identity => GRPC_COMPRESS_NONE end.

Definition NativeCompression (compression : grpc_compression_algorithm) : Compression :=
  match compression with GRPC_COMPRESS_GZIP => Gzip | _ => Identity end.

(** ** Contexts *)

(** [grpc_lite::ServerContext] *)
Record NativeContext := mkNativeContext {
  nc_request_metadata : entries;
  nc_request_compression : Compression;
  nc_has_deadline : bool;
  nc_remaining_time_ns : Z }.

(** [grpc::ServerContext]; its [is_cancelled_] asks the call of the state that
    owns the context. *)
Record ServerContext := mkServerContext {
  sc_client_metadata : multimap;
  sc_initial_metadata : multimap;
  sc_trailing_metadata : multimap;
  sc_compression : grpc_compression_algorithm }.

#[export] Instance eta_ServerContext : Eta ServerContext := λ c,
  mkServerContext (sc_client_metadata c) (sc_initial_metadata c) (sc_trailing_metadata c)
    (sc_compression c).

Definition ServerContext_Create (context : NativeContext) (compression : grpc_compression_algorithm)
  : ServerContext :=
  mkServerContext (mm_emplace_all (nc_request_metadata context) []) [] [] compression.

Definition AddInitialMetadata (key value : string) (c : ServerContext) : ServerContext :=
  c <| sc_initial_metadata := mm_emplace key value (sc_initial_metadata c) |>.

Definition AddTrailingMetadata (key value : string) (c : ServerContext) : ServerContext :=
  c <| sc_trailing_metadata := mm_emplace key value (sc_trailing_metadata c) |>.

Definition set_compression_algorithm (algorithm : grpc_compression_algorithm) (c : ServerContext)
  : ServerContext :=
  c <| sc_compression := algorithm |>.

(** ** Handlers

    The application's handler, as far as the library can see it: what it does with
    its context and its stream, and what it returns.  [Op] are the operations of
    the stream it was given, with the type of their results. *)

Section Handler.
Context {Op : Type} {Res : Op → Type}.

Inductive Handler (A : Type) : Type :=
  | HReturn (a : A)
  | HClientMetadata (k : multimap → Handler A)
  | HIsCancelled (k : bool → Handler A)
  | HAddInitialMetadata (key value : string) (k : Handler A)
  | HAddTrailingMetadata (key value : string) (k : Handler A)
  | HSetCompression (algorithm : grpc_compression_algorithm) (k : Handler A)
  | HStream (op : Op) (k : Res op → Handler A).
End Handler.
Arguments Handler {Op} Res A.
Arguments HReturn {Op Res A}.
Arguments HClientMetadata {Op Res A}.
Arguments HIsCancelled {Op Res A}.
Arguments HAddInitialMetadata {Op Res A}.
Arguments HAddTrailingMetadata {Op Res A}.
Arguments HSetCompression {Op Res A}.
Arguments HStream {Op Res A}.

(** A unary handler has no stream; [ServerWriter] writes, [ServerReader] reads and
    [ServerReaderWriter] does both.  The argument of a read is whether the pointer
    to the message is not null. *)
Definition NoRes (op : Empty_set) : Type := match op with end.

Inductive WriterOp (Response : Type) : Type := WWrite (r : Response).
Arguments WWrite {Response}.
Definition WriterRes {Response} (op : WriterOp Response) : Type := bool.

Inductive ReaderOp : Type := RRead (request : bool).
Definition ReaderRes (Request : Type) (op : ReaderOp) : Type := option Request.

Inductive ReaderWriterOp (Response : Type) : Type :=
  | BRead (request : bool)
  | BWrite (r : Response).
Arguments BRead {Response}.
Arguments BWrite {Response}.
Definition ReaderWriterRes (Request : Type) {Response} (op : ReaderWriterOp Response) : Type :=
  match op with BRead _ => option Request | BWrite _ => bool end.

(** ** The world of a dispatched call

    [dw_observer] names the two callbacks the dispatcher registers on the call;
    each time the call has invoked one of them, [Stop] runs on the gate, some time
    later. *)

Record DispatchWorld (W : Type) := mkDispatchWorld {
  dw_world : W;
  dw_observer : nat;
  dw_gate : GateState }.
Arguments mkDispatchWorld {W}.
Arguments dw_world {W}.
Arguments dw_observer {W}.
Arguments dw_gate {W}.

#[export] Instance eta_DispatchWorld W : Eta (DispatchWorld W) := λ w,
  mkDispatchWorld (dw_world w) (dw_observer w) (dw_gate w).

Inductive DispatchLabel (L : Type) : Type := DWorld (l : L) | DStop.
Arguments DWorld {L}.
Arguments DStop {L}.

Definition observed (f : nat) (i : Invocation) : bool :=
  match i with InvCancel g | InvTerminal g _ => g =? f | InvWritable _ => false end%nat.

Definition dispatch_step {W L} {WW : World W L} (w : DispatchWorld W) (l : DispatchLabel L)
  : option (DispatchWorld W) :=
  match l with
  | DWorld l =>
      match w_step (dw_world w) l with
      | None => None
      | Some w' => Some (w <| dw_world := w' |>)
      end
  | DStop =>
      if existsb (observed (dw_observer w)) (cw_log (w_call (dw_world w)))
      then Some (w <| dw_gate := Stop (dw_gate w) |>) else None
  end.

#[export] Instance dispatch_world {W L} {WW : World W L} :
    World (DispatchWorld W) (DispatchLabel L) := {|
  w_step := dispatch_step;
  w_call w := w_call (dw_world w);
  w_with_call c w := w <| dw_world := w_with_call c (dw_world w) |> |}.

#[export] Instance dispatch_has_stream {W M} {HS : HasStream W M} :
    HasStream (DispatchWorld W) M := {|
  w_stream w := w_stream (dw_world w);
  w_with_stream s w := w <| dw_world := w_with_stream s (dw_world w) |> |}.

(** ** The state of a dispatched call

    The members of the [State] structs that change; [st_written], which the code
    does not have, lists the messages whose [Write] returned true. *)

Record State (Response : Type) := mkState {
  st_context : ServerContext;
  st_initial_metadata_sent : bool;
  st_written : list Response }.
Arguments mkState {Response}.
Arguments st_context {Response}.
Arguments st_initial_metadata_sent {Response}.
Arguments st_written {Response}.

#[export] Instance eta_State Response : Eta (State Response) := λ s,
  mkState (st_context s) (st_initial_metadata_sent s) (st_written s).

Section Sync.
Context {GZ : GzipSize} {W L : Type} {WW : World W L} {Response : Type} {MR : Message Response}.

Local Abbreviation Thread := (Thread (DispatchWorld W) (DispatchLabel L)).

(** Code of a [State] object *)
Definition Sync (A : Type) : Type := State Response → Thread (A * State Response).

#[export] Instance sync_ret : MRet Sync := λ A a st, mret (a, st).
#[export] Instance sync_bind : MBind Sync := λ A B k m st, r ← m st; k r.1 r.2.

Definition lift {A} (m : Thread A) : Sync A := λ st, a ← m; mret (a, st).
Definition gets {A} (f : State Response → A) : Sync A := λ st, mret (f st, st).
Definition modify (f : State Response → State Response) : Sync () := λ st, mret ((), f st).

Definition on_context (f : ServerContext → ServerContext) : Sync () :=
  modify (λ st, st <| st_context := f (st_context st) |>).

(** An access to the admission gate *)
Definition gate_op {A} (op : GateState → A * GateState) : Thread A := λ slots s,
  match slots with
  | [] => Pending
  | slot :: rest =>
      match run w_step (ts_world s) (slot_labels slot) with
      | None => Pending
      | Some w =>
          let '(a, g) := op (dw_gate w) in
          Returned a rest (s <| ts_world := w <| dw_gate := g |> |>)
      end
  end.

(** A local [Metadata], filled by [CopyMetadata]; its destructor runs when the
    scope ends. *)
Definition with_metadata {A} (es : multimap) (k : Error → ptr → Sync A) : Sync A :=
  r ← lift (heap (CopyMetadata es Metadata_default));
  a ← k r.1 r.2;
  _ ← lift (heap (Metadata_destructor r.2));
  mret a.

(** ** Sending the response, for every class of calls *)

Section Call.
Context {CC : CallClass (W := DispatchWorld W) (L := DispatchLabel L)}.

Definition SendInitialMetadata : Sync Error :=
  context ← gets st_context;
  with_metadata (sc_initial_metadata context) (λ error metadata,
    if negb (Error_ok error) then mret error
    else
      es ← lift (heap (metadata_entries metadata));
      lift (call_SendInitialMetadata es (NativeCompression (sc_compression context)))).

Definition Finish (status : grpc_Status) : Sync Error :=
  context ← gets st_context;
  with_metadata (sc_trailing_metadata context) (λ error trailing,
    if negb (Error_ok error)
    then lift (call_Finish (mkStatus StatusCode.Internal "failed to copy metadata") [])
    else
      es ← lift (heap (metadata_entries trailing));
      lift (call_Finish (server_NativeStatus status) es)).

Definition metadata_failed : Sync () :=
  _ ← lift (call_Finish (mkStatus StatusCode.Internal "failed to send initial metadata") []);
  mret ().

(** ** [ServerReader], [ServerWriter] and [ServerReaderWriter] *)

Definition ServerContext_IsCancelled : Sync bool := lift call_cancelled.

Definition ServerReader_Read {Request} (request : bool) (read_ : bool → Sync (option Request))
  : Sync (option Request) :=
  if negb request then mret None
  else
    cancelled ← ServerContext_IsCancelled;
    if (cancelled : bool) then mret None else read_ request.

(** The loop of [Write]: every iteration takes at least one slot of the schedule,
    so that more iterations than slots are never needed. *)
Fixpoint Write_loop (fuel : nat) (try_write_ : Response → Sync Error)
    (wait_for_writable_ : Sync bool) (response : Response) : Sync bool :=
  match fuel with
  | O => λ _ _ _, Pending
  | S fuel' =>
      cancelled ← ServerContext_IsCancelled;
      if (cancelled : bool) then mret false
      else
        error ← try_write_ response;
        if Error_ok error then mret true
        else if negb (Error_is error ErrorCode.WouldBlock) then mret false
        else
          writable ← wait_for_writable_;
          if negb writable then mret false
          else Write_loop fuel' try_write_ wait_for_writable_ response
  end.

Definition ServerWriter_Write (try_write_ : Response → Sync Error)
    (wait_for_writable_ : Sync bool) (response : Response) : Sync bool := λ st slots,
  Write_loop (S (length slots)) try_write_ wait_for_writable_ response st slots.

(** [Write] with its result on record *)
Definition write (try_write_ : Response → Sync Error) (wait_for_writable_ : Sync bool)
    (response : Response) : Sync bool :=
  written ← ServerWriter_Write try_write_ wait_for_writable_ response;
  _ ← modify (λ st, if written : bool then st <| st_written := st_written st ++ [response] |> else st);
  mret written.

(** ** Running a handler *)

Fixpoint run_handler {Op} {Res : Op → Type} {A} (stream : ∀ op, Sync (Res op))
    (h : Handler Res A) : Sync A :=
  match h with
  | HReturn a => mret a
  | HClientMetadata k =>
      context ← gets st_context; run_handler stream (k (sc_client_metadata context))
  | HIsCancelled k => b ← ServerContext_IsCancelled; run_handler stream (k b)
  | HAddInitialMetadata key value k =>
      _ ← on_context (AddInitialMetadata key value); run_handler stream k
  | HAddTrailingMetadata key value k =>
      _ ← on_context (AddTrailingMetadata key value); run_handler stream k
  | HSetCompression algorithm k =>
      _ ← on_context (set_compression_algorithm algorithm); run_handler stream k
  | HStream op k => r ← stream op; run_handler stream (k r)
  end.

(** [if (!admission.BeginStart() || !admission.CommitStart()) return;] *)
Definition admitted (run : Sync ()) : Sync () :=
  begun ← lift (gate_op BeginStart);
  if negb begun then mret ()
  else
    committed ← lift (gate_op CommitStart);
    if negb committed then mret () else run.
End Call.

(** ** [State::Run]

    [state_] is whether the call object holds a call. *)

Definition unary_stream (op : Empty_set) : Sync (NoRes op) := match op with end.

Definition Unary_Run {Request} (state_ : bool)
    (handler : Request → Handler NoRes (grpc_Status * Response)) (request : Request) : Sync () :=
  let CC := UnaryCall state_ in
  admitted (
    r ← run_handler unary_stream (handler request);
    let '(status, response) := r in
    cancelled ← lift call_cancelled;
    if (cancelled : bool) then mret ()
    else
      metadata_error ← SendInitialMetadata;
      if negb (Error_ok metadata_error) then metadata_failed
      else if grpc_Status_ok status then
        context ← gets st_context;
        with_metadata (sc_trailing_metadata context) (λ trailing_error trailing,
          _ ← (if negb (Error_ok trailing_error)
               then lift (call_Finish (mkStatus StatusCode.Internal "failed to copy metadata") [])
               else
                 es ← lift (heap (metadata_entries trailing));
                 lift (UnaryCall_Finish state_ response Status_default es
                         (NativeCompression (sc_compression context))));
          mret ())
      else _ ← Finish status; mret ()).

Definition ServerStreaming_TryWrite (state_ : bool) (response : Response) : Sync Error :=
  let CC := ServerStreamingCall state_ in
  initial_metadata_sent ← gets st_initial_metadata_sent;
  error ← (if negb initial_metadata_sent then
             error ← SendInitialMetadata;
             if negb (Error_ok error) then mret error
             else _ ← modify (λ st, st <| st_initial_metadata_sent := true |>); mret error
           else mret Error_default);
  if negb (Error_ok error) then mret error
  else
    context ← gets st_context;
    lift (ServerStreamingCall_TryWrite state_ response (NativeCompression (sc_compression context))).

Definition writer_stream (state_ : bool) (op : WriterOp Response) : Sync (WriterRes op) :=
  let CC := ServerStreamingCall state_ in
  match op with
  | WWrite response =>
      write (ServerStreaming_TryWrite state_) (lift (ServerStreamingCall_WaitForWritable state_))
        response
  end.

(** The end of [Run] when the messages went through a writer *)
Definition finish_stream {CC : CallClass (W := DispatchWorld W) (L := DispatchLabel L)}
    (status : grpc_Status) : Sync () :=
  initial_metadata_sent ← gets st_initial_metadata_sent;
  if negb initial_metadata_sent then
    error ← SendInitialMetadata;
    if negb (Error_ok error) then metadata_failed
    else
      _ ← modify (λ st, st <| st_initial_metadata_sent := true |>);
      _ ← Finish status; mret ()
  else _ ← Finish status; mret ().

Definition ServerStreaming_Run {Request} (state_ : bool)
    (handler : Request → Handler (@WriterRes Response) grpc_Status) (request : Request) : Sync () :=
  let CC := ServerStreamingCall state_ in
  admitted (
    status ← run_handler (writer_stream state_) (handler request);
    cancelled ← lift call_cancelled;
    if (cancelled : bool) then mret () else finish_stream status).

Section Streaming.
Context {Request : Type} {MQ : Message Request} {HS : HasStream W Request}.

Definition reader_stream (state_ : bool) (op : ReaderOp) : Sync (ReaderRes Request op) :=
  let CC := ClientStreamingCall state_ in
  match op with
  | RRead request =>
      ServerReader_Read request (λ request, lift (ClientStreamingCall_Read state_ request))
  end.

(** [call.cancelled() || call.terminal()] *)
Definition over {CC : CallClass (W := DispatchWorld W) (L := DispatchLabel L)} : Sync bool :=
  cancelled ← lift call_cancelled;
  if (cancelled : bool) then mret true else lift call_terminal.

Definition ClientStreaming_Run (state_ : bool)
    (handler : Handler (ReaderRes Request) (grpc_Status * Response)) : Sync () :=
  let CC := ClientStreamingCall state_ in
  admitted (
    r ← run_handler (reader_stream state_) handler;
    let '(status, response) := r in
    ended ← over;
    if (ended : bool) then mret ()
    else
      metadata_error ← SendInitialMetadata;
      if negb (Error_ok metadata_error) then metadata_failed
      else if grpc_Status_ok status then
        context ← gets st_context;
        with_metadata (sc_trailing_metadata context) (λ trailing_error trailing,
          _ ← (if negb (Error_ok trailing_error)
               then lift (call_Finish (mkStatus StatusCode.Internal "failed to copy metadata") [])
               else
                 es ← lift (heap (metadata_entries trailing));
                 lift (ClientStreamingCall_Finish state_ response Status_default es
                         (NativeCompression (sc_compression context))));
          mret ())
      else _ ← Finish status; mret ()).

Definition Bidirectional_TryWrite (state_ : bool) (response : Response) : Sync Error :=
  let CC := BidirectionalStreamingCall state_ in
  initial_metadata_sent ← gets st_initial_metadata_sent;
  error ← (if negb initial_metadata_sent then
             error ← SendInitialMetadata;
             if negb (Error_ok error) then mret error
             else _ ← modify (λ st, st <| st_initial_metadata_sent := true |>); mret error
           else mret Error_default);
  if negb (Error_ok error) then mret error
  else
    context ← gets st_context;
    lift (BidirectionalStreamingCall_TryWrite state_ response
            (NativeCompression (sc_compression context))).

Definition reader_writer_stream (state_ : bool) (op : ReaderWriterOp Response)
  : Sync (ReaderWriterRes Request op) :=
  let CC := BidirectionalStreamingCall state_ in
  match op with
  | BRead request =>
      ServerReader_Read request (λ request, lift (BidirectionalStreamingCall_Read state_ request))
  | BWrite response =>
      write (Bidirectional_TryWrite state_)
        (lift (BidirectionalStreamingCall_WaitForWritable state_)) response
  end.

Definition Bidirectional_Run (state_ : bool)
    (handler : Handler (@ReaderWriterRes Request Response) grpc_Status) : Sync () :=
  let CC := BidirectionalStreamingCall state_ in
  admitted (
    status ← run_handler (reader_writer_stream state_) handler;
    ended ← over;
    if (ended : bool) then mret () else finish_stream status).
End Streaming.

(** ** The dispatchers

    [admission] is the [Admit] of the options' admission policy, if there is one,
    and [submit] the answer of the executor's [Submit]; both are application code.
    The result is the state the submitted task will run on, [None] when no task
    was submitted. *)

Definition Dispatch {CC : CallClass (W := DispatchWorld W) (L := DispatchLabel L)}
    (admission : option (string → NativeContext → Status)) (submit : string → bool)
    (response_compression : Compression) (method : string) (native_context : NativeContext)
    (observer : nat) : Thread (option (State Response)) :=
  let status := match admission with
                | Some Admit => Admit method native_context
                | None => Status_default
                end in
  if negb (Status_ok status) then _ ← call_Finish status []; mret None
  else
    let state := mkState (ServerContext_Create native_context
                            (GrpcCompression response_compression)) false [] in
    _ ← call_SetOnCancel (Some observer);
    _ ← call_SetOnTerminal (Some observer);
    if submit method then mret (Some state)
    else
      _ ← gate_op (λ g, ((), Stop g));
      _ ← call_Finish (mkStatus StatusCode.ResourceExhausted "executor rejected the call") [];
      mret None.

Definition DispatchUnary (state_ : bool) := Dispatch (CC := UnaryCall state_).
Definition DispatchServerStreaming (state_ : bool) := Dispatch (CC := ServerStreamingCall state_).
Definition DispatchClientStreaming (state_ : bool) := Dispatch (CC := ClientStreamingCall state_).
Definition DispatchBidirectionalStreaming (state_ : bool) :=
  Dispatch (CC := BidirectionalStreamingCall state_).
End Sync.

(** ** Safety of metadata objects

    [tame p m]: in a heap where [p] is null or live, [m] is never undefined, and
    the objects of the heap are the same when it returns. *)

Section Tame.
Context {W L : Type}.

Definition tame {A} (p : ptr) (m : Thread W L A) : Prop := ∀ slots s,
  heap_ok (ts_heap s) → live (ts_heap s) p →
  match m slots s with
  | Undefined => False
  | Pending => True
  | Returned _ _ s' => heap_ok (ts_heap s') ∧ mh_objects (ts_heap s') = mh_objects (ts_heap s)
  end.

Lemma live_same h h' p : mh_objects h' = mh_objects h → live h p → live h' p.
Proof. intros H. unfold live. by rewrite H. Qed.

Lemma tame_ret {A} p (a : A) : tame p (mret a).
Proof. by intros slots s. Qed.

Lemma tame_pending {A} p : tame (A := A) p (λ _ _, Pending).
Proof. by intros slots s. Qed.

Lemma tame_bind {A B} p (m : Thread W L A) (k : A → Thread W L B) :
  tame p m → (∀ a, tame p (k a)) → tame p (m ≫= k).
Proof.
  intros Hm Hk slots s Hok Hl. specialize (Hm slots s Hok Hl). unfold mbind, thread_bind.
  destruct (m slots s) as [a slots1 s1| |]; try done. destruct Hm as [Hok1 Ho1].
  specialize (Hk a slots1 s1 Hok1 (live_same _ _ _ Ho1 Hl)).
  destruct (k a slots1 s1); try done. by rewrite <- Ho1.
Qed.

(** Code that leaves the heap alone *)
Definition heapless {A} (m : Thread W L A) : Prop := ∀ slots s,
  match m slots s with
  | Undefined => False
  | Pending => True
  | Returned _ _ s' => ts_heap s' = ts_heap s
  end.

Lemma heapless_tame {A} p (m : Thread W L A) : heapless m → tame p m.
Proof. intros H slots s Hok _. specialize (H slots s). destruct (m slots s); try done. by rewrite H. Qed.

Lemma tame_entries n : tame (Some n) (heap (metadata_entries (Some n))).
Proof.
  intros slots s Hok [es Hes]. unfold heap, metadata_entries, metadataStorage. by rewrite Hes.
Qed.

Lemma tame_metadata_entries p : tame p (heap (metadata_entries p)).
Proof. destruct p; [apply tame_entries|by intros slots s]. Qed.

(** A scope with a [Metadata] of its own *)
Lemma tame_scope {A} es (k : Error * ptr → Thread W L A) :
  (∀ r, tame r.2 (k r)) →
  tame None (r ← heap (CopyMetadata es Metadata_default);
             a ← k r; _ ← heap (Metadata_destructor r.2); mret a).
Proof.
  intros Hk slots s Hok _. unfold mbind, thread_bind, heap, Metadata_default.
  destruct (CopyMetadata_spec (ts_heap s) es None Hok) as (e & p & h & -> & Hokh & Hlive & Hp & _);
    [done|]. set (s1 := s <| ts_heap := h |>).
  specialize (Hk (e, p) slots s1 Hokh Hlive). destruct (k (e, p) slots s1) as [a slots2 s2| |]; try done.
  destruct Hk as [Hok2 Ho2]. unfold Metadata_destructor. simpl in *.
  rewrite metadata_destroy_eq by by eapply live_same. unfold mret, thread_ret. simpl.
  destruct Hp as [(-> & Ho & _)|(pre & -> & _ & _ & Ho)]; [by rewrite Ho2, Ho|]. simpl.
  assert (Hn : mh_objects (ts_heap s) !! mh_next (ts_heap s) = None)
    by (apply not_elem_of_dom; intros H%Hok; lia).
  rewrite Ho2, Ho, delete_insert_id by done. split; [|done].
  intros m Hm. simpl in Hm. apply Hok2. rewrite Ho2, Ho, dom_insert_L. set_solver.
Qed.
End Tame.

Section HeaplessOperations.
Context {GZ : GzipSize} {W L : Type} {WW : World W L}.

Lemma heapless_operation {A} (op : TypedCallState → Code (A * TypedCallState)) :
  heapless (operation (W := W) op).
Proof.
  intros slots s. unfold operation. destruct slots as [|slot rest]; [done|].
  destruct (run w_step _ _) as [w|]; [|done]. by destruct (run_op _ _ _).
Qed.

Lemma heapless_setter l : heapless (setter (W := W) l).
Proof.
  intros slots s. unfold setter. destruct slots as [|slot rest]; [done|].
  destruct (run w_step _ _) as [w|]; [|done]. by destruct (call_step _ _).
Qed.

Lemma heapless_wait : heapless (wait_for_writable (W := W)).
Proof.
  intros slots. induction slots as [|slot rest IH]; intros s; simpl; [done|].
  destruct (run w_step _ _) as [w|]; [|done].
  destruct (TypedCallState_WaitForWritable _) as [b|]; [done|].
  specialize (IH (s <| ts_world := w |>)). by destruct (wait_for_writable rest _).
Qed.

Context {M : Type} {MM : Message M} {HS : HasStream W M}.

Lemma heapless_read_take : heapless (read_take (W := W)).
Proof.
  intros slots. induction slots as [|slot rest IH]; intros s; simpl; [done|].
  destruct (run w_step _ _) as [w|]; [|done].
  destruct (RequestStream_Read_take _) as [[m r]|]; [by destruct m|].
  specialize (IH (s <| ts_world := w |>)). by destruct (read_take rest _).
Qed.

Lemma heapless_read_piece {A} f : heapless (read_piece (W := W) (A := A) f).
Proof.
  intros slots s. unfold read_piece. destruct slots as [|slot rest]; [done|].
  destruct (run w_step _ _) as [w|]; [|done]. by destruct (f _ _) as [a [w'|]].
Qed.

Lemma tame_Read p request : tame p (RequestStream_Read (W := W) request).
Proof.
  unfold RequestStream_Read. destruct request; [|apply tame_ret].
  apply tame_bind; [apply heapless_tame, heapless_read_take|]. intros [m|]; [|apply tame_ret].
  apply tame_bind; [apply heapless_tame, heapless_read_piece|]. intros []; [|apply tame_ret].
  apply tame_bind; [apply heapless_tame, heapless_read_piece|]. intros _. apply tame_ret.
Qed.
End HeaplessOperations.

Create HintDb tame discriminated.
#[export] Hint Resolve tame_ret tame_pending tame_metadata_entries tame_Read heapless_tame
  heapless_operation heapless_setter heapless_wait : tame.

Section SyncTame.
Context {GZ : GzipSize} {W L : Type} {WW : World W L} {Response : Type} {MR : Message Response}.

Local Abbreviation Sync := (Sync (W := W) (L := L) (Response := Response)).
Local Abbreviation CallClass := (CallClass (W := DispatchWorld W) (L := DispatchLabel L)).

Definition stame {A} (p : ptr) (m : Sync A) : Prop := ∀ st, tame p (m st).

Lemma stame_ret {A} p (a : A) : stame p (mret a).
Proof. intros st. apply tame_ret. Qed.

Lemma stame_bind {A B} p (m : Sync A) (k : A → Sync B) :
  stame p m → (∀ a, stame p (k a)) → stame p (m ≫= k).
Proof. intros Hm Hk st. apply tame_bind; [apply Hm|]. intros r. apply Hk. Qed.

Lemma stame_lift {A} p m : tame p m → stame (A := A) p (lift m).
Proof. intros Hm st. apply tame_bind; [done|]. intros a. apply tame_ret. Qed.

Lemma stame_gets {A} p f : stame (A := A) p (gets f).
Proof. intros st. apply tame_ret. Qed.

Lemma stame_modify p f : stame p (modify f).
Proof. intros st. apply tame_ret. Qed.

Lemma stame_gate {A} p op : tame (A := A) p (gate_op (W := W) (L := L) op).
Proof.
  apply heapless_tame. intros slots s. unfold gate_op. destruct slots as [|slot rest]; [done|].
  destruct (run w_step _ _) as [w|]; [|done]. by destruct (op _).
Qed.

Lemma stame_with_metadata {A} es k :
  (∀ e p, stame p (k e p)) → stame (A := A) None (with_metadata es k).
Proof.
  intros Hk st slots s Hok Hl.
  pose proof (tame_scope es (λ r, k r.1 r.2 st) (λ r, Hk r.1 r.2 st) slots s Hok Hl) as H.
  revert H. unfold with_metadata, lift, mbind, sync_bind, mbind, thread_bind, mret, sync_ret, mret,
    thread_ret.
  destruct (heap _ slots s) as [r slots1 s1| |]; try done. simpl.
  destruct (k r.1 r.2 st slots1 s1) as [[a st2] slots2 s2| |]; try done. simpl.
  by destruct (heap _ slots2 s2).
Qed.

(** The call classes never touch metadata objects. *)
Class CallTame (CC : CallClass) : Prop := {
  tame_cancelled : ∀ p, tame p call_cancelled;
  tame_terminal : ∀ p, tame p call_terminal;
  tame_SendInitialMetadata : ∀ p es c, tame p (call_SendInitialMetadata es c);
  tame_Finish : ∀ p status es, tame p (call_Finish status es);
  tame_SetOnCancel : ∀ p f, tame p (call_SetOnCancel f);
  tame_SetOnTerminal : ∀ p f, tame p (call_SetOnTerminal f) }.

#[export] Instance UnaryCall_tame state_ : CallTame (UnaryCall state_).
Proof. destruct state_; split; simpl; eauto with tame. Qed.
#[export] Instance ServerStreamingCall_tame state_ : CallTame (ServerStreamingCall state_).
Proof. destruct state_; split; simpl; eauto with tame. Qed.
#[export] Instance ClientStreamingCall_tame state_ : CallTame (ClientStreamingCall state_).
Proof. destruct state_; split; simpl; eauto with tame. Qed.
#[export] Instance BidirectionalStreamingCall_tame state_ :
  CallTame (BidirectionalStreamingCall state_).
Proof. destruct state_; split; simpl; eauto with tame. Qed.

(** Taking code of a [State] object apart *)
Ltac stame_step :=
  first
    [ match goal with |- stame _ (mbind _ _) => apply stame_bind; [|intros] end
    | apply stame_ret
    | apply stame_gets
    | apply stame_modify
    | apply stame_lift; first
        [ apply stame_gate | apply tame_metadata_entries | apply tame_cancelled
        | apply tame_terminal | apply tame_SendInitialMetadata | apply tame_Finish
        | by eauto with tame ]
    | apply stame_with_metadata; intros
    | match goal with |- stame _ (if ?b then _ else _) => destruct b end
    | match goal with |- stame _ (let '(_, _) := ?x in _) => destruct x end ].

Ltac stame_go := repeat stame_step.

Section AnyCall.
Context {CC : CallClass} {CT : CallTame CC}.

Lemma stame_SendInitialMetadata : stame None SendInitialMetadata.
Proof. unfold SendInitialMetadata. stame_go. Qed.

Lemma stame_Finish status : stame None (Finish status).
Proof. unfold Finish. stame_go. Qed.

Lemma stame_metadata_failed : stame None metadata_failed.
Proof. unfold metadata_failed. stame_go. Qed.

Lemma stame_IsCancelled : stame None ServerContext_IsCancelled.
Proof. unfold ServerContext_IsCancelled. stame_go. Qed.

Lemma stame_Reader_Read {Request} request (read_ : bool → Sync (option Request)) :
  (∀ b, stame None (read_ b)) → stame None (ServerReader_Read request read_).
Proof. intros H. unfold ServerReader_Read. stame_go; auto using stame_IsCancelled. Qed.

Lemma stame_write try_write_ wait r :
  (∀ r, stame None (try_write_ r)) → stame None wait → stame None (write try_write_ wait r).
Proof.
  intros Ht Hw. unfold write. stame_go. intros st slots. unfold ServerWriter_Write.
  generalize (S (length slots)). intros n. revert st slots.
  change (stame None (Write_loop n try_write_ wait r)).
  induction n as [|n IH]; [intros st; apply tame_pending|]. cbn [Write_loop].
  stame_go; auto using stame_IsCancelled.
Qed.

Lemma stame_run_handler {Op} {Res : Op → Type} {A} (stream : ∀ op, Sync (Res op))
    (h : Handler Res A) :
  (∀ op, stame None (stream op)) → stame None (run_handler stream h).
Proof.
  intros Hs. induction h; cbn [run_handler]; unfold on_context; stame_go; auto using stame_IsCancelled.
Qed.

Lemma stame_admitted m : stame None m → stame None (admitted m).
Proof. intros Hm. unfold admitted. stame_go. done. Qed.

Lemma stame_finish_stream status : stame None (finish_stream status).
Proof.
  unfold finish_stream.
  stame_go; auto using stame_SendInitialMetadata, stame_metadata_failed, stame_Finish.
Qed.

Lemma stame_over : stame None over.
Proof. unfold over. stame_go. Qed.

Lemma tame_Dispatch admission submit c method context f :
  tame None (Dispatch (Response := Response) admission submit c method context f).
Proof.
  unfold Dispatch. destruct (negb _).
  { apply tame_bind; [apply tame_Finish|intros; apply tame_ret]. }
  repeat (apply tame_bind; [apply tame_SetOnCancel || apply tame_SetOnTerminal|intros _]).
  destruct (submit method); [apply tame_ret|].
  apply tame_bind; [apply stame_gate|intros _].
  apply tame_bind; [apply tame_Finish|intros; apply tame_ret].
Qed.
End AnyCall.

Lemma tame_FinishResponse p (response : Response) status es c :
  tame p (FinishResponse (W := DispatchWorld W) response status es c).
Proof.
  unfold FinishResponse. destruct (negb _); [eauto with tame|].
  destruct (SerializeToString response); [|eauto with tame].
  apply tame_bind; [eauto with tame|]. intros e. destruct (negb _); [|eauto with tame].
  apply tame_bind; eauto with tame.
Qed.

Ltac stame_run :=
  repeat first
    [ stame_step
    | apply stame_SendInitialMetadata | apply stame_metadata_failed | apply stame_Finish
    | apply stame_finish_stream | apply stame_over | apply stame_admitted ].

Lemma stame_Unary_Run {Request} state_ handler (request : Request) :
  stame None (Unary_Run state_ handler request).
Proof.
  unfold Unary_Run. cbv zeta. stame_run.
  - apply stame_run_handler. intros [].
  - apply stame_lift. unfold UnaryCall_Finish. destruct state_; simpl; [|apply tame_ret].
    apply tame_FinishResponse.
Qed.

Lemma tame_ServerStreamingCall_TryWrite p state_ (r : Response) c :
  tame p (ServerStreamingCall_TryWrite (W := DispatchWorld W) state_ r c).
Proof.
  unfold ServerStreamingCall_TryWrite. destruct state_; simpl; [|apply tame_ret].
  destruct (SerializeToString r); [eauto with tame|].
  apply tame_bind; eauto with tame.
Qed.

Lemma stame_ServerStreaming_Run {Request} state_ handler (request : Request) :
  stame None (ServerStreaming_Run state_ handler request).
Proof.
  unfold ServerStreaming_Run. cbv zeta. stame_run.
  apply stame_run_handler. intros [r]. simpl. apply stame_write.
  - intros r'. unfold ServerStreaming_TryWrite. cbv zeta. stame_run.
    apply stame_lift, tame_ServerStreamingCall_TryWrite.
  - apply stame_lift. unfold ServerStreamingCall_WaitForWritable.
    destruct state_; eauto with tame.
Qed.

Section StreamingTame.
Context {Request : Type} {MQ : Message Request} {HS : HasStream W Request}.

Lemma stame_ClientStreaming_Run state_ handler :
  stame None (ClientStreaming_Run (Request := Request) state_ handler).
Proof.
  unfold ClientStreaming_Run. cbv zeta. stame_run.
  - apply stame_run_handler. intros [b]. simpl. apply stame_Reader_Read. intros b'.
    apply stame_lift. unfold ClientStreamingCall_Read. destruct state_; eauto with tame.
  - apply stame_lift. unfold ClientStreamingCall_Finish. destruct state_; simpl; [|apply tame_ret].
    apply tame_FinishResponse.
Qed.

Lemma stame_Bidirectional_Run state_ handler :
  stame None (Bidirectional_Run (Request := Request) state_ handler).
Proof.
  unfold Bidirectional_Run. cbv zeta. stame_run.
  apply stame_run_handler. intros [b|r]; simpl.
  - apply stame_Reader_Read. intros b'.
    apply stame_lift. unfold BidirectionalStreamingCall_Read. destruct state_; eauto with tame.
  - apply stame_write.
    + intros r'. unfold Bidirectional_TryWrite. cbv zeta. stame_run.
      apply stame_lift, (tame_ServerStreamingCall_TryWrite None state_).
    + apply stame_lift. unfold BidirectionalStreamingCall_WaitForWritable.
      destruct state_; eauto with tame.
Qed.
End StreamingTame.
End SyncTame.

(** ** The messages that were written *)

#[export] Instance dispatch_world_laws {GZ : GzipSize} {W L} {WW : World W L}
    {WL : WorldLaws (WW := WW)} : WorldLaws (WW := dispatch_world (WW := WW)).
Proof.
  split; [intros c w; apply (w_call_with (WorldLaws := WL))|]. intros w [l|] w'; simpl.
  - destruct (w_step (dw_world w) l) as [w1|] eqn:E; [|done]. intros [= <-].
    by apply w_step_follows in E.
  - destruct (existsb _ _); [|done]. by intros [= <-].
Qed.

Definition sent_payload (c : StreamCommand) : option string :=
  match c with CmdSend payload _ => Some payload | _ => None end.

(** The messages given to the transport *)
Definition sent_payloads (h : list StreamCommand) : list string := omap sent_payload h.

Section Grows.
Context {GZ : GzipSize} {W L : Type} {WW : World W L} {WL : WorldLaws (WW := WW)}.

Definition history (s : ThreadState W) : list StreamCommand := tc_history (cw_transport (ts_call s)).

(** Code that only adds to what was given to the transport *)
Definition grows {A} (m : Thread W L A) : Prop := ∀ slots s a slots' s',
  m slots s = Returned a slots' s' → history s `prefix_of` history s'.

Lemma grows_ret {A} (a : A) : grows (mret a).
Proof. by intros slots s a' slots' s' [= <- <- <-]. Qed.

Lemma grows_bind {A B} (m : Thread W L A) (k : A → Thread W L B) :
  grows m → (∀ a, grows (k a)) → grows (m ≫= k).
Proof.
  intros Hm Hk slots s b slots' s'. unfold mbind, thread_bind.
  destruct (m slots s) as [a slots1 s1| |] eqn:E; try done. intros E2.
  etrans; [by eapply Hm|by eapply Hk].
Qed.

Lemma grows_heap {A} (m : heapM A) : grows (heap m).
Proof.
  intros slots s a slots' s'. unfold heap. destruct (m (ts_heap s)) as [[x h]|]; [|done].
  by intros [= <- <- <-].
Qed.

Lemma grows_operation {A} (op : TypedCallState → Code (A * TypedCallState)) : grows (operation op).
Proof.
  intros slots s a slots' s' (slot & w & -> & Hw & Ho & _)%operation_returned.
  apply w_run_follows in Hw as [_ Hw]. etrans; [apply Hw|].
  pose proof (run_op_history op (slot_turns slot) (w_call w)) as H. by rewrite Ho in H.
Qed.

Lemma well_behaved_grows {A} (m : Thread W L A) : well_behaved m → grows m.
Proof. intros H slots s a slots' s' E. by apply H in E as [_ E]. Qed.

Context {M : Type} {MM : Message M} {HS : HasStream W M}.

(** A world's request stream holds its call. *)
Class StreamLaws : Prop := {
  w_stream_call : ∀ w : W, w_call w = sw_call (w_stream w);
  w_stream_with : ∀ s (w : W), w_call (w_with_stream s w) = sw_call s }.

Context {SL : StreamLaws}.

Lemma stream_step_grows (w w' : StreamWorld (M := M)) l :
  stream_step w l = Some w' →
  tc_history (cw_transport (sw_call w)) `prefix_of` tc_history (cw_transport (sw_call w')).
Proof. intros H. by destruct (w_step_follows (WorldLaws := streaming_world_laws) w l w' H) as [_ ?]. Qed.

Lemma grows_read_take : grows (read_take (W := W)).
Proof.
  intros slots. induction slots as [|slot rest IH]; intros s a slots' s'; cbn [read_take]; [done|].
  destruct (run w_step _ _) as [w|] eqn:Hw; [|done]. apply w_run_follows in Hw as [_ Hw].
  destruct (RequestStream_Read_take _) as [[m r]|].
  - destruct (stream_step (w_stream w) SReadTake) as [w'|] eqn:E; [|done]. intros [= <- <- <-].
    apply stream_step_grows in E. unfold history, ts_call. simpl. rewrite w_stream_with.
    etrans; [apply Hw|]. by rewrite w_stream_call.
  - intros H%IH. etrans; [apply Hw|done].
Qed.

Lemma grows_read_piece {A} (f : list Turn → StreamWorld (M := M) → A * option (StreamWorld (M := M))) :
  (∀ turns w w', (f turns w).2 = Some w' →
     tc_history (cw_transport (sw_call w)) `prefix_of` tc_history (cw_transport (sw_call w'))) →
  grows (read_piece (W := W) f).
Proof.
  intros Hf slots s a slots' s'. unfold read_piece. destruct slots as [|slot rest]; [done|].
  destruct (run w_step _ _) as [w|] eqn:Hw; [|done]. apply w_run_follows in Hw as [_ Hw].
  destruct (f (slot_turns slot) (w_stream w)) as [x [w'|]] eqn:E; [|done]. intros [= <- <- <-].
  unfold history, ts_call. simpl. rewrite w_stream_with. etrans; [apply Hw|].
  rewrite w_stream_call. apply (Hf (slot_turns slot)). by rewrite E.
Qed.

Lemma grows_Read request : grows (RequestStream_Read (W := W) request).
Proof.
  unfold RequestStream_Read. destruct request; [|apply grows_ret].
  apply grows_bind; [apply grows_read_take|]. intros [m|]; [|apply grows_ret].
  apply grows_bind.
  { apply grows_read_piece. intros turns w w'. apply stream_step_grows. }
  intros []; [|apply grows_ret]. apply grows_bind; [|intros; apply grows_ret].
  apply grows_read_piece. intros turns w w'. apply stream_step_grows.
Qed.
End Grows.

Section Written.
Context {GZ : GzipSize} {W L : Type} {WW : World W L} {WL : WorldLaws (WW := WW)}.
Context {Response : Type} {MR : Message Response}.

Local Abbreviation Sync := (Sync (W := W) (L := L) (Response := Response)).
Local Abbreviation CallClass := (CallClass (W := DispatchWorld W) (L := DispatchLabel L)).

(** The messages whose [Write] returned true were given to the transport, in
    order. *)
Definition acknowledged (st : State Response) (s : ThreadState (DispatchWorld W)) : Prop :=
  ∃ payloads, Forall2 (λ r p, SerializeToString r = Some p) (st_written st) payloads ∧
    payloads `sublist_of` sent_payloads (history s).

Definition keeps {A} (m : Sync A) : Prop := ∀ st slots s a st' slots' s',
  m st slots s = Returned (a, st') slots' s' → acknowledged st s → acknowledged st' s'.

Lemma sent_payloads_prefix h h' :
  h `prefix_of` h' → sent_payloads h `sublist_of` sent_payloads h'.
Proof.
  intros [k ->]. unfold sent_payloads. rewrite omap_app. apply sublist_inserts_r. done.
Qed.

Lemma acknowledged_grows st s s' :
  history s `prefix_of` history s' → acknowledged st s → acknowledged st s'.
Proof.
  intros Hp (ps & Hs & Hps). exists ps. split; [done|]. etrans; [done|by apply sent_payloads_prefix].
Qed.

Lemma keeps_ret {A} (a : A) : keeps (mret a).
Proof. by intros st slots s a' st' slots' s' [= <- <- <- <-]. Qed.

Lemma keeps_bind {A B} (m : Sync A) (k : A → Sync B) :
  keeps m → (∀ a, keeps (k a)) → keeps (m ≫= k).
Proof.
  intros Hm Hk st slots s b st' slots' s'. unfold mbind, sync_bind, mbind, thread_bind.
  destruct (m st slots s) as [[a st1] slots1 s1| |] eqn:E; try done. simpl. intros E2 H.
  eapply Hk; [done|]. by eapply Hm.
Qed.

Lemma keeps_lift {A} (m : Thread (DispatchWorld W) (DispatchLabel L) A) : grows m → keeps (lift m).
Proof.
  intros Hm st slots s a st' slots' s'. unfold lift, mbind, thread_bind.
  destruct (m slots s) as [x slots1 s1| |] eqn:E; try done. intros [= <- <- <- <-].
  apply acknowledged_grows. by eapply Hm.
Qed.

Lemma keeps_gets {A} (f : State Response → A) : keeps (gets f).
Proof. by intros st slots s a st' slots' s' [= <- <- <- <-]. Qed.

Lemma keeps_modify (f : State Response → State Response) :
  (∀ st, st_written (f st) = st_written st) → keeps (modify f).
Proof.
  intros Hf st slots s a st' slots' s' [= <- <- <- <-]. unfold acknowledged. by rewrite Hf.
Qed.

Lemma grows_gate {A} (op : GateState → A * GateState) : grows (gate_op (W := W) (L := L) op).
Proof.
  intros slots s a slots' s'. unfold gate_op. destruct slots as [|slot rest]; [done|].
  destruct (run w_step _ _) as [w|] eqn:Hw; [|done]. apply w_run_follows in Hw as [_ Hw].
  destruct (op _). intros [= <- <- <-]. apply Hw.
Qed.

Class CallGrows (CC : CallClass) : Prop := {
  grows_cancelled : grows call_cancelled;
  grows_terminal : grows call_terminal;
  grows_SendInitialMetadata : ∀ es c, grows (call_SendInitialMetadata es c);
  grows_Finish : ∀ status es, grows (call_Finish status es) }.

#[export] Instance UnaryCall_grows state_ : CallGrows (UnaryCall state_).
Proof. destruct state_; split; simpl; intros; apply grows_operation || apply grows_ret. Qed.
#[export] Instance ServerStreamingCall_grows state_ : CallGrows (ServerStreamingCall state_).
Proof. destruct state_; split; simpl; intros; apply grows_operation || apply grows_ret. Qed.
#[export] Instance ClientStreamingCall_grows state_ : CallGrows (ClientStreamingCall state_).
Proof. destruct state_; split; simpl; intros; apply grows_operation || apply grows_ret. Qed.
#[export] Instance BidirectionalStreamingCall_grows state_ :
  CallGrows (BidirectionalStreamingCall state_).
Proof. destruct state_; split; simpl; intros; apply grows_operation || apply grows_ret. Qed.

Ltac keeps_step :=
  first
    [ match goal with |- keeps (mbind _ _) => apply keeps_bind; [|intros] end
    | apply keeps_ret
    | apply keeps_gets
    | apply keeps_modify; intros; done
    | apply keeps_lift; first
        [ apply grows_gate | apply grows_heap | apply grows_cancelled | apply grows_terminal
        | apply grows_SendInitialMetadata | apply grows_Finish | apply grows_operation
        | apply grows_ret ]
    | match goal with |- keeps (if ?b then _ else _) => destruct b end
    | match goal with |- keeps (let '(_, _) := ?x in _) => destruct x end ].

Ltac keeps_go := repeat keeps_step.

Section AnyCall.
Context {CC : CallClass} {CG : CallGrows CC}.

Lemma keeps_SendInitialMetadata : keeps SendInitialMetadata.
Proof. unfold SendInitialMetadata, with_metadata. keeps_go. Qed.

Lemma keeps_Finish status : keeps (Finish status).
Proof. unfold Finish, with_metadata. keeps_go. Qed.

Lemma keeps_metadata_failed : keeps metadata_failed.
Proof. unfold metadata_failed. keeps_go. Qed.

Lemma keeps_Reader_Read {Request} request (read_ : bool → Sync (option Request)) :
  (∀ b, keeps (read_ b)) → keeps (ServerReader_Read request read_).
Proof. intros H. unfold ServerReader_Read, ServerContext_IsCancelled. keeps_go. apply H. Qed.

Lemma keeps_finish_stream status : keeps (finish_stream status).
Proof.
  unfold finish_stream. keeps_go; apply keeps_SendInitialMetadata || apply keeps_metadata_failed
    || apply keeps_Finish.
Qed.

Lemma keeps_over : keeps over.
Proof. unfold over. keeps_go. Qed.

Lemma keeps_admitted m : keeps m → keeps (admitted m).
Proof. intros Hm. unfold admitted. keeps_go. done. Qed.

Lemma keeps_run_handler {Op} {Res : Op → Type} {A} (stream : ∀ op, Sync (Res op)) (h : Handler Res A) :
  (∀ op, keeps (stream op)) → keeps (run_handler stream h).
Proof.
  intros Hs. induction h; cbn [run_handler]; unfold on_context, ServerContext_IsCancelled;
    keeps_go; auto.
Qed.

(** [try_write_] gives the message to the transport when it succeeds. *)
Definition delivers (try_write_ : Response → Sync Error) : Prop :=
  ∀ r st slots s e st' slots' s',
    try_write_ r st slots s = Returned (e, st') slots' s' → acknowledged st s → Error_ok e = true →
    acknowledged (st' <| st_written := st_written st' ++ [r] |>) s'.

Lemma Write_loop_acknowledged n try_write_ wait r st slots s b st' slots' s' :
  (∀ r, keeps (try_write_ r)) → delivers try_write_ → keeps wait →
  Write_loop n try_write_ wait r st slots s = Returned (b, st') slots' s' → acknowledged st s →
  acknowledged (if b : bool then st' <| st_written := st_written st' ++ [r] |> else st') s'.
Proof.
  intros Ht Hd Hw. revert st slots s. induction n as [|n IH]; intros st slots s; [done|].
  cbn [Write_loop]. unfold mbind at 1, sync_bind, mbind at 1, thread_bind.
  destruct (ServerContext_IsCancelled st slots s) as [[[] st1] slots1 s1| |] eqn:E1; try done.
  { intros [= <- <- <- <-]. apply (keeps_lift _ grows_cancelled _ _ _ _ _ _ _ E1). }
  simpl. intros H Ha. apply (keeps_lift _ grows_cancelled _ _ _ _ _ _ _ E1) in Ha.
  revert H. unfold mbind at 1, sync_bind, mbind at 1, thread_bind.
  destruct (try_write_ r st1 slots1 s1) as [[e st2] slots2 s2| |] eqn:E2; try done. simpl.
  destruct (Error_ok e) eqn:He.
  { intros [= <- <- <- <-]. by eapply Hd. }
  apply (Ht r _ _ _ _ _ _ _ E2) in Ha.
  destruct (negb (Error_is e _)); [by intros [= <- <- <- <-]|].
  unfold mbind at 1, sync_bind, mbind at 1, thread_bind.
  destruct (wait st2 slots2 s2) as [[[] st3] slots3 s3| |] eqn:E3; try done; simpl.
  - intros H. apply (IH _ _ _ H). by eapply Hw.
  - intros [= <- <- <- <-]. by eapply Hw.
Qed.

Lemma keeps_write try_write_ wait r :
  (∀ r, keeps (try_write_ r)) → delivers try_write_ → keeps wait → keeps (write try_write_ wait r).
Proof.
  intros Ht Hd Hw st slots s b st' slots' s'. unfold write, ServerWriter_Write.
  unfold mbind at 1, sync_bind, mbind at 1, thread_bind.
  destruct (Write_loop _ _ _ _ _ _ _) as [[b1 st1] slots1 s1| |] eqn:E; try done.
  intros [= <- <- <- <-] Ha.
  pose proof (Write_loop_acknowledged _ _ _ _ _ _ _ _ _ _ _ Ht Hd Hw E Ha) as H.
  by destruct b1.
Qed.
End AnyCall.

(** Both [TryWrite]s are this. *)
Definition try_write {CC : CallClass} (send : Response → Compression →
    Thread (DispatchWorld W) (DispatchLabel L) Error) (response : Response) : Sync Error :=
  initial_metadata_sent ← gets st_initial_metadata_sent;
  error ← (if negb initial_metadata_sent then
             error ← SendInitialMetadata;
             if negb (Error_ok error) then mret error
             else _ ← modify (λ st, st <| st_initial_metadata_sent := true |>); mret error
           else mret Error_default);
  if negb (Error_ok error) then mret error
  else
    context ← gets st_context;
    lift (send response (NativeCompression (sc_compression context))).

Lemma TryWrite_ok state_ (r : Response) c slots (s : ThreadState (DispatchWorld W)) e slots' s' :
  ServerStreamingCall_TryWrite state_ r c slots s = Returned e slots' s' → Error_ok e = true →
  ∃ payload h, SerializeToString r = Some payload ∧ history s `prefix_of` h ∧
    history s' = h ++ [CmdSend payload c].
Proof.
  unfold ServerStreamingCall_TryWrite. destruct state_; simpl; [|by intros [= <- <- <-]].
  destruct (SerializeToString r) as [payload|].
  - intros E He. destruct (operation_Send_ok _ _ _ _ _ _ _ E He) as (h & Hp & Hh).
    by exists payload, h.
  - unfold mbind, thread_bind. destruct (operation _ slots s) as [fe slots1 s1| |]; try done.
    intros [= <- <- <-]. by destruct (Error_ok fe) eqn:Ef; [|rewrite Ef].
Qed.

Lemma grows_TryWrite state_ (r : Response) c :
  grows (W := DispatchWorld W) (ServerStreamingCall_TryWrite state_ r c).
Proof.
  unfold ServerStreamingCall_TryWrite. destruct state_; simpl; [|apply grows_ret].
  destruct (SerializeToString r); [apply grows_operation|].
  apply grows_bind; [apply grows_operation|intros; apply grows_ret].
Qed.

Lemma keeps_try_write {CC : CallClass} {CG : CallGrows CC} state_ r :
  keeps (try_write (ServerStreamingCall_TryWrite state_) r).
Proof.
  unfold try_write. keeps_go; [apply keeps_SendInitialMetadata|].
  apply keeps_lift, grows_TryWrite.
Qed.

Lemma delivers_try_write {CC : CallClass} {CG : CallGrows CC} state_ :
  delivers (try_write (ServerStreamingCall_TryWrite state_)).
Proof.
  intros r st slots s e st' slots' s'. unfold try_write.
  unfold mbind at 1, sync_bind, mbind at 1, thread_bind, gets at 1. simpl.
  unfold mbind at 1, sync_bind, mbind at 1, thread_bind.
  set (m := if negb _ then _ else _). intros E Ha He.
  assert (Hm : keeps m).
  { unfold m. destruct (negb _); keeps_go. apply keeps_SendInitialMetadata. }
  destruct (m st slots s) as [[e1 st1] slots1 s1| |] eqn:E1; try done. simpl in E.
  apply (Hm _ _ _ _ _ _ _ E1) in Ha as (ps & Hps & Hsub).
  destruct (Error_ok e1) eqn:He1; simpl in E; [|injection E as <- <- <- <-; congruence].
  revert E. unfold lift, mbind, thread_bind. simpl.
  destruct (ServerStreamingCall_TryWrite _ _ _ _ _) as [x slots2 s2| |] eqn:E2; try done.
  intros [= <- <- <- <-]. destruct (TryWrite_ok _ _ _ _ _ _ _ _ E2 He) as (p & h & Hp & Hh & Hh').
  exists (ps ++ [p]). simpl. split; [by apply Forall2_app; [|repeat constructor]|].
  rewrite Hh'. unfold sent_payloads. rewrite omap_app. apply sublist_app; [|done].
  etrans; [done|by apply sent_payloads_prefix].
Qed.

Lemma grows_WaitForWritable state_ :
  grows (W := DispatchWorld W) (ServerStreamingCall_WaitForWritable state_).
Proof.
  unfold ServerStreamingCall_WaitForWritable. destruct state_; [|apply grows_ret].
  apply well_behaved_grows, well_behaved_wait.
Qed.

Lemma keeps_ServerStreaming_Run {Request} state_ handler (request : Request) :
  keeps (ServerStreaming_Run state_ handler request).
Proof.
  unfold ServerStreaming_Run. cbv zeta. apply keeps_admitted. keeps_go.
  - apply keeps_run_handler. intros [r]. simpl.
    apply keeps_write; [apply (keeps_try_write state_)|apply (delivers_try_write state_)|].
    apply keeps_lift, grows_WaitForWritable.
  - apply keeps_finish_stream.
Qed.

Lemma keeps_Bidirectional_Run {Request} {MQ : Message Request} {HS : HasStream W Request}
    {SL : StreamLaws (W := DispatchWorld W) (M := Request)} state_ handler :
  keeps (Bidirectional_Run (Request := Request) state_ handler).
Proof.
  unfold Bidirectional_Run. cbv zeta. apply keeps_admitted. keeps_go.
  - apply keeps_run_handler. intros [b|r]; simpl.
    + apply keeps_Reader_Read. intros b'. apply keeps_lift.
      unfold BidirectionalStreamingCall_Read. destruct state_; [apply grows_Read|apply grows_ret].
    + apply keeps_write; [apply (keeps_try_write state_)|apply (delivers_try_write state_)|].
      apply keeps_lift. apply (grows_WaitForWritable state_).
  - apply keeps_over.
  - apply keeps_finish_stream.
Qed.
End Written.

(** ** An undisturbed call *)

Section Undisturbed.
Context {GZ : GzipSize}.

(** A call on which nothing has gone wrong; [sent] is whether its initial metadata
    went out, with [chosen] as the compression the peer agreed to. *)
Record open_call (sent : bool) (chosen : Compression) (c : CallWorld) : Prop := {
  oc_call : tcs_call (cw_state c) = true;
  oc_cancelled : tcs_cancelled (cw_state c) = false;
  oc_terminal : tcs_terminal (cw_state c) = false;
  oc_finish : tcs_finish_submitted (cw_state c) = false;
  oc_sent : tcs_initial_metadata_sent (cw_state c) = sent;
  oc_target : tc_target (cw_transport c) = true;
  oc_peer : tc_cancelled (cw_transport c) = false;
  oc_open : call_closed (cw_transport c) = false;
  oc_explicit : tc_explicit (cw_transport c) = true;
  oc_headers : tc_response_headers_queued (cw_transport c) = sent;
  oc_chosen : tc_response_compression (cw_transport c) = chosen }.

Lemma quiet_SendInitialMetadata es comp chosen c :
  open_call false chosen c →
  ∃ c', run_op (TypedCallState_SendInitialMetadata es comp) [] c = (Error_default, c') ∧
    open_call true (if tc_accepts_response_gzip (cw_transport c) then comp else Identity) c' ∧
    tc_history (cw_transport c') = tc_history (cw_transport c) ++ [CmdInitialMetadata es comp] ∧
    tc_limits (cw_transport c') = tc_limits (cw_transport c) ∧
    tc_accepts_response_gzip (cw_transport c') = tc_accepts_response_gzip (cw_transport c) ∧
    tc_outbound_reserved_bytes (cw_transport c') = tc_outbound_reserved_bytes (cw_transport c).
Proof.
  intros [H1 H2 H3 H4 H5 H6 H7 H8 H9 H10 H11]. unfold run_op, TypedCallState_SendInitialMetadata.
  rewrite H3, H4, H5, H1. simpl. unfold ServerCall_SendInitialMetadata. simpl.
  unfold grpc_lite_server_call_send_initial_metadata. rewrite parseCompression_value. simpl.
  unfold serverCallSendInitialMetadata. simpl. rewrite H6, H8, H9, H10. simpl.
  eexists. split; [reflexivity|]. split_and!; try done. split; simpl; try done.
  by destruct (tc_accepts_response_gzip (cw_transport c)), comp.
Qed.

Lemma quiet_Send payload comp c :
  open_call true (if tc_accepts_response_gzip (cw_transport c) then comp else Identity) c →
  tc_outbound_reserved_bytes (cw_transport c) = 0 →
  zlen payload ≤ max_message_size (tc_limits (cw_transport c)) →
  body_size payload comp ≤ u32_max →
  encoded_size payload comp ≤ max_outbound_buffer_size (tc_limits (cw_transport c)) ≤ usize_max →
  (comp = Gzip → tc_accepts_response_gzip (cw_transport c) = true) →
  ∃ c' chosen, run_op (TypedCallState_Send payload comp) [] c = (Error_default, c') ∧
    open_call true chosen c' ∧
    tc_history (cw_transport c') = tc_history (cw_transport c) ++ [CmdSend payload comp].
Proof.
  intros [H1 H2 H3 H4 H5 H6 H7 H8 H9 H10 H11] Hr Hm Hb [He Hu] Hg.
  assert (Hc : checkRetainedSendLocked (cw_transport c) comp = None).
  { unfold checkRetainedSendLocked. rewrite H8, H10, H9, H11. destruct comp; [done|].
    by rewrite (Hg eq_refl). }
  assert (Hcap : checkOutboundCapacityLocked (encoded_size payload comp) (cw_transport c) =
                 (None, cw_transport c)).
  { unfold checkOutboundCapacityLocked. rewrite Hr, !Z.gtb_ltb.
    pose proof (zlen_nonneg payload). pose proof (gzip_size_nonneg payload).
    assert (0 ≤ encoded_size payload comp)
      by (unfold encoded_size, header_size, body_size; destruct comp; lia).
    rewrite !(proj2 (Z.ltb_ge _ _)) by lia. done. }
  unfold run_op, TypedCallState_Send, TypedCallState_EnsureInitialMetadata.
  rewrite H3, H4, H5. simpl. rewrite H1. unfold ServerCall_Send. simpl.
  unfold grpc_lite_server_call_send. rewrite bytes_Bytes, parseCompression_value. simpl.
  unfold serverCallSend_check. rewrite Z.gtb_ltb, (proj2 (Z.ltb_ge _ _)) by lia.
  rewrite H6, Hc. simpl.
  assert (Hcheck : match comp with
    | Identity => match add_usize (zlen payload) header_size with
                  | Some size => checkOutboundCapacityLocked size (cw_transport c)
                  | None => (Some SE_MessageTooLarge, cw_transport c) end
    | Gzip => (None, cw_transport c) end = (None, cw_transport c)).
  { destruct comp; [|done]. unfold add_usize.
    unfold encoded_size, body_size in *. rewrite Z.add_comm.
    by rewrite (proj2 (Z.leb_le _ _)) by lia. }
  rewrite Hcheck. simpl. unfold serverCallSend_commit, encodeWithCompression. simpl.
  rewrite Z.gtb_ltb, (proj2 (Z.ltb_ge _ _)) by lia. rewrite H6, Hc, Hcap. simpl.
  eexists _, (if tc_accepts_response_gzip (cw_transport c) then comp else Identity).
  split; [reflexivity|]. split; [|by destruct comp]. by destruct comp; split.
Qed.

Lemma quiet_Finish status es chosen c :
  open_call true chosen c → 0 ≤ status_code status ≤ 16 →
  ∃ c', run_op (TypedCallState_Finish status es) [] c = (Error_default, c') ∧
    tc_history (cw_transport c') = tc_history (cw_transport c) ++
      [CmdFinish (status_code status) (status_message status) es].
Proof.
  intros [H1 H2 H3 H4 H5 H6 H7 H8 H9 H10 H11] Hs.
  unfold run_op, TypedCallState_Finish, TypedCallState_EnsureInitialMetadata.
  rewrite H3, H4, H5. simpl. rewrite H1. unfold ServerCall_Finish. simpl.
  unfold grpc_lite_server_call_finish. rewrite bytes_Bytes, cast_u32_small by (unfold in_u32, u32_max; lia).
  rewrite Z.gtb_ltb, (proj2 (Z.ltb_ge _ _)) by lia. simpl.
  unfold serverCallFinish. simpl. rewrite H6, H8, H10. simpl. eexists. by split.
Qed.

Lemma quiet_cancelled sent chosen c :
  open_call sent chosen c →
  run_op (λ s, a ← TypedCallState_cancelled s; Done (a, s)) [] c = (false, c).
Proof.
  intros [H1 H2 H3 H4 H5 H6 H7 H8 H9 H10 H11]. unfold run_op, TypedCallState_cancelled.
  rewrite H2. unfold ServerCall_cancelled. rewrite H1. simpl. rewrite H7. by destruct c.
Qed.

Context {Response : Type} {MR : Message Response}.

Local Abbreviation Sync := (Sync (W := CallWorld) (L := CallLabel) (Response := Response)).

(** A slot in which nothing else runs *)
Definition idle : Slot (DispatchLabel CallLabel) := mkSlot [] [].

Definition quiet_state (f : nat) (g : GateState) (h : MetadataHeap) (c : CallWorld)
  : ThreadState (DispatchWorld CallWorld) :=
  mkThreadState (mkDispatchWorld c f g) h.

(** A heap without memory pressure *)
Definition roomy (h : MetadataHeap) : Prop := heap_ok h ∧ mh_allocations h = [].

Lemma operation_idle {A} (op : TypedCallState → Code (A * TypedCallState)) rest f g h c a c' :
  run_op op [] c = (a, c') →
  operation op (idle :: rest) (quiet_state f g h c) = Returned a rest (quiet_state f g h c').
Proof. intros E. unfold operation, quiet_state. simpl. by rewrite E. Qed.

Lemma gate_op_idle {A} (op : GateState → A * GateState) rest f g h c :
  gate_op op (idle :: rest) (quiet_state f g h c) =
  Returned (op g).1 rest (quiet_state f (op g).2 h c).
Proof. unfold gate_op, quiet_state. simpl. by destruct (op g). Qed.

Lemma lift_returned {A} (m : Thread (DispatchWorld CallWorld) (DispatchLabel CallLabel) A) (st : State Response) slots
    (s : ThreadState (DispatchWorld CallWorld)) a slots' s' :
  m slots s = Returned a slots' s' → (lift m : Sync A) st slots s = Returned (a, st) slots' s'.
Proof. intros E. unfold lift, mbind, thread_bind. by rewrite E. Qed.

Lemma bind_returned {A B} (m : Sync A) (k : A → Sync B) st slots s a st1 slots1 s1 :
  m st slots s = Returned (a, st1) slots1 s1 →
  (m ≫= k) st slots s = k a st1 slots1 s1.
Proof. intros E. unfold mbind, sync_bind, mbind, thread_bind. by rewrite E. Qed.

(** A scope with metadata that can be copied *)
Lemma quiet_with_metadata {A} es (k : Error → ptr → Sync A) st st' slots slots' f g h c c' a :
  roomy h → forallb valid_entry es = true →
  (∀ n h1, mh_objects h1 !! n = Some es →
     k Error_default (Some n) st slots (quiet_state f g h1 c) =
     Returned (a, st') slots' (quiet_state f g h1 c')) →
  ∃ h', roomy h' ∧
    with_metadata es k st slots (quiet_state f g h c) = Returned (a, st') slots' (quiet_state f g h' c').
Proof.
  intros [Hok Hal] Hv Hk.
  destruct (CopyMetadata_scope h es Hok) as (e & p & h1 & Hc & Hp & He & h2 & Hd & Hok2 & _ & Hal2).
  destruct (He Hv Hal) as [-> Hal1]. destruct (Hp eq_refl) as (n & -> & Hn).
  exists h2. split; [split; [done|by rewrite Hal2]|]. unfold with_metadata.
  rewrite (bind_returned _ _ _ _ _ (Error_default, Some n) st slots (quiet_state f g h1 c)).
  2: { apply lift_returned. unfold heap, Metadata_default. simpl. by rewrite Hc. }
  rewrite (bind_returned _ _ _ _ _ _ _ _ _ (Hk n h1 Hn)).
  rewrite (bind_returned _ _ _ _ _ () st' slots' (quiet_state f g h2 c')); [done|].
  apply lift_returned. unfold heap. cbn [ts_heap quiet_state snd]. by rewrite Hd.
Qed.

Lemma entries_quiet es n (st : State Response) slots f g h c :
  mh_objects h !! n = Some es →
  (lift (heap (metadata_entries (Some n))) : Sync entries) st slots (quiet_state f g h c) =
  Returned (es, st) slots (quiet_state f g h c).
Proof.
  intros Hn. apply lift_returned. unfold heap. simpl. unfold metadataStorage. by rewrite Hn.
Qed.

Lemma quiet_send_metadata (st : State Response) c chosen :
  forallb valid_entry (sc_initial_metadata (st_context st)) = true →
  open_call false chosen c →
  let comp := NativeCompression (sc_compression (st_context st)) in
  ∃ c',
    (∀ f g h rest, roomy h → ∃ h', roomy h' ∧
      SendInitialMetadata (CC := UnaryCall true) st (idle :: rest) (quiet_state f g h c) =
      Returned (Error_default, st) rest (quiet_state f g h' c')) ∧
    open_call true (if tc_accepts_response_gzip (cw_transport c) then comp else Identity) c' ∧
    tc_history (cw_transport c') = tc_history (cw_transport c) ++
      [CmdInitialMetadata (sc_initial_metadata (st_context st)) comp] ∧
    tc_limits (cw_transport c') = tc_limits (cw_transport c) ∧
    tc_accepts_response_gzip (cw_transport c') = tc_accepts_response_gzip (cw_transport c) ∧
    tc_outbound_reserved_bytes (cw_transport c') = tc_outbound_reserved_bytes (cw_transport c).
Proof.
  intros Hv Hc comp.
  destruct (quiet_SendInitialMetadata (sc_initial_metadata (st_context st)) comp chosen c Hc)
    as (c' & Hrun & Hrest).
  exists c'. split; [|done]. intros f g h rest Hh.
  destruct (quiet_with_metadata (sc_initial_metadata (st_context st)) (λ error metadata,
      if negb (Error_ok error) then mret error
      else
        es ← lift (heap (metadata_entries metadata));
        lift (call_SendInitialMetadata (CallClass := UnaryCall true) es comp))
      st st (idle :: rest) rest f g h c c' Error_default Hh Hv) as (h' & Hh' & E).
  { intros n h1 Hn. simpl. rewrite (bind_returned _ _ _ _ _ _ _ _ _ (entries_quiet _ _ _ _ _ _ _ _ Hn)).
    apply lift_returned. by apply operation_idle. }
  by exists h'.
Qed.

Lemma quiet_finish_status (st : State Response) status c chosen :
  forallb valid_entry (sc_trailing_metadata (st_context st)) = true →
  open_call true chosen c →
  ∃ c',
    (∀ f g h rest, roomy h → ∃ h', roomy h' ∧
      Finish (CC := UnaryCall true) status st (idle :: rest) (quiet_state f g h c) =
      Returned (Error_default, st) rest (quiet_state f g h' c')) ∧
    tc_history (cw_transport c') = tc_history (cw_transport c) ++
      [CmdFinish (grpc_StatusCode_value (gs_code status)) (gs_message status)
         (sc_trailing_metadata (st_context st))].
Proof.
  intros Hv Hc.
  destruct (quiet_Finish (server_NativeStatus status) (sc_trailing_metadata (st_context st)) chosen c Hc)
    as (c' & Hrun & Hhist); [apply grpc_StatusCode_value_range|].
  exists c'. split; [|done]. intros f g h rest Hh.
  destruct (quiet_with_metadata (sc_trailing_metadata (st_context st)) (λ error trailing,
      if negb (Error_ok error)
      then lift (call_Finish (CallClass := UnaryCall true) (mkStatus StatusCode.Internal "failed to copy metadata") [])
      else
        es ← lift (heap (metadata_entries trailing));
        lift (call_Finish (CallClass := UnaryCall true) (server_NativeStatus status) es))
      st st (idle :: rest) rest f g h c c' Error_default Hh Hv) as (h' & Hh' & E).
  { intros n h1 Hn. simpl. rewrite (bind_returned _ _ _ _ _ _ _ _ _ (entries_quiet _ _ _ _ _ _ _ _ Hn)).
    apply lift_returned. by apply operation_idle. }
  by exists h'.
Qed.

(** What a unary handler does when nobody cancels the call: its result and the
    context it leaves. *)
Fixpoint handler_result {A} (h : Handler NoRes A) (context : ServerContext) : A * ServerContext :=
  match h with
  | HReturn a => (a, context)
  | HClientMetadata k => handler_result (k (sc_client_metadata context)) context
  | HIsCancelled k => handler_result (k false) context
  | HAddInitialMetadata key value k => handler_result k (AddInitialMetadata key value context)
  | HAddTrailingMetadata key value k => handler_result k (AddTrailingMetadata key value context)
  | HSetCompression algorithm k => handler_result k (set_compression_algorithm algorithm context)
  | HStream op _ => match op with end
  end.

(** The response to a call, from what the handler returned and left in its
    context *)
Definition unary_response (status : grpc_Status) (response : Response) (context : ServerContext)
  : list StreamCommand :=
  let compression := NativeCompression (sc_compression context) in
  let trailing := sc_trailing_metadata context in
  CmdInitialMetadata (sc_initial_metadata context) compression ::
  if grpc_Status_ok status then
    match SerializeToString response with
    | Some payload => [CmdSend payload compression; CmdFinish StatusCode.Ok "" trailing]
    | None => [CmdFinish StatusCode.Internal "failed to serialize response" trailing]
    end
  else [CmdFinish (grpc_StatusCode_value (gs_code status)) (gs_message status) trailing].

(** The transport can take it: its metadata is well formed, and the message is
    within the limits and in a compression the peer accepts. *)
Definition sendable (l : Limits) (accepts_gzip : bool) (c : StreamCommand) : Prop :=
  match c with
  | CmdInitialMetadata es _ => forallb valid_entry es = true
  | CmdSend payload comp =>
      zlen payload ≤ max_message_size l ∧ body_size payload comp ≤ u32_max ∧
      encoded_size payload comp ≤ max_outbound_buffer_size l ≤ usize_max ∧
      (comp = Gzip → accepts_gzip = true)
  | CmdFinish _ _ es => forallb valid_entry es = true
  | CmdResumeReceive => True
  end.

Lemma quiet_handler {A} (h : Handler NoRes A) (st : State Response) c sent chosen :
  open_call sent chosen c →
  ∃ n, ∀ f g hp rest,
    run_handler (CC := UnaryCall true) unary_stream h st (replicate n idle ++ rest)
      (quiet_state f g hp c) =
    Returned ((handler_result h (st_context st)).1,
              st <| st_context := (handler_result h (st_context st)).2 |>) rest
      (quiet_state f g hp c).
Proof.
  intros Hc. revert st. induction h as [a|k IH|k IH|key value k IH|key value k IH|al k IH|[]]; intros st.
  - exists 0%nat. intros f g hp rest. by destruct st.
  - destruct (IH (sc_client_metadata (st_context st)) st) as [n Hn]. exists n. intros f g hp rest.
    apply Hn.
  - destruct (IH false st) as [n Hn]. exists (S n). intros f g hp rest. cbn [run_handler].
    rewrite (bind_returned _ _ _ _ _ false st (replicate n idle ++ rest) (quiet_state f g hp c));
      [apply Hn|].
    apply lift_returned, (operation_idle (λ s, a ← TypedCallState_cancelled s; Done (a, s))).
    by eapply quiet_cancelled.
  - destruct (IH (st <| st_context := AddInitialMetadata key value (st_context st) |>)) as [n Hn].
    exists n. intros f g hp rest. apply Hn.
  - destruct (IH (st <| st_context := AddTrailingMetadata key value (st_context st) |>)) as [n Hn].
    exists n. intros f g hp rest. apply Hn.
  - destruct (IH (st <| st_context := set_compression_algorithm al (st_context st) |>)) as [n Hn].
    exists n. intros f g hp rest. apply Hn.
Qed.

(** [UnaryCall::Finish] with a response *)
Lemma quiet_FinishResponse (response : Response) es comp c :
  open_call true (if tc_accepts_response_gzip (cw_transport c) then comp else Identity) c →
  tc_outbound_reserved_bytes (cw_transport c) = 0 →
  (∀ payload, SerializeToString response = Some payload →
     sendable (tc_limits (cw_transport c)) (tc_accepts_response_gzip (cw_transport c))
       (CmdSend payload comp)) →
  ∃ n c',
    tc_history (cw_transport c') = tc_history (cw_transport c) ++
      match SerializeToString response with
      | Some payload => [CmdSend payload comp; CmdFinish StatusCode.Ok "" es]
      | None => [CmdFinish StatusCode.Internal "failed to serialize response" es]
      end ∧
    ∀ f g h rest,
      UnaryCall_Finish true response Status_default es comp (replicate n idle ++ rest)
        (quiet_state f g h c) =
      Returned Error_default rest (quiet_state f g h c').
Proof.
  intros Hc Hr Hs. unfold UnaryCall_Finish, FinishResponse. simpl.
  destruct (SerializeToString response) as [payload|].
  - destruct (Hs payload eq_refl) as (H1 & H2 & H3 & H4).
    destruct (quiet_Send payload comp c Hc Hr H1 H2 H3 H4) as (c1 & chosen & E1 & Hc1 & Hh1).
    destruct (quiet_Finish Status_default es chosen c1 Hc1) as (c2 & E2 & Hh2); [done|].
    exists 2%nat, c2. split; [by rewrite Hh2, Hh1, <- app_assoc|]. intros f g h rest.
    unfold mbind, thread_bind. simpl replicate. cbn [app].
    rewrite (operation_idle _ _ _ _ _ _ _ _ E1).
    exact (operation_idle _ _ _ _ _ _ _ _ E2).
  - destruct (quiet_Finish serialize_failed es _ c Hc) as (c2 & E2 & Hh2); [done|].
    exists 1%nat, c2. split; [done|]. intros f g h rest. simpl replicate. cbn [app].
    exact (operation_idle _ _ _ _ _ _ _ _ E2).
Qed.

(** The rest of [Run] after the handler has returned *)
Lemma quiet_respond status response (st : State Response) c :
  open_call true (if tc_accepts_response_gzip (cw_transport c)
                            then NativeCompression (sc_compression (st_context st)) else Identity) c →
  tc_outbound_reserved_bytes (cw_transport c) = 0 →
  Forall (sendable (tc_limits (cw_transport c)) (tc_accepts_response_gzip (cw_transport c)))
    (unary_response status response (st_context st)) →
  ∃ n c',
    tc_history (cw_transport c') =
      tc_history (cw_transport c) ++ tail (unary_response status response (st_context st)) ∧
    ∀ f g h rest, roomy h → ∃ h', roomy h' ∧
      (if grpc_Status_ok status then
         context ← gets st_context;
         with_metadata (sc_trailing_metadata context) (λ trailing_error trailing,
           _ ← (if negb (Error_ok trailing_error)
                then lift (call_Finish (CallClass := UnaryCall true)
                       (mkStatus StatusCode.Internal "failed to copy metadata") [])
                else
                  es ← lift (heap (metadata_entries trailing));
                  lift (UnaryCall_Finish true response Status_default es
                          (NativeCompression (sc_compression context))));
           mret ())
       else _ ← Finish (CC := UnaryCall true) status; mret ())
        st (replicate n idle ++ rest) (quiet_state f g h c) =
      Returned ((), st) rest (quiet_state f g h' c').
Proof.
  intros Hc Hr Hs. unfold unary_response in *. destruct (grpc_Status_ok status); simpl in Hs |- *.
  - assert (Hv : forallb valid_entry (sc_trailing_metadata (st_context st)) = true).
    { destruct (SerializeToString response); by decompose_Forall. }
    destruct (quiet_FinishResponse response (sc_trailing_metadata (st_context st))
      (NativeCompression (sc_compression (st_context st))) c Hc Hr) as (n & c' & Hh' & Hrun).
    { intros payload Hp. rewrite Hp in Hs. by decompose_Forall. }
    exists n, c'. split; [done|]. intros f g h rest Hh.
    apply quiet_with_metadata; [done|done|]. intros m h1 Hm. simpl.
    erewrite bind_returned; [reflexivity|].
    rewrite (bind_returned _ _ _ _ _ _ _ _ _ (entries_quiet _ _ _ _ _ _ _ _ Hm)).
    apply lift_returned, Hrun.
  - decompose_Forall.
    destruct (quiet_finish_status st status c _ ltac:(done) Hc) as (c' & Hrun & Hhist).
    exists 1%nat, c'. split; [done|]. intros f g h rest Hh.
    destruct (Hrun f g h rest Hh) as (h' & Hh' & E).
    exists h'. split; [done|]. by rewrite (bind_returned _ _ _ _ _ _ _ _ _ E).
Qed.

Lemma quiet_Unary_Run {Request} (handler : Request → Handler NoRes (grpc_Status * Response))
    request (st : State Response) c status response context :
  open_call false Identity c → tc_outbound_reserved_bytes (cw_transport c) = 0 →
  handler_result (handler request) (st_context st) = ((status, response), context) →
  Forall (sendable (tc_limits (cw_transport c)) (tc_accepts_response_gzip (cw_transport c)))
    (unary_response status response context) →
  ∃ n c',
    tc_history (cw_transport c') =
      tc_history (cw_transport c) ++ unary_response status response context ∧
    ∀ f h rest, roomy h → ∃ h', roomy h' ∧
      Unary_Run true handler request st (replicate n idle ++ rest) (quiet_state f Queued h c) =
      Returned ((), st <| st_context := context |>) rest (quiet_state f Running h' c').
Proof.
  intros Hc Hr Hres Hs. set (st1 := st <| st_context := context |>).
  destruct (quiet_handler (handler request) st c false Identity Hc) as [n1 H1].
  rewrite Hres in H1. simpl in H1. fold st1 in H1.
  assert (Hv : forallb valid_entry (sc_initial_metadata (st_context st1)) = true)
    by (unfold unary_response in Hs; by decompose_Forall).
  destruct (quiet_send_metadata st1 c Identity Hv Hc) as (c2 & H2 & Hc2 & Hh2 & Hl2 & Hg2 & Hr2).
  rewrite <- Hl2, <- Hg2 in Hs. rewrite <- Hg2 in Hc2. rewrite <- Hr2 in Hr.
  destruct (quiet_respond status response st1 c2 Hc2 Hr Hs) as (n3 & c3 & Hh3 & H3).
  exists (2 + (n1 + (1 + (1 + n3))))%nat, c3.
  split; [by rewrite Hh3, Hh2, <- app_assoc|]. intros f h rest Hh.
  rewrite !replicate_add, <- !app_assoc. simpl replicate. cbn [app].
  destruct (H2 f Running h (replicate n3 idle ++ rest) Hh) as (h2 & Hr2' & E2).
  destruct (H3 f Running h2 rest Hr2') as (h3 & Hr3 & E3).
  exists h3. split; [done|]. unfold Unary_Run, admitted. cbv zeta.
  erewrite bind_returned by apply lift_returned, gate_op_idle.
  cbn [negb BeginStart compare_exchange_strong compare_exchange]. simpl.
  erewrite bind_returned by apply lift_returned, gate_op_idle. simpl.
  erewrite bind_returned by apply H1. simpl.
  erewrite bind_returned by (apply lift_returned, operation_idle; by eapply quiet_cancelled).
  simpl. erewrite bind_returned by apply E2. exact E3.
Qed.
End Undisturbed.

(** ** The loop of [Write] and its fuel *)

Section WriteFuel.
Context {GZ : GzipSize} {W L : Type} {WW : World W L} {WL : WorldLaws (WW := WW)}.
Context {Response : Type} {MR : Message Response}.

Local Abbreviation Sync := (Sync (W := W) (L := L) (Response := Response)).

Definition sconsumes {A} (m : Sync A) (n : nat) : Prop := ∀ st, consumes (m st) n.

Lemma sconsumes_bind {A B} (m : Sync A) (k : A → Sync B) n1 n2 :
  sconsumes m n1 → (∀ a, sconsumes (k a) n2) → sconsumes (m ≫= k) (n1 + n2).
Proof. intros Hm Hk st. apply consumes_bind; [apply Hm|]. intros r. apply Hk. Qed.

Lemma sconsumes_lift {A} m n : consumes m n → sconsumes (A := A) (lift m) n.
Proof.
  intros Hm st. rewrite <- (Nat.add_0_r n). apply consumes_bind; [done|].
  intros a. apply consumes_ret.
Qed.

Lemma sconsumes_zero {A} (m : Sync A) n : sconsumes m n → sconsumes m 0.
Proof. intros Hm st slots s a slots' s' E. apply Hm in E. lia. Qed.

Lemma consumes_heap {A} (m : heapM A) : consumes (W := DispatchWorld W) (L := DispatchLabel L) (heap m) 0.
Proof.
  intros slots s a slots' s'. unfold heap. destruct (m (ts_heap s)) as [[x h]|]; [|done].
  intros [= <- <- <-]. lia.
Qed.

Ltac sconsumes_step :=
  first
    [ match goal with |- sconsumes (mbind _ _) 0 =>
        apply (sconsumes_bind _ _ 0 0); [|intros] end
    | intros ?; apply consumes_ret
    | apply sconsumes_lift; apply consumes_heap
    | eapply sconsumes_zero, sconsumes_lift; apply consumes_operation
    | match goal with |- sconsumes (if ?b then _ else _) 0 => destruct b end ].

Lemma sconsumes_TryWrite (r : Response) : sconsumes (ServerStreaming_TryWrite true r) 0.
Proof.
  unfold ServerStreaming_TryWrite, SendInitialMetadata, with_metadata. cbv zeta.
  repeat sconsumes_step. apply sconsumes_lift. unfold ServerStreamingCall_TryWrite. simpl.
  destruct (SerializeToString r) as [payload|].
  - intros slots s a' slots' s' E. apply consumes_operation in E. lia.
  - apply (consumes_bind _ _ 0 0); [|intros; apply consumes_ret].
    intros slots s a' slots' s' E. apply consumes_operation in E. lia.
Qed.

(** Every iteration takes a slot, so that fuel beyond the schedule changes
    nothing. *)
Lemma Write_loop_fuel (r : Response) n1 n2 st slots (s : ThreadState (DispatchWorld W)) :
  (length slots < n1)%nat → (length slots < n2)%nat →
  Write_loop (W := W) (CC := ServerStreamingCall true) n1 (ServerStreaming_TryWrite true)
    (lift (ServerStreamingCall_WaitForWritable true)) r st slots s =
  Write_loop (W := W) (CC := ServerStreamingCall true) n2 (ServerStreaming_TryWrite true)
    (lift (ServerStreamingCall_WaitForWritable true)) r st slots s.
Proof.
  revert n2 st slots s. induction n1 as [|n1 IH]; intros [|n2] st slots s H1 H2; try lia.
  cbn [Write_loop]. unfold mbind, sync_bind, mbind, thread_bind.
  destruct (ServerContext_IsCancelled st slots s) as [[[] st1] slots1 s1| |] eqn:E1; try done.
  simpl. apply (sconsumes_lift _ 1 (consumes_operation _)) in E1.
  destruct (ServerStreaming_TryWrite true r st1 slots1 s1) as [[e st2] slots2 s2| |] eqn:E2; try done.
  apply sconsumes_TryWrite in E2. simpl. destruct (Error_ok e); [done|].
  destruct (negb (Error_is e _)); [done|].
  destruct (lift _ st2 slots2 s2) as [[[] st3] slots3 s3| |] eqn:E3; try done.
  apply (sconsumes_lift _ 1 consumes_wait) in E3. simpl. apply IH; lia.
Qed.
End WriteFuel.

(** ** The dispatcher followed by the executor's task *)

Definition serve_unary {GZ : GzipSize} {Request Response} {MR : Message Response}
    (admission : option (string → NativeContext → Status)) (submit : string → bool)
    (response_compression : Compression) (method : string) (native_context : NativeContext)
    (observer : nat) (handler : Request → Handler NoRes (grpc_Status * Response))
    (request : Request) : Thread (DispatchWorld CallWorld) (DispatchLabel CallLabel) () :=
  st ← DispatchUnary true admission submit response_compression method native_context observer;
  match st with
  | None => mret ()
  | Some st => _ ← Unary_Run true handler request st; mret ()
  end.

(** Registering the observer changes nothing that the response depends on. *)
Definition observed_world (l : Limits) (accepts_gzip : bool) (f : nat) : CallWorld :=
  (start_world l accepts_gzip) <| cw_state :=
    TypedCallState_init <| tcs_on_cancel := Some f |> <| tcs_on_terminal := Some f |> |>.

Lemma observed_open l gz f : open_call false Identity (observed_world l gz f).
Proof. by split. Qed.

Lemma quiet_Dispatch {GZ : GzipSize} {Response} {MR : Message Response} admission submit rc method
    nctx f l gz h rest :
  (∀ Admit, admission = Some Admit → Status_ok (Admit method nctx) = true) →
  DispatchUnary (W := CallWorld) (Response := Response) true admission submit rc method nctx f
    (idle :: idle :: rest) (quiet_state f Queued h (start_world l gz)) =
  (if submit method
   then mret (Some (mkState (ServerContext_Create nctx (GrpcCompression rc)) false []))
   else
     _ ← gate_op (λ g, ((), Stop g));
     _ ← operation (TypedCallState_Finish
           (mkStatus StatusCode.ResourceExhausted "executor rejected the call") []);
     mret None) rest (quiet_state f Queued h (observed_world l gz f)).
Proof.
  intros Ha. unfold DispatchUnary, Dispatch. cbv zeta.
  assert (Hok : Status_ok (match admission with Some Admit => Admit method nctx
                           | None => Status_default end) = true)
    by (destruct admission; auto).
  rewrite Hok. simpl. reflexivity.
Qed.

(** ** Theorems *)

(** C7. The end-to-end behaviour of a unary call on which nothing interferes: an
    admitted call whose task the executor takes gives the transport exactly the
    handler's response, that is the initial metadata it added, the serialised
    message and an OK status with the trailing metadata; a failed status instead of
    the message when the handler failed, INTERNAL when the message does not
    serialise.  The handler is any program and may use its context freely. *)
Theorem unary_call_served {GZ : GzipSize} {Request Response} {MR : Message Response}
    admission rc method nctx f (handler : Request → Handler NoRes (grpc_Status * Response))
    request l gz h status response context :
  roomy h →
  (∀ Admit, admission = Some Admit → Status_ok (Admit method nctx) = true) →
  handler_result (handler request) (ServerContext_Create nctx (GrpcCompression rc)) =
    ((status, response), context) →
  Forall (sendable l gz) (unary_response status response context) →
  ∃ n h' c', roomy h' ∧
    serve_unary admission (λ _, true) rc method nctx f handler request (replicate n idle)
      (quiet_state f Queued h (start_world l gz)) =
      Returned () [] (quiet_state f Running h' c') ∧
    tc_history (cw_transport c') = unary_response status response context.
Proof.
  intros Hh Ha Hres Hs.
  destruct (quiet_Unary_Run handler request
    (mkState (ServerContext_Create nctx (GrpcCompression rc)) false [])
    (observed_world l gz f) status response context (observed_open l gz f) eq_refl Hres Hs)
    as (n & c' & Hh' & Hrun).
  destruct (Hrun f h [] Hh) as (h' & Hr' & E). rewrite app_nil_r in E.
  exists (2 + n)%nat, h', c'. split_and!; [done| |done].
  rewrite replicate_add. simpl replicate. cbn [app]. unfold serve_unary, mbind, thread_bind.
  rewrite quiet_Dispatch by done. unfold mret at 1, thread_ret at 1. by rewrite E.
Qed.

#[local] Existing Instance stored_gzip.
#[local] Existing Instance string_message.

(** A handler that greets, with metadata, unless its client has gone *)
Definition example_handler (request : string) : Handler NoRes (grpc_Status * string) :=
  HAddInitialMetadata "x-b" "2" (HAddInitialMetadata "x-a" "1" (HIsCancelled (λ cancelled,
    if cancelled then HReturn (grpc_Status_make CANCELLED "", ""%string)
    else HAddTrailingMetadata "t-bin" "" (HReturn (grpc_Status_default, ("hi " +:+ request)%string))))).

Definition example_native : NativeContext := mkNativeContext [] Identity false 0.

Definition example_response : list StreamCommand :=
  [CmdInitialMetadata [("x-a", "1"); ("x-b", "2")]%string Identity; CmdSend "hi you" Identity;
   CmdFinish 0 "" [("t-bin", "")]%string].

Lemma roomy_empty : roomy (mkHeap ∅ 0 []).
Proof. split; [intros n Hn; simpl in Hn; set_solver|done]. Qed.

Definition example_context : ServerContext :=
  mkServerContext [] [("x-a", "1"); ("x-b", "2")]%string [("t-bin", "")]%string GRPC_COMPRESS_NONE.

Lemma unary_call_served_witness :
  ∃ n h' c', roomy h' ∧
    serve_unary None (λ _, true) Identity "/s/m" example_native 7 example_handler "you"%string
      (replicate n idle)
      (quiet_state 7 Queued (mkHeap ∅ 0 []) (start_world example_limits false)) =
      Returned () [] (quiet_state 7 Running h' c') ∧
    tc_history (cw_transport c') = example_response.
Proof.
  change example_response with (unary_response grpc_Status_default "hi you"%string example_context).
  apply (unary_call_served None Identity "/s/m" example_native 7 example_handler "you"%string
    example_limits false (mkHeap ∅ 0 []) grpc_Status_default "hi you"%string example_context).
  - apply roomy_empty.
  - intros Admit H. discriminate H.
  - vm_compute. reflexivity.
  - repeat constructor; vm_compute; discriminate || reflexivity.
Defined.

(** A call the executor does not take is answered RESOURCE_EXHAUSTED, and its
    handler can no longer start. *)
Lemma rejected_call_answered {GZ : GzipSize} {Request Response} {MR : Message Response}
    admission rc method nctx f (handler : Request → Handler NoRes (grpc_Status * Response))
    request l gz h :
  (∀ Admit, admission = Some Admit → Status_ok (Admit method nctx) = true) →
  ∃ c',
    serve_unary admission (λ _, false) rc method nctx f handler request (replicate 4 idle)
      (quiet_state f Queued h (start_world l gz)) =
      Returned () [] (quiet_state f Stopped h c') ∧
    tc_history (cw_transport c') =
      [CmdInitialMetadata [] Identity;
       CmdFinish StatusCode.ResourceExhausted "executor rejected the call" []].
Proof.
  intros Ha. unfold serve_unary, mbind at 1, thread_bind at 1. simpl replicate.
  rewrite quiet_Dispatch by done. eexists. split; vm_compute; reflexivity.
Qed.

Lemma rejected_call_answered_witness :
  ∃ c',
    serve_unary (Some (λ _ _, Status_default)) (λ _, false) Identity "/s/m" example_native 7
      example_handler "you"%string (replicate 4 idle)
      (quiet_state 7 Queued (mkHeap ∅ 0 []) (start_world example_limits false)) =
      Returned () [] (quiet_state 7 Stopped (mkHeap ∅ 0 []) c') ∧
    tc_history (cw_transport c') =
      [CmdInitialMetadata [] Identity;
       CmdFinish StatusCode.ResourceExhausted "executor rejected the call" []].
Proof.
  apply (rejected_call_answered (Some (λ _ _, Status_default)) Identity "/s/m" example_native 7
    example_handler "you"%string example_limits false (mkHeap ∅ 0 [])).
  intros Admit [= <-]. reflexivity.
Defined.

(** How a thread may leave the metadata objects *)
Definition safe_outcome {W L A} (h : MetadataHeap) (o : Outcome W L A) : Prop :=
  match o with
  | Undefined => False
  | Pending => True
  | Returned _ _ s => heap_ok (ts_heap s) ∧ mh_objects (ts_heap s) = mh_objects h
  end.

(** C26. Whatever the handlers do, whatever allocations fail and whatever the reactor
    and other threads do in between, the dispatchers and the tasks they submit use
    no destroyed metadata object and leave none behind. *)
Theorem dispatch_leaks_no_metadata {GZ : GzipSize} {W L} {WW : World W L} {Request Response}
    {MQ : Message Request} {MR : Message Response} {HS : HasStream W Request}
    state_ (unary : Request → Handler NoRes (grpc_Status * Response))
    (writer : Request → Handler (@WriterRes Response) grpc_Status)
    (reader : Handler (ReaderRes Request) (grpc_Status * Response))
    (both : Handler (@ReaderWriterRes Request Response) grpc_Status)
    admission submit rc method nctx f request (st : State Response) slots
    (s : ThreadState (DispatchWorld W)) :
  heap_ok (ts_heap s) →
  safe_outcome (ts_heap s) (DispatchUnary (Response := Response) state_ admission submit rc method nctx f slots s) ∧
  safe_outcome (ts_heap s) (DispatchServerStreaming (Response := Response) state_ admission submit rc method nctx f slots s) ∧
  safe_outcome (ts_heap s) (DispatchClientStreaming (Response := Response) state_ admission submit rc method nctx f slots s) ∧
  safe_outcome (ts_heap s) (DispatchBidirectionalStreaming (Response := Response) state_ admission submit rc method nctx f slots s) ∧
  safe_outcome (ts_heap s) (Unary_Run state_ unary request st slots s) ∧
  safe_outcome (ts_heap s) (ServerStreaming_Run state_ writer request st slots s) ∧
  safe_outcome (ts_heap s) (ClientStreaming_Run state_ reader st slots s) ∧
  safe_outcome (ts_heap s) (Bidirectional_Run state_ both st slots s).
Proof.
  intros Hok. split_and!; [by apply tame_Dispatch..| | | |].
  - by apply stame_Unary_Run.
  - by apply stame_ServerStreaming_Run.
  - by apply stame_ClientStreaming_Run.
  - by apply stame_Bidirectional_Run.
Qed.

(** A server streaming handler that counts to two and reports a failed write *)
Definition counting_handler (request : string) : Handler (@WriterRes string) grpc_Status :=
  HStream (WWrite "0123456789"%string) (λ a, HStream (WWrite "abcdefghij"%string) (λ b,
    HReturn (if (a && b : bool) then grpc_Status_default else grpc_Status_make ABORTED ""))).

Definition example_state : State string := mkState example_context false [].

(** The world of a streaming call just dispatched *)
Definition example_dispatch : ThreadState (DispatchWorld (StreamWorld (M := string))) :=
  mkThreadState (mkDispatchWorld (start_stream example_limits false) 7 Queued) (mkHeap ∅ 0 [false]).

Lemma dispatch_leaks_no_metadata_witness :
  safe_outcome (ts_heap example_dispatch)
    (ServerStreaming_Run true counting_handler "x"%string example_state (replicate 9 (mkSlot [] []))
       example_dispatch).
Proof.
  assert (Hok : heap_ok (ts_heap example_dispatch)) by (intros n Hn; simpl in Hn; set_solver).
  destruct (dispatch_leaks_no_metadata true example_handler counting_handler
    (HReturn (grpc_Status_default, ""%string)) (HReturn grpc_Status_default) None (λ _, true)
    Identity "/s/m" example_native 7 "x"%string example_state (replicate 9 (mkSlot [] []))
    example_dispatch Hok) as (_ & _ & _ & _ & _ & H & _).
  exact H.
Defined.

(** C25. No acknowledged message is lost: when a server streaming task ends, every
    message whose [Write] returned true was given to the transport, in the order of
    the writes, whatever happened to the call in between. *)
Theorem written_messages_sent {GZ : GzipSize} {W L} {WW : World W L} {WL : WorldLaws (WW := WW)}
    {Request Response} {MR : Message Response} state_
    (handler : Request → Handler (@WriterRes Response) grpc_Status) request
    (st st' : State Response) slots slots' (s s' : ThreadState (DispatchWorld W)) :
  ServerStreaming_Run state_ handler request st slots s = Returned ((), st') slots' s' →
  st_written st = [] →
  ∃ payloads, Forall2 (λ r p, SerializeToString r = Some p) (st_written st') payloads ∧
    payloads `sublist_of` sent_payloads (tc_history (cw_transport (ts_call s'))).
Proof.
  intros E Hst. apply (keeps_ServerStreaming_Run _ _ _ _ _ _ _ _ _ _ E).
  exists []. rewrite Hst. split; [constructor|apply sublist_nil_l].
Qed.

(** The reactor makes room for the second message while the writer waits. *)
Definition writer_slots : list (Slot (DispatchLabel CallLabel)) :=
  replicate 7 (mkSlot [] []) ++
  [mkSlot [DWorld (LReactor (RProcess true true)); DWorld (LReactor (RProcess true true));
           DWorld (LReactor (RRelease 15)); DWorld (LCallback Continue)] []] ++
  replicate 4 (mkSlot [] []).

Definition writer_start : ThreadState (DispatchWorld CallWorld) :=
  quiet_state 7 Queued (mkHeap ∅ 0 []) (observed_world example_limits false 7).

Definition writer_result :=
  ServerStreaming_Run true counting_handler "x"%string example_state writer_slots writer_start.

Definition writer_end : State string * ThreadState (DispatchWorld CallWorld) :=
  match writer_result with Returned r _ s => (r.2, s) | _ => (example_state, writer_start) end.

Lemma written_messages_sent_witness :
  st_written writer_end.1 = ["0123456789"; "abcdefghij"]%string ∧
  ∃ payloads, Forall2 (λ r p, SerializeToString r = Some p) (st_written writer_end.1) payloads ∧
    payloads `sublist_of` sent_payloads (tc_history (cw_transport (ts_call writer_end.2))).
Proof.
  split; [vm_compute; reflexivity|].
  apply (written_messages_sent true counting_handler "x"%string example_state writer_end.1
    writer_slots [] writer_start writer_end.2); vm_compute; reflexivity.
Defined.

#[export] Instance streaming_stream_laws {GZ : GzipSize} {M} {MM : Message M} :
  StreamLaws (W := StreamWorld (M := M)) (M := M).
Proof. by split. Qed.

#[export] Instance dispatch_stream_laws {W L} {WW : World W L} {M} {HS : HasStream W M}
    {SL : StreamLaws (W := W) (M := M)} : StreamLaws (W := DispatchWorld W) (M := M).
Proof.
  split; [intros w; apply (w_stream_call (StreamLaws := SL))|].
  intros s w. apply (w_stream_with (StreamLaws := SL)).
Qed.

(** The same for a bidirectional task, which also reads. *)
Lemma bidirectional_messages_sent {GZ : GzipSize} {W L} {WW : World W L}
    {WL : WorldLaws (WW := WW)} {Request Response} {MQ : Message Request} {MR : Message Response}
    {HS : HasStream W Request} {SL : StreamLaws (W := W) (M := Request)} state_
    (handler : Handler (@ReaderWriterRes Request Response) grpc_Status)
    (st st' : State Response) slots slots' (s s' : ThreadState (DispatchWorld W)) :
  Bidirectional_Run state_ handler st slots s = Returned ((), st') slots' s' →
  st_written st = [] →
  ∃ payloads, Forall2 (λ r p, SerializeToString r = Some p) (st_written st') payloads ∧
    payloads `sublist_of` sent_payloads (tc_history (cw_transport (ts_call s'))).
Proof.
  intros E Hst. apply (keeps_Bidirectional_Run _ _ _ _ _ _ _ _ _ E).
  exists []. rewrite Hst. split; [constructor|apply sublist_nil_l].
Qed.

(** Echo until the request ends *)
Definition echo_handler : Handler (@ReaderWriterRes string string) grpc_Status :=
  HStream (BRead true) (λ m : option string,
    match m with
    | None => HReturn grpc_Status_default
    | Some r => HStream (BWrite r) (λ _, HStream (BRead true) (λ m' : option string,
        HReturn (if decide (m' = None) then grpc_Status_default else grpc_Status_make ABORTED "")))
    end).

(** The request arrives while the handler waits to read, and ends after the
    echo. *)
Definition echo_slots : list (Slot (DispatchLabel StreamLabel)) :=
  replicate 4 (mkSlot [] []) ++
  [mkSlot [DWorld (SCall (LReactor (RDeliverBegin "ping"))); DWorld (SCallback [])] [];
   mkSlot [] []; mkSlot [] []; mkSlot [] []; mkSlot [] [];
   mkSlot [DWorld (SCall (LReactor RDeliverEnd)); DWorld (SCall (LReactor RRemoteEnd));
           DWorld (SCallback [])] []] ++
  replicate 4 (mkSlot [] []).

Definition echo_start : ThreadState (DispatchWorld (StreamWorld (M := string))) :=
  mkThreadState (mkDispatchWorld (start_stream example_limits false) 7 Queued) (mkHeap ∅ 0 []).

Definition echo_result := Bidirectional_Run true echo_handler example_state echo_slots echo_start.

Definition echo_end : State string * ThreadState (DispatchWorld (StreamWorld (M := string))) :=
  match echo_result with Returned r _ s => (r.2, s) | _ => (example_state, echo_start) end.

Lemma bidirectional_messages_sent_witness :
  st_written echo_end.1 = ["ping"]%string ∧
  ∃ payloads, Forall2 (λ r p, SerializeToString r = Some p) (st_written echo_end.1) payloads ∧
    payloads `sublist_of` sent_payloads (tc_history (cw_transport (ts_call echo_end.2))).
Proof.
  split; [vm_compute; reflexivity|].
  apply (bidirectional_messages_sent true echo_handler example_state echo_end.1
    echo_slots [] echo_start echo_end.2); vm_compute; reflexivity.
Defined.

(** [Write] has no fuel of its own: a loop that may go round more often than the
    schedule has slots gives the same outcome, so that [Write] is still at work only
    where the schedule ends before it returns. *)
Lemma write_loop_not_cut_short {GZ : GzipSize} {W L} {WW : World W L}
    {WL : WorldLaws (WW := WW)} {Response} {MR : Message Response} (r : Response) n st slots
    (s : ThreadState (DispatchWorld W)) :
  (length slots < n)%nat →
  ServerWriter_Write (CC := ServerStreamingCall true) (ServerStreaming_TryWrite true)
    (lift (ServerStreamingCall_WaitForWritable true)) r st slots s =
  Write_loop (CC := ServerStreamingCall true) n (ServerStreaming_TryWrite true)
    (lift (ServerStreamingCall_WaitForWritable true)) r st slots s.
Proof. intros Hn. apply Write_loop_fuel; lia. Qed.

Lemma write_loop_not_cut_short_witness :
  ServerWriter_Write (CC := ServerStreamingCall true) (ServerStreaming_TryWrite true)
    (lift (ServerStreamingCall_WaitForWritable true)) "0123456789"%string example_state writer_slots
    writer_start =
  Write_loop (CC := ServerStreamingCall true) 100 (ServerStreaming_TryWrite true)
    (lift (ServerStreamingCall_WaitForWritable true)) "0123456789"%string example_state writer_slots
    writer_start.
Proof. apply write_loop_not_cut_short. vm_compute. lia. Defined.

Lemma stopped_stays {W L} {WW : World W L} (w w' : DispatchWorld W) ls :
  dw_gate w = Stopped → run (w_step (L := DispatchLabel L)) w ls = Some w' → dw_gate w' = Stopped.
Proof.
  intros Hg Hr. revert Hr. apply (run_invariant w_step (λ w, dw_gate w = Stopped)); [|done].
  intros x [l|] x' Hx; simpl.
  - destruct (w_step (dw_world x) l); [|done]. by intros [= <-].
  - destruct (existsb _ _); [|done]. intros [= <-]. simpl. by rewrite Hx.
Qed.

Lemma admitted_stopped {GZ : GzipSize} {W L} {WW : World W L} {Response} m (st : State Response)
    slot rest (s : ThreadState (DispatchWorld W)) :
  dw_gate (ts_world s) = Stopped →
  admitted m st (slot :: rest) s =
  match run w_step (ts_world s) (slot_labels slot) with
  | Some w => Returned ((), st) rest (s <| ts_world := w |>)
  | None => Pending
  end.
Proof.
  intros Hg. unfold admitted, lift, mbind, sync_bind, mbind, thread_bind, gate_op.
  destruct (run w_step (ts_world s) (slot_labels slot)) as [w|] eqn:E; [|done].
  pose proof (stopped_stays _ _ _ Hg E) as Hw. destruct w as [w f g]. simpl in Hw. by subst g.
Qed.

(** A call that was stopped before its task ran never reaches its handler: for all
    four kinds of calls the task only passes the gate and returns, and the call is
    as the other threads left it. *)
Lemma stopped_call_never_starts {GZ : GzipSize} {W L} {WW : World W L} {Request Response}
    {MQ : Message Request} {MR : Message Response} {HS : HasStream W Request}
    state_ (unary : Request → Handler NoRes (grpc_Status * Response))
    (writer : Request → Handler (@WriterRes Response) grpc_Status)
    (reader : Handler (ReaderRes Request) (grpc_Status * Response))
    (both : Handler (@ReaderWriterRes Request Response) grpc_Status)
    request (st : State Response) slot rest (s : ThreadState (DispatchWorld W)) :
  dw_gate (ts_world s) = Stopped →
  let outcome := match run w_step (ts_world s) (slot_labels slot) with
                 | Some w => Returned ((), st) rest (s <| ts_world := w |>)
                 | None => Pending
                 end in
  Unary_Run state_ unary request st (slot :: rest) s = outcome ∧
  ServerStreaming_Run state_ writer request st (slot :: rest) s = outcome ∧
  ClientStreaming_Run state_ reader st (slot :: rest) s = outcome ∧
  Bidirectional_Run state_ both st (slot :: rest) s = outcome.
Proof. intros Hg outcome. split_and!; by apply admitted_stopped. Qed.

Lemma stopped_call_never_starts_witness :
  let s := mkThreadState (mkDispatchWorld (start_stream (M := string) example_limits false) 7 Stopped)
             (mkHeap ∅ 0 []) in
  Bidirectional_Run true echo_handler example_state [mkSlot [] []] s =
  Returned ((), example_state) [] s.
Proof.
  apply (stopped_call_never_starts true example_handler counting_handler
    (HReturn (grpc_Status_default, ""%string)) echo_handler "x"%string example_state
    (mkSlot [] []) []
    (mkThreadState (mkDispatchWorld (start_stream (M := string) example_limits false) 7 Stopped)
       (mkHeap ∅ 0 []))). reflexivity.
Defined.
