(* ===== verification/ClientTransport.v ===== *)
(** * The client stream of the transport

    What a [grpc_lite_client_stream] does for its C++ owner: the application's
    operations and the steps of the channel's loop on one [ClientStreamState]
    ([src/channel.zig]), with the C functions of [src/c_api.zig] in front of them.

    A callback runs inside the step that makes it.  The loop holds no lock that an
    operation needs while it runs a callback, and nothing but the loop reads what
    it changes after the callback has returned ([receive_paused]), so every
    interleaving with operations is one in which they come before or after the
    step.  HTTP/2 itself, the deadline heap, statistics and the queue of wake-ups
    are left out: that a command is noticed is the step [CWake]. *)

From S2P Require Import Prelude Status Metadata ServerTransport.

Local Open Scope Z_scope.

(** ** Errors *)

Inductive StreamError : Set :=
  | CE_OutOfMemory | CE_WouldBlock | CE_StreamClosed | CE_SendClosed | CE_MessageTooLarge
  | CE_OutboundBufferLimitExceeded | CE_CompressionNotConfigured | CE_ChannelUnavailable
  | CE_StreamAdmissionRejected | CE_InvalidOption.

#[export] Instance StreamError_eq_dec : EqDecision StreamError.
Proof. solve_decision. Defined.

(** [fn mapStreamError], on the errors above; [CE_InvalidOption] is any of the
    errors about the arguments of [openStream] *)
Definition mapStreamError (e : StreamError) : ZError :=
  match e with
  | CE_OutOfMemory => out_of_memory
  | CE_WouldBlock | CE_StreamAdmissionRejected => would_block
  | CE_StreamClosed | CE_SendClosed => closed
  | CE_ChannelUnavailable => unavailable
  | CE_MessageTooLarge | CE_OutboundBufferLimitExceeded => out_of_range
  | CE_InvalidOption | CE_CompressionNotConfigured => invalid_argument
  end.

Definition stream_result (r : option StreamError) : Error :=
  Error_of_c match r with None => ok | Some e => mapStreamError e end.

(** ** The stream *)

Record StreamLimits := mkStreamLimits {
  sl_max_message_size : Z;
  sl_max_inbound_buffer_size : Z;
  sl_max_outbound_buffer_size : Z }.

(** [ct_loop]: the loop owns the stream and [impl] is set; [ct_app]: the
    application owns it and has not released it; [ct_submitted]: [stream_id] is
    set; [ct_has_deadline] and [ct_deadline]: there is a deadline and it is in the
    heap.  [ct_outcome] is the status the response headers and trailers amount to,
    known when the transport has closed.  [ct_sent], [ct_wire] and [ct_received],
    which the code does not have, are the messages accepted from the application,
    decoded from the connection, and delivered to the application. *)
Record ClientTransport := mkClientTransport {
  ct_limits : StreamLimits;
  ct_request_compression : Compression;
  ct_loop : bool;
  ct_app : bool;
  ct_submitted : bool;
  ct_terminal : bool;
  ct_send_open : bool;
  ct_cancel_requested : bool;
  ct_resume_requested : bool;
  ct_backpressure_requested : bool;
  ct_outbound : list (string * Compression);
  ct_outbound_buffered : Z;
  ct_rst_submitted : bool;
  ct_receive_paused : bool;
  ct_inbound : list (string * Compression);
  ct_inbound_buffered : Z;
  ct_headers_called : bool;
  ct_transport_closed : bool;
  ct_has_deadline : bool;
  ct_deadline : bool;
  ct_forced_status : option Status;
  ct_outcome : Status;
  ct_trailing : entries;
  ct_sent : list string;
  ct_wire : list string;
  ct_received : list string }.

#[export] Instance eta_ClientTransport : Eta ClientTransport := λ t,
  mkClientTransport (ct_limits t) (ct_request_compression t) (ct_loop t) (ct_app t)
    (ct_submitted t) (ct_terminal t) (ct_send_open t) (ct_cancel_requested t) (ct_resume_requested t)
    (ct_backpressure_requested t) (ct_outbound t) (ct_outbound_buffered t)
    (ct_rst_submitted t) (ct_receive_paused t) (ct_inbound t) (ct_inbound_buffered t)
    (ct_headers_called t) (ct_transport_closed t) (ct_has_deadline t) (ct_deadline t)
    (ct_forced_status t)
    (ct_outcome t) (ct_trailing t) (ct_sent t) (ct_wire t) (ct_received t).

(** [openStream] succeeded *)
Definition open_transport (l : StreamLimits) (c : Compression) (deadline : bool)
  : ClientTransport :=
  mkClientTransport l c true true false false true false false false [] 0 false false [] 0 false
    false deadline false None Status_default [] [] [] [].

(** ** The application's operations *)

(** The guard of every operation *)
Definition stream_closed (t : ClientTransport) : bool :=
  negb (ct_loop t) || negb (ct_app t) || ct_cancel_requested t || ct_terminal t.

Section Operations.
Context {GZ : GzipSize}.

(** The checks before the first lock and the first locked section of [send] *)
Definition clientStreamSend_check (payload : string) (c : Compression) (t : ClientTransport)
  : option StreamError * ClientTransport :=
  if zlen payload >? sl_max_message_size (ct_limits t) then (Some CE_MessageTooLarge, t)
  else if negb (bool_decide (c = Identity)) && negb (bool_decide (c = ct_request_compression t))
  then (Some CE_CompressionNotConfigured, t)
  else if stream_closed t then (Some CE_StreamClosed, t)
  else if negb (ct_send_open t) then (Some CE_SendClosed, t)
  else match c with
  | Gzip => (None, t)
  | Identity =>
      match add_usize (zlen payload) header_size with
      | None => (Some CE_MessageTooLarge, t)
      | Some size =>
          if size >? sl_max_outbound_buffer_size (ct_limits t)
          then (Some CE_OutboundBufferLimitExceeded, t)
          else if size >? sl_max_outbound_buffer_size (ct_limits t) - ct_outbound_buffered t
          then (Some CE_WouldBlock, t <| ct_backpressure_requested := true |>)
          else (None, t)
      end
  end.

(** Encoding and the second locked section; [memory] is whether the two
    allocations succeed. *)
Definition clientStreamSend_commit (memory : bool) (payload : string) (c : Compression)
    (t : ClientTransport) : option StreamError * ClientTransport :=
  if negb memory then (Some CE_OutOfMemory, t)
  else if body_size payload c >? u32_max then (Some CE_MessageTooLarge, t)
  else if stream_closed t then (Some CE_StreamClosed, t)
  else if negb (ct_send_open t) then (Some CE_SendClosed, t)
  else if encoded_size payload c >? sl_max_outbound_buffer_size (ct_limits t)
  then (Some CE_OutboundBufferLimitExceeded, t)
  else if encoded_size payload c >? sl_max_outbound_buffer_size (ct_limits t) - ct_outbound_buffered t
  then (Some CE_WouldBlock, t <| ct_backpressure_requested := true |>)
  else (None, t <| ct_outbound := ct_outbound t ++ [(payload, c)] |>
                <| ct_outbound_buffered := ct_outbound_buffered t + encoded_size payload c |>
                <| ct_sent := ct_sent t ++ [payload] |>).
End Operations.

Definition clientStreamCloseSend (t : ClientTransport) : option StreamError * ClientTransport :=
  if stream_closed t then (Some CE_StreamClosed, t)
  else if negb (ct_send_open t) then (Some CE_SendClosed, t)
  else (None, t <| ct_send_open := false |>).

Definition clientStreamCancel (t : ClientTransport) : ClientTransport :=
  if negb (ct_loop t) || negb (ct_app t) || ct_terminal t then t
  else t <| ct_cancel_requested := true |>.

Definition clientStreamResumeReceive (t : ClientTransport) : option StreamError * ClientTransport :=
  if stream_closed t then (Some CE_StreamClosed, t)
  else (None, t <| ct_resume_requested := true |>).

Definition clientStreamRelease (t : ClientTransport) : ClientTransport :=
  t <| ct_app := false |> <| ct_cancel_requested := true |>.

(** ** The loop

    [Owner] is the state of the stream's owner, which the callbacks work on. *)

Record ClientCallbacks (Owner : Type) := mkClientCallbacks {
  on_headers : entries → Owner → Owner;
  on_message : string → Compression → Owner → ReceiveAction * Owner;
  on_writable : Owner → Owner;
  on_terminal : Status → entries → Owner → Owner }.
Arguments on_headers {Owner}.
Arguments on_message {Owner}.
Arguments on_writable {Owner}.
Arguments on_terminal {Owner}.

(** What a wake-up that submits the stream finds: whether the deadline heap has
    room, whether the deadline has passed, whether the connection is up, and
    whether the HTTP/2 session accepts the request *)
Record Wake := mkWake {
  wk_memory : bool;
  wk_late : bool;
  wk_active : bool;
  wk_accepted : bool }.

(** The response's headers, a message or an error in its data, a wake-up, an
    outgoing frame written, the end of the HTTP/2 stream (with whether it was reset
    after the deadline), the deadline, a GOAWAY that excludes the stream, and the
    end of the connection *)
Inductive ClientEvent : Type :=
  | CHeaders (es : entries)
  | CMessage (payload : string) (c : Compression)
  | CFail (status : Status)
  | CWake (k : Wake)
  | CFrameSent
  | CClose (outcome : Status) (trailing : entries) (deadline_passed : bool)
  | CDeadline
  | CGoAway
  | CStop (reason : string).

Definition stream_cancelled : Status := mkStatus StatusCode.Cancelled "stream cancelled".
Definition deadline_exceeded : Status := mkStatus StatusCode.DeadlineExceeded "deadline exceeded".
Definition submission_failed : Status :=
  mkStatus StatusCode.Unavailable "stream submission failed".
Definition connection_unavailable : Status :=
  mkStatus StatusCode.Unavailable "connection is unavailable".
Definition received_goaway : Status :=
  mkStatus StatusCode.Unavailable "connection received GOAWAY".
Definition message_too_large : Status :=
  mkStatus StatusCode.ResourceExhausted "response message too large".

Section Loop.
Context {GZ : GzipSize} {Owner : Type} (cb : ClientCallbacks Owner).

Local Abbreviation World := (ClientTransport * Owner)%type.

Definition callbacksEnabled (t : ClientTransport) : bool :=
  ct_app t && negb (ct_cancel_requested t) && negb (ct_terminal t).

Definition setForcedStreamStatus (status : Status) (t : ClientTransport) : ClientTransport :=
  match ct_forced_status t with
  | None => t <| ct_forced_status := Some status |>
  | Some _ => t
  end.

Definition failClientStreamOnLoop (failure : Status) (t : ClientTransport) : ClientTransport :=
  let t1 := setForcedStreamStatus failure t in
  if ct_rst_submitted t1 || ct_transport_closed t1 then t1
  else t1 <| ct_rst_submitted := true |>.

(** The callback's answer, [None] when it was not called *)
Definition invokeMessageCallback (payload : string) (c : Compression) (w : World)
  : option ReceiveAction * World :=
  let '(t, s) := w in
  if negb (callbacksEnabled t) then (None, w)
  else
    let '(action, s') := on_message cb payload c s in
    (Some action, (t <| ct_received := ct_received t ++ [payload] |>, s')).

Definition pause_if (action : ReceiveAction) (w : World) : World :=
  match action with
  | Pause => (w.1 <| ct_receive_paused := true |>, w.2)
  | Continue => w
  end.

Definition invokeWritableCallback (w : World) : World :=
  if callbacksEnabled w.1 then (w.1, on_writable cb w.2) else w.

Definition invokeHeadersCallback (es : entries) (w : World) : World :=
  if callbacksEnabled w.1 then (w.1, on_headers cb es w.2) else w.

Definition terminalizeStream (final_status : Status) (w : World) : World :=
  let '(t, s) := w in
  if ct_terminal t then (t <| ct_deadline := false |>, s)
  else
    (t <| ct_deadline := false |> <| ct_terminal := true |>,
     if ct_app t then on_terminal cb final_status (ct_trailing t) s else s).

Definition releaseStreamLoopOwnership (w : World) : World :=
  (w.1 <| ct_deadline := false |> <| ct_loop := false |>, w.2).

Definition finalizeClientStream (w : World) : World :=
  terminalizeStream (default (ct_outcome w.1) (ct_forced_status w.1)) w.

(** One turn of the loop of [decodeAvailableMessages] *)
Definition decodeMessage (payload : string) (c : Compression) (w : World) : World :=
  let '(t, s) := w in
  if negb (callbacksEnabled t) then w
  else if ct_receive_paused t then
    let buffered_size := zlen payload + header_size in
    if buffered_size >? sat_sub (sl_max_inbound_buffer_size (ct_limits t)) (ct_inbound_buffered t)
    then (failClientStreamOnLoop message_too_large t, s)
    else (t <| ct_inbound := ct_inbound t ++ [(payload, c)] |>
            <| ct_inbound_buffered := ct_inbound_buffered t + buffered_size |>, s)
  else
    match invokeMessageCallback payload c w with
    | (Some action, w') => pause_if action w'
    | (None, w') => w'
    end.

(** The loop of [deliverInboundMessages]; [n] is the length of the queue. *)
Fixpoint deliver_loop (n : nat) (w : World) : World :=
  match n, ct_inbound w.1 with
  | S n', (payload, c) :: rest =>
      if ct_receive_paused w.1 || negb (callbacksEnabled w.1) then w
      else
        let w1 := (w.1 <| ct_inbound := rest |>
                       <| ct_inbound_buffered := ct_inbound_buffered w.1 - (zlen payload + header_size) |>,
                   w.2) in
        let '(action, w2) := invokeMessageCallback payload c w1 in
        deliver_loop n' (pause_if (default Continue action) w2)
  | _, _ => w
  end.

Definition deliverInboundMessages (w : World) : World :=
  let w1 := (w.1 <| ct_receive_paused := false |>, w.2) in
  let w2 := deliver_loop (length (ct_inbound w1.1)) w1 in
  if ct_transport_closed w2.1 && negb (ct_receive_paused w2.1) &&
     bool_decide (ct_inbound w2.1 = [])
  then releaseStreamLoopOwnership (finalizeClientStream w2)
  else w2.

Definition processClientStreamCommands (w : World) : World :=
  let cancel_requested := ct_cancel_requested w.1 || negb (ct_app w.1) in
  let resume_receive := ct_resume_requested w.1 in
  let t1 := w.1 <| ct_resume_requested := false |>
                <| ct_deadline := ct_deadline w.1 && negb cancel_requested |> in
  if ct_transport_closed t1 then
    if cancel_requested
    then releaseStreamLoopOwnership (terminalizeStream stream_cancelled (t1, w.2))
    else if resume_receive then deliverInboundMessages (t1, w.2) else (t1, w.2)
  else
    let t2 := if cancel_requested && negb (ct_rst_submitted t1)
              then (if ct_app t1 then setForcedStreamStatus stream_cancelled t1 else t1)
                     <| ct_rst_submitted := true |>
              else t1 in
    if resume_receive && negb (ct_rst_submitted t2) then deliverInboundMessages (t2, w.2)
    else (t2, w.2).

(** A stream's turn in [processStreamWakes] *)
Definition processStreamWake (k : Wake) (w : World) : World :=
  let fail status w := releaseStreamLoopOwnership (terminalizeStream status w) in
  if ct_submitted w.1 then processClientStreamCommands w
  else if ct_has_deadline w.1 && negb (wk_memory k) then fail submission_failed w
  else
    let t1 := w.1 <| ct_deadline := ct_has_deadline w.1 |> in
    if ct_cancel_requested t1 || negb (ct_app t1) then fail stream_cancelled (t1, w.2)
    else if ct_has_deadline t1 && wk_late k then fail deadline_exceeded (t1, w.2)
    else if negb (wk_active k) then fail connection_unavailable (t1, w.2)
    else if negb (wk_accepted k) then fail submission_failed (t1, w.2)
    else processClientStreamCommands (t1 <| ct_submitted := true |>, w.2).

(** [readClientStreamData] comes to the end of the oldest frame. *)
Definition frame_sent (w : World) : option World :=
  match ct_outbound w.1 with
  | [] => None
  | (payload, c) :: rest =>
      let t1 := w.1 <| ct_outbound := rest |>
                    <| ct_outbound_buffered := ct_outbound_buffered w.1 - encoded_size payload c |>
                    <| ct_backpressure_requested := false |> in
      Some (if ct_backpressure_requested w.1 then invokeWritableCallback (t1, w.2) else (t1, w.2))
  end.

Definition onStreamClose (outcome : Status) (trailing : entries) (deadline_passed : bool)
    (w : World) : World :=
  let t1 := w.1 <| ct_deadline := false |> <| ct_transport_closed := true |>
                <| ct_outcome := outcome |> <| ct_trailing := trailing |>
                <| ct_send_open := false |> in
  let t2 := if ct_cancel_requested t1 && ct_app t1 then setForcedStreamStatus stream_cancelled t1
            else if deadline_passed && ct_has_deadline t1 then setForcedStreamStatus deadline_exceeded t1 else t1 in
  if ct_terminal t2 || bool_decide (ct_forced_status t2 ≠ None) || negb (ct_app t2) ||
     (negb (ct_receive_paused t2) && bool_decide (ct_inbound t2 = []))
  then releaseStreamLoopOwnership (finalizeClientStream (t2, w.2))
  else (t2, w.2).

(** A stream's turn in [expireDeadlines] *)
Definition expire_deadline (w : World) : World :=
  let t1 := w.1 <| ct_deadline := false |> in
  if negb (ct_submitted t1) || ct_transport_closed t1
  then releaseStreamLoopOwnership (terminalizeStream deadline_exceeded (t1, w.2))
  else ((setForcedStreamStatus deadline_exceeded t1) <| ct_rst_submitted := true |>, w.2).

(** A stream that [terminalizeStreamsForGoAway] rejects *)
Definition goaway (w : World) : World :=
  if ct_submitted w.1 then
    let t1 := setForcedStreamStatus received_goaway w.1 in
    let w2 := terminalizeStream (default received_goaway (ct_forced_status t1)) (t1, w.2) in
    (w2.1 <| ct_rst_submitted := true |>, w2.2)
  else releaseStreamLoopOwnership (terminalizeStream received_goaway w).

(** The end of the connection in [beginStop] *)
Definition stop_stream (reason : string) (w : World) : World :=
  releaseStreamLoopOwnership
    (terminalizeStream (mkStatus StatusCode.Unavailable reason)
       (w.1 <| ct_transport_closed := true |>, w.2)).

(** The stream is one of [impl.streams]. *)
Definition on_connection (t : ClientTransport) : bool :=
  ct_submitted t && negb (ct_transport_closed t).

(** The code passes a failure wherever it calls [failClientStreamOnLoop]. *)
Definition loop_step (e : ClientEvent) (w : World) : option World :=
  let t := w.1 in
  if negb (ct_loop t) then None
  else match e with
  | CHeaders es =>
      if ct_headers_called t || negb (on_connection t) then None
      else Some (invokeHeadersCallback es (t <| ct_headers_called := true |>, w.2))
  | CMessage payload c =>
      if negb (on_connection t) then None
      else Some (decodeMessage payload c (t <| ct_wire := ct_wire t ++ [payload] |>, w.2))
  | CFail failure =>
      if negb (on_connection t) || Status_ok failure then None
      else Some (failClientStreamOnLoop failure t, w.2)
  | CWake k => Some (processStreamWake k w)
  | CFrameSent => if negb (on_connection t) then None else frame_sent w
  | CClose outcome trailing deadline_passed =>
      if negb (on_connection t) then None
      else Some (onStreamClose outcome trailing deadline_passed w)
  | CDeadline =>
      if ct_deadline t && negb (ct_terminal t) then Some (expire_deadline w) else None
  | CGoAway => if ct_transport_closed t then None else Some (goaway w)
  | CStop reason => Some (stop_stream reason w)
  end.
End Loop.
