(* ===== verification/BlockingCall.v ===== *)
(** * The blocking client call

    [grpc::internal::BlockingCallState] ([grpcpp/impl/blocking_call.h]) with the
    parts of [grpc::ClientContext] ([grpcpp/client_context.h]) it uses, and
    [grpc_lite::ClientStream] ([cpp/client_stream.hpp]) in between it and the
    transport.

    The code of an application thread is a sequence of sections under the call's
    mutexes ([CThread]); the loop and the other threads of the application run in
    between ([blocking_step]). *)

From S2P Require Import Prelude Status Metadata ServerTransport ClientTransport.

Local Open Scope Z_scope.

(** ** [ClientContext] *)

(** [cc_target] is whether [cancellation_target_] points to the call, [cc_other]
    whether it points to another one that is alive. *)
Record ClientContext := mkClientContext {
  cc_metadata : multimap;
  cc_initial_metadata : multimap;
  cc_trailing_metadata : multimap;
  cc_target : bool;
  cc_other : bool;
  cc_cancelled : bool;
  cc_terminal : bool }.

#[export] Instance eta_ClientContext : Eta ClientContext := λ c,
  mkClientContext (cc_metadata c) (cc_initial_metadata c) (cc_trailing_metadata c) (cc_target c)
    (cc_other c) (cc_cancelled c) (cc_terminal c).

Definition ClientContext_init : ClientContext := mkClientContext [] [] [] false false false false.

Definition AddMetadata (key value : string) (c : ClientContext) : ClientContext :=
  c <| cc_metadata := mm_emplace key value (cc_metadata c) |>.

Definition RegisterCancellation (c : ClientContext) : bool * ClientContext :=
  if cc_cancelled c || cc_terminal c then (false, c) else (true, c <| cc_target := true |> <| cc_other := false |>).

Definition SetInitialMetadata (initial_metadata : multimap) (c : ClientContext) : ClientContext :=
  c <| cc_initial_metadata := initial_metadata |>.

Definition CompleteCall (initial_metadata trailing_metadata : multimap) (c : ClientContext)
  : ClientContext :=
  if cc_other c then c
  else c <| cc_initial_metadata := initial_metadata |> <| cc_trailing_metadata := trailing_metadata |>
    <| cc_target := false |> <| cc_terminal := true |>.

(** The locked part of [TryCancel]: whether it goes on to cancel the call (when it
    is another call that it cancels, it leaves this one alone) *)
Definition TryCancel_mark (c : ClientContext) : bool * ClientContext :=
  if cc_terminal c then (false, c) else (cc_target c, c <| cc_cancelled := true |>).

(** ** [BlockingCallState] *)

(** [bs_context] and [bs_stream] are whether [context_] and [stream_] are not
    null, [bs_channel_owner] whether the call keeps its channel alive. *)
Record BlockingCallState := mkBlockingCallState {
  bs_context : bool;
  bs_compression : Compression;
  bs_stream : bool;
  bs_channel_owner : bool;
  bs_initial_metadata : entries;
  bs_trailing_metadata : entries;
  bs_message : option string;
  bs_status : grpc_Status;
  bs_writable_generation : Z;
  bs_terminal : bool;
  bs_cancel_requested : bool }.

#[export] Instance eta_BlockingCallState : Eta BlockingCallState := λ s,
  mkBlockingCallState (bs_context s) (bs_compression s) (bs_stream s) (bs_channel_owner s)
    (bs_initial_metadata s) (bs_trailing_metadata s) (bs_message s) (bs_status s)
    (bs_writable_generation s) (bs_terminal s) (bs_cancel_requested s).

Definition BlockingCallState_init (context : bool) (compression : Compression) : BlockingCallState :=
  mkBlockingCallState context compression false false [] [] None grpc_Status_default 0 false false.

Definition SetTerminal (status : grpc_Status) (trailing_metadata : entries) (s : BlockingCallState)
  : BlockingCallState :=
  if bs_terminal s then s
  else s <| bs_status := status |> <| bs_trailing_metadata := trailing_metadata |>
         <| bs_terminal := true |>.

(** [Failed] *)
Definition BlockingCallState_Failed (context : bool) (status : grpc_Status) : BlockingCallState :=
  SetTerminal status [] (BlockingCallState_init context Identity).

(** The callbacks [Open] installs *)
Abbreviation Owner := (BlockingCallState * ClientContext)%type.

Definition call_callbacks : ClientCallbacks Owner := {|
  on_headers es o :=
    (o.1 <| bs_initial_metadata := es |>, SetInitialMetadata (mm_emplace_all es []) o.2);
  on_message payload _ o := (Pause, (o.1 <| bs_message := Some payload |>, o.2));
  on_writable o :=
    (o.1 <| bs_writable_generation := cast_u64 (bs_writable_generation o.1 + 1) |>, o.2);
  on_terminal status trailers o := (SetTerminal (client_NativeStatus status) trailers o.1, o.2) |}.

(** ** The call and the rest of the program

    [bw_transport] is the stream once the channel has opened it.  [bw_cancels]
    counts the threads between the two parts of [TryCancel]; [bw_resuming] the other
    threads between taking a message and resuming.  [bw_read], which the code does not have,
    is the messages read so far. *)

Record BlockingWorld := mkBlockingWorld {
  bw_transport : option ClientTransport;
  bw_state : BlockingCallState;
  bw_context : ClientContext;
  bw_heap : MetadataHeap;
  bw_cancels : nat;
  bw_resuming : nat;
  bw_read : list string }.

#[export] Instance eta_BlockingWorld : Eta BlockingWorld := λ w,
  mkBlockingWorld (bw_transport w) (bw_state w) (bw_context w) (bw_heap w) (bw_cancels w)
    (bw_resuming w) (bw_read w).

Definition on_state (f : BlockingCallState → BlockingCallState) (w : BlockingWorld) : BlockingWorld :=
  w <| bw_state := f (bw_state w) |>.

(** [stream_->...] on the transport, when [stream_] is set *)
Definition on_stream {A} (f : ClientTransport → A * ClientTransport) (w : BlockingWorld)
  : option A * BlockingWorld :=
  if bs_stream (bw_state w) then
    match bw_transport w with
    | Some t => let '(a, t') := f t in (Some a, w <| bw_transport := Some t' |>)
    | None => (None, w)
    end
  else (None, w).

Definition Cancel (w : BlockingWorld) : BlockingWorld :=
  if bs_terminal (bw_state w) then w
  else (on_stream (λ t, ((), clientStreamCancel t))
          (on_state (λ s, s <| bs_cancel_requested := true |>) w)).2.

(** The two parts of [Read]: the first waits while it is [None]. *)
Definition Read_take (w : BlockingWorld) : option (option string * BlockingWorld) :=
  match bs_message (bw_state w) with
  | Some payload =>
      Some (Some payload, (on_state (λ s, s <| bs_message := None |>) w)
                            <| bw_read := bw_read w ++ [payload] |>)
  | None => if bs_terminal (bw_state w) then Some (None, w) else None
  end.

Definition Read_resume (w : BlockingWorld) : BlockingWorld :=
  let '(r, w1) := on_stream clientStreamResumeReceive w in
  match r with
  | None => w1
  | Some r =>
      let error := stream_result r in
      if negb (Error_ok error) && negb (Error_is error ErrorCode.Closed) &&
         negb (Error_is error ErrorCode.Unavailable) && negb (Error_is error ErrorCode.WouldBlock)
      then on_state (SetTerminal (ErrorStatus error) []) w1
      else w1
  end.

(** The two sections of [stream.Send(payload, compression_)], and
    [stream.CloseSend()] *)
Section Steps.
Context {GZ : GzipSize}.

Definition Send_check (payload : string) (w : BlockingWorld) : option Error * BlockingWorld :=
  let '(r, w') := on_stream (clientStreamSend_check payload (bs_compression (bw_state w))) w in
  (stream_result <$> r, w').

Definition Send_commit (memory : bool) (payload : string) (w : BlockingWorld)
  : option Error * BlockingWorld :=
  let '(r, w') := on_stream (clientStreamSend_commit memory payload (bs_compression (bw_state w))) w in
  (stream_result <$> r, w').

Definition CloseSend_section (w : BlockingWorld) : option Error * BlockingWorld :=
  let '(r, w') := on_stream clientStreamCloseSend w in
  (stream_result <$> r, w').

(** The status of a failed command, and the one it gives the call *)
Definition command_status (error : Error) : grpc_Status :=
  if Error_is error ErrorCode.OutOfRange
  then grpc_Status_make RESOURCE_EXHAUSTED (Error_message error)
  else ErrorStatus error.

Definition command_failed (status : grpc_Status) : grpc_Status :=
  grpc_Status_make (gs_code status) ("stream command failed: " +:+ gs_message status).

(** What the loop and the other threads of the application do: a thread's
    [TryCancel] in two steps, [Cancel], another reader or writer, a writer whose
    command failed, and the parts of [Finish]. *)
Inductive BlockingLabel : Type :=
  | BLoop (e : ClientEvent)
  | BTryCancel
  | BTryCancelled
  | BCancel
  | BReadTake
  | BReadResume
  | BSendCheck (payload : string)
  | BSendCommit (memory : bool) (payload : string)
  | BCloseSend
  | BFailed (error : Error)
  | BComplete
  | BDestroy
  | BRelease.

Definition loop_world (e : ClientEvent) (w : BlockingWorld) : option BlockingWorld :=
  match bw_transport w with
  | None => None
  | Some t =>
      match loop_step call_callbacks e (t, (bw_state w, bw_context w)) with
      | None => None
      | Some (t', (s, c)) =>
          Some (w <| bw_transport := Some t' |> <| bw_state := s |> <| bw_context := c |>)
      end
  end.

Definition blocking_step (w : BlockingWorld) (l : BlockingLabel) : option BlockingWorld :=
  match l with
  | BLoop e => loop_world e w
  | BTryCancel =>
      let '(go_on, c) := TryCancel_mark (bw_context w) in
      Some (w <| bw_context := c |>
              <| bw_cancels := if go_on then S (bw_cancels w) else bw_cancels w |>)
  | BTryCancelled =>
      match bw_cancels w with
      | O => None
      | S n => Some ((Cancel w) <| bw_cancels := n |>)
      end
  | BCancel => Some (Cancel w)
  | BReadTake =>
      match Read_take w with
      | Some (Some _, w') => Some (w' <| bw_resuming := S (bw_resuming w') |>)
      | Some (None, w') => Some w'
      | None => None
      end
  | BReadResume =>
      match bw_resuming w with
      | O => None
      | S n => Some (Read_resume (w <| bw_resuming := n |>))
      end
  | BSendCheck payload => Some (Send_check payload w).2
  | BSendCommit memory payload => Some (Send_commit memory payload w).2
  | BCloseSend => Some (CloseSend_section w).2
  | BFailed error =>
      if Error_ok error then None
      else Some (on_state (SetTerminal (command_failed (command_status error)) []) w)
  | BComplete =>
      if bs_terminal (bw_state w) && bs_context (bw_state w)
      then Some (w <| bw_context := CompleteCall (mm_emplace_all (bs_initial_metadata (bw_state w)) [])
                       (mm_emplace_all (bs_trailing_metadata (bw_state w)) []) (bw_context w) |>)
      else None
  | BDestroy =>
      if bs_terminal (bw_state w) then Some (on_state (λ s, s <| bs_stream := false |>) w) else None
  | BRelease =>
      if bs_stream (bw_state w) then None
      else Some ((on_state (λ s, s <| bs_channel_owner := false |>) w)
                   <| bw_transport := clientStreamRelease <$> bw_transport w |>)
  end.

(** ** Threads

    A slot says what the others do before a section, whether the library finds its
    memory in it, and the answer of [openStream]. *)

Record CSlot := mkCSlot {
  cs_labels : list BlockingLabel;
  cs_memory : bool;
  cs_open : option StreamError }.

Inductive COutcome (A : Type) : Type :=
  | CReturned (a : A) (slots : list CSlot) (w : BlockingWorld)
  | CWaiting (w : BlockingWorld)
  | CUndefined.
End Steps.
Arguments CReturned {A}.
Arguments CWaiting {A}.
Arguments CUndefined {A}.

Definition CThread (A : Type) : Type := list CSlot → BlockingWorld → COutcome A.

#[export] Instance cthread_ret : MRet CThread := λ A a slots w, CReturned a slots w.
#[export] Instance cthread_bind : MBind CThread := λ A B k m slots w,
  match m slots w with
  | CReturned a slots' w' => k a slots' w'
  | CWaiting w' => CWaiting w'
  | CUndefined => CUndefined
  end.

Section Threads.
Context {GZ : GzipSize}.

(** A section that waits while [f] is [None] *)
Fixpoint wait_until {A} (f : CSlot → BlockingWorld → option (A * BlockingWorld))
    (slots : list CSlot) (w : BlockingWorld) : COutcome A :=
  match slots with
  | [] => CWaiting w
  | slot :: rest =>
      match run blocking_step w (cs_labels slot) with
      | None => CWaiting w
      | Some w1 =>
          match f slot w1 with
          | Some (a, w2) => CReturned a rest w2
          | None => wait_until f rest w1
          end
      end
  end.

Definition section {A} (f : BlockingWorld → A * BlockingWorld) : CThread A :=
  wait_until (λ _ w, Some (f w)).

Definition update (f : BlockingWorld → BlockingWorld) : CThread () := section (λ w, ((), f w)).

(** Code that works on metadata objects only *)
Definition on_heap {A} (m : heapM A) : CThread A := λ slots w,
  match m (bw_heap w) with
  | Some (a, h) => CReturned a slots (w <| bw_heap := h |>)
  | None => CUndefined
  end.

Definition CallCancel : CThread () := update Cancel.

(** The command on the stream, or the error [Closed] without one *)
Definition closed_error (r : option Error) : Error := default (mkError ErrorCode.Closed) r.

Definition send_command (payload : string) : CThread Error :=
  checked ← section (Send_check payload);
  if negb (Error_ok (closed_error checked)) then mret (closed_error checked)
  else
    r ← wait_until (λ slot w, Some (Send_commit (cs_memory slot) payload w));
    mret (closed_error r).

Definition close_command : CThread Error :=
  r ← section CloseSend_section; mret (closed_error r).

(** [changed_.wait(lock, [&] { return terminal_; }); return status_;] *)
Definition wait_terminal : CThread grpc_Status :=
  wait_until (λ _ w, if bs_terminal (bw_state w) then Some (bs_status (bw_state w), w) else None).

(** The loop of [RunCommand]: every round takes slots of the schedule. *)
Fixpoint RunCommand_loop (fuel : nat) (command : CThread Error) : CThread grpc_Status :=
  match fuel with
  | O => λ _ w, CWaiting w
  | S fuel' =>
      start ← section (λ w, (if bs_terminal (bw_state w) then inl (bs_status (bw_state w))
                             else inr (bs_writable_generation (bw_state w)), w));
      match start with
      | inl status => mret status
      | inr generation =>
          error ← command;
          if Error_ok error then mret grpc_Status_default
          else if Error_is error ErrorCode.Closed then wait_terminal
          else if negb (Error_is error ErrorCode.WouldBlock) then
            let status := command_status error in
            _ ← update (on_state (SetTerminal (command_failed status) []));
            mret status
          else
            ended ← wait_until (λ _ w,
              if bs_terminal (bw_state w) then Some (Some (bs_status (bw_state w)), w)
              else if negb (bs_writable_generation (bw_state w) =? generation) then Some (None, w)
              else None);
            match ended with
            | Some status => mret status
            | None => RunCommand_loop fuel' command
            end
      end
  end.

Definition RunCommand (command : CThread Error) : CThread grpc_Status := λ slots,
  RunCommand_loop (S (length slots)) command slots.

Definition Send (payload : string) : CThread grpc_Status := RunCommand (send_command payload).
Definition CloseSend : CThread grpc_Status := RunCommand close_command.

Definition SendAndClose (payload : string) : CThread grpc_Status :=
  status ← Send payload;
  if negb (grpc_Status_ok status) then mret status else CloseSend.

(** [output] is whether the pointer is not null; the message, or [None] for the
    result false *)
Definition Read (output : bool) : CThread (option string) :=
  if negb output then mret None
  else
    r ← wait_until (λ _ w, Read_take w);
    match r with
    | None => mret None
    | Some payload => _ ← update Read_resume; mret (Some payload)
    end.

Definition DestroyStream : CThread () :=
  had ← section (λ w, (bs_stream (bw_state w), on_state (λ s, s <| bs_stream := false |>) w));
  _ ← update (λ w, if had : bool then w <| bw_transport := clientStreamRelease <$> bw_transport w |> else w);
  update (on_state (λ s, s <| bs_channel_owner := false |>)).

Definition Finish : CThread grpc_Status :=
  r ← wait_until (λ _ w, let s := bw_state w in
    if bs_terminal s
    then Some ((bs_status s, (mm_emplace_all (bs_initial_metadata s) [],
                              mm_emplace_all (bs_trailing_metadata s) [])), w)
    else None);
  let '(status, (initial, trailing)) := r in
  _ ← update (λ w, if bs_context (bw_state w)
                   then w <| bw_context := CompleteCall initial trailing (bw_context w) |> else w);
  _ ← DestroyStream;
  mret status.

(** [Open]: [limits] are those of the stream options and [timeout] whether a
    deadline was set.  The metadata object lives until the function returns. *)
Definition Open (limits : StreamLimits) (timeout : bool) : CThread () :=
  _ ← update (on_state (λ s, s <| bs_channel_owner := true |>));
  registered ← section (λ w, let '(r, c) := RegisterCancellation (bw_context w) in
                             (r, w <| bw_context := c |>));
  if negb registered then
    update (on_state (SetTerminal (grpc_Status_make CANCELLED "call cancelled before start") []))
  else
    metadata ← section (λ w, (cc_metadata (bw_context w), w));
    r ← on_heap (CopyMetadata metadata Metadata_default);
    _ ← (if negb (Error_ok r.1) then update (on_state (SetTerminal (ErrorStatus r.1) []))
         else
           _ ← on_heap (match r.2 with Some handle => metadataStorage handle | None => mret [] end);
           opened ← wait_until (λ slot w,
             Some (match cs_open slot with
                   | Some e => (Some e, w)
                   | None =>
                       (None, (on_state (λ s, s <| bs_stream := true |>) w)
                                <| bw_transport := Some (open_transport limits
                                     (bs_compression (bw_state w)) timeout) |>)
                   end));
           match opened with
           | None =>
               update (λ w, if bs_cancel_requested (bw_state w)
                            then (on_stream (λ t, ((), clientStreamCancel t)) w).2 else w)
           | Some e => update (on_state (SetTerminal (ErrorStatus (stream_result (Some e))) []))
           end);
    on_heap (Metadata_destructor r.2).
End Threads.
