(* ===== verification/ClientLoop.v ===== *)
(** * The loop and the blocking call

    What the steps of the channel's loop ([ClientTransport.loop_step]) keep and
    establish for a stream whose callbacks are those of a blocking call:
    [loop_inv] ties the one message a call can hold to the pause of the stream,
    [loop_rel] is what no step of the loop changes, and [wire_inv] relates the
    messages on the connection to those delivered. *)

From S2P Require Import Prelude Status Metadata ServerTransport ClientTransport BlockingCall.

Local Open Scope Z_scope.

(** ** The invariant of the loop's side

    [read] are the messages read so far, [resuming] the readers that have yet to
    resume. *)

Record loop_inv (read : list string) (resuming : nat) (w : ClientTransport * Owner) : Prop := {
  li_fifo : ct_received w.1 = read ++ option_list (bs_message w.2.1);
  li_one : (length (option_list (bs_message w.2.1)) + resuming ≤ 1)%nat;
  li_held : (0 < length (option_list (bs_message w.2.1)) + resuming)%nat →
    ct_receive_paused w.1 = true ∧ ct_resume_requested w.1 = false;
  li_resume : ct_resume_requested w.1 = true → ct_receive_paused w.1 = true;
  li_terminal : ct_terminal w.1 = true → ct_app w.1 = true → bs_terminal w.2.1 = true;
  li_loop : ct_loop w.1 = false → ct_terminal w.1 = true }.

Section LoopInv.
Context {GZ : GzipSize} (read : list string) (resuming : nat).

Local Abbreviation inv := (loop_inv read resuming).

Lemma SetTerminal_message status trailing s :
  bs_message (SetTerminal status trailing s) = bs_message s.
Proof. unfold SetTerminal. by destruct (bs_terminal s). Qed.

Lemma SetTerminal_terminal status trailing s : bs_terminal (SetTerminal status trailing s) = true.
Proof. unfold SetTerminal. by destruct (bs_terminal s) eqn:E. Qed.

Lemma inv_terminalize status w : inv w → inv (terminalizeStream call_callbacks status w).
Proof.
  destruct w as [t [s c]]. intros [H1 H2 H3 H6 H4 H5]. unfold terminalizeStream. simpl in *.
  destruct (ct_terminal t) eqn:Et; [split; simpl; auto|].
  destruct (ct_app t) eqn:Ea; split; simpl; rewrite ?SetTerminal_message, ?SetTerminal_terminal;
    try done; congruence.
Qed.

Lemma terminalize_terminal status w :
  ct_terminal (terminalizeStream call_callbacks status w).1 = true.
Proof. destruct w as [t s]. unfold terminalizeStream. by destruct (ct_terminal t) eqn:E. Qed.

Lemma inv_release w : ct_terminal w.1 = true → inv w → inv (releaseStreamLoopOwnership w).
Proof. destruct w as [t o]. intros Ht [H1 H2 H3 H6 H4 H5]. split; simpl; auto. Qed.

Lemma inv_end status w :
  inv w → inv (releaseStreamLoopOwnership (terminalizeStream call_callbacks status w)).
Proof. intros H. apply inv_release; [apply terminalize_terminal|by apply inv_terminalize]. Qed.

(** A change of the transport that the owner cannot see *)
Lemma inv_same (t t' : ClientTransport) o :
  inv (t, o) → ct_received t' = ct_received t → ct_receive_paused t' = ct_receive_paused t →
  ct_resume_requested t' = ct_resume_requested t → ct_terminal t' = ct_terminal t →
  ct_app t' = ct_app t → ct_loop t' = ct_loop t → inv (t', o).
Proof.
  intros [H1 H2 H3 H6 H4 H5] E1 E2 E3 E4 E5 E6. simpl in *.
  split; simpl; rewrite ?E1, ?E2, ?E3, ?E4, ?E5, ?E6; auto.
Qed.

Lemma forced_same status t :
  let t' := setForcedStreamStatus status t in
  ct_received t' = ct_received t ∧ ct_receive_paused t' = ct_receive_paused t ∧
  ct_resume_requested t' = ct_resume_requested t ∧ ct_terminal t' = ct_terminal t ∧
  ct_app t' = ct_app t ∧ ct_loop t' = ct_loop t ∧ ct_inbound t' = ct_inbound t ∧
  ct_rst_submitted t' = ct_rst_submitted t.
Proof. unfold setForcedStreamStatus. by destruct (ct_forced_status t). Qed.

Lemma inv_forced status t o : inv (t, o) → inv (setForcedStreamStatus status t, o).
Proof. intros H. destruct (forced_same status t) as (?&?&?&?&?&?&?&?). by eapply inv_same. Qed.

Lemma inv_fail status t o : inv (t, o) → inv (failClientStreamOnLoop status t, o).
Proof.
  intros H%(inv_forced status). unfold failClientStreamOnLoop. case_match; [done|].
  by eapply inv_same.
Qed.

(** A message reaches an owner that has none and does not expect one to be
    resumed. *)
Lemma inv_message payload t s x :
  inv (t, (s, x)) → (length (option_list (bs_message s)) + resuming = 0)%nat →
  ct_resume_requested t = false →
  inv (t <| ct_received := ct_received t ++ [payload] |> <| ct_receive_paused := true |>,
       (s <| bs_message := Some payload |>, x)).
Proof.
  intros [H1 H2 H3 H6 H4 H5] Hz Hr. simpl in *.
  destruct (bs_message s) as [m|]; simpl in *; [lia|].
  split; simpl; auto; [by rewrite H1, app_nil_r|lia].
Qed.

Lemma inv_free t s x :
  inv (t, (s, x)) → ct_receive_paused t = false →
  (length (option_list (bs_message s)) + resuming = 0)%nat ∧ ct_resume_requested t = false.
Proof.
  intros [H1 H2 H3 H6 H4 H5] Hp. simpl in *. split.
  - destruct (decide (0 < length (option_list (bs_message s)) + resuming)%nat) as [H|]; [|lia].
    destruct (H3 H). congruence.
  - destruct (ct_resume_requested t); [|done]. rewrite (H6 eq_refl) in Hp. done.
Qed.

Lemma inv_decode payload c w : inv w → inv (decodeMessage call_callbacks payload c w).
Proof.
  destruct w as [t [s x]]. intros H. unfold decodeMessage.
  destruct (callbacksEnabled t) eqn:Ee; [|done]. simpl.
  destruct (ct_receive_paused t) eqn:Ep.
  { case_match; [by apply inv_fail|]. by eapply inv_same. }
  rewrite Ee. simpl. destruct (inv_free _ _ _ H Ep). by apply inv_message.
Qed.

(** The queue is delivered until the first message, which the owner answers with
    [Pause]. *)
Lemma inv_deliver w :
  inv w → (length (option_list (bs_message w.2.1)) + resuming = 0)%nat →
  ct_resume_requested w.1 = false → inv (deliverInboundMessages call_callbacks w).
Proof.
  destruct w as [t [s x]]. intros H Hz Hr. unfold deliverInboundMessages. simpl in *.
  set (t1 := t <| ct_receive_paused := false |>).
  assert (H1 : inv (t1, (s, x))).
  { destruct H as [H1 H2 H3 H6 H4 H5]. split; simpl in *; auto; [lia|congruence]. }
  assert (Hl : inv (deliver_loop call_callbacks (length (ct_inbound t)) (t1, (s, x)))).
  { destruct (ct_inbound t) as [|[payload c] rest] eqn:Ei; [done|]. simpl length. cbn [deliver_loop].
    replace (ct_inbound (t1, (s, x)).1) with ((payload, c) :: rest) by done.
    destruct (ct_receive_paused (t1, (s, x)).1 || negb (callbacksEnabled (t1, (s, x)).1)) eqn:Eg; [done|].
    apply orb_false_iff in Eg as [_ Ee]. apply negb_false_iff in Ee.
    unfold invokeMessageCallback.
    assert (Ee' : callbacksEnabled (t1 <| ct_inbound := rest |>
        <| ct_inbound_buffered := ct_inbound_buffered t1 - (zlen payload + header_size) |>) = true) by done.
    cbn [fst snd]. rewrite Ee'. cbn [negb]. simpl.
    set (w2 := pair _ _ : ClientTransport * Owner).
    assert (H2 : inv w2).
    { apply (inv_message payload) in H1; [|done|done]. by eapply inv_same. }
    destruct rest as [|[p2 c2] rest']; simpl; [done|]. done. }
  destruct (deliver_loop _ _ _) as [t2 o2] eqn:E. case_match; [by apply inv_end|done].
Qed.

Lemma inv_process w : inv w → inv (processClientStreamCommands call_callbacks w).
Proof.
  destruct w as [t [s x]]. intros H. unfold processClientStreamCommands. cbn [fst snd].
  set (cancel := ct_cancel_requested t || negb (ct_app t)).
  set (t1 := t <| ct_resume_requested := false |> <| ct_deadline := ct_deadline t && negb cancel |>).
  assert (H1 : inv (t1, (s, x))).
  { destruct H as [H1 H2 H3 H6 H4 H5]. split; simpl in *; auto; [|done]. intros Hp. by destruct (H3 Hp). }
  assert (Hz : ct_resume_requested t = true → (length (option_list (bs_message s)) + resuming = 0)%nat).
  { intros Hr. destruct (decide (0 < length (option_list (bs_message s)) + resuming)%nat) as [Hp|]; [|lia].
    destruct (li_held _ _ _ H Hp). simpl in *. congruence. }
  destruct (ct_transport_closed t1).
  { destruct cancel; [by apply inv_end|]. destruct (ct_resume_requested t) eqn:Er; [|done].
    apply inv_deliver; auto. }
  set (t2 := if cancel && negb (ct_rst_submitted t1) then _ else _).
  assert (inv (t2, (s, x)) ∧ ct_resume_requested t2 = false) as [H2 Hr2].
  { unfold t2. destruct (cancel && negb (ct_rst_submitted t1)); [|done].
    destruct (ct_app t1); [|by split; [eapply inv_same|]].
    destruct (forced_same stream_cancelled t1) as (?&?&?&?&?&?&?&?).
    split; [by eapply inv_same|]. by trans (ct_resume_requested t1). }
  destruct (ct_resume_requested t && negb (ct_rst_submitted t2)) eqn:Er; [|done].
  apply andb_true_iff in Er as [Er _]. apply inv_deliver; auto.
Qed.

Lemma inv_frame_sent w w' : inv w → frame_sent call_callbacks w = Some w' → inv w'.
Proof.
  destruct w as [t [s x]]. intros H. unfold frame_sent. cbn [fst snd].
  destruct (ct_outbound t) as [|[payload c] rest]; [done|]. intros [= <-].
  set (t1 := t <| ct_outbound := rest |> <| ct_outbound_buffered := _ |>
               <| ct_backpressure_requested := _ |>).
  assert (H1 : inv (t1, (s, x))) by by eapply inv_same.
  destruct (ct_backpressure_requested t); [|done]. unfold invokeWritableCallback. cbn [fst snd].
  destruct (callbacksEnabled t1); [|done]. destruct H1 as [H1 H2 H3 H6 H4 H5]. by split.
Qed.

Lemma inv_close outcome trailing passed w :
  inv w → inv (onStreamClose call_callbacks outcome trailing passed w).
Proof.
  destruct w as [t o]. intros H. unfold onStreamClose. cbn [fst snd].
  set (t1 := t <| ct_deadline := false |> <| ct_transport_closed := true |>
               <| ct_outcome := outcome |> <| ct_trailing := trailing |> <| ct_send_open := false |>).
  assert (H1 : inv (t1, o)) by by eapply inv_same.
  set (t2 := if ct_cancel_requested t1 && ct_app t1 then _ else _).
  assert (H2 : inv (t2, o)) by (unfold t2; repeat case_match; auto using inv_forced).
  case_match; [by apply inv_end|done].
Qed.

Lemma inv_wake k w : inv w → inv (processStreamWake call_callbacks k w).
Proof.
  destruct w as [t o]. intros H. unfold processStreamWake. cbn [fst snd].
  assert (H1 : inv (t <| ct_deadline := ct_has_deadline t |>, o)) by by eapply inv_same.
  destruct (ct_submitted t); [by apply inv_process|]. destruct (_ && _); [by apply inv_end|].
  destruct (_ || _); [by apply inv_end|]. destruct (_ && _); [by apply inv_end|].
  destruct (negb _); [by apply inv_end|]. destruct (negb _); [by apply inv_end|].
  apply inv_process. by eapply inv_same.
Qed.

Lemma inv_expire w : inv w → inv (expire_deadline call_callbacks w).
Proof.
  destruct w as [t o]. intros H. unfold expire_deadline. cbn [fst snd].
  assert (H1 : inv (t <| ct_deadline := false |>, o)) by by eapply inv_same.
  destruct (_ || _); [by apply inv_end|]. apply (inv_forced deadline_exceeded) in H1. by eapply inv_same.
Qed.

Lemma inv_goaway w : inv w → inv (goaway call_callbacks w).
Proof.
  destruct w as [t o]. intros H. unfold goaway. cbn [fst snd].
  destruct (ct_submitted t); [|by apply inv_end].
  apply (inv_forced received_goaway) in H.
  apply (inv_terminalize (default received_goaway (ct_forced_status (setForcedStreamStatus received_goaway t)))) in H.
  destruct (terminalizeStream _ _ _) as [t2 o2]. by eapply inv_same.
Qed.

Lemma inv_loop_step e w w' : inv w → loop_step call_callbacks e w = Some w' → inv w'.
Proof.
  intros H. unfold loop_step. destruct (negb (ct_loop w.1)); [done|]. destruct w as [t [s x]].
  destruct e; cbn [fst snd].
  - destruct (_ || _); [done|]. intros [= <-]. unfold invokeHeadersCallback. cbn [fst snd].
    destruct (callbacksEnabled _); [|by eapply inv_same]. destruct H as [H1 H2 H3 H6 H4 H5]. by split.
  - destruct (negb _); [done|]. intros E. apply (inj Some) in E as <-. apply inv_decode. by eapply inv_same.
  - destruct (_ || _); [done|]. intros [= <-]. by apply inv_fail.
  - intros E. apply (inj Some) in E as <-. by apply inv_wake.
  - destruct (negb _); [done|]. by apply inv_frame_sent.
  - destruct (negb _); [done|]. intros E. apply (inj Some) in E as <-. by apply inv_close.
  - destruct (_ && _); [|done]. intros E. apply (inj Some) in E as <-. by apply inv_expire.
  - destruct (ct_transport_closed t); [done|]. intros E. apply (inj Some) in E as <-. by apply inv_goaway.
  - intros [= <-]. apply inv_end. by eapply inv_same.
Qed.
End LoopInv.

(** ** What every step of the loop leaves alone *)

Record loop_rel (w w' : ClientTransport * Owner) : Prop := {
  lr_app : ct_app w'.1 = ct_app w.1;
  lr_cancel : ct_cancel_requested w'.1 = ct_cancel_requested w.1;
  lr_sent : ct_sent w'.1 = ct_sent w.1;
  lr_terminal : ct_terminal w.1 = true → ct_terminal w'.1 = true;
  lr_stream : bs_stream w'.2.1 = bs_stream w.2.1;
  lr_requested : bs_cancel_requested w'.2.1 = bs_cancel_requested w.2.1;
  lr_status : bs_terminal w.2.1 = true →
    bs_terminal w'.2.1 = true ∧ bs_status w'.2.1 = bs_status w.2.1 ∧
    bs_trailing_metadata w'.2.1 = bs_trailing_metadata w.2.1;
  lr_target : cc_target w'.2.2 = cc_target w.2.2;
  lr_cancelled : cc_cancelled w'.2.2 = cc_cancelled w.2.2 }.

#[export] Instance loop_rel_preorder : PreOrder loop_rel.
Proof.
  split; [by intros w; split|]. intros a b c H1 H2. split.
  - by rewrite (lr_app _ _ H2), (lr_app _ _ H1).
  - by rewrite (lr_cancel _ _ H2), (lr_cancel _ _ H1).
  - by rewrite (lr_sent _ _ H2), (lr_sent _ _ H1).
  - intros H. by apply (lr_terminal _ _ H2), (lr_terminal _ _ H1).
  - by rewrite (lr_stream _ _ H2), (lr_stream _ _ H1).
  - by rewrite (lr_requested _ _ H2), (lr_requested _ _ H1).
  - intros H. destruct (lr_status _ _ H1 H) as (E1 & E2 & E3).
    destruct (lr_status _ _ H2 E1) as (E4 & E5 & E6). by rewrite E5, E6.
  - by rewrite (lr_target _ _ H2), (lr_target _ _ H1).
  - by rewrite (lr_cancelled _ _ H2), (lr_cancelled _ _ H1).
Qed.

(** Closes a step whose effect is written out *)
Ltac loop_rel_solve := split; simpl; auto; repeat case_match; simpl; auto.

Section LoopRel.
Context {GZ : GzipSize}.

Lemma rel_forced status t o : loop_rel (t, o) (setForcedStreamStatus status t, o).
Proof. unfold setForcedStreamStatus. destruct (ct_forced_status t); loop_rel_solve. Qed.

Lemma rel_fail status t o : loop_rel (t, o) (failClientStreamOnLoop status t, o).
Proof.
  etrans; [apply (rel_forced status)|]. unfold failClientStreamOnLoop.
  destruct (_ || _); [done|]. loop_rel_solve.
Qed.

Lemma rel_terminalize status w : loop_rel w (terminalizeStream call_callbacks status w).
Proof.
  destruct w as [t [s c]]. unfold terminalizeStream, SetTerminal.
  destruct (ct_terminal t) eqn:Et; [loop_rel_solve|].
  destruct (ct_app t) eqn:Ea; [|loop_rel_solve].
  simpl. unfold SetTerminal. destruct (bs_terminal s) eqn:Eb; split; simpl; auto; congruence.
Qed.

Lemma rel_release w : loop_rel w (releaseStreamLoopOwnership w).
Proof. loop_rel_solve. Qed.

Lemma rel_end status w :
  loop_rel w (releaseStreamLoopOwnership (terminalizeStream call_callbacks status w)).
Proof. etrans; [apply rel_terminalize|apply rel_release]. Qed.

Lemma rel_pause action w : loop_rel w (pause_if action w).
Proof. destruct action; [done|]. loop_rel_solve. Qed.

Lemma rel_message payload c w : loop_rel w (invokeMessageCallback call_callbacks payload c w).2.
Proof.
  destruct w as [t [s x]]. unfold invokeMessageCallback. destruct (negb _); [done|]. loop_rel_solve.
Qed.

Lemma rel_decode payload c w : loop_rel w (decodeMessage call_callbacks payload c w).
Proof.
  pose proof (rel_message payload c w) as Hm. destruct w as [t [s x]]. unfold decodeMessage.
  destruct (negb _); [done|]. destruct (ct_receive_paused t).
  { destruct (_ >? _); [apply rel_fail|loop_rel_solve]. }
  destruct (invokeMessageCallback _ _ _ _) as [[action|] w']; [|done].
  etrans; [apply Hm|apply rel_pause].
Qed.

Lemma rel_deliver_loop n w : loop_rel w (deliver_loop call_callbacks n w).
Proof.
  revert w. induction n as [|n IH]; intros w; cbn [deliver_loop]; [done|].
  destruct (ct_inbound w.1) as [|[payload c] rest]; [done|]. destruct (_ || _); [done|].
  set (w1 := (_, w.2)). assert (H1 : loop_rel w w1) by loop_rel_solve.
  pose proof (rel_message payload c w1) as Hm.
  destruct (invokeMessageCallback _ payload c w1) as [action w2]. simpl in Hm.
  etrans; [apply H1|]. etrans; [apply Hm|]. etrans; [apply rel_pause|apply IH].
Qed.

Lemma rel_deliver w : loop_rel w (deliverInboundMessages call_callbacks w).
Proof.
  unfold deliverInboundMessages. set (w1 := (_, w.2)).
  assert (H1 : loop_rel w w1) by loop_rel_solve.
  etrans; [apply H1|]. etrans; [apply (rel_deliver_loop (length (ct_inbound w1.1)))|].
  destruct (_ && _); [apply rel_end|done].
Qed.

Lemma rel_process w : loop_rel w (processClientStreamCommands call_callbacks w).
Proof.
  unfold processClientStreamCommands. set (cancel := ct_cancel_requested w.1 || negb (ct_app w.1)).
  set (t1 := w.1 <| ct_resume_requested := false |> <| ct_deadline := _ |>).
  assert (H1 : loop_rel w (t1, w.2)) by loop_rel_solve.
  etrans; [apply H1|]. destruct (ct_transport_closed t1).
  { destruct cancel; [apply rel_end|]. destruct (ct_resume_requested _); [apply rel_deliver|done]. }
  set (t2 := if cancel && negb (ct_rst_submitted t1) then _ else _).
  assert (H2 : loop_rel (t1, w.2) (t2, w.2)).
  { unfold t2. destruct (cancel && _); [|done]. destruct (ct_app t1); [|loop_rel_solve].
    etrans; [apply (rel_forced stream_cancelled)|loop_rel_solve]. }
  etrans; [apply H2|].
  destruct (ct_resume_requested w.1 && negb (ct_rst_submitted t2)); [apply rel_deliver|done].
Qed.

Lemma rel_close outcome trailing passed w :
  loop_rel w (onStreamClose call_callbacks outcome trailing passed w).
Proof.
  unfold onStreamClose.
  set (t1 := w.1 <| ct_deadline := false |> <| ct_transport_closed := true |>
               <| ct_outcome := outcome |> <| ct_trailing := trailing |> <| ct_send_open := false |>).
  assert (H1 : loop_rel w (t1, w.2)) by loop_rel_solve.
  etrans; [apply H1|]. set (t2 := if ct_cancel_requested t1 && ct_app t1 then _ else _).
  assert (H2 : loop_rel (t1, w.2) (t2, w.2)).
  { unfold t2. destruct (_ && _); [apply rel_forced|]. destruct (_ && _); [apply rel_forced|done]. }
  etrans; [apply H2|]. destruct (_ || _); [apply rel_end|done].
Qed.

Lemma rel_wake k w : loop_rel w (processStreamWake call_callbacks k w).
Proof.
  unfold processStreamWake. destruct (ct_submitted w.1); [apply rel_process|].
  destruct (_ && _); [apply rel_end|]. set (t1 := w.1 <| ct_deadline := _ |>).
  assert (H1 : loop_rel w (t1, w.2)) by loop_rel_solve. etrans; [apply H1|].
  destruct (_ || _); [apply rel_end|]. destruct (_ && _); [apply rel_end|].
  destruct (negb _); [apply rel_end|]. destruct (negb _); [apply rel_end|].
  etrans; [|apply rel_process]. loop_rel_solve.
Qed.

Lemma rel_expire w : loop_rel w (expire_deadline call_callbacks w).
Proof.
  unfold expire_deadline. set (t1 := w.1 <| ct_deadline := false |>).
  assert (H1 : loop_rel w (t1, w.2)) by loop_rel_solve. etrans; [apply H1|].
  destruct (_ || _); [apply rel_end|]. etrans; [apply (rel_forced deadline_exceeded)|loop_rel_solve].
Qed.

Lemma rel_goaway w : loop_rel w (goaway call_callbacks w).
Proof.
  unfold goaway. destruct w as [t o]. cbn [fst snd].
  destruct (ct_submitted t); [|apply rel_end]. etrans; [apply (rel_forced received_goaway)|].
  etrans; [apply (rel_terminalize (default received_goaway
    (ct_forced_status (setForcedStreamStatus received_goaway t))))|].
  loop_rel_solve.
Qed.

Lemma rel_loop_step e w w' : loop_step call_callbacks e w = Some w' → loop_rel w w'.
Proof.
  unfold loop_step. destruct (negb (ct_loop w.1)); [done|]. destruct e.
  - destruct (_ || _); [done|]. intros E. apply (inj Some) in E as <-. unfold invokeHeadersCallback.
    destruct (callbacksEnabled _); loop_rel_solve.
  - destruct (negb _); [done|]. intros E. apply (inj Some) in E as <-.
    etrans; [|apply rel_decode]. loop_rel_solve.
  - destruct (_ || _); [done|]. intros E. apply (inj Some) in E as <-.
    destruct w as [t o]. apply rel_fail.
  - intros E. apply (inj Some) in E as <-. apply rel_wake.
  - destruct (negb _); [done|]. unfold frame_sent.
    destruct (ct_outbound w.1) as [|[payload c] rest]; [done|]. intros E. apply (inj Some) in E as <-.
    unfold invokeWritableCallback. destruct (ct_backpressure_requested _); [|loop_rel_solve].
    destruct (callbacksEnabled _); loop_rel_solve.
  - destruct (negb _); [done|]. intros E. apply (inj Some) in E as <-. apply rel_close.
  - destruct (_ && _); [|done]. intros E. apply (inj Some) in E as <-. apply rel_expire.
  - destruct (ct_transport_closed _); [done|]. intros E. apply (inj Some) in E as <-. apply rel_goaway.
  - intros E. apply (inj Some) in E as <-. unfold stop_stream.
    set (w1 := (_, w.2)). assert (H1 : loop_rel w w1) by loop_rel_solve.
    etrans; [apply H1|]. apply rel_end.
Qed.
End LoopRel.

(** ** From the connection to the application *)

(** While the callbacks are enabled nothing that came in is lost, unless the
    stream has been reset; a call that ended OK has been given everything and waits
    for no reader. *)
Record wire_core (w : ClientTransport * Owner) : Prop := {
  wi_prefix : ct_received w.1 `prefix_of` ct_wire w.1;
  wi_queue : callbacksEnabled w.1 = true → ct_rst_submitted w.1 = false →
    ct_received w.1 ++ (ct_inbound w.1).*1 = ct_wire w.1;
  wi_flow : callbacksEnabled w.1 = true → ct_receive_paused w.1 = false →
    ct_received w.1 = ct_wire w.1 ∧ ct_inbound w.1 = [];
  wi_rst : ct_rst_submitted w.1 = true → callbacksEnabled w.1 = true → ct_forced_status w.1 ≠ None;
  wi_forced : ∀ f, ct_forced_status w.1 = Some f → Status_ok f = false;
  wi_ok : bs_terminal w.2.1 = true → grpc_Status_ok (bs_status w.2.1) = true →
    ct_received w.1 = ct_wire w.1 ∧ ct_loop w.1 = false ∧ ct_receive_paused w.1 = false }.

Definition wire_inv (w : ClientTransport * Owner) : Prop :=
  wire_core w ∧
  (ct_loop w.1 = true → ct_transport_closed w.1 = true → ct_forced_status w.1 = None).

Section Wire.
Context {GZ : GzipSize}.

(** A change that concerns neither the messages nor the status *)
Lemma core_same (t t' : ClientTransport) s x s' x' :
  wire_core (t, (s, x)) → ct_received t' = ct_received t → ct_wire t' = ct_wire t →
  ct_inbound t' = ct_inbound t → ct_rst_submitted t' = ct_rst_submitted t →
  ct_receive_paused t' = ct_receive_paused t → ct_forced_status t' = ct_forced_status t →
  ct_loop t' = ct_loop t → (callbacksEnabled t' = true → callbacksEnabled t = true) →
  bs_terminal s' = bs_terminal s → bs_status s' = bs_status s → wire_core (t', (s', x')).
Proof.
  intros [H1 H2 H3 H4 H5 H6] E1 E2 E3 E4 E5 E6 E7 E8 E9 E10. simpl in *.
  split; simpl; rewrite ?E1, ?E2, ?E3, ?E4, ?E5, ?E6, ?E7, ?E9, ?E10; auto.
Qed.

(** A stream whose callbacks are disabled *)
Lemma core_disabled w :
  callbacksEnabled w.1 = false → ct_received w.1 `prefix_of` ct_wire w.1 →
  (∀ f, ct_forced_status w.1 = Some f → Status_ok f = false) →
  (bs_terminal w.2.1 = true → grpc_Status_ok (bs_status w.2.1) = true →
   ct_received w.1 = ct_wire w.1 ∧ ct_loop w.1 = false ∧ ct_receive_paused w.1 = false) → wire_core w.
Proof. intros He H1 H2 H3. split; try done; intros; congruence. Qed.

(** The end of a stream *)
Lemma wire_end status w :
  wire_core w →
  (ct_terminal w.1 = false → ct_app w.1 = true → Status_ok status = true →
   ct_received w.1 = ct_wire w.1 ∧ ct_receive_paused w.1 = false) →
  wire_inv (releaseStreamLoopOwnership (terminalizeStream call_callbacks status w)).
Proof.
  intros H Hs. split; [|done]. apply core_disabled.
  - unfold callbacksEnabled. change (ct_terminal (releaseStreamLoopOwnership ?w).1) with (ct_terminal w.1).
    by rewrite terminalize_terminal, andb_false_r.
  - destruct w as [t o]. unfold terminalizeStream. destruct (ct_terminal t); apply (wi_prefix _ H).
  - destruct w as [t o]. unfold terminalizeStream. destruct (ct_terminal t); apply (wi_forced _ H).
  - destruct w as [t [s x]]. pose proof (wi_ok _ H) as H6. unfold terminalizeStream. simpl in *.
    assert (H6' : bs_terminal s = true → grpc_Status_ok (bs_status s) = true →
                  ct_received t = ct_wire t ∧ false = false ∧ ct_receive_paused t = false)
      by (intros Hb Ho; by destruct (H6 Hb Ho) as (? & _ & ?)).
    destruct (ct_terminal t) eqn:Et; [done|]. destruct (ct_app t) eqn:Ea; [|done]. simpl.
    unfold SetTerminal. destruct (bs_terminal s) eqn:Eb; [by rewrite Eb|]. simpl.
    rewrite client_NativeStatus_ok. intros _ Ho. by destruct (Hs eq_refl eq_refl Ho).
Qed.

Lemma wire_fails status w :
  Status_ok status = false → wire_core w →
  wire_inv (releaseStreamLoopOwnership (terminalizeStream call_callbacks status w)).
Proof. intros Hs H. apply wire_end; [done|]. congruence. Qed.

(** Forcing a failure *)
Lemma core_forced status w :
  Status_ok status = false → wire_core w → wire_core (setForcedStreamStatus status w.1, w.2).
Proof.
  intros Hs [H1 H2 H3 H4 H5 H6]. unfold setForcedStreamStatus.
  destruct (ct_forced_status w.1) eqn:Ef; split; simpl; rewrite ?Ef; auto; try done.
  intros f [= <-]. done.
Qed.

Lemma setForced_some status t : ct_forced_status (setForcedStreamStatus status t) ≠ None.
Proof. unfold setForcedStreamStatus. by destruct (ct_forced_status t) eqn:E; simpl; rewrite ?E. Qed.

Lemma core_reset t o :
  wire_core (t, o) → ct_forced_status t ≠ None ∨ callbacksEnabled t = false →
  wire_core (t <| ct_rst_submitted := true |>, o).
Proof.
  intros [H1 H2 H3 H4 H5 H6] Hf. split; simpl in *; auto; try done.
  intros _ He. change (callbacksEnabled t = true) in He. destruct Hf; congruence.
Qed.

Lemma wire_fail status w :
  Status_ok status = false → ct_transport_closed w.1 = false → wire_core w →
  wire_inv (failClientStreamOnLoop status w.1, w.2).
Proof.
  intros Hs Hc H. destruct w as [t o]. cbn [fst snd] in *.
  pose proof (core_forced status (t, o) Hs H) as H1. cbn [fst snd] in H1.
  pose proof (setForced_some status t) as Hn. unfold failClientStreamOnLoop.
  set (t1 := setForcedStreamStatus status t) in *.
  assert (Hc1 : ct_transport_closed t1 = false).
  { unfold t1, setForcedStreamStatus. by destruct (ct_forced_status t). }
  rewrite Hc1, orb_false_r. destruct (ct_rst_submitted t1); split; simpl; try congruence.
  apply core_reset; auto.
Qed.

Lemma wire_live w :
  wire_core w → ct_loop w.1 = true → bs_terminal w.2.1 = true →
  grpc_Status_ok (bs_status w.2.1) = true → False.
Proof. intros H Hl Hb Ho. destruct (wi_ok _ H Hb Ho) as (_ & ? & _). congruence. Qed.

(** A stream reset while it was paused gets no more messages. *)
Lemma core_stuck status t o :
  ct_received t `prefix_of` ct_wire t → ct_receive_paused t = true → ct_transport_closed t = false →
  Status_ok status = false → (∀ f, ct_forced_status t = Some f → Status_ok f = false) →
  (bs_terminal o.1 = true → grpc_Status_ok (bs_status o.1) = true → False) →
  wire_inv (failClientStreamOnLoop status t, o).
Proof.
  intros H1 H2 H3 H4 H5 H6. unfold failClientStreamOnLoop, setForcedStreamStatus.
  destruct (ct_forced_status t) as [f|] eqn:Ef; simpl; rewrite H3, orb_false_r;
    destruct (ct_rst_submitted t) eqn:Er; (split; [split|]); simpl; rewrite ?Er, ?Ef, ?H2, ?H3; try done;
    try (intros Hb Ho; by destruct (H6 Hb Ho)); by intros ? [= <-].
Qed.

Lemma wire_decode payload c t o :
  ct_loop t = true → ct_transport_closed t = false → wire_core (t, o) →
  wire_inv (decodeMessage call_callbacks payload c (t <| ct_wire := ct_wire t ++ [payload] |>, o)).
Proof.
  intros Hl Hc H. pose proof (wire_live _ H Hl) as Hk. destruct H as [H1 H2 H3 H4 H5 H6].
  destruct o as [s x]. unfold decodeMessage. simpl in *.
  change (callbacksEnabled (t <| ct_wire := ?l |>)) with (callbacksEnabled t).
  assert (Hp : ct_received t `prefix_of` ct_wire t ++ [payload]) by by apply prefix_app_r.
  destruct (callbacksEnabled t) eqn:Ee; simpl.
  2: { split; [|simpl; congruence]. apply core_disabled; simpl; try done.
       intros Hb Ho. by destruct (Hk Hb Ho). }
  destruct (ct_receive_paused t) eqn:Ep.
  - destruct (_ >? _); [by apply core_stuck|]. split; [|simpl; congruence]. split; simpl; try done.
    + intros _ Hr. rewrite fmap_app, app_assoc. by rewrite H2.
    + by rewrite Ep.
    + auto.
    + intros Hb Ho. by destruct (Hk Hb Ho).
  - destruct (H3 eq_refl eq_refl) as [Er Ei].
    split; [|simpl; congruence]. split; simpl; try done; rewrite ?Er, ?Ei, ?app_nil_r; try done; auto.
    intros Hb Ho. by destruct (Hk Hb Ho).
Qed.

(** The owner answers the first message with [Pause]. *)
Lemma deliver_loop_spec t s x :
  ct_receive_paused t = false →
  deliver_loop call_callbacks (length (ct_inbound t)) (t, (s, x)) =
  match ct_inbound t with
  | (payload, c) :: rest =>
      if callbacksEnabled t
      then (t <| ct_inbound := rest |>
              <| ct_inbound_buffered := ct_inbound_buffered t - (zlen payload + header_size) |>
              <| ct_received := ct_received t ++ [payload] |> <| ct_receive_paused := true |>,
            (s <| bs_message := Some payload |>, x))
      else (t, (s, x))
  | [] => (t, (s, x))
  end.
Proof.
  intros Hp. destruct (ct_inbound t) as [|[payload c] rest] eqn:Ei; [done|]. simpl. rewrite Ei, Hp. simpl.
  destruct (callbacksEnabled t) eqn:Ee; [|done]. simpl.
  change (callbacksEnabled (t <| ct_inbound := ?a |> <| ct_inbound_buffered := ?b |>))
    with (callbacksEnabled t). rewrite Ee. simpl.
  destruct (length rest); simpl; [done|]. by destruct rest as [|[]].
Qed.

Lemma wire_deliver t o :
  wire_inv (t, o) → ct_loop t = true → ct_app t = true → ct_cancel_requested t = false →
  (callbacksEnabled t = true → ct_received t ++ (ct_inbound t).*1 = ct_wire t) →
  wire_inv (deliverInboundMessages call_callbacks (t, o)).
Proof.
  intros [H Hc] Hl Ha Hr Hq. pose proof (wire_live _ H Hl) as Hk. destruct o as [s x].
  unfold deliverInboundMessages. cbn [fst snd].
  change (ct_inbound (t <| ct_receive_paused := false |>)) with (ct_inbound t).
  pose proof (deliver_loop_spec (t <| ct_receive_paused := false |>) s x eq_refl) as Hd.
  change (ct_inbound (t <| ct_receive_paused := false |>)) with (ct_inbound t) in Hd. rewrite Hd. clear Hd.
  change (callbacksEnabled (t <| ct_receive_paused := false |>)) with (callbacksEnabled t).
  assert (Hd : callbacksEnabled t = false → wire_core (t <| ct_receive_paused := false |>, (s, x))).
  { intros He. apply core_disabled; [done|apply (wi_prefix _ H)|apply (wi_forced _ H)|].
    intros Hb Ho. by destruct (Hk Hb Ho). }
  destruct (ct_inbound t) as [|[payload c] rest] eqn:Ei.
  - assert (Hw : callbacksEnabled t = true → ct_received t = ct_wire t).
    { intros He. by rewrite <- (Hq He), app_nil_r. }
    assert (H' : wire_core (t <| ct_receive_paused := false |>, (s, x))).
    { destruct (callbacksEnabled t) eqn:Ee; [|auto]. destruct H as [H1 H2 H3 H4 H5 H6].
      split; simpl in *; auto. intros Hb Ho. by destruct (Hk Hb Ho). }
    destruct (_ && _); [|by split]. apply wire_end; [done|]. intros Et _ _. split; [apply Hw|done].
    unfold callbacksEnabled. simpl in Et. by rewrite Ha, Hr, Et.
  - destruct (callbacksEnabled t) eqn:Ee; simpl.
    2: { rewrite Ei, bool_decide_eq_false_2, andb_false_r by done. split; auto. }
    rewrite andb_false_r. simpl. split; [|simpl; auto]. specialize (Hq eq_refl). simpl in Hq.
    destruct H as [H1 H2 H3 H4 H5 H6]. split; simpl in *; auto; try done.
    + exists rest.*1. by rewrite <- Hq, <- app_assoc.
    + intros _ _. by rewrite <- Hq, <- app_assoc.
    + intros Hb Ho. by destruct (Hk Hb Ho).
Qed.

Lemma wire_process w :
  wire_inv w → ct_loop w.1 = true → wire_inv (processClientStreamCommands call_callbacks w).
Proof.
  destruct w as [t o]. intros [H Hc] Hl. unfold processClientStreamCommands. cbn [fst snd] in *.
  set (cancel := ct_cancel_requested t || negb (ct_app t)).
  set (t1 := t <| ct_resume_requested := false |> <| ct_deadline := ct_deadline t && negb cancel |>).
  assert (H1 : wire_core (t1, o)) by (destruct o; by eapply core_same).
  destruct (ct_transport_closed t1) eqn:Ec.
  { destruct cancel eqn:En; [by apply wire_fails|]. destruct (ct_resume_requested t); [|by split].
    apply orb_false_iff in En as [En Ea]. apply negb_false_iff in Ea.
    assert (Ef : ct_forced_status t = None) by auto.
    apply wire_deliver; try done. intros He. apply (wi_queue _ H); [done|].
    destruct (ct_rst_submitted t) eqn:Er; [|done]. by destruct (wi_rst _ H Er He). }
  assert (Hd : cancel = true → callbacksEnabled t1 = false).
  { unfold cancel, callbacksEnabled. simpl. by destruct (ct_cancel_requested t), (ct_app t). }
  set (t2 := if cancel && negb (ct_rst_submitted t1) then _ else t1).
  assert (wire_inv (t2, o) ∧ (ct_app t2, ct_cancel_requested t2, ct_loop t2) =
            (ct_app t, ct_cancel_requested t, ct_loop t) ∧
          (cancel = true → ct_rst_submitted t2 = true)) as (H2 & [= Ea En Hl2] & Hr2).
  { unfold t2. destruct (cancel && negb (ct_rst_submitted t1)) eqn:E.
    2: { split; [split; [done|simpl in *; congruence]|]. split; [done|]. intros Hn. rewrite Hn in E.
         by apply negb_false_iff in E. }
    apply andb_true_iff in E as [E _]. specialize (Hd E). destruct (ct_app t1) eqn:Ea1.
    - pose proof (core_forced stream_cancelled (t1, o) eq_refl H1) as H2. cbn [fst snd] in H2.
      pose proof (setForced_some stream_cancelled t1) as Hs.
      split; [split; [by apply core_reset; auto|]|].
      + intros _. simpl. unfold setForcedStreamStatus. by destruct (ct_forced_status t1); simpl in *; rewrite ?Ec.
      + unfold setForcedStreamStatus. by destruct (ct_forced_status t1).
    - split; [split; [by apply core_reset; auto|simpl in *; congruence]|done]. }
  rewrite Hl in Hl2. destruct (ct_resume_requested t && negb (ct_rst_submitted t2)) eqn:Er; [|done].
  apply andb_true_iff in Er as [_ Er]. apply negb_true_iff in Er.
  destruct cancel eqn:Ecc; [by rewrite Hr2 in Er|].
  apply orb_false_iff in Ecc as [En' Ea']. apply negb_false_iff in Ea'.
  apply wire_deliver; try congruence. intros He. by apply (wi_queue _ (proj1 H2)).
Qed.

Lemma wire_close outcome trailing passed w :
  wire_inv w → ct_transport_closed w.1 = false →
  wire_inv (onStreamClose call_callbacks outcome trailing passed w).
Proof.
  destruct w as [t o]. intros [H _] _. unfold onStreamClose. cbn [fst snd].
  set (t1 := t <| ct_deadline := false |> <| ct_transport_closed := true |>
               <| ct_outcome := outcome |> <| ct_trailing := trailing |> <| ct_send_open := false |>).
  assert (H1 : wire_core (t1, o)) by (destruct o; by eapply core_same).
  set (t2 := if ct_cancel_requested t1 && ct_app t1 then _ else _).
  assert (H2 : wire_core (t2, o)).
  { unfold t2. destruct (_ && _); [by apply (core_forced stream_cancelled (t1, o))|].
    destruct (_ && _); [by apply (core_forced deadline_exceeded (t1, o))|done]. }
  assert (Hn : ct_forced_status t2 = None → ct_cancel_requested t2 && ct_app t2 = false).
  { unfold t2. destruct (ct_cancel_requested t1 && ct_app t1) eqn:E.
    { intros Hs. by destruct (setForced_some _ _ Hs). }
    destruct (passed && ct_has_deadline t1); [|done]. intros Hs. by destruct (setForced_some _ _ Hs). }
  destruct (_ || _ || _ || _) eqn:E.
  - apply wire_end; [done|]. cbn [fst snd]. intros Et Ha Hs.
    destruct (ct_forced_status t2) as [f|] eqn:Ef.
    { simpl in Hs. by rewrite (wi_forced _ H2 f Ef) in Hs. }
    specialize (Hn eq_refl). rewrite Ha, andb_true_r in Hn.
    rewrite Et, Ha, bool_decide_eq_false_2 in E by tauto. simpl in E.
    apply andb_true_iff in E as [Ep _]. apply negb_true_iff in Ep.
    split; [|done]. apply (wi_flow _ H2); [|done]. unfold callbacksEnabled. simpl. by rewrite Et, Ha, Hn.
  - split; [done|]. intros _ _. simpl. destruct (ct_forced_status t2) eqn:Ef; [|done].
    rewrite bool_decide_eq_true_2, orb_true_r in E by done. done.
Qed.

Lemma wire_wake k w :
  wire_inv w → ct_loop w.1 = true → wire_inv (processStreamWake call_callbacks k w).
Proof.
  destruct w as [t o]. intros H Hl. unfold processStreamWake. cbn [fst snd].
  assert (H1 : wire_inv (t <| ct_deadline := ct_has_deadline t |>, o)).
  { destruct o, H. split; [by eapply core_same|done]. }
  destruct (ct_submitted t); [by apply wire_process|]. destruct (_ && _); [by apply wire_fails, H|].
  destruct (_ || _); [by apply wire_fails, H1|]. destruct (_ && _); [by apply wire_fails, H1|].
  destruct (negb _); [by apply wire_fails, H1|]. destruct (negb _); [by apply wire_fails, H1|].
  apply wire_process; [|done]. destruct o, H1. split; [by eapply core_same|done].
Qed.

Lemma wire_expire w : wire_inv w → wire_inv (expire_deadline call_callbacks w).
Proof.
  destruct w as [t o]. intros [H Hc]. unfold expire_deadline. cbn [fst snd].
  assert (H1 : wire_core (t <| ct_deadline := false |>, o)) by (destruct o; by eapply core_same).
  set (t1 := t <| ct_deadline := false |>) in *.
  destruct (_ || _) eqn:E; [by apply wire_fails|]. apply orb_false_iff in E as [_ E].
  split; [apply core_reset; [by apply (core_forced deadline_exceeded (t1, o))|left; apply setForced_some]|].
  simpl. unfold setForcedStreamStatus.
  by destruct (ct_forced_status t1); simpl in *; rewrite E.
Qed.

Lemma wire_goaway w :
  wire_inv w → ct_transport_closed w.1 = false → wire_inv (goaway call_callbacks w).
Proof.
  destruct w as [t [s x]]. intros [H _] Hc. unfold goaway. cbn [fst snd].
  destruct (ct_submitted t); [|by apply wire_fails].
  pose proof (core_forced received_goaway (t, (s, x)) eq_refl H) as H1. cbn [fst snd] in H1.
  set (t1 := setForcedStreamStatus received_goaway t) in *.
  set (status := default received_goaway (ct_forced_status t1)).
  assert (Hs : Status_ok status = false).
  { unfold status. destruct (ct_forced_status t1) eqn:E; [|done]. by apply (wi_forced _ H1). }
  assert (Hc1 : ct_transport_closed t1 = false).
  { unfold t1, setForcedStreamStatus. by destruct (ct_forced_status t). }
  pose proof (terminalize_terminal status (t1, (s, x))) as Ht.
  pose proof (wi_ok _ H1) as Ho. cbn [fst snd] in Ho. destruct H1 as [P1 _ _ _ P5 _].
  unfold terminalizeStream in *. destruct (ct_terminal t1) eqn:Et.
  - split; [|simpl; congruence]. apply core_disabled; simpl; try done.
    unfold callbacksEnabled. simpl. by rewrite Et, andb_false_r.
  - split; [|simpl; congruence]. apply core_disabled; simpl; try done.
    { unfold callbacksEnabled. simpl. by rewrite andb_false_r. }
    destruct (ct_app t1); [|done]. simpl. unfold SetTerminal. destruct (bs_terminal s) eqn:Eb.
    + rewrite Eb. done.
    + simpl. rewrite client_NativeStatus_ok. congruence.
Qed.

Lemma wire_loop_step e w w' : wire_inv w → loop_step call_callbacks e w = Some w' → wire_inv w'.
Proof.
  intros H. unfold loop_step. destruct (ct_loop w.1) eqn:Hl; [|done]. destruct w as [t [s x]].
  cbn [fst snd negb] in *. pose proof H as [Hw Hc]. unfold on_connection.
  destruct e; cbn [fst snd].
  - destruct (_ || _); [done|]. intros [= <-]. unfold invokeHeadersCallback. cbn [fst snd].
    destruct (callbacksEnabled _); (split; [by eapply core_same|done]).
  - destruct (ct_submitted t), (ct_transport_closed t) eqn:Ec; try done. simpl.
    intros E. apply (inj Some) in E as <-. by apply wire_decode.
  - destruct (ct_submitted t), (ct_transport_closed t) eqn:Ec; try done. simpl.
    destruct (Status_ok status) eqn:Es; [done|]. intros [= <-]. by apply (wire_fail status (t, (s, x))).
  - intros E. apply (inj Some) in E as <-. by apply wire_wake.
  - destruct (negb _); [done|]. unfold frame_sent. cbn [fst snd].
    destruct (ct_outbound t) as [|[payload c] rest]; [done|]. intros [= <-].
    destruct (ct_backpressure_requested t); [|by split; [eapply core_same|]].
    unfold invokeWritableCallback. cbn [fst snd].
    destruct (callbacksEnabled _); (split; [by eapply core_same|done]).
  - destruct (ct_submitted t), (ct_transport_closed t) eqn:Ec; try done. simpl.
    intros E. apply (inj Some) in E as <-. by apply wire_close.
  - destruct (_ && _); [|done]. intros E. apply (inj Some) in E as <-. by apply wire_expire.
  - destruct (ct_transport_closed t) eqn:Ec; [done|].
    intros E. apply (inj Some) in E as <-. by apply wire_goaway.
  - intros E. apply (inj Some) in E as <-. apply wire_fails; [done|]. by eapply core_same.
Qed.
End Wire.
