(* ===== verification/CallInvariant.v ===== *)
(** * The invariant of a blocking call

    What every step of a blocking call's world ([BlockingCall.blocking_step]: the
    loop, and the other threads of the application) keeps: [blocking_inv] from the
    start of [Open], [call_inv] once [Open] has returned. *)

From S2P Require Import Prelude Status Metadata ServerTransport ClientTransport BlockingCall ClientLoop.

Local Open Scope Z_scope.

(** ** The invariant of the call *)

Definition failed_only (s : BlockingCallState) : Prop :=
  bs_terminal s = true → grpc_Status_ok (bs_status s) = false.

Definition loop_view (own : nat) (w : BlockingWorld) : Prop :=
  match bw_transport w with
  | None => (bw_read w = [] ∧ bs_message (bw_state w) = None ∧ bw_resuming w = 0%nat ∧ own = 0%nat) ∧
            failed_only (bw_state w)
  | Some t => loop_inv (bw_read w) (bw_resuming w + own) (t, (bw_state w, bw_context w)) ∧
              wire_inv (t, (bw_state w, bw_context w))
  end.

(** [own] is how many messages the code at hand has taken and not yet resumed
    after. *)
Record blocking_inv (own : nat) (w : BlockingWorld) : Prop := {
  bi_loop : loop_view own w;
  bi_stream : bs_stream (bw_state w) = true → ∃ t, bw_transport w = Some t ∧ ct_app t = true;
  bi_target : cc_target (bw_context w) = true → cc_cancelled (bw_context w) = true →
    (0 < bw_cancels w)%nat ∨ bs_cancel_requested (bw_state w) = true ∨
    bs_terminal (bw_state w) = true }.

(** After [Open]: a cancellation that the call knows of has reached the
    transport, unless the call is over. *)
Definition cancel_seen (w : BlockingWorld) : Prop :=
  bs_cancel_requested (bw_state w) = true →
  bs_terminal (bw_state w) = true ∨ bs_stream (bw_state w) = false ∨
  ∃ t, bw_transport w = Some t ∧ (ct_cancel_requested t = true ∨ ct_terminal t = true).

(** What the operations do to a stream: they keep what the loop and the owner see
    of it, and never take back a cancellation. *)
Record op_same (t t' : ClientTransport) : Prop := {
  os_received : ct_received t' = ct_received t;
  os_wire : ct_wire t' = ct_wire t;
  os_inbound : ct_inbound t' = ct_inbound t;
  os_rst : ct_rst_submitted t' = ct_rst_submitted t;
  os_closed : ct_transport_closed t' = ct_transport_closed t;
  os_forced : ct_forced_status t' = ct_forced_status t;
  os_paused : ct_receive_paused t' = ct_receive_paused t;
  os_resume : ct_resume_requested t' = ct_resume_requested t;
  os_terminal : ct_terminal t' = ct_terminal t;
  os_app : ct_app t' = ct_app t;
  os_loop : ct_loop t' = ct_loop t;
  os_cancel : ct_cancel_requested t = true → ct_cancel_requested t' = true }.

Lemma enabled_le t t' :
  (ct_app t' = true → ct_app t = true) → ct_terminal t' = ct_terminal t →
  (ct_cancel_requested t = true → ct_cancel_requested t' = true) →
  callbacksEnabled t' = true → callbacksEnabled t = true.
Proof.
  unfold callbacksEnabled. intros Ha -> Hc.
  destruct (ct_app t'), (ct_cancel_requested t), (ct_cancel_requested t'); simpl; try done;
    try (by specialize (Hc eq_refl)); by rewrite Ha.
Qed.

Lemma op_same_inv read n t t' o : op_same t t' → loop_inv read n (t, o) → loop_inv read n (t', o).
Proof. intros [] H. by eapply inv_same. Qed.

Lemma op_same_wire t t' o : op_same t t' → wire_inv (t, o) → wire_inv (t', o).
Proof.
  intros Hs [H Hc]. destruct o. pose proof Hs as [].
  split; [|simpl in *; intros; rewrite (os_forced _ _ Hs); apply Hc; congruence].
  eapply core_same; try done. apply enabled_le; first [done|congruence].
Qed.

Section OpSame.
Context {GZ : GzipSize}.

Lemma op_same_send_check payload c t : op_same t (clientStreamSend_check payload c t).2.
Proof. unfold clientStreamSend_check. repeat case_match; split; simpl; auto. Qed.

Lemma op_same_send_commit memory payload c t : op_same t (clientStreamSend_commit memory payload c t).2.
Proof. unfold clientStreamSend_commit. repeat case_match; split; simpl; auto. Qed.

Lemma op_same_close t : op_same t (clientStreamCloseSend t).2.
Proof. unfold clientStreamCloseSend. repeat case_match; split; simpl; auto. Qed.

Lemma op_same_cancel t : op_same t (clientStreamCancel t).
Proof. unfold clientStreamCancel. repeat case_match; split; simpl; auto. Qed.
End OpSame.

(** A section that runs one such operation *)
Lemma on_stream_inv {A} own (f : ClientTransport → A * ClientTransport) w :
  (∀ t, op_same t (f t).2) → blocking_inv own w → blocking_inv own (on_stream f w).2.
Proof.
  intros Hf Hi. unfold on_stream. destruct (bs_stream (bw_state w)) eqn:Es; [|done].
  destruct (bi_stream _ _ Hi Es) as (t & Et & Ha). rewrite Et.
  destruct (f t) as [a t'] eqn:Ef. specialize (Hf t). rewrite Ef in Hf. simpl in Hf.
  destruct Hi as [H1 H2 H3]. split; simpl; [| |done].
  - unfold loop_view in *. rewrite Et in H1. destruct H1. simpl.
    split; [by eapply op_same_inv|by eapply op_same_wire].
  - intros _. exists t'. by rewrite (os_app _ _ Hf).
Qed.

Lemma on_stream_seen {A} (f : ClientTransport → A * ClientTransport) w :
  (∀ t, op_same t (f t).2) → cancel_seen w → cancel_seen (on_stream f w).2.
Proof.
  intros Hf H. unfold on_stream. destruct (bs_stream (bw_state w)) eqn:Es; [|done].
  destruct (bw_transport w) as [t|] eqn:Et; [|done].
  destruct (f t) as [a t'] eqn:Ef. intros Hc. simpl in Hc.
  destruct (H Hc) as [?|[?|(t1 & E1 & Ht)]]; [by left|congruence|].
  right; right. exists t'. split; [done|]. rewrite Et in E1. injection E1 as <-.
  specialize (Hf t). rewrite Ef in Hf. simpl in Hf.
  destruct Ht as [?|?]; [left; by apply (os_cancel _ _ Hf)|right; by rewrite (os_terminal _ _ Hf)].
Qed.

(** Changes of the state that the loop cannot see; the call does not end OK by
    them. *)
Record state_same (s s' : BlockingCallState) : Prop := {
  ss_message : bs_message s' = bs_message s;
  ss_terminal : bs_terminal s = true → bs_terminal s' = true ∧ bs_status s' = bs_status s;
  ss_ok : bs_terminal s = false → failed_only s';
  ss_stream : bs_stream s' = bs_stream s;
  ss_cancel : bs_cancel_requested s' = bs_cancel_requested s }.

Lemma state_same_failed s s' : state_same s s' → failed_only s → failed_only s'.
Proof.
  intros [E1 E2 E3 E4 E5] H. destruct (bs_terminal s) eqn:Et; [|auto].
  destruct (E2 eq_refl) as [E6 E7]. intros _. rewrite E7. auto.
Qed.

Lemma state_same_wire t s s' x : state_same s s' → wire_inv (t, (s, x)) → wire_inv (t, (s', x)).
Proof.
  intros [E1 E2 E3 E4 E5] [[H1 H2 H3 H4 H5 H6] Hc]. split; [|done]. split; simpl in *; auto.
  intros Hb Ho. destruct (bs_terminal s) eqn:Et.
  - destruct (E2 eq_refl) as [_ E7]. rewrite E7 in Ho. auto.
  - rewrite E3 in Ho; done.
Qed.

Lemma on_state_inv own f w :
  (∀ s, state_same s (f s)) → blocking_inv own w → blocking_inv own (on_state f w).
Proof.
  intros Hf [H1 H2 H3]. pose proof (Hf (bw_state w)) as Hs. destruct (Hs) as [E1 E2 E3 E4 E5].
  split; simpl; [|by rewrite E4|].
  - unfold loop_view in *. simpl. destruct (bw_transport w); destruct H1 as [HL HW].
    + split; [|by eapply state_same_wire]. destruct HL as [L1 L2 L3 L4 L5 L6].
      split; simpl in *; rewrite ?E1; auto. intros. by apply E2, L5.
    + split; [by rewrite E1|by eapply state_same_failed].
  - intros Ht Hc. rewrite E5. destruct (H3 Ht Hc) as [?|[?|?]]; auto. right; right. by apply E2.
Qed.

Lemma on_state_seen f w :
  (∀ s, state_same s (f s)) → cancel_seen w → cancel_seen (on_state f w).
Proof.
  intros Hf H. destruct (Hf (bw_state w)) as [E1 E2 E3 E4 E5]. unfold cancel_seen. simpl.
  rewrite E4, E5. intros Hc. destruct (H Hc) as [?|[?|?]]; auto. left. by apply E2.
Qed.

Lemma SetTerminal_same status trailing s :
  grpc_Status_ok status = false → state_same s (SetTerminal status trailing s).
Proof.
  intros Hs. unfold SetTerminal. destruct (bs_terminal s) eqn:E;
    split; unfold failed_only; simpl; intros; try done; congruence.
Qed.

(** The mark that [Cancel] sets first *)
Lemma cancel_mark_inv own w :
  blocking_inv own w → blocking_inv own (on_state (λ s, s <| bs_cancel_requested := true |>) w).
Proof.
  intros [H1 H2 H3]. split; simpl; auto. unfold loop_view in *. simpl.
  destruct (bw_transport w); [|done].
  destruct H1 as [[L1 L2 L3 L4 L5 L6] [[W1 W2 W3 W4 W5 W6] Wc]].
  split; [by split|]. split; [by split|done].
Qed.

Lemma Cancel_inv own w : blocking_inv own w → blocking_inv own (Cancel w).
Proof.
  intros Hi. unfold Cancel. destruct (bs_terminal (bw_state w)); [done|].
  apply on_stream_inv; [intros; apply op_same_cancel|by apply cancel_mark_inv].
Qed.

(** Telling the transport of a cancellation *)
Lemma tell_cancel_seen own w :
  blocking_inv own w → cancel_seen (on_stream (λ t, ((), clientStreamCancel t)) w).2.
Proof.
  intros Hi _. unfold on_stream. destruct (bs_stream (bw_state w)) eqn:Es; [|by right; left].
  destruct (bi_stream _ _ Hi Es) as (t & Ht & Ha). rewrite Ht. simpl. right; right. eexists.
  split; [done|]. pose proof (bi_loop _ _ Hi) as Hl. unfold loop_view in Hl. rewrite Ht in Hl.
  unfold clientStreamCancel. rewrite Ha. destruct (ct_loop t) eqn:El; simpl.
  - destruct (ct_terminal t) eqn:Ett; [by right|by left].
  - right. by apply (li_loop _ _ _ (proj1 Hl)).
Qed.

Lemma Cancel_seen own w : blocking_inv own w → cancel_seen (Cancel w).
Proof.
  intros Hi. unfold Cancel. destruct (bs_terminal (bw_state w)) eqn:Et; [by left|].
  by apply (tell_cancel_seen own), cancel_mark_inv.
Qed.

(** A call that ended OK has been read to the end. *)
Lemma ended_ok_read read own w :
  loop_inv read own w → wire_core w → bs_terminal w.2.1 = true → grpc_Status_ok (bs_status w.2.1) = true →
  read = ct_wire w.1 ∧ bs_message w.2.1 = None.
Proof.
  intros HL HW Hb Hs. destruct (wi_ok _ HW Hb Hs) as (E & _ & Hp).
  assert (Hm : bs_message w.2.1 = None).
  { destruct (bs_message w.2.1) eqn:Em; [|done].
    destruct (li_held _ _ _ HL) as [Hp' _]; [rewrite Em; simpl; lia|congruence]. }
  pose proof (li_fifo _ _ _ HL) as Ef. rewrite Hm, app_nil_r in Ef. split; congruence.
Qed.

Lemma ended_ok own w :
  blocking_inv own w → bs_terminal (bw_state w) = true → grpc_Status_ok (bs_status (bw_state w)) = true →
  ∃ t, bw_transport w = Some t ∧ bw_read w = ct_wire t.
Proof.
  intros [H _ _] Hb Hs. unfold loop_view in H. destruct (bw_transport w) as [t|].
  - exists t. split; [done|]. destruct H as [HL [HW _]]. by destruct (ended_ok_read _ _ _ HL HW).
  - destruct H as [_ H]. rewrite H in Hs; done.
Qed.

(** ** Every step keeps it *)

Section StepInv.
Context {GZ : GzipSize}.

Lemma loop_world_inv own e w w' : blocking_inv own w → loop_world e w = Some w' → blocking_inv own w'.
Proof.
  intros [H1 H2 H3]. unfold loop_world, loop_view in *.
  destruct (bw_transport w) as [t|] eqn:Et; [|done]. destruct H1 as [HL HW].
  destruct (loop_step _ _ _) as [[t' [s c]]|] eqn:E; [|done]. intros [= <-].
  pose proof (rel_loop_step _ _ _ E) as [R1 R2 _ R3 R4 R5 R6 R7 R8]. simpl in *.
  split; simpl.
  - unfold loop_view. simpl. split; [by eapply inv_loop_step|by eapply wire_loop_step].
  - rewrite R4. intros Hs. destruct (H2 Hs) as (t1 & [= ->] & Ha). exists t'. by rewrite R1.
  - rewrite R7, R8, R5. intros Ht Hc. destruct (H3 Ht Hc) as [?|[?|Hb]]; auto.
    right; right. by destruct (R6 Hb).
Qed.

Lemma loop_world_seen own e w w' :
  blocking_inv own w → cancel_seen w → loop_world e w = Some w' → cancel_seen w'.
Proof.
  intros Hi H. unfold loop_world. destruct (bw_transport w) as [t|] eqn:Et; [|done].
  destruct (loop_step _ _ _) as [[t' [s c]]|] eqn:E; [|done]. intros [= <-].
  pose proof (rel_loop_step _ _ _ E) as [R1 R2 _ R3 R4 R5 R6 R7 R8]. simpl in *.
  unfold cancel_seen. simpl. rewrite R5, R4. intros Hc.
  destruct (H Hc) as [Hb|[?|(t1 & E1 & Ht)]]; [left; by destruct (R6 Hb)|by right; left|].
  right; right. exists t'. split; [done|]. rewrite Et in E1. injection E1 as <-. rewrite R2.
  destruct Ht; auto.
Qed.

(** Taking a message frees its place but keeps the stream paused until the
    reader has resumed it. *)
Lemma Read_take_inv own w r w' :
  blocking_inv own w → Read_take w = Some (r, w') →
  blocking_inv (if r is Some _ then S own else own) w'.
Proof.
  intros Hi. unfold Read_take. destruct (bs_message (bw_state w)) as [payload|] eqn:Em.
  2: { destruct (bs_terminal _); [|done]. by intros [= <- <-]. }
  intros [= <- <-]. destruct Hi as [H1 H2 H3]. split; simpl; auto. unfold loop_view in *. simpl.
  destruct (bw_transport w) as [t|]; [|destruct H1 as [(_ & ? & _) _]; congruence].
  destruct H1 as [[L1 L2 L3 L4 L5 L6] [HW Hc]]. simpl in *. rewrite Em in *. simpl in *.
  split; [|split; [by eapply core_same|done]]. split; simpl; auto; try lia.
  - by rewrite app_nil_r.
  - intros _. apply L3. lia.
Qed.

(** A thread's message, as another thread sees it *)
Lemma own_resuming own w :
  blocking_inv (S own) w ↔ blocking_inv own (w <| bw_resuming := S (bw_resuming w) |>).
Proof.
  split; intros [H1 H2 H3]; split; simpl in *; auto; unfold loop_view in *; simpl in *;
    destruct (bw_transport w); try (destruct H1 as [(_ & _ & ? & ?) _]; done);
    by rewrite Nat.add_succ_r in *.
Qed.

Lemma Read_resume_inv own w : blocking_inv (S own) w → blocking_inv own (Read_resume w).
Proof.
  intros Hi. unfold Read_resume, on_stream.
  assert (Hd : blocking_inv own w).
  { destruct Hi as [H1 H2 H3]. split; auto. unfold loop_view in *. destruct (bw_transport w).
    - destruct H1 as [[L1 L2 L3 L4 L5 L6] HW]. split; [|done]. split; auto; lia.
    - destruct H1 as [(_ & _ & _ & ?) _]. done. }
  destruct (bs_stream (bw_state w)) eqn:Es; [|done].
  destruct (bi_stream _ _ Hi Es) as (t & Et & Ha). rewrite Et.
  unfold clientStreamResumeReceive. destruct (stream_closed t) eqn:Ec; simpl.
  { destruct Hd as [H1 H2 H3]. split; simpl; auto; [|by exists t].
    unfold loop_view in *. rewrite Et in H1. done. }
  destruct Hd as [H1 H2 H3]. split; simpl; auto; [|by eexists].
  pose proof (bi_loop _ _ Hi) as Hl. unfold loop_view in *. rewrite Et in H1, Hl. simpl.
  destruct H1 as [[L1 L2 L3 L4 L5 L6] [HW Hc]], Hl as [HL _].
  assert (Hp : ct_receive_paused t = true) by (apply (li_held _ _ _ HL); simpl; lia).
  assert (Hz : (length (option_list (bs_message (bw_state w))) + (bw_resuming w + S own) ≤ 1)%nat)
    by apply (li_one _ _ _ HL).
  split; [|split; [by eapply core_same|done]]. split; simpl in *; auto. lia.
Qed.

Lemma world_same own w w' :
  blocking_inv own w → bw_transport w' = bw_transport w → bw_state w' = bw_state w →
  bw_context w' = bw_context w → bw_read w' = bw_read w → bw_resuming w' = bw_resuming w →
  bw_cancels w' = bw_cancels w → blocking_inv own w'.
Proof.
  intros [H1 H2 H3] E1 E2 E3 E4 E5 E6. unfold loop_view in *.
  split; unfold loop_view; rewrite ?E1, ?E2, ?E3, ?E4, ?E5, ?E6; auto.
Qed.

(** The context's mutex protects nothing the loop cares for. *)
Lemma context_inv own w c n :
  blocking_inv own w →
  (cc_target c = true → cc_cancelled c = true →
   (0 < n)%nat ∨ bs_cancel_requested (bw_state w) = true ∨ bs_terminal (bw_state w) = true) →
  blocking_inv own (w <| bw_context := c |> <| bw_cancels := n |>).
Proof.
  intros [H1 H2 H3] Hc. split; simpl; auto. unfold loop_view in *. simpl.
  destruct (bw_transport w); [|done]. destruct H1 as [[L1 L2 L3 L4 L5 L6] [HW Hw]].
  split; [by split|]. split; [by eapply core_same|done].
Qed.

Lemma command_status_fails error :
  Error_ok error = false → grpc_Status_ok (command_failed (command_status error)) = false.
Proof.
  intros He. unfold command_status. destruct (Error_is error ErrorCode.OutOfRange); [done|].
  rewrite <- ErrorStatus_ok in He. done.
Qed.

Lemma destroy_inv own w :
  blocking_inv own w → blocking_inv own (on_state (λ s, s <| bs_stream := false |>) w).
Proof.
  intros [H1 H2 H3]. split; simpl; auto; [|done]. unfold loop_view in *. simpl.
  destruct (bw_transport w); [|done]. destruct H1 as [[L1 L2 L3 L4 L5 L6] [HW Hw]].
  split; [by split|]. split; [by eapply core_same|done].
Qed.

Lemma released_inv own w :
  bs_stream (bw_state w) = false → blocking_inv own w →
  blocking_inv own (w <| bw_transport := clientStreamRelease <$> bw_transport w |>).
Proof.
  intros Hs [H1 H2 H3]. split; simpl in *; auto; [|congruence]. unfold loop_view in *. simpl in *.
  destruct (bw_transport w) as [t|]; simpl; [|done]. destruct H1 as [[L1 L2 L3 L4 L5 L6] [HW Hw]].
  split; [by split|]. split; [|done].
  by eapply core_same.
Qed.

Lemma owner_same s : state_same s (s <| bs_channel_owner := false |>).
Proof. split; try done. intros Ht Hb. simpl in *. congruence. Qed.

Lemma Cancel_marks w :
  bs_cancel_requested (bw_state (Cancel w)) = true ∨ bs_terminal (bw_state (Cancel w)) = true.
Proof.
  unfold Cancel. destruct (bs_terminal (bw_state w)) eqn:Et; [by right|]. left.
  unfold on_stream. simpl. by destruct (bs_stream (bw_state w)), (bw_transport w).
Qed.

Lemma Send_check_on_stream payload w :
  (Send_check payload w).2 =
  (on_stream (clientStreamSend_check payload (bs_compression (bw_state w))) w).2.
Proof. unfold Send_check. by destruct (on_stream _ _). Qed.

Lemma Send_commit_on_stream memory payload w :
  (Send_commit memory payload w).2 =
  (on_stream (clientStreamSend_commit memory payload (bs_compression (bw_state w))) w).2.
Proof. unfold Send_commit. by destruct (on_stream _ _). Qed.

Lemma CloseSend_on_stream w : (CloseSend_section w).2 = (on_stream clientStreamCloseSend w).2.
Proof. unfold CloseSend_section. by destruct (on_stream _ _). Qed.

Lemma blocking_step_inv own w l w' :
  blocking_inv own w → blocking_step w l = Some w' → blocking_inv own w'.
Proof.
  intros Hi. destruct l; cbn [blocking_step].
  - by apply loop_world_inv.
  - unfold TryCancel_mark. destruct (cc_terminal _); [|destruct (cc_target _) eqn:Et];
      intros E; apply (inj Some) in E as <-; apply context_inv; try done.
    + apply (bi_target _ _ Hi).
    + intros _ _. left. lia.
    + simpl. congruence.
  - destruct (bw_cancels w); [done|]. intros E. apply (inj Some) in E as <-.
    pose proof (context_inv own (Cancel w) (bw_context (Cancel w)) n (Cancel_inv _ _ Hi)) as H.
    destruct (Cancel w) eqn:E. apply H. intros _ _. right. rewrite <- E. apply Cancel_marks.
  - intros E. apply (inj Some) in E as <-. by apply Cancel_inv.
  - destruct (Read_take w) as [[r w1]|] eqn:E; [|done].
    apply (Read_take_inv own) in E; [|done]. destruct r; intros E'; apply (inj Some) in E' as <-; [|done].
    by apply own_resuming.
  - destruct (bw_resuming w) as [|n] eqn:En; [done|]. intros E. apply (inj Some) in E as <-.
    apply Read_resume_inv, own_resuming. simpl. rewrite <- En. by destruct w.
  - intros E. apply (inj Some) in E as <-. rewrite Send_check_on_stream.
    apply on_stream_inv; [|done]. intros. apply op_same_send_check.
  - intros E. apply (inj Some) in E as <-. rewrite Send_commit_on_stream.
    apply on_stream_inv; [|done]. intros. apply op_same_send_commit.
  - intros E. apply (inj Some) in E as <-. rewrite CloseSend_on_stream.
    apply on_stream_inv; [|done]. intros. apply op_same_close.
  - destruct (Error_ok error) eqn:Ee; [done|]. intros E. apply (inj Some) in E as <-.
    apply on_state_inv; [|done]. intros. by apply SetTerminal_same, command_status_fails.
  - destruct (bs_terminal (bw_state w)) eqn:Et; [|done]. destruct (bs_context _); [|done].
    intros E. apply (inj Some) in E as <-.
    set (c := CompleteCall _ _ _).
    pose proof (context_inv own w c (bw_cancels w) Hi) as H. destruct w. apply H. auto.
  - destruct (bs_terminal _); [|done]. intros E. apply (inj Some) in E as <-. by apply destroy_inv.
  - destruct (bs_stream (bw_state w)) eqn:Es; [done|]. intros E. apply (inj Some) in E as <-.
    apply (released_inv own (on_state _ w)); [done|]. apply on_state_inv; [|done]. intros. apply owner_same.
Qed.

(** ** A call after [Open] *)

(** The call has a stream and is the context's target, until it is over. *)
Record call_inv (w : BlockingWorld) : Prop := {
  ci_seen : cancel_seen w;
  ci_stream : bs_stream (bw_state w) = false → bs_terminal (bw_state w) = true;
  ci_target : cc_target (bw_context w) = false → bs_terminal (bw_state w) = true }.

Lemma call_inv_over w : bs_terminal (bw_state w) = true → call_inv w.
Proof. by split; [left| |]. Qed.

Lemma on_stream_frame {A} (f : ClientTransport → A * ClientTransport) w :
  bw_state (on_stream f w).2 = bw_state w ∧ bw_context (on_stream f w).2 = bw_context w.
Proof.
  unfold on_stream. destruct (bs_stream _); [|done]. destruct (bw_transport w) as [t|]; [|done].
  by destruct (f t).
Qed.

Lemma on_stream_call {A} (f : ClientTransport → A * ClientTransport) w :
  (∀ t, op_same t (f t).2) → call_inv w → call_inv (on_stream f w).2.
Proof.
  intros Hf [H1 H2 H3]. destruct (on_stream_frame f w) as [E1 E2].
  split; [by apply on_stream_seen|by rewrite E1|by rewrite E1, E2].
Qed.

Lemma on_state_call f w : (∀ s, state_same s (f s)) → call_inv w → call_inv (on_state f w).
Proof.
  intros Hf [H1 H2 H3]. destruct (Hf (bw_state w)) as [E1 E2 E3 E4 E5].
  split; [by apply on_state_seen|..]; simpl; rewrite ?E4; intros H; apply E2; auto.
Qed.

Lemma Cancel_call own w : blocking_inv own w → call_inv w → call_inv (Cancel w).
Proof.
  intros Hi Hc. pose proof (Cancel_seen _ _ Hi) as Hs. unfold Cancel in *.
  destruct (bs_terminal (bw_state w)) eqn:Et; [done|]. destruct Hc as [H1 H2 H3].
  destruct (on_stream_frame (λ t, ((), clientStreamCancel t))
    (on_state (λ s, s <| bs_cancel_requested := true |>) w)) as [E1 E2].
  split; [done|rewrite E1|rewrite E1, E2]; simpl; auto.
Qed.

Lemma loop_world_call own e w w' :
  blocking_inv own w → call_inv w → loop_world e w = Some w' → call_inv w'.
Proof.
  intros Hi [H1 H2 H3] E. split; [by eapply loop_world_seen|..]; revert E; unfold loop_world;
    (destruct (bw_transport w) as [t|]; [|done]);
    destruct (loop_step _ _ _) as [[t' [s c]]|] eqn:E; try done; intros [= <-];
    pose proof (rel_loop_step _ _ _ E) as [R1 R2 _ R3 R4 R5 R6 R7 R8]; simpl in *; intros H;
    apply R6; [apply H2|apply H3]; congruence.
Qed.

Lemma Read_resume_call w : call_inv w → call_inv (Read_resume w).
Proof.
  intros Hc. unfold Read_resume, on_stream. destruct (bs_stream (bw_state w)) eqn:Es; [|done].
  destruct (bw_transport w) as [t|] eqn:Et; [|done]. destruct Hc as [H1 H2 H3].
  assert (Hs : ∀ t', ct_cancel_requested t' = ct_cancel_requested t → ct_terminal t' = ct_terminal t →
               call_inv (w <| bw_transport := Some t' |>)).
  { intros t' E1 E2. split; simpl; auto. intros Hc.
    destruct (H1 Hc) as [?|[?|(t1 & E3 & Ht)]]; [by left|by right; left|].
    right; right. rewrite Et in E3. injection E3 as <-. exists t'. by rewrite E1, E2. }
  unfold clientStreamResumeReceive. by destruct (stream_closed t); apply Hs.
Qed.

Lemma call_inv_step own w l w' :
  blocking_inv own w → call_inv w → blocking_step w l = Some w' → call_inv w'.
Proof.
  intros Hi Hc. destruct l; cbn [blocking_step].
  - by eapply loop_world_call.
  - destruct Hc as [H1 H2 H3]. unfold TryCancel_mark.
    destruct (cc_terminal _); intros E; apply (inj Some) in E as <-; by split.
  - destruct (bw_cancels w); [done|]. intros E. apply (inj Some) in E as <-.
    destruct (Cancel_call _ _ Hi Hc) as [H1 H2 H3]. by split.
  - intros E. apply (inj Some) in E as <-. by eapply Cancel_call.
  - unfold Read_take. destruct Hc as [H1 H2 H3]. destruct (bs_message _).
    + intros E. apply (inj Some) in E as <-. by split.
    + destruct (bs_terminal (bw_state w)) eqn:Et; [|done]. intros E. apply (inj Some) in E as <-. by split.
  - destruct (bw_resuming w) as [|n] eqn:En; [done|]. intros E. apply (inj Some) in E as <-.
    apply Read_resume_call. by destruct Hc; split.
  - intros E. apply (inj Some) in E as <-. rewrite Send_check_on_stream.
    apply on_stream_call; [|done]. intros. apply op_same_send_check.
  - intros E. apply (inj Some) in E as <-. rewrite Send_commit_on_stream.
    apply on_stream_call; [|done]. intros. apply op_same_send_commit.
  - intros E. apply (inj Some) in E as <-. rewrite CloseSend_on_stream.
    apply on_stream_call; [|done]. intros. apply op_same_close.
  - destruct (Error_ok error) eqn:Ee; [done|]. intros E. apply (inj Some) in E as <-.
    apply on_state_call; [|done]. intros. by apply SetTerminal_same, command_status_fails.
  - destruct (bs_terminal (bw_state w)) eqn:Et; [|done]. destruct (bs_context _); [|done].
    intros E. apply (inj Some) in E as <-. by apply call_inv_over.
  - destruct (bs_terminal _) eqn:Et; [|done]. intros E. apply (inj Some) in E as <-. by apply call_inv_over.
  - destruct (bs_stream (bw_state w)) eqn:Es; [done|]. intros E. apply (inj Some) in E as <-.
    apply call_inv_over. simpl. by apply (ci_stream _ Hc).
Qed.
End StepInv.
