(* ===== verification/CallLogic.v ===== *)
(** * A logic for the threads of a blocking call

    Pre- and postconditions for the code of a thread ([BlockingCall]) that are
    stable under what the others may do in between, with the specifications of
    [Open] and [Finish] in it. *)

From S2P Require Import Prelude Status Metadata ServerTransport ClientTransport BlockingCall ClientLoop CallInvariant.

Local Open Scope Z_scope.

(** ** Postconditions *)

(** [E] is what the others may do; [U] says what is known if the code works on a
    dead object ([False]: it does not). *)
Section Logic.
Context {GZ : GzipSize} (E : BlockingLabel → Prop) (U : Prop).

Definition allowed (slots : list CSlot) : Prop := Forall (λ slot, Forall E (cs_labels slot)) slots.

Definition stable (P : BlockingWorld → Prop) : Prop :=
  ∀ w l w', E l → P w → blocking_step w l = Some w' → P w'.

(** If the code, run from a world in [P], comes to its end, the result and the
    world are in [Q]. *)
Definition holds {A} (P : BlockingWorld → Prop) (m : CThread A) (Q : A → BlockingWorld → Prop) : Prop :=
  ∀ slots w, allowed slots → P w →
    match m slots w with
    | CReturned a rest w' => allowed rest ∧ Q a w'
    | CWaiting _ => True
    | CUndefined => U
    end.

Lemma holds_ret {A} (P : BlockingWorld → Prop) (a : A) Q : (∀ w, P w → Q a w) → holds P (mret a) Q.
Proof. intros H slots w Ha Hw. split; [done|by apply H]. Qed.

Lemma holds_bind {A B} P (m : CThread A) (k : A → CThread B) Q R :
  holds P m Q → (∀ a, holds (Q a) (k a) R) → holds P (m ≫= k) R.
Proof.
  intros Hm Hk slots w Ha Hw. specialize (Hm slots w Ha Hw). unfold mbind, cthread_bind.
  destruct (m slots w) as [a slots' w'|w'|]; [|done|done]. destruct Hm. by apply Hk.
Qed.

Lemma holds_weaken {A} (P P' : BlockingWorld → Prop) (m : CThread A) (Q Q' : A → BlockingWorld → Prop) :
  holds P m Q → (∀ w, P' w → P w) → (∀ a w, Q a w → Q' a w) → holds P' m Q'.
Proof.
  intros H HP HQ slots w Ha Hw. specialize (H slots w Ha (HP w Hw)).
  destruct (m slots w); [|done|done]. destruct H. auto.
Qed.

Lemma holds_wait {A} P (f : CSlot → BlockingWorld → option (A * BlockingWorld)) Q :
  stable P → (∀ slot w a w', P w → f slot w = Some (a, w') → Q a w') → holds P (wait_until f) Q.
Proof.
  intros Hs Hf slots w Ha. revert w. induction Ha as [|slot rest Hl Hr IH]; intros w Hw; simpl; [done|].
  destruct (run blocking_step w (cs_labels slot)) as [w1|] eqn:Er; [|done].
  assert (Hw1 : P w1).
  { eapply (run_invariant_on blocking_step E P); [|done|done|done]. intros v l v' He Hv. by apply Hs. }
  destruct (f slot w1) as [[a w2]|] eqn:Ef; [|by apply IH]. split; [done|by eapply Hf].
Qed.

Lemma holds_section {A} P (f : BlockingWorld → A * BlockingWorld) Q :
  stable P → (∀ w, P w → Q (f w).1 (f w).2) → holds P (section f) Q.
Proof.
  intros Hs Hf. apply holds_wait; [done|]. intros slot w a w' Hw [= Ef]. specialize (Hf w Hw).
  by rewrite Ef in Hf.
Qed.

Lemma holds_update P f (Q : BlockingWorld → Prop) :
  stable P → (∀ w, P w → Q (f w)) → holds P (update f) (λ _, Q).
Proof. intros Hs Hf. by apply holds_section. Qed.

Lemma holds_heap {A} P (m : heapM A) (Q : A → BlockingWorld → Prop) :
  (∀ w, P w → ∃ a h, m (bw_heap w) = Some (a, h) ∧ Q a (w <| bw_heap := h |>)) →
  holds P (on_heap m) Q.
Proof.
  intros H slots w Ha Hw. unfold on_heap. by destruct (H w Hw) as (a & h & -> & HQ).
Qed.

Lemma holds_heap_any {A} P (m : heapM A) (Q : A → BlockingWorld → Prop) :
  U → (∀ w a h, P w → m (bw_heap w) = Some (a, h) → Q a (w <| bw_heap := h |>)) →
  holds P (on_heap m) Q.
Proof.
  intros Hu H slots w Ha Hw. unfold on_heap. destruct (m (bw_heap w)) as [[a h]|] eqn:Em; [|done].
  split; [done|by apply H].
Qed.

Lemma stable_and P Q : stable P → stable Q → stable (λ w, P w ∧ Q w).
Proof. intros HP HQ w l w' He [H1 H2] Hs. split; [by eapply HP|by eapply HQ]. Qed.

Lemma stable_inv own : stable (blocking_inv own).
Proof. intros w l w' _. apply blocking_step_inv. Qed.

Lemma stable_call own : stable (λ w, blocking_inv own w ∧ call_inv w).
Proof.
  intros w l w' _ [H1 H2] Hs. split; [by eapply blocking_step_inv|by eapply call_inv_step].
Qed.

(** The other threads of the call work on metadata of their own. *)
Lemma stable_heap h : stable (λ w, bw_heap w = h).
Proof.
  intros w l w' _ <-. destruct l; cbn [blocking_step];
    unfold loop_world, TryCancel_mark, Cancel, Read_take, Read_resume, Send_check, Send_commit,
      CloseSend_section, on_stream; repeat (case_match; simplify_eq/=; try done); intros; simplify_eq/=; done.
Qed.

(** The outcome of a call is final, and only a call that is over is forgotten by
    its context. *)
Definition final (s : BlockingCallState) (status : grpc_Status) (trailing : entries) : Prop :=
  bs_terminal s = true ∧ bs_status s = status ∧ bs_trailing_metadata s = trailing.

Lemma SetTerminal_final st tr s status trailing :
  final s status trailing → final (SetTerminal st tr s) status trailing.
Proof. intros H. unfold SetTerminal. destruct H as (Ht & H). by rewrite Ht. Qed.

Lemma stable_final status trailing : stable (λ w, final (bw_state w) status trailing).
Proof.
  intros w l w' _ Hf. destruct l; cbn [blocking_step].
  1: { unfold loop_world. destruct (bw_transport w) as [t|]; [|done].
       destruct (loop_step _ _ _) as [[t' [s c]]|] eqn:El; [|done]. intros [= <-].
       pose proof (lr_status _ _ (rel_loop_step _ _ _ El)) as R. destruct Hf as (Ht & <- & <-).
       by apply R. }
  all: unfold TryCancel_mark, Cancel, Read_take, Read_resume, Send_check, Send_commit,
         CloseSend_section, on_stream;
       repeat (case_match; simplify_eq/=; try done); intros; simplify_eq/=;
       auto using SetTerminal_final.
Qed.

Definition registered (w : BlockingWorld) : Prop :=
  cc_target (bw_context w) = false → bs_terminal (bw_state w) = true.

Lemma stable_registered : stable registered.
Proof.
  intros w l w' He Hr Hs Hc. destruct (bs_terminal (bw_state w)) eqn:Et.
  { by eapply (stable_final _ _ w l w' He). }
  assert (Hn : cc_target (bw_context w) = true) by
    (destruct (cc_target (bw_context w)) eqn:Ec; [done|]; specialize (Hr Ec); congruence).
  exfalso. revert Hs Hc. destruct l; cbn [blocking_step].
  1: { unfold loop_world. destruct (bw_transport w) as [t|]; [|done].
       destruct (loop_step _ _ _) as [[t' [s c]]|] eqn:El; [|done]. intros [= <-].
       pose proof (lr_target _ _ (rel_loop_step _ _ _ El)) as R. simpl in *. congruence. }
  all: unfold TryCancel_mark, Cancel, Read_take, Read_resume, Send_check, Send_commit,
         CloseSend_section, on_stream;
       repeat (case_match; simplify_eq/=; try done); intros; simplify_eq/=; rewrite ?Et in *; simpl in *; congruence.
Qed.

(** ** [Open] *)

(** A call that [Open] has just allocated; its context may have been cancelled
    already. *)
Definition blocking_start (compression : Compression) (c : ClientContext) (h : MetadataHeap)
  : BlockingWorld :=
  mkBlockingWorld None (BlockingCallState_init true compression) c h 0 0 [].

Lemma start_inv compression c h : cc_target c = false → blocking_inv 0 (blocking_start compression c h).
Proof. intros Hc. split; simpl; [done|done|congruence]. Qed.

Lemma set_owner_same b s : state_same s (s <| bs_channel_owner := b |>).
Proof. split; try done. intros Ht Hb. simpl in *. congruence. Qed.

(** The channel has accepted the stream. *)
Lemma opened_inv own w limits c timeout :
  bw_transport w = None → blocking_inv own w →
  blocking_inv own ((on_state (λ s, s <| bs_stream := true |>) w)
                      <| bw_transport := Some (open_transport limits c timeout) |>).
Proof.
  intros Hn [H1 H2 H3]. split; simpl; auto; [|by eexists].
  unfold loop_view in *. rewrite Hn in H1. simpl. destruct H1 as [(E1 & E2 & E3 & E4) Hf].
  split; [|split; [split|]]; simpl; try done.
  - split; simpl; rewrite ?E1, ?E2; simpl; try done; lia.
  - intros Hb Ho. rewrite Hf in Ho; done.
Qed.

Lemma stable_no_transport : stable (λ w, bw_transport w = None).
Proof.
  intros w l w' _ Hn. destruct l; cbn [blocking_step];
    unfold loop_world, TryCancel_mark, Cancel, Read_take, Read_resume, Send_check, Send_commit,
      CloseSend_section, on_stream; simpl; rewrite ?Hn; simpl; rewrite ?Hn;
    repeat (case_match; simplify_eq/=; try done); intros; simplify_eq/=; rewrite ?Hn; done.
Qed.

Definition has_stream (w : BlockingWorld) : Prop :=
  bs_stream (bw_state w) = false → bs_terminal (bw_state w) = true.

Lemma stable_has_stream : stable has_stream.
Proof.
  intros w l w' He Hr Hs Hc. destruct (bs_terminal (bw_state w)) eqn:Et.
  { by eapply (stable_final _ _ w l w' He). }
  assert (Hn : bs_stream (bw_state w) = true) by
    (destruct (bs_stream (bw_state w)) eqn:Ec; [done|]; specialize (Hr Ec); congruence).
  exfalso. revert Hs Hc. destruct l; cbn [blocking_step].
  1: { unfold loop_world. destruct (bw_transport w) as [t|]; [|done].
       destruct (loop_step _ _ _) as [[t' [s c]]|] eqn:El; [|done]. intros [= <-].
       pose proof (lr_stream _ _ (rel_loop_step _ _ _ El)) as R. simpl in *. congruence. }
  all: unfold TryCancel_mark, Cancel, Read_take, Read_resume, Send_check, Send_commit,
         CloseSend_section, on_stream, SetTerminal;
       repeat (case_match; simplify_eq/=; try done); intros; simplify_eq/=; rewrite ?Et, ?Hn in *;
       simpl in *; congruence.
Qed.

Lemma stable_on_heap (F : MetadataHeap → Prop) : stable (λ w, F (bw_heap w)).
Proof. intros w l w' He H Hs. by rewrite (stable_heap (bw_heap w) w l w' He eq_refl Hs). Qed.

Lemma heap_inv own w h' : blocking_inv own w → blocking_inv own (w <| bw_heap := h' |>).
Proof. intros H. by eapply world_same. Qed.

Lemma heap_call w h' : call_inv w → call_inv (w <| bw_heap := h' |>).
Proof. by intros [H1 H2 H3]. Qed.

(** Before the stream is opened *)
Definition opening (F : MetadataHeap → Prop) (w : BlockingWorld) : Prop :=
  (blocking_inv 0 w ∧ bw_transport w = None) ∧ F (bw_heap w).

Lemma stable_opening F : stable (opening F).
Proof.
  apply stable_and; [apply stable_and|]; [apply stable_inv|apply stable_no_transport|apply stable_on_heap].
Qed.

(** The metadata object of [Open] *)
Definition scoped (h : MetadataHeap) (r : Error * ptr) (h' : MetadataHeap) : Prop :=
  (Error_ok r.1 = true → ∃ n, r.2 = Some n ∧ is_Some (mh_objects h' !! n)) ∧
  ∃ h'', Metadata_destructor r.2 h' = Some ((), h'') ∧ mh_objects h'' = mh_objects h.

Lemma register_spec F :
  holds (opening F)
    (section (λ w, let '(r, c) := RegisterCancellation (bw_context w) in (r, w <| bw_context := c |>)))
    (λ r w, opening F w ∧ (r = true → registered w)).
Proof.
  apply holds_section; [apply stable_opening|]. intros w [[Hi Hn] HF].
  unfold RegisterCancellation. destruct (_ || _) eqn:Eo; simpl.
  - by destruct w.
  - apply orb_false_iff in Eo as [Ec _]. split; [split; [split|]|]; try done.
    pose proof (context_inv 0 w ((bw_context w) <| cc_target := true |> <| cc_other := false |>) (bw_cancels w) Hi) as H.
    destruct w. apply H. simpl in *. congruence.
Qed.

(** The end of [Open], with the stream or without *)
Lemma start_failed_spec F status :
  grpc_Status_ok status = false →
  holds (opening F) (update (on_state (SetTerminal status [])))
    (λ _ w, (blocking_inv 0 w ∧ call_inv w) ∧ F (bw_heap w)).
Proof.
  intros Hs. apply holds_update; [apply stable_opening|]. intros w [[Hi Hn] HF]. split; [|done].
  split; [apply on_state_inv; [|done]; intros; by apply SetTerminal_same|].
  apply call_inv_over. apply SetTerminal_terminal.
Qed.

Lemma stream_open_spec F limits timeout :
  holds (λ w, opening F w ∧ registered w)
    (opened ← wait_until (λ slot w,
       Some (match cs_open slot with
             | Some e => (Some e, w)
             | None =>
                 (None, (on_state (λ s, s <| bs_stream := true |>) w)
                          <| bw_transport := Some (open_transport limits
                               (bs_compression (bw_state w)) timeout) |>)
             end));
     match opened with
     | None =>
         update (λ w, if bs_cancel_requested (bw_state w)
                      then (on_stream (λ t, ((), clientStreamCancel t)) w).2 else w)
     | Some e => update (on_state (SetTerminal (ErrorStatus (stream_result (Some e))) []))
     end)
    (λ _ w, (blocking_inv 0 w ∧ call_inv w) ∧ F (bw_heap w)).
Proof.
  eapply (holds_bind _ _ _ (λ r w, match r with
    | Some _ => opening F w
    | None => ((blocking_inv 0 w ∧ registered w) ∧ has_stream w) ∧ F (bw_heap w) end)).
  - apply holds_wait; [apply stable_and; [apply stable_opening|apply stable_registered]|].
    intros slot w r w' [[[Hi Hn] HF] Hr] Eo. destruct (cs_open slot); injection Eo as <- <-; [done|].
    split; [split; [split|]|]; try done. by apply opened_inv.
  - intros [e|].
    + apply start_failed_spec. rewrite ErrorStatus_ok. by destruct e.
    + apply holds_update.
      { repeat apply stable_and;
          [apply stable_inv|apply stable_registered|apply stable_has_stream|apply stable_on_heap]. }
      intros w [[[Hi Hr] Hs] HF]. destruct (bs_cancel_requested (bw_state w)) eqn:Ec.
      * destruct (on_stream_frame (λ t, ((), clientStreamCancel t)) w) as [E1 E2].
        split; [split|].
        { apply on_stream_inv; [|done]. intros. apply op_same_cancel. }
        { split; [by eapply tell_cancel_seen|by rewrite E1|by rewrite E1, E2]. }
        unfold on_stream. by destruct (bs_stream _), (bw_transport w).
      * split; [split; [done|split; [|done..]]|done]. intros ?. congruence.
Qed.

(** The scope of the metadata object: [body] is what [Open] does with it. *)
Lemma metadata_scope_spec h metadata (body : Error * ptr → CThread ()) :
  heap_ok h →
  (∀ r, holds (λ w, opening (scoped h r) w ∧ registered w) (body r)
          (λ _ w, (blocking_inv 0 w ∧ call_inv w) ∧ scoped h r (bw_heap w))) →
  holds (λ w, opening (λ h', h' = h) w ∧ registered w)
    (r ← on_heap (CopyMetadata metadata Metadata_default);
     _ ← body r;
     on_heap (Metadata_destructor r.2))
    (λ _ w, (blocking_inv 0 w ∧ call_inv w) ∧ mh_objects (bw_heap w) = mh_objects h).
Proof.
  intros Hh Hb. eapply (holds_bind _ _ _ (λ r w, opening (scoped h r) w ∧ registered w)).
  { apply holds_heap. intros w [[[Hi Hn] ->] Hr].
    destruct (CopyMetadata_scope h metadata Hh) as (e & p & h' & Ec & Hs & _ & h'' & Hd & _ & Ho & _).
    exists (e, p), h'. split; [done|]. split; [|done]. split; [split; [by apply heap_inv|done]|].
    split; [|by exists h'']. intros He. destruct (Hs He) as (n & -> & Hl). by exists n. }
  intros r. eapply holds_bind; [apply Hb|]. intros []. apply holds_heap.
  intros w [[Hi Hc] [_ (h'' & Hd & Ho)]]. exists (), h''. split; [done|].
  split; [split; [by apply heap_inv|by apply heap_call]|done].
Qed.

(** Whatever the other threads do meanwhile, [Open] leaves a call that is
    registered with its context and knows of every cancellation, and no metadata
    object of its own. *)
Lemma Open_spec limits timeout compression c h :
  cc_target c = false → heap_ok h →
  holds (λ w, w = blocking_start compression c h) (Open limits timeout)
    (λ _ w, (blocking_inv 0 w ∧ call_inv w) ∧ mh_objects (bw_heap w) = mh_objects h).
Proof.
  intros Hc Hh. unfold Open.
  eapply (holds_weaken (opening (λ h', h' = h)));
    [|intros w ->; split; [split; [by apply start_inv|done]|done]|intros a w H; exact H].
  eapply (holds_bind _ _ _ (λ _, opening (λ h', h' = h))).
  { apply holds_update; [apply stable_opening|]. intros w [[Hi Hn] HF]. split; [split|]; try done.
    apply on_state_inv; [|done]. intros. apply set_owner_same. }
  intros _. eapply holds_bind; [apply register_spec|]. intros r. destruct r; simpl.
  2: { eapply holds_weaken; [by apply (start_failed_spec (λ h', h' = h))|by intros w [H _]|].
       intros _ w [H ->]. done. }
  eapply (holds_weaken (λ w, opening (λ h', h' = h) w ∧ registered w)); [|intros w [? ?]; auto|intros a w H; exact H].
  eapply (holds_bind _ _ _ (λ _ w, opening (λ h', h' = h) w ∧ registered w)).
  { apply holds_section; [|done]. apply stable_and; [apply stable_opening|apply stable_registered]. }
  intros metadata. apply (metadata_scope_spec h metadata (λ r, if negb (Error_ok r.1) then _ else _)); [done|].
  intros [e p]. simpl. destruct (Error_ok e) eqn:Ee; simpl.
  - eapply (holds_bind _ _ _ (λ _ w, opening (scoped h (e, p)) w ∧ registered w));
      [|intros _; apply stream_open_spec].
    apply holds_heap. intros w [[[Hi Hn] Hs] Hr]. destruct (proj1 Hs Ee) as (n & En & es & Hl).
    simpl in En. subst p. exists es, (bw_heap w). unfold metadataStorage. rewrite Hl. split; [done|]. by destruct w.
  - eapply holds_weaken; [apply (start_failed_spec (scoped h (e, p)))|by intros w [H _]|done].
    by rewrite ErrorStatus_ok.
Qed.

(** ** [Finish] *)

Lemma holds_fact {A} (φ : Prop) (f : BlockingWorld → A * BlockingWorld) :
  holds (λ _, φ) (section f) (λ _ _, φ).
Proof. apply holds_section; [by intros w l w' _ H _|done]. Qed.

Lemma DestroyStream_fact (φ : Prop) : holds (λ _, φ) DestroyStream (λ _ _, φ).
Proof.
  unfold DestroyStream, update. eapply holds_bind; [apply holds_fact|]. intros had.
  eapply holds_bind; [apply holds_fact|]. intros []. apply holds_fact.
Qed.

Lemma Finish_spec status trailing :
  holds (λ w, final (bw_state w) status trailing) Finish (λ r _, r = status).
Proof.
  unfold Finish. eapply (holds_bind _ _ _ (λ r _, r.1 = status)).
  - apply holds_wait; [apply stable_final|]. intros _ w r w' (Ht & Hs & _). rewrite Ht. by intros [= <- _].
  - intros [r [initial trail]]. eapply holds_bind; [apply holds_fact|]. intros [].
    eapply holds_bind; [apply DestroyStream_fact|]. intros []. by apply holds_ret.
Qed.

End Logic.

(** ** Alone *)

Section Alone.
Context {GZ : GzipSize}.

(** Two specifications of the same code *)
Lemma holds_and {A} (E : BlockingLabel → Prop) U V (P P' : BlockingWorld → Prop) (m : CThread A) Q Q' :
  holds E U P m Q → holds E V P' m Q' →
  holds E (U ∧ V) (λ w, P w ∧ P' w) m (λ a w, Q a w ∧ Q' a w).
Proof.
  intros H H' slots w Ha [Hw Hw']. specialize (H slots w Ha Hw). specialize (H' slots w Ha Hw').
  destruct (m slots w); [|done|done]. destruct H, H'. auto.
Qed.

Lemma holds_undefined {A} (E : BlockingLabel → Prop) (U V : Prop) P (m : CThread A) Q :
  (U → V) → holds E U P m Q → holds E V P m Q.
Proof.
  intros Hu H slots w Ha Hw. specialize (H slots w Ha Hw). destruct (m slots w); auto.
Qed.

(** Everything is allowed. *)
Definition anything (l : BlockingLabel) : Prop := True.

Lemma allowed_anything slots : allowed anything slots.
Proof. apply Forall_forall. intros slot _. by apply Forall_forall. Qed.

(** Nobody interferes. *)
Definition quiet (slots : list CSlot) : Prop := Forall (λ slot, cs_labels slot = []) slots.

Lemma quiet_wait {A} (f : CSlot → BlockingWorld → option (A * BlockingWorld)) slot slots w a w' :
  quiet (slot :: slots) → f slot w = Some (a, w') → wait_until f (slot :: slots) w = CReturned a slots w'.
Proof. intros [Hl _]%Forall_cons E. simpl. rewrite Hl. simpl. by rewrite E. Qed.

(** Left alone, [Finish] takes five sections. *)
Lemma Finish_quiet w slots rest :
  quiet slots → length slots = 5%nat → bs_terminal (bw_state w) = true →
  ∃ w', Finish (slots ++ rest) w = CReturned (bs_status (bw_state w)) rest w' ∧
    bs_stream (bw_state w') = false ∧ bs_channel_owner (bw_state w') = false ∧
    (bs_context (bw_state w) = true →
     bw_context w' = CompleteCall (mm_emplace_all (bs_initial_metadata (bw_state w)) [])
       (mm_emplace_all (bs_trailing_metadata (bw_state w)) []) (bw_context w)).
Proof.
  intros Hq Hl Ht. destruct slots as [|s1 [|s2 [|s3 [|s4 [|s5 []]]]]]; try done. unfold quiet in Hq.
  rewrite !Forall_cons in Hq. destruct Hq as (E1 & E2 & E3 & E4 & E5 & _).
  unfold Finish, DestroyStream, update, section, mbind, cthread_bind, mret, cthread_ret. simpl.
  rewrite E1. simpl. rewrite Ht. simpl. rewrite E2. simpl. rewrite E3. simpl. rewrite E4. simpl.
  rewrite E5. simpl. eexists. split; [done|]. simpl.
  destruct (bs_context (bw_state w)) eqn:Ec; simpl; destruct (bs_stream (bw_state w)); simpl; by split_and!.
Qed.

Lemma cbind_waiting {A B} (m : CThread A) (k : A → CThread B) slots w w' :
  m slots w = CWaiting w' → (m ≫= k) slots w = CWaiting w'.
Proof. intros E. unfold mbind, cthread_bind. by rewrite E. Qed.

Lemma cbind_returned {A B} (m : CThread A) (k : A → CThread B) slots w a rest w' :
  m slots w = CReturned a rest w' → (m ≫= k) slots w = k a rest w'.
Proof. intros E. unfold mbind, cthread_bind. by rewrite E. Qed.

End Alone.
