(* ===== verification/CallSafety.v ===== *)
(** * What a blocking call guarantees

    The properties of a blocking call under everything that the channel's loop and
    the threads of the application may do: responses are read in the order of
    the connection and a call ends OK only when all have been read; the outcome of
    a call is final; and a cancellation is not lost. *)

From S2P Require Import Prelude Status Metadata ServerTransport ClientTransport BlockingCall ClientLoop CallInvariant CallLogic.

Local Open Scope Z_scope.

Section Safety.
Context {GZ : GzipSize}.

(** What is true of every world that a call gets to *)
Lemma reached_inv limits timeout compression c h slots rest w ls w' :
  cc_target c = false → heap_ok h →
  Open limits timeout slots (blocking_start compression c h) = CReturned () rest w →
  run blocking_step w ls = Some w' → blocking_inv 0 w' ∧ call_inv w'.
Proof.
  intros Hc Hh Ho Hr.
  pose proof (Open_spec anything False limits timeout compression c h Hc Hh slots _ (allowed_anything _) eq_refl) as H.
  rewrite Ho in H. destruct H as [_ [H _]].
  eapply (run_invariant blocking_step (λ w, blocking_inv 0 w ∧ call_inv w)); [|done|done].
  intros v l v' Hv. by apply (stable_call anything).
Qed.

(** ** A cancelled stream *)

Definition cancelling (t : ClientTransport) : Prop :=
  ct_loop t = true ∧ ct_app t = true ∧ ct_cancel_requested t = true ∧ ct_terminal t = false.

Lemma end_terminal status t o :
  ct_terminal t = false → ct_app t = true →
  bs_terminal (releaseStreamLoopOwnership (terminalizeStream call_callbacks status (t, o))).2.1 = true.
Proof. intros Ht Ha. unfold terminalizeStream. rewrite Ht, Ha. apply SetTerminal_terminal. Qed.

(** The loop's turn ends the stream, or resets it. *)
Lemma cancelled_wake k t o :
  cancelling t →
  ∃ w1, loop_step call_callbacks (CWake k) (t, o) = Some w1 ∧
    (bs_terminal w1.2.1 = true ∨ (cancelling w1.1 ∧ on_connection w1.1 = true)).
Proof.
  intros (Hl & Ha & Hc & Ht). unfold loop_step. cbn [fst snd]. rewrite Hl. cbn [negb].
  eexists. split; [done|]. unfold processStreamWake. cbn [fst snd]. destruct (ct_submitted t) eqn:Es.
  2: { left. destruct (_ && _); [by apply end_terminal|].
       change (ct_cancel_requested (t <| ct_deadline := ?d |>)) with (ct_cancel_requested t).
       rewrite Hc. by apply end_terminal. }
  unfold processClientStreamCommands. cbn [fst snd]. rewrite Hc. cbn [orb].
  set (t1 := t <| ct_resume_requested := false |> <| ct_deadline := _ |>).
  destruct (ct_transport_closed t1) eqn:Ec; [left; by apply end_terminal|].
  set (t2 := if true && negb (ct_rst_submitted t1) then _ else t1).
  assert ((ct_loop t2, ct_app t2, ct_cancel_requested t2, ct_terminal t2, ct_submitted t2,
           ct_transport_closed t2, ct_rst_submitted t2) =
          (true, true, true, false, true, false, true)) as [= E1 E2 E3 E4 E5 E6 E7].
  { unfold t2, setForcedStreamStatus. simpl in *. rewrite Ha.
    destruct (ct_rst_submitted t) eqn:Er, (ct_forced_status t); simpl; congruence. }
  rewrite E7, andb_false_r. right. unfold on_connection. cbn [fst]. by rewrite E5, E6.
Qed.

Lemma cancelled_close outcome trailing passed t o :
  cancelling t → on_connection t = true →
  ∃ w1, loop_step call_callbacks (CClose outcome trailing passed) (t, o) = Some w1 ∧
    bs_terminal w1.2.1 = true.
Proof.
  intros (Hl & Ha & Hc & Ht) Hn. unfold loop_step. cbn [fst snd]. rewrite Hl, Hn. cbn [negb].
  eexists. split; [done|]. unfold onStreamClose. cbn [fst snd].
  set (t1 := t <| ct_deadline := false |> <| ct_transport_closed := true |>
               <| ct_outcome := outcome |> <| ct_trailing := trailing |> <| ct_send_open := false |>).
  replace (ct_cancel_requested t1 && ct_app t1) with true by (simpl; by rewrite Hc, Ha).
  pose proof (setForced_some stream_cancelled t1) as Hs.
  rewrite (bool_decide_eq_true_2 _ Hs), orb_true_r. apply end_terminal;
    unfold setForcedStreamStatus; by destruct (ct_forced_status t1).
Qed.

(** ** Properties *)

(** C13. Responses are read in the order of the connection: whatever the channel's loop
    and the threads of the application do after [Open], the messages read so far
    and the one that waits to be read are a prefix of those that came over the
    connection, none twice and none left out; and a call ends OK only when all of
    them have been read. *)
Theorem responses_in_order limits timeout compression c h slots rest w ls w' :
  cc_target c = false → heap_ok h →
  Open limits timeout slots (blocking_start compression c h) = CReturned () rest w →
  run blocking_step w ls = Some w' →
  match bw_transport w' with
  | None => bw_read w' = []
  | Some t =>
      bw_read w' ++ option_list (bs_message (bw_state w')) `prefix_of` ct_wire t ∧
      (bs_terminal (bw_state w') = true → grpc_Status_ok (bs_status (bw_state w')) = true →
       bw_read w' = ct_wire t ∧ bs_message (bw_state w') = None)
  end.
Proof.
  intros Hc Hh Ho Hr. destruct (reached_inv _ _ _ _ _ _ _ _ _ _ Hc Hh Ho Hr) as [[H _ _] _].
  unfold loop_view in H. destruct (bw_transport w') as [t|]; [|by destruct H as [(-> & _) _]].
  destruct H as [HL [HW _]]. pose proof (li_fifo _ _ _ HL) as E. simpl in E. rewrite <- E. split; [apply (wi_prefix _ HW)|].
  intros Hb Hs. by apply (ended_ok_read _ _ _ HL HW).
Qed.

(** The outcome of a call is final: once it is set, neither the channel nor another
    thread changes the status or the trailing metadata; a [Finish] that returns
    returns this status; and left alone [Finish] does return, gives up the stream
    and the channel, and hands the metadata to the context. *)
Lemma outcome_is_final w ls w' :
  bs_terminal (bw_state w) = true → run blocking_step w ls = Some w' →
  final (bw_state w') (bs_status (bw_state w)) (bs_trailing_metadata (bw_state w)) ∧
  (∀ slots status rest w2, Finish slots w' = CReturned status rest w2 → status = bs_status (bw_state w)) ∧
  (∀ slots rest, quiet slots → length slots = 5%nat →
    ∃ w2, Finish (slots ++ rest) w' = CReturned (bs_status (bw_state w)) rest w2 ∧
      bs_stream (bw_state w2) = false ∧ bs_channel_owner (bw_state w2) = false ∧
      (bs_context (bw_state w') = true → cc_other (bw_context w') = false →
       cc_terminal (bw_context w2) = true ∧
       cc_trailing_metadata (bw_context w2) = mm_emplace_all (bs_trailing_metadata (bw_state w)) [])).
Proof.
  intros Ht Hr.
  assert (Hf : final (bw_state w') (bs_status (bw_state w)) (bs_trailing_metadata (bw_state w)))
    by by eapply (run_invariant blocking_step (λ w, final (bw_state w) _ _));
         [intros v l v' Hv; by apply (stable_final anything)| |].
  split; [done|]. split.
  - intros slots status rest w2 E. pose proof (Finish_spec anything False _ _ slots w' (allowed_anything _) Hf) as H. rewrite E in H. apply H.
  - intros slots rest Hq Hl. destruct Hf as (Ht' & Hs & Htr).
    destruct (Finish_quiet w' slots rest Hq Hl Ht') as (w2 & E & E1 & E2 & E3).
    exists w2. rewrite <- Hs, <- Htr. split_and!; try done. intros Hc Hn. rewrite (E3 Hc). unfold CompleteCall. by rewrite Hn.
Qed.

(** C23. A cancellation is not lost: once no [TryCancel] is between its two parts, a
    cancelled call either has its outcome, or the transport knows of the
    cancellation and ends the call by the loop's next turn, or by the end of the
    HTTP/2 stream that this turn resets. *)
Theorem cancel_not_lost limits timeout compression c h slots rest w ls w' :
  cc_target c = false → heap_ok h →
  Open limits timeout slots (blocking_start compression c h) = CReturned () rest w →
  run blocking_step w ls = Some w' →
  cc_cancelled (bw_context w') = true → bw_cancels w' = 0%nat →
  bs_terminal (bw_state w') = true ∨
  ∃ t, bw_transport w' = Some t ∧ ct_cancel_requested t = true ∧
    ∀ k outcome trailing passed, ∃ w1, blocking_step w' (BLoop (CWake k)) = Some w1 ∧
      (bs_terminal (bw_state w1) = true ∨
       ∃ w2, blocking_step w1 (BLoop (CClose outcome trailing passed)) = Some w2 ∧
             bs_terminal (bw_state w2) = true).
Proof.
  intros Hc Hh Ho Hr Hx Hn. destruct (reached_inv _ _ _ _ _ _ _ _ _ _ Hc Hh Ho Hr) as [Hi Hj].
  destruct (bs_terminal (bw_state w')) eqn:Eb; [by left|]. right.
  assert (Hq : bs_cancel_requested (bw_state w') = true).
  { destruct (cc_target (bw_context w')) eqn:Et; [|by rewrite (ci_target _ Hj Et) in Eb].
    destruct (bi_target _ _ Hi Et Hx) as [?|[?|?]]; [lia|done|congruence]. }
  destruct (ci_seen _ Hj Hq) as [?|[Hs|(t & Et & Htt)]]; [congruence| |].
  { by rewrite (ci_stream _ Hj Hs) in Eb. }
  assert (Ha : ct_app t = true).
  { destruct (bs_stream (bw_state w')) eqn:Es; [|by rewrite (ci_stream _ Hj Es) in Eb].
    destruct (bi_stream _ _ Hi Es) as (t1 & E1 & Ha). rewrite Et in E1. by injection E1 as <-. }
  pose proof (bi_loop _ _ Hi) as HL. unfold loop_view in HL. rewrite Et in HL. destruct HL as [HL _].
  assert (Hnt : ct_terminal t = false).
  { destruct (ct_terminal t) eqn:E; [|done]. pose proof (li_terminal _ _ _ HL E Ha). simpl in *. congruence. }
  assert (Hg : cancelling t).
  { destruct Htt; [|congruence]. split_and!; try done.
    destruct (ct_loop t) eqn:E; [done|]. pose proof (li_loop _ _ _ HL E). simpl in *. congruence. }
  exists t. split; [done|]. split; [apply Hg|]. intros k outcome trailing passed.
  destruct (cancelled_wake k t (bw_state w', bw_context w') Hg) as ([t1 [s1 c1]] & E1 & Hw).
  cbn [blocking_step]. unfold loop_world at 1. rewrite Et, E1. eexists. split; [done|].
  destruct Hw as [?|[Hg1 Hn1]]; [by left|]. right.
  destruct (cancelled_close outcome trailing passed t1 (s1, c1) Hg1 Hn1) as ([t2 [s2 c2]] & E2 & Hb).
  unfold loop_world. simpl. rewrite E2. eexists. by split.
Qed.
End Safety.

(** ** Examples *)

Definition example_limits : StreamLimits := mkStreamLimits 100 100 100.
Definition example_context : ClientContext := AddMetadata "k" "v" ClientContext_init.
Definition idle : CSlot := mkCSlot [] true None.
Definition up : Wake := mkWake true false true true.

(** An opened call; the peer sends two responses and closes the stream. *)
Definition example_start : BlockingWorld := blocking_start Identity example_context (mkHeap ∅ 0 []).

Definition example_open : COutcome () :=
  Open (GZ := stored_gzip) example_limits true (replicate 5 idle) example_start.

Definition example_world : BlockingWorld :=
  match example_open with CReturned _ _ w => w | CWaiting w => w | CUndefined => example_start end.

Definition example_events : list BlockingLabel :=
  [BLoop (CWake up); BLoop (CMessage "one" Identity); BLoop (CMessage "two" Identity);
   BReadTake; BReadResume; BLoop (CWake up); BLoop (CClose Status_default [] false); BReadTake; BReadResume;
   BLoop (CWake up)].

Definition example_end : BlockingWorld :=
  default example_world (run (blocking_step (GZ := stored_gzip)) example_world example_events).

Lemma example_heap_ok : heap_ok (mkHeap ∅ 0 []).
Proof. intros n Hn. set_solver. Qed.

Lemma example_opened : example_open = CReturned () [] example_world.
Proof. vm_compute. reflexivity. Qed.

Lemma responses_in_order_witness :
  bs_terminal (bw_state example_end) = true ∧ bw_read example_end = ["one"; "two"]%string ∧
  ∃ t, bw_transport example_end = Some t ∧ ct_wire t = ["one"; "two"]%string.
Proof.
  assert (Hr : run (blocking_step (GZ := stored_gzip)) example_world example_events = Some example_end)
    by (vm_compute; reflexivity).
  pose proof (responses_in_order (GZ := stored_gzip) example_limits true Identity example_context
    (mkHeap ∅ 0 []) (replicate 5 idle) [] example_world example_events example_end eq_refl
    example_heap_ok example_opened Hr) as H.
  destruct (bw_transport example_end) as [t|] eqn:Et; [|vm_compute in Et; discriminate Et].
  destruct H as [_ H]. split; [vm_compute; reflexivity|]. split; [vm_compute; reflexivity|].
  exists t. split; [reflexivity|]. destruct H as [H _]; [vm_compute; reflexivity..|].
  rewrite <- H. vm_compute. reflexivity.
Defined.

Lemma outcome_is_final_witness :
  bs_terminal (bw_state example_end) = true ∧
  ∃ w2, Finish (GZ := stored_gzip) (replicate 5 idle) example_end =
          CReturned grpc_Status_default [] w2 ∧ cc_terminal (bw_context w2) = true.
Proof.
  assert (Ht : bs_terminal (bw_state example_end) = true) by (vm_compute; reflexivity).
  split; [exact Ht|].
  destruct (outcome_is_final (GZ := stored_gzip) example_end [] example_end Ht eq_refl) as (_ & _ & H).
  destruct (H (replicate 5 idle) []) as (w2 & E & _ & _ & Hc);
    [repeat constructor|reflexivity|]. exists w2.
  split; [exact E|]. apply Hc; vm_compute; reflexivity.
Defined.

Lemma cancel_not_lost_witness :
  ∃ w' t, run (blocking_step (GZ := stored_gzip)) example_world
            [BLoop (CWake up); BTryCancel; BTryCancelled] = Some w' ∧
    bw_transport w' = Some t ∧ ct_cancel_requested t = true.
Proof.
  set (w' := default example_world (run (blocking_step (GZ := stored_gzip)) example_world
            [BLoop (CWake up); BTryCancel; BTryCancelled])).
  assert (Hr : run (blocking_step (GZ := stored_gzip)) example_world
            [BLoop (CWake up); BTryCancel; BTryCancelled] = Some w') by (vm_compute; reflexivity).
  destruct (cancel_not_lost (GZ := stored_gzip) example_limits true Identity example_context
    (mkHeap ∅ 0 []) (replicate 5 idle) [] example_world _ w' eq_refl
    example_heap_ok example_opened Hr) as [H|(t & Et & Hc & _)].
  - vm_compute. reflexivity.
  - vm_compute. reflexivity.
  - vm_compute in H. discriminate H.
  - exists w', t. split; [exact Hr|]. split; [exact Et|exact Hc].
Defined.
