(* ===== verification/ClientCalls.v ===== *)
(** * The calls a client makes

    The synchronous client API over a blocking call: [grpc::Channel]
    ([grpcpp/channel.h]), the functions that generated stubs call
    ([grpcpp/impl/client_unary_call.h], [client_streaming_call.h]) and the client
    streams ([grpcpp/support/sync_stream.h]).

    An object that the code keeps to itself is a value that its operations return
    changed; the call behind it is the [BlockingWorld] of the thread. *)

From S2P Require Import Prelude Status Metadata ServerTransport ClientTransport BlockingCall ClientLoop CallInvariant CallLogic.

Local Open Scope Z_scope.

(** ** [grpc::Channel] *)

(** [gc_compression] is [compression_] of a channel that was constructed. *)
Record GrpcChannel := mkGrpcChannel {
  gc_construction_status : grpc_Status;
  gc_compression : Compression }.

(** The limits of [ClientStreamOptions] *)
Definition default_limits : StreamLimits := mkStreamLimits 4194304 8388608 8388608.

(** [new BlockingCallState]: nobody else has it yet. *)
Definition allocate (s : BlockingCallState) : CThread () := λ slots w,
  CReturned () slots (w <| bw_state := s |>).

Section Calls.
Context {GZ : GzipSize}.

(** [timeout] is whether the context has a deadline. *)
Definition OpenRawStream (channel : GrpcChannel) (context timeout : bool) : CThread () :=
  if negb context then
    allocate (BlockingCallState_Failed false (grpc_Status_make INVALID_ARGUMENT "null client context"))
  else if negb (grpc_Status_ok (gc_construction_status channel)) then
    allocate (BlockingCallState_Failed true (gc_construction_status channel))
  else
    _ ← allocate (BlockingCallState_init true (gc_compression channel));
    Open default_limits timeout.

(** The status, and what is stored in [*response] *)
Definition CallUnary (channel : GrpcChannel) (context response timeout : bool) (request : string)
  : CThread (grpc_Status * option string) :=
  if negb (grpc_Status_ok (gc_construction_status channel)) then
    mret (gc_construction_status channel, None)
  else if negb context || negb response then
    mret (grpc_Status_make INVALID_ARGUMENT "null unary call argument", None)
  else
    _ ← OpenRawStream channel context timeout;
    sent ← SendAndClose request;
    payload ← (if grpc_Status_ok sent then Read true else mret None);
    extra_payload ← (if grpc_Status_ok sent then Read true else mret None);
    let has_extra_response := bool_decide (is_Some (extra_payload : option string)) in
    _ ← (if has_extra_response then CallCancel else mret ());
    status ← BlockingCall.Finish;
    mret (if has_extra_response
          then (grpc_Status_make INTERNAL "unary call returned multiple responses", None)
          else if negb (grpc_Status_ok status) then (status, None)
          else match payload with
               | None => (grpc_Status_make INTERNAL "unary response is missing", None)
               | Some payload => (grpc_Status_default, Some payload)
               end).

(** ** Messages *)

Section Messages.
Context {Req Resp : Type} {MReq : Message Req} {MResp : Message Resp}.

(** The parsed message, or the status for [*parse_status] *)
Definition ParseMessage {M} {MM : Message M} (payload description : string) : grpc_Status + M :=
  if zlen payload >? int32_max
  then inl (grpc_Status_make RESOURCE_EXHAUSTED (description +:+ " is too large to parse"))
  else match ParseFromArray payload with
       | None => inl (grpc_Status_make INTERNAL ("failed to parse " +:+ description))
       | Some parsed => inr parsed
       end.

(** The new [*write_status]; the result is whether it is OK. *)
Definition WriteMessage (message : Req) : CThread grpc_Status :=
  match SerializeToString message with
  | None => _ ← CallCancel; mret (grpc_Status_make INTERNAL "failed to serialize request")
  | Some payload => Send payload
  end.

(** [channel] is [None] for a null pointer. *)
Definition BlockingUnaryCall (channel : option GrpcChannel) (context response timeout : bool)
    (request : Req) : CThread (grpc_Status * option Resp) :=
  match channel, context, response with
  | Some channel, true, true =>
      match SerializeToString request with
      | None => mret (grpc_Status_make INTERNAL "failed to serialize request", None)
      | Some request_bytes =>
          r ← CallUnary channel context true timeout request_bytes;
          let '(status, response_bytes) := r in
          if negb (grpc_Status_ok status) then mret (status, None)
          else
            let response_bytes := default "" response_bytes in
            if zlen response_bytes >? int32_max then
              mret (grpc_Status_make RESOURCE_EXHAUSTED "response is too large to parse", None)
            else match ParseFromArray response_bytes with
                 | None => mret (grpc_Status_make INTERNAL "failed to parse response", None)
                 | Some parsed_response => mret (status, Some parsed_response)
                 end
      end
  | _, _, _ => mret (grpc_Status_make INVALID_ARGUMENT "null unary call argument", None)
  end.

(** ** [ClientReader] *)

Record ClientReader := mkClientReader {
  cr_final_status : grpc_Status;
  cr_parse_status : grpc_Status;
  cr_read_exhausted : bool;
  cr_finished : bool }.

#[export] Instance eta_ClientReader : Eta ClientReader := λ r,
  mkClientReader (cr_final_status r) (cr_parse_status r) (cr_read_exhausted r) (cr_finished r).

Definition ClientReader_init : ClientReader :=
  mkClientReader grpc_Status_default grpc_Status_default false false.

(** [response] is whether the pointer is not null; the message for [*response], or
    [None] for the result false *)
Definition ClientReader_Read (response : bool) (r : ClientReader) : CThread (option Resp * ClientReader) :=
  if negb response || cr_finished r || negb (grpc_Status_ok (cr_parse_status r)) then mret (None, r)
  else
    got ← Read true;
    match got with
    | None => mret (None, r <| cr_read_exhausted := true |>)
    | Some payload =>
        match ParseMessage payload "response" with
        | inl parse_status => _ ← CallCancel; mret (None, r <| cr_parse_status := parse_status |>)
        | inr message => mret (Some message, r)
        end
    end.

Definition ClientReader_Finish (r : ClientReader) : CThread (grpc_Status * ClientReader) :=
  if cr_finished r then mret (cr_final_status r, r)
  else
    _ ← (if negb (cr_read_exhausted r) then CallCancel else mret ());
    status ← BlockingCall.Finish;
    let final_status := if negb (grpc_Status_ok (cr_parse_status r)) then cr_parse_status r else status in
    mret (final_status, r <| cr_final_status := final_status |> <| cr_finished := true |>).

Definition ClientReader_destructor (r : ClientReader) : CThread () :=
  if cr_finished r then mret ()
  else _ ← CallCancel; _ ← ClientReader_Finish r; mret ().

Definition BlockingServerStreamingCall (channel : option GrpcChannel) (context timeout : bool)
    (request : Req) : CThread ClientReader :=
  _ ← match channel, context with
      | Some channel, true =>
          match SerializeToString request with
          | None =>
              allocate (BlockingCallState_Failed context
                (grpc_Status_make INTERNAL "failed to serialize request"))
          | Some request_bytes =>
              _ ← OpenRawStream channel context timeout;
              _ ← SendAndClose request_bytes;
              mret ()
          end
      | _, _ =>
          allocate (BlockingCallState_Failed context
            (grpc_Status_make INVALID_ARGUMENT "null server streaming call argument"))
      end;
  mret ClientReader_init.

(** ** [ClientWriter] *)

Record ClientWriter := mkClientWriter {
  cw_final_status : grpc_Status;
  cw_write_status : grpc_Status;
  cw_parse_status : grpc_Status;
  cw_writes_done : bool;
  cw_finished : bool }.

#[export] Instance eta_ClientWriter : Eta ClientWriter := λ r,
  mkClientWriter (cw_final_status r) (cw_write_status r) (cw_parse_status r) (cw_writes_done r)
    (cw_finished r).

Definition ClientWriter_init : ClientWriter :=
  mkClientWriter grpc_Status_default grpc_Status_default grpc_Status_default false false.

Definition ClientWriter_Write (request : Req) (r : ClientWriter) : CThread (bool * ClientWriter) :=
  if cw_writes_done r || cw_finished r || negb (grpc_Status_ok (cw_write_status r)) then mret (false, r)
  else
    write_status ← WriteMessage request;
    mret (grpc_Status_ok write_status, r <| cw_write_status := write_status |>).

Definition ClientWriter_WritesDone (r : ClientWriter) : CThread (bool * ClientWriter) :=
  if cw_finished r then mret (false, r)
  else if cw_writes_done r then mret (grpc_Status_ok (cw_write_status r), r)
  else
    let r1 := r <| cw_writes_done := true |> in
    r2 ← (if grpc_Status_ok (cw_write_status r1) then
            write_status ← CloseSend; mret (r1 <| cw_write_status := write_status |>)
          else mret r1);
    mret (grpc_Status_ok (cw_write_status r2), r2).

(** The message that [parse_] stored in the response, whether one is missing, and
    the writer *)
Definition ClientWriter_response (r : ClientWriter) : CThread (option Resp * bool * ClientWriter) :=
  if grpc_Status_ok (cw_write_status r) then
    payload ← Read true;
    match payload with
    | None => mret (None, true, r)
    | Some payload =>
        match ParseMessage payload "response" with
        | inl parse_status =>
            _ ← CallCancel; mret (None, false, r <| cw_parse_status := parse_status |>)
        | inr message =>
            extra ← Read true;
            match extra with
            | Some _ =>
                _ ← CallCancel;
                mret (Some message, false, r <| cw_parse_status := grpc_Status_make INTERNAL
                        "client streaming call returned multiple responses" |>)
            | None => mret (Some message, false, r)
            end
        end
    end
  else mret (None, false, r).

Definition ClientWriter_Finish (r : ClientWriter)
  : CThread (grpc_Status * option Resp * ClientWriter) :=
  if cw_finished r then mret (cw_final_status r, None, r)
  else
    done ← (if negb (cw_writes_done r) then ClientWriter_WritesDone r else mret (true, r));
    got ← ClientWriter_response done.2;
    let '(response, response_missing, r1) := got in
    status ← BlockingCall.Finish;
    let status1 := if negb (grpc_Status_ok (cw_write_status r1)) then cw_write_status r1 else status in
    let final_status :=
      if negb (grpc_Status_ok (cw_parse_status r1)) then cw_parse_status r1
      else if response_missing && grpc_Status_ok status1
      then grpc_Status_make INTERNAL "client streaming response is missing"
      else status1 in
    mret (final_status, response,
          r1 <| cw_final_status := final_status |> <| cw_finished := true |>).

Definition ClientWriter_destructor (r : ClientWriter) : CThread () :=
  if cw_finished r then mret ()
  else _ ← CallCancel; _ ← ClientWriter_Finish r; mret ().

Definition BlockingClientStreamingCall (channel : option GrpcChannel) (context response timeout : bool)
  : CThread ClientWriter :=
  _ ← match channel, context, response with
      | Some channel, true, true => OpenRawStream channel context timeout
      | _, _, _ =>
          allocate (BlockingCallState_Failed context
            (grpc_Status_make INVALID_ARGUMENT "null client streaming call argument"))
      end;
  mret ClientWriter_init.

(** ** [ClientReaderWriter] *)

Record ClientReaderWriter := mkClientReaderWriter {
  crw_final_status : grpc_Status;
  crw_write_status : grpc_Status;
  crw_parse_status : grpc_Status;
  crw_writes_done : bool;
  crw_read_exhausted : bool;
  crw_finished : bool }.

#[export] Instance eta_ClientReaderWriter : Eta ClientReaderWriter := λ r,
  mkClientReaderWriter (crw_final_status r) (crw_write_status r) (crw_parse_status r)
    (crw_writes_done r) (crw_read_exhausted r) (crw_finished r).

Definition ClientReaderWriter_init : ClientReaderWriter :=
  mkClientReaderWriter grpc_Status_default grpc_Status_default grpc_Status_default false false false.

Definition ClientReaderWriter_Write (request : Req) (r : ClientReaderWriter)
  : CThread (bool * ClientReaderWriter) :=
  if crw_writes_done r || crw_finished r || negb (grpc_Status_ok (crw_write_status r))
  then mret (false, r)
  else
    write_status ← WriteMessage request;
    mret (grpc_Status_ok write_status, r <| crw_write_status := write_status |>).

Definition ClientReaderWriter_WritesDone (r : ClientReaderWriter) : CThread (bool * ClientReaderWriter) :=
  if crw_finished r then mret (false, r)
  else if crw_writes_done r then mret (grpc_Status_ok (crw_write_status r), r)
  else
    let r1 := r <| crw_writes_done := true |> in
    r2 ← (if grpc_Status_ok (crw_write_status r1) then
            write_status ← CloseSend; mret (r1 <| crw_write_status := write_status |>)
          else mret r1);
    mret (grpc_Status_ok (crw_write_status r2), r2).

Definition ClientReaderWriter_Read (response : bool) (r : ClientReaderWriter)
  : CThread (option Resp * ClientReaderWriter) :=
  if negb response || crw_finished r || negb (grpc_Status_ok (crw_parse_status r)) then mret (None, r)
  else
    got ← Read true;
    match got with
    | None => mret (None, r <| crw_read_exhausted := true |>)
    | Some payload =>
        match ParseMessage payload "response" with
        | inl parse_status => _ ← CallCancel; mret (None, r <| crw_parse_status := parse_status |>)
        | inr message => mret (Some message, r)
        end
    end.

Definition ClientReaderWriter_Finish (r : ClientReaderWriter)
  : CThread (grpc_Status * ClientReaderWriter) :=
  if crw_finished r then mret (crw_final_status r, r)
  else
    done ← (if negb (crw_writes_done r) then ClientReaderWriter_WritesDone r else mret (true, r));
    let r1 : ClientReaderWriter := done.2 in
    _ ← (if negb (crw_read_exhausted r1) then CallCancel else mret ());
    status ← BlockingCall.Finish;
    let status1 := if negb (grpc_Status_ok (crw_write_status r1)) then crw_write_status r1 else status in
    let final_status :=
      if negb (grpc_Status_ok (crw_parse_status r1)) then crw_parse_status r1 else status1 in
    mret (final_status, r1 <| crw_final_status := final_status |> <| crw_finished := true |>).

Definition ClientReaderWriter_destructor (r : ClientReaderWriter) : CThread () :=
  if crw_finished r then mret ()
  else _ ← CallCancel; _ ← ClientReaderWriter_Finish r; mret ().

Definition BlockingBidiStreamingCall (channel : option GrpcChannel) (context timeout : bool)
  : CThread ClientReaderWriter :=
  _ ← match channel, context with
      | Some channel, true => OpenRawStream channel context timeout
      | _, _ =>
          allocate (BlockingCallState_Failed context
            (grpc_Status_make INVALID_ARGUMENT "null bidirectional call argument"))
      end;
  mret ClientReaderWriter_init.
End Messages.
End Calls.

(** ** A call that one thread has to itself

    Besides the thread there are the loop and whoever cancels through the context. *)

Definition private (l : BlockingLabel) : Prop :=
  match l with
  | BLoop _ | BTryCancel | BTryCancelled => True
  | _ => False
  end.

(** [read] are the responses the thread has read, [sent] the requests it sent. *)
Definition traffic (read sent : list string) (w : BlockingWorld) : Prop :=
  bw_read w = read ∧ ∀ t, bw_transport w = Some t → ct_sent t = sent.

Definition uses (own : nat) (read sent : list string) (w : BlockingWorld) : Prop :=
  blocking_inv own w ∧ traffic read sent w.

Section Private.
Context {GZ : GzipSize} (U : Prop).

Abbreviation spec := (holds private U).

Lemma on_stream_read {A} (f : ClientTransport → A * ClientTransport) w :
  bw_read (on_stream f w).2 = bw_read w.
Proof.
  unfold on_stream. destruct (bs_stream _); [|done]. destruct (bw_transport w) as [t|]; [|done].
  by destruct (f t).
Qed.

Lemma on_stream_sent {A} (f : ClientTransport → A * ClientTransport) w sent :
  (∀ t, ct_sent (f t).2 = ct_sent t) →
  (∀ t, bw_transport w = Some t → ct_sent t = sent) →
  ∀ t, bw_transport (on_stream f w).2 = Some t → ct_sent t = sent.
Proof.
  intros Hf H t. unfold on_stream. destruct (bs_stream _); [|apply H].
  destruct (bw_transport w) as [t0|] eqn:Et; [|simpl; congruence].
  specialize (Hf t0). destruct (f t0) as [a t1]. simpl in *. intros [= <-]. rewrite Hf. auto.
Qed.

Lemma clientStreamCancel_sent t : ct_sent (clientStreamCancel t) = ct_sent t.
Proof. unfold clientStreamCancel. by destruct (_ || _). Qed.

Lemma Cancel_traffic read sent w : traffic read sent w → traffic read sent (Cancel w).
Proof.
  intros [H2 H3]. unfold Cancel. destruct (bs_terminal _); [done|]. split; [by rewrite on_stream_read|].
  apply on_stream_sent; [intros; apply clientStreamCancel_sent|done].
Qed.

Lemma Cancel_uses own read sent w : uses own read sent w → uses own read sent (Cancel w).
Proof. intros [H1 H2]. split; [by apply Cancel_inv|by apply Cancel_traffic]. Qed.

Lemma stable_traffic read sent : stable private (traffic read sent).
Proof.
  intros w l w' Hp H Hs. destruct l; try done; cbn [blocking_step] in Hs.
  - destruct H as [H2 H3]. revert Hs. unfold loop_world.
    destruct (bw_transport w) as [t|] eqn:Et; [|done].
    destruct (loop_step _ _ _) as [[t' [s c]]|] eqn:El; [|done]. intros [= <-]. split; [done|].
    intros t1 [= <-]. pose proof (lr_sent _ _ (rel_loop_step _ _ _ El)) as E. simpl in E. rewrite E. auto.
  - destruct (TryCancel_mark _). by injection Hs as <-.
  - destruct (bw_cancels w) eqn:En; [done|]. destruct (Cancel_traffic _ _ _ H) as [H2 H3].
    by injection Hs as <-.
Qed.

Lemma stable_uses own read sent : stable private (uses own read sent).
Proof. apply stable_and; [apply stable_inv|apply stable_traffic]. Qed.

Lemma uses_SetTerminal own read sent status trailing w :
  grpc_Status_ok status = false → uses own read sent w →
  uses own read sent (on_state (SetTerminal status trailing) w).
Proof.
  intros Hs (H1 & H2 & H3). split; [|done]. apply on_state_inv; [|done].
  intros. by apply SetTerminal_same.
Qed.

(** *** Operations *)

Lemma CallCancel_spec read sent :
  spec (uses 0 read sent) CallCancel (λ _, uses 0 read sent).
Proof. apply holds_update; [apply stable_uses|]. apply Cancel_uses. Qed.

Lemma Read_resume_uses own read sent w :
  uses (S own) read sent w → uses own read sent (Read_resume w).
Proof.
  intros (H1 & H2 & H3). split; [by apply Read_resume_inv|]. unfold Read_resume, traffic.
  pose proof (on_stream_read clientStreamResumeReceive w) as E.
  assert (H3' := on_stream_sent clientStreamResumeReceive w sent
    ltac:(intros t; unfold clientStreamResumeReceive; by destruct (stream_closed t)) H3).
  destruct (on_stream _ w) as [[r|] w1]; simpl in *; [destruct (_ && _)|]; simpl; rewrite E; auto.
Qed.

(** A [Read] that the thread gets a response from *)
Lemma Read_spec read sent :
  spec (uses 0 read sent) (Read true)
    (λ r, uses 0 (read ++ option_list r) sent).
Proof.
  unfold Read. simpl.
  eapply (holds_bind _ _ _ _ _ (λ r, uses (length (option_list r)) (read ++ option_list r) sent)).
  - apply holds_wait; [apply stable_uses|]. intros _ w r w' (H1 & H2 & H3) Ht.
    pose proof (Read_take_inv _ _ _ _ H1 Ht) as Hi. revert Ht. unfold Read_take.
    destruct (bs_message _) as [payload|]; [|destruct (bs_terminal _); [|done]]; intros [= <- <-];
      simpl; rewrite ?app_nil_r; (split; [done|]); (split; simpl; [by rewrite ?H2|done]).
  - intros [payload|]; simpl; [|by apply holds_ret].
    eapply (holds_bind _ _ _ _ _ (λ _, uses 0 (read ++ [payload]) sent)); [|intros _; by apply holds_ret].
    apply holds_update; [apply stable_uses|]. apply Read_resume_uses.
Qed.

(** [RunCommand] runs its command until it succeeds or the call is over; [P] is
    what holds until it has succeeded, [Q] what holds then. *)
Lemma RunCommand_spec (command : CThread Error) P Q :
  stable private P →
  (∀ w error, P w → Error_ok error = false →
     P (on_state (SetTerminal (command_failed (command_status error)) []) w)) →
  spec P command (λ error w, if Error_ok error then Q w else P w) →
  spec P (RunCommand command) (λ _ w, P w ∨ Q w).
Proof.
  intros HP Hf Hc slots. unfold RunCommand. generalize (Datatypes.S (length slots)). intros fuel.
  assert (H : spec P (RunCommand_loop fuel command) (λ _ w, P w ∨ Q w)); [|apply H].
  induction fuel as [|fuel IH]; [by intros ? ?|]. cbn [RunCommand_loop].
  eapply (holds_bind _ _ _ _ _ (λ _, P)); [by apply holds_section|]. intros [status|generation].
  { apply holds_ret. auto. }
  eapply holds_bind; [apply Hc|]. intros error. destruct (Error_ok error) eqn:Ee;
    [apply holds_ret; simpl; rewrite Ee; auto|].
  eapply (holds_weaken _ _ P); [|by rewrite Ee|intros a w H; exact H].
  destruct (Error_is error ErrorCode.Closed).
  { apply holds_wait; [done|]. intros _ w status w' Hw. destruct (bs_terminal _); [|done].
    intros [= _ <-]. auto. }
  destruct (negb (Error_is error ErrorCode.WouldBlock)).
  { eapply (holds_bind _ _ _ _ _ (λ _, P)); [|intros []; apply holds_ret; auto].
    apply holds_update; [done|]. intros w Hw. by apply Hf. }
  eapply (holds_bind _ _ _ _ _ (λ _, P)).
  { apply holds_wait; [done|]. intros _ w r w' Hw. destruct (bs_terminal _); [by intros [= <- <-]|].
    destruct (negb _); [by intros [= <- <-]|done]. }
  intros [status|]; [apply holds_ret; auto|apply IH].
Qed.

Lemma uses_fails read sent w error :
  uses 0 read sent w → Error_ok error = false →
  uses 0 read sent (on_state (SetTerminal (command_failed (command_status error)) []) w).
Proof. intros H He. by apply uses_SetTerminal; [apply command_status_fails|]. Qed.

Lemma uses_on_stream {A} own read sent (f : ClientTransport → A * ClientTransport) w :
  (∀ t, op_same t (f t).2) → (∀ t, ct_sent (f t).2 = ct_sent t) → uses own read sent w →
  uses own read sent (on_stream f w).2.
Proof.
  intros Hf Hs (H1 & H2 & H3). split; [by apply on_stream_inv|].
  split; [by rewrite on_stream_read|by apply on_stream_sent].
Qed.

Lemma send_check_sent payload c t : ct_sent (clientStreamSend_check payload c t).2 = ct_sent t.
Proof. unfold clientStreamSend_check. by repeat case_match. Qed.

Lemma close_sent t : ct_sent (clientStreamCloseSend t).2 = ct_sent t.
Proof. unfold clientStreamCloseSend. by repeat case_match. Qed.

(** The transport has the request once when the commit succeeds, and not at all when
    it does not. *)
Lemma send_commit_sent memory payload c t :
  let '(r, t') := clientStreamSend_commit memory payload c t in
  ct_sent t' = if r is Some _ then ct_sent t else ct_sent t ++ [payload].
Proof. unfold clientStreamSend_commit. repeat (case_match; simplify_eq/=; try done). Qed.

Lemma stream_result_ok r : Error_ok (stream_result r) = true ↔ r = None.
Proof. destruct r as [[]|]; vm_compute; split; congruence. Qed.

Lemma Send_commit_uses read sent memory payload w :
  uses 0 read sent w →
  let '(r, w') := Send_commit memory payload w in
  uses 0 read (if Error_ok (closed_error r) then sent ++ [payload] else sent) w'.
Proof.
  intros (H1 & H2 & H3). unfold Send_commit.
  pose proof (on_stream_inv 0 (clientStreamSend_commit memory payload (bs_compression (bw_state w))) w
    ltac:(intros; apply op_same_send_commit) H1) as Hi.
  pose proof (on_stream_read (clientStreamSend_commit memory payload (bs_compression (bw_state w))) w) as Hr.
  revert Hi Hr. unfold on_stream. destruct (bs_stream _) eqn:Es; [|by split].
  destruct (bi_stream _ _ H1 Es) as (t & Et & _). rewrite Et.
  pose proof (send_commit_sent memory payload (bs_compression (bw_state w)) t) as Hs.
  destruct (clientStreamSend_commit _ _ _ t) as [r t']. simpl in *. intros Hi Hr.
  split; [done|]. split; [done|]. intros t1 [= <-]. rewrite Hs, (H3 t Et). unfold closed_error. simpl.
  destruct r as [e|]; [|done]. destruct (Error_ok _) eqn:Ee; [|done]. by apply stream_result_ok in Ee.
Qed.

Lemma Send_spec payload read sent :
  spec (uses 0 read sent) (Send payload)
    (λ _ w, uses 0 read sent w ∨ uses 0 read (sent ++ [payload]) w).
Proof.
  apply RunCommand_spec; [apply stable_uses|apply uses_fails|]. unfold send_command.
  eapply (holds_bind _ _ _ _ _ (λ _, uses 0 read sent)).
  { apply holds_section; [apply stable_uses|]. intros w Hw. rewrite Send_check_on_stream.
    apply uses_on_stream; [intros; apply op_same_send_check|intros; apply send_check_sent|done]. }
  intros checked. destruct (Error_ok (closed_error checked)) eqn:Ee; simpl.
  2: { apply holds_ret. by rewrite Ee. }
  eapply (holds_bind _ _ _ _ _ (λ r,
    uses 0 read (if Error_ok (closed_error r) then sent ++ [payload] else sent))).
  - apply holds_wait; [apply stable_uses|]. intros slot w r w' Hw [= Er].
    pose proof (Send_commit_uses read sent (cs_memory slot) payload w Hw) as H. by rewrite Er in H.
  - intros r. apply holds_ret. intros w. simpl. by destruct (Error_ok (closed_error r)).
Qed.

Lemma CloseSend_spec read sent :
  spec (uses 0 read sent) CloseSend (λ _, uses 0 read sent).
Proof.
  eapply (holds_weaken _ _ _ _ _ (λ _ w, uses 0 read sent w ∨ uses 0 read sent w)); [|done|by intros _ w [?|?]].
  apply RunCommand_spec; [apply stable_uses|apply uses_fails|]. unfold close_command.
  eapply (holds_bind _ _ _ _ _ (λ _, uses 0 read sent)).
  { apply holds_section; [apply stable_uses|]. intros w Hw. rewrite CloseSend_on_stream.
    apply uses_on_stream; [intros; apply op_same_close|intros; apply close_sent|done]. }
  intros r. apply holds_ret. intros w. simpl. by destruct (Error_ok (closed_error r)).
Qed.

(** *** The end of the call *)

Lemma stable_no_stream : stable private (λ w, bs_stream (bw_state w) = false).
Proof.
  intros w l w' Hp H Hs. destruct l; try done; cbn [blocking_step] in Hs.
  - revert Hs. unfold loop_world. destruct (bw_transport w) as [t|]; [|done].
    destruct (loop_step _ _ _) as [[t' [s c]]|] eqn:El; [|done]. intros [= <-].
    pose proof (lr_stream _ _ (rel_loop_step _ _ _ El)) as E. simpl in *. congruence.
  - destruct (TryCancel_mark _). by injection Hs as <-.
  - destruct (bw_cancels w); [done|]. injection Hs as <-. unfold Cancel.
    destruct (bs_terminal _); [done|]. simpl. rewrite (proj1 (on_stream_frame _ _)). done.
Qed.

Lemma complete_uses read sent initial trailing w :
  uses 0 read sent w → bs_terminal (bw_state w) = true →
  uses 0 read sent (if bs_context (bw_state w)
                    then w <| bw_context := CompleteCall initial trailing (bw_context w) |> else w).
Proof.
  intros [H1 H2] Ht. destruct (bs_context _); [|done]. split; [|done].
  pose proof (context_inv 0 w (CompleteCall initial trailing (bw_context w)) (bw_cancels w) H1) as H.
  destruct w. apply H. auto.
Qed.

Lemma release_traffic read sent w :
  traffic read sent w → traffic read sent (w <| bw_transport := clientStreamRelease <$> bw_transport w |>).
Proof.
  intros [H2 H3]. split; [done|]. simpl. destruct (bw_transport w) as [t|]; [|done].
  intros t' [= <-]. by rewrite <- (H3 t eq_refl).
Qed.

(** [over status read sent]: the call has ended with [status]. *)
Definition over (status : grpc_Status) (read sent : list string) (w : BlockingWorld) : Prop :=
  uses 0 read sent w ∧ ∃ trailing, final (bw_state w) status trailing.

Lemma stable_over status read sent : stable private (over status read sent).
Proof.
  intros w l w' Hp [H1 [trailing H2]] Hs. split; [by eapply stable_uses|].
  exists trailing. by eapply (stable_final private).
Qed.

Lemma Finish_uses read sent :
  spec (uses 0 read sent) BlockingCall.Finish (λ status, over status read sent).
Proof.
  unfold Finish. eapply (holds_bind _ _ _ _ _ (λ r, over r.1 read sent)).
  { apply holds_wait; [apply stable_uses|]. intros _ w r w' Hw. destruct (bs_terminal _) eqn:Et; [|done].
    intros [= <- <-]. split; [done|]. by exists (bs_trailing_metadata (bw_state w)). }
  intros [status [initial trailing]]. simpl.
  eapply (holds_bind _ _ _ _ _ (λ _, over status read sent)).
  { apply holds_update; [apply stable_over|]. intros w [H1 [tr Hf]].
    split; [apply complete_uses; [done|apply Hf]|]. exists tr. by destruct (bs_context _). }
  intros []. eapply (holds_bind _ _ _ _ _ (λ _, over status read sent)); [|intros []; by apply holds_ret].
  unfold DestroyStream.
  eapply (holds_bind _ _ _ _ _ (λ _ w, over status read sent w ∧ bs_stream (bw_state w) = false)).
  { apply holds_section; [apply stable_over|]. intros w [[H1 H2] [tr Hf]].
    split; [|done]. split; [split; [by apply destroy_inv|done]|by exists tr]. }
  intros had. eapply (holds_bind _ _ _ _ _ (λ _, over status read sent)).
  { apply holds_update; [apply stable_and; [apply stable_over|apply stable_no_stream]|].
    intros w [[[H1 H2] Hf] Hs]. destruct had; [|by split]. split; [|done].
    split; [by apply released_inv|by apply release_traffic]. }
  intros []. apply holds_update; [apply stable_over|]. intros w [[H1 H2] Hf]. split; [|done].
  split; [|done]. apply on_state_inv; [|done]. intros. apply owner_same.
Qed.

(** A call that has just been opened has neither read nor sent anything. *)
Lemma Open_traffic limits timeout :
  holds private True (traffic [] []) (Open limits timeout) (λ _, traffic [] []).
Proof.
  assert (Hu : ∀ f, (∀ w, traffic [] [] w → traffic [] [] (f w)) →
             holds private True (traffic [] []) (update f) (λ _, traffic [] [])).
  { intros f Hf. apply holds_update; [apply stable_traffic|done]. }
  assert (Hs : ∀ A (f : BlockingWorld → A * BlockingWorld), (∀ w, traffic [] [] w → traffic [] [] (f w).2) →
             holds private True (traffic [] []) (section f) (λ _, traffic [] [])).
  { intros A f Hf. apply holds_section; [apply stable_traffic|done]. }
  assert (Hh : ∀ A (m : heapM A), holds private True (traffic [] []) (on_heap m) (λ _, traffic [] [])).
  { intros A m. by apply holds_heap_any. }
  unfold Open. eapply holds_bind; [by apply Hu|]. intros []. eapply holds_bind; [apply Hs|].
  { intros w Hw. by destruct (RegisterCancellation _). }
  intros registered. destruct (negb registered); [by apply Hu|].
  eapply holds_bind; [by apply Hs|]. intros metadata. eapply holds_bind; [apply Hh|]. intros r.
  eapply (holds_bind _ _ _ _ _ (λ _, traffic [] [])); [|intros []; apply Hh].
  destruct (negb _); [by apply Hu|]. eapply holds_bind; [apply Hh|]. intros es.
  eapply (holds_bind _ _ _ _ _ (λ _, traffic [] [])).
  - apply holds_wait; [apply stable_traffic|]. intros slot w o w' [H1 H2].
    destruct (cs_open slot); intros [= <- <-]; [done|]. split; [done|]. by intros t [= <-].
  - intros [e|]; [by apply Hu|]. apply Hu. intros w [H1 H2]. destruct (bs_cancel_requested _); [|done].
    split; [by rewrite on_stream_read|].
    apply on_stream_sent; [intros; apply clientStreamCancel_sent|done].
Qed.

(** *** Calls *)

(** The world before a call: a context that no call has used yet *)
Definition client_start (s : BlockingCallState) (c : ClientContext) (h : MetadataHeap) : BlockingWorld :=
  mkBlockingWorld None s c h 0 0 [].

Lemma failed_uses context status c h :
  cc_target c = false → grpc_Status_ok status = false →
  uses 0 [] [] (client_start (BlockingCallState_Failed context status) c h).
Proof.
  intros Hc Hs. split; [|done]. split; simpl; [|done|congruence]. split; [done|]. by intros _.
Qed.

Lemma OpenRawStream_spec channel context timeout s c h :
  cc_target c = false → heap_ok h →
  spec (λ w, w = client_start s c h) (OpenRawStream channel context timeout) (λ _, uses 0 [] []).
Proof.
  intros Hc Hh. unfold OpenRawStream.
  assert (Hf : ∀ b status, grpc_Status_ok status = false →
    spec (λ w, w = client_start s c h) (allocate (BlockingCallState_Failed b status)) (λ _, uses 0 [] [])).
  { intros b status Hs slots w Ha ->. split; [done|]. by apply failed_uses. }
  destruct (negb context); [by apply Hf|].
  destruct (grpc_Status_ok (gc_construction_status channel)) eqn:Ec; simpl; [|by apply Hf].
  eapply (holds_bind _ _ _ _ _ (λ _ w, w = blocking_start (gc_compression channel) c h)).
  { intros slots w Ha ->. by split. }
  intros []. eapply (holds_undefined _ (False ∧ True)); [by intros []|].
  eapply holds_weaken;
    [apply holds_and; [by apply (Open_spec private False _ _ (gc_compression channel) c h)|apply Open_traffic]|..].
  - by intros w ->.
  - intros [] w [[[H _] _] Ht]. by split.
Qed.

(** The requests the thread has sent are some of [requests], in their order: a
    command that finds the call over may succeed without sending. *)
Definition sending (read requests : list string) (w : BlockingWorld) : Prop :=
  ∃ sent, sent `sublist_of` requests ∧ uses 0 read sent w.

Lemma uses_sending read sent w : uses 0 read sent w → sending read sent w.
Proof. intros H. by exists sent. Qed.

Lemma holds_sending {A} read requests (m : CThread A) (Q : A → BlockingWorld → Prop) :
  (∀ sent, sent `sublist_of` requests → spec (uses 0 read sent) m Q) → spec (sending read requests) m Q.
Proof. intros H slots w Ha (sent & Hs & Hw). by eapply H. Qed.

Lemma Send_sending payload read requests :
  spec (sending read requests) (Send payload) (λ _, sending read (requests ++ [payload])).
Proof.
  apply holds_sending. intros sent Hs. eapply holds_weaken; [apply Send_spec|done|].
  intros st w [Hw|Hw]; eexists; (split; [|done]); [by apply sublist_inserts_r|].
  by apply sublist_app.
Qed.

Lemma CloseSend_sending read requests :
  spec (sending read requests) CloseSend (λ _, sending read requests).
Proof.
  apply holds_sending. intros sent Hs. eapply holds_weaken; [apply CloseSend_spec|done|].
  intros st w Hw. by exists sent.
Qed.

Lemma SendAndClose_sending request read requests :
  spec (sending read requests) (SendAndClose request) (λ _, sending read (requests ++ [request])).
Proof.
  unfold SendAndClose. eapply holds_bind; [apply Send_sending|]. intros status. simpl.
  destruct (negb _); [by apply holds_ret|apply CloseSend_sending].
Qed.

Lemma Read_sending read requests :
  spec (sending read requests) (Read true) (λ r, sending (read ++ option_list r) requests).
Proof.
  apply holds_sending. intros sent Hs. eapply holds_weaken; [apply Read_spec|done|].
  intros r w Hw. by exists sent.
Qed.

Lemma CallCancel_sending read requests :
  spec (sending read requests) CallCancel (λ _, sending read requests).
Proof.
  apply holds_sending. intros sent Hs. eapply holds_weaken; [apply CallCancel_spec|done|].
  intros r w Hw. by exists sent.
Qed.

(** What the end of a call tells about its traffic *)
Definition outcome (read requests : list string) (status : grpc_Status) (w : BlockingWorld) : Prop :=
  grpc_Status_ok status = true →
  ∃ t, bw_transport w = Some t ∧ ct_wire t = read ∧ ct_sent t `sublist_of` requests.

Lemma over_wire status read sent w :
  over status read sent w → grpc_Status_ok status = true →
  ∃ t, bw_transport w = Some t ∧ ct_wire t = read ∧ ct_sent t = sent.
Proof.
  intros [[H1 [H2 H3]] (trailing & Hb & Hs & _)] Ho. rewrite <- Hs in Ho.
  destruct (ended_ok _ _ H1 Hb Ho) as (t & Et & Er). exists t. split; [done|]. split; [congruence|auto].
Qed.

Lemma Finish_sending read requests :
  spec (sending read requests) BlockingCall.Finish (outcome read requests).
Proof.
  apply holds_sending. intros sent Hs. eapply holds_weaken; [apply Finish_uses|done|].
  intros status w Hw Ho. destruct (over_wire _ _ _ _ Hw Ho) as (t & E1 & E2 & <-). by exists t.
Qed.

Lemma CallUnary_spec channel context response timeout request s c h :
  cc_target c = false → heap_ok h →
  spec (λ w, w = client_start s c h) (CallUnary channel context response timeout request)
    (λ r w, match r with
       | (status, Some payload) => status = grpc_Status_default ∧ outcome [payload] [request] status w
       | (status, None) => grpc_Status_ok status = false
       end).
Proof.
  intros Hc Hh. unfold CallUnary.
  destruct (grpc_Status_ok (gc_construction_status channel)) eqn:Ec; simpl; [|by apply holds_ret].
  destruct (negb context || negb response); [by apply holds_ret|].
  eapply (holds_bind _ _ _ _ _ (λ _, sending [] [])).
  { eapply holds_weaken; [by apply (OpenRawStream_spec channel context timeout s c h)|done|].
    intros []. apply uses_sending. }
  intros []. eapply holds_bind; [apply SendAndClose_sending|]. intros sent.
  set (maybe_read := if grpc_Status_ok sent then Read true else mret None).
  assert (Hr : ∀ read, spec (sending read [request]) maybe_read
                 (λ r, sending (read ++ option_list r) [request])).
  { intros read. unfold maybe_read. destruct (grpc_Status_ok sent); [apply Read_sending|].
    apply holds_ret. by rewrite app_nil_r. }
  eapply holds_bind; [apply Hr|]. intros payload. eapply holds_bind; [apply Hr|]. intros extra.
  eapply (holds_bind _ _ _ _ _ (λ _, sending (([] ++ option_list payload) ++ option_list extra) [request])).
  { destruct (bool_decide _); [apply CallCancel_sending|by apply holds_ret]. }
  intros []. eapply holds_bind; [apply Finish_sending|]. intros status. apply holds_ret. intros w Hw.
  destruct extra as [extra|]; simpl; [done|]. rewrite app_nil_r in Hw.
  destruct (grpc_Status_ok status) eqn:Es; simpl; [|done].
  destruct payload as [payload|]; simpl; [|done]. split; [done|]. intros _. by apply Hw.
Qed.
End Private.

(** ** Streams *)

Section Streams.
Context {GZ : GzipSize} (U : Prop) {Req Resp : Type} {MReq : Message Req} {MResp : Message Resp}.

Abbreviation spec := (holds private U).

Lemma ParseMessage_inl {M} {MM : Message M} payload description status :
  ParseMessage payload description = inl status → grpc_Status_ok status = false.
Proof.
  unfold ParseMessage. destruct (_ >? _); [by intros [= <-]|].
  destruct (ParseFromArray payload); [done|by intros [= <-]].
Qed.

Lemma ParseMessage_inr {M} {MM : Message M} payload description (message : M) :
  ParseMessage payload description = inr message → ParseFromArray payload = Some message.
Proof. unfold ParseMessage. destruct (_ >? _); [done|]. destruct (ParseFromArray payload); congruence. Qed.

Lemma WriteMessage_sending (message : Req) read requests :
  spec (sending read requests) (WriteMessage message)
    (λ _, sending read (requests ++ option_list (SerializeToString message))).
Proof.
  unfold WriteMessage. destruct (SerializeToString message) as [payload|]; simpl; [apply Send_sending|].
  rewrite app_nil_r. eapply holds_bind; [apply CallCancel_sending|]. intros []. by apply holds_ret.
Qed.

(** *** Writers *)

(** A writer's requests, one after the other *)
Fixpoint write_all (messages : list Req) (r : ClientWriter) : CThread ClientWriter :=
  match messages with
  | [] => mret r
  | message :: rest => written ← ClientWriter_Write message r; write_all rest written.2
  end.

Lemma ClientWriter_Write_spec (message : Req) r requests :
  spec (sending [] requests) (ClientWriter_Write message r)
    (λ x w, (cw_parse_status x.2, cw_finished x.2) = (cw_parse_status r, cw_finished r) ∧
            sending [] (requests ++ option_list (SerializeToString message)) w).
Proof.
  unfold ClientWriter_Write. destruct (_ || _).
  - apply holds_ret. intros w (sent & Hs & Hw). split; [done|]. exists sent. split; [|done].
    by apply sublist_inserts_r.
  - eapply holds_bind; [apply WriteMessage_sending|]. intros status. apply holds_ret. intros w Hw. by split.
Qed.

Lemma holds_pure {A} (φ : Prop) P (m : CThread A) Q : (φ → spec P m Q) → spec (λ w, φ ∧ P w) m Q.
Proof. intros H slots w Ha [Hf Hw]. by apply H. Qed.

Lemma write_all_spec messages r requests :
  spec (sending [] requests) (write_all messages r)
    (λ x w, (cw_parse_status x, cw_finished x) = (cw_parse_status r, cw_finished r) ∧
            sending [] (requests ++ omap SerializeToString messages) w).
Proof.
  revert r requests. induction messages as [|message rest IH]; intros r requests; simpl.
  - apply holds_ret. intros w Hw. by rewrite app_nil_r.
  - eapply holds_bind; [apply ClientWriter_Write_spec|]. intros [b r']. apply holds_pure. simpl. intros E.
    eapply holds_weaken; [apply IH|done|]. intros x w [Ex Hw]. split; [congruence|].
    rewrite <- app_assoc in Hw. by destruct (SerializeToString message).
Qed.

Lemma WritesDone_spec r requests :
  spec (sending [] requests) (ClientWriter_WritesDone r)
    (λ x w, cw_parse_status x.2 = cw_parse_status r ∧ sending [] requests w).
Proof.
  unfold ClientWriter_WritesDone. destruct (cw_finished r); [by apply holds_ret|].
  destruct (cw_writes_done r); [by apply holds_ret|].
  eapply (holds_bind _ _ _ _ _ (λ x w, cw_parse_status x = cw_parse_status r ∧ sending [] requests w)).
  - destruct (grpc_Status_ok _); [|by apply holds_ret]. eapply holds_bind; [apply CloseSend_sending|].
    intros status. by apply holds_ret.
  - intros x. by apply holds_ret.
Qed.

(** The response that [Finish] looks for *)
Definition responded (requests : list string) (r : ClientWriter) (x : option Resp * bool * ClientWriter)
    (w : BlockingWorld) : Prop :=
  let '(response, missing, r') := x in
  cw_write_status r' = cw_write_status r ∧
  ∃ read, sending read requests w ∧
    (grpc_Status_ok (cw_write_status r) = true → grpc_Status_ok (cw_parse_status r') = true →
     missing = false → ∃ payload message, read = [payload] ∧ response = Some message ∧
       ParseFromArray payload = Some message).

Lemma response_spec r requests :
  spec (sending [] requests) (ClientWriter_response r) (responded requests r).
Proof.
  unfold ClientWriter_response. destruct (grpc_Status_ok (cw_write_status r)) eqn:Ew.
  2: { apply holds_ret. intros w Hw. split; [done|]. exists []. split; [done|]. congruence. }
  eapply holds_bind; [apply Read_sending|]. intros [payload|]; simpl.
  2: { apply holds_ret. intros w Hw. split; [done|]. by exists []. }
  destruct (ParseMessage payload "response") as [status|message] eqn:Ep.
  - eapply holds_bind; [apply CallCancel_sending|]. intros []. apply holds_ret. intros w Hw. split; [done|].
    exists [payload]. split; [done|]. simpl. apply ParseMessage_inl in Ep. congruence.
  - eapply holds_bind; [apply Read_sending|]. intros [extra|]; simpl.
    + eapply holds_bind; [apply CallCancel_sending|]. intros []. apply holds_ret. intros w Hw.
      split; [done|]. by exists [payload; extra].
    + apply holds_ret. intros w Hw. split; [done|]. exists [payload]. split; [done|]. intros _ _ _.
      exists payload, message. by apply ParseMessage_inr in Ep.
Qed.

(** A writer's [Finish]: OK is for exactly one response. *)
Lemma ClientWriter_Finish_spec r requests :
  cw_finished r = false →
  spec (sending [] requests) (ClientWriter_Finish (Resp := Resp) r)
    (λ x w, grpc_Status_ok x.1.1 = true → ∃ payload message, x.1.2 = Some message ∧
       ParseFromArray payload = Some message ∧ outcome [payload] requests x.1.1 w).
Proof.
  intros Hf. unfold ClientWriter_Finish. rewrite Hf.
  eapply (holds_bind _ _ _ _ _ (λ _, sending [] requests)).
  { destruct (negb _); [|by apply holds_ret]. eapply holds_weaken; [apply WritesDone_spec|done|].
    by intros x w [_ Hw]. }
  intros [b r1]. eapply holds_bind; [apply response_spec|]. intros [[response missing] r2]. simpl.
  apply holds_pure. intros Ew. intros slots w Ha (read & Hw & Hr).
  pose proof (Finish_sending U read requests slots w Ha Hw) as H. unfold mbind, cthread_bind.
  destruct (BlockingCall.Finish slots w) as [status rest w'|w'|]; [|done|done].
  destruct H as [Hr' H]. split; [done|]. simpl. rewrite Ew.
  destruct (grpc_Status_ok (cw_parse_status r2)) eqn:Ep; simpl; [|congruence].
  destruct (grpc_Status_ok (cw_write_status r1)) eqn:E1; simpl.
  2: { rewrite E1, andb_false_r. congruence. }
  destruct missing; simpl.
  { by destruct (grpc_Status_ok status) eqn:Es; simpl; rewrite ?Es. }
  intros Ho. destruct (Hr eq_refl eq_refl eq_refl) as (payload & message & -> & -> & Em).
  by exists payload, message.
Qed.

(** *** Readers *)

(** [n] calls of [Read]: the messages, in order *)
Fixpoint read_all (n : nat) (r : ClientReader) : CThread (list Resp * ClientReader) :=
  match n with
  | O => mret ([], r)
  | Datatypes.S n =>
      got ← ClientReader_Read true r;
      rest ← read_all n got.2;
      mret (option_list got.1 ++ rest.1, rest.2)
  end.

(** The messages handed out are those on the connection, as far as they were read
    and parsed. *)
Definition handed (read : list string) (messages : list Resp) (r : ClientReader) : Prop :=
  grpc_Status_ok (cr_parse_status r) = true → mapM ParseFromArray read = Some messages.

Lemma ClientReader_Read_spec read messages r requests :
  handed read messages r → cr_finished r = false →
  spec (sending read requests) (ClientReader_Read true r)
    (λ x w, cr_finished x.2 = false ∧ ∃ read', handed read' (messages ++ option_list x.1) x.2 ∧
            sending read' requests w).
Proof.
  intros Hh Hf. unfold ClientReader_Read. rewrite Hf. simpl.
  destruct (grpc_Status_ok (cr_parse_status r)) eqn:Ep; simpl.
  2: { apply holds_ret. intros w Hw. split; [done|]. exists read. by rewrite app_nil_r. }
  eapply holds_bind; [apply Read_sending|]. intros [payload|]; simpl.
  2: { apply holds_ret. intros w Hw. rewrite app_nil_r in Hw. split; [done|]. exists read.
       split; [|done]. simpl. by rewrite app_nil_r. }
  destruct (ParseMessage payload "response") as [status|message] eqn:Em.
  - eapply holds_bind; [apply CallCancel_sending|]. intros []. apply holds_ret. intros w Hw.
    split; [done|]. exists (read ++ [payload]). split; [|done]. unfold handed. simpl.
    apply ParseMessage_inl in Em. congruence.
  - apply holds_ret. intros w Hw. split; [done|]. exists (read ++ [payload]). split; [|done].
    intros _. apply mapM_snoc; [by apply Hh|by eapply ParseMessage_inr].
Qed.

Lemma read_all_spec n read messages r requests :
  handed read messages r → cr_finished r = false →
  spec (sending read requests) (read_all n r)
    (λ x w, cr_finished x.2 = false ∧ ∃ read', handed read' (messages ++ x.1) x.2 ∧
            sending read' requests w).
Proof.
  revert read messages r. induction n as [|n IH]; intros read messages r Hh Hf; simpl.
  - apply holds_ret. intros w Hw. split; [done|]. exists read. by rewrite app_nil_r.
  - eapply holds_bind; [by apply ClientReader_Read_spec|]. intros [m r1]. apply holds_pure. simpl. intros Hf1.
    intros slots w Ha (read1 & Hh1 & Hw1).
    pose proof (IH read1 (messages ++ option_list m) r1 Hh1 Hf1 slots w Ha Hw1) as H.
    unfold mbind, cthread_bind. destruct (read_all n r1 slots w) as [[ms r2] rest w'|w'|]; [|done|done].
    simpl in *. destruct H as [Ha' (Hf2 & read2 & Hh2 & Hw2)]. split; [done|]. split; [done|].
    exists read2. by rewrite app_assoc.
Qed.

(** A reader's [Finish]: OK is for a call that was read and parsed to its end. *)
Lemma ClientReader_Finish_spec read messages r requests :
  handed read messages r → cr_finished r = false →
  spec (sending read requests) (ClientReader_Finish r)
    (λ x w, grpc_Status_ok x.1 = true →
       mapM ParseFromArray read = Some messages ∧ outcome read requests x.1 w).
Proof.
  intros Hh Hf. unfold ClientReader_Finish. rewrite Hf.
  eapply (holds_bind _ _ _ _ _ (λ _, sending read requests)).
  { destruct (negb _); [apply CallCancel_sending|by apply holds_ret]. }
  intros []. eapply holds_bind; [apply Finish_sending|]. intros status. apply holds_ret. intros w Hw. simpl.
  destruct (grpc_Status_ok (cr_parse_status r)) eqn:Ep; simpl; [|congruence]. intros Ho. split; [auto|done].
Qed.

Lemma client_start_failed s c h context status :
  cc_target c = false → grpc_Status_ok status = false →
  spec (λ w, w = client_start s c h) (allocate (BlockingCallState_Failed context status))
    (λ _, sending [] []).
Proof. intros Hc Hs slots w Ha ->. split; [done|]. by apply uses_sending, failed_uses. Qed.

Lemma open_sending channel context timeout s c h :
  cc_target c = false → heap_ok h →
  spec (λ w, w = client_start s c h) (OpenRawStream channel context timeout) (λ _, sending [] []).
Proof.
  intros Hc Hh. eapply holds_weaken; [by apply (OpenRawStream_spec U channel context timeout s c h)|done|].
  intros []. apply uses_sending.
Qed.

Lemma BlockingServerStreamingCall_spec channel context timeout (request : Req) s c h :
  cc_target c = false → heap_ok h →
  spec (λ w, w = client_start s c h) (BlockingServerStreamingCall channel context timeout request)
    (λ r w, r = ClientReader_init ∧ sending [] (option_list (SerializeToString request)) w).
Proof.
  intros Hc Hh. unfold BlockingServerStreamingCall.
  eapply (holds_bind _ _ _ _ _ (λ _, sending [] (option_list (SerializeToString request))));
    [|intros []; by apply holds_ret].
  assert (Hf : ∀ status, grpc_Status_ok status = false →
    spec (λ w, w = client_start s c h) (allocate (BlockingCallState_Failed context status))
      (λ _, sending [] (option_list (SerializeToString request)))).
  { intros status Hs. eapply holds_weaken; [by apply (client_start_failed s c h)|done|].
    intros [] w (sent & Hs' & Hw). apply sublist_nil_r in Hs' as ->. exists []. split; [|done].
    apply sublist_nil_l. }
  destruct channel as [channel|], context; try by apply Hf.
  destruct (SerializeToString request) as [payload|] eqn:Es; [|by apply Hf].
  eapply holds_bind; [by apply open_sending|]. intros [].
  eapply holds_bind; [apply SendAndClose_sending|]. intros status. by apply holds_ret.
Qed.
End Streams.

(** ** Properties *)

Section Properties.
Context {GZ : GzipSize} {Req Resp : Type} {MReq : Message Req} {MResp : Message Resp}.

(** C2. A unary call is answered by exactly one response: whatever the channel does and
    whoever cancels, [BlockingUnaryCall] never works on a destroyed metadata object;
    when it returns OK it has stored the message parsed from the only response that came
    over the connection, and the request was given to the transport at most once;
    when it returns a failure it has stored nothing. *)
Theorem unary_call_exactly_one channel context response timeout (request : Req) s c h slots :
  cc_target c = false → heap_ok h → allowed private slots →
  match BlockingUnaryCall (Resp := Resp) channel context response timeout request slots (client_start s c h) with
  | CReturned (status, Some message) _ w =>
      grpc_Status_ok status = true ∧
      ∃ t payload request_bytes, bw_transport w = Some t ∧ ct_wire t = [payload] ∧
        ParseFromArray payload = Some message ∧ SerializeToString request = Some request_bytes ∧
        ct_sent t `sublist_of` [request_bytes]
  | CReturned (status, None) _ w => grpc_Status_ok status = false
  | CWaiting _ => True
  | CUndefined => False
  end.
Proof.
  intros Hc Hh Ha. unfold BlockingUnaryCall. destruct channel as [channel|], context, response; try done.
  destruct (SerializeToString request) as [request_bytes|] eqn:Es; [|done].
  pose proof (CallUnary_spec False channel true true timeout request_bytes s c h Hc Hh slots _ Ha eq_refl) as H.
  unfold mbind, cthread_bind.
  destruct (CallUnary _ _ _ _ _ _ _) as [[status [payload|]] rest w|w|]; [|destruct H as [_ H]; simpl; by rewrite H|done|done].
  destruct H as [_ [-> Ho]]. simpl. destruct (zlen payload >? int32_max); [done|].
  destruct (ParseFromArray payload) as [message|] eqn:Ep; [|done]. split; [done|].
  destruct (Ho eq_refl) as (t & E1 & E2 & E3). by exists t, payload, request_bytes.
Qed.

(** A client streaming call: open, write, finish. *)
Definition client_streaming (channel : option GrpcChannel) (context response timeout : bool)
    (messages : list Req) : CThread (grpc_Status * option Resp) :=
  r ← BlockingClientStreamingCall channel context response timeout;
  r ← write_all messages r;
  x ← ClientWriter_Finish r;
  mret x.1.

(** A client streaming call is answered by exactly one response: when [Finish]
    returns OK it has stored the message parsed from the only response that came
    over the connection, and what the transport was given are requests that were
    written, each at most once and in order. *)
Lemma client_streaming_exactly_one channel context response timeout (messages : list Req) s c h slots :
  cc_target c = false → heap_ok h → allowed private slots →
  match client_streaming channel context response timeout messages slots (client_start s c h) with
  | CReturned (status, stored) _ w =>
      grpc_Status_ok status = true →
      ∃ t payload message, bw_transport w = Some t ∧ ct_wire t = [payload] ∧
        ParseFromArray payload = Some message ∧ stored = Some message ∧
        ct_sent t `sublist_of` omap SerializeToString messages
  | CWaiting _ => True
  | CUndefined => False
  end.
Proof.
  intros Hc Hh Ha.
  assert (H : holds private False (λ w, w = client_start s c h)
    (client_streaming channel context response timeout messages)
    (λ x w, grpc_Status_ok x.1 = true → ∃ payload message, x.2 = Some message ∧
       ParseFromArray payload = Some message ∧ outcome [payload] (omap SerializeToString messages) x.1 w)).
  { unfold client_streaming, BlockingClientStreamingCall.
    eapply (holds_bind _ _ _ _ _ (λ r w, r = ClientWriter_init ∧ sending [] [] w)).
    { eapply (holds_bind _ _ _ _ _ (λ _, sending [] [])); [|intros []; by apply holds_ret].
      destruct channel as [channel|], context, response;
        (by apply open_sending) || (by apply client_start_failed). }
    intros r. apply holds_pure. intros ->. eapply holds_bind; [apply write_all_spec|]. intros r.
    apply holds_pure. intros [= Ep Ef]. eapply holds_bind; [by apply ClientWriter_Finish_spec|].
    intros x. by apply holds_ret. }
  specialize (H slots _ Ha eq_refl).
  destruct (client_streaming _ _ _ _ _ _ _) as [[status stored] rest w|w|]; [|done|done].
  destruct H as [_ H]. intros Ho. destruct (H Ho) as (payload & message & E1 & E2 & E3).
  destruct (E3 Ho) as (t & F1 & F2 & F3). by exists t, payload, message.
Qed.

(** A server streaming call: open, [n] reads, finish. *)
Definition server_streaming (channel : option GrpcChannel) (context timeout : bool) (request : Req)
    (n : nat) : CThread (grpc_Status * list Resp) :=
  r ← BlockingServerStreamingCall channel context timeout request;
  x ← read_all n r;
  f ← ClientReader_Finish x.2;
  mret (f.1, x.1).

(** C21. A server streaming call that finishes OK has been read to its end: however many
    reads the client makes, [Finish] returns OK only when the messages handed out
    are, in order, those parsed from all the responses that came over the
    connection; a client that stops before does not take an incomplete stream for a
    complete one. *)
Theorem server_streaming_complete channel context timeout (request : Req) n s c h slots :
  cc_target c = false → heap_ok h → allowed private slots →
  match server_streaming channel context timeout request n slots (client_start s c h) with
  | CReturned (status, messages) _ w =>
      grpc_Status_ok status = true →
      ∃ t, bw_transport w = Some t ∧ mapM ParseFromArray (ct_wire t) = Some messages ∧
        ct_sent t `sublist_of` option_list (SerializeToString request)
  | CWaiting _ => True
  | CUndefined => False
  end.
Proof.
  intros Hc Hh Ha.
  assert (H : holds private False (λ w, w = client_start s c h)
    (server_streaming channel context timeout request n)
    (λ x w, grpc_Status_ok x.1 = true → ∃ read, mapM ParseFromArray read = Some x.2 ∧
       outcome read (option_list (SerializeToString request)) x.1 w)).
  { unfold server_streaming. eapply holds_bind; [by apply (BlockingServerStreamingCall_spec False _ _ _ _ s c h)|].
    intros r. apply holds_pure. intros ->.
    eapply holds_bind; [by apply (read_all_spec False n [] [])|]. intros [messages r]. apply holds_pure.
    intros Hf slots' w Ha' (read & Hd & Hw).
    pose proof (ClientReader_Finish_spec False read messages r _ Hd Hf slots' w Ha' Hw) as H.
    unfold mbind, cthread_bind. simpl.
    destruct (ClientReader_Finish r slots' w) as [x rest w'|w'|]; [|done|done].
    destruct H as [Hr H]. split; [done|]. intros Ho. exists read. by apply H. }
  specialize (H slots _ Ha eq_refl).
  destruct (server_streaming _ _ _ _ _ _ _) as [[status messages] rest w|w|]; [|done|done].
  destruct H as [_ H]. intros Ho. destruct (H Ho) as (read & E1 & E2).
  destruct (E2 Ho) as (t & F1 & <- & F3). by exists t.
Qed.
End Properties.

(** ** Examples *)

(** Messages that are their own bytes *)
Definition text : Message string := {|
  SerializeToString := Some;
  ParseFromArray s := if decide (s = "bad"%string) then None else Some s |}.

Definition plain_channel : GrpcChannel := mkGrpcChannel grpc_Status_default Identity.
Definition wake : BlockingLabel := BLoop (CWake (mkWake true false true true)).
Definition step_of (ls : list BlockingLabel) : CSlot := mkCSlot ls true None.
Definition fresh_call : BlockingWorld :=
  client_start (BlockingCallState_init true Identity) ClientContext_init (mkHeap ∅ 0 []).

Lemma fresh_heap_ok : heap_ok (mkHeap ∅ 0 []).
Proof. intros n Hn. set_solver. Qed.

(** A slot before each section: the request goes out, one response and the end of
    the stream come in. *)
Definition example_slots (opening : nat) : list CSlot :=
  replicate opening (step_of []) ++ replicate 5 (step_of [wake]) ++
  [step_of [BLoop (CMessage "hi" Identity)]; step_of []; step_of [wake; BLoop (CClose Status_default [] false)]] ++
  replicate 9 (step_of []).

Definition example_unary : COutcome (grpc_Status * option string) :=
  BlockingUnaryCall (GZ := stored_gzip) (MReq := text) (MResp := text) (Some plain_channel) true true true "you"
    (example_slots 5) fresh_call.

Definition example_client_streaming : COutcome (grpc_Status * option string) :=
  client_streaming (GZ := stored_gzip) (MReq := text) (MResp := text) (Some plain_channel) true true true
    ["a"; "b"] (example_slots 15) fresh_call.

Definition example_server_streaming (n : nat) : COutcome (grpc_Status * list string) :=
  server_streaming (GZ := stored_gzip) (MReq := text) (MResp := text) (Some plain_channel) true true "you" n
    (example_slots 5) fresh_call.

(** What a call returned and what went over the connection *)
Definition summary {A} (o : COutcome A) : option (A * list string * list string) :=
  match o with
  | CReturned a _ w => t ← bw_transport w; Some (a, ct_wire t, ct_sent t)
  | _ => None
  end.

Lemma example_slots_allowed n : allowed private (example_slots n).
Proof.
  unfold allowed, example_slots. rewrite !Forall_app. split_and!; try (apply Forall_replicate); repeat constructor.
Qed.

Lemma unary_call_exactly_one_witness :
  summary example_unary = Some ((grpc_Status_default, Some "hi"), ["hi"], ["you"]) ∧
  match example_unary with
  | CReturned (_, Some message) _ w => ∃ t payload request_bytes,
      bw_transport w = Some t ∧ ct_wire t = [payload] ∧ ParseFromArray (Message := text) payload = Some message ∧
      SerializeToString (Message := text) "you" = Some request_bytes ∧ ct_sent t `sublist_of` [request_bytes]
  | _ => False
  end.
Proof.
  split; [vm_compute; reflexivity|].
  pose proof (unary_call_exactly_one (GZ := stored_gzip) (MReq := text) (MResp := text) (Some plain_channel)
    true true true "you" (BlockingCallState_init true Identity) ClientContext_init (mkHeap ∅ 0 [])
    (example_slots 5) eq_refl fresh_heap_ok (example_slots_allowed 5)) as H.
  assert (E : summary example_unary = Some ((grpc_Status_default, Some "hi"), ["hi"], ["you"]))
    by (vm_compute; reflexivity).
  change (BlockingUnaryCall _ _ _ _ _ _ _) with example_unary in H.
  destruct example_unary as [[status [m|]] rest w|w|]; try discriminate E.
  - apply H.
  - simpl in E. by destruct (bw_transport w).
Defined.

Lemma client_streaming_exactly_one_witness :
  match example_client_streaming with
  | CReturned (_, stored) _ w => ∃ t payload message,
      bw_transport w = Some t ∧ ct_wire t = [payload] ∧ ParseFromArray (Message := text) payload = Some message ∧
      stored = Some message ∧ ct_sent t `sublist_of` ["a"; "b"]
  | _ => False
  end.
Proof.
  pose proof (client_streaming_exactly_one (GZ := stored_gzip) (MReq := text) (MResp := text)
    (Some plain_channel) true true true ["a"; "b"] (BlockingCallState_init true Identity) ClientContext_init
    (mkHeap ∅ 0 []) (example_slots 15) eq_refl fresh_heap_ok (example_slots_allowed 15)) as H.
  assert (E : summary example_client_streaming =
    Some ((grpc_Status_default, Some "hi"), ["hi"], ["a"; "b"])) by (vm_compute; reflexivity).
  change (client_streaming _ _ _ _ _ _ _) with example_client_streaming in H.
  destruct example_client_streaming as [[status stored] rest w|w|]; try discriminate E.
  apply H. simpl in E. destruct (bw_transport w); [|done]. by injection E as -> _ _ _.
Defined.

(** One read takes the only response; a second one finds the end. *)
Lemma server_streaming_complete_witness :
  match example_server_streaming 2 with
  | CReturned (_, messages) _ w => ∃ t, bw_transport w = Some t ∧
      mapM (ParseFromArray (Message := text)) (ct_wire t) = Some messages ∧ ct_sent t `sublist_of` ["you"]
  | _ => False
  end.
Proof.
  pose proof (server_streaming_complete (GZ := stored_gzip) (MReq := text) (MResp := text)
    (Some plain_channel) true true "you" 2 (BlockingCallState_init true Identity) ClientContext_init
    (mkHeap ∅ 0 []) (example_slots 5) eq_refl fresh_heap_ok (example_slots_allowed 5)) as H.
  assert (E : summary (example_server_streaming 2) =
    Some ((grpc_Status_default, ["hi"]), ["hi"], ["you"])) by (vm_compute; reflexivity).
  change (server_streaming _ _ _ _ _ _ _) with (example_server_streaming 2) in H.
  destruct (example_server_streaming 2) as [[status messages] rest w|w|]; try discriminate E.
  apply H. simpl in E. destruct (bw_transport w); [|done]. by injection E as -> _ _ _.
Defined.
