(* ===== verification/EarlyClose.v ===== *)
(** * Peers that close early

    A peer may answer and close its stream while the client is still writing.  The
    channel keeps the outcome back until the response has been read, and a command
    that finds the stream closed waits for the outcome: what that means for
    [BlockingCallState::Send] and [CloseSend], and for the [Finish] of the client
    streams, which closes the sending side before it reads or cancels. *)

From S2P Require Import Prelude Status Metadata ServerTransport ClientTransport BlockingCall ClientLoop CallInvariant CallLogic CallSafety ClientCalls.

Local Open Scope Z_scope.

Section EarlyClose.
Context {GZ : GzipSize}.

(** ** A response that nobody reads

    The peer has closed the stream while a response waits to be read; the deadline,
    if there was one, went with the stream. *)

Definition unread_after_close (w : BlockingWorld) : Prop :=
  bs_terminal (bw_state w) = false ∧ bs_stream (bw_state w) = true ∧
  is_Some (bs_message (bw_state w)) ∧
  ∃ t, bw_transport w = Some t ∧ bs_compression (bw_state w) = ct_request_compression t ∧
    ct_loop t = true ∧ ct_app t = true ∧ ct_submitted t = true ∧ ct_transport_closed t = true ∧
    ct_send_open t = false ∧ ct_receive_paused t = true ∧ ct_resume_requested t = false ∧
    ct_cancel_requested t = false ∧ ct_terminal t = false ∧ ct_deadline t = false.

(** Everything but a reader, a cancellation and the end of the channel *)
Definition bystander (l : BlockingLabel) : Prop :=
  match l with
  | BLoop (CStop _) => False
  | BLoop _ | BSendCheck _ | BSendCommit _ _ | BCloseSend => True
  | _ => False
  end.

Definition bystanders (slots : list CSlot) : Prop := Forall (λ slot, Forall bystander (cs_labels slot)) slots.

Lemma closed_loop_step e t o w' :
  ct_submitted t = true → ct_transport_closed t = true → ct_resume_requested t = false →
  ct_app t = true → ct_cancel_requested t = false → ct_deadline t = false →
  (∀ r, e ≠ CStop r) → loop_step call_callbacks e (t, o) = Some w' → w' = (t, o).
Proof.
  intros H1 H2 H3 H4 H5 H6 He. unfold loop_step, on_connection. cbn [fst snd].
  rewrite H1, H2, H6. destruct (ct_loop t); [|done].
  destruct e; simpl; rewrite ?orb_true_r; try done; [|by destruct (He reason)].
  unfold processStreamWake. simpl. rewrite H1. unfold processClientStreamCommands. simpl.
  rewrite H2, H3, H4, H5, H6. simpl. intros [= <-]. f_equal. destruct t; simpl in *. by subst.
Qed.

Lemma closed_on_stream {A} (f : ClientTransport → A * ClientTransport) w t :
  bw_transport w = Some t → (f t).2 = t → (on_stream f w).2 = w.
Proof.
  intros Et Hf. unfold on_stream. rewrite Et. destruct (bs_stream _); [|done].
  destruct (f t) as [a t']. simpl in *. subst t'. destruct w; simpl in *. by subst.
Qed.

Lemma unread_step w l w' :
  unread_after_close w → bystander l → blocking_step w l = Some w' → w' = w.
Proof.
  intros (Hb & Hs & Hm & t & Et & Hq & H1 & H2 & H3 & H4 & H5 & H6 & H7 & H8 & H9 & H10) Hl.
  destruct l; try done; cbn [blocking_step].
  - unfold loop_world. rewrite Et. destruct (loop_step _ _ _) as [[t' [s c]]|] eqn:E; [|done].
    apply closed_loop_step in E; try done; [|by intros r ->].
    intros [= <-]. injection E as -> -> ->. destruct w; simpl in *. by subst.
  - intros E. apply (inj Some) in E as <-. rewrite Send_check_on_stream.
    apply (closed_on_stream _ _ t); [done|]. unfold clientStreamSend_check. rewrite H5.
    by repeat case_match.
  - intros E. apply (inj Some) in E as <-. rewrite Send_commit_on_stream.
    apply (closed_on_stream _ _ t); [done|]. unfold clientStreamSend_commit. rewrite H5.
    by repeat case_match.
  - intros E. apply (inj Some) in E as <-. rewrite CloseSend_on_stream.
    apply (closed_on_stream _ _ t); [done|]. unfold clientStreamCloseSend. rewrite H5.
    by repeat case_match.
Qed.

Lemma unread_run w ls w' :
  unread_after_close w → Forall bystander ls → run blocking_step w ls = Some w' → w' = w.
Proof.
  intros Hu Hl. eapply (run_invariant_on blocking_step bystander (λ v, v = w)); [|done|done].
  intros v l v' Hb -> E. by eapply unread_step.
Qed.

(** A section in such a world, and a wait for what it does not have *)
Lemma unread_section {A} (f : BlockingWorld → A * BlockingWorld) slots w :
  unread_after_close w → bystanders slots →
  section f slots w = CWaiting w ∨
  ∃ rest, bystanders rest ∧ section f slots w = CReturned (f w).1 rest (f w).2.
Proof.
  intros Hu [|slot rest Hl Hr]; [by left|]. unfold section. simpl.
  destruct (run _ _ _) as [w1|] eqn:E; [|by left]. apply unread_run in E as ->; [|done|done].
  right. exists rest. by destruct (f w).
Qed.

Lemma unread_wait {A} (f : CSlot → BlockingWorld → option (A * BlockingWorld)) slots w :
  unread_after_close w → bystanders slots → (∀ slot, f slot w = None) →
  wait_until f slots w = CWaiting w.
Proof.
  intros Hu Hb Hf. induction Hb as [|slot rest Hl Hr IH]; [done|]. simpl.
  destruct (run _ _ _) as [w1|] eqn:E; [|done]. apply unread_run in E as ->; [|done|done].
  by rewrite Hf.
Qed.

Lemma unread_Send_check w t payload :
  unread_after_close w → bw_transport w = Some t →
  zlen payload <= sl_max_message_size (ct_limits t) →
  Send_check payload w = (Some (stream_result (Some CE_SendClosed)), w).
Proof.
  intros (Hb & Hs & Hm & t' & Et' & Hq & H1 & H2 & H3 & H4 & H5 & H6 & H7 & H8 & H9 & H10) Et Hp.
  rewrite Et in Et'. injection Et' as <-. unfold Send_check, on_stream. rewrite Hs, Et.
  unfold clientStreamSend_check, stream_closed. rewrite H1, H2, H5, H8, H9, Hq. simpl.
  rewrite (bool_decide_eq_true_2 (ct_request_compression t = ct_request_compression t)), andb_false_r by done.
  destruct (Z.gtb_spec (zlen payload) (sl_max_message_size (ct_limits t))); [lia|].
  destruct w; simpl in *; by subst.
Qed.

(** A command that finds the sending side closed *)
Definition finds_closed (command : CThread Error) (w : BlockingWorld) : Prop :=
  ∀ slots, bystanders slots →
    command slots w = CWaiting w ∨
    ∃ rest, bystanders rest ∧ command slots w = CReturned (stream_result (Some CE_SendClosed)) rest w.

Lemma unread_send_command w t payload :
  unread_after_close w → bw_transport w = Some t →
  zlen payload <= sl_max_message_size (ct_limits t) → finds_closed (send_command payload) w.
Proof.
  intros Hu Et Hp slots Hb. pose proof (unread_Send_check _ _ _ Hu Et Hp) as Hc. unfold send_command.
  destruct (unread_section (Send_check payload) slots w Hu Hb) as [E|(rest & Hr & E)];
    [left; by apply cbind_waiting|right]. exists rest. split; [done|]. rewrite Hc in E.
  by rewrite (cbind_returned _ _ _ _ _ _ _ E).
Qed.

Lemma unread_close_command w : unread_after_close w → finds_closed close_command w.
Proof.
  intros Hu slots Hb. unfold close_command.
  assert (Hc : CloseSend_section w = (Some (stream_result (Some CE_SendClosed)), w)).
  { destruct Hu as (_ & Hs & _ & t & Et & _ & H1 & H2 & _ & _ & H5 & _ & _ & H8 & H9 & _).
    unfold CloseSend_section, on_stream. rewrite Hs, Et. unfold clientStreamCloseSend, stream_closed.
    rewrite H1, H2, H5, H8, H9. simpl. destruct w; simpl in *. by subst. }
  destruct (unread_section CloseSend_section slots w Hu Hb) as [E|(rest & Hr & E)];
    [left; by apply cbind_waiting|right]. exists rest. split; [done|]. rewrite Hc in E.
  by rewrite (cbind_returned _ _ _ _ _ _ _ E).
Qed.

Lemma unread_RunCommand w command slots :
  unread_after_close w → finds_closed command w → bystanders slots →
  RunCommand command slots w = CWaiting w.
Proof.
  intros Hu Hc Hb. assert (Ht : bs_terminal (bw_state w) = false) by apply Hu.
  unfold RunCommand. cbn [RunCommand_loop].
  destruct (unread_section (λ w0, (if bs_terminal (bw_state w0) then inl (bs_status (bw_state w0))
      else inr (bs_writable_generation (bw_state w0)), w0)) slots w Hu Hb) as [E|(rest & Hr & E)];
    [by apply cbind_waiting|].
  rewrite (cbind_returned _ _ _ _ _ _ _ E). simpl. rewrite Ht.
  destruct (Hc rest Hr) as [E'|(rest' & Hr' & E')]; [by apply cbind_waiting|].
  rewrite (cbind_returned _ _ _ _ _ _ _ E'). simpl. apply unread_wait; [done|done|].
  intros slot. by rewrite Ht.
Qed.

(** ** Properties *)

(** C37. A writer can wait for a reader for ever: when the peer has closed the stream
    while a response waits to be read, [Send] does not return whatever the loop and
    other writers do, as often as they like, the passing of the deadline included, as
    long as nobody reads or cancels, a failing writer among them, and the channel is not
    stopped; its outcome is there as soon as a reader has taken the last response. *)
Theorem write_waits_for_reader w t payload slots :
  unread_after_close w → bw_transport w = Some t →
  zlen payload <= sl_max_message_size (ct_limits t) → bystanders slots →
  Send payload slots w = CWaiting w ∧
  (ct_inbound t = [] →
   ∃ w', run blocking_step w [BReadTake; BReadResume; BLoop (CWake (mkWake true false true true))] = Some w' ∧
     bs_terminal (bw_state w') = true).
Proof.
  intros Hu Et Hp Hb. split.
  { apply unread_RunCommand; [done| |done]. by eapply unread_send_command. }
  intros Hi.
  destruct Hu as (Ht & Hs & [m Hm] & t' & Et' & Hq & H1 & H2 & H3 & H4 & H5 & H6 & H7 & H8 & H9 & H10).
  rewrite Et in Et'. injection Et' as <-. cbn [run blocking_step].
  unfold Read_take. rewrite Hm. simpl. unfold Read_resume, on_stream. simpl. rewrite Hs, Et. simpl.
  unfold clientStreamResumeReceive, stream_closed. rewrite H1, H2, H8, H9. simpl.
  unfold loop_world, loop_step. simpl. rewrite H1. simpl. unfold processStreamWake. simpl. rewrite H3.
  unfold processClientStreamCommands. simpl. rewrite H4, H8, H2. simpl.
  unfold deliverInboundMessages. simpl. rewrite Hi. simpl. rewrite H4, Hi. simpl.
  unfold finalizeClientStream, terminalizeStream. simpl.
  rewrite H9, H2. simpl. eexists. split; [done|]. apply SetTerminal_terminal.
Qed.

(** C38. The [Finish] of a client stream can wait for ever: when the peer has answered a
    client streaming or bidirectional call and closed the stream before the client
    was done writing, [Finish] first closes the sending side and waits there for an
    outcome that the channel keeps back until the response is read, which only the
    rest of [Finish] would do; the passing of the deadline does not end it, as long as
    no other thread reads or cancels and the channel is not stopped. *)
Theorem finish_blocks_on_early_response {Resp} {MResp : Message Resp} w slots
    (r : ClientWriter) (rw : ClientReaderWriter) :
  unread_after_close w → bystanders slots →
  (cw_finished r = false → cw_writes_done r = false → grpc_Status_ok (cw_write_status r) = true →
   ClientWriter_Finish (Resp := Resp) r slots w = CWaiting w) ∧
  (crw_finished rw = false → crw_writes_done rw = false → grpc_Status_ok (crw_write_status rw) = true →
   ClientReaderWriter_Finish rw slots w = CWaiting w).
Proof.
  intros Hu Hb.
  assert (Hc : CloseSend slots w = CWaiting w) by by apply unread_RunCommand, Hb; [|apply unread_close_command].
  split; intros H1 H2 H3.
  - unfold ClientWriter_Finish, ClientWriter_WritesDone. rewrite H1, H2. simpl. rewrite H3.
    do 3 apply cbind_waiting. done.
  - unfold ClientReaderWriter_Finish, ClientReaderWriter_WritesDone. rewrite H1, H2. simpl. rewrite H3.
    do 3 apply cbind_waiting. done.
Qed.
End EarlyClose.

(** ** Examples *)

(** The peer sends a response and closes the stream before the writer is done. *)
Definition example_unread : BlockingWorld :=
  default example_world (run (blocking_step (GZ := stored_gzip)) example_world
    [BLoop (CWake up); BLoop (CMessage "early" Identity); BLoop (CClose Status_default [] false)]).

Lemma example_unread_ok : unread_after_close example_unread.
Proof.
  split; [vm_compute; reflexivity|]. split; [vm_compute; reflexivity|].
  split; [vm_compute; eexists; reflexivity|]. eexists. split; [vm_compute; reflexivity|].
  split_and!; vm_compute; reflexivity.
Qed.

Theorem write_waits_for_reader_witness :
  run (blocking_step (GZ := stored_gzip)) example_world
    [BLoop (CWake up); BLoop (CMessage "early" Identity); BLoop (CClose Status_default [] false)] =
    Some example_unread ∧
  Send (GZ := stored_gzip) "more" (replicate 9 (mkCSlot [BLoop (CWake up)] true None)) example_unread =
    CWaiting example_unread.
Proof.
  split; [vm_compute; reflexivity|].
  destruct (bw_transport example_unread) as [t|] eqn:Et; [|vm_compute in Et; discriminate Et].
  apply (write_waits_for_reader (GZ := stored_gzip) example_unread t "more").
  - exact example_unread_ok.
  - exact Et.
  - vm_compute in Et. injection Et as <-. vm_compute. discriminate.
  - repeat constructor.
Defined.

(** Nobody but the loop and its timer is there. *)
Lemma finish_blocks_on_early_response_witness :
  run (blocking_step (GZ := stored_gzip)) example_world
    [BLoop (CWake up); BLoop (CMessage "early" Identity); BLoop (CClose Status_default [] false)] =
    Some example_unread ∧
  ClientWriter_Finish (GZ := stored_gzip) (Resp := string) (MResp := text) ClientWriter_init
    (replicate 9 (mkCSlot [BLoop (CWake up)] true None)) example_unread = CWaiting example_unread.
Proof.
  split; [vm_compute; reflexivity|].
  apply (finish_blocks_on_early_response (GZ := stored_gzip) (MResp := text) example_unread
    (replicate 9 (mkCSlot [BLoop (CWake up)] true None)) ClientWriter_init ClientReaderWriter_init).
  - exact example_unread_ok.
  - repeat constructor.
  - reflexivity.
  - reflexivity.
  - reflexivity.
Defined.
