(* ===== verification/Doubles.v ===== *)
(** * Doubles

    IEEE 754 binary64 numbers as the Standard Library specifies them
    ([SpecFloat]), with the conversion of a [double] to an unsigned integer and a
    lemma that multiplication, rounded, keeps integer bounds. *)

From Stdlib Require Export SpecFloat.
From S2P Require Import Prelude.

Local Open Scope Z_scope.

Abbreviation prec := 53.
Abbreviation emax := 1024.

(** A [double] is in the canonical form that [SpecFloat] asks of its operands. *)
Record double := mkDouble {
  double_value :> spec_float;
  double_valid : valid_binary prec emax double_value = true;
}.

Definition double_mul : spec_float → spec_float → spec_float := SFmul prec emax.
Definition double_div : spec_float → spec_float → spec_float := SFdiv prec emax.

(** A literal such as [1000.0], an integer of at most 53 bits *)
Definition double_of_Z (n : Z) : spec_float := binary_normalize prec emax n 0 false.

(** [std::isfinite] *)
Definition isfinite (x : spec_float) : bool :=
  match x with S754_zero _ | S754_finite _ _ _ => true | _ => false end.

(** The value without its fraction; [None] when there is no such integer *)
Definition trunc (x : spec_float) : option Z :=
  match x with
  | S754_zero _ => Some 0
  | S754_finite s m e =>
      let z := if 0 <=? e then Z.pos m * 2 ^ e else Z.pos m / 2 ^ (- e) in
      Some (if s then - z else z)
  | _ => None
  end.

(** [static_cast<std::uint32_t>(x)]: undefined ([None]) when the truncated value
    does not fit. *)
Definition uint32_of_double (x : spec_float) : option Z :=
  match trunc x with
  | Some z => if (0 <=? z) && (z <=? u32_max) then Some z else None
  | None => None
  end.

(** ** Shifting and rounding *)

Lemma shr_1_spec mrs :
  0 ≤ shr_m mrs →
  shr_m (shr_1 mrs) = shr_m mrs / 2 ∧
  (shr_m mrs mod 2 = 0 → shr_r mrs = false → shr_s mrs = false →
   shr_r (shr_1 mrs) = false ∧ shr_s (shr_1 mrs) = false).
Proof.
  destruct mrs as [m r s]. simpl. intros Hm.
  destruct m as [|[p|p|]|p]; simpl; try lia; split; intros; simplify_eq; try done.
  - rewrite Pos2Z.inj_xI. Z.to_euclidean_division_equations; lia.
  - exfalso. rewrite Pos2Z.inj_xI in *. Z.to_euclidean_division_equations; lia.
  - rewrite Pos2Z.inj_xO. Z.to_euclidean_division_equations; lia.
Qed.

Lemma iter_pos_nat {A} (f : A → A) n x : SpecFloat.iter_pos f n x = Nat.iter (Pos.to_nat n) f x.
Proof.
  revert x. induction n as [n IH|n IH|]; intros x; cbn [SpecFloat.iter_pos]; rewrite ?IH; [| |done].
  - rewrite Pos2Nat.inj_xI. replace (S (2 * Pos.to_nat n)) with (Pos.to_nat n + (Pos.to_nat n + 1))%nat by lia.
    by rewrite !Nat.iter_add.
  - rewrite Pos2Nat.inj_xO. replace (2 * Pos.to_nat n)%nat with (Pos.to_nat n + Pos.to_nat n)%nat by lia.
    by rewrite Nat.iter_add.
Qed.

Lemma shr_spec m n :
  0 ≤ m → 0 ≤ n →
  let mrs := (shr {| shr_m := m; shr_r := false; shr_s := false |} 0 n).1 in
  shr_m mrs = m / 2 ^ n ∧ (m mod 2 ^ n = 0 → shr_r mrs = false ∧ shr_s mrs = false).
Proof.
  intros Hm Hn. unfold shr. destruct n as [|p|p]; [|cbn [fst]|lia].
  { simpl. by rewrite Z.div_1_r. }
  rewrite iter_pos_nat. rewrite <- (positive_nat_Z p). generalize (Pos.to_nat p) as k. clear p Hn.
  induction k as [|k [IH1 IH2]]; [simpl; by rewrite Z.div_1_r|].
  rewrite Nat2Z.inj_succ, Z.pow_succ_r by lia. rewrite Nat.iter_succ.
  match goal with |- context [shr_1 ?x] => pose proof (shr_1_spec x) as [H1 H2] end.
  { rewrite IH1. apply Z.div_pos; lia. }
  assert (0 < 2 ^ Z.of_nat k) by lia.
  rewrite H1, IH1. split.
  - rewrite Z.div_div by lia. by rewrite Z.mul_comm.
  - intros Hz. rewrite Z.mul_comm, Z.rem_mul_r in Hz by lia.
    pose proof (Z.mod_pos_bound m (2 ^ Z.of_nat k)). pose proof (Z.mod_pos_bound (m / 2 ^ Z.of_nat k) 2).
    assert (m mod 2 ^ Z.of_nat k = 0 ∧ (m / 2 ^ Z.of_nat k) mod 2 = 0) as [Ha Hb] by nia.
    destruct (IH2 Ha). by apply H2; [rewrite IH1| |].
Qed.

Lemma digits2_pos_bounds p : 2 ^ (Z.pos (digits2_pos p) - 1) ≤ Z.pos p < 2 ^ Z.pos (digits2_pos p).
Proof.
  assert (∀ q, 2 ^ Z.pos (Pos.succ q) = 2 * 2 ^ Z.pos q) as Hs.
  { intros q. by rewrite Pos2Z.inj_succ, Z.pow_succ_r by lia. }
  induction p as [p IH|p IH|]; cbn [digits2_pos]; [| |simpl; lia].
  all: rewrite Hs; replace (Z.pos (Pos.succ (digits2_pos p)) - 1) with (Z.succ (Z.pos (digits2_pos p) - 1)) by lia;
    rewrite Z.pow_succ_r by lia; lia.
Qed.

Lemma Zdigits2_bounds m : 0 < m → 0 < Zdigits2 m ∧ 2 ^ (Zdigits2 m - 1) ≤ m < 2 ^ Zdigits2 m.
Proof. destruct m as [|p|p]; intros; simpl; [lia| |lia]. split; [lia|apply digits2_pos_bounds]. Qed.

Lemma shr_shift mrs e n : (shr mrs e n).1 = (shr mrs 0 (Z.max 0 n)).1 ∧ (shr mrs e n).2 = e + Z.max 0 n.
Proof. destruct n as [|p|p]; simpl; rewrite ?Z.add_0_r; done. Qed.

Lemma round_nearest_even_bounds m n :
  0 ≤ m → 0 ≤ n →
  let mrs := (shr {| shr_m := m; shr_r := false; shr_s := false |} 0 n).1 in
  let r := round_nearest_even (shr_m mrs) (loc_of_shr_record mrs) in
  m / 2 ^ n ≤ r ∧ ∀ k, m ≤ k * 2 ^ n → r ≤ k.
Proof.
  intros Hm Hn mrs r. destruct (shr_spec m n Hm Hn) as [H1 H2]. fold mrs in H1, H2.
  assert (0 < 2 ^ n) by lia.
  destruct mrs as [q b s]. simpl in H1, H2. subst q.
  assert (m / 2 ^ n ≤ r ≤ m / 2 ^ n + 1) as Hr.
  { unfold r. destruct b, s; simpl; try destruct (Z.even _); lia. }
  split; [lia|]. intros k Hk.
  destruct (decide (m mod 2 ^ n = 0)) as [Hz|Hz].
  - destruct (H2 Hz) as [-> ->]. unfold r. simpl. Z.to_euclidean_division_equations; nia.
  - assert (m / 2 ^ n < k); [|lia]. pose proof (Z.div_mod m (2 ^ n)). pose proof (Z.mod_pos_bound m (2 ^ n)). nia.
Qed.

(** The exponent after the shift that brings a mantissa into format *)
Definition shifted (m e : Z) : Z := Z.max e (fexp prec emax (Zdigits2 m + e)).

Lemma shr_fexp_exact m e :
  shr_fexp prec emax m e loc_Exact =
    ((shr {| shr_m := m; shr_r := false; shr_s := false |} 0 (shifted m e - e)).1, shifted m e).
Proof.
  unfold shr_fexp. simpl shr_record_of_loc.
  destruct (shr_shift {| shr_m := m; shr_r := false; shr_s := false |} e
    (fexp prec emax (Zdigits2 m + e) - e)) as [H1 H2].
  rewrite (surjective_pairing (shr _ e _)), H1, H2.
  replace (Z.max 0 (fexp prec emax (Zdigits2 m + e) - e)) with (shifted m e - e) by (unfold shifted; lia).
  f_equal. lia.
Qed.

Lemma shifted_nonpos m e k : 0 ≤ m → e ≤ 0 → m ≤ k * 2 ^ (- e) → k < 2 ^ prec → shifted m e ≤ 0.
Proof.
  intros Hm He Hk Hk'. unfold shifted, fexp, emin.
  destruct (decide (m = 0)) as [->|]; [simpl; lia|].
  destruct (Zdigits2_bounds m) as (Hd & Hlo & _); [lia|].
  assert (2 ^ (Zdigits2 m - 1) < 2 ^ (prec - e)) as Hlt.
  { replace (prec - e) with (prec + - e) by lia. rewrite Z.pow_add_r by lia. nia. }
  apply Z.pow_lt_mono_r_iff in Hlt; lia.
Qed.

(** Rounding keeps a value between integers that have at most 53 bits. *)
Lemma round_between p e lo hi :
  0 < p → e ≤ 0 → 0 ≤ lo → hi < 2 ^ prec → lo * 2 ^ (- e) ≤ p ≤ hi * 2 ^ (- e) →
  ∃ z, trunc (binary_round_aux prec emax false p e loc_Exact) = Some z ∧ lo ≤ z ≤ hi.
Proof.
  intros Hp He Hlo Hhi [Hl Hh]. unfold binary_round_aux. rewrite shr_fexp_exact.
  assert (shifted p e ≤ 0) as He' by (by eapply shifted_nonpos; [lia| | |]).
  assert (e ≤ shifted p e) as Hee by (unfold shifted; lia).
  destruct (round_nearest_even_bounds p (shifted p e - e)) as [Hr1 Hr2]; [lia..|].
  set (r := round_nearest_even _ _) in *. set (e' := shifted p e) in *.
  assert (2 ^ (- e) = 2 ^ (- e') * 2 ^ (e' - e)) as Hpow by (rewrite <- Z.pow_add_r by lia; f_equal; lia).
  rewrite Hpow, Z.mul_assoc in Hl, Hh. pose proof (Hr2 _ Hh) as Hru.
  assert (lo * 2 ^ (- e') ≤ r) as Hrl.
  { etrans; [|apply Hr1]. apply Z.div_le_lower_bound; lia. }
  assert (0 ≤ r) as Hr0 by nia.
  rewrite shr_fexp_exact. cbn zeta iota.
  assert (shifted r e' ≤ 0) as He'' by (by eapply shifted_nonpos).
  assert (e' ≤ shifted r e') by (unfold shifted; lia).
  destruct (shr_spec r (shifted r e' - e')) as [-> _]; [lia..|]. set (e'' := shifted r e') in *.
  assert (lo ≤ r / 2 ^ (e'' - e') / 2 ^ (- e'') ≤ hi) as Hz.
  { rewrite Z.div_div, <- Z.pow_add_r by lia. replace (e'' - e' + - e'') with (- e') by lia.
    split; [apply Z.div_le_lower_bound; lia|apply Z.div_le_upper_bound; lia]. }
  destruct (r / 2 ^ (e'' - e')) as [|q|q] eqn:Eq; [by exists 0| |].
  2: { exfalso. pose proof (Z.div_pos r (2 ^ (e'' - e'))). lia. }
  rewrite (proj2 (Z.leb_le e'' _)) by lia. simpl. eexists. split; [done|].
  case (Z.leb_spec 0 e''); [|done]. intros. replace e'' with 0 in Hz |- * by lia. simpl in *. by rewrite Z.div_1_r, ?Z.mul_1_r in *.
Qed.
