(* ===== verification/Rounding.v ===== *)
(** * Rounding errors

    What the operations of IEEE 754 numbers, as the Standard Library specifies them
    ([SpecFloat]) for any precision, do to values: results are the exact rational
    results up to half a unit in the last place, and comparisons compare values. *)

From Stdlib Require Export SpecFloat.
From Stdlib Require Import QArith Qabs Qpower Lqa.
From S2P Require Import Prelude Doubles.

Local Open Scope Q_scope.

(** ** Powers of two *)

Abbreviation pow2 e := (Qpower 2 e).

Lemma pow2_pos e : 0 < pow2 e.
Proof. by apply Qpower_0_lt. Qed.

Lemma pow2_add a b : pow2 (a + b) == pow2 a * pow2 b.
Proof. by apply Qpower_plus. Qed.

Lemma pow2_Z n : (0 ≤ n)%Z → pow2 n == inject_Z (2 ^ n).
Proof. intros Hn. by rewrite Zpower_Qpower. Qed.

Lemma pow2_succ n : pow2 (n + 1) == 2 * pow2 n.
Proof. rewrite pow2_add. change (pow2 1) with (2 # 1). lra. Qed.

Lemma pow2_le a b : (a ≤ b)%Z → pow2 a <= pow2 b.
Proof. intros. by apply Qpower_le_compat_l. Qed.

Lemma inject_Z_le a b : (a ≤ b)%Z → inject_Z a <= inject_Z b.
Proof. by rewrite Zle_Qle. Qed.

Lemma inject_Z_lt a b : (a < b)%Z → inject_Z a < inject_Z b.
Proof. by rewrite Zlt_Qlt. Qed.

(** ** Where a value lies between two integers *)

(** [y] is [m], or behind it where [l] says. *)
Definition position (m : Z) (l : location) (y : Q) : Prop :=
  match l with
  | loc_Exact => y == inject_Z m
  | loc_Inexact Lt => inject_Z m < y /\ y < inject_Z m + (1 # 2)
  | loc_Inexact Eq => y == inject_Z m + (1 # 2)
  | loc_Inexact Gt => inject_Z m + (1 # 2) < y /\ y < inject_Z m + 1
  end.

Lemma position_bounds m l y : position m l y → inject_Z m <= y /\ y < inject_Z m + 1.
Proof. destruct l as [|[]]; simpl; lra. Qed.

#[export] Instance position_proper m l : Proper (Qeq ==> iff) (position m l).
Proof. intros y y' Hy. destruct l as [|[]]; simpl; rewrite Hy; done. Qed.

Definition record_position (mrs : shr_record) (y : Q) : Prop := position (shr_m mrs) (loc_of_shr_record mrs) y.

Lemma record_of_loc m l y : position m l y → record_position (shr_record_of_loc m l) y.
Proof. by destruct l as [|[]]. Qed.

Lemma record_of_loc_m m l : shr_m (shr_record_of_loc m l) = m.
Proof. by destruct l as [|[]]. Qed.

Lemma inject_half m : inject_Z m == 2 * inject_Z (m / 2) + inject_Z (m mod 2).
Proof. rewrite (Z_div_mod_eq_full m 2) at 1. rewrite inject_Z_plus, inject_Z_mult. reflexivity. Qed.

Lemma shr_1_position mrs y :
  (0 ≤ shr_m mrs)%Z → record_position mrs y →
  shr_m (shr_1 mrs) = (shr_m mrs / 2)%Z /\ record_position (shr_1 mrs) (y / 2).
Proof.
  intros Hm H. destruct (shr_1_spec mrs Hm) as [E _]. split; [done|].
  unfold record_position in *. destruct mrs as [m r s]. cbn [shr_m] in *. rewrite E.
  pose proof (inject_half m) as Hh. assert (y / 2 == y * (1 # 2)) as -> by reflexivity.
  assert (loc_of_shr_record (shr_1 {| shr_m := m; shr_r := r; shr_s := s |}) =
    match (m mod 2 =? 0)%Z, r || s with
    | true, false => loc_Exact | true, true => loc_Inexact Lt
    | false, false => loc_Inexact Eq | false, true => loc_Inexact Gt end) as ->.
  { rewrite Zmod_odd. by destruct m as [|[p|p|]|p]; [| | | |lia]; destruct r, s. }
  assert (m mod 2 = 0 ∨ m mod 2 = 1)%Z as [Ho|Ho] by (pose proof (Z.mod_pos_bound m 2); lia).
  all: rewrite Ho in Hh |- *; cbn [Z.eqb]; destruct r, s; simpl in *; change (inject_Z 0) with 0 in *; change (inject_Z 1) with 1 in *; lra.
Qed.

Lemma shr_position mrs e n y :
  (0 ≤ shr_m mrs)%Z → record_position mrs y →
  let '(mrs', e') := shr mrs e n in
  e' = (e + Z.max 0 n)%Z /\ (0 ≤ shr_m mrs')%Z /\ shr_m mrs' = (shr_m mrs / 2 ^ Z.max 0 n)%Z /\
  record_position mrs' (y / pow2 (Z.max 0 n)).
Proof.
  intros Hm H. assert (record_position mrs (y / pow2 0)) as H0.
  { unfold record_position. assert (y / pow2 0 == y) as -> by (change (pow2 0) with 1; field). done. }
  destruct n as [|p|p]; cbn [shr].
  1, 3: replace (Z.max 0 _) with 0%Z by lia; rewrite Z.div_1_r; split_and!; [lia|done..].
  assert (Z.max 0 (Z.pos p) = Z.of_nat (Pos.to_nat p)) as -> by lia. rewrite iter_pos_nat.
  assert ((e + Z.pos p)%Z = (e + Z.of_nat (Pos.to_nat p))%Z) as -> by lia. split; [done|].
  generalize (Pos.to_nat p) as k. clear p. induction k as [|k (IH1 & IH2 & IH3)].
  { cbn [Nat.iter nat_rect]. rewrite Z.div_1_r. done. }
  rewrite Nat.iter_succ. destruct (shr_1_position _ _ IH1 IH3) as [E Hp]. rewrite E, IH2.
  rewrite Nat2Z.inj_succ. split_and!.
  - apply Z.div_pos; [|lia]. apply Z.div_pos; [done|lia].
  - rewrite Z.div_div, Z.pow_succ_r by lia. f_equal. lia.
  - unfold record_position in *. assert (y / pow2 (Z.succ (Z.of_nat k)) == y / pow2 (Z.of_nat k) / 2) as ->; [|done].
    rewrite <- Z.add_1_r, pow2_succ. pose proof (pow2_pos (Z.of_nat k)). field. lra.
Qed.

(** ** Rounding to an integer *)

Lemma round_nearest_even_error m l y :
  position m l y → Qabs (inject_Z (round_nearest_even m l) - y) <= 1 # 2.
Proof.
  intros H. apply Qabs_Qle_condition. destruct l as [|[]]; simpl in *; [lra| | |].
  - destruct (Z.even m); rewrite ?inject_Z_plus; change (inject_Z 1) with 1; lra.
  - lra.
  - rewrite inject_Z_plus; change (inject_Z 1) with 1; lra.
Qed.

(** Rounding is between integers what the value is between. *)
Lemma round_nearest_even_le m l y k : position m l y → y <= inject_Z k → (round_nearest_even m l ≤ k)%Z.
Proof.
  intros H Hk. pose proof (position_bounds m l y H). destruct l as [|[]]; simpl in *.
  2: assert (m < k)%Z by (apply Z.lt_nge; intros Hc%inject_Z_le; lra); destruct (Z.even m); lia.
  3: assert (m < k)%Z by (apply Z.lt_nge; intros Hc%inject_Z_le; lra); lia.
  all: apply Z.le_ngt; intros Hc%inject_Z_lt; lra.
Qed.

Lemma round_nearest_even_ge m l y k : position m l y → inject_Z k <= y → (k ≤ round_nearest_even m l)%Z.
Proof.
  intros H Hk. destruct (position_bounds m l y H) as [_ Hlt].
  assert (k ≤ m)%Z; [|destruct l as [|[]]; simpl; try destruct (Z.even m); lia].
  apply Z.le_ngt. intros Hc. assert (m + 1 ≤ k)%Z as Hc' by lia. apply inject_Z_le in Hc'. rewrite inject_Z_plus in Hc'.
  change (inject_Z 1) with 1 in Hc'. lra.
Qed.

(** ** A format *)

Section Format.
Context (prec emax : Z) (Hprec : (1 < prec)%Z) (Hmax : (prec < emax)%Z).

Definition val (x : spec_float) : Q :=
  match x with S754_finite s m e => inject_Z (cond_Zopp s (Z.pos m)) * pow2 e | _ => 0 end.

(** A number of the format *)
Definition number (x : spec_float) : Prop := isfinite x = true ∧ valid_binary prec emax x = true.

Definition signed (s : bool) (x : Q) : Q := if s then - x else x.

#[export] Instance signed_proper s : Proper (Qeq ==> Qeq) (signed s).
Proof. intros x x' Hx. destruct s; simpl; by rewrite Hx. Qed.

Lemma fexp_ge d : (d - prec ≤ fexp prec emax d)%Z ∧ (emin prec emax ≤ fexp prec emax d)%Z.
Proof. unfold fexp. lia. Qed.

Lemma Zdigits2_le m k : (0 ≤ m)%Z → (0 ≤ k)%Z → (Zdigits2 m ≤ k)%Z ↔ (m < 2 ^ k)%Z.
Proof.
  intros Hm Hk. destruct (decide (m = 0)%Z) as [->|]; [simpl; lia|]. destruct (Zdigits2_bounds m) as (H0 & H1 & H2); [lia|]. split.
  - intros. assert (2 ^ Zdigits2 m ≤ 2 ^ k)%Z by (apply Z.pow_le_mono_r; lia). lia.
  - intros. assert (2 ^ (Zdigits2 m - 1) < 2 ^ k)%Z as Hlt by lia. apply Z.pow_lt_mono_r_iff in Hlt; lia.
Qed.

(** A mantissa in format needs no shift, unless it is the next power of two. *)
Lemma shr_fexp_format r e :
  (0 < r ≤ 2 ^ prec)%Z → (emin prec emax ≤ e)%Z → (e = emin prec emax ∨ 2 ^ (prec - 1) ≤ r)%Z →
  ∃ r' e', shr_fexp prec emax r e loc_Exact = ({| shr_m := r'; shr_r := false; shr_s := false |}, e') ∧
    (0 < r')%Z ∧ inject_Z r' * pow2 e' == inject_Z r * pow2 e ∧ fexp prec emax (Zdigits2 r' + e') = e' ∧
    (e' = emin prec emax ∨ 2 ^ (prec - 1) ≤ r')%Z.
Proof.
  intros Hr He Hn. assert (2 ^ prec = 2 * 2 ^ (prec - 1))%Z as Hpow by (rewrite <- Z.pow_succ_r by lia; f_equal; lia).
  unfold shr_fexp. simpl shr_record_of_loc. destruct (decide (r = 2 ^ prec)%Z) as [->|].
  - assert (Zdigits2 (2 ^ prec) = prec + 1)%Z as ->.
    { destruct (Zdigits2_bounds (2 ^ prec)) as (H0 & H1 & H2); [lia|].
      apply Z.pow_le_mono_r_iff in H1; [|lia..]. apply Z.pow_lt_mono_r_iff in H2; lia. }
    replace (fexp prec emax (prec + 1 + e) - e)%Z with 1%Z by (unfold fexp; lia).
    exists (2 ^ (prec - 1))%Z, (e + 1)%Z. assert (0 < 2 ^ (prec - 1))%Z by lia.
    assert (Zdigits2 (2 ^ (prec - 1)) = prec)%Z as Hd.
    { destruct (Zdigits2_bounds (2 ^ (prec - 1))) as (H0 & H1 & H2); [lia|].
      apply Z.pow_le_mono_r_iff in H1; [|lia..]. apply Z.pow_lt_mono_r_iff in H2; lia. }
    split_and!; [|done| |unfold fexp; rewrite Hd; lia|by right].
    + simpl. rewrite Hpow. destruct (2 ^ (prec - 1))%Z; [lia|done|lia].
    + rewrite pow2_succ, Hpow, inject_Z_mult. change (inject_Z 2) with (2 # 1). ring.
  - assert (Zdigits2 r ≤ prec)%Z by (apply Zdigits2_le; lia).
    assert (fexp prec emax (Zdigits2 r + e) = e) as Hf.
    { unfold fexp. destruct Hn as [->|Hn]; [lia|].
      assert (prec ≤ Zdigits2 r)%Z; [|lia]. apply Z.nlt_ge. intros Hlt.
      assert (Zdigits2 r ≤ prec - 1)%Z as Hle%Zdigits2_le by lia; lia. }
    exists r, e. rewrite Hf, Z.sub_diag. split_and!; [done|lia|done|done|done].
Qed.

Lemma shr_fexp_position m e l y :
  (0 ≤ m)%Z → position m l y → (e ≤ fexp prec emax (Zdigits2 m + e))%Z →
  ∃ mrs, let e' := fexp prec emax (Zdigits2 m + e) in
    shr_fexp prec emax m e l = (mrs, e') ∧ record_position mrs (y * pow2 (e - e')) ∧
    (0 ≤ shr_m mrs < 2 ^ prec)%Z ∧ (e' = emin prec emax ∨ 2 ^ (prec - 1) ≤ shr_m mrs)%Z.
Proof.
  intros Hm Hp He. set (e' := fexp prec emax (Zdigits2 m + e)) in *.
  unfold shr_fexp. fold e'. pose proof (shr_position (shr_record_of_loc m l) e (e' - e) y) as Hs.
  rewrite record_of_loc_m in Hs. destruct (shr _ e (e' - e)) as [mrs e1].
  destruct Hs as (-> & Hm1 & Hm2 & Hpos); [done|by apply record_of_loc|]. replace (Z.max 0 (e' - e)) with (e' - e)%Z in * by lia.
  exists mrs. cbn zeta. split_and!; [f_equal; lia| |done| |].
  - unfold record_position in *. assert (y * pow2 (e - e') == y / pow2 (e' - e)) as ->; [|done].
    replace (e - e')%Z with (- (e' - e))%Z by lia. by rewrite Qpower_opp.
  - rewrite Hm2. apply Z.div_lt_upper_bound; [lia|]. rewrite <- Z.pow_add_r by lia.
    apply Zdigits2_le; [done|lia|]. pose proof (fexp_ge (Zdigits2 m + e)). unfold e'. lia.
  - destruct (decide (e' = emin prec emax)) as [|Hne]; [by left|right]. rewrite Hm2.
    assert (e' = Zdigits2 m + e - prec)%Z as He' by (revert Hne; unfold e', fexp; lia).
    assert (0 < m)%Z as Hm0. { destruct m as [|p|p]; [|lia..]. simpl in He'. lia. }
    destruct (Zdigits2_bounds m Hm0) as (H0 & H1 & _). apply Z.div_le_lower_bound; [lia|].
    rewrite <- Z.pow_add_r by lia. replace (e' - e + (prec - 1))%Z with (Zdigits2 m - 1)%Z by lia. done.
Qed.

(** The rounded value is an integer multiple of a power of two, next to the value. *)
Lemma binary_round_aux_spec s m e l y :
  (0 ≤ m)%Z → position m l y → (e ≤ fexp prec emax (Zdigits2 m + e))%Z →
  let e' := fexp prec emax (Zdigits2 m + e) in
  ∃ r, (0 ≤ r)%Z ∧ Qabs (inject_Z r - y * pow2 (e - e')) <= 1 # 2 ∧
    (∀ k, y * pow2 (e - e') <= inject_Z k → (r ≤ k)%Z) ∧ (∀ k, inject_Z k <= y * pow2 (e - e') → (k ≤ r)%Z) ∧
    (inject_Z r * pow2 e' < pow2 emax →
     number (binary_round_aux prec emax s m e l) ∧
     val (binary_round_aux prec emax s m e l) == signed s (inject_Z r * pow2 e')).
Proof.
  intros Hm Hp He e'. destruct (shr_fexp_position m e l y Hm Hp He) as (mrs & E & Hpos & Hb & Hn). fold e' in E, Hpos, Hn.
  unfold record_position in Hpos. set (r := round_nearest_even (shr_m mrs) (loc_of_shr_record mrs)).
  assert (shr_m mrs ≤ r ≤ 2 ^ prec)%Z as Hr.
  { destruct (position_bounds _ _ _ Hpos) as [H1 H2]. split; [by eapply round_nearest_even_ge|].
    eapply round_nearest_even_le; [done|]. apply Qlt_le_weak. eapply Qlt_le_trans; [done|].
    change 1 with (inject_Z 1). rewrite <- inject_Z_plus. apply inject_Z_le. lia. }
  exists r. split_and!; [lia|by apply round_nearest_even_error|by intros; eapply round_nearest_even_le
    |by intros; eapply round_nearest_even_ge|].
  intros Hlt. unfold binary_round_aux. rewrite E. fold r.
  destruct (decide (r = 0)%Z) as [Hz|].
  { rewrite Hz. unfold shr_fexp. pose proof (shr_position {| shr_m := 0; shr_r := false; shr_s := false |} e'
      (fexp prec emax (Zdigits2 0 + e') - e') 0) as Hs. simpl shr_record_of_loc.
    destruct (shr _ e' _) as [mrs'' e'']. destruct Hs as (_ & _ & -> & _); [done..|]. cbn [shr_m]. rewrite Z.div_0_l by lia.
    split; [done|]. destruct s; simpl; change (inject_Z 0) with 0; lra. }
  destruct (shr_fexp_format r e') as (r' & e'' & -> & Hr' & Hv & Hf & Hn'); [lia|apply fexp_ge|destruct Hn; [by left|right; lia]|].
  cbn [shr_m]. destruct r' as [|q|q]; [lia| |lia].
  assert (e'' ≤ emax - prec)%Z as Hle.
  { destruct Hn' as [->|Hn']; [unfold emin; lia|]. rewrite <- Hv in Hlt. apply Z.le_ngt. intros Hgt.
    apply inject_Z_le in Hn'. rewrite <- pow2_Z in Hn' by lia. pose proof (pow2_pos e'').
    assert (pow2 emax <= pow2 (prec - 1 + e'')) as Hp2 by (apply pow2_le; lia). rewrite pow2_add in Hp2. nra. }
  rewrite (proj2 (Z.leb_le _ _) Hle). split.
  - split; [done|]. simpl. unfold bounded, canonical_mantissa. rewrite (proj2 (Z.leb_le _ _) Hle), andb_true_r.
    simpl Zdigits2 in Hf. by rewrite Hf, Z.eqb_refl.
  - simpl. unfold signed. destruct s; simpl; rewrite <- Hv; [|reflexivity]. change (Z.neg q) with (- Z.pos q)%Z.
    rewrite inject_Z_opp. ring.
Qed.

(** ** Errors *)

(** [f] is [x] rounded, for values below [2 ^ k]: near it, and on the same side of
    every number. *)
Record rounds (k : Z) (x : Q) (f : spec_float) : Prop := {
  rd_number : number f;
  rd_error : Qabs (val f - x) <= pow2 (k - prec - 1);
  rd_bound : Qabs (val f) <= pow2 k;
  rd_le a : number a → x <= val a → val f <= val a;
  rd_ge a : number a → val a <= x → val a <= val f }.

#[export] Instance rounds_proper k : Proper (Qeq ==> eq ==> iff) (rounds k).
Proof.
  assert (∀ x x' f, x == x' → rounds k x f → rounds k x' f) as H.
  { intros x x' f Hx [H1 H2 H3 H4 H5]. split; [done|by rewrite <- Hx|done|intros a Ha..]; rewrite <- Hx; auto. }
  intros x x' Hx f ? <-. split; apply H; [done|by symmetry].
Qed.

(** The exponents that values in range have *)
Definition in_range (k : Z) : Prop := (emin prec emax + prec ≤ k < emax)%Z.

Lemma Qabs_signed s x : Qabs (signed s x) == Qabs x.
Proof. destruct s; [apply Qabs_opp|reflexivity]. Qed.

Lemma fexp_bound m e l y k :
  (0 ≤ m)%Z → position m l y → (e ≤ fexp prec emax (Zdigits2 m + e))%Z → y * pow2 e < pow2 k → in_range k →
  (fexp prec emax (Zdigits2 m + e) ≤ k - prec)%Z.
Proof.
  intros Hm Hp He Hy [Hk _]. destruct (position_bounds m l y Hp) as [Hle _].
  destruct (decide (m = 0)%Z) as [->|]; [revert He; unfold fexp; simpl; lia|].
  destruct (Zdigits2_bounds m) as (H0 & H1 & _); [lia|]. apply inject_Z_le in H1. rewrite <- pow2_Z in H1 by lia.
  pose proof (pow2_pos e). assert (pow2 (Zdigits2 m - 1 + e) < pow2 k) as Hlt by (rewrite pow2_add; nra).
  apply Qpower_lt_compat_l_inv in Hlt; [|done]. unfold fexp. lia.
Qed.

Lemma canonical s m e :
  number (S754_finite s m e) →
  fexp prec emax (Zdigits2 (Z.pos m) + e) = e ∧ (e ≤ emax - prec)%Z ∧ (Zdigits2 (Z.pos m) ≤ prec)%Z ∧
  (e = emin prec emax ∨ Zdigits2 (Z.pos m) = prec).
Proof.
  intros [_ Hv]. simpl in Hv. unfold bounded, canonical_mantissa in Hv. apply andb_true_iff in Hv as [Hc He].
  apply Z.eqb_eq in Hc. apply Z.leb_le in He. cbn [Zdigits2]. split_and!; [done|done|..]; revert Hc; unfold fexp; lia.
Qed.

(** A value that is not tiny has a full mantissa. *)
Lemma normal_or_min m e l y :
  (0 ≤ m)%Z → position m l y → (e ≤ fexp prec emax (Zdigits2 m + e))%Z →
  let e' := fexp prec emax (Zdigits2 m + e) in e' = emin prec emax ∨ pow2 (prec - 1) <= y * pow2 (e - e').
Proof.
  intros Hm Hp He e'. destruct (decide (e' = emin prec emax)) as [|Hne]; [by left|right].
  assert (e' = Zdigits2 m + e - prec)%Z as He' by (revert Hne; unfold e', fexp; lia).
  assert (0 < m)%Z as Hm0. { destruct m as [|p|p]; [|lia..]. simpl in He'. lia. }
  destruct (Zdigits2_bounds m Hm0) as (H0 & H1 & _). destruct (position_bounds m l y Hp) as [Hle _].
  apply inject_Z_le in H1. rewrite <- pow2_Z in H1 by lia. rewrite He'.
  assert (pow2 (prec - 1) == pow2 (Zdigits2 m - 1) * pow2 (e - (Zdigits2 m + e - prec))) as ->
    by (rewrite <- pow2_add; by replace (Zdigits2 m - 1 + (e - (Zdigits2 m + e - prec)))%Z with (prec - 1)%Z by lia).
  apply Qmult_le_compat_r; [lra|]. apply Qlt_le_weak, pow2_pos.
Qed.

(** Rounding to multiples of [2 ^ e'] stays on the same side of every number. *)
Lemma same_side sa a ea z r e' :
  number (S754_finite sa a ea) → (emin prec emax ≤ e')%Z → (e' = emin prec emax ∨ pow2 (prec - 1) <= z) → (0 ≤ r)%Z →
  (∀ k, z <= inject_Z k → (r ≤ k)%Z) → (∀ k, inject_Z k <= z → (k ≤ r)%Z) →
  let v := inject_Z (Z.pos a) * pow2 ea in
  (z * pow2 e' <= v → inject_Z r * pow2 e' <= v) ∧ (v <= z * pow2 e' → v <= inject_Z r * pow2 e').
Proof.
  intros Ha He Hz Hr Hup Hlo v. pose proof (pow2_pos e') as Hp. destruct (canonical sa a ea Ha) as (F & _ & D & _).
  destruct (decide (e' ≤ ea)%Z) as [Hle|Hgt].
  - assert (v == inject_Z (Z.pos a * 2 ^ (ea - e')) * pow2 e') as ->.
    { rewrite inject_Z_mult, <- pow2_Z, <- Qmult_assoc, <- pow2_add by lia. by replace (ea - e' + e')%Z with ea by lia. }
    split; intros H; apply Qmult_le_compat_r; try lra; apply inject_Z_le; [apply Hup|apply Hlo]; by apply Qmult_le_r in H.
  - destruct Hz as [->|Hz]; [pose proof (fexp_ge (Zdigits2 (Z.pos a) + ea)); lia|].
    assert (v < pow2 (prec - 1) * pow2 e') as Hv.
    { apply Zdigits2_le in D; [|lia..]. apply inject_Z_lt in D. rewrite <- pow2_Z in D by lia. rewrite <- pow2_add.
      eapply Qlt_le_trans; [apply Qmult_lt_compat_r; [apply pow2_pos|exact D]|]. rewrite <- pow2_add. apply pow2_le. lia. }
    assert (pow2 (prec - 1) * pow2 e' <= z * pow2 e') as Hz' by (apply Qmult_le_compat_r; lra).
    assert (2 ^ (prec - 1) ≤ r)%Z as Hr' by (apply Hlo; rewrite <- pow2_Z by lia; done). apply inject_Z_le in Hr'.
    rewrite <- pow2_Z in Hr' by lia. assert (pow2 (prec - 1) * pow2 e' <= inject_Z r * pow2 e') by (apply Qmult_le_compat_r; lra).
    split; intros; lra.
Qed.

Lemma val_finite s m e : val (S754_finite s m e) == signed s (inject_Z (Z.pos m) * pow2 e).
Proof. destruct s; simpl; [|reflexivity]. change (Z.neg m) with (- Z.pos m)%Z. rewrite inject_Z_opp. ring. Qed.

Lemma finite_pos m e : 0 < inject_Z (Z.pos m) * pow2 e.
Proof. pose proof (pow2_pos e). assert (0 < inject_Z (Z.pos m)) by done. nra. Qed.

Lemma round_side s a r e' z :
  number a → (emin prec emax ≤ e')%Z → (e' = emin prec emax ∨ pow2 (prec - 1) <= z) → (0 ≤ r)%Z → 0 <= z →
  (∀ k, z <= inject_Z k → (r ≤ k)%Z) → (∀ k, inject_Z k <= z → (k ≤ r)%Z) →
  (signed s (z * pow2 e') <= val a → signed s (inject_Z r * pow2 e') <= val a) ∧
  (val a <= signed s (z * pow2 e') → val a <= signed s (inject_Z r * pow2 e')).
Proof.
  intros Ha He Hz Hr Hz0 Hup Hlo. pose proof (pow2_pos e') as Hp.
  assert (0 <= inject_Z r * pow2 e') as Hr0. { apply inject_Z_le in Hr. change (inject_Z 0) with 0 in Hr. nra. }
  assert (0 <= z * pow2 e') as Hz1 by nra. pose proof Ha as [Hfa _]. destruct a as [sa| | |sa a ea]; [|done..|].
  - change (val (S754_zero sa)) with 0. assert (z <= 0 → inject_Z r * pow2 e' <= 0) as H0.
    { intros H. assert (r ≤ 0)%Z as Hle by (by apply Hup). assert (r = 0%Z) as -> by lia. change (inject_Z 0) with 0. lra. }
    assert (z * pow2 e' <= 0 → z <= 0) as H1 by (intros; nra). destruct s; cbn [signed]; split; intros; try lra;
      assert (inject_Z r * pow2 e' <= 0) by (apply H0, H1; lra); lra.
  - destruct (same_side sa a ea z r e' Ha He Hz Hr Hup Hlo) as [H1 H2]. pose proof (finite_pos a ea). rewrite val_finite.
    destruct s, sa; cbn [signed]; split; intros; try lra; try (assert (inject_Z (Z.pos a) * pow2 ea <= inject_Z r * pow2 e') by (apply H2; lra); lra);
      try (assert (inject_Z r * pow2 e' <= inject_Z (Z.pos a) * pow2 ea) by (apply H1; lra); lra).
Qed.

Lemma round_error s m e l y k :
  (0 ≤ m)%Z → position m l y → (e ≤ fexp prec emax (Zdigits2 m + e))%Z → y * pow2 e < pow2 k → in_range k →
  rounds k (signed s (y * pow2 e)) (binary_round_aux prec emax s m e l) ∧
  0 <= signed s (val (binary_round_aux prec emax s m e l)).
Proof.
  intros Hm Hp He Hy Hk. pose proof (fexp_bound m e l y k Hm Hp He Hy Hk) as Hf.
  destruct (binary_round_aux_spec s m e l y Hm Hp He) as (r & Hr & Herr & Hup & Hlo & Hval).
  pose proof (normal_or_min m e l y Hm Hp He) as Hn. pose proof (proj2 (fexp_ge (Zdigits2 m + e))) as Hge.
  set (e' := fexp prec emax (Zdigits2 m + e)) in *. set (f := binary_round_aux prec emax s m e l) in *.
  pose proof (pow2_pos e') as He'. assert (y * pow2 e == y * pow2 (e - e') * pow2 e') as Hy'.
  { rewrite <- Qmult_assoc, <- pow2_add. by replace (e - e' + e')%Z with e by lia. }
  assert (inject_Z r * pow2 e' <= pow2 k) as Hrk.
  { assert (r ≤ 2 ^ (k - e'))%Z as Hle.
    { apply Hup. rewrite <- pow2_Z by lia. apply Qlt_le_weak, (Qmult_lt_r _ _ (pow2 e')); [done|].
      rewrite <- Hy', <- pow2_add. by replace (k - e' + e')%Z with k by lia. }
    apply inject_Z_le in Hle. rewrite <- pow2_Z in Hle by lia.
    assert (pow2 k == pow2 (k - e') * pow2 e') as -> by (rewrite <- pow2_add; by replace (k - e' + e')%Z with k by lia).
    by apply Qmult_le_compat_r; [|apply Qlt_le_weak]. }
  destruct Hval as [Hnum Hv]. { eapply Qle_lt_trans; [done|]. apply Qpower_lt_compat_l; [apply Hk|done]. }
  assert (0 <= inject_Z r * pow2 e') as H0. { apply inject_Z_le in Hr. change (inject_Z 0) with 0 in Hr. nra. }
  assert (0 <= y * pow2 (e - e')) as Hz0.
  { destruct (position_bounds m l y Hp) as [Hmy _]. apply (inject_Z_le 0) in Hm. change (inject_Z 0) with 0 in Hm.
    pose proof (pow2_pos (e - e')). nra. }
  split; [split; [done| | |intros a Ha..]|].
  - rewrite Hv. assert (signed s (inject_Z r * pow2 e') - signed s (y * pow2 e) ==
      signed s ((inject_Z r - y * pow2 (e - e')) * pow2 e')) as -> by (destruct s; simpl; rewrite Hy'; ring).
    rewrite Qabs_signed, Qabs_Qmult, (Qabs_pos (pow2 e')) by lra.
    assert (pow2 e' <= pow2 (k - prec - 1 + 1)) as Hle by (apply pow2_le; lia). rewrite pow2_succ in Hle. nra.
  - by rewrite Hv, Qabs_signed, Qabs_pos.
  - rewrite Hv, Hy'. by apply (round_side s a r e' (y * pow2 (e - e')) Ha).
  - rewrite Hv, Hy'. by apply (round_side s a r e' (y * pow2 (e - e')) Ha).
  - rewrite Hv. destruct s; simpl in *; lra.
Qed.

(** A number is itself rounded. *)
Lemma rounds_self x k : number x → Qabs (val x) <= pow2 k → rounds k (val x) x.
Proof.
  intros Hx Hk. split; [done| |done..]. assert (val x - val x == 0) as -> by ring. change (Qabs 0) with 0.
  apply Qlt_le_weak, pow2_pos.
Qed.

Lemma rounds_zero k x b : x == 0 → rounds k x (S754_zero b).
Proof.
  intros ->. apply (rounds_self (S754_zero b)); [done|]. change (Qabs 0 <= pow2 k). change (Qabs 0) with 0. apply Qlt_le_weak, pow2_pos.
Qed.

Lemma shl_pos m d : Z.pos (Pos.iter xO m d) = (Z.pos m * 2 ^ Z.pos d)%Z.
Proof.
  induction d as [|d IH] using Pos.peano_ind; [simpl; lia|].
  rewrite Pos.iter_succ, Pos2Z.inj_xO, IH, Pos2Z.inj_succ, Z.pow_succ_r by lia. ring.
Qed.

Lemma Zdigits2_shift m d : (0 < m)%Z → (0 ≤ d)%Z → Zdigits2 (m * 2 ^ d) = (Zdigits2 m + d)%Z.
Proof.
  intros Hm Hd. destruct (Zdigits2_bounds m Hm) as (H0 & H1 & H2). destruct (Zdigits2_bounds (m * 2 ^ d)) as (H3 & H4 & H5); [nia|].
  assert (2 ^ (Zdigits2 m - 1 + d) ≤ m * 2 ^ d < 2 ^ (Zdigits2 m + d))%Z as [H6 H7] by (rewrite !Z.pow_add_r by lia; nia).
  assert (2 ^ (Zdigits2 m - 1 + d) < 2 ^ Zdigits2 (m * 2 ^ d))%Z as H8 by lia.
  assert (2 ^ (Zdigits2 (m * 2 ^ d) - 1) < 2 ^ (Zdigits2 m + d))%Z as H9 by lia.
  apply Z.pow_lt_mono_r_iff in H8; [|lia..]. apply Z.pow_lt_mono_r_iff in H9; lia.
Qed.

Lemma shl_align_value m e e' :
  let '(m', e1) := shl_align m e e' in inject_Z (Z.pos m') * pow2 e1 == inject_Z (Z.pos m) * pow2 e ∧ e1 = Z.min e e' ∧
    (Zdigits2 (Z.pos m') + e1 = Zdigits2 (Z.pos m) + e)%Z.
Proof.
  unfold shl_align. destruct (e' - e)%Z as [|d|d] eqn:E; [split_and!; [done|lia|done]..|].
  rewrite shl_pos, Zdigits2_shift by lia. split_and!; [|lia|lia]. rewrite inject_Z_mult, <- pow2_Z by lia.
  rewrite <- Qmult_assoc, <- pow2_add. by replace (Z.pos d + e')%Z with e by lia.
Qed.

(** [m * 2 ^ e] rounded *)
Lemma binary_round_rounds s m e k :
  inject_Z (Z.pos m) * pow2 e < pow2 k → in_range k →
  rounds k (signed s (inject_Z (Z.pos m) * pow2 e)) (binary_round prec emax s m e).
Proof.
  intros Hlt Hk. unfold binary_round. pose proof (shl_align_value m e (fexp prec emax (Z.pos (digits2_pos m) + e))) as Ha.
  destruct (shl_align _ _ _) as [m' e1]. destruct Ha as (Hv & He1 & Hd). rewrite <- Hv in *.
  apply round_error; [lia|simpl; reflexivity| |done|done]. rewrite Hd. simpl Zdigits2. lia.
Qed.

Lemma binary_normalize_rounds z e k b :
  Qabs (inject_Z z * pow2 e) < pow2 k → in_range k → rounds k (inject_Z z * pow2 e) (binary_normalize prec emax z e b).
Proof.
  intros Hlt Hk. rewrite Qabs_Qmult, (Qabs_pos (pow2 e)) in Hlt by (pose proof (pow2_pos e); lra).
  destruct z as [|p|p]; simpl.
  - apply rounds_zero. change (inject_Z 0) with 0. ring.
  - by apply (binary_round_rounds false).
  - change (inject_Z (Z.neg p)) with (inject_Z (- Z.pos p)) in *. rewrite inject_Z_opp in *. rewrite Qabs_opp in Hlt.
    assert (- inject_Z (Z.pos p) * pow2 e == signed true (inject_Z (Z.pos p) * pow2 e)) as -> by (simpl; ring).
    by apply (binary_round_rounds true).
Qed.

(** ** The operations *)

Lemma SFopp_spec x : number x → number (SFopp x) ∧ val (SFopp x) == - val x.
Proof.
  intros [Hf Hv]. destruct x as [b|b| |b m e]; [by split; [|reflexivity]|done|done|]. split; [done|].
  unfold SFopp. rewrite !val_finite. destruct b; simpl; ring.
Qed.

Lemma SFsub_opp x y : number x → number y → SFsub prec emax x y = SFadd prec emax x (SFopp y).
Proof.
  intros [Hx _] [Hy _]. destruct x as [[]| | |s1 m1 e1], y as [[]| | |[] m2 e2]; try done; simpl; f_equal; lia.
Qed.

Lemma aligned s m e ez :
  (ez ≤ e)%Z → inject_Z (cond_Zopp s (Z.pos (shl_align m e ez).1)) * pow2 ez == val (S754_finite s m e).
Proof.
  intros He. pose proof (shl_align_value m e ez) as Ha. destruct (shl_align m e ez) as [m' e1]. destruct Ha as (Hv & -> & _).
  replace (Z.min e ez) with ez in Hv by lia. rewrite val_finite, <- Hv. cbn [fst]. destruct s; cbn [cond_Zopp signed]; [|reflexivity].
  rewrite inject_Z_opp. ring.
Qed.

Lemma SFadd_rounds x y k :
  number x → number y → Qabs (val x + val y) < pow2 k → in_range k → rounds k (val x + val y) (SFadd prec emax x y).
Proof.
  intros Hx Hy Hlt Hk. pose proof Hx as [Hfx _]. pose proof Hy as [Hfy _].
  destruct x as [s1| | |s1 m1 e1], y as [s2| | |s2 m2 e2]; try done.
  - assert (SFadd prec emax (S754_zero s1) (S754_zero s2) = S754_zero (s1 && s2)) as -> by (by destruct s1, s2).
    by apply rounds_zero.
  - assert (val (S754_zero s1) + val (S754_finite s2 m2 e2) == val (S754_finite s2 m2 e2)) as Hz by (simpl (val (S754_zero _)); ring).
    rewrite Hz in *. apply rounds_self; [done|]. by apply Qlt_le_weak.
  - assert (val (S754_finite s1 m1 e1) + val (S754_zero s2) == val (S754_finite s1 m1 e1)) as Hz by (simpl (val (S754_zero _)); ring).
    rewrite Hz in *. apply rounds_self; [done|]. by apply Qlt_le_weak.
  - unfold SFadd. set (ez := Z.min e1 e2).
    rewrite <- (aligned s1 m1 e1 ez), <- (aligned s2 m2 e2 ez) in * by (unfold ez; lia).
    rewrite <- Qmult_plus_distr_l, <- inject_Z_plus in *. by apply binary_normalize_rounds.
Qed.

Lemma SFsub_rounds x y k :
  number x → number y → Qabs (val x - val y) < pow2 k → in_range k → rounds k (val x - val y) (SFsub prec emax x y).
Proof.
  intros Hx Hy Hlt Hk. rewrite SFsub_opp by done. destruct (SFopp_spec y Hy) as [Hn Hv].
  assert (val x - val y == val x + val (SFopp y)) as E by (rewrite Hv; ring). rewrite E in *. by apply SFadd_rounds.
Qed.

Lemma of_Z_rounds z k b : Qabs (inject_Z z) < pow2 k → in_range k → rounds k (inject_Z z) (binary_normalize prec emax z 0 b).
Proof.
  intros Hz Hk. assert (inject_Z z == inject_Z z * pow2 0) as E by (change (pow2 0) with 1; ring). rewrite E in *.
  by apply binary_normalize_rounds.
Qed.

(** Integers with no more bits than the format are exact. *)
Lemma binary_round_exact s m e :
  (Zdigits2 (Z.pos m) ≤ prec)%Z → (emin prec emax ≤ e ≤ emax - prec)%Z →
  number (binary_round prec emax s m e) ∧ val (binary_round prec emax s m e) == signed s (inject_Z (Z.pos m) * pow2 e).
Proof.
  intros Hd He. unfold binary_round. pose proof (shl_align_value m e (fexp prec emax (Z.pos (digits2_pos m) + e))) as Ha.
  destruct (shl_align _ _ _) as [m' e1]. destruct Ha as (Hv & He1 & Hd1). rewrite <- Hv. simpl Zdigits2 in *.
  assert (e1 = fexp prec emax (Zdigits2 (Z.pos m') + e1)) as Hf by (simpl Zdigits2; rewrite Hd1, He1; unfold fexp; lia).
  destruct (binary_round_aux_spec s (Z.pos m') e1 loc_Exact (inject_Z (Z.pos m'))) as (r & _ & _ & Hup & Hlo & Hr);
    [lia|simpl; reflexivity|lia|]. rewrite <- Hf in Hup, Hlo, Hr. rewrite Z.sub_diag in Hup, Hlo.
  assert (r = Z.pos m') as -> by (apply Z.le_antisymm; [apply Hup|apply Hlo]; change (pow2 0) with 1; lra).
  apply Hr. rewrite Hv. change (Zdigits2 (Z.pos m) ≤ prec)%Z in Hd. apply Zdigits2_le in Hd; [|lia..]. apply inject_Z_lt in Hd. rewrite <- pow2_Z in Hd by lia.
  eapply Qlt_le_trans; [apply Qmult_lt_compat_r; [apply pow2_pos|done]|]. rewrite <- pow2_add. apply pow2_le. lia.
Qed.

Lemma of_Z_exact z b :
  (Z.abs z < 2 ^ prec)%Z → number (binary_normalize prec emax z 0 b) ∧ val (binary_normalize prec emax z 0 b) == inject_Z z.
Proof.
  intros Hz. assert (emin prec emax ≤ 0 ≤ emax - prec)%Z as He by (unfold emin; lia).
  destruct z as [|p|p]; [done| |]; cbn [binary_normalize].
  all: assert (Zdigits2 (Z.pos p) ≤ prec)%Z as Hd by (apply Zdigits2_le; lia).
  - destruct (binary_round_exact false p 0 Hd He) as [H1 H2]. split; [done|]. rewrite H2. change (pow2 0) with 1. simpl. ring.
  - destruct (binary_round_exact true p 0 Hd He) as [H1 H2]. split; [done|]. rewrite H2. change (pow2 0) with 1.
    change (Z.neg p) with (- Z.pos p)%Z. rewrite inject_Z_opp. simpl. ring.
Qed.

Lemma Zdigits2_mul a b : (0 < a)%Z → (0 < b)%Z → (Zdigits2 a + Zdigits2 b - 1 ≤ Zdigits2 (a * b))%Z.
Proof.
  intros Ha Hb. destruct (Zdigits2_bounds a Ha) as (H0 & H1 & _). destruct (Zdigits2_bounds b Hb) as (H2 & H3 & _).
  destruct (Zdigits2_bounds (a * b)) as (H6 & _ & H4); [nia|].
  assert (2 ^ (Zdigits2 a - 1 + (Zdigits2 b - 1)) < 2 ^ Zdigits2 (a * b))%Z as H5 by (rewrite Z.pow_add_r by lia; nia).
  apply Z.pow_lt_mono_r_iff in H5; lia.
Qed.

Lemma signed_mul s1 s2 x y : signed (xorb s1 s2) (x * y) == signed s1 x * signed s2 y.
Proof. destruct s1, s2; simpl; ring. Qed.

Lemma SFmul_rounds x y k :
  number x → number y → Qabs (val x * val y) < pow2 k → in_range k → rounds k (val x * val y) (SFmul prec emax x y).
Proof.
  intros Hx Hy Hlt Hk. pose proof Hx as [Hfx _]. pose proof Hy as [Hfy _].
  destruct x as [s1| | |s1 m1 e1], y as [s2| | |s2 m2 e2]; try done; cbn [SFmul]; try (apply rounds_zero; simpl; ring).
  destruct (canonical s1 m1 e1 Hx) as (F1 & _ & _ & C1). destruct (canonical s2 m2 e2 Hy) as (F2 & _ & _ & C2).
  assert (val (S754_finite s1 m1 e1) * val (S754_finite s2 m2 e2) ==
    signed (xorb s1 s2) (inject_Z (Z.pos (m1 * m2)) * pow2 (e1 + e2))) as E.
  { rewrite !val_finite, <- signed_mul, Pos2Z.inj_mul, inject_Z_mult, pow2_add. f_equiv. ring. }
  rewrite E in *. rewrite Qabs_signed, Qabs_pos in Hlt.
  2: { pose proof (pow2_pos (e1 + e2)). assert (0 ≤ Z.pos (m1 * m2))%Z as H0%inject_Z_le by lia. change (inject_Z 0) with 0 in H0. nra. }
  apply round_error; [lia|simpl; reflexivity| |done|done].
  rewrite Pos2Z.inj_mul. pose proof (Zdigits2_mul (Z.pos m1) (Z.pos m2) ltac:(lia) ltac:(lia)) as Hd.
  destruct (Zdigits2_bounds (Z.pos m1)) as (D1 & _ & _); [lia|]. destruct (Zdigits2_bounds (Z.pos m2)) as (D2 & _ & _); [lia|].
  pose proof (fexp_ge (Zdigits2 (Z.pos m1 * Z.pos m2) + (e1 + e2))) as [G1 G2]. unfold emin in *. lia.
Qed.

Lemma new_location_position q r d :
  (0 < d)%Z → (0 ≤ r < d)%Z → position q (new_location d r) (inject_Z (q * d + r) / inject_Z d).
Proof.
  intros Hd [Hr0 Hr]. assert (0 < inject_Z d) as Hd'. { apply (inject_Z_lt 0) in Hd. done. }
  assert (inject_Z (q * d + r) / inject_Z d == inject_Z q + inject_Z r / inject_Z d) as ->.
  { rewrite inject_Z_plus, inject_Z_mult. field. lra. }
  assert (0 <= inject_Z r) as Hr0' by (apply (inject_Z_le 0); done). apply inject_Z_lt in Hr as Hr'.
  assert (0 <= inject_Z r / inject_Z d < 1) as [H1 H2].
  { split; [apply Qle_shift_div_l; lra|apply Qlt_shift_div_r; lra]. }
  assert (r = 0%Z → inject_Z r / inject_Z d == 0) as H3. { intros ->. change (inject_Z 0) with 0. field. lra. }
  assert (r ≠ 0%Z → 0 < inject_Z r / inject_Z d) as H4.
  { intros Hne. assert (0 < r)%Z as H5%inject_Z_lt by lia. change (inject_Z 0) with 0 in H5. apply Qlt_shift_div_l; lra. }
  assert ((2 * r < d)%Z → inject_Z r / inject_Z d < 1 # 2) as H5.
  { intros H%inject_Z_lt. rewrite inject_Z_mult in H. change (inject_Z 2) with (2 # 1) in H. apply Qlt_shift_div_r; lra. }
  assert ((2 * r = d)%Z → inject_Z r / inject_Z d == 1 # 2) as H6.
  { intros <-. rewrite inject_Z_mult. change (inject_Z 2) with (2 # 1). field. rewrite inject_Z_mult in Hd'.
    change (inject_Z 2) with (2 # 1) in Hd'. lra. }
  assert ((d < 2 * r)%Z → (1 # 2) < inject_Z r / inject_Z d) as H7.
  { intros H%inject_Z_lt. rewrite inject_Z_mult in H. change (inject_Z 2) with (2 # 1) in H. apply Qlt_shift_div_l; lra. }
  unfold new_location, new_location_even, new_location_odd. destruct (Z.even d) eqn:Ev.
  - destruct (Z.eqb_spec r 0); [simpl; specialize (H3 ltac:(done)); lra|]. specialize (H4 ltac:(done)).
    destruct (Z.compare_spec (2 * r) d); simpl; [specialize (H6 ltac:(done))|specialize (H5 ltac:(done))|specialize (H7 ltac:(done))]; lra.
  - destruct (Z.eqb_spec r 0); [simpl; specialize (H3 ltac:(done)); lra|]. specialize (H4 ltac:(done)).
    assert (d mod 2 = 1)%Z as Hodd by (rewrite Zmod_odd, <- Z.negb_even, Ev; done).
    destruct (Z.compare_spec (2 * r + 1) d); simpl.
    + specialize (H5 ltac:(lia)). lra.
    + specialize (H5 ltac:(lia)). lra.
    + assert (d < 2 * r)%Z as H8%H7; [|lra]. assert (2 * r ≠ d)%Z; [|lia].
      intros Heq. rewrite <- Heq, Z.mul_comm, Z_mod_mult in Hodd. lia.
Qed.

Lemma Zdigits2_div a b : (0 < a)%Z → (0 < b)%Z → (Zdigits2 a - Zdigits2 b ≤ Zdigits2 (a / b))%Z.
Proof.
  intros Ha Hb. destruct (Zdigits2_bounds a Ha) as (H0 & H1 & _). destruct (Zdigits2_bounds b Hb) as (H2 & _ & H3).
  assert (0 ≤ a / b)%Z as Hq by (apply Z.div_pos; lia).
  assert (0 ≤ Zdigits2 (a / b))%Z as Hd by (destruct (a / b)%Z; simpl; lia).
  apply Z.nlt_ge. intros Hlt.
  assert (Zdigits2 (a / b) ≤ Zdigits2 a - Zdigits2 b - 1)%Z as Hle by lia.
  apply Zdigits2_le in Hle; [|lia..]. assert (a < b * 2 ^ (Zdigits2 a - Zdigits2 b - 1))%Z as Hab.
  { pose proof (Z.mul_succ_div_gt a b Hb). nia. }
  assert (2 ^ (Zdigits2 a - 1) = 2 ^ Zdigits2 b * 2 ^ (Zdigits2 a - Zdigits2 b - 1))%Z as E by (rewrite <- Z.pow_add_r by lia; f_equal; lia).
  nia.
Qed.

Lemma div_core m1 e1 m2 e2 :
  let '(q, e, l) := SFdiv_core_binary prec emax (Z.pos m1) e1 (Z.pos m2) e2 in
  (0 ≤ q)%Z ∧ (e ≤ fexp prec emax (Zdigits2 q + e))%Z ∧
  ∃ y, position q l y ∧ y * pow2 e == inject_Z (Z.pos m1) * pow2 e1 / (inject_Z (Z.pos m2) * pow2 e2).
Proof.
  unfold SFdiv_core_binary. set (d := (Zdigits2 (Z.pos m1) + e1 - (Zdigits2 (Z.pos m2) + e2))%Z).
  set (e := Z.min (fexp prec emax d) (e1 - e2)). set (s := (e1 - e2 - e)%Z). assert (0 ≤ s)%Z as Hs by (unfold s, e; lia).
  assert (match s with Z0 => Z.pos m1 | Z.pos _ => Z.shiftl (Z.pos m1) s | Z.neg _ => 0%Z end = (Z.pos m1 * 2 ^ s)%Z) as ->.
  { destruct s eqn:Es; [lia|by rewrite Z.shiftl_mul_pow2|lia]. }
  pose proof (Z_div_mod (Z.pos m1 * 2 ^ s) (Z.pos m2) ltac:(lia)) as Hdm.
  destruct (Z.div_eucl (Z.pos m1 * 2 ^ s) (Z.pos m2)) as [q r] eqn:Eq. destruct Hdm as [Hqr Hr].
  assert (q = Z.pos m1 * 2 ^ s / Z.pos m2)%Z as Hq by (unfold Z.div; by rewrite Eq).
  split_and!.
  - rewrite Hq. apply Z.div_pos; lia.
  - pose proof (Zdigits2_div (Z.pos m1 * 2 ^ s) (Z.pos m2) ltac:(lia) ltac:(lia)) as Hd. rewrite <- Hq, Zdigits2_shift in Hd by lia.
    assert (d ≤ Zdigits2 q + e)%Z as Hde by (unfold d, s in *; clear Hqr Hq Eq Hs; lia).
    assert (e ≤ fexp prec emax d)%Z by (unfold e; lia). clearbody e. revert Hde. unfold fexp in *. lia.
  - exists (inject_Z (q * Z.pos m2 + r) / inject_Z (Z.pos m2)). split; [by apply new_location_position|].
    rewrite Z.mul_comm, <- Hqr, inject_Z_mult, <- pow2_Z by done.
    assert (pow2 e1 == pow2 s * pow2 e * pow2 e2) as ->.
    { rewrite <- !pow2_add. by replace (s + e + e2)%Z with e1 by (unfold s; lia). }
    pose proof (pow2_pos e2). field. split; [lra|]. apply Qnot_eq_sym, Qlt_not_eq. done.
Qed.

Lemma SFdiv_rounds x y k :
  number x → number y → ~ val y == 0 → Qabs (val x / val y) < pow2 k → in_range k → rounds k (val x / val y) (SFdiv prec emax x y).
Proof.
  intros Hx Hy Hne Hlt Hk. pose proof Hx as [Hfx _]. pose proof Hy as [Hfy _].
  destruct y as [s2| | |s2 m2 e2]; [by destruct Hne|done..|]. destruct x as [s1| | |s1 m1 e1]; [|done..|].
  - apply rounds_zero. simpl (val (S754_zero s1)). field. done.
  - cbn [SFdiv]. pose proof (div_core m1 e1 m2 e2) as Hc. destruct (SFdiv_core_binary _ _ _ _ _ _) as [[q e] l].
    destruct Hc as (Hq & He & y & Hp & Hy'). assert (val (S754_finite s1 m1 e1) / val (S754_finite s2 m2 e2) ==
      signed (xorb s1 s2) (y * pow2 e)) as E.
    { rewrite Hy', !val_finite. pose proof (pow2_pos e2). assert (0 < inject_Z (Z.pos m2)) by done.
      destruct s1, s2; cbn [signed xorb]; field; split_and?; lra. }
    rewrite E in *. rewrite Qabs_signed in Hlt. apply round_error; [done..| |done].
    eapply Qle_lt_trans; [apply Qle_Qabs|done].
Qed.

(** ** Comparison *)

Lemma canonical_lt s1 m1 e1 s2 m2 e2 :
  number (S754_finite s1 m1 e1) → number (S754_finite s2 m2 e2) → (e1 < e2)%Z →
  inject_Z (Z.pos m1) * pow2 e1 < inject_Z (Z.pos m2) * pow2 e2.
Proof.
  intros H1 H2 He. destruct (canonical s1 m1 e1 H1) as (F1 & _ & D1 & _). destruct (canonical s2 m2 e2 H2) as (F2 & _ & D2 & [C2|C2]).
  { pose proof (fexp_ge (Zdigits2 (Z.pos m1) + e1)). lia. }
  apply Zdigits2_le in D1; [|lia..]. destruct (Zdigits2_bounds (Z.pos m2)) as (_ & L2 & _); [lia|]. rewrite C2 in L2.
  apply inject_Z_lt in D1. apply inject_Z_le in L2. rewrite <- pow2_Z in D1, L2 by lia. pose proof (pow2_pos e1). pose proof (pow2_pos e2).
  assert (pow2 (prec + e1) <= pow2 (prec - 1 + e2)) as Hle by (apply pow2_le; lia). rewrite !pow2_add in Hle.
  eapply Qlt_le_trans; [by apply Qmult_lt_compat_r|]. eapply Qle_trans; [exact Hle|]. by apply Qmult_le_compat_r; [|apply Qlt_le_weak].
Qed.

Lemma compare_finite s1 m1 e1 s2 m2 e2 :
  number (S754_finite s1 m1 e1) → number (S754_finite s2 m2 e2) →
  match (e1 ?= e2)%Z with Lt => Lt | Gt => Gt | Eq => Pos.compare_cont Eq m1 m2 end =
  (inject_Z (Z.pos m1) * pow2 e1 ?= inject_Z (Z.pos m2) * pow2 e2).
Proof.
  intros H1 H2. symmetry. destruct (Z.compare_spec e1 e2) as [<-|He|He].
  - change (Pos.compare_cont Eq m1 m2) with (Z.pos m1 ?= Z.pos m2)%Z. pose proof (pow2_pos e1).
    destruct (Z.compare_spec (Z.pos m1) (Z.pos m2)) as [->|Hm%inject_Z_lt|Hm%inject_Z_lt];
      [by apply (proj1 (Qeq_alt _ _))|apply (proj1 (Qlt_alt _ _)); by apply Qmult_lt_compat_r|apply (proj1 (Qgt_alt _ _)); by apply Qmult_lt_compat_r].
  - apply (proj1 (Qlt_alt _ _)). by eapply canonical_lt.
  - apply (proj1 (Qgt_alt _ _)). by eapply canonical_lt.
Qed.

Lemma SFcompare_spec x y : number x → number y → SFcompare x y = Some (val x ?= val y).
Proof.
  intros Hx Hy. pose proof Hx as [Hfx _]. pose proof Hy as [Hfy _].
  destruct x as [s1| | |s1 m1 e1], y as [s2| | |s2 m2 e2]; try done; cbn [SFcompare]; f_equal.
  - rewrite val_finite. pose proof (finite_pos m2 e2). symmetry.
    destruct s2; cbn [signed]; [apply (proj1 (Qgt_alt _ _))|apply (proj1 (Qlt_alt _ _))]; change (val (S754_zero s1)) with 0; lra.
  - rewrite val_finite. pose proof (finite_pos m1 e1). symmetry.
    destruct s1; cbn [signed]; [apply (proj1 (Qlt_alt _ _))|apply (proj1 (Qgt_alt _ _))]; change (val (S754_zero s2)) with 0; lra.
  - rewrite !val_finite. pose proof (finite_pos m1 e1). pose proof (finite_pos m2 e2). pose proof (compare_finite _ _ _ _ _ _ Hx Hy) as Hc.
    destruct s1, s2; cbn [signed]; [|symmetry; apply (proj1 (Qlt_alt _ _)); lra|symmetry; apply (proj1 (Qgt_alt _ _)); lra|exact Hc].
    transitivity (CompOpp (inject_Z (Z.pos m1) * pow2 e1 ?= inject_Z (Z.pos m2) * pow2 e2)); [rewrite <- Hc; by destruct (e1 ?= e2)%Z|].
    symmetry. destruct (Qcompare_spec (inject_Z (Z.pos m1) * pow2 e1) (inject_Z (Z.pos m2) * pow2 e2)) as [E|E|E]; cbn [CompOpp].
    + apply (proj1 (Qeq_alt _ _)). by rewrite E.
    + apply (proj1 (Qgt_alt _ _)). lra.
    + apply (proj1 (Qlt_alt _ _)). lra.
Qed.

Lemma SFleb_spec x y : number x → number y → if SFleb x y then val x <= val y else val y < val x.
Proof.
  intros Hx Hy. unfold SFleb. rewrite SFcompare_spec by done. destruct (Qcompare_spec (val x) (val y)); lra.
Qed.
End Format.

(** The integer part *)
Lemma trunc_spec x :
  isfinite x = true →
  ∃ z, trunc x = Some z ∧ (0 <= val x → inject_Z z <= val x ∧ val x < inject_Z z + 1) ∧
    (val x <= 0 → inject_Z z - 1 < val x ∧ val x <= inject_Z z).
Proof.
  intros Hf. destruct x as [s| | |s m e]; [|done..|].
  { exists 0%Z. change (inject_Z 0) with 0. change (val (S754_zero s)) with 0. split_and!; [done|lra..]. }
  pose proof (finite_pos m e) as Hpos. unfold trunc. set (z := if (0 <=? e)%Z then _ else _).
  assert (inject_Z z <= inject_Z (Z.pos m) * pow2 e ∧ inject_Z (Z.pos m) * pow2 e < inject_Z z + 1) as [H1 H2].
  { unfold z. destruct (Z.leb_spec 0 e).
    - rewrite inject_Z_mult, <- pow2_Z by done. lra.
    - assert (pow2 e == / pow2 (- e)) as -> by (rewrite <- Qpower_opp; by rewrite Z.opp_involutive). rewrite pow2_Z by lia.
      assert (0 < 2 ^ (- e))%Z as Hp by lia. apply (inject_Z_lt 0) in Hp as Hp'. change (inject_Z 0) with 0 in Hp'.
      pose proof (Z_div_mod_eq_full (Z.pos m) (2 ^ (- e))) as Hdm. pose proof (Z.mod_pos_bound (Z.pos m) (2 ^ (- e)) Hp) as [R1 R2].
      apply (inject_Z_le 0) in R1. apply inject_Z_lt in R2. change (inject_Z 0) with 0 in R1.
      apply (f_equal inject_Z) in Hdm. rewrite inject_Z_plus, inject_Z_mult in Hdm.
      split; [apply Qle_shift_div_l|apply Qlt_shift_div_r]; [done| |done|]; rewrite Hdm; nra. }
  exists (if s then (- z)%Z else z). split; [done|]. rewrite !val_finite. destruct s; cbn [signed]; rewrite ?inject_Z_opp; split; intros; split; lra.
Qed.
