(* ===== verification/ContextDeadline.v ===== *)
(** * Deadlines of a client context

    [ClientContext::set_deadline] and [deadline] ([include/grpcpp/client_context.h])
    and what [BlockingCallState::Open] makes of the deadline of a call
    ([include/grpcpp/impl/blocking_call.h]): seconds in [long double], converted
    from the ticks of any clock and back to nanoseconds.  Shown are that no
    conversion is undefined and how far a timeout may be from the exact one.

    [long double] is a parameter: any IEEE 754 format with at least 64 bits of
    precision, such as the extended format of x86-64 and the quadruple format of
    AArch64.  Time points count ticks in 64 bits; [std::chrono::system_clock] counts
    nanoseconds. *)

From Stdlib Require Import QArith Qabs Lqa.
From S2P Require Import Prelude Doubles Rounding.

Local Open Scope Z_scope.

Class LongDouble := {
  ld_prec : Z;
  ld_emax : Z;
  ld_wide : 64 ≤ ld_prec;
  ld_range : ld_prec + 128 < ld_emax }.

Definition extended : LongDouble.
Proof. by refine {| ld_prec := 64; ld_emax := 16384 |}. Defined.

Definition quadruple : LongDouble.
Proof. by refine {| ld_prec := 113; ld_emax := 16384 |}. Defined.

Definition int64_min : Z := - 2 ^ 63.
Definition int64_max : Z := 2 ^ 63 - 1.

Definition in_int64 (z : Z) : Prop := int64_min ≤ z ≤ int64_max.

(** A conversion to an integer type with these bounds: undefined ([None]) when the
    truncated value does not fit *)
Definition integer_of (lo hi : Z) (x : spec_float) : option Z :=
  z ← trunc x; if (lo <=? z) && (z <=? hi) then Some z else None.

Section Deadline.
Context {LD : LongDouble}.

Definition long_double_of (z : Z) : spec_float := binary_normalize ld_prec ld_emax z 0 false.
Definition ld_add : spec_float → spec_float → spec_float := SFadd ld_prec ld_emax.
Definition ld_sub : spec_float → spec_float → spec_float := SFsub ld_prec ld_emax.
Definition ld_mul : spec_float → spec_float → spec_float := SFmul ld_prec ld_emax.
Definition ld_div : spec_float → spec_float → spec_float := SFdiv ld_prec ld_emax.

(** ** Durations *)

(** The period of a duration, in seconds: [std::ratio], in lowest terms *)
Record Ratio := mkRatio { num : Z; den : Z }.

Definition nanoseconds : Ratio := mkRatio 1 1000000000.

(** [std::chrono::duration<long double>(d).count()] for [count] ticks of [p] *)
Definition seconds_of (p : Ratio) (count : Z) : spec_float :=
  let c := long_double_of count in
  if den p =? 1 then if num p =? 1 then c else ld_mul c (long_double_of (num p))
  else if num p =? 1 then ld_div c (long_double_of (den p))
  else ld_div (ld_mul c (long_double_of (num p))) (long_double_of (den p)).

(** [std::chrono::duration_cast<std::chrono::system_clock::duration>] of seconds *)
Definition system_ticks_of (seconds : spec_float) : option Z :=
  integer_of int64_min int64_max (ld_mul seconds (long_double_of (den nanoseconds))).

(** ** The context *)

Record ContextDeadline := mkContextDeadline {
  deadline_seconds_ : spec_float;
  deadline_extreme_ : Z;
  has_deadline_ : bool }.

Definition ContextDeadline_init : ContextDeadline := mkContextDeadline (long_double_of 0) 0 false.

(** [deadline] in ticks of [Duration], [clock_now] in ticks of the clock and
    [system_now] are what the two clocks read. *)
Definition set_deadline (duration clock : Ratio) (deadline clock_now system_now : Z) (s : ContextDeadline) : ContextDeadline :=
  if deadline =? int64_min then mkContextDeadline (deadline_seconds_ s) (-1) true
  else if deadline =? int64_max then mkContextDeadline (deadline_seconds_ s) 1 true
  else
    let clock_deadline := seconds_of duration deadline in
    let clock_now := seconds_of clock clock_now in
    let system_now := seconds_of nanoseconds system_now in
    mkContextDeadline (ld_add system_now (ld_sub clock_deadline clock_now)) 0 true.

Definition deadline (s : ContextDeadline) : option Z :=
  if negb (has_deadline_ s) then Some int64_max
  else if deadline_extreme_ s <? 0 then Some int64_min
  else if 0 <? deadline_extreme_ s then Some int64_max
  else
    let minimum := seconds_of nanoseconds int64_min in
    let maximum := seconds_of nanoseconds int64_max in
    if SFleb (deadline_seconds_ s) minimum then Some int64_min
    else if SFleb maximum (deadline_seconds_ s) then Some int64_max
    else system_ticks_of (deadline_seconds_ s).

(** [options.timeout_ns] of a number of seconds *)
Definition timeout_of (seconds : spec_float) : option Z :=
  let maximum := ld_div (long_double_of u64_max) (long_double_of 1000000000) in
  if SFleb seconds (long_double_of 0) then Some 0
  else if SFleb maximum seconds then Some u64_max
  else integer_of 0 u64_max (ld_mul seconds (long_double_of 1000000000)).

(** The timeout of a call that starts at [now]: the inner [None] is no timeout, the
    outer one an undefined conversion. *)
Definition call_timeout (now : Z) (s : ContextDeadline) : option (option Z) :=
  if negb (has_deadline_ s) then Some None
  else
    let now := seconds_of nanoseconds now in
    let seconds := ld_sub (deadline_seconds_ s) now in
    let seconds := if deadline_extreme_ s <? 0 then long_double_of (-1)
                   else if 0 <? deadline_extreme_ s then S754_infinity false else seconds in
    timeout_ns ← timeout_of seconds; Some (Some timeout_ns).

(** ** Values *)

Abbreviation ld_number := (number ld_prec ld_emax).
Abbreviation ld_rounds := (rounds ld_prec ld_emax).

Lemma ld_prec_ok : 1 < ld_prec.
Proof. pose proof ld_wide. lia. Qed.

Lemma ld_emax_ok : ld_prec < ld_emax.
Proof. pose proof ld_range. lia. Qed.

Lemma ld_in_range k : 0 ≤ k ≤ 192 → in_range ld_prec ld_emax k.
Proof. pose proof ld_wide. pose proof ld_range. unfold in_range, emin. lia. Qed.

#[local] Hint Resolve ld_prec_ok ld_emax_ok : core.
#[local] Hint Extern 2 (in_range _ _ _) => apply ld_in_range; lia : core.

Local Open Scope Q_scope.

(** What [rounds] says as inequalities *)
Lemma rounds_bounds k x f b :
  ld_rounds k x f → (k - 65 ≤ b)%Z →
  ld_number f ∧ val f - x <= pow2 b ∧ x - val f <= pow2 b ∧ val f <= pow2 k ∧ - val f <= pow2 k.
Proof.
  intros [Hn He Hb _ _] Hk. pose proof ld_wide as Hw.
  apply Qabs_Qle_condition in He. apply Qabs_Qle_condition in Hb.
  assert (pow2 (k - ld_prec - 1) <= pow2 b) by (apply pow2_le; lia). split; [done|]. lra.
Qed.

Lemma long_double_of_exact z : (Z.abs z < 2 ^ 64)%Z → ld_number (long_double_of z) ∧ val (long_double_of z) == inject_Z z.
Proof.
  intros Hz. apply of_Z_exact; auto. pose proof ld_wide.
  assert (2 ^ 64 ≤ 2 ^ ld_prec)%Z by (apply Z.pow_le_mono_r; lia). lia.
Qed.

Lemma Qabs_lt x y : - y < x → x < y → Qabs x < y.
Proof. intros. by apply Qabs_Qlt_condition. Qed.

Lemma inject_int64 z : in_int64 z → - inject_Z (2 ^ 63) <= inject_Z z ∧ inject_Z z <= inject_Z (2 ^ 63 - 1).
Proof. intros [H1 H2]. split; [rewrite <- inject_Z_opp|]; by apply inject_Z_le. Qed.

(** Magnitudes *)
Definition within (k : Z) (x : spec_float) : Prop := ld_number x ∧ - pow2 k <= val x ∧ val x <= pow2 k.

Lemma within_mono j k x : within j x → (j ≤ k)%Z → within k x.
Proof. intros (Hn & H1 & H2) Hjk. pose proof (pow2_le j k Hjk). split_and!; [done|lra..]. Qed.

Lemma rounds_within k x f : ld_rounds k x f → within k f.
Proof. intros [Hn _ Hb _ _]. apply Qabs_Qle_condition in Hb. by split. Qed.

Lemma within_int z : (Z.abs z ≤ 2 ^ 63)%Z → within 63 (long_double_of z).
Proof.
  intros Hz. destruct (long_double_of_exact z) as [Hn Hv]; [lia|]. unfold within. rewrite Hv, pow2_Z, <- inject_Z_opp by lia.
  split_and!; [done|apply inject_Z_le; lia..].
Qed.

Lemma within_mul j k x y : within j x → within k y → (0 ≤ j + k + 1 ≤ 192)%Z → within (j + k + 1) (ld_mul x y).
Proof.
  intros (Hx & X1 & X2) (Hy & Y1 & Y2) Hk. pose proof (pow2_pos j). pose proof (pow2_pos k).
  eapply rounds_within, SFmul_rounds; auto. rewrite pow2_succ, pow2_add. apply Qabs_lt; nra.
Qed.

Lemma within_div k x y : within k x → ld_number y → 1 <= val y → (0 ≤ k + 1 ≤ 192)%Z → within (k + 1) (ld_div x y).
Proof.
  intros (Hx & X1 & X2) Hy Y1 Hk. pose proof (pow2_pos k).
  eapply rounds_within, SFdiv_rounds; auto; [lra|]. rewrite pow2_succ.
  apply Qabs_lt; [apply Qlt_shift_div_l|apply Qlt_shift_div_r]; nra.
Qed.

Lemma within_add k x y : within k x → within k y → (0 ≤ k + 2 ≤ 192)%Z → within (k + 2) (ld_add x y).
Proof.
  intros (Hx & X1 & X2) (Hy & Y1 & Y2) Hk. pose proof (pow2_pos k). replace (k + 2)%Z with (k + 1 + 1)%Z in * by lia.
  eapply rounds_within, SFadd_rounds; auto. rewrite !pow2_succ. apply Qabs_lt; lra.
Qed.

Lemma within_sub k x y : within k x → within k y → (0 ≤ k + 2 ≤ 192)%Z → within (k + 2) (ld_sub x y).
Proof.
  intros (Hx & X1 & X2) (Hy & Y1 & Y2) Hk. pose proof (pow2_pos k). replace (k + 2)%Z with (k + 1 + 1)%Z in * by lia.
  eapply rounds_within, SFsub_rounds; auto. rewrite !pow2_succ. apply Qabs_lt; lra.
Qed.

Definition ratio_ok (p : Ratio) : Prop := (1 ≤ num p ≤ int64_max)%Z ∧ (1 ≤ den p ≤ int64_max)%Z.

(** Ticks of any period are finite seconds. *)
Lemma seconds_of_finite p count : ratio_ok p → in_int64 count → within 128 (seconds_of p count).
Proof.
  intros [Hn Hd] [Hc1 Hc2]. unfold int64_min, int64_max in *. assert (within 63 (long_double_of count)) as Hc by (apply within_int; lia).
  assert (within 63 (long_double_of (num p))) as Hnum by (apply within_int; lia).
  destruct (long_double_of_exact (den p)) as [Hd1 Hd2]; [lia|].
  assert (1 <= val (long_double_of (den p))) as Hd3 by (rewrite Hd2; change 1 with (inject_Z 1); apply inject_Z_le; lia).
  pose proof (within_mul 63 63 _ _ Hc Hnum) as Hmul. unfold seconds_of.
  destruct (den p =? 1)%Z, (num p =? 1)%Z.
  - by eapply within_mono.
  - eapply within_mono; [apply Hmul|]; lia.
  - eapply within_mono; [by apply within_div|]; lia.
  - eapply within_mono; [apply within_div; [apply Hmul|..]|]; try done; lia.
Qed.

Lemma set_deadline_finite duration clock d clock_now system_now s :
  ratio_ok duration → ratio_ok clock → in_int64 d → in_int64 clock_now → in_int64 system_now → within 132 (deadline_seconds_ s) →
  within 132 (deadline_seconds_ (set_deadline duration clock d clock_now system_now s)).
Proof.
  intros Hp Hc Hd Hcn Hsn Hs. unfold set_deadline. destruct (d =? int64_min)%Z; [done|]. destruct (d =? int64_max)%Z; [done|]. simpl.
  apply (within_add 130); [|apply (within_sub 128)|]; [|by apply seconds_of_finite..|done|done].
  eapply within_mono; [by apply seconds_of_finite|done].
Qed.

(** ** The conversions are defined *)

Lemma integer_of_spec lo hi x :
  ld_number x → (lo ≤ 0 ≤ hi)%Z → inject_Z lo <= val x → val x <= inject_Z hi →
  ∃ z, integer_of lo hi x = Some z ∧ (lo ≤ z ≤ hi)%Z ∧ inject_Z z - val x < 1 ∧ val x - inject_Z z < 1 ∧
    (0 <= val x → inject_Z z <= val x).
Proof.
  intros [Hf _] Hb Hlo Hhi. destruct (trunc_spec x Hf) as (z & Hz & Hp & Hn). unfold integer_of. rewrite Hz. cbn [mbind option_bind].
  assert (lo ≤ z ≤ hi)%Z as Hr.
  { destruct (Qlt_le_dec (val x) 0) as [Hneg|Hpos].
    - destruct Hn as [H1 H2]; [lra|]. assert (z < 1)%Z; [|split; [|lia]].
      + apply Z.lt_nge. intros H%inject_Z_le. change (inject_Z 1) with 1 in H. lra.
      + apply Z.le_ngt. intros Hc%inject_Z_lt. lra.
    - destruct Hp as [H1 H2]; [lra|]. split.
      + assert (-1 < z)%Z; [|lia]. apply Z.lt_nge. intros H%inject_Z_le. change (inject_Z (-1)) with (-1) in H. lra.
      + apply Z.le_ngt. intros H%inject_Z_lt. lra. }
  rewrite (proj2 (Z.leb_le lo z)), (proj2 (Z.leb_le z hi)) by lia. exists z. split_and!; [done|lia|lia|..].
  1, 2: destruct (Qlt_le_dec (val x) 0) as [Hneg|Hpos]; [destruct Hn as [H1 H2]; lra|destruct Hp as [H1 H2]; lra].
  intros H. by apply Hp.
Qed.

(** Seconds that lie strictly between rounded bounds, in nanoseconds, stay between
    the bounds. *)
Lemma nanoseconds_between lo hi kl kh fl fh x :
  (Z.abs lo < 2 ^ 64)%Z → (Z.abs hi < 2 ^ 64)%Z → (lo ≤ 0 ≤ hi)%Z →
  ld_rounds kl (inject_Z lo / inject_Z 1000000000) fl → ld_rounds kh (inject_Z hi / inject_Z 1000000000) fh →
  ld_number x → val fl < val x → val x < val fh →
  ∃ z, integer_of lo hi (ld_mul x (long_double_of 1000000000)) = Some z ∧ (lo ≤ z ≤ hi)%Z ∧
    inject_Z z - val x * inject_Z 1000000000 < 3 # 2 ∧ val x * inject_Z 1000000000 - inject_Z z < 3 # 2.
Proof.
  intros Hlo Hhi Hb Rl Rh Hx Hl Hh. set (G := inject_Z 1000000000) in *. assert (0 < G) as HG by done.
  assert (inject_Z lo / G < val x) as Hl'. { apply Qnot_le_lt. intros H%(rd_ge _ _ _ _ _ Rl x Hx). lra. }
  assert (val x < inject_Z hi / G) as Hh'. { apply Qnot_le_lt. intros H%(rd_le _ _ _ _ _ Rh x Hx). lra. }
  apply (Qmult_lt_compat_r _ _ G HG) in Hl', Hh'.
  assert (∀ a, a / G * G == a) as Hdiv by (intros; field; lra). rewrite Hdiv in Hl', Hh'.
  destruct (long_double_of_exact 1000000000) as [Hg1 Hg2]; [done|]. fold G in Hg2.
  assert (ld_rounds 64 (val x * G) (ld_mul x (long_double_of 1000000000))) as R.
  { rewrite <- Hg2. apply SFmul_rounds; auto. rewrite Hg2.
    assert (- inject_Z (2 ^ 64) <= inject_Z lo) by (rewrite <- inject_Z_opp; apply inject_Z_le; lia).
    assert (inject_Z hi <= inject_Z (2 ^ 64)) by (apply inject_Z_le; lia). rewrite pow2_Z by done. apply Qabs_lt; lra. }
  destruct (long_double_of_exact lo Hlo) as [L1 L2]. destruct (long_double_of_exact hi Hhi) as [H1 H2].
  pose proof (rd_ge _ _ _ _ _ R _ L1) as Rge. pose proof (rd_le _ _ _ _ _ R _ H1) as Rle. rewrite L2 in Rge. rewrite H2 in Rle.
  destruct (rounds_bounds _ _ _ (-1) R) as (Hn & E1 & E2 & _); [done|]. change (pow2 (-1)) with (1 # 2) in *.
  destruct (integer_of_spec lo hi _ Hn Hb) as (z & Hz & Hzb & Z1 & Z2 & _); [apply Rge; lra|apply Rle; lra|].
  exists z. split_and!; [done|lia|lia|lra|lra].
Qed.

(** ** Timeouts *)

Lemma giga : ld_number (long_double_of 1000000000) ∧ val (long_double_of 1000000000) == inject_Z 1000000000.
Proof. by apply long_double_of_exact. Qed.

Lemma over_giga_rounds z k :
  (Z.abs z < 2 ^ 64)%Z → (Z.abs z < 2 ^ k * 1000000000)%Z → (0 ≤ k ≤ 192)%Z →
  ld_rounds k (inject_Z z / inject_Z 1000000000) (ld_div (long_double_of z) (long_double_of 1000000000)).
Proof.
  intros Hz Hk Hr. destruct giga as [G1 G2]. destruct (long_double_of_exact z Hz) as [Z1 Z2]. rewrite <- G2, <- Z2.
  apply SFdiv_rounds; auto; rewrite G2; [done|]. rewrite Z2. rewrite pow2_Z by lia.
  assert (- (inject_Z (2 ^ k) * inject_Z 1000000000) < inject_Z z) by (rewrite <- inject_Z_mult, <- inject_Z_opp; apply inject_Z_lt; lia).
  assert (inject_Z z < inject_Z (2 ^ k) * inject_Z 1000000000) by (rewrite <- inject_Z_mult; apply inject_Z_lt; lia).
  apply Qabs_lt; [apply Qlt_shift_div_l|apply Qlt_shift_div_r]; try done. lra.
Qed.

Lemma nanoseconds_rounds count :
  in_int64 count → ld_rounds 34 (inject_Z count / inject_Z 1000000000) (seconds_of nanoseconds count).
Proof. intros [H1 H2]. unfold int64_min, int64_max in *. apply over_giga_rounds; lia. Qed.

Lemma maximum_rounds :
  ld_rounds 35 (inject_Z u64_max / inject_Z 1000000000) (ld_div (long_double_of u64_max) (long_double_of 1000000000)).
Proof. by apply over_giga_rounds. Qed.

Lemma zero_rounds k : ld_rounds k (inject_Z 0 / inject_Z 1000000000) (long_double_of 0).
Proof. by apply rounds_zero. Qed.

Lemma below_infinity f : ld_number f → SFleb f (S754_infinity false) = true.
Proof. intros [Hf _]. by destruct f. Qed.

Lemma timeout_of_spec x :
  ld_number x →
  ∃ t, timeout_of x = Some t ∧ (0 ≤ t ≤ u64_max)%Z ∧
    ((t = 0%Z ∧ val x <= 0) ∨ (t = u64_max ∧ inject_Z u64_max / inject_Z 1000000000 - pow2 (-30) <= val x) ∨
     (inject_Z t - val x * inject_Z 1000000000 < 3 # 2 ∧ val x * inject_Z 1000000000 - inject_Z t < 3 # 2)).
Proof.
  intros Hx. unfold timeout_of. destruct (rounds_bounds _ _ _ (-30) maximum_rounds) as (Hm & _ & Hm2 & _); [done|].
  destruct (long_double_of_exact 0) as [Hz1 Hz2]; [done|]. change (inject_Z 0) with 0 in Hz2.
  pose proof (SFleb_spec _ _ ld_prec_ok x (long_double_of 0) Hx Hz1) as Hs. destruct (SFleb x (long_double_of 0)).
  { exists 0%Z. split_and!; [done..|]. left. split; [done|]. lra. }
  pose proof (SFleb_spec _ _ ld_prec_ok _ _ Hm Hx) as Hs'. destruct (SFleb _ x).
  { exists u64_max. split_and!; [done..|]. right. left. split; [done|]. lra. }
  destruct (nanoseconds_between 0 u64_max 64 35 _ _ x ltac:(done) ltac:(done) ltac:(done) (zero_rounds 64) maximum_rounds Hx Hs Hs')
    as (t & Ht & Hb & E1 & E2). exists t. split_and!; [done|lia|lia|]. right. by right.
Qed.

Lemma timeout_of_negative : timeout_of (long_double_of (-1)) = Some 0%Z.
Proof.
  destruct (long_double_of_exact (-1)) as [H1 H2]; [done|]. destruct (long_double_of_exact 0) as [H3 H4]; [done|].
  unfold timeout_of. pose proof (SFleb_spec _ _ ld_prec_ok _ _ H1 H3) as Hs. destruct (SFleb _ _); [done|].
  rewrite H2, H4 in Hs. change (inject_Z 0 < inject_Z (-1)) with (0 < -1)%Z in Hs. lia.
Qed.

Lemma timeout_of_infinity : timeout_of (S754_infinity false) = Some u64_max.
Proof.
  unfold timeout_of. destruct (long_double_of_exact 0) as [[Hf _] _]; [done|]. rewrite below_infinity by apply maximum_rounds.
  by destruct (long_double_of 0).
Qed.

Lemma system_time_spec x :
  ld_number x →
  ∃ d, deadline (mkContextDeadline x 0 true) = Some d ∧ in_int64 d ∧
    ((d = int64_min ∧ val x <= inject_Z int64_min / inject_Z 1000000000 + pow2 (-31)) ∨
     (d = int64_max ∧ inject_Z int64_max / inject_Z 1000000000 - pow2 (-31) <= val x) ∨
     (inject_Z d - val x * inject_Z 1000000000 < 3 # 2 ∧ val x * inject_Z 1000000000 - inject_Z d < 3 # 2)).
Proof.
  intros Hx. pose proof (nanoseconds_rounds int64_min ltac:(done)) as Rl. pose proof (nanoseconds_rounds int64_max ltac:(done)) as Rh.
  destruct (rounds_bounds _ _ _ (-31) Rl) as (Hl & Hl1 & _); [done|]. destruct (rounds_bounds _ _ _ (-31) Rh) as (Hh & _ & Hh2 & _); [done|].
  unfold deadline. cbn [has_deadline_ negb deadline_extreme_ deadline_seconds_ Z.ltb Z.compare].
  pose proof (SFleb_spec _ _ ld_prec_ok x _ Hx Hl) as Hs. destruct (SFleb x _).
  { exists int64_min. split_and!; [done..|]. left. split; [done|]. lra. }
  pose proof (SFleb_spec _ _ ld_prec_ok _ x Hh Hx) as Hs'. destruct (SFleb _ x).
  { exists int64_max. split_and!; [done..|]. right. left. split; [done|]. lra. }
  destruct (nanoseconds_between int64_min int64_max 34 34 _ _ x ltac:(done) ltac:(done) ltac:(done) Rl Rh Hx Hs Hs')
    as (d & Hd & Hb & E1 & E2). exists d. split_and!; [done|apply Hb..|]. right. by right.
Qed.

(** *** What is defined *)

(** One call of [set_deadline] *)
Record Setting := mkSetting {
  st_duration : Ratio; st_clock : Ratio; st_deadline : Z; st_clock_now : Z; st_system_now : Z }.

Definition apply_setting (s : ContextDeadline) (x : Setting) : ContextDeadline :=
  set_deadline (st_duration x) (st_clock x) (st_deadline x) (st_clock_now x) (st_system_now x) s.

Definition setting_ok (x : Setting) : Prop :=
  ratio_ok (st_duration x) ∧ ratio_ok (st_clock x) ∧ in_int64 (st_deadline x) ∧ in_int64 (st_clock_now x) ∧ in_int64 (st_system_now x).

Lemma settings_finite xs : Forall setting_ok xs → within 132 (deadline_seconds_ (fold_left apply_setting xs ContextDeadline_init)).
Proof.
  intros Hxs. assert (within 132 (deadline_seconds_ ContextDeadline_init)) as H0.
  { eapply within_mono; [by apply within_int|done]. }
  revert Hxs H0. generalize ContextDeadline_init as s. induction xs as [|x xs IH]; intros s Hxs Hs; [done|].
  apply Forall_cons in Hxs as [(H1 & H2 & H3 & H4 & H5) Hxs]. apply IH; [done|]. by apply set_deadline_finite.
Qed.

(** Whatever deadlines a program gives a context, with any clocks and periods and
    whatever the clocks read, no conversion is undefined: [deadline] returns a time
    point and a call gets a timeout of 64 bits, or none when no deadline was
    given.  The least time point is a deadline that has passed, and the greatest
    one the longest timeout. *)
Lemma deadlines_defined xs now :
  Forall setting_ok xs → in_int64 now →
  let s := fold_left apply_setting xs ContextDeadline_init in
  (∃ d, deadline s = Some d ∧ in_int64 d) ∧
  match last xs with
  | None => call_timeout now s = Some None
  | Some x =>
      ∃ t, call_timeout now s = Some (Some t) ∧ (0 ≤ t ≤ u64_max)%Z ∧
        (st_deadline x = int64_min → t = 0%Z ∧ deadline s = Some int64_min) ∧
        (st_deadline x = int64_max → t = u64_max ∧ deadline s = Some int64_max)
  end.
Proof.
  intros Hxs Hnow. cbn zeta. induction xs as [|x xs _] using rev_ind; [by split; [exists int64_max|]|].
  apply Forall_app in Hxs as [Hxs Hx]. rewrite Forall_singleton in Hx. rewrite last_snoc, fold_left_app. cbn [fold_left].
  pose proof (settings_finite xs Hxs) as Hold. set (old := fold_left _ _ _) in *. clearbody old.
  destruct Hx as (H1 & H2 & H3 & H4 & H5). unfold apply_setting.
  pose proof (set_deadline_finite _ _ _ _ _ old H1 H2 H3 H4 H5 Hold) as Hfin. unfold set_deadline in *.
  destruct (Z.eqb_spec (st_deadline x) int64_min) as [E|E].
  { split; [by exists int64_min|]. exists 0%Z. split_and!; [|done..|by rewrite E]. unfold call_timeout.
    cbn [has_deadline_ negb deadline_extreme_ Z.ltb Z.compare]. by rewrite timeout_of_negative. }
  destruct (Z.eqb_spec (st_deadline x) int64_max) as [E'|E'].
  { split; [by exists int64_max|]. exists u64_max. split_and!; [|done..]. unfold call_timeout.
    cbn [has_deadline_ negb deadline_extreme_ Z.ltb Z.compare]. by rewrite timeout_of_infinity. }
  cbn [deadline_seconds_] in Hfin. set (y := ld_add _ _) in *. split.
  { destruct (system_time_spec y) as (d & Hd & Hb & _); [apply Hfin|eauto]. }
  unfold call_timeout. cbn [has_deadline_ negb deadline_extreme_ deadline_seconds_ Z.ltb Z.compare].
  assert (within 134 (ld_sub y (seconds_of nanoseconds now))) as [Hn _].
  { apply (within_sub 132); [done| |done]. eapply within_mono; [by eapply rounds_within, nanoseconds_rounds|done]. }
  destruct (timeout_of_spec _ Hn) as (t & -> & Ht & _). by exists t.
Qed.

(** *** How exact it is *)

(** Nanoseconds since 1970 in seconds *)
Lemma nanoseconds_near count :
  (0 ≤ count ≤ int64_max)%Z →
  let v := val (seconds_of nanoseconds count) in
  ld_number (seconds_of nanoseconds count) ∧ v - inject_Z count * (1 # 1000000000) <= 1 # 2147483648 ∧
  inject_Z count * (1 # 1000000000) - v <= 1 # 2147483648 ∧ 0 <= inject_Z count ∧ inject_Z count <= 9223372036854775807 # 1.
Proof.
  intros Hc. destruct (rounds_bounds _ _ _ (-31) (nanoseconds_rounds count ltac:(unfold in_int64, int64_min; lia)))
    as (Hn & H1 & H2 & _); [done|]. change (pow2 (-31)) with (1 # 2147483648) in *.
  assert (inject_Z count / inject_Z 1000000000 == inject_Z count * (1 # 1000000000)) as E by reflexivity. rewrite E in *.
  destruct Hc as [C1 C2]. apply (inject_Z_le 0) in C1. apply inject_Z_le in C2. by split_and!.
Qed.

(** The seconds of a deadline on a clock that counts nanoseconds *)
Lemma set_deadline_near d clock_now system_now s :
  (0 ≤ d < int64_max)%Z → (0 ≤ clock_now ≤ int64_max)%Z → (0 ≤ system_now ≤ int64_max)%Z →
  let s' := set_deadline nanoseconds nanoseconds d clock_now system_now s in
  let exact := (inject_Z system_now + inject_Z d - inject_Z clock_now) * (1 # 1000000000) in
  deadline_extreme_ s' = 0%Z ∧ has_deadline_ s' = true ∧ ld_number (deadline_seconds_ s') ∧
  val (deadline_seconds_ s') - exact <= 6 # 2147483648 ∧ exact - val (deadline_seconds_ s') <= 6 # 2147483648.
Proof.
  intros Hd Hc Hs. unfold set_deadline. destruct (Z.eqb_spec d int64_min); [unfold int64_min in *; lia|].
  destruct (Z.eqb_spec d int64_max); [lia|]. cbn -[ld_add ld_sub seconds_of inject_Z].
  destruct (nanoseconds_near d) as (Nd & D1 & D2 & D3 & D4); [lia|].
  destruct (nanoseconds_near clock_now Hc) as (Nc & C1 & C2 & C3 & C4).
  destruct (nanoseconds_near system_now Hs) as (Ns & S1 & S2 & S3 & S4).
  pose proof (SFsub_rounds _ _ ld_prec_ok ld_emax_ok _ _ 34 Nd Nc) as R1.
  destruct (rounds_bounds _ _ _ (-31) (R1 ltac:(apply Qabs_lt; change (pow2 34) with (17179869184 # 1); lra) ltac:(auto)))
    as (N1 & E1 & E2 & _); [done|]. change (pow2 (-31)) with (1 # 2147483648) in *. clear R1.
  pose proof (SFadd_rounds _ _ ld_prec_ok ld_emax_ok _ _ 35 Ns N1) as R2.
  destruct (rounds_bounds _ _ _ (-30) (R2 ltac:(apply Qabs_lt; change (pow2 35) with (34359738368 # 1); lra) ltac:(auto)))
    as (N2 & F1 & F2 & _); [done|]. change (pow2 (-30)) with (1 # 1073741824) in *. clear R2.
  unfold ld_add, ld_sub. split_and!; [done..|lra|lra].
Qed.

(** An integer that is near a rational near an integer is near that integer. *)
Lemma near_integer a b n : inject_Z a - inject_Z b < inject_Z n → inject_Z b - inject_Z a < inject_Z n → (Z.abs (a - b) < n)%Z.
Proof.
  intros H1 H2. assert (a < n + b)%Z by (apply Z.lt_nge; intros Hc%inject_Z_le; rewrite inject_Z_plus in Hc; lra).
  assert (b < n + a)%Z by (apply Z.lt_nge; intros Hc%inject_Z_le; rewrite inject_Z_plus in Hc; lra). lia.
Qed.

Lemma call_timeout_near d clock_now system_now now s :
  (0 ≤ d < int64_max)%Z → (0 ≤ clock_now ≤ int64_max)%Z → (0 ≤ system_now ≤ int64_max)%Z → (0 ≤ now ≤ int64_max)%Z →
  ∃ t, call_timeout now (set_deadline nanoseconds nanoseconds d clock_now system_now s) = Some (Some t) ∧
    (Z.abs (t - Z.max 0 (system_now + d - clock_now - now)) ≤ 5)%Z.
Proof.
  intros Hd Hc Hs Hn. destruct (set_deadline_near d clock_now system_now s Hd Hc Hs) as (Hx & Hh & N & D1 & D2).
  set (s' := set_deadline _ _ _ _ _ _) in *. clearbody s'. destruct (nanoseconds_near now Hn) as (Nn & T1 & T2 & T3 & T4).
  destruct Hd as [Hd1 Hd2]. destruct Hc as [Hc1 Hc2]. destruct Hs as [Hs1 Hs2].
  apply (inject_Z_le 0) in Hd1 as Q1, Hc1 as Q2, Hs1 as Q3. apply Z.lt_le_incl in Hd2. apply inject_Z_le in Hd2 as Q4, Hc2 as Q5, Hs2 as Q6.
  change (inject_Z 0) with 0 in *. change (inject_Z int64_max) with (9223372036854775807 # 1) in *.
  pose proof (SFsub_rounds _ _ ld_prec_ok ld_emax_ok _ _ 35 N Nn) as R.
  destruct (rounds_bounds _ _ _ (-30) (R ltac:(apply Qabs_lt; change (pow2 35) with (34359738368 # 1); lra) ltac:(auto)))
    as (N2 & E1 & E2 & _); [done|]. change (pow2 (-30)) with (1 # 1073741824) in *. clear R.
  unfold call_timeout. rewrite Hh, Hx. cbn [negb Z.ltb Z.compare]. fold ld_sub in *. set (x := ld_sub _ _) in *.
  destruct (timeout_of_spec x N2) as (t & -> & Ht & Hcase). exists t. split; [done|].
  set (exact := (system_now + d - clock_now - now)%Z).
  assert (inject_Z exact == inject_Z system_now + inject_Z d - inject_Z clock_now - inject_Z now) as Hex.
  { unfold exact, Z.sub. rewrite !inject_Z_plus, !inject_Z_opp. ring. }
  assert (inject_Z exact * (1 # 1000000000) - val x <= 9 # 2147483648 ∧ val x - inject_Z exact * (1 # 1000000000) <= 9 # 2147483648) as [X1 X2]
    by (rewrite Hex; lra).
  change (inject_Z 1000000000) with (1000000000 # 1) in Hcase. change (pow2 (-30)) with (1 # 1073741824) in Hcase.
  destruct Hcase as [[-> H]|[[-> H]|[H1 H2]]].
  - assert (exact < 5)%Z; [|lia]. apply Z.lt_nge. intros Hge%inject_Z_le. change (inject_Z 5) with (5 # 1) in Hge. lra.
  - assert (inject_Z u64_max / (1000000000 # 1) == inject_Z u64_max * (1 # 1000000000)) as E by reflexivity. rewrite E in H.
    assert (u64_max - 6 < exact)%Z.
    { apply Z.lt_nge. intros Hge%inject_Z_le. change (inject_Z (u64_max - 6)) with (18446744073709551609 # 1) in Hge.
      change (inject_Z u64_max) with (18446744073709551615 # 1) in H. lra. }
    unfold exact, u64_max, int64_max in *. lia.
  - assert (Z.abs (t - exact) < 6)%Z; [|lia]. apply near_integer; change (inject_Z 6) with (6 # 1); lra.
Qed.

Lemma deadline_near d clock_now system_now s :
  (0 ≤ d < int64_max)%Z → (0 ≤ clock_now ≤ int64_max)%Z → (0 ≤ system_now ≤ int64_max)%Z →
  ∃ r, deadline (set_deadline nanoseconds nanoseconds d clock_now system_now s) = Some r ∧
    (Z.abs (r - Z.min int64_max (system_now + d - clock_now)) ≤ 4)%Z.
Proof.
  intros Hd Hc Hs. destruct (set_deadline_near d clock_now system_now s Hd Hc Hs) as (Hx & Hh & N & D1 & D2).
  set (s' := set_deadline _ _ _ _ _ _) in *. destruct s' as [x e h]. cbn [deadline_seconds_ deadline_extreme_ has_deadline_] in *. subst e h.
  destruct (system_time_spec x N) as (r & -> & Hr & Hcase). exists r. split; [done|].
  set (exact := (system_now + d - clock_now)%Z).
  assert (inject_Z exact == inject_Z system_now + inject_Z d - inject_Z clock_now) as Hex.
  { unfold exact, Z.sub. rewrite !inject_Z_plus, !inject_Z_opp. ring. }
  change (inject_Z 1000000000) with (1000000000 # 1) in Hcase. change (pow2 (-31)) with (1 # 2147483648) in Hcase.
  assert (∀ z, inject_Z z / (1000000000 # 1) == inject_Z z * (1 # 1000000000)) as E by reflexivity. rewrite !E in Hcase.
  destruct Hcase as [[-> H]|[[-> H]|[H1 H2]]].
  - assert (exact < int64_min + 4)%Z; [|unfold exact, int64_min, int64_max in *; lia]. apply Z.lt_nge. intros Hge%inject_Z_le.
    change (inject_Z (int64_min + 4)) with (-9223372036854775804 # 1) in Hge. change (inject_Z int64_min) with (-9223372036854775808 # 1) in H. lra.
  - assert (int64_max - 4 < exact)%Z; [|lia]. apply Z.lt_nge. intros Hge%inject_Z_le.
    change (inject_Z (int64_max - 4)) with (9223372036854775803 # 1) in Hge. change (inject_Z int64_max) with (9223372036854775807 # 1) in H. lra.
  - assert (Z.abs (r - exact) < 5)%Z; [apply near_integer; change (inject_Z 5) with (5 # 1); lra|]. destruct Hr. lia.
Qed.

(** C32. A deadline on a clock that counts nanoseconds, set when the clock reads
    [clock_now] and the system clock [system_now], between 1970 and 2262: a call that
    starts at [now] gets the time that remains up to five nanoseconds, 0 when none
    does, and [deadline] returns the same moment on the system clock up to four. *)
Theorem deadline_accuracy d clock_now system_now now s :
  (0 ≤ d < int64_max)%Z → (0 ≤ clock_now ≤ int64_max)%Z → (0 ≤ system_now ≤ int64_max)%Z → (0 ≤ now ≤ int64_max)%Z →
  let s' := set_deadline nanoseconds nanoseconds d clock_now system_now s in
  (∃ t, call_timeout now s' = Some (Some t) ∧ (Z.abs (t - Z.max 0 (system_now + d - clock_now - now)) ≤ 5)%Z) ∧
  (∃ r, deadline s' = Some r ∧ (Z.abs (r - Z.min int64_max (system_now + d - clock_now)) ≤ 4)%Z).
Proof. intros Hd Hc Hs Hn. split; [by apply call_timeout_near|by apply deadline_near]. Qed.
End Deadline.

(** ** A deadline of five seconds on the steady clock, in the extended format *)

#[local] Existing Instance extended.

Definition steady_now : Z := 81234567890123.
Definition system_now : Z := 1789542000123456789.
Definition in_five_seconds : Setting :=
  mkSetting nanoseconds nanoseconds (steady_now + 5000000000) steady_now system_now.
Definition example_context : ContextDeadline := apply_setting ContextDeadline_init in_five_seconds.

(** Then a deadline in milliseconds that is the greatest time point *)
Definition at_the_end : Setting := mkSetting (mkRatio 1 1000) nanoseconds int64_max steady_now system_now.

Lemma deadlines_defined_witness :
  let s := fold_left (apply_setting) [in_five_seconds; at_the_end] ContextDeadline_init in
  deadline s = Some int64_max ∧ call_timeout (system_now + 1000) s = Some (Some u64_max).
Proof.
  destruct (deadlines_defined [in_five_seconds; at_the_end] (system_now + 1000)) as (_ & t & Ht & _ & _ & Hmax).
  - repeat constructor; vm_compute; discriminate.
  - split; vm_compute; discriminate.
  - destruct (Hmax eq_refl) as [-> Hd]. split; [exact Hd|exact Ht].
Defined.

Lemma deadline_accuracy_witness :
  ∃ t r, call_timeout (system_now + 1000) example_context = Some (Some t) ∧ deadline example_context = Some r ∧
    t = 4999998999 ∧ Z.abs (r - (system_now + 5000000000)) ≤ 4.
Proof.
  destruct (deadline_accuracy (steady_now + 5000000000) steady_now system_now (system_now + 1000) ContextDeadline_init)
    as [(t & Ht & _) (r & Hr & Er)]; [split; vm_compute; (reflexivity || discriminate)..|].
  exists t, r. split; [exact Ht|]. split; [exact Hr|]. split; [|exact Er].
  change (call_timeout (system_now + 1000) example_context = Some (Some t)) in Ht. vm_compute in Ht. injection Ht as <-. reflexivity.
Defined.
