(* ===== verification/AbiOptions.v ===== *)
(** * Options across the C interface

    The option structures of channels and servers on their way from C++
    ([cpp/channel.hpp], [cpp/server.hpp]) through the C structures of
    [grpc_lite.h] to the checks of [src/c_api.zig], [src/channel.zig] and
    [src/server.zig].

    A C structure starts with its size, so that a program built against an older
    header passes a shorter one.  Layouts are those of the LP64 targets. *)

From S2P Require Import Prelude Status Metadata.

Local Open Scope Z_scope.

(** ** Layout of C structures *)

Inductive ctype : Set := CU32 | CU64 | CSize | CPointer | CBytesView.

Definition ctype_size (t : ctype) : Z :=
  match t with CU32 => 4 | CU64 | CSize | CPointer => 8 | CBytesView => 16 end.

Definition ctype_align (t : ctype) : Z := match t with CU32 => 4 | _ => 8 end.

Definition align_up (off a : Z) : Z := (off + a - 1) / a * a.

(** [@offsetOf] the field [i] plus its size, and [@sizeOf] *)
Fixpoint field_end_from (off : Z) (fields : list ctype) (i : nat) : Z :=
  match fields, i with
  | [], _ => off
  | t :: _, O => align_up off (ctype_align t) + ctype_size t
  | t :: fields', S i' => field_end_from (align_up off (ctype_align t) + ctype_size t) fields' i'
  end.

Definition field_end : list ctype → nat → Z := field_end_from 0.

Definition sizeof (fields : list ctype) : Z :=
  align_up (field_end fields (length fields)) 8.

(** ** Loggers *)

Definition logger_fields : list ctype := [CSize; CPointer; CPointer].

Section Options.
(** What a [user_data] pointer points to *)
Context {L : Type}.

(** [log] of the structure is whether the function pointer is set. *)
Record grpc_lite_logger := mkCLogger {
  cl_struct_size : Z;
  cl_user_data : option L;
  cl_log : bool }.

Definition GRPC_LITE_LOGGER_INIT : grpc_lite_logger := mkCLogger (sizeof logger_fields) None false.

(** [event_logger.Logger]: the context, and whether there is a callback *)
Record Logger := mkLogger { lg_context : option L; lg_callback : bool }.

Definition Logger_default : Logger := mkLogger None false.

Definition parseLogger (pointer : option grpc_lite_logger) : option Logger :=
  match pointer with
  | None => Some Logger_default
  | Some value =>
      if (cl_struct_size value <? sizeof logger_fields) || negb (cl_log value) then None
      else Some (mkLogger (cl_user_data value) (cl_log value))
  end.

(** [logger] and [c_logger] of [CreateManaged] and [Server::Create]: a logger that
    is set is wrapped, and the C structure points to it. *)
Definition c_logger (logger : option L) : option grpc_lite_logger :=
  match logger with
  | None => None
  | Some state => Some (mkCLogger (cl_struct_size GRPC_LITE_LOGGER_INIT) (Some state) true)
  end.

(** ** Channel options *)

(** [grpc_lite::ChannelOptions] *)
Record ChannelOptions := mkChannelOptions {
  co_allow_initial_offline : bool;
  co_initial_backoff_ns : Z;
  co_max_backoff_ns : Z;
  co_multiplier_millis : Z;
  co_jitter_percent : Z;
  co_logger : option L;
  co_max_response_header_list_size : Z;
  co_max_unary_calls : Z;
  co_max_unary_request_bytes : Z;
  co_max_streams : Z;
  co_max_stream_buffer_bytes : Z }.

#[export] Instance ChannelOptions_eta : Eta ChannelOptions := λ o,
  mkChannelOptions (co_allow_initial_offline o) (co_initial_backoff_ns o) (co_max_backoff_ns o)
    (co_multiplier_millis o) (co_jitter_percent o) (co_logger o) (co_max_response_header_list_size o)
    (co_max_unary_calls o) (co_max_unary_request_bytes o) (co_max_streams o) (co_max_stream_buffer_bytes o).

Definition ChannelOptions_default : ChannelOptions :=
  mkChannelOptions false 1000000000 120000000000 1600 20 None 65536 4096 67108864 1024 1073741824.

Record grpc_lite_channel_options := mkCChannelOptions {
  cc_struct_size : Z;
  cc_allow_initial_offline : Z;
  cc_initial_backoff_ns : Z;
  cc_max_backoff_ns : Z;
  cc_multiplier_millis : Z;
  cc_jitter_percent : Z;
  cc_logger : option grpc_lite_logger;
  cc_max_response_header_list_size : Z;
  cc_max_unary_calls : Z;
  cc_max_unary_request_bytes : Z;
  cc_max_streams : Z;
  cc_max_stream_buffer_bytes : Z }.

#[export] Instance grpc_lite_channel_options_eta : Eta grpc_lite_channel_options := λ o,
  mkCChannelOptions (cc_struct_size o) (cc_allow_initial_offline o) (cc_initial_backoff_ns o)
    (cc_max_backoff_ns o) (cc_multiplier_millis o) (cc_jitter_percent o) (cc_logger o)
    (cc_max_response_header_list_size o) (cc_max_unary_calls o) (cc_max_unary_request_bytes o)
    (cc_max_streams o) (cc_max_stream_buffer_bytes o).

Definition channel_options_fields : list ctype :=
  [CSize; CU32; CU64; CU64; CU32; CU32; CPointer; CU64; CU64; CU64; CU64; CU64].

Definition GRPC_LITE_CHANNEL_OPTIONS_INIT : grpc_lite_channel_options :=
  mkCChannelOptions (sizeof channel_options_fields) 0 1000000000 120000000000 1600 20 None 65536 4096
    67108864 1024 1073741824.

(** The assignments to [c_options] in [Channel::CreateManaged] *)
Definition c_channel_options (options : ChannelOptions) : grpc_lite_channel_options :=
  GRPC_LITE_CHANNEL_OPTIONS_INIT
    <| cc_allow_initial_offline := u32_of_bool (co_allow_initial_offline options) |>
    <| cc_initial_backoff_ns := co_initial_backoff_ns options |>
    <| cc_max_backoff_ns := co_max_backoff_ns options |>
    <| cc_multiplier_millis := co_multiplier_millis options |>
    <| cc_jitter_percent := co_jitter_percent options |>
    <| cc_logger := c_logger (co_logger options) |>
    <| cc_max_response_header_list_size := co_max_response_header_list_size options |>
    <| cc_max_unary_calls := co_max_unary_calls options |>
    <| cc_max_unary_request_bytes := co_max_unary_request_bytes options |>
    <| cc_max_streams := co_max_streams options |>
    <| cc_max_stream_buffer_bytes := co_max_stream_buffer_bytes options |>.

Definition channel_options_v1_size : Z := field_end channel_options_fields 5.
Definition channel_options_v2_size : Z := field_end channel_options_fields 6.
Definition channel_options_v3_size : Z := field_end channel_options_fields 7.
Definition channel_options_unary_calls_size : Z := field_end channel_options_fields 8.
Definition channel_options_unary_bytes_size : Z := field_end channel_options_fields 9.
Definition channel_options_stream_count_size : Z := field_end channel_options_fields 10.
Definition channel_options_stream_bytes_size : Z := field_end channel_options_fields 11.

(** [channel.ReconnectOptions] *)
Record ReconnectOptions := mkReconnectOptions {
  ro_allow_initial_offline : bool;
  ro_initial_backoff_ns : Z;
  ro_max_backoff_ns : Z;
  ro_multiplier_millis : Z;
  ro_jitter_percent : Z }.

Definition ReconnectOptions_default : ReconnectOptions :=
  mkReconnectOptions false 1000000000 120000000000 1600 20.

Record UnaryAdmissionOptions := mkUnaryAdmissionOptions { ua_max_calls : Z; ua_max_request_bytes : Z }.
Record StreamAdmissionOptions := mkStreamAdmissionOptions { sa_max_streams : Z; sa_max_buffer_bytes : Z }.

Definition UnaryAdmissionOptions_default : UnaryAdmissionOptions := mkUnaryAdmissionOptions 4096 67108864.
Definition StreamAdmissionOptions_default : StreamAdmissionOptions := mkStreamAdmissionOptions 1024 1073741824.

(** [ChannelCreateOptions] of the C interface *)
Record ChannelCreateOptions := mkChannelCreateOptions {
  cr_stream_admission : StreamAdmissionOptions;
  cr_unary_admission : UnaryAdmissionOptions;
  cr_reconnect : option ReconnectOptions;
  cr_logger : Logger;
  cr_max_response_header_list_size : Z }.

(** A limit that an older structure does not have, or that must not be zero *)
Definition later_limit (present : bool) (value default : Z) : option Z :=
  if present then (if (value =? 0) || (usize_max <? value) then None else Some value) else Some default.

Definition parseChannelOptions (pointer : option grpc_lite_channel_options) : option ChannelCreateOptions :=
  match pointer with
  | None =>
      Some (mkChannelCreateOptions StreamAdmissionOptions_default UnaryAdmissionOptions_default
        (Some ReconnectOptions_default) Logger_default 65536)
  | Some value =>
      if (cc_struct_size value <? channel_options_v1_size) || (1 <? cc_allow_initial_offline value)
         || (cc_initial_backoff_ns value =? 0) || (cc_max_backoff_ns value <? cc_initial_backoff_ns value)
         || (cc_multiplier_millis value <? 1000) || (100 <? cc_jitter_percent value)
      then None
      else
        max_response_header_list_size ←
          (if channel_options_v3_size <=? cc_struct_size value then
             if (cc_max_response_header_list_size value =? 0) || (u32_max <? cc_max_response_header_list_size value)
             then None else Some (cc_max_response_header_list_size value)
           else Some 65536);
        max_calls ← later_limit (channel_options_unary_calls_size <=? cc_struct_size value)
          (cc_max_unary_calls value) (ua_max_calls UnaryAdmissionOptions_default);
        max_request_bytes ← later_limit (channel_options_unary_bytes_size <=? cc_struct_size value)
          (cc_max_unary_request_bytes value) (ua_max_request_bytes UnaryAdmissionOptions_default);
        max_streams ← later_limit (channel_options_stream_count_size <=? cc_struct_size value)
          (cc_max_streams value) (sa_max_streams StreamAdmissionOptions_default);
        max_buffer_bytes ← later_limit (channel_options_stream_bytes_size <=? cc_struct_size value)
          (cc_max_stream_buffer_bytes value) (sa_max_buffer_bytes StreamAdmissionOptions_default);
        logger ← (if channel_options_v2_size <=? cc_struct_size value then parseLogger (cc_logger value)
                  else Some Logger_default);
        Some (mkChannelCreateOptions (mkStreamAdmissionOptions max_streams max_buffer_bytes)
          (mkUnaryAdmissionOptions max_calls max_request_bytes)
          (Some (mkReconnectOptions (cc_allow_initial_offline value =? 1) (cc_initial_backoff_ns value)
            (cc_max_backoff_ns value) (cc_multiplier_millis value) (cc_jitter_percent value)))
          logger max_response_header_list_size)
  end.

(** ** Server options *)

(** [grpc_lite::ServerOptions] *)
Record ServerOptions := mkServerOptions {
  so_host : string;
  so_port : Z;
  so_reactor_count : Z;
  so_max_message_size : Z;
  so_max_inbound_buffer_size : Z;
  so_max_outbound_buffer_size : Z;
  so_logger : option L;
  so_max_connections : Z;
  so_cleartext_preface_timeout_ns : Z;
  so_connection_idle_timeout_ns : Z;
  so_max_concurrent_streams_per_connection : Z }.

Definition ServerOptions_default : ServerOptions :=
  mkServerOptions "127.0.0.1" 0 1 4194304 8388608 8388608 None 1024 10000000000 300000000000 100.

Record grpc_lite_server_options := mkCServerOptions {
  cs_struct_size : Z;
  cs_host : BytesView;
  cs_port : Z;
  cs_reactor_count : Z;
  cs_max_message_size : Z;
  cs_max_inbound_buffer_size : Z;
  cs_max_outbound_buffer_size : Z;
  cs_logger : option grpc_lite_logger;
  cs_max_connections : Z;
  cs_cleartext_preface_timeout_ns : Z;
  cs_connection_idle_timeout_ns : Z;
  cs_max_concurrent_streams_per_connection : Z }.

#[export] Instance grpc_lite_server_options_eta : Eta grpc_lite_server_options := λ o,
  mkCServerOptions (cs_struct_size o) (cs_host o) (cs_port o) (cs_reactor_count o) (cs_max_message_size o)
    (cs_max_inbound_buffer_size o) (cs_max_outbound_buffer_size o) (cs_logger o) (cs_max_connections o)
    (cs_cleartext_preface_timeout_ns o) (cs_connection_idle_timeout_ns o)
    (cs_max_concurrent_streams_per_connection o).

Definition server_options_fields : list ctype :=
  [CSize; CBytesView; CU32; CU32; CU64; CU64; CU64; CPointer; CU64; CU64; CU64; CU32].

Definition GRPC_LITE_SERVER_OPTIONS_INIT : grpc_lite_server_options :=
  mkCServerOptions (sizeof server_options_fields) (mkBytesView (Some "127.0.0.1") 9) 0 1 4194304 8388608
    8388608 None 1024 10000000000 300000000000 100.

(** The assignments to [c_options] in [Server::Create] *)
Definition c_server_options (options : ServerOptions) : grpc_lite_server_options :=
  GRPC_LITE_SERVER_OPTIONS_INIT
    <| cs_host := Bytes (so_host options) |>
    <| cs_port := so_port options |>
    <| cs_reactor_count := so_reactor_count options |>
    <| cs_max_message_size := so_max_message_size options |>
    <| cs_max_inbound_buffer_size := so_max_inbound_buffer_size options |>
    <| cs_max_outbound_buffer_size := so_max_outbound_buffer_size options |>
    <| cs_logger := c_logger (so_logger options) |>
    <| cs_max_connections := so_max_connections options |>
    <| cs_cleartext_preface_timeout_ns := so_cleartext_preface_timeout_ns options |>
    <| cs_connection_idle_timeout_ns := so_connection_idle_timeout_ns options |>
    <| cs_max_concurrent_streams_per_connection := so_max_concurrent_streams_per_connection options |>.

Definition server_options_v1_size : Z := field_end server_options_fields 6.
Definition server_options_logger_size : Z := field_end server_options_fields 7.
Definition server_options_max_connections_size : Z := field_end server_options_fields 8.
Definition server_options_preface_timeout_size : Z := field_end server_options_fields 9.
Definition server_options_idle_timeout_size : Z := field_end server_options_fields 10.
Definition server_options_max_streams_size : Z := field_end server_options_fields 11.

(** [raw_stream.BufferLimits] *)
Record BufferLimits := mkBufferLimits {
  bl_max_message_size : Z;
  bl_max_inbound_buffer_size : Z;
  bl_max_outbound_buffer_size : Z }.

(** [Options] of [server.zig], the fields the C interface sets *)
Record ZServerOptions := mkZServerOptions {
  zo_host : string;
  zo_port : Z;
  zo_reactor_count : Z;
  zo_max_request_size : Z;
  zo_stream_limits : BufferLimits;
  zo_logger : Logger;
  zo_max_connections : Z;
  zo_max_concurrent_streams_per_connection : Z;
  zo_cleartext_preface_timeout_ns : Z;
  zo_connection_idle_timeout_ns : Z }.

Definition ZServerOptions_default : ZServerOptions :=
  mkZServerOptions "127.0.0.1" 0 1 4194304 (mkBufferLimits 4194304 8388608 8388608) Logger_default 1024 100
    10000000000 300000000000.

(** A timeout or limit that may be absent and has no upper bound *)
Definition later_nonzero (present : bool) (value default : Z) : option Z :=
  if present then (if value =? 0 then None else Some value) else Some default.

Definition parseServerOptions (pointer : option grpc_lite_server_options) : option ZServerOptions :=
  match pointer with
  | None => Some ZServerOptions_default
  | Some value =>
      if (cs_struct_size value <? server_options_v1_size) || (u16_max <? cs_port value)
         || (cs_reactor_count value =? 0) || (usize_max <? cs_max_message_size value)
         || (usize_max <? cs_max_inbound_buffer_size value) || (usize_max <? cs_max_outbound_buffer_size value)
      then None
      else
        host ← bytes (cs_host value);
        logger ← (if server_options_logger_size <=? cs_struct_size value then parseLogger (cs_logger value)
                  else Some Logger_default);
        max_connections ← later_limit (server_options_max_connections_size <=? cs_struct_size value)
          (cs_max_connections value) (zo_max_connections ZServerOptions_default);
        preface ← later_nonzero (server_options_preface_timeout_size <=? cs_struct_size value)
          (cs_cleartext_preface_timeout_ns value) (zo_cleartext_preface_timeout_ns ZServerOptions_default);
        idle ← later_nonzero (server_options_idle_timeout_size <=? cs_struct_size value)
          (cs_connection_idle_timeout_ns value) (zo_connection_idle_timeout_ns ZServerOptions_default);
        max_streams ← later_nonzero (server_options_max_streams_size <=? cs_struct_size value)
          (cs_max_concurrent_streams_per_connection value)
          (zo_max_concurrent_streams_per_connection ZServerOptions_default);
        Some (mkZServerOptions host (cs_port value) (cs_reactor_count value) (cs_max_message_size value)
          (mkBufferLimits (cs_max_message_size value) (cs_max_inbound_buffer_size value)
            (cs_max_outbound_buffer_size value))
          logger max_connections max_streams preface idle)
  end.

(** ** What the library checks when it gets the options *)

(** The errors of [Channel.init] that [createChannel] tells apart; [CI_other] are
    those of [else], and [CI_limits] the two errors for admission limits. *)
Inductive ChannelInitError : Set :=
  | CI_OutOfMemory | CI_InvalidTarget | CI_InvalidReconnectOptions | CI_InvalidMaxResponseHeaderListSize
  | CI_RuntimeRequired | CI_RuntimeNotInitialized | CI_limits | CI_other.

#[export] Instance ChannelInitError_eq_dec : EqDecision ChannelInitError.
Proof. solve_decision. Defined.

Definition validateReconnectOptions (options : ReconnectOptions) : option ChannelInitError :=
  if (ro_initial_backoff_ns options =? 0) || (ro_max_backoff_ns options <? ro_initial_backoff_ns options)
     || (ro_multiplier_millis options <? 1000) || (100 <? ro_jitter_percent options)
  then Some CI_InvalidReconnectOptions else None.

(** The checks at the start of [Channel.init] on the options of the C interface,
    which has no TLS and leaves the transport options at their defaults; [rest]
    is what becomes of the remaining initialisation. *)
Definition Channel_init (options : ChannelCreateOptions) (rest : option ChannelInitError)
  : option ChannelInitError :=
  if (sa_max_streams (cr_stream_admission options) =? 0) || (sa_max_buffer_bytes (cr_stream_admission options) =? 0)
  then Some CI_limits
  else if (ua_max_calls (cr_unary_admission options) =? 0) || (ua_max_request_bytes (cr_unary_admission options) =? 0)
  then Some CI_limits
  else match (reconnect ← cr_reconnect options; validateReconnectOptions reconnect) with
       | Some err => Some err
       | None =>
           if cr_max_response_header_list_size options =? 0 then Some CI_InvalidMaxResponseHeaderListSize
           else rest
       end.

Definition map_channel_init_error (err : ChannelInitError) : ZError :=
  match err with
  | CI_OutOfMemory => out_of_memory
  | CI_InvalidTarget | CI_InvalidReconnectOptions | CI_InvalidMaxResponseHeaderListSize => invalid_argument
  | CI_RuntimeRequired | CI_RuntimeNotInitialized => invalid_state
  | CI_limits | CI_other => unavailable
  end.

(** [createChannel] with somewhere to store the channel; [allocated] is whether its
    storage could be allocated.  The channel's options are returned with [ok]. *)
Definition createChannel (target : BytesView) (options : ChannelCreateOptions) (allocated : bool)
    (rest : option ChannelInitError) : ZError * option ChannelCreateOptions :=
  match bytes target with
  | None => (invalid_argument, None)
  | Some _ =>
      if negb allocated then (out_of_memory, None)
      else match Channel_init options rest with
           | Some err => (map_channel_init_error err, None)
           | None => (ok, Some options)
           end
  end.

Definition grpc_lite_channel_create_managed (target : BytesView)
    (options_pointer : option grpc_lite_channel_options) (allocated : bool) (rest : option ChannelInitError)
    : ZError * option ChannelCreateOptions :=
  match parseChannelOptions options_pointer with
  | None => (invalid_argument, None)
  | Some options => createChannel target options allocated rest
  end.

(** [Channel::CreateManaged] with [out] not null: the error and the options of the
    channel that [*out] becomes. *)
Definition CreateManaged (target : string) (options : ChannelOptions) (allocated : bool)
    (rest : option ChannelInitError) : Error * option ChannelCreateOptions :=
  let '(result, channel) :=
    grpc_lite_channel_create_managed (Bytes target) (Some (c_channel_options options)) allocated rest in
  let error := Error_of_c result in
  if Error_ok error then (Error_default, channel) else (error, None).

(** [BufferLimits.validate], with which error is left out: all become
    [invalid_argument]. *)
Definition BufferLimits_validate (l : BufferLimits) : bool :=
  negb (bl_max_message_size l =? 0) &&
  match add_usize (bl_max_message_size l) 5 with
  | None => false
  | Some minimum_wire_size =>
      negb (bl_max_inbound_buffer_size l <? minimum_wire_size) &&
      negb (bl_max_outbound_buffer_size l <? minimum_wire_size)
  end.

(** The default of [initial_stream_window_size], which the C interface keeps *)
Definition initial_stream_window_size : Z := 65536.

(** [Server.init] up to its allocations; [rest] is their result. *)
Definition Server_init (options : ZServerOptions) (rest : ZError) : ZError :=
  if (zo_reactor_count options =? 0) || (zo_max_connections options =? 0)
     || (zo_max_concurrent_streams_per_connection options =? 0)
     || (zo_cleartext_preface_timeout_ns options =? 0) || (zo_connection_idle_timeout_ns options =? 0)
     || negb (BufferLimits_validate (zo_stream_limits options))
     || (bl_max_inbound_buffer_size (zo_stream_limits options) <? initial_stream_window_size)
  then invalid_argument else rest.

(** [Server::Create] with [out] not null, through [grpc_lite_server_create] *)
Definition Server_Create (options : ServerOptions) (allocated : bool) (rest : ZError)
    : Error * option ZServerOptions :=
  let result :=
    match parseServerOptions (Some (c_server_options options)) with
    | None => (invalid_argument, None)
    | Some parsed =>
        if negb allocated then (out_of_memory, None)
        else match Server_init parsed rest with ok => (ok, Some parsed) | err => (err, None) end
    end in
  if Error_ok (Error_of_c result.1) then (Error_default, result.2) else (Error_of_c result.1, None).
End Options.

Arguments grpc_lite_logger : clear implicits.
Arguments Logger : clear implicits.
Arguments ChannelOptions : clear implicits.
Arguments grpc_lite_channel_options : clear implicits.
Arguments ChannelCreateOptions : clear implicits.
Arguments ServerOptions : clear implicits.
Arguments grpc_lite_server_options : clear implicits.
Arguments ZServerOptions : clear implicits.

(** ** Reading no more than the caller's structure has *)

(** The caller's structure as one of the current version: a field that lies
    within the size the caller gave is the caller's, any other the default. *)
Definition channel_options_completed {L} (a : grpc_lite_channel_options L) : grpc_lite_channel_options L :=
  let field (i : nat) {T} (f : grpc_lite_channel_options L → T) :=
    if field_end channel_options_fields i <=? cc_struct_size a then f a else f GRPC_LITE_CHANNEL_OPTIONS_INIT in
  mkCChannelOptions (sizeof channel_options_fields)
    (field 1%nat cc_allow_initial_offline) (field 2%nat cc_initial_backoff_ns) (field 3%nat cc_max_backoff_ns)
    (field 4%nat cc_multiplier_millis) (field 5%nat cc_jitter_percent) (field 6%nat cc_logger)
    (field 7%nat cc_max_response_header_list_size) (field 8%nat cc_max_unary_calls)
    (field 9%nat cc_max_unary_request_bytes) (field 10%nat cc_max_streams)
    (field 11%nat cc_max_stream_buffer_bytes).

Definition server_options_completed {L} (a : grpc_lite_server_options L) : grpc_lite_server_options L :=
  let field (i : nat) {T} (f : grpc_lite_server_options L → T) :=
    if field_end server_options_fields i <=? cs_struct_size a then f a else f GRPC_LITE_SERVER_OPTIONS_INIT in
  mkCServerOptions (sizeof server_options_fields)
    (field 1%nat cs_host) (field 2%nat cs_port) (field 3%nat cs_reactor_count) (field 4%nat cs_max_message_size)
    (field 5%nat cs_max_inbound_buffer_size) (field 6%nat cs_max_outbound_buffer_size) (field 7%nat cs_logger)
    (field 8%nat cs_max_connections) (field 9%nat cs_cleartext_preface_timeout_ns)
    (field 10%nat cs_connection_idle_timeout_ns) (field 11%nat cs_max_concurrent_streams_per_connection).

(** Evaluates offsets and sizes of structures. *)
Ltac compute_layout :=
  repeat match goal with
  | |- context [field_end ?fields ?i] =>
      let v := eval vm_compute in (field_end fields i) in change (field_end fields i) with v
  | |- context [sizeof ?fields] => let v := eval vm_compute in (sizeof fields) in change (sizeof fields) with v
  end.

(** Decides the tests of the size of the caller's structure. *)
Ltac size_tests size :=
  repeat match goal with
  | |- context [?n <=? size] => destruct (Z.leb_spec n size); try lia
  end.

Lemma parseChannelOptions_completed {L} (a : grpc_lite_channel_options L) :
  parseChannelOptions (Some a) =
    if cc_struct_size a <? channel_options_v1_size then None
    else parseChannelOptions (Some (channel_options_completed a)).
Proof.
  destruct a as [size allow initial max mult jitter logger hdr calls bytes streams buf].
  unfold parseChannelOptions, channel_options_completed, channel_options_v1_size, channel_options_v2_size,
    channel_options_v3_size, channel_options_unary_calls_size, channel_options_unary_bytes_size,
    channel_options_stream_count_size, channel_options_stream_bytes_size.
  compute_layout. cbv zeta beta. cbn -[Z.leb Z.ltb Z.eqb later_limit parseLogger].
  destruct (Z.ltb_spec size 40) as [|Hs]; [done|].
  size_tests size; done.
Qed.

Lemma parseServerOptions_completed {L} (a : grpc_lite_server_options L) :
  parseServerOptions (Some a) =
    if cs_struct_size a <? server_options_v1_size then None
    else parseServerOptions (Some (server_options_completed a)).
Proof.
  destruct a as [size host port reactors msg inb outb logger conns preface idle streams].
  unfold parseServerOptions, server_options_completed, server_options_v1_size, server_options_logger_size,
    server_options_max_connections_size, server_options_preface_timeout_size, server_options_idle_timeout_size,
    server_options_max_streams_size.
  compute_layout. cbv zeta beta. cbn -[Z.leb Z.ltb Z.eqb later_limit later_nonzero parseLogger bytes].
  destruct (Z.ltb_spec size 56) as [|Hs]; [done|].
  size_tests size; done.
Qed.

(** ** What becomes of a channel's and a server's options *)

Definition limit_valid (value : Z) : bool := negb ((value =? 0) || (usize_max <? value)).

Definition channel_options_valid {L} (o : ChannelOptions L) : bool :=
  negb (co_initial_backoff_ns o =? 0) && (co_initial_backoff_ns o <=? co_max_backoff_ns o) &&
  (1000 <=? co_multiplier_millis o) && (co_jitter_percent o <=? 100) &&
  negb (co_max_response_header_list_size o =? 0) && (co_max_response_header_list_size o <=? u32_max) &&
  limit_valid (co_max_unary_calls o) && limit_valid (co_max_unary_request_bytes o) &&
  limit_valid (co_max_streams o) && limit_valid (co_max_stream_buffer_bytes o).

Definition channel_options_meaning {L} (o : ChannelOptions L) : ChannelCreateOptions L :=
  mkChannelCreateOptions
    (mkStreamAdmissionOptions (co_max_streams o) (co_max_stream_buffer_bytes o))
    (mkUnaryAdmissionOptions (co_max_unary_calls o) (co_max_unary_request_bytes o))
    (Some (mkReconnectOptions (co_allow_initial_offline o) (co_initial_backoff_ns o) (co_max_backoff_ns o)
      (co_multiplier_millis o) (co_jitter_percent o)))
    (mkLogger (co_logger o) (bool_decide (is_Some (co_logger o))))
    (co_max_response_header_list_size o).

Lemma parseLogger_c_logger {L} (logger : option L) :
  parseLogger (c_logger logger) = Some (mkLogger logger (bool_decide (is_Some logger))).
Proof. by destruct logger. Qed.

Lemma u32_of_bool_range b : (1 <? u32_of_bool b) = false ∧ (u32_of_bool b =? 1) = b.
Proof. by destruct b. Qed.

Lemma later_limit_true value d : later_limit true value d = if limit_valid value then Some value else None.
Proof. unfold later_limit, limit_valid. by destruct (_ || _). Qed.

#[local] Arguments later_limit : simpl never.
#[local] Arguments later_nonzero : simpl never.
#[local] Arguments parseLogger : simpl never.
#[local] Arguments limit_valid : simpl never.

Lemma parse_c_channel_options {L} (o : ChannelOptions L) :
  parseChannelOptions (Some (c_channel_options o)) =
    if channel_options_valid o then Some (channel_options_meaning o) else None.
Proof.
  destruct o as [allow initial max mult jitter logger hdr calls bytes streams buf].
  unfold parseChannelOptions, channel_options_valid, channel_options_meaning, c_channel_options. simpl.
  change (channel_options_v2_size <=? 88) with true.
  rewrite parseLogger_c_logger. destruct (u32_of_bool_range allow) as [-> ->].
  rewrite !later_limit_true, (Z.leb_antisym max initial), (Z.leb_antisym mult 1000), (Z.leb_antisym 100 jitter),
    (Z.leb_antisym u32_max hdr).
  destruct (initial =? 0), (max <? initial), (mult <? 1000), (100 <? jitter); try done.
  destruct (hdr =? 0), (u32_max <? hdr); try done.
  destruct (limit_valid calls), (limit_valid bytes), (limit_valid streams), (limit_valid buf); done.
Qed.

Lemma Channel_init_valid {L} (o : ChannelOptions L) rest :
  channel_options_valid o = true → Channel_init (channel_options_meaning o) rest = rest.
Proof.
  unfold channel_options_valid, Channel_init, channel_options_meaning, validateReconnectOptions, limit_valid. simpl.
  rewrite (Z.leb_antisym (co_max_backoff_ns o)), (Z.leb_antisym _ 1000), (Z.leb_antisym 100).
  rewrite !andb_true_iff, !negb_true_iff, !orb_false_iff. intros ([[[[[[[[-> ->] ->] ->] ->] _] [-> _]] [-> _]] [-> _]] & -> & _).
  done.
Qed.

(** A channel gets exactly the options that C++ asked for, or creation fails with
    the error for the reason. *)
Lemma CreateManaged_exact {L} target (o : ChannelOptions L) allocated rest :
  CreateManaged target o allocated rest =
    if channel_options_valid o then
      if allocated then
        match rest with
        | None => (Error_default, Some (channel_options_meaning o))
        | Some err => (Error_of_c (map_channel_init_error err), None)
        end
      else (Error_of_c out_of_memory, None)
    else (Error_of_c invalid_argument, None).
Proof.
  unfold CreateManaged, grpc_lite_channel_create_managed, createChannel.
  rewrite parse_c_channel_options. destruct (channel_options_valid o) eqn:Hv; [|done].
  rewrite bytes_Bytes. destruct allocated; [|done]. simpl. rewrite Channel_init_valid by done.
  by destruct rest as [[]|].
Qed.

(** A server can be created with these options. *)
Definition server_options_valid {L} (o : ServerOptions L) : bool :=
  (so_port o <=? u16_max) && negb (so_reactor_count o =? 0) && negb (so_max_message_size o =? 0) &&
  (so_max_message_size o + 5 <=? so_max_inbound_buffer_size o) &&
  (so_max_message_size o + 5 <=? so_max_outbound_buffer_size o) &&
  (so_max_inbound_buffer_size o <=? usize_max) && (so_max_outbound_buffer_size o <=? usize_max) &&
  (initial_stream_window_size <=? so_max_inbound_buffer_size o) && limit_valid (so_max_connections o) &&
  negb (so_cleartext_preface_timeout_ns o =? 0) && negb (so_connection_idle_timeout_ns o =? 0) &&
  negb (so_max_concurrent_streams_per_connection o =? 0).

Definition server_options_meaning {L} (o : ServerOptions L) : ZServerOptions L :=
  mkZServerOptions (so_host o) (so_port o) (so_reactor_count o) (so_max_message_size o)
    (mkBufferLimits (so_max_message_size o) (so_max_inbound_buffer_size o) (so_max_outbound_buffer_size o))
    (mkLogger (so_logger o) (bool_decide (is_Some (so_logger o)))) (so_max_connections o)
    (so_max_concurrent_streams_per_connection o) (so_cleartext_preface_timeout_ns o)
    (so_connection_idle_timeout_ns o).

(** The checks of [parseServerOptions] on a structure of the current size *)
Definition server_options_parse {L} (o : ServerOptions L) : bool :=
  (so_port o <=? u16_max) && negb (so_reactor_count o =? 0) && (so_max_message_size o <=? usize_max) &&
  (so_max_inbound_buffer_size o <=? usize_max) && (so_max_outbound_buffer_size o <=? usize_max) &&
  limit_valid (so_max_connections o) && negb (so_cleartext_preface_timeout_ns o =? 0) &&
  negb (so_connection_idle_timeout_ns o =? 0) && negb (so_max_concurrent_streams_per_connection o =? 0).

Lemma later_nonzero_true value d : later_nonzero true value d = if negb (value =? 0) then Some value else None.
Proof. unfold later_nonzero. by destruct (value =? 0). Qed.

Lemma parse_c_server_options {L} (o : ServerOptions L) :
  parseServerOptions (Some (c_server_options o)) =
    if server_options_parse o then Some (server_options_meaning o) else None.
Proof.
  destruct o as [host port reactors msg inb outb logger conns preface idle streams].
  unfold parseServerOptions, server_options_parse, server_options_meaning, c_server_options. simpl.
  change (server_options_logger_size <=? 96) with true.
  rewrite parseLogger_c_logger, bytes_Bytes, later_limit_true, !later_nonzero_true,
    (Z.leb_antisym u16_max port), (Z.leb_antisym usize_max msg), (Z.leb_antisym usize_max inb),
    (Z.leb_antisym usize_max outb).
  destruct (u16_max <? port), (reactors =? 0), (usize_max <? msg), (usize_max <? inb), (usize_max <? outb); try done.
  destruct (limit_valid conns), (preface =? 0), (idle =? 0), (streams =? 0); done.
Qed.

Lemma Server_init_exact {L} (o : ServerOptions L) rest :
  server_options_parse o = true →
  Server_init (server_options_meaning o) rest = if server_options_valid o then rest else invalid_argument.
Proof.
  unfold server_options_parse, server_options_valid, Server_init, BufferLimits_validate, limit_valid, add_usize. simpl.
  rewrite !andb_true_iff, !negb_true_iff, !orb_false_iff.
  intros ((((((((Hp & Hr) & Hm) & Hi) & Ho) & Hc & Hc') & Hpr) & Hid) & Hst).
  rewrite Hp, Hr, Hi, Ho, Hc, Hc', Hpr, Hid, Hst. simpl. rewrite ?andb_true_r, ?orb_false_r.
  destruct (Z.eqb_spec (so_max_message_size o) 0); [done|]. simpl.
  rewrite Z.leb_le in Hi, Ho.
  destruct (Z.leb_spec (so_max_message_size o + 5) usize_max).
  - rewrite <- !Z.leb_antisym, negb_andb, <- !Z.ltb_antisym.
    rewrite !(Z.leb_antisym _ (so_max_message_size o + 5)), (Z.leb_antisym _ initial_stream_window_size).
    by destruct (so_max_inbound_buffer_size o <? so_max_message_size o + 5),
      (so_max_outbound_buffer_size o <? _), (so_max_inbound_buffer_size o <? _).
  - simpl. by rewrite (proj2 (Z.leb_gt _ (so_max_inbound_buffer_size o))) by lia.
Qed.

(** A server gets exactly the options that C++ asked for, or creation fails with
    the error for the reason. *)
Lemma Server_Create_exact {L} (o : ServerOptions L) allocated rest :
  Server_Create o allocated rest =
    if server_options_parse o then
      if negb allocated then (Error_of_c out_of_memory, None)
      else if server_options_valid o then
        match rest with ok => (Error_default, Some (server_options_meaning o)) | err => (Error_of_c err, None) end
      else (Error_of_c invalid_argument, None)
    else (Error_of_c invalid_argument, None).
Proof.
  unfold Server_Create. rewrite parse_c_server_options.
  destruct (server_options_parse o) eqn:Hp; [|done]. destruct allocated; [|done]. simpl.
  rewrite Server_init_exact by done. destruct (server_options_valid o); [|done]. by destruct rest.
Qed.

(** C34. The options of a caller that was built against an older header: no field
    beyond the size that the caller gave is read, every such field has its
    default, and a structure that lacks a field of the first version is refused. *)
Theorem older_callers_get_defaults :
  (∀ L (a : grpc_lite_channel_options L),
     parseChannelOptions (Some a) =
       if cc_struct_size a <? channel_options_v1_size then None
       else parseChannelOptions (Some (channel_options_completed a))) ∧
  (∀ L (a : grpc_lite_server_options L),
     parseServerOptions (Some a) =
       if cs_struct_size a <? server_options_v1_size then None
       else parseServerOptions (Some (server_options_completed a))).
Proof. split; intros; [apply parseChannelOptions_completed|apply parseServerOptions_completed]. Qed.
