(* ===== verification/ChannelConstruction.v ===== *)
(** * Making a channel

    [grpc::ChannelArguments] ([grpcpp/channel_arguments.h]), channel credentials
    ([grpcpp/security/credentials.h]) and the constructor of [grpc::Channel]
    ([grpcpp/channel.h], [grpcpp/create_channel.h]).  The setters take what the
    application passes, numbers as [double] included, and record the last error
    instead of throwing. *)

From S2P Require Import Prelude Doubles Status Metadata AbiOptions.

Local Open Scope Z_scope.

(** ** [grpc::ChannelArguments] *)

Section Arguments.
Context {L : Type}.

Record ChannelArguments := mkChannelArguments {
  ca_options : ChannelOptions L;
  ca_compression : Compression;
  ca_status : grpc_Status }.

#[export] Instance ChannelArguments_eta : Eta ChannelArguments := λ a,
  mkChannelArguments (ca_options a) (ca_compression a) (ca_status a).

Definition ChannelArguments_init : ChannelArguments :=
  mkChannelArguments (ChannelOptions_default <| co_allow_initial_offline := true |>) Identity grpc_Status_default.

Definition SetAllowInitialOffline (allow : bool) (a : ChannelArguments) : ChannelArguments :=
  a <| ca_options := (ca_options a) <| co_allow_initial_offline := allow |> |>.

(** [SetBackoffMs]: the value for [*output], [None] when the argument is refused.
    [milliseconds] is an [int]. *)
Definition SetBackoffMs (milliseconds : Z) : option Z :=
  if milliseconds <? 0 then None else Some (cast_u64 (cast_u64 milliseconds * 1000000)).

Definition negative_backoff : grpc_Status :=
  grpc_Status_make INVALID_ARGUMENT "reconnect backoff must not be negative".

Definition SetInitialReconnectBackoffMs (milliseconds : Z) (a : ChannelArguments) : ChannelArguments :=
  match SetBackoffMs milliseconds with
  | None => a <| ca_status := negative_backoff |>
  | Some output => a <| ca_options := (ca_options a) <| co_initial_backoff_ns := output |> |>
  end.

Definition SetMinReconnectBackoffMs (milliseconds : Z) (a : ChannelArguments) : ChannelArguments :=
  match SetBackoffMs milliseconds with
  | None => a <| ca_status := negative_backoff |>
  | Some output => a <| ca_options := (ca_options a) <| co_initial_backoff_ns := output |> |>
  end.

Definition SetMaxReconnectBackoffMs (milliseconds : Z) (a : ChannelArguments) : ChannelArguments :=
  match SetBackoffMs milliseconds with
  | None => a <| ca_status := negative_backoff |>
  | Some output => a <| ca_options := (ca_options a) <| co_max_backoff_ns := output |> |>
  end.

(** The largest multiplier,
    [static_cast<double>(std::numeric_limits<std::uint32_t>::max()) / 1000.0] *)
Definition max_multiplier : spec_float := double_div (double_of_Z u32_max) (double_of_Z 1000).

(** [None] is a conversion to [std::uint32_t] that is undefined. *)
Definition SetReconnectBackoffMultiplier (multiplier : double) (a : ChannelArguments) : option ChannelArguments :=
  if negb (isfinite multiplier) || SFltb multiplier (double_of_Z 1) || SFltb max_multiplier multiplier
  then Some (a <| ca_status := grpc_Status_make INVALID_ARGUMENT "invalid reconnect backoff multiplier" |>)
  else
    multiplier_millis ← uint32_of_double (double_mul multiplier (double_of_Z 1000));
    Some (a <| ca_options := (ca_options a) <| co_multiplier_millis := multiplier_millis |> |>).

Definition SetReconnectBackoffJitter (jitter : double) (a : ChannelArguments) : option ChannelArguments :=
  if negb (isfinite jitter) || SFltb jitter (double_of_Z 0) || SFltb (double_of_Z 1) jitter
  then Some (a <| ca_status := grpc_Status_make INVALID_ARGUMENT "invalid reconnect backoff jitter" |>)
  else
    jitter_percent ← uint32_of_double (double_mul jitter (double_of_Z 100));
    Some (a <| ca_options := (ca_options a) <| co_jitter_percent := jitter_percent |> |>).

Definition SetCompressionAlgorithm (algorithm : grpc_compression_algorithm) (a : ChannelArguments)
  : ChannelArguments :=
  match algorithm with
  | GRPC_COMPRESS_NONE => a <| ca_compression := Identity |>
  | GRPC_COMPRESS_GZIP => a <| ca_compression := Gzip |>
  | _ =>
      a <| ca_status := grpc_Status_make UNIMPLEMENTED "only identity and gzip compression are supported" |>
  end.

Definition SetDefaultCompressionAlgorithm : grpc_compression_algorithm → ChannelArguments → ChannelArguments :=
  SetCompressionAlgorithm.

Definition SetLogger (logger : option L) (a : ChannelArguments) : ChannelArguments :=
  a <| ca_options := (ca_options a) <| co_logger := logger |> |>.

(** What an application calls on its arguments *)
Inductive Setter : Type :=
  | DoSetAllowInitialOffline (allow : bool)
  | DoSetInitialReconnectBackoffMs (milliseconds : Z)
  | DoSetMinReconnectBackoffMs (milliseconds : Z)
  | DoSetMaxReconnectBackoffMs (milliseconds : Z)
  | DoSetReconnectBackoffMultiplier (multiplier : double)
  | DoSetReconnectBackoffJitter (jitter : double)
  | DoSetCompressionAlgorithm (algorithm : grpc_compression_algorithm)
  | DoSetDefaultCompressionAlgorithm (algorithm : grpc_compression_algorithm)
  | DoSetLogger (logger : option L).

Definition set_argument (a : ChannelArguments) (s : Setter) : option ChannelArguments :=
  match s with
  | DoSetAllowInitialOffline allow => Some (SetAllowInitialOffline allow a)
  | DoSetInitialReconnectBackoffMs ms => Some (SetInitialReconnectBackoffMs ms a)
  | DoSetMinReconnectBackoffMs ms => Some (SetMinReconnectBackoffMs ms a)
  | DoSetMaxReconnectBackoffMs ms => Some (SetMaxReconnectBackoffMs ms a)
  | DoSetReconnectBackoffMultiplier x => SetReconnectBackoffMultiplier x a
  | DoSetReconnectBackoffJitter x => SetReconnectBackoffJitter x a
  | DoSetCompressionAlgorithm algorithm => Some (SetCompressionAlgorithm algorithm a)
  | DoSetDefaultCompressionAlgorithm algorithm => Some (SetDefaultCompressionAlgorithm algorithm a)
  | DoSetLogger logger => Some (SetLogger logger a)
  end.

(** ** The constructor of [grpc::Channel] *)

(** [ChannelCredentials] and [InsecureCredentials] *)
Inductive ChannelCredentials : Set := OtherCredentials | InsecureCredentials.

#[export] Instance ChannelCredentials_eq_dec : EqDecision ChannelCredentials.
Proof. solve_decision. Defined.

Definition is_insecure (c : ChannelCredentials) : bool :=
  match c with InsecureCredentials => true | OtherCredentials => false end.

Definition InsecureChannelCredentials : option ChannelCredentials := Some InsecureCredentials.

(** The members of [grpc::Channel]; [channel_] is its options once it is created. *)
Record Channel := mkChannel {
  ch_channel : option (ChannelCreateOptions L);
  ch_compression : Compression;
  ch_construction_status : grpc_Status;
  ch_channel_ready : bool }.

Definition Channel_construct (target : string) (credentials : option ChannelCredentials)
    (arguments : ChannelArguments) (allocated : bool) (rest : option ChannelInitError) : Channel :=
  let failed status := mkChannel None Identity status false in
  if negb (match credentials with Some c => is_insecure c | None => false end) then
    failed (grpc_Status_make UNIMPLEMENTED "only insecure channel credentials are supported")
  else if negb (grpc_Status_ok (ca_status arguments)) then failed (ca_status arguments)
  else
    let '(error, channel) := CreateManaged target (ca_options arguments) allocated rest in
    if negb (Error_ok error) then failed (ErrorStatus error)
    else mkChannel channel (ca_compression arguments) grpc_Status_default true.

Definition CreateCustomChannel : string → option ChannelCredentials → ChannelArguments → bool →
    option ChannelInitError → Channel := Channel_construct.

Definition CreateChannel (target : string) (credentials : option ChannelCredentials)
    : bool → option ChannelInitError → Channel :=
  Channel_construct target credentials ChannelArguments_init.
End Arguments.

Arguments ChannelArguments : clear implicits.
Arguments Setter : clear implicits.
Arguments Channel : clear implicits.

(** ** Bounds of the doubles the setters accept *)

Definition le_scaled (m e m' e' : Z) : Prop := e ≤ e' ∧ m ≤ m' * 2 ^ (e' - e).

(** Canonical numbers are ordered by exponent first. *)
Lemma SFltb_false_le m e m' e' :
  bounded prec emax m e = true → bounded prec emax m' e' = true →
  SFltb (S754_finite false m e) (S754_finite false m' e') = false →
  le_scaled (Z.pos m') e' (Z.pos m) e.
Proof.
  unfold bounded, canonical_mantissa, fexp, emin, SFltb, SFcompare. rewrite !andb_true_iff, !Z.eqb_eq.
  intros [Hc _] [Hc' _] H. pose proof (digits2_pos_bounds m) as Hd. pose proof (digits2_pos_bounds m') as Hd'.
  destruct (Z.compare_spec e e') as [->|Hlt|Hgt]; [|done|].
  - split; [lia|]. rewrite Z.sub_diag, Z.mul_1_r. change (Pos.compare_cont Eq m m') with (Pos.compare m m') in H.
    destruct (Pos.compare_spec m m'); simplify_eq; lia.
  - split; [lia|]. assert (Z.pos (digits2_pos m) = 53) as Hm by lia. rewrite Hm in Hd.
    assert (2 ^ Z.pos (digits2_pos m') ≤ 2 ^ 53) by (apply Z.pow_le_mono_r; lia).
    assert (2 ^ 1 ≤ 2 ^ (e - e')) by (apply Z.pow_le_mono_r; lia). nia.
Qed.

Lemma double_of_1000 : double_of_Z 1000 = S754_finite false 8796093022208000 (-43).
Proof. reflexivity. Qed.
Lemma double_of_100 : double_of_Z 100 = S754_finite false 7036874417766400 (-46).
Proof. reflexivity. Qed.
Lemma double_of_1 : double_of_Z 1 = S754_finite false 4503599627370496 (-52).
Proof. reflexivity. Qed.
Lemma max_multiplier_eq : max_multiplier = S754_finite false 4611686017353646 (-30).
Proof. vm_compute. reflexivity. Qed.

Lemma uint32_of_double_trunc x z : trunc x = Some z → 0 ≤ z ≤ u32_max → uint32_of_double x = Some z.
Proof.
  unfold uint32_of_double. intros -> Hz.
  by rewrite (proj2 (Z.leb_le 0 z)), (proj2 (Z.leb_le z u32_max)) by lia.
Qed.

(** An accepted multiplier becomes a number of thousandths that the library
    accepts; the conversion is defined. *)
Lemma multiplier_in_range (x : double) :
  isfinite x = true → SFltb x (double_of_Z 1) = false → SFltb max_multiplier x = false →
  ∃ z, uint32_of_double (double_mul x (double_of_Z 1000)) = Some z ∧ 1000 ≤ z ≤ u32_max.
Proof.
  rewrite double_of_1, double_of_1000, max_multiplier_eq.
  destruct x as [[s|s| |[] m e] Hv]; simpl double_value; try done; intros _ Hlo Hhi. simpl in Hv.
  apply SFltb_false_le in Hlo as [Hel Hlo]; [|done..]. apply SFltb_false_le in Hhi as [Heh Hhi]; [|done..].
  destruct (round_between (Z.pos m * 8796093022208000) (e + -43) 1000 u32_max) as (z & Hz & Hr).
  - lia.
  - lia.
  - lia.
  - done.
  - replace (- (e + -43)) with (- e + 43) by lia. rewrite Z.pow_add_r by lia.
    assert (2 ^ (- e) ≤ Z.pos m).
    { assert (2 ^ 52 = 2 ^ (- e) * 2 ^ (e - -52)) by (rewrite <- Z.pow_add_r by lia; f_equal; lia).
      assert (0 < 2 ^ (e - -52)) by (apply Z.pow_pos_nonneg; lia). nia. }
    assert (2 ^ (- e) = 2 ^ (-30 - e) * 2 ^ 30) by (rewrite <- Z.pow_add_r by lia; f_equal; lia).
    unfold u32_max. lia.
  - exists z. split; [|done]. apply uint32_of_double_trunc; [exact Hz|lia].
Qed.

Lemma jitter_in_range (x : double) :
  isfinite x = true → SFltb x (double_of_Z 0) = false → SFltb (double_of_Z 1) x = false →
  ∃ z, uint32_of_double (double_mul x (double_of_Z 100)) = Some z ∧ 0 ≤ z ≤ 100.
Proof.
  rewrite double_of_1, double_of_100.
  destruct x as [[s|s| |[] m e] Hv]; simpl double_value; try done; intros _ Hlo Hhi.
  { exists 0. by destruct s. }
  simpl in Hv. apply SFltb_false_le in Hhi as [Heh Hhi]; [|done..].
  destruct (round_between (Z.pos m * 7036874417766400) (e + -46) 0 100) as (z & Hz & Hr).
  - lia.
  - lia.
  - lia.
  - done.
  - replace (- (e + -46)) with (- e + 46) by lia. rewrite Z.pow_add_r by lia.
    assert (2 ^ (- e) = 2 ^ (-52 - e) * 2 ^ 52) by (rewrite <- Z.pow_add_r by lia; f_equal; lia). lia.
  - exists z. split; [|done]. apply uint32_of_double_trunc; [exact Hz|unfold u32_max; lia].
Qed.

(** ** What the setters leave in the arguments *)

Section Setters.
Context {L : Type}.

(** The arguments of the setters have the types of the interface. *)
Definition setter_typed (s : Setter L) : Prop :=
  match s with
  | DoSetInitialReconnectBackoffMs ms | DoSetMinReconnectBackoffMs ms | DoSetMaxReconnectBackoffMs ms => in_int32 ms
  | _ => True
  end.

(** The setter does not record an error. *)
Definition setter_accepted (s : Setter L) : bool :=
  match s with
  | DoSetInitialReconnectBackoffMs ms | DoSetMinReconnectBackoffMs ms | DoSetMaxReconnectBackoffMs ms => 0 <=? ms
  | DoSetReconnectBackoffMultiplier x =>
      isfinite x && negb (SFltb x (double_of_Z 1)) && negb (SFltb max_multiplier x)
  | DoSetReconnectBackoffJitter x => isfinite x && negb (SFltb x (double_of_Z 0)) && negb (SFltb (double_of_Z 1) x)
  | DoSetCompressionAlgorithm c | DoSetDefaultCompressionAlgorithm c =>
      match c with GRPC_COMPRESS_NONE | GRPC_COMPRESS_GZIP => true | _ => false end
  | _ => true
  end.

(** *** What the application has asked for

    Each option has the value of the last setter for it that was accepted, and its
    default when there is none; this is read off the calls and not from the code of the
    setters. *)

Definition asked_offline (s : Setter L) : option bool :=
  match s with DoSetAllowInitialOffline allow => Some allow | _ => None end.

(** In nanoseconds; the two names are for the same option. *)
Definition asked_initial_backoff (s : Setter L) : option Z :=
  match s with
  | DoSetInitialReconnectBackoffMs ms | DoSetMinReconnectBackoffMs ms => if 0 <=? ms then Some (ms * 1000000) else None
  | _ => None
  end.

Definition asked_max_backoff (s : Setter L) : option Z :=
  match s with DoSetMaxReconnectBackoffMs ms => if 0 <=? ms then Some (ms * 1000000) else None | _ => None end.

(** Thousandths and percents: the product as a [double], truncated *)
Definition asked_multiplier (s : Setter L) : option Z :=
  match s with
  | DoSetReconnectBackoffMultiplier x => if setter_accepted s then trunc (double_mul x (double_of_Z 1000)) else None
  | _ => None
  end.

Definition asked_jitter (s : Setter L) : option Z :=
  match s with
  | DoSetReconnectBackoffJitter x => if setter_accepted s then trunc (double_mul x (double_of_Z 100)) else None
  | _ => None
  end.

Definition asked_logger (s : Setter L) : option (option L) := match s with DoSetLogger logger => Some logger | _ => None end.

Definition asked_compression (s : Setter L) : option Compression :=
  match s with
  | DoSetCompressionAlgorithm c | DoSetDefaultCompressionAlgorithm c =>
      match c with GRPC_COMPRESS_NONE => Some Identity | GRPC_COMPRESS_GZIP => Some Gzip | _ => None end
  | _ => None
  end.

Definition last_asked {A} (f : Setter L → option A) (default_value : A) (ss : list (Setter L)) : A :=
  default default_value (last (omap f ss)).

Definition asked_options (ss : list (Setter L)) : ChannelOptions L :=
  let d := ChannelOptions_default in
  mkChannelOptions (last_asked asked_offline true ss) (last_asked asked_initial_backoff (co_initial_backoff_ns d) ss)
    (last_asked asked_max_backoff (co_max_backoff_ns d) ss) (last_asked asked_multiplier (co_multiplier_millis d) ss)
    (last_asked asked_jitter (co_jitter_percent d) ss) (last_asked asked_logger (co_logger d) ss)
    (co_max_response_header_list_size d) (co_max_unary_calls d) (co_max_unary_request_bytes d) (co_max_streams d)
    (co_max_stream_buffer_bytes d).

Lemma last_asked_snoc {A} (f : Setter L → option A) d ss s : last_asked f d (ss ++ [s]) = default (last_asked f d ss) (f s).
Proof.
  unfold last_asked. rewrite omap_app. simpl. destruct (f s); simpl; [by rewrite last_snoc|by rewrite app_nil_r].
Qed.

Lemma asked_options_snoc ss s :
  asked_options (ss ++ [s]) = mkChannelOptions (default (co_allow_initial_offline (asked_options ss)) (asked_offline s))
    (default (co_initial_backoff_ns (asked_options ss)) (asked_initial_backoff s)) (default (co_max_backoff_ns (asked_options ss)) (asked_max_backoff s))
    (default (co_multiplier_millis (asked_options ss)) (asked_multiplier s)) (default (co_jitter_percent (asked_options ss)) (asked_jitter s))
    (default (co_logger (asked_options ss)) (asked_logger s)) (co_max_response_header_list_size (asked_options ss))
    (co_max_unary_calls (asked_options ss)) (co_max_unary_request_bytes (asked_options ss)) (co_max_streams (asked_options ss))
    (co_max_stream_buffer_bytes (asked_options ss)).
Proof. unfold asked_options. by rewrite !last_asked_snoc. Qed.

(** No value that the setters store is out of the library's range, except for the
    order of the two backoffs; limits that have no setter are the defaults. *)
Definition arguments_in_range (a : ChannelArguments L) : Prop :=
  let o := ca_options a in
  0 ≤ co_initial_backoff_ns o ≤ int32_max * 1000000 ∧ 0 ≤ co_max_backoff_ns o ≤ int32_max * 1000000 ∧
  1000 ≤ co_multiplier_millis o ≤ u32_max ∧ 0 ≤ co_jitter_percent o ≤ 100 ∧
  co_max_response_header_list_size o = 65536 ∧ co_max_unary_calls o = 4096 ∧
  co_max_unary_request_bytes o = 67108864 ∧ co_max_streams o = 1024 ∧ co_max_stream_buffer_bytes o = 1073741824.

Lemma SetBackoffMs_spec ms :
  in_int32 ms → SetBackoffMs ms = if 0 <=? ms then Some (ms * 1000000) else None.
Proof.
  unfold in_int32, int32_min, int32_max, SetBackoffMs, cast_u64. intros H. rewrite Z.leb_antisym.
  destruct (Z.ltb_spec ms 0); [done|]. simpl. rewrite (Z.mod_small ms), Z.mod_small by lia. done.
Qed.

Lemma multiplier_spec x a :
  arguments_in_range a →
  ∃ a', SetReconnectBackoffMultiplier x a = Some a' ∧ arguments_in_range a' ∧
    grpc_Status_ok (ca_status a') =
      grpc_Status_ok (ca_status a) && setter_accepted (DoSetReconnectBackoffMultiplier x).
Proof.
  intros Ha. unfold SetReconnectBackoffMultiplier, setter_accepted.
  destruct (isfinite x) eqn:Hf, (SFltb x (double_of_Z 1)) eqn:H1, (SFltb max_multiplier x) eqn:H2;
    cbn [negb orb andb]; rewrite ?andb_false_r, ?andb_true_r; try (eexists; repeat split; try apply Ha; done).
  destruct (multiplier_in_range x Hf H1 H2) as (z & -> & Hz). simpl.
  eexists. split; [done|]. split; [|done]. unfold arguments_in_range in *. simpl. destruct_and!. by split_and!.
Qed.

Lemma jitter_spec x a :
  arguments_in_range a →
  ∃ a', SetReconnectBackoffJitter x a = Some a' ∧ arguments_in_range a' ∧
    grpc_Status_ok (ca_status a') =
      grpc_Status_ok (ca_status a) && setter_accepted (DoSetReconnectBackoffJitter x).
Proof.
  intros Ha. unfold SetReconnectBackoffJitter, setter_accepted.
  destruct (isfinite x) eqn:Hf, (SFltb x (double_of_Z 0)) eqn:H1, (SFltb (double_of_Z 1) x) eqn:H2;
    cbn [negb orb andb]; rewrite ?andb_false_r, ?andb_true_r; try (eexists; repeat split; try apply Ha; done).
  destruct (jitter_in_range x Hf H1 H2) as (z & -> & Hz). simpl.
  eexists. split; [done|]. split; [|done]. unfold arguments_in_range in *. simpl. destruct_and!. by split_and!.
Qed.

(** A setter is defined, keeps the range, and leaves the status OK when it was and
    the setter accepts its argument. *)
Lemma set_argument_spec a s :
  setter_typed s → arguments_in_range a →
  ∃ a', set_argument a s = Some a' ∧ arguments_in_range a' ∧
    grpc_Status_ok (ca_status a') = grpc_Status_ok (ca_status a) && setter_accepted s.
Proof.
  intros Ht Ha. pose proof Ha as (H1 & H2 & H3).
  destruct s as [allow|ms|ms|ms|x|x|c|c|logger]; simpl in Ht.
  5: by apply multiplier_spec.
  5: by apply jitter_spec.
  all: cbn [set_argument setter_accepted]; eexists; split; [done|].
  - rewrite andb_true_r. by split.
  - unfold SetInitialReconnectBackoffMs. rewrite SetBackoffMs_spec by done.
    destruct (Z.leb_spec 0 ms); rewrite ?andb_false_r, ?andb_true_r; [|by split].
    split; [|done]. split; [simpl; unfold in_int32 in Ht; lia|done].
  - unfold SetMinReconnectBackoffMs. rewrite SetBackoffMs_spec by done.
    destruct (Z.leb_spec 0 ms); rewrite ?andb_false_r, ?andb_true_r; [|by split].
    split; [|done]. split; [simpl; unfold in_int32 in Ht; lia|done].
  - unfold SetMaxReconnectBackoffMs. rewrite SetBackoffMs_spec by done.
    destruct (Z.leb_spec 0 ms); rewrite ?andb_false_r, ?andb_true_r; [|by split].
    split; [|done]. split; [done|]. split; [simpl; unfold in_int32 in Ht; lia|done].
  - destruct c; simpl; rewrite ?andb_false_r, ?andb_true_r; by split.
  - destruct c; simpl; rewrite ?andb_false_r, ?andb_true_r; by split.
  - rewrite andb_true_r. by split.
Qed.

Lemma set_arguments_spec a ss :
  Forall setter_typed ss → arguments_in_range a →
  ∃ a', run set_argument a ss = Some a' ∧ arguments_in_range a' ∧
    grpc_Status_ok (ca_status a') = grpc_Status_ok (ca_status a) && forallb setter_accepted ss.
Proof.
  intros Hss. revert a. induction Hss as [|s ss Hs _ IH]; intros a Ha; cbn [run forallb].
  { exists a. by rewrite andb_true_r. }
  destruct (set_argument_spec a s Hs Ha) as (a1 & -> & Ha1 & Hok). destruct (IH a1 Ha1) as (a' & Hr & Ha' & Hok').
  exists a'. split; [done|]. split; [done|]. by rewrite Hok', Hok, andb_assoc.
Qed.

Lemma ChannelArguments_init_in_range : arguments_in_range ChannelArguments_init.
Proof. repeat split; done. Qed.

Lemma arguments_options_valid a :
  arguments_in_range a →
  channel_options_valid (ca_options a) =
    (0 <? co_initial_backoff_ns (ca_options a)) &&
    (co_initial_backoff_ns (ca_options a) <=? co_max_backoff_ns (ca_options a)).
Proof.
  intros (H1 & H2 & H3 & H4 & H5 & H6 & H7 & H8 & H9). unfold channel_options_valid, limit_valid.
  rewrite H5, H6, H7, H8, H9. cbn -[Z.leb Z.eqb Z.ltb].
  rewrite (proj2 (Z.leb_le 1000 _)), (proj2 (Z.leb_le _ 100)) by lia. simpl. rewrite !andb_true_r.
  destruct (Z.eqb_spec (co_initial_backoff_ns (ca_options a)) 0), (Z.ltb_spec 0 (co_initial_backoff_ns (ca_options a))); lia || done.
Qed.

Lemma uint32_of_double_Some x z : uint32_of_double x = Some z → trunc x = Some z.
Proof. unfold uint32_of_double. destruct (trunc x); [|done]. by case_match. Qed.

(** Each setter writes the option that it is for, and no other. *)
Lemma set_argument_asked a s a' :
  setter_typed s → set_argument a s = Some a' →
  ca_options a' = (let o := ca_options a in
    mkChannelOptions (default (co_allow_initial_offline o) (asked_offline s)) (default (co_initial_backoff_ns o) (asked_initial_backoff s))
      (default (co_max_backoff_ns o) (asked_max_backoff s)) (default (co_multiplier_millis o) (asked_multiplier s))
      (default (co_jitter_percent o) (asked_jitter s)) (default (co_logger o) (asked_logger s)) (co_max_response_header_list_size o)
      (co_max_unary_calls o) (co_max_unary_request_bytes o) (co_max_streams o) (co_max_stream_buffer_bytes o)) ∧
  ca_compression a' = default (ca_compression a) (asked_compression s).
Proof.
  destruct a as [[] comp st], s as [allow|ms|ms|ms|x|x|c|c|logger]; intros Ht.
  all: cbn [set_argument asked_offline asked_initial_backoff asked_max_backoff asked_multiplier asked_jitter asked_logger
    asked_compression setter_accepted default ca_options ca_compression].
  - by intros [= <-].
  - unfold SetInitialReconnectBackoffMs. rewrite SetBackoffMs_spec by done. destruct (0 <=? ms); by intros [= <-].
  - unfold SetMinReconnectBackoffMs. rewrite SetBackoffMs_spec by done. destruct (0 <=? ms); by intros [= <-].
  - unfold SetMaxReconnectBackoffMs. rewrite SetBackoffMs_spec by done. destruct (0 <=? ms); by intros [= <-].
  - unfold SetReconnectBackoffMultiplier.
    destruct (isfinite x), (SFltb x (double_of_Z 1)), (SFltb max_multiplier x); try by intros [= <-].
    destruct (uint32_of_double (double_mul x (double_of_Z 1000))) as [z|] eqn:E; [|done].
    rewrite (uint32_of_double_Some _ _ E). by intros [= <-].
  - unfold SetReconnectBackoffJitter.
    destruct (isfinite x), (SFltb x (double_of_Z 0)), (SFltb (double_of_Z 1) x); try by intros [= <-].
    destruct (uint32_of_double (double_mul x (double_of_Z 100))) as [z|] eqn:E; [|done].
    rewrite (uint32_of_double_Some _ _ E). by intros [= <-].
  - by destruct c; intros [= <-].
  - by destruct c; intros [= <-].
  - by intros [= <-].
Qed.

Lemma set_arguments_asked ss a :
  Forall setter_typed ss → run set_argument ChannelArguments_init ss = Some a →
  ca_options a = asked_options ss ∧ ca_compression a = last_asked asked_compression Identity ss.
Proof.
  revert a. induction ss as [|s ss IH] using rev_ind; intros a Hss Hr; [by injection Hr as <-|].
  apply Forall_app in Hss as [Hss Hs]. rewrite Forall_singleton in Hs. apply run_app in Hr as (a1 & Hr1 & Hr2).
  destruct (IH a1 Hss Hr1) as [E1 E2]. simpl in Hr2. destruct (set_argument a1 s) as [a2|] eqn:Es; [|done]. injection Hr2 as <-.
  destruct (set_argument_asked a1 s a2 Hs Es) as [-> ->]. by rewrite asked_options_snoc, last_asked_snoc, E1, E2.
Qed.

(** C33. Whatever an application sets (any [double], any [int]), no conversion is
    undefined.  Each option has the value of the last setter for it that was accepted,
    or its default, where a multiplier is cut to thousandths and a jitter to percents
    after the product was rounded to a [double] (0.29 becomes 28 percent).  The channel
    comes up exactly when its credentials are insecure, every setter accepted its
    argument, the backoffs are in order and the library could create it, and then with
    these options and the compression that was asked for; otherwise its construction
    status, which every call returns, is an error. *)
Theorem channel_from_arguments target credentials ss allocated rest :
  Forall setter_typed ss →
  ∃ a, run set_argument ChannelArguments_init ss = Some a ∧ arguments_in_range a ∧
    let o := asked_options ss in
    let c := Channel_construct target credentials a allocated rest in
    let created := bool_decide (credentials = Some InsecureCredentials) && forallb setter_accepted ss &&
      (0 <? co_initial_backoff_ns o) && (co_initial_backoff_ns o <=? co_max_backoff_ns o) && allocated &&
      bool_decide (rest = None) in
    ca_options a = o ∧ ch_channel_ready c = created ∧ grpc_Status_ok (ch_construction_status c) = created ∧
    ch_channel c = (if created then Some (channel_options_meaning o) else None) ∧
    (created = true → ch_compression c = last_asked asked_compression Identity ss).
Proof.
  intros Hss. destruct (set_arguments_spec _ ss Hss ChannelArguments_init_in_range) as (a & Hr & Ha & Hok).
  destruct (set_arguments_asked ss a Hss Hr) as [Eo Ec]. exists a. split; [done|]. split; [done|]. simpl in Hok.
  rewrite <- Eo, <- Ec. cbv zeta. split; [done|]. unfold Channel_construct.
  destruct credentials as [[]|]; simpl; try done. rewrite Hok.
  destruct (forallb setter_accepted ss); simpl; [|by rewrite Hok].
  rewrite CreateManaged_exact, (arguments_options_valid a Ha).
  destruct (0 <? _), (_ <=? _); simpl; try done. destruct allocated; [|done].
  by destruct rest as [[]|].
Qed.
End Setters.

Definition double_2 : double := mkDouble (S754_finite false 4503599627370496 (-51)) eq_refl.
Definition double_0_25 : double := mkDouble (S754_finite false 4503599627370496 (-54)) eq_refl.

Definition example_setters : list (Setter ()) :=
  [DoSetInitialReconnectBackoffMs 500; DoSetMaxReconnectBackoffMs 60000; DoSetReconnectBackoffMultiplier double_2;
   DoSetReconnectBackoffJitter double_0_25; DoSetCompressionAlgorithm GRPC_COMPRESS_GZIP].

(** Arguments with every kind of setter make a channel with those options. *)
Lemma channel_from_arguments_witness :
  ∃ a, run set_argument ChannelArguments_init example_setters = Some a ∧
    (let c := Channel_construct "10.0.0.1:50051" InsecureChannelCredentials a true None in
     ch_channel_ready c = true ∧
     (reconnect ← ch_channel c ≫= cr_reconnect; Some reconnect) =
       Some (mkReconnectOptions true 500000000 60000000000 2000 25)).
Proof.
  destruct (channel_from_arguments (L := ()) "10.0.0.1:50051" InsecureChannelCredentials example_setters true None)
    as (a & Hr & _ & Hc).
  { repeat constructor; vm_compute; congruence. }
  exists a. split; [exact Hr|]. vm_compute in Hr. injection Hr as <-. destruct Hc as (_ & H1 & _ & H3 & _).
  split; [rewrite H1|rewrite H3]; vm_compute; reflexivity.
Defined.

(** [jitter * 100.0] is truncated: a jitter of 0.29 becomes 28 percent. *)
Definition double_0_29 : double := mkDouble (S754_finite false 5224175567749775 (-54)) eq_refl.

Lemma jitter_0_29 :
  ∃ a, SetReconnectBackoffJitter double_0_29 (ChannelArguments_init (L := ())) = Some a ∧
    co_jitter_percent (ca_options a) = 28.
Proof. eexists. split; vm_compute; reflexivity. Qed.
