(* ===== verification/Reconnect.v ===== *)
(** * Reconnecting

    How long a channel waits before it connects again ([src/channel.zig]): the
    delays of [scheduleReconnect] with the random numbers behind their jitter, and
    the reset once the peer has answered.  Checked arithmetic of the code returns
    [None] where it would overflow. *)

From S2P Require Import Prelude Metadata AbiOptions.

Local Open Scope Z_scope.

Definition mul_u64 (a b : Z) : option Z := if a * b <=? u64_max then Some (a * b) else None.
Definition sub_u64 (a b : Z) : option Z := if b <=? a then Some (a - b) else None.
Definition sat_add_u64 (a b : Z) : Z := Z.min (a + b) u64_max.

(** The fields of [Impl] that reconnecting uses *)
Record ReconnectState := mkReconnectState {
  rs_backoff_ns : Z;
  rs_attempt : Z;
  rs_backoff_pending_reset : bool;
  rs_random_state : Z }.

#[export] Instance ReconnectState_eta : Eta ReconnectState := λ s,
  mkReconnectState (rs_backoff_ns s) (rs_attempt s) (rs_backoff_pending_reset s) (rs_random_state s).

(** The fields as [Channel.init] sets them; the seed is a hash of the time. *)
Definition ReconnectState_init (options : ReconnectOptions) (seed : Z) : ReconnectState :=
  mkReconnectState (ro_initial_backoff_ns options) 0 false seed.

(** [value << n] of a [u64] loses the high bits. *)
Definition shl_u64 (value n : Z) : Z := Z.land (Z.shiftl value n) u64_max.

Definition nextReconnectRandom (s : ReconnectState) : Z * ReconnectState :=
  let value := if rs_random_state s =? 0 then 0x9e3779b97f4a7c15 else rs_random_state s in
  let value := Z.lxor value (shl_u64 value 13) in
  let value := Z.lxor value (Z.shiftr value 7) in
  let value := Z.lxor value (shl_u64 value 17) in
  (value, s <| rs_random_state := value |>).

Definition nextReconnectBackoffNs (options : ReconnectOptions) (current : Z) : Z :=
  match mul_u64 current (ro_multiplier_millis options) with
  | None => ro_max_backoff_ns options
  | Some scaled => Z.min (scaled / 1000) (ro_max_backoff_ns options)
  end.

Definition jitterReconnectBackoffNs (options : ReconnectOptions) (base random : Z) : option Z :=
  spread ← mul_u64 (base / 100) (ro_jitter_percent options);
  if spread =? 0 then Some base
  else
    let width := default u64_max (mul_u64 spread 2) in
    let offset := random mod (sat_add_u64 width 1) in
    low ← sub_u64 base spread;
    Some (Z.min (sat_add_u64 low offset) (ro_max_backoff_ns options)).

(** The delay that [scheduleReconnect] waits, and the state it leaves *)
Definition scheduleReconnect (options : ReconnectOptions) (s : ReconnectState) : option (Z * ReconnectState) :=
  let '(random, s) := nextReconnectRandom s in
  delay ← jitterReconnectBackoffNs options (rs_backoff_ns s) random;
  Some (delay, s <| rs_backoff_ns := nextReconnectBackoffNs options (rs_backoff_ns s) |>
                 <| rs_attempt := Z.min (rs_attempt s + 1) u32_max |>).

(** [activateConnection], on these fields *)
Definition activateConnection (s : ReconnectState) : ReconnectState :=
  s <| rs_backoff_pending_reset := negb (rs_attempt s =? 0) |>.

(** [onFrameReceived] for a SETTINGS frame *)
Definition onSettings (options : ReconnectOptions) (s : ReconnectState) : ReconnectState :=
  if rs_backoff_pending_reset s then
    s <| rs_attempt := 0 |> <| rs_backoff_ns := ro_initial_backoff_ns options |>
      <| rs_backoff_pending_reset := false |>
  else s.

(** What happens to the connection of a channel *)
Inductive ConnectionEvent : Set := Failed | Activated | Settings.

#[export] Instance ConnectionEvent_eq_dec : EqDecision ConnectionEvent.
Proof. solve_decision. Defined.

(** The state after an event and the delay it starts, if it starts one *)
Definition connection_step (options : ReconnectOptions) (s : ReconnectState) (e : ConnectionEvent)
  : option (ReconnectState * option Z) :=
  match e with
  | Failed => '(delay, s') ← scheduleReconnect options s; Some (s', Some delay)
  | Activated => Some (activateConnection s, None)
  | Settings => Some (onSettings options s, None)
  end.

(** The delays of a sequence of events *)
Fixpoint delays (options : ReconnectOptions) (s : ReconnectState) (es : list ConnectionEvent)
  : option (ReconnectState * list Z) :=
  match es with
  | [] => Some (s, [])
  | e :: es' =>
      '(s1, d) ← connection_step options s e;
      '(s2, ds) ← delays options s1 es';
      Some (s2, match d with Some delay => delay :: ds | None => ds end)
  end.

(** ** Bounds *)

Definition reconnect_valid (options : ReconnectOptions) : Prop :=
  0 < ro_initial_backoff_ns options ≤ ro_max_backoff_ns options ∧ ro_max_backoff_ns options ≤ u64_max ∧
  1000 ≤ ro_multiplier_millis options ≤ u32_max ∧ 0 ≤ ro_jitter_percent options ≤ 100.

(** Options that pass [validateReconnectOptions] and are in the range of their types *)
Lemma reconnect_valid_intro options :
  validateReconnectOptions options = None → in_u64 (ro_initial_backoff_ns options) →
  in_u64 (ro_max_backoff_ns options) → in_u32 (ro_multiplier_millis options) →
  0 ≤ ro_jitter_percent options → reconnect_valid options.
Proof.
  unfold validateReconnectOptions, in_u64, in_u32, reconnect_valid. intros Hv ? ? ? ?.
  destruct (Z.eqb_spec (ro_initial_backoff_ns options) 0), (Z.ltb_spec (ro_max_backoff_ns options) (ro_initial_backoff_ns options)),
    (Z.ltb_spec (ro_multiplier_millis options) 1000), (Z.ltb_spec 100 (ro_jitter_percent options)); simplify_eq/=; lia.
Qed.

Lemma jitter_bounds options base random :
  reconnect_valid options → 0 ≤ random → 0 ≤ base ≤ ro_max_backoff_ns options →
  ∃ delay, jitterReconnectBackoffNs options base random = Some delay ∧
    base - base / 100 * ro_jitter_percent options ≤ delay ≤
      Z.min (base + base / 100 * ro_jitter_percent options) (ro_max_backoff_ns options).
Proof.
  intros (Hi & Hm & Hmul & Hj) Hr Hb. unfold jitterReconnectBackoffNs, mul_u64, sub_u64, sat_add_u64.
  set (spread := base / 100 * ro_jitter_percent options).
  assert (0 ≤ spread ≤ base) as Hs.
  { unfold spread. assert (0 ≤ base / 100) by (apply Z.div_pos; lia). pose proof (Z.mul_div_le base 100 eq_refl). nia. }
  rewrite (proj2 (Z.leb_le spread u64_max)) by lia. cbn [mbind option_bind].
  destruct (Z.eqb_spec spread 0) as [Hz|Hz]; [eexists; split; [done|lia]|].
  rewrite (proj2 (Z.leb_le spread base)) by lia. cbn [mbind option_bind]. eexists. split; [done|].
  set (offset := random mod _). assert (0 ≤ offset ≤ 2 * spread).
  { assert (∃ w, 0 < w ≤ 2 * spread + 1 ∧ offset = random mod w) as (w & Hw & ->).
    { eexists. split; [|done]. destruct (Z.leb_spec (spread * 2) u64_max); simpl; unfold u64_max in *; lia. }
    pose proof (Z.mod_pos_bound random w). lia. }
  lia.
Qed.

Lemma next_bounds options current :
  reconnect_valid options → 0 ≤ current ≤ ro_max_backoff_ns options →
  current ≤ nextReconnectBackoffNs options current ≤ ro_max_backoff_ns options.
Proof.
  intros (Hi & Hm & Hmul & Hj) Hc. unfold nextReconnectBackoffNs, mul_u64.
  destruct (Z.leb_spec (current * ro_multiplier_millis options) u64_max); [|lia].
  assert (current ≤ current * ro_multiplier_millis options / 1000); [|lia].
  apply Z.div_le_lower_bound; nia.
Qed.

Lemma log2_u64 a : in_u64 a → Z.log2 a < 64.
Proof.
  unfold in_u64, u64_max. intros Ha. destruct (decide (a = 0)) as [->|]; [done|]. apply Z.log2_lt_pow2; lia.
Qed.

Lemma lxor_u64 a b : in_u64 a → in_u64 b → in_u64 (Z.lxor a b).
Proof.
  intros Ha Hb. assert (0 ≤ Z.lxor a b) by (apply Z.lxor_nonneg; unfold in_u64 in *; lia).
  split; [done|]. destruct (decide (Z.lxor a b = 0)) as [->|]; [done|].
  apply Z.lt_le_pred, Z.log2_lt_pow2; [lia|]. eapply Z.le_lt_trans; [apply Z.log2_lxor; unfold in_u64 in *; lia|].
  apply Z.max_lub_lt; by apply log2_u64.
Qed.

Lemma nextReconnectRandom_spec s :
  in_u64 (rs_random_state s) →
  in_u64 (nextReconnectRandom s).1 ∧
  (nextReconnectRandom s).2 = s <| rs_random_state := (nextReconnectRandom s).1 |>.
Proof.
  intros Hs. split; [|done]. unfold nextReconnectRandom. cbn [fst].
  assert (∀ x n, in_u64 (shl_u64 x n)) as Hl.
  { intros x n. unfold shl_u64. change u64_max with (Z.ones 64). rewrite Z.land_ones by lia.
    pose proof (Z.mod_pos_bound (Z.shiftl x n) (2 ^ 64)). unfold in_u64, u64_max. lia. }
  assert (∀ x n, 0 ≤ n → in_u64 x → in_u64 (Z.shiftr x n)) as Hr.
  { intros x n Hn [Hx1 Hx2]. rewrite Z.shiftr_div_pow2 by done. split; [apply Z.div_pos; lia|].
    etrans; [|exact Hx2]. apply Z.div_le_upper_bound; [lia|]. assert (0 < 2 ^ n) by lia. nia. }
  set (value := if rs_random_state s =? 0 then _ else _).
  assert (in_u64 value) as Hv by (unfold value; destruct (rs_random_state s =? 0); [by split; vm_compute|done]).
  clearbody value. repeat apply lxor_u64; auto with lia.
  all: apply Hr; [done|]; by apply lxor_u64.
Qed.

Definition reconnect_inv (options : ReconnectOptions) (s : ReconnectState) : Prop :=
  ro_initial_backoff_ns options ≤ rs_backoff_ns s ≤ ro_max_backoff_ns options ∧ in_u64 (rs_random_state s).

(** A delay after a failure: at least the initial backoff less the jitter, and at
    most the maximum *)
Definition delay_bounds (options : ReconnectOptions) (delay : Z) : Prop :=
  ro_initial_backoff_ns options * (100 - ro_jitter_percent options) ≤ 100 * delay ∧
  delay ≤ ro_max_backoff_ns options.

Lemma schedule_spec options s :
  reconnect_valid options → reconnect_inv options s →
  ∃ delay s', scheduleReconnect options s = Some (delay, s') ∧ delay_bounds options delay ∧
    reconnect_inv options s' ∧ rs_backoff_ns s' = nextReconnectBackoffNs options (rs_backoff_ns s).
Proof.
  intros Ho [Hb Hr]. unfold scheduleReconnect.
  destruct (nextReconnectRandom_spec s Hr) as [Hx Hs].
  destruct (nextReconnectRandom s) as [random s1]. cbn [fst snd] in Hx, Hs. subst s1.
  change (rs_backoff_ns (s <| rs_random_state := random |>)) with (rs_backoff_ns s). pose proof Ho as (Hi & Hm & Hmul & Hj).
  destruct (jitter_bounds options (rs_backoff_ns s) random Ho) as (delay & -> & Hd); [apply Hx|lia|].
  eexists _, _. split; [done|]. split; [|split; [|done]].
  - split; [|lia]. pose proof (Z.mul_div_le (rs_backoff_ns s) 100 eq_refl). nia.
  - split; [|done]. simpl. pose proof (next_bounds options (rs_backoff_ns s) Ho). lia.
Qed.

Lemma connection_step_spec options s e :
  reconnect_valid options → reconnect_inv options s →
  ∃ s' d, connection_step options s e = Some (s', d) ∧ reconnect_inv options s' ∧
    match e with Failed => ∃ delay, d = Some delay ∧ delay_bounds options delay | _ => d = None end.
Proof.
  intros Ho Hs. destruct e; simpl.
  - destruct (schedule_spec options s Ho Hs) as (delay & s' & -> & Hd & Hs' & _). eexists _, _. eauto.
  - eexists _, _. split; [done|]. split; [exact Hs|done].
  - eexists _, _. split; [done|]. split; [|done]. unfold onSettings.
    destruct (rs_backoff_pending_reset s); [|done]. destruct Ho as (? & ? & _), Hs. split; [simpl; lia|done].
Qed.

Lemma delays_spec options s es :
  reconnect_valid options → reconnect_inv options s →
  ∃ s' ds, delays options s es = Some (s', ds) ∧ reconnect_inv options s' ∧ Forall (delay_bounds options) ds ∧
    length ds = length (filter (λ e, e = Failed) es).
Proof.
  intros Ho. revert s. induction es as [|e es IH]; intros s Hs; [by eexists _, _|]. cbn [delays].
  destruct (connection_step_spec options s e Ho Hs) as (s1 & d & -> & Hs1 & Hd). cbn [mbind option_bind].
  destruct (IH s1 Hs1) as (s2 & ds & -> & Hs2 & Hds & Hlen). cbn [mbind option_bind].
  eexists _, _. split; [done|]. split; [done|].
  destruct e; [destruct Hd as (delay & -> & Hd)|subst d..]; rewrite ?filter_cons; simpl; [|done..].
  split; [by constructor|by f_equal].
Qed.

Lemma failures_grow options s n :
  reconnect_valid options → reconnect_inv options s → 1000 ≤ ro_initial_backoff_ns options →
  1000 < ro_multiplier_millis options →
  ∃ s' ds, delays options s (replicate n Failed) = Some (s', ds) ∧
    Z.min (rs_backoff_ns s + Z.of_nat n) (ro_max_backoff_ns options) ≤ rs_backoff_ns s'.
Proof.
  intros Ho Hs Hi Hmul. revert s Hs. induction n as [|n IH]; intros s Hs.
  { eexists _, _. split; [done|]. simpl. lia. }
  cbn [replicate delays connection_step].
  destruct (schedule_spec options s Ho Hs) as (delay & s1 & -> & _ & Hs1 & Hb). cbn [mbind option_bind].
  destruct (IH s1 Hs1) as (s' & ds & -> & Hle). cbn [mbind option_bind]. eexists _, _. split; [done|].
  assert (Z.min (rs_backoff_ns s + 1) (ro_max_backoff_ns options) ≤ rs_backoff_ns s1); [|lia].
  rewrite Hb. unfold nextReconnectBackoffNs, mul_u64. destruct Hs as [Hsb _].
  destruct (Z.leb_spec (rs_backoff_ns s * ro_multiplier_millis options) u64_max); [|lia].
  assert (rs_backoff_ns s + 1 ≤ rs_backoff_ns s * ro_multiplier_millis options / 1000); [|lia].
  apply Z.div_le_lower_bound; nia.
Qed.

Lemma delays_app options s es1 es2 s1 ds1 s2 ds2 :
  delays options s es1 = Some (s1, ds1) → delays options s1 es2 = Some (s2, ds2) →
  delays options s (es1 ++ es2) = Some (s2, ds1 ++ ds2).
Proof.
  revert s ds1. induction es1 as [|e es1 IH]; intros s ds1 H1 H2; cbn [delays app] in *; [by simplify_eq|].
  destruct (connection_step options s e) as [[s' d]|]; [|done]. cbn [mbind option_bind] in *.
  destruct (delays options s' es1) as [[s'' ds]|] eqn:E; [|done]. cbn [mbind option_bind] in H1.
  injection H1 as [= -> <-]. rewrite (IH _ _ E H2). cbn [mbind option_bind]. by destruct d.
Qed.

(** Whatever happens to the connection of a channel, no arithmetic of the delays
    overflows and each failure starts a delay between the initial backoff less
    its jitter and the maximum; failures in a row raise the backoff up to the
    maximum; and once a connection has answered, the backoff is the initial one. *)
Lemma reconnect_delays_bounded options seed es n :
  validateReconnectOptions options = None → in_u64 (ro_initial_backoff_ns options) →
  in_u64 (ro_max_backoff_ns options) → in_u32 (ro_multiplier_millis options) →
  0 ≤ ro_jitter_percent options → in_u64 seed →
  ∃ s ds, delays options (ReconnectState_init options seed) es = Some (s, ds) ∧
    Forall (delay_bounds options) ds ∧ length ds = length (filter (λ e, e = Failed) es) ∧
    ro_initial_backoff_ns options ≤ rs_backoff_ns s ≤ ro_max_backoff_ns options ∧
    (1000 ≤ ro_initial_backoff_ns options → 1000 < ro_multiplier_millis options →
     ∃ s' ds', delays options (ReconnectState_init options seed) (es ++ replicate n Failed) = Some (s', ds') ∧
       Z.min (rs_backoff_ns s + Z.of_nat n) (ro_max_backoff_ns options) ≤ rs_backoff_ns s') ∧
    (rs_attempt s ≠ 0 → rs_backoff_ns (onSettings options (activateConnection s)) = ro_initial_backoff_ns options).
Proof.
  intros Hv Hi Hm Hmul Hj Hseed. assert (reconnect_valid options) as Ho by by apply reconnect_valid_intro.
  assert (reconnect_inv options (ReconnectState_init options seed)) as H0.
  { split; [simpl; destruct Ho; lia|done]. }
  destruct (delays_spec options _ es Ho H0) as (s & ds & Hd & [Hsb Hsr] & Hds & Hlen).
  exists s, ds. split; [done|]. split; [done|]. split; [done|]. split; [done|]. split.
  - intros Hi' Hmul'. destruct (failures_grow options s n Ho (conj Hsb Hsr) Hi' Hmul') as (s' & ds' & Hd' & Hg).
    exists s', (ds ++ ds'). split; [by eapply delays_app|done].
  - intros Ha. unfold onSettings, activateConnection. simpl.
    by rewrite (proj2 (Z.eqb_neq (rs_attempt s) 0) Ha).
Qed.

(** The default options: three failures, a connection, another failure *)
Lemma reconnect_delays_bounded_witness :
  ∃ s ds, delays ReconnectOptions_default (ReconnectState_init ReconnectOptions_default 42)
      [Failed; Failed; Failed; Activated; Settings; Failed] = Some (s, ds) ∧
    Forall (delay_bounds ReconnectOptions_default) ds ∧ length ds = 4%nat ∧ rs_attempt s = 1.
Proof.
  destruct (reconnect_delays_bounded ReconnectOptions_default 42
    [Failed; Failed; Failed; Activated; Settings; Failed] 0) as (s & ds & Hd & Hb & Hl & _);
    [reflexivity|split; vm_compute; congruence..|vm_compute; congruence|split; vm_compute; congruence|].
  exists s, ds. split; [exact Hd|]. split; [exact Hb|]. split; [exact Hl|].
  vm_compute in Hd. injection Hd as [= <- _]. reflexivity.
Defined.
