(* ===== verification/ChannelAdmission.v ===== *)
(** * Admission to a channel

    A channel bounds what it holds for its calls: [UnaryAdmission] and
    [StreamAdmission] of [src/channel.zig] (the same code with the units renamed),
    reserved when a call is set up and released when it is destroyed, with the
    statistics of [src/c_api.zig] and [cpp/channel.hpp] that report them.

    Each operation is one section under the admission's mutex.  [None] is an
    assertion or an arithmetic check of the code that fails. *)

From S2P Require Import Prelude Status Metadata AbiOptions.

Local Open Scope Z_scope.

(** ** The account *)

(** [limits] and [stats] of either struct *)
Record Admission := mkAdmission {
  ad_max_count : Z;
  ad_max_bytes : Z;
  ad_count : Z;
  ad_bytes : Z;
  ad_rejected : Z }.

#[export] Instance Admission_eta : Eta Admission := λ a,
  mkAdmission (ad_max_count a) (ad_max_bytes a) (ad_count a) (ad_bytes a) (ad_rejected a).

Definition UnaryAdmission_init (limits : UnaryAdmissionOptions) : Admission :=
  mkAdmission (ua_max_calls limits) (ua_max_request_bytes limits) 0 0 0.

Definition StreamAdmission_init (limits : StreamAdmissionOptions) : Admission :=
  mkAdmission (sa_max_streams limits) (sa_max_buffer_bytes limits) 0 0 0.

(** [reserve]: whether the call is admitted; [None] when the room that is left
    would be negative, or a count would overflow *)
Definition reserve (bytes : Z) (a : Admission) : option (bool * Admission) :=
  if ad_max_count a <=? ad_count a then
    Some (false, a <| ad_rejected := Z.min (ad_rejected a + 1) u64_max |>)
  else if ad_max_bytes a <? ad_bytes a then None
  else if ad_max_bytes a - ad_bytes a <? bytes then
    Some (false, a <| ad_rejected := Z.min (ad_rejected a + 1) u64_max |>)
  else if (usize_max <? ad_count a + 1) || (usize_max <? ad_bytes a + bytes) then None
  else Some (true, a <| ad_count := ad_count a + 1 |> <| ad_bytes := ad_bytes a + bytes |>).

(** [release], with its assertions *)
Definition release (bytes : Z) (a : Admission) : option Admission :=
  if negb (0 <? ad_count a) || negb (bytes <=? ad_bytes a) then None
  else Some (a <| ad_count := ad_count a - 1 |> <| ad_bytes := ad_bytes a - bytes |>).

(** ** Calls and streams that hold a reservation *)

(** [std.math.add] over several sizes *)
Fixpoint add_all (total : Z) (sizes : list Z) : option Z :=
  match sizes with
  | [] => Some total
  | size :: sizes' => total' ← add_usize total size; add_all total' sizes'
  end.

(** What [ClientStreamState.init] charges for a stream *)
Definition stream_admission_bytes (limits : BufferLimits) : option Z :=
  add_usize (bl_max_inbound_buffer_size limits) (bl_max_outbound_buffer_size limits).

(** What [Operation.init] charges for a unary call: path, frame header, payload,
    and the keys and values of the metadata *)
Definition operation_admission_bytes (path payload : string) (md : list (string * string)) : option Z :=
  add_all (zlen path) (5 :: zlen payload :: flat_map (λ entry, [zlen entry.1; zlen entry.2]) md).

Inductive InitError : Set := SizeOverflow | AdmissionRejected | LaterError.

(** The account with [admission_bytes] of every call or stream that exists *)
Record Account := mkAccount { ac_admission : Admission; ac_live : list Z }.

(** [ClientStreamState.init] and [Operation.init] on the account: [bytes] is the
    charge, [None] when adding it up overflows; [later] is whether what follows
    (allocations, metadata) succeeds.  When it does not, [errdefer] releases. *)
Definition charge_call (bytes : option Z) (later : bool) (w : Account) : option (option InitError * Account) :=
  match bytes with
  | None => Some (Some SizeOverflow, w)
  | Some admission_bytes =>
      '(admitted, a) ← reserve admission_bytes (ac_admission w);
      if negb admitted then Some (Some AdmissionRejected, mkAccount a (ac_live w))
      else if later then Some (None, mkAccount a (admission_bytes :: ac_live w))
      else a' ← release admission_bytes a; Some (Some LaterError, mkAccount a' (ac_live w))
  end.

(** [destroy] of a stream, [deinit] of an operation: the [i]th that exists *)
Definition destroy (i : nat) (w : Account) : option Account :=
  match ac_live w !! i with
  | None => Some w
  | Some admission_bytes =>
      a ← release admission_bytes (ac_admission w);
      Some (mkAccount a (delete i (ac_live w)))
  end.

Inductive AdmissionStep : Type :=
  | Admit (bytes : option Z) (later : bool)
  | Destroy (i : nat).

Definition admission_step (w : Account) (l : AdmissionStep) : option Account :=
  match l with
  | Admit bytes later => snd <$> charge_call bytes later w
  | Destroy i => destroy i w
  end.

(** ** The invariant *)

Definition total (live : list Z) : Z := foldr Z.add 0 live.

(** The account is exactly what exists, and within the limits. *)
Definition account_inv (max_count max_bytes : Z) (w : Account) : Prop :=
  let a := ac_admission w in
  ad_max_count a = max_count ∧ ad_max_bytes a = max_bytes ∧ Forall (λ b, 0 ≤ b) (ac_live w) ∧
  ad_count a = Z.of_nat (length (ac_live w)) ∧ ad_bytes a = total (ac_live w) ∧
  ad_count a ≤ max_count ∧ ad_bytes a ≤ max_bytes.

(** Sizes are unsigned. *)
Definition step_typed (l : AdmissionStep) : Prop :=
  match l with Admit (Some bytes) _ => 0 ≤ bytes | _ => True end.

Lemma total_delete live i b : live !! i = Some b → total live = b + total (delete i live).
Proof.
  revert i. induction live as [|x live IH]; intros [|i] H; simplify_eq/=; [done|].
  rewrite (IH i H). unfold total. lia.
Qed.

Lemma total_nonneg live : Forall (λ b, 0 ≤ b) live → 0 ≤ total live.
Proof. induction 1; unfold total in *; simpl; lia. Qed.

Section Invariant.
Context (max_count max_bytes : Z).
Context (Hcount : 0 ≤ max_count ≤ usize_max) (Hbytes : 0 ≤ max_bytes ≤ usize_max).

(** There is room for one more call of this size. *)
Definition room (bytes : Z) (w : Account) : bool :=
  (Z.of_nat (length (ac_live w)) <? max_count) && (total (ac_live w) + bytes <=? max_bytes).

Lemma reserve_spec bytes w :
  account_inv max_count max_bytes w →
  reserve bytes (ac_admission w) =
    Some (room bytes w,
      if room bytes w
      then (ac_admission w) <| ad_count := ad_count (ac_admission w) + 1 |>
             <| ad_bytes := ad_bytes (ac_admission w) + bytes |>
      else (ac_admission w) <| ad_rejected := Z.min (ad_rejected (ac_admission w) + 1) u64_max |>).
Proof.
  intros (Hc & Hb & Hl & Hn & Ht & Hle1 & Hle2). unfold reserve, room. rewrite Hc, Hb, Hn, Ht.
  rewrite Hn in Hle1. rewrite Ht in Hle2.
  destruct (Z.leb_spec max_count (Z.of_nat (length (ac_live w)))), (Z.ltb_spec (Z.of_nat (length (ac_live w))) max_count);
    try lia; [done|]. cbn [andb].
  rewrite (proj2 (Z.ltb_ge max_bytes (total (ac_live w)))) by lia.
  destruct (Z.ltb_spec (max_bytes - total (ac_live w)) bytes), (Z.leb_spec (total (ac_live w) + bytes) max_bytes);
    try lia; [done|].
  rewrite (proj2 (Z.ltb_ge usize_max (Z.of_nat (length (ac_live w)) + 1))), (proj2 (Z.ltb_ge usize_max (total (ac_live w) + bytes))) by lia.
  done.
Qed.

Lemma release_spec bytes a :
  0 < ad_count a → bytes ≤ ad_bytes a →
  release bytes a = Some (a <| ad_count := ad_count a - 1 |> <| ad_bytes := ad_bytes a - bytes |>).
Proof. intros H1 H2. unfold release. by rewrite (proj2 (Z.ltb_lt _ _) H1), (proj2 (Z.leb_le _ _) H2). Qed.

(** Setting up a call: the result, and the account it leaves *)
Lemma admit_spec bytes later w :
  account_inv max_count max_bytes w → 0 ≤ bytes →
  ∃ w', charge_call (Some bytes) later w =
      Some (if room bytes w then if later then None else Some LaterError else Some AdmissionRejected, w') ∧
    account_inv max_count max_bytes w' ∧
    ac_live w' = if room bytes w && later then bytes :: ac_live w else ac_live w.
Proof.
  intros Hw Hb. unfold charge_call. rewrite (reserve_spec bytes w Hw). cbn [mbind option_bind].
  pose proof Hw as (Hc & Hm & Hl & Hn & Ht & Hle1 & Hle2).
  destruct (room bytes w) eqn:Hr; cbn [negb andb].
  2: { eexists. split; [done|]. split; [|done]. unfold account_inv. simpl. by split_and!. }
  unfold room in Hr. rewrite andb_true_iff, Z.ltb_lt, Z.leb_le in Hr.
  destruct later; cbn [negb].
  - eexists. split; [done|]. split; [|done]. unfold account_inv, total in *. simpl.
    split_and!; try done; [by constructor|lia..].
  - rewrite release_spec by (simpl; unfold total in *; pose proof (total_nonneg _ Hl); unfold total in *; lia).
    cbn [mbind option_bind]. eexists. split; [done|]. split; [|done].
    unfold account_inv. simpl. split_and!; try done; lia.
Qed.

Lemma destroy_spec i w :
  account_inv max_count max_bytes w →
  ∃ w', destroy i w = Some w' ∧ account_inv max_count max_bytes w' ∧ ac_live w' = delete i (ac_live w).
Proof.
  intros Hw. unfold destroy. destruct (ac_live w !! i) as [b|] eqn:E.
  2: { exists w. split; [done|]. split; [done|]. apply lookup_ge_None in E.
    rewrite delete_take_drop, take_ge, drop_ge, app_nil_r by lia. done. }
  pose proof Hw as (Hc & Hm & Hl & Hn & Ht & Hle1 & Hle2).
  pose proof (total_delete _ _ _ E) as Hd. pose proof (lookup_lt_Some _ _ _ E) as Hlt.
  assert (Forall (λ b, 0 ≤ b) (delete i (ac_live w))) as Hl' by by apply Forall_delete.
  pose proof (total_nonneg _ Hl'). pose proof (proj1 (Forall_lookup _ _) Hl i b E) as Hb0. simpl in Hb0.
  rewrite release_spec by lia. cbn [mbind option_bind]. eexists. split; [done|]. split; [|done].
  unfold account_inv. simpl. rewrite length_delete by (rewrite E; eauto). split_and!; try done; lia.
Qed.
End Invariant.

(** Whatever calls a channel sets up and destroys, in whatever order, also when
    setting one up fails half way: no assertion or check fails, the account is
    exactly the calls that exist, it stays within the limits, and the next call is
    admitted exactly when there is room for it. *)
Lemma admission_exact max_count max_bytes ls bytes :
  0 ≤ max_count ≤ usize_max → 0 ≤ max_bytes ≤ usize_max → Forall step_typed ls → 0 ≤ bytes →
  ∃ w, run admission_step (mkAccount (mkAdmission max_count max_bytes 0 0 0) []) ls = Some w ∧
    ad_count (ac_admission w) = Z.of_nat (length (ac_live w)) ∧ ad_bytes (ac_admission w) = total (ac_live w) ∧
    Z.of_nat (length (ac_live w)) ≤ max_count ∧ total (ac_live w) ≤ max_bytes ∧
    ∃ w', charge_call (Some bytes) true w =
      Some (if room max_count max_bytes bytes w then None else Some AdmissionRejected, w').
Proof.
  intros Hc Hb Hls Hbytes.
  assert (∀ w, account_inv max_count max_bytes w →
    ∃ w', run admission_step w ls = Some w' ∧ account_inv max_count max_bytes w') as Hrun.
  { induction Hls as [|l ls Hl _ IH]; intros w Hw; [by exists w|]. cbn [run].
    destruct l as [[b|] later|i]; cbn [admission_step].
    - destruct (admit_spec _ _ Hc Hb b later w Hw Hl) as (w1 & -> & Hw1 & _). by apply IH.
    - by apply IH.
    - destruct (destroy_spec _ _ i w Hw) as (w1 & -> & Hw1 & _). by apply IH. }
  destruct (Hrun (mkAccount (mkAdmission max_count max_bytes 0 0 0) [])) as (w & Hr & Hw).
  { unfold account_inv. simpl. split_and!; try done; lia. }
  exists w. destruct (admit_spec _ _ Hc Hb bytes true w Hw Hbytes) as (w' & Ha & _).
  destruct Hw as (H1 & H2 & H3 & H4 & H5 & H6 & H7). split_and!; [done..|lia|lia|]. exists w'. exact Ha.
Qed.

(** Two streams of the default size and one too many *)
Lemma admission_exact_witness :
  let limit := mkAdmission 1024 40000000 0 0 0 in
  ∃ w, run admission_step (mkAccount limit [])
      [Admit (stream_admission_bytes (mkBufferLimits 4194304 8388608 8388608)) true;
       Admit (Some 16777216) false; Admit (Some 16777216) true; Admit (Some 16777216) true; Destroy 0] = Some w ∧
    ad_bytes (ac_admission w) = 16777216 ∧ ad_rejected (ac_admission w) = 1.
Proof.
  destruct (admission_exact 1024 40000000
      [Admit (stream_admission_bytes (mkBufferLimits 4194304 8388608 8388608)) true;
       Admit (Some 16777216) false; Admit (Some 16777216) true; Admit (Some 16777216) true; Destroy 0] 7)
    as (w & Hr & _ & Hb & _);
    [split; vm_compute; congruence|split; vm_compute; congruence|repeat constructor; vm_compute; congruence|lia|].
  exists w. split; [exact Hr|]. vm_compute in Hr. injection Hr as <-. split; reflexivity.
Defined.
