(* ===== verification/OperationalStats.v ===== *)
(** * Statistics across the C interface

    The snapshots of a channel and of a server on their way from the library
    ([src/c_api.zig]) to C++ ([cpp/channel.hpp], [cpp/server.hpp]).  A caller
    passes a structure with its size; one that was built against an older header
    has fewer fields, and nothing behind them may be written.

    A statistics structure is its size and the 64-bit words that follow it in the
    caller's memory. *)

From S2P Require Import Prelude Status Metadata AbiOptions ChannelAdmission.

Local Open Scope Z_scope.

Record StatsStruct := mkStatsStruct { st_struct_size : Z; st_words : list Z }.

(** The layout of a structure with [n] metrics *)
Definition stats_fields (n : nat) : list ctype := CSize :: replicate n CU64.

(** [validOperationalStatsSize] *)
Definition validOperationalStatsSize (n : nat) (size : Z) : bool :=
  (sizeof (stats_fields n) <=? size) ||
  existsb (λ i, size =? field_end (stats_fields n) (S i)) (seq 0 n).

(** [writeOperationalStats]: the metrics of the snapshot one after the other;
    [None] is a write outside the caller's memory. *)
Fixpoint write_metrics (n i : nat) (size : Z) (snapshot : list Z) (words : list Z) : option (list Z) :=
  match snapshot with
  | [] => Some words
  | metric :: snapshot' =>
      words' ← (if field_end (stats_fields n) (S i) <=? size
                then (if decide (i < length words)%nat then Some (<[i := metric]> words) else None)
                else Some words);
      write_metrics n (S i) size snapshot' words'
  end.

Definition writeOperationalStats (n : nat) (output : StatsStruct) (snapshot : list Z) : option StatsStruct :=
  words ← write_metrics n 0 (st_struct_size output) snapshot (st_words output);
  Some (mkStatsStruct (st_struct_size output) words).

(** The two C functions, which differ in the number of metrics: [owner] is the
    snapshot of the channel or server, [None] for a null handle. *)
Definition get_operational_stats (n : nat) (owner : option (list Z)) (out_stats : option StatsStruct)
  : option (ZError * option StatsStruct) :=
  match out_stats with
  | None => Some (invalid_argument, None)
  | Some output =>
      if negb (validOperationalStatsSize n (st_struct_size output)) then Some (invalid_argument, Some output)
      else
        zeroed ← writeOperationalStats n output (replicate n 0);
        match owner with
        | None => Some (invalid_argument, Some zeroed)
        | Some snapshot =>
            written ← writeOperationalStats n zeroed snapshot;
            Some (ok, Some written)
        end
  end.

(** ** The snapshots *)

(** [OperationalStats] of [channel.zig]; the admissions are sampled into it. *)
Record ZChannelStats := mkZChannelStats {
  zs_unary_admission : Admission;
  zs_stream_admission : Admission;
  zs_active_unary_calls : Z;
  zs_active_streams : Z;
  zs_active_connections : Z;
  zs_pending_unary_calls : Z;
  zs_pending_unary_calls_high_water : Z;
  zs_stream_inbound_bytes : Z;
  zs_stream_inbound_bytes_high_water : Z;
  zs_stream_outbound_bytes : Z;
  zs_stream_outbound_bytes_high_water : Z;
  zs_socket_write_bytes : Z;
  zs_socket_write_bytes_high_water : Z;
  zs_terminal_ok : Z;
  zs_terminal_cancelled : Z;
  zs_terminal_deadline_exceeded : Z;
  zs_terminal_other : Z;
  zs_reconnect_attempts : Z;
  zs_reconnect_successes : Z;
  zs_reconnect_goaway : Z;
  zs_reconnect_transport_failure : Z }.

(** The number of metrics of [grpc_lite_channel_operational_stats] *)
Definition channel_metrics : nat := 25.

(** [channelOperationalStats], the metrics in the order of the structure *)
Definition channelOperationalStats (s : ZChannelStats) : list Z :=
  [ad_count (zs_unary_admission s); ad_bytes (zs_unary_admission s); ad_rejected (zs_unary_admission s);
   ad_count (zs_stream_admission s); ad_bytes (zs_stream_admission s); ad_rejected (zs_stream_admission s);
   zs_active_unary_calls s; zs_active_streams s; zs_active_connections s; zs_pending_unary_calls s;
   zs_pending_unary_calls_high_water s; zs_stream_inbound_bytes s; zs_stream_inbound_bytes_high_water s;
   zs_stream_outbound_bytes s; zs_stream_outbound_bytes_high_water s; zs_socket_write_bytes s;
   zs_socket_write_bytes_high_water s; zs_terminal_ok s; zs_terminal_cancelled s;
   zs_terminal_deadline_exceeded s; zs_terminal_other s; zs_reconnect_attempts s; zs_reconnect_successes s;
   zs_reconnect_goaway s; zs_reconnect_transport_failure s].

(** [OperationalStats] of [server.zig] *)
Record ZServerStats := mkZServerStats {
  zv_admitted_connections : Z;
  zv_active_rpcs : Z;
  zv_rejected_connections : Z;
  zv_pre_ack_rejected_streams : Z;
  zv_streaming_outbound_reserved_bytes : Z;
  zv_streaming_outbound_reserved_bytes_high_water_sum : Z;
  zv_socket_queued_write_bytes : Z;
  zv_socket_queued_write_bytes_high_water_sum : Z;
  zv_close_peer_transport : Z;
  zv_close_protocol_local : Z;
  zv_close_preface_timeout : Z;
  zv_close_idle_timeout : Z;
  zv_close_graceful_drain : Z;
  zv_close_forced_shutdown : Z }.

Definition server_metrics : nat := 14.

Definition serverOperationalStats (s : ZServerStats) : list Z :=
  [zv_admitted_connections s; zv_active_rpcs s; zv_rejected_connections s; zv_pre_ack_rejected_streams s;
   zv_streaming_outbound_reserved_bytes s; zv_streaming_outbound_reserved_bytes_high_water_sum s;
   zv_socket_queued_write_bytes s; zv_socket_queued_write_bytes_high_water_sum s; zv_close_peer_transport s;
   zv_close_protocol_local s; zv_close_preface_timeout s; zv_close_idle_timeout s; zv_close_graceful_drain s;
   zv_close_forced_shutdown s].

Definition grpc_lite_channel_get_operational_stats (channel : option ZChannelStats)
  : option StatsStruct → option (ZError * option StatsStruct) :=
  get_operational_stats channel_metrics (channelOperationalStats <$> channel).

Definition grpc_lite_server_get_operational_stats (server : option ZServerStats)
  : option StatsStruct → option (ZError * option StatsStruct) :=
  get_operational_stats server_metrics (serverOperationalStats <$> server).

Definition GRPC_LITE_CHANNEL_OPERATIONAL_STATS_INIT : StatsStruct :=
  mkStatsStruct (sizeof (stats_fields channel_metrics)) (replicate channel_metrics 0).

Definition GRPC_LITE_SERVER_OPERATIONAL_STATS_INIT : StatsStruct :=
  mkStatsStruct (sizeof (stats_fields server_metrics)) (replicate server_metrics 0).

(** ** [GetOperationalStats] of [grpc_lite::Channel] and [grpc_lite::Server] *)

Record ChannelOperationalStats := mkChannelOperationalStats {
  os_unary_retained_calls : Z;
  os_unary_retained_request_bytes : Z;
  os_unary_rejected_calls : Z;
  os_stream_retained_streams : Z;
  os_stream_reserved_buffer_bytes : Z;
  os_stream_rejected_streams : Z;
  os_active_unary_calls : Z;
  os_active_streams : Z;
  os_active_connections : Z;
  os_pending_unary_calls : Z;
  os_pending_unary_calls_high_water : Z;
  os_stream_inbound_bytes : Z;
  os_stream_inbound_bytes_high_water : Z;
  os_stream_outbound_bytes : Z;
  os_stream_outbound_bytes_high_water : Z;
  os_socket_write_bytes : Z;
  os_socket_write_bytes_high_water : Z;
  os_terminal_ok : Z;
  os_terminal_cancelled : Z;
  os_terminal_deadline_exceeded : Z;
  os_terminal_other : Z;
  os_reconnect_attempts : Z;
  os_reconnect_successes : Z;
  os_reconnect_goaway : Z;
  os_reconnect_transport_failure : Z }.

(** [*out = {}] *)
Definition ChannelOperationalStats_default : ChannelOperationalStats :=
  mkChannelOperationalStats 0 0 0 0 0 0 0 0 0 0 0 0 0 0 0 0 0 0 0 0 0 0 0 0 0.

(** [out] is whether the pointer is not null; the result is the error and [*out]. *)
Definition Channel_GetOperationalStats (channel : option ZChannelStats) (out : bool)
  : option (Error * option ChannelOperationalStats) :=
  if negb out then Some (mkError ErrorCode.InvalidArgument, None)
  else
    '(result, stats) ← grpc_lite_channel_get_operational_stats channel (Some GRPC_LITE_CHANNEL_OPERATIONAL_STATS_INIT);
    let error := Error_of_c result in
    if negb (Error_ok error) then Some (error, Some ChannelOperationalStats_default)
    else
      let metric i := nth i (from_option st_words [] stats) 0 in
      Some (Error_default, Some (mkChannelOperationalStats
        (metric 0%nat) (metric 1%nat) (metric 2%nat) (metric 3%nat) (metric 4%nat) (metric 5%nat) (metric 6%nat)
        (metric 7%nat) (metric 8%nat) (metric 9%nat) (metric 10%nat) (metric 11%nat) (metric 12%nat)
        (metric 13%nat) (metric 14%nat) (metric 15%nat) (metric 16%nat) (metric 17%nat) (metric 18%nat)
        (metric 19%nat) (metric 20%nat) (metric 21%nat) (metric 22%nat) (metric 23%nat) (metric 24%nat))).

Record ServerOperationalStats := mkServerOperationalStats {
  ov_admitted_connections : Z;
  ov_active_rpcs : Z;
  ov_rejected_connections : Z;
  ov_pre_ack_rejected_streams : Z;
  ov_streaming_outbound_reserved_bytes : Z;
  ov_streaming_outbound_reserved_bytes_high_water_sum : Z;
  ov_socket_queued_write_bytes : Z;
  ov_socket_queued_write_bytes_high_water_sum : Z;
  ov_close_peer_transport : Z;
  ov_close_protocol_local : Z;
  ov_close_preface_timeout : Z;
  ov_close_idle_timeout : Z;
  ov_close_graceful_drain : Z;
  ov_close_forced_shutdown : Z }.

Definition ServerOperationalStats_default : ServerOperationalStats :=
  mkServerOperationalStats 0 0 0 0 0 0 0 0 0 0 0 0 0 0.

Definition Server_GetOperationalStats (server : option ZServerStats) (out : bool)
  : option (Error * option ServerOperationalStats) :=
  if negb out then Some (mkError ErrorCode.InvalidArgument, None)
  else
    '(result, stats) ← grpc_lite_server_get_operational_stats server (Some GRPC_LITE_SERVER_OPERATIONAL_STATS_INIT);
    let error := Error_of_c result in
    if negb (Error_ok error) then Some (error, Some ServerOperationalStats_default)
    else
      let metric i := nth i (from_option st_words [] stats) 0 in
      Some (Error_default, Some (mkServerOperationalStats
        (metric 0%nat) (metric 1%nat) (metric 2%nat) (metric 3%nat) (metric 4%nat) (metric 5%nat) (metric 6%nat)
        (metric 7%nat) (metric 8%nat) (metric 9%nat) (metric 10%nat) (metric 11%nat) (metric 12%nat)
        (metric 13%nat))).

(** ** Admission statistics

    [grpc_lite_channel_get_unary_admission_stats] and [..._stream_...] take only
    structures of at least the current size; the C++ functions copy the three
    values. *)

Record AdmissionStats := mkAdmissionStats { as_retained : Z; as_bytes : Z; as_rejected : Z }.

Definition get_admission_stats (admission : option Admission) (out_stats : option StatsStruct)
  : option (ZError * option StatsStruct) :=
  match out_stats with
  | None => Some (invalid_argument, None)
  | Some output =>
      if st_struct_size output <? sizeof (stats_fields 3) then Some (invalid_argument, Some output)
      else
        zeroed ← writeOperationalStats 3 output [0; 0; 0];
        match admission with
        | None => Some (invalid_argument, Some zeroed)
        | Some a =>
            written ← writeOperationalStats 3 zeroed [ad_count a; ad_bytes a; ad_rejected a];
            Some (ok, Some written)
        end
  end.

Definition GetUnaryAdmissionStats (admission : option Admission) (out : bool)
  : option (Error * option AdmissionStats) :=
  if negb out then Some (mkError ErrorCode.InvalidArgument, None)
  else
    '(result, stats) ← get_admission_stats admission (Some (mkStatsStruct (sizeof (stats_fields 3)) [0; 0; 0]));
    let error := Error_of_c result in
    if negb (Error_ok error) then Some (error, Some (mkAdmissionStats 0 0 0))
    else
      let metric i := nth i (from_option st_words [] stats) 0 in
      Some (Error_default, Some (mkAdmissionStats (metric 0%nat) (metric 1%nat) (metric 2%nat))).

Definition GetStreamAdmissionStats (admission : option Admission) (out : bool)
  : option (Error * option AdmissionStats) :=
  if negb out then Some (mkError ErrorCode.InvalidArgument, None)
  else
    '(result, stats) ← get_admission_stats admission (Some (mkStatsStruct (sizeof (stats_fields 3)) [0; 0; 0]));
    let error := Error_of_c result in
    if negb (Error_ok error) then Some (error, Some (mkAdmissionStats 0 0 0))
    else
      let metric i := nth i (from_option st_words [] stats) 0 in
      Some (Error_default, Some (mkAdmissionStats (metric 0%nat) (metric 1%nat) (metric 2%nat))).

(** ** What is written *)

Lemma field_end_words off n i :
  off mod 8 = 0 → (i < n)%nat → field_end_from off (replicate n CU64) i = off + 8 * (Z.of_nat i + 1).
Proof.
  revert off i. induction n as [|n IH]; intros off i Hoff Hi; [lia|].
  assert (align_up off 8 = off) as Ha.
  { unfold align_up. Z.to_euclidean_division_equations; lia. }
  assert ((off + 8) mod 8 = 0) as Hoff' by (Z.to_euclidean_division_equations; lia).
  destruct i as [|i]; cbn [replicate field_end_from ctype_align ctype_size]; rewrite Ha; [lia|].
  rewrite IH by (done || lia). lia.
Qed.

Lemma field_end_stats n i : (i < n)%nat → field_end (stats_fields n) (S i) = 16 + 8 * Z.of_nat i.
Proof.
  intros Hi. change (field_end (stats_fields n) (S i)) with (field_end_from 8 (replicate n CU64) i).
  rewrite field_end_words by done. lia.
Qed.

(** The number of metrics that lie within a structure of this size *)
Definition present (n : nat) (size : Z) : nat := n `min` Z.to_nat ((size - 8) / 8).

Lemma present_spec n size i :
  (i < n)%nat → (field_end (stats_fields n) (S i) <=? size) = bool_decide (i < present n size)%nat.
Proof.
  intros Hi. rewrite field_end_stats by done. unfold present.
  case_bool_decide; [apply Z.leb_le|apply Z.leb_gt]; Z.to_euclidean_division_equations; lia.
Qed.

Lemma write_metrics_spec n i size snapshot words :
  (i + length snapshot = n)%nat → (present n size ≤ length words)%nat →
  ∃ words', write_metrics n i size snapshot words = Some words' ∧ length words' = length words ∧
    ∀ j, words' !! j = if decide (i ≤ j < present n size)%nat then snapshot !! (j - i)%nat else words !! j.
Proof.
  revert i words. induction snapshot as [|metric snapshot IH]; intros i words Hn Hw; cbn [write_metrics length] in *.
  { exists words. split; [done|]. split; [done|]. intros j. case_decide; [|done].
    assert (present n size ≤ n)%nat by (unfold present; lia). lia. }
  rewrite present_spec by lia. case_bool_decide as Hp; cbn [mbind option_bind].
  - rewrite decide_True by lia. cbn [mbind option_bind].
    destruct (IH (S i) (<[i:=metric]> words)) as (words' & -> & Hl & Hj); [lia|by rewrite length_insert|].
    exists words'. split; [done|]. split; [by rewrite Hl, length_insert|]. intros j. rewrite Hj.
    destruct (decide (j = i)) as [->|Hne].
    + rewrite decide_False by lia. rewrite decide_True by lia.
      by rewrite list_lookup_insert_eq, Nat.sub_diag by lia.
    + rewrite list_lookup_insert_ne by done. case_decide; case_decide; try lia; [|done].
      by replace (j - i)%nat with (S (j - S i)) by lia.
  - destruct (IH (S i) words) as (words' & -> & Hl & Hj); [lia|done|]. exists words'. split; [done|]. split; [done|].
    intros j. rewrite Hj, !decide_False by lia. done.
Qed.

Lemma writeOperationalStats_spec n output snapshot :
  length snapshot = n → (present n (st_struct_size output) ≤ length (st_words output))%nat →
  ∃ words, writeOperationalStats n output snapshot = Some (mkStatsStruct (st_struct_size output) words) ∧
    length words = length (st_words output) ∧
    ∀ j, words !! j =
      if decide (j < present n (st_struct_size output))%nat then snapshot !! j else st_words output !! j.
Proof.
  intros Hn Hw. unfold writeOperationalStats.
  destruct (write_metrics_spec n 0 (st_struct_size output) snapshot (st_words output)) as (words & -> & Hl & Hj);
    [done..|]. cbn [mbind option_bind]. exists words. split; [done|]. split; [done|]. intros j. rewrite Hj, Nat.sub_0_r.
  by case_decide; case_decide; try lia.
Qed.

(** The caller's memory holds the structure. *)
Definition holds_struct (s : StatsStruct) : Prop := st_struct_size s ≤ 8 + 8 * Z.of_nat (length (st_words s)).

Lemma holds_struct_present n s : holds_struct s → (present n (st_struct_size s) ≤ length (st_words s))%nat.
Proof. unfold holds_struct, present. intros H. Z.to_euclidean_division_equations; lia. Qed.

(** A snapshot is written into exactly the metrics that lie within the size the
    caller gave, whatever supported version of the structure that is: no write
    leaves the caller's structure, every word behind the size keeps its value, and
    a null handle leaves zeros there.  A size that no version has is refused
    without a write. *)
Lemma statistics_within_size n owner output :
  (∀ snapshot, owner = Some snapshot → length snapshot = n) → holds_struct output →
  ∃ words, get_operational_stats n owner (Some output) =
      Some (if validOperationalStatsSize n (st_struct_size output) && bool_decide (is_Some owner)
            then ok else invalid_argument, Some (mkStatsStruct (st_struct_size output) words)) ∧
    ∀ j, words !! j =
      if validOperationalStatsSize n (st_struct_size output) && bool_decide (j < present n (st_struct_size output))%nat
      then default (replicate n 0) owner !! j else st_words output !! j.
Proof.
  intros Hn Hs. pose proof (holds_struct_present n output Hs) as Hp. unfold get_operational_stats.
  destruct (validOperationalStatsSize n (st_struct_size output)); cbn [negb andb].
  2: { exists (st_words output). by destruct output. }
  destruct (writeOperationalStats_spec n output (replicate n 0)) as (zeros & -> & Hl & Hz);
    [by rewrite length_replicate|done|]. cbn [mbind option_bind].
  destruct owner as [snapshot|]; simpl.
  - destruct (writeOperationalStats_spec n (mkStatsStruct (st_struct_size output) zeros) snapshot)
      as (words & -> & _ & Hw); [by apply Hn|simpl; by rewrite Hl|]. cbn [mbind option_bind st_struct_size] in *.
    exists words. split; [done|]. intros j. rewrite Hw. simpl.
    case_decide; case_bool_decide; try lia; [done|]. rewrite Hz. by rewrite decide_False.
  - exists zeros. split; [done|]. intros j. rewrite Hz. by case_decide; case_bool_decide; try lia.
Qed.

(** A caller with six metrics and two words of its own behind them *)
Lemma statistics_within_size_witness :
  ∃ words, get_operational_stats 14 (Some (map Z.of_nat (seq 1 14))) (Some (mkStatsStruct 56 [0; 0; 0; 0; 0; 0; 77; 88])) =
      Some (ok, Some (mkStatsStruct 56 words)) ∧
    words !! 5%nat = Some 6 ∧ words !! 6%nat = Some 77 ∧ words !! 7%nat = Some 88.
Proof.
  destruct (statistics_within_size 14 (Some (map Z.of_nat (seq 1 14))) (mkStatsStruct 56 [0; 0; 0; 0; 0; 0; 77; 88]))
    as (words & Hg & Hw); [by intros ? [= <-]|vm_compute; congruence|].
  exists words. split; [exact Hg|]. rewrite !Hw. repeat split; vm_compute; reflexivity.
Defined.

(** The C++ functions return the snapshot as it is, and zeros with an error for an
    owner that has no handle. *)
Lemma Channel_GetOperationalStats_exact s :
  Channel_GetOperationalStats (Some s) true =
    Some (Error_default, Some (mkChannelOperationalStats
      (ad_count (zs_unary_admission s)) (ad_bytes (zs_unary_admission s)) (ad_rejected (zs_unary_admission s))
      (ad_count (zs_stream_admission s)) (ad_bytes (zs_stream_admission s)) (ad_rejected (zs_stream_admission s))
      (zs_active_unary_calls s) (zs_active_streams s) (zs_active_connections s) (zs_pending_unary_calls s)
      (zs_pending_unary_calls_high_water s) (zs_stream_inbound_bytes s) (zs_stream_inbound_bytes_high_water s)
      (zs_stream_outbound_bytes s) (zs_stream_outbound_bytes_high_water s) (zs_socket_write_bytes s)
      (zs_socket_write_bytes_high_water s) (zs_terminal_ok s) (zs_terminal_cancelled s)
      (zs_terminal_deadline_exceeded s) (zs_terminal_other s) (zs_reconnect_attempts s)
      (zs_reconnect_successes s) (zs_reconnect_goaway s) (zs_reconnect_transport_failure s))) ∧
  Channel_GetOperationalStats None true =
    Some (mkError ErrorCode.InvalidArgument, Some ChannelOperationalStats_default).
Proof. destruct s. split; vm_compute; reflexivity. Qed.

Lemma Server_GetOperationalStats_exact s :
  Server_GetOperationalStats (Some s) true =
    Some (Error_default, Some (mkServerOperationalStats
      (zv_admitted_connections s) (zv_active_rpcs s) (zv_rejected_connections s) (zv_pre_ack_rejected_streams s)
      (zv_streaming_outbound_reserved_bytes s) (zv_streaming_outbound_reserved_bytes_high_water_sum s)
      (zv_socket_queued_write_bytes s) (zv_socket_queued_write_bytes_high_water_sum s) (zv_close_peer_transport s)
      (zv_close_protocol_local s) (zv_close_preface_timeout s) (zv_close_idle_timeout s)
      (zv_close_graceful_drain s) (zv_close_forced_shutdown s))) ∧
  Server_GetOperationalStats None true =
    Some (mkError ErrorCode.InvalidArgument, Some ServerOperationalStats_default).
Proof. destruct s. split; vm_compute; reflexivity. Qed.

Lemma GetUnaryAdmissionStats_exact a :
  GetUnaryAdmissionStats (Some a) true =
    Some (Error_default, Some (mkAdmissionStats (ad_count a) (ad_bytes a) (ad_rejected a))).
Proof. destruct a. vm_compute. reflexivity. Qed.
