(* ===== verification/Handles.v ===== *)
(** * Owners of native handles

    The C++ classes that own a handle of the library: [Runtime]
    ([cpp/runtime.hpp]), [Channel] ([cpp/channel.hpp]), [ClientStream]
    ([cpp/client_stream.hpp]), [Server] and [ServerCall] ([cpp/server.hpp]), with
    construction, moves and destruction, and the callbacks the library makes
    through the [user_data] it was given.

    [Heap] holds what is alive: the library's objects, each with the [user_data]
    it may use at any moment on threads of its own, and the C++ objects that
    [user_data] points to.  It is undefined behaviour to destroy a handle twice,
    to free what a live object of the library still uses, and to use it after it
    was freed.  Transport threads run between any two steps on the heap. *)

From S2P Require Import Prelude Status Metadata.

Local Open Scope Z_scope.

Abbreviation id := nat.

(** ** What callbacks are given *)

(** [ClientStreamCallbacks]: which are set, and the answer of [on_message] *)
Record ClientStreamCallbacks := mkClientStreamCallbacks {
  cb_on_headers : bool;
  cb_on_message : option (string → Compression → ReceiveAction);
  cb_on_remote_end : bool;
  cb_on_writable : bool;
  cb_on_terminal : bool }.

(** [ServerStreamCallbacks] *)
Record ServerStreamCallbacks := mkServerStreamCallbacks {
  sb_on_start : bool;
  sb_on_message : option (string → Compression → ReceiveAction);
  sb_on_remote_end : bool;
  sb_on_writable : bool;
  sb_on_cancel : bool;
  sb_on_terminal : bool }.

(** Calls of application code *)
Inductive AppCall : Type :=
  | CallLogger (level : Z) (message : string)
  | CallOnHeaders (headers : list (string * string))
  | CallOnMessage (payload : string) (compression : Compression)
  | CallOnRemoteEnd
  | CallOnWritable
  | CallOnTerminal (status : Status) (trailing_metadata : list (string * string))
  | CallOnStart
  | CallOnCancel
  | CallOnServerTerminal (call_id reason : Z).

(** ** The heap *)

(** The objects of the library that are alive, with the [user_data] they use; a
    channel uses its runtime, and a retained call its server. *)
Inductive Native : Type :=
  | NRuntime
  | NChannel (logger : option id) (runtime : option id)
  | NStream (callbacks : id)
  | NServer (logger : option id) (methods : list id)
  | NCall (server : id).

(** [LoggerState], [CallbackState] and [MethodState] *)
Inductive UserData : Type :=
  | LoggerState
  | CallbackState (callbacks : ClientStreamCallbacks)
  | MethodState (callbacks : ServerStreamCallbacks).

Record Heap := mkHeap {
  hp_natives : gmap id Native;
  hp_states : gmap id UserData;
  hp_next : id }.

#[export] Instance Heap_eta : Eta Heap := λ h, mkHeap (hp_natives h) (hp_states h) (hp_next h).

(** The [user_data] that an object of the library may use *)
Definition user_data (n : Native) : list id :=
  match n with
  | NRuntime | NCall _ => []
  | NChannel logger _ => option_list logger
  | NStream callbacks => [callbacks]
  | NServer logger methods => methods ++ option_list logger
  end.

(** The other object of the library that it uses *)
Definition depends_on (n : Native) : option id :=
  match n with NChannel _ runtime => runtime | NCall server => Some server | _ => None end.

Definition uses_state (i : id) (natives : gmap id Native) : Prop :=
  map_Exists (λ _ n, i ∈ user_data n) natives.

Definition used_by_native (i : id) (natives : gmap id Native) : Prop :=
  map_Exists (λ _ n, depends_on n = Some i) natives.

(** [std::make_unique] *)
Definition new_state (s : UserData) : UB Heap id := λ h,
  Some (hp_next h, h <| hp_states := <[hp_next h := s]> (hp_states h) |> <| hp_next := S (hp_next h) |>).

(** The end of a [std::unique_ptr] that is not null *)
Definition free_state (i : id) : UB Heap () := λ h,
  if decide (is_Some (hp_states h !! i) ∧ ¬ uses_state i (hp_natives h))
  then Some ((), h <| hp_states := delete i (hp_states h) |>) else None.

Fixpoint free_states (states : list id) : UB Heap () :=
  match states with [] => mret () | i :: states' => _ ← free_state i; free_states states' end.

(** The library makes an object: what it is given must be alive. *)
Definition native_create (n : Native) : UB Heap id := λ h,
  if decide (Forall (λ i, is_Some (hp_states h !! i)) (user_data n) ∧
             Forall (λ d, is_Some (hp_natives h !! d)) (option_list (depends_on n)))
  then Some (hp_next h, h <| hp_natives := <[hp_next h := n]> (hp_natives h) |> <| hp_next := S (hp_next h) |>)
  else None.

(** The [..._destroy] functions, a null handle included *)
Definition native_destroy (handle : option id) : UB Heap () := λ h,
  match handle with
  | None => Some ((), h)
  | Some n =>
      if decide (is_Some (hp_natives h !! n) ∧ ¬ used_by_native n (hp_natives h))
      then Some ((), h <| hp_natives := delete n (hp_natives h) |>) else None
  end.

(** ** The classes *)

(** An object of one of the classes, with its members *)
Inductive Object : Type :=
  | ORuntime (runtime_ : option id)
  | OChannel (channel_ : option id) (logger_ : option id)
  | OClientStream (stream_ : option id) (callbacks_ : option id)
  | OServer (server_ : option id) (logger_ : option id) (methods_ : list id)
  | OServerCall (call_ : option id).

(** [Channel::Reset] *)
Definition Channel_Reset (channel_ logger_ : option id) : UB Heap () :=
  _ ← native_destroy channel_; free_states (option_list logger_).

(** [ClientStream::Reset] *)
Definition ClientStream_Reset (stream_ callbacks_ : option id) : UB Heap () :=
  _ ← native_destroy stream_; free_states (option_list callbacks_).

(** [Server::Reset] *)
Definition Server_Reset (server_ logger_ : option id) (methods_ : list id) : UB Heap () :=
  _ ← native_destroy server_; _ ← free_states methods_; free_states (option_list logger_).

(** The destructors; for [Channel], [ClientStream] and [Server] this is [Reset],
    after which no member is left to destroy. *)
Definition destruct_object (o : Object) : UB Heap () :=
  match o with
  | ORuntime runtime_ => native_destroy runtime_
  | OChannel channel_ logger_ => Channel_Reset channel_ logger_
  | OClientStream stream_ callbacks_ => ClientStream_Reset stream_ callbacks_
  | OServer server_ logger_ methods_ => Server_Reset server_ logger_ methods_
  | OServerCall call_ => native_destroy call_
  end.

(** What [std::exchange] and the moved members leave behind, and what a default
    constructor makes *)
Definition moved_from (o : Object) : Object :=
  match o with
  | ORuntime _ => ORuntime None
  | OChannel _ _ => OChannel None None
  | OClientStream _ _ => OClientStream None None
  | OServer _ _ _ => OServer None None []
  | OServerCall _ => OServerCall None
  end.

(** Two objects of the same class *)
Definition same_class (a b : Object) : bool :=
  match a, b with
  | ORuntime _, ORuntime _ | OChannel _ _, OChannel _ _ | OClientStream _ _, OClientStream _ _
  | OServer _ _ _, OServer _ _ _ | OServerCall _, OServerCall _ => true
  | _, _ => false
  end.

(** The variables of the program and the heap *)
Record World := mkWorld { w_objects : gmap id Object; w_heap : Heap }.

#[export] Instance World_eta : Eta World := λ w, mkWorld (w_objects w) (w_heap w).

Definition on_heap {A} (m : UB Heap A) : UB World A := λ w,
  match m (w_heap w) with Some (a, h) => Some (a, w <| w_heap := h |>) | None => None end.

(** A new variable *)
Definition new_object (o : Object) : UB World id := λ w,
  let v := hp_next (w_heap w) in
  Some (v, mkWorld (<[v := o]> (w_objects w)) ((w_heap w) <| hp_next := S v |>)).

Definition get_object (v : id) : UB World (option Object) := λ w, Some (w_objects w !! v, w).
Definition set_object (v : id) (o : Object) : UB World () := λ w,
  Some ((), w <| w_objects := <[v := o]> (w_objects w) |>).
Definition remove_object (v : id) : UB World () := λ w,
  Some ((), w <| w_objects := delete v (w_objects w) |>).

(** Move construction of a new variable.  A variable that does not exist, or has
    another class, is a program that does not compile: nothing happens. *)
Definition move_construct (other : id) : UB World () :=
  o ← get_object other;
  match o with
  | None => mret ()
  | Some o => _ ← set_object other (moved_from o); _ ← new_object o; mret ()
  end.

(** Move assignment, with its test for self-assignment *)
Definition move_assign (this other : id) : UB World () :=
  o ← get_object this;
  o' ← get_object other;
  match o, o' with
  | Some o, Some o' =>
      if bool_decide (this = other) || negb (same_class o o') then mret ()
      else
        _ ← on_heap (destruct_object o);
        _ ← set_object this o';
        set_object other (moved_from o')
  | _, _ => mret ()
  end.

(** The end of a variable *)
Definition destroy_object (v : id) : UB World () :=
  o ← get_object v;
  match o with
  | None => mret ()
  | Some o => _ ← on_heap (destruct_object o); remove_object v
  end.

(** [*out = C(handle, ...)]: a temporary, a move assignment and its end *)
Definition assign_temporary (out : id) (o : Object) : UB World () :=
  temporary ← new_object o;
  _ ← move_assign out temporary;
  destroy_object temporary.

(** ** Creation

    [error] is the result of the library's function; it makes an object only when
    that is [ok]. *)

Definition Runtime_Create (out : id) (error : ZError) : UB World Error :=
  if negb (Error_ok (Error_of_c error)) then mret (Error_of_c error)
  else
    runtime ← on_heap (native_create NRuntime);
    _ ← assign_temporary out (ORuntime (Some runtime));
    mret Error_default.

(** [logger] is whether [options.logger] is set. *)
Definition make_logger (logger : bool) : UB Heap (option id) :=
  if logger then l ← new_state LoggerState; mret (Some l) else mret None.

(** [runtime == nullptr ? nullptr : runtime->runtime_] *)
Definition runtime_handle (runtime : option id) : UB World (option id) := λ w,
  Some (match runtime ≫= λ v, w_objects w !! v with Some (ORuntime runtime_) => runtime_ | _ => None end, w).

Definition Channel_CreateManaged (out : id) (runtime : option id) (logger : bool) (error : ZError) : UB World Error :=
  l ← on_heap (make_logger logger);
  if negb (Error_ok (Error_of_c error)) then
    _ ← on_heap (free_states (option_list l)); mret (Error_of_c error)
  else
    runtime_ ← runtime_handle runtime;
    channel ← on_heap (native_create (NChannel l runtime_));
    _ ← assign_temporary out (OChannel (Some channel) l);
    mret Error_default.

Definition ClientStream_Open (out : id) (callbacks : ClientStreamCallbacks) (error : ZError) : UB World Error :=
  state ← on_heap (new_state (CallbackState callbacks));
  if negb (Error_ok (Error_of_c error)) then
    _ ← on_heap (free_states [state]); mret (Error_of_c error)
  else
    stream ← on_heap (native_create (NStream state));
    _ ← assign_temporary out (OClientStream (Some stream) (Some state));
    mret Error_default.

Definition Server_Create (out : id) (logger : bool) (error : ZError) : UB World Error :=
  l ← on_heap (make_logger logger);
  if negb (Error_ok (Error_of_c error)) then
    _ ← on_heap (free_states (option_list l)); mret (Error_of_c error)
  else
    server ← on_heap (native_create (NServer l []));
    _ ← assign_temporary out (OServer (Some server) l []);
    mret Error_default.

(** [grpc_lite_server_register_stream] that succeeds: the server keeps the
    [user_data], which must be alive. *)
Definition native_register (server m : id) : UB Heap () := λ h,
  match hp_natives h !! server with
  | Some (NServer logger methods) =>
      if decide (is_Some (hp_states h !! m))
      then Some ((), h <| hp_natives := <[server := NServer logger (methods ++ [m])]> (hp_natives h) |>)
      else None
  | _ => None
  end.

(** [Server::RegisterStream]: the state is in [methods_] before the library sees
    it, and leaves it again when the library refuses. *)
Definition Server_RegisterStream (this : id) (callbacks : ServerStreamCallbacks) (error : ZError) : UB World Error :=
  o ← get_object this;
  match o with
  | Some (OServer None _ _) => mret (mkError ErrorCode.InvalidState)
  | Some (OServer (Some server_) logger_ methods_) =>
      m ← on_heap (new_state (MethodState callbacks));
      _ ← set_object this (OServer (Some server_) logger_ (methods_ ++ [m]));
      if negb (Error_ok (Error_of_c error)) then
        _ ← set_object this (OServer (Some server_) logger_ methods_);
        _ ← on_heap (free_states [m]);
        mret (Error_of_c error)
      else
        _ ← on_heap (native_register server_ m);
        mret (Error_of_c error)
  | _ => mret Error_default
  end.

(** [ServerStream::Retain] in a callback of a live server *)
Definition ServerStream_Retain (out server : id) (error : ZError) : UB World Error :=
  if negb (Error_ok (Error_of_c error)) then mret (Error_of_c error)
  else
    call ← on_heap (native_create (NCall server));
    _ ← assign_temporary out (OServerCall (Some call));
    mret Error_default.

(** The server behind a retained call; the library looks it up in the call, which
    must be alive. *)
Definition native_call_server (call : id) : UB Heap id := λ h,
  match hp_natives h !! call with Some (NCall server) => Some (server, h) | _ => None end.

Definition ServerCall_Clone (this out : id) (error : ZError) : UB World Error :=
  o ← get_object this;
  match o with
  | Some (OServerCall None) => mret (mkError ErrorCode.InvalidState)
  | Some (OServerCall (Some call_)) =>
      server ← on_heap (native_call_server call_);
      if negb (Error_ok (Error_of_c error)) then mret (Error_of_c error)
      else
        call ← on_heap (native_create (NCall server));
        _ ← assign_temporary out (OServerCall (Some call));
        mret Error_default
  | _ => mret Error_default
  end.

(** ** Callbacks

    The functions that the library calls with its [user_data].  The answer is
    what they call of the application, if that callback is set. *)

Definition deref (user_data : id) : UB Heap UserData := λ h,
  match hp_states h !! user_data with Some s => Some (s, h) | None => None end.

Definition callback_state (user_data : id) : UB Heap ClientStreamCallbacks :=
  s ← deref user_data; match s with CallbackState callbacks => mret callbacks | _ => undefined end.

Definition method_state (user_data : id) : UB Heap ServerStreamCallbacks :=
  s ← deref user_data; match s with MethodState callbacks => mret callbacks | _ => undefined end.

Definition call_if (set : bool) (c : AppCall) : option AppCall := if set then Some c else None.

(** [Channel::Log] and [Server::Log] *)
Definition Log (user_data : id) (level : Z) (message : string) : UB Heap (option AppCall) :=
  s ← deref user_data;
  match s with LoggerState => mret (Some (CallLogger level message)) | _ => undefined end.

Definition ClientStream_OnHeaders (user_data : id) (headers : list (string * string)) : UB Heap (option AppCall) :=
  callbacks ← callback_state user_data; mret (call_if (cb_on_headers callbacks) (CallOnHeaders headers)).

(** [on_message] answers [GRPC_LITE_RECEIVE_CONTINUE] when it is not set. *)
Definition message_callback (callback : option (string → Compression → ReceiveAction)) (payload : string)
    (compression : Compression) : Z * option AppCall :=
  match callback with
  | None => (GRPC_LITE_RECEIVE_CONTINUE, None)
  | Some f => (ReceiveAction_value (f payload compression), Some (CallOnMessage payload compression))
  end.

Definition ClientStream_OnMessage (user_data : id) (payload : string) (compression : Compression)
  : UB Heap (Z * option AppCall) :=
  callbacks ← callback_state user_data; mret (message_callback (cb_on_message callbacks) payload compression).

Definition ClientStream_OnRemoteEnd (user_data : id) : UB Heap (option AppCall) :=
  callbacks ← callback_state user_data; mret (call_if (cb_on_remote_end callbacks) CallOnRemoteEnd).

Definition ClientStream_OnWritable (user_data : id) : UB Heap (option AppCall) :=
  callbacks ← callback_state user_data; mret (call_if (cb_on_writable callbacks) CallOnWritable).

Definition ClientStream_OnTerminal (user_data : id) (status_code : Z) (status_message : string)
    (trailing_metadata : list (string * string)) : UB Heap (option AppCall) :=
  callbacks ← callback_state user_data;
  mret (call_if (cb_on_terminal callbacks) (CallOnTerminal (mkStatus status_code status_message) trailing_metadata)).

Definition Server_OnStart (user_data : id) : UB Heap (option AppCall) :=
  callbacks ← method_state user_data; mret (call_if (sb_on_start callbacks) CallOnStart).

Definition Server_OnMessage (user_data : id) (payload : string) (compression : Compression)
  : UB Heap (Z * option AppCall) :=
  callbacks ← method_state user_data; mret (message_callback (sb_on_message callbacks) payload compression).

Definition Server_OnRemoteEnd (user_data : id) : UB Heap (option AppCall) :=
  callbacks ← method_state user_data; mret (call_if (sb_on_remote_end callbacks) CallOnRemoteEnd).

Definition Server_OnWritable (user_data : id) : UB Heap (option AppCall) :=
  callbacks ← method_state user_data; mret (call_if (sb_on_writable callbacks) CallOnWritable).

Definition Server_OnCancel (user_data : id) : UB Heap (option AppCall) :=
  callbacks ← method_state user_data; mret (call_if (sb_on_cancel callbacks) CallOnCancel).

Definition Server_OnTerminal (user_data : id) (call_id reason : Z) : UB Heap (option AppCall) :=
  callbacks ← method_state user_data; mret (call_if (sb_on_terminal callbacks) (CallOnServerTerminal call_id reason)).

(** What an object of the library may report *)
Inductive Event : Type :=
  | EvLog (level : Z) (message : string)
  | EvHeaders (headers : list (string * string))
  | EvMessage (payload : string) (compression : Compression)
  | EvRemoteEnd
  | EvWritable
  | EvTerminal (status_code : Z) (status_message : string) (trailing_metadata : list (string * string))
  | EvServerStart (m : nat)
  | EvServerMessage (m : nat) (payload : string) (compression : Compression)
  | EvServerRemoteEnd (m : nat)
  | EvServerWritable (m : nat)
  | EvServerCancel (m : nat)
  | EvServerTerminal (m : nat) (call_id reason : Z).

(** A live object of the library reports an event; [m] is the method, in the order
    of registration.  An event that the object does not have is none. *)
Definition report (n : Native) (e : Event) : UB Heap () :=
  let quiet {A} (m : UB Heap A) : UB Heap () := _ ← m; mret () in
  match n, e with
  | NChannel (Some l) _, EvLog level message | NServer (Some l) _, EvLog level message => quiet (Log l level message)
  | NStream c, EvHeaders headers => quiet (ClientStream_OnHeaders c headers)
  | NStream c, EvMessage payload compression => quiet (ClientStream_OnMessage c payload compression)
  | NStream c, EvRemoteEnd => quiet (ClientStream_OnRemoteEnd c)
  | NStream c, EvWritable => quiet (ClientStream_OnWritable c)
  | NStream c, EvTerminal code message md => quiet (ClientStream_OnTerminal c code message md)
  | NServer _ methods, EvServerStart m =>
      match methods !! m with Some c => quiet (Server_OnStart c) | None => mret () end
  | NServer _ methods, EvServerMessage m payload compression =>
      match methods !! m with Some c => quiet (Server_OnMessage c payload compression) | None => mret () end
  | NServer _ methods, EvServerRemoteEnd m =>
      match methods !! m with Some c => quiet (Server_OnRemoteEnd c) | None => mret () end
  | NServer _ methods, EvServerWritable m =>
      match methods !! m with Some c => quiet (Server_OnWritable c) | None => mret () end
  | NServer _ methods, EvServerCancel m =>
      match methods !! m with Some c => quiet (Server_OnCancel c) | None => mret () end
  | NServer _ methods, EvServerTerminal m call_id reason =>
      match methods !! m with Some c => quiet (Server_OnTerminal c call_id reason) | None => mret () end
  | _, _ => mret ()
  end.

Definition native_report (n : id) (e : Event) : UB Heap () := λ h,
  match hp_natives h !! n with Some native => report native e h | None => Some ((), h) end.

(** ** Programs *)

(** The steps of a program and of the library's threads *)
Inductive Step : Type :=
  | NewObject (o : Object)
  | MoveConstruct (other : id)
  | MoveAssign (this other : id)
  | EndObject (v : id)
  | CreateRuntime (out : id) (error : ZError)
  | CreateManaged (out : id) (runtime : option id) (logger : bool) (error : ZError)
  | OpenStream (out : id) (callbacks : ClientStreamCallbacks) (error : ZError)
  | CreateServer (out : id) (logger : bool) (error : ZError)
  | RegisterStream (this : id) (callbacks : ServerStreamCallbacks) (error : ZError)
  | Retain (out server : id) (error : ZError)
  | Clone (this out : id) (error : ZError)
  | Report (n : id) (e : Event).

Definition step (l : Step) : UB World () :=
  let quiet {A} (m : UB World A) : UB World () := _ ← m; mret () in
  match l with
  | NewObject o => quiet (new_object (moved_from o))
  | MoveConstruct other => move_construct other
  | MoveAssign this other => move_assign this other
  | EndObject v => destroy_object v
  | CreateRuntime out error => quiet (Runtime_Create out error)
  | CreateManaged out runtime logger error => quiet (Channel_CreateManaged out runtime logger error)
  | OpenStream out callbacks error => quiet (ClientStream_Open out callbacks error)
  | CreateServer out logger error => quiet (Server_Create out logger error)
  | RegisterStream this callbacks error => quiet (Server_RegisterStream this callbacks error)
  | Retain out server error => quiet (ServerStream_Retain out server error)
  | Clone this out error => quiet (ServerCall_Clone this out error)
  | Report n e => on_heap (native_report n e)
  end.

Definition world_step (w : World) (l : Step) : option World := snd <$> step l w.

Definition World_init : World := mkWorld ∅ (mkHeap ∅ ∅ 0).

(** The rules of [runtime.hpp] and [grpc_lite.h] that are the program's to keep: a
    runtime outlives its channels, a server its retained calls, and a call is
    retained in a callback of its server. *)
Definition releasable (w : World) (v : id) : Prop :=
  match w_objects w !! v with
  | Some (ORuntime (Some n)) | Some (OServer (Some n) _ _) => ¬ used_by_native n (hp_natives (w_heap w))
  | _ => True
  end.

Definition obeys_rules (w : World) (l : Step) : Prop :=
  match l with
  | MoveAssign this other => this ≠ other → releasable w this
  | EndObject v => releasable w v
  | CreateRuntime out _ | CreateServer out _ _ => releasable w out
  | Retain _ server _ => ∃ logger methods, hp_natives (w_heap w) !! server = Some (NServer logger methods)
  | _ => True
  end.

(** A program that keeps the rules at every step *)
Fixpoint keeps_rules (w : World) (ls : list Step) : Prop :=
  match ls with
  | [] => True
  | l :: ls' => obeys_rules w l ∧ ∀ w', world_step w l = Some w' → keeps_rules w' ls'
  end.
