(* ===== verification/HandleSafety.v ===== *)
(** * Ownership of native handles

    The invariant of the owner classes ([Handles]): every live object of the
    library is owned by exactly one C++ object, which also owns exactly the
    [user_data] that the library uses; and what follows from it for every program
    that keeps the rules. *)

From S2P Require Import Prelude Status Metadata Handles.

Local Open Scope Z_scope.

(** The handle of an object, and the [user_data] it owns *)
Definition native_of (o : Object) : option id :=
  match o with
  | ORuntime n | OChannel n _ | OClientStream n _ | OServer n _ _ | OServerCall n => n
  end.

Definition states_of (o : Object) : list id :=
  match o with
  | ORuntime _ | OServerCall _ => []
  | OChannel _ l | OClientStream _ l => option_list l
  | OServer _ l methods => methods ++ option_list l
  end.

(** An object of the library is what its owner says it is. *)
Definition matches (o : Object) (n : Native) : Prop :=
  match o, n with
  | ORuntime _, NRuntime | OServerCall _, NCall _ => True
  | OChannel _ l, NChannel l' _ => l = l'
  | OClientStream _ c, NStream c' => c = Some c'
  | OServer _ l methods, NServer l' methods' => l = l' ∧ methods = methods'
  | _, _ => False
  end.

(** The [user_data] of an object has the type that the callbacks cast it to. *)
Definition typed_states (states : gmap id UserData) (o : Object) : Prop :=
  match o with
  | ORuntime _ | OServerCall _ => True
  | OChannel _ l => ∀ i, l = Some i → states !! i = Some LoggerState
  | OClientStream _ c => ∀ i, c = Some i → ∃ callbacks, states !! i = Some (CallbackState callbacks)
  | OServer _ l methods =>
      (∀ i, l = Some i → states !! i = Some LoggerState) ∧
      (∀ i, i ∈ methods → ∃ callbacks, states !! i = Some (MethodState callbacks))
  end.

(** What [depends_on] names is alive and of the right kind. *)
Definition depends_ok (natives : gmap id Native) (n : Native) : Prop :=
  match n with
  | NChannel _ (Some r) => natives !! r = Some NRuntime
  | NCall s => ∃ logger methods, natives !! s = Some (NServer logger methods)
  | _ => True
  end.

Record owned (w : World) : Prop := mkOwned {
  own_native : ∀ v o, w_objects w !! v = Some o →
    match native_of o with
    | Some n => ∃ N, hp_natives (w_heap w) !! n = Some N ∧ matches o N
    | None => states_of o = []
    end;
  own_unique : ∀ v v' o o' n, w_objects w !! v = Some o → w_objects w !! v' = Some o' →
    native_of o = Some n → native_of o' = Some n → v = v';
  own_no_leak : ∀ n N, hp_natives (w_heap w) !! n = Some N →
    ∃ v o, w_objects w !! v = Some o ∧ native_of o = Some n;
  own_typed : ∀ v o, w_objects w !! v = Some o → typed_states (hp_states (w_heap w)) o;
  own_nodup : ∀ v o, w_objects w !! v = Some o → NoDup (states_of o);
  own_state_unique : ∀ v v' o o' i, w_objects w !! v = Some o → w_objects w !! v' = Some o' →
    i ∈ states_of o → i ∈ states_of o' → v = v';
  own_state_no_leak : ∀ i s, hp_states (w_heap w) !! i = Some s →
    ∃ v o, w_objects w !! v = Some o ∧ i ∈ states_of o;
  own_depends : ∀ n N, hp_natives (w_heap w) !! n = Some N → depends_ok (hp_natives (w_heap w)) N;
  own_fresh : ∀ k, (hp_next (w_heap w) ≤ k)%nat →
    hp_natives (w_heap w) !! k = None ∧ hp_states (w_heap w) !! k = None ∧ w_objects w !! k = None }.

Lemma owned_init : owned World_init.
Proof. split; set_solver. Qed.

Lemma matches_user_data o N n : native_of o = Some n → matches o N → user_data N = states_of o.
Proof. destruct o, N; simpl; intros; try done; [by subst|by subst|naive_solver]. Qed.

Lemma states_of_moved_from o : states_of (moved_from o) = [].
Proof. by destruct o. Qed.

Lemma native_of_moved_from o : native_of (moved_from o) = None.
Proof. by destruct o. Qed.

Lemma typed_moved_from states o : typed_states states (moved_from o).
Proof. destruct o; simpl; [done|done|done| |done]. split; [done|]. set_solver. Qed.

Lemma typed_states_live states o i : typed_states states o → i ∈ states_of o → is_Some (states !! i).
Proof.
  destruct o as [n|n l|n c|n l ms|n]; simpl; intros Ht Hi; try set_solver.
  - destruct l as [l|]; [|set_solver]. apply list_elem_of_singleton in Hi as ->. rewrite (Ht l); eauto.
  - destruct c as [c|]; [|set_solver]. apply list_elem_of_singleton in Hi as ->. destruct (Ht c) as [? ->]; eauto.
  - destruct Ht as [Hl Hm]. apply elem_of_app in Hi as [Hi|Hi]; [by destruct (Hm i Hi) as [? ->]; eauto|].
    destruct l as [l|]; [|set_solver]. apply list_elem_of_singleton in Hi as ->. rewrite (Hl l); eauto.
Qed.

(** The types stay when the states of the object do. *)
Lemma typed_states_mono states states' o :
  (∀ i, i ∈ states_of o → states' !! i = states !! i) → typed_states states o → typed_states states' o.
Proof.
  destruct o as [n|n l|n c|n l ms|n]; simpl; intros He Ht; try done.
  - intros i ->. rewrite He by set_solver. by apply Ht.
  - intros i ->. rewrite He by set_solver. by apply Ht.
  - destruct Ht as [Hl Hm]. split.
    + intros i ->. rewrite He by set_solver. by apply Hl.
    + intros i Hi. rewrite He by set_solver. by apply Hm.
Qed.

(** ** Destruction *)

Lemma free_states_app a b h : free_states (a ++ b) h = (free_states a ≫= λ _, free_states b) h.
Proof.
  revert h. induction a as [|i a IH]; intros h; [done|]. cbn [app free_states].
  unfold mbind, ub_bind. destruct (free_state i h) as [[[] h']|]; [|done]. apply IH.
Qed.

Lemma free_states_spec ids h :
  NoDup ids → (∀ i, i ∈ ids → is_Some (hp_states h !! i)) → (∀ i, i ∈ ids → ¬ uses_state i (hp_natives h)) →
  ∃ states, free_states ids h = Some ((), h <| hp_states := states |>) ∧
    ∀ i, states !! i = if decide (i ∈ ids) then None else hp_states h !! i.
Proof.
  revert h. induction ids as [|i ids IH]; intros h Hn Hl Hu.
  { exists (hp_states h). by destruct h. }
  apply NoDup_cons in Hn as [Hi Hn]. cbn [free_states]. unfold mbind, ub_bind. unfold free_state at 1.
  rewrite decide_True by (split; [apply Hl; left|apply Hu; left]).
  destruct (IH (h <| hp_states := delete i (hp_states h) |>)) as (states & -> & Hs); [done| | |].
  - intros j Hj. simpl. rewrite lookup_delete_ne by set_solver. apply Hl. by right.
  - intros j Hj. apply Hu. by right.
  - exists states. split; [done|]. intros j. rewrite Hs. simpl. destruct (decide (j = i)) as [->|Hne].
    + rewrite decide_False by done. rewrite decide_True by left. apply lookup_delete_eq.
    + rewrite lookup_delete_ne by done. case_decide; case_decide; set_solver.
Qed.

Lemma destruct_object_eq o h :
  destruct_object o h = (native_destroy (native_of o) ≫= λ _, free_states (states_of o)) h.
Proof.
  destruct o as [n|n l|n c|n l ms|n]; unfold destruct_object; simpl; try done.
  - unfold mbind, ub_bind. by destruct (native_destroy n h) as [[[] h']|].
  - unfold Server_Reset, mbind, ub_bind. destruct (native_destroy n h) as [[[] h']|]; [|done].
    symmetry. apply free_states_app.
  - unfold mbind, ub_bind. by destruct (native_destroy n h) as [[[] h']|].
Qed.

Section Destroyed.
Context (w : World) (Hw : owned w) (v : id) (o : Object).
Context (Hv : w_objects w !! v = Some o) (Hrel : releasable w v).

Lemma not_used_by_native n : native_of o = Some n → ¬ used_by_native n (hp_natives (w_heap w)).
Proof.
  intros Hn Hu. pose proof (own_native w Hw v o Hv) as Hm. rewrite Hn in Hm. destruct Hm as (N & HN & Hm).
  unfold releasable in Hrel. rewrite Hv in Hrel. destruct Hu as (n' & N' & HN' & Hd).
  pose proof (own_depends w Hw n' N' HN') as Ho.
  destruct o as [r|c l|s c|s l ms|c]; simpl in Hn; subst; [apply Hrel; by exists n', N'| | |apply Hrel; by exists n', N'|];
    destruct N' as [|l' [r|]| | |s']; simplify_eq/=; naive_solver.
Qed.

Lemma destruct_object_spec :
  ∃ natives states,
    destruct_object o (w_heap w) = Some ((), mkHeap natives states (hp_next (w_heap w))) ∧
    (∀ n, natives !! n = if decide (native_of o = Some n) then None else hp_natives (w_heap w) !! n) ∧
    (∀ i, states !! i = if decide (i ∈ states_of o) then None else hp_states (w_heap w) !! i).
Proof.
  set (natives := match native_of o with Some n => delete n (hp_natives (w_heap w)) | None => hp_natives (w_heap w) end).
  assert (native_destroy (native_of o) (w_heap w) = Some ((), (w_heap w) <| hp_natives := natives |>)) as Hd.
  { unfold native_destroy, natives. pose proof (own_native w Hw v o Hv) as Hm.
    destruct (native_of o) as [n|] eqn:Hn; [|by destruct (w_heap w)].
    destruct Hm as (N & HN & _). rewrite decide_True; [done|]. split; [eauto|]. by apply not_used_by_native. }
  assert (∀ n, natives !! n = if decide (native_of o = Some n) then None else hp_natives (w_heap w) !! n) as Hnat.
  { intros n. unfold natives. destruct (native_of o) as [n'|]; [|by rewrite decide_False].
    case_decide; simplify_eq; [apply lookup_delete_eq|]. apply lookup_delete_ne. congruence. }
  rewrite destruct_object_eq. unfold mbind, ub_bind. rewrite Hd.
  destruct (free_states_spec (states_of o) ((w_heap w) <| hp_natives := natives |>)) as (states & -> & Hs).
  - by apply (own_nodup w Hw v).
  - intros i Hi. simpl. eapply typed_states_live; [|done]. by apply (own_typed w Hw v).
  - intros i Hi (n & N & HN & Hu). simpl in HN. rewrite Hnat in HN. case_decide as Hne; [done|].
    destruct (own_no_leak w Hw n N HN) as (v' & o' & Hv' & Hn').
    pose proof (own_native w Hw v' o' Hv') as Hm. rewrite Hn' in Hm. destruct Hm as (N' & HN' & Hm). simplify_eq.
    rewrite (matches_user_data o' N n Hn' Hm) in Hu.
    assert (v' = v) as -> by (by eapply (own_state_unique w Hw)). simplify_eq.
  - exists natives, states. done.
Qed.
End Destroyed.

(** ** Moving objects between variables *)

(** An object without a handle owns nothing. *)
Lemma own_nothing w v o : owned w → w_objects w !! v = Some o → native_of o = None → states_of o = [].
Proof. intros Hw Hv Hn. pose proof (own_native w Hw v o Hv) as H. by rewrite Hn in H. Qed.

(** Variables [m'] that hold the same objects with handles as before, the one in
    [v] having been in [f v] *)
Lemma owned_rename w m' f next' :
  owned w →
  (∀ v o, m' !! v = Some o → (∃ o0, o = moved_from o0) ∨ w_objects w !! f v = Some o) →
  (∀ v v' o o' n n', m' !! v = Some o → native_of o = Some n → m' !! v' = Some o' → native_of o' = Some n' →
     f v = f v' → v = v') →
  (∀ v o n, w_objects w !! v = Some o → native_of o = Some n → ∃ v', m' !! v' = Some o) →
  (hp_next (w_heap w) ≤ next')%nat → (∀ k, (next' ≤ k)%nat → m' !! k = None) →
  owned (mkWorld m' ((w_heap w) <| hp_next := next' |>)).
Proof.
  intros Hw H1 H2 H3 Hle Hfr.
  assert (∀ v o, m' !! v = Some o → native_of o = None → states_of o = []) as Hnull.
  { intros v o Hv Hn. destruct (H1 v o Hv) as [[o0 ->]|Hv']; [apply states_of_moved_from|by eapply own_nothing]. }
  assert (∀ v o n, m' !! v = Some o → native_of o = Some n → w_objects w !! f v = Some o) as Hold.
  { intros v o n Hv Hn. destruct (H1 v o Hv) as [[o0 ->]|?]; [|done]. by rewrite native_of_moved_from in Hn. }
  assert (∀ v o i, m' !! v = Some o → i ∈ states_of o → ∃ n, native_of o = Some n) as Hst.
  { intros v o i Hv Hi. destruct (native_of o) as [n|] eqn:E; [eauto|]. rewrite (Hnull v o Hv E) in Hi. set_solver. }
  split; simpl.
  - intros v o Hv. destruct (native_of o) as [n|] eqn:E; [|by eapply Hnull].
    pose proof (own_native w Hw _ _ (Hold v o n Hv E)) as Hx. by rewrite E in Hx.
  - intros v v' o o' n Hv Hv' Hn Hn'. eapply H2; [done..|]. by eapply (own_unique w Hw); eauto.
  - intros n N HN. destruct (own_no_leak w Hw n N HN) as (v & o & Hv & Hn).
    destruct (H3 v o n Hv Hn) as [v' Hv']. eauto.
  - intros v o Hv. destruct (H1 v o Hv) as [[o0 ->]|?]; [apply typed_moved_from|by eapply (own_typed w Hw)].
  - intros v o Hv. destruct (H1 v o Hv) as [[o0 ->]|?]; [rewrite states_of_moved_from; constructor|by eapply (own_nodup w Hw)].
  - intros v v' o o' i Hv Hv' Hi Hi'. destruct (Hst v o i Hv Hi) as [n Hn]. destruct (Hst v' o' i Hv' Hi') as [n' Hn'].
    eapply H2; [done..|]. by eapply (own_state_unique w Hw); eauto.
  - intros i s Hi. destruct (own_state_no_leak w Hw i s Hi) as (v & o & Hv & Hi').
    destruct (native_of o) as [n|] eqn:E; [destruct (H3 v o n Hv E) as [v' Hv']; eauto|].
    rewrite (own_nothing w v o Hw Hv E) in Hi'. set_solver.
  - apply (own_depends w Hw).
  - intros k Hk. split; [|split]; [apply (own_fresh w Hw); lia..|by apply Hfr].
Qed.

Lemma own_objects_fresh w k : owned w → (hp_next (w_heap w) ≤ k)%nat → w_objects w !! k = None.
Proof. intros Hw Hk. by apply (own_fresh w Hw). Qed.

(** A new variable without a handle *)
Lemma owned_new w o :
  owned w → owned (mkWorld (<[hp_next (w_heap w) := moved_from o]> (w_objects w))
    ((w_heap w) <| hp_next := S (hp_next (w_heap w)) |>)).
Proof.
  intros Hw. apply (owned_rename w _ (λ x, x)); [done|..].
  - intros v o' Hv. apply lookup_insert_Some in Hv as [[<- <-]|[_ Hv]]; eauto.
  - done.
  - intros v o' n Hv Hn. exists v. rewrite lookup_insert_ne; [done|]. intros Heq.
    rewrite (own_objects_fresh w v) in Hv by (done || lia). done.
  - lia.
  - intros k Hk. rewrite lookup_insert_ne by lia. apply own_objects_fresh; [done|lia].
Qed.

(** The object of [other] moves to [this], which had no handle. *)
Lemma owned_transfer w this other a o :
  owned w → w_objects w !! this = Some a → native_of a = None → w_objects w !! other = Some o → this ≠ other →
  owned (w <| w_objects := <[other := moved_from o]> (<[this := o]> (w_objects w)) |>).
Proof.
  intros Hw Ha Hna Ho Hne.
  assert (owned (mkWorld (<[other := moved_from o]> (<[this := o]> (w_objects w)))
    ((w_heap w) <| hp_next := hp_next (w_heap w) |>))) as H; [|by destruct w as [? []]].
  apply (owned_rename w _ (λ x, if decide (x = this) then other else x)); [done|..].
  - intros v o' Hv. apply lookup_insert_Some in Hv as [[<- <-]|[Hv1 Hv]]; [eauto|].
    apply lookup_insert_Some in Hv as [[<- <-]|[Hv2 Hv]]; right; [by rewrite decide_True|by rewrite decide_False].
  - intros v v' o1 o2 n n' H1 Hn1 H2 Hn2. 
    assert (v ≠ other ∧ v' ≠ other) as [Hv Hv'].
    { split; intros ->; rewrite lookup_insert_eq in *; simplify_eq; by rewrite native_of_moved_from in *. }
    repeat case_decide; naive_solver.
  - intros v o' n Hv Hn. destruct (decide (v = other)) as [->|].
    + exists this. rewrite lookup_insert_ne, lookup_insert_eq by done. congruence.
    + exists v. rewrite lookup_insert_ne by done. rewrite lookup_insert_ne; [done|]. naive_solver.
  - lia.
  - intros k Hk. pose proof (own_objects_fresh w k Hw Hk). by rewrite !lookup_insert_ne by congruence.
Qed.

(** ** The end of what an object owns *)

Lemma depends_ok_delete natives natives' r N :
  (∀ n, natives' !! n = if decide (r = Some n) then None else natives !! n) →
  (∀ n, r = Some n → depends_on N ≠ Some n) → depends_ok natives N → depends_ok natives' N.
Proof.
  intros Hn Hd. destruct N as [|l [d|]| | |s]; simpl; try done.
  - rewrite Hn. rewrite decide_False; [done|]. intros ->. by apply (Hd d).
  - intros (l & ms & Hs). exists l, ms. rewrite Hn. rewrite decide_False; [done|]. intros ->. by apply (Hd s).
Qed.

(** [v] is destructed, and then holds nothing or is gone. *)
Lemma owned_destruct w v o m' :
  owned w → w_objects w !! v = Some o → releasable w v →
  (∀ v', v' ≠ v → m' !! v' = w_objects w !! v') → (∀ o', m' !! v = Some o' → ∃ o0, o' = moved_from o0) →
  ∃ h, destruct_object o (w_heap w) = Some ((), h) ∧ owned (mkWorld m' h).
Proof.
  intros Hw Hv Hrel Hm Hm0.
  destruct (destruct_object_spec w Hw v o Hv Hrel) as (natives & states & Hd & Hn & Hs).
  eexists. split; [exact Hd|].
  assert (∀ v' o', m' !! v' = Some o' → (∃ o0, o' = moved_from o0) ∨ v' ≠ v ∧ w_objects w !! v' = Some o') as Hcases.
  { intros v' o' H'. destruct (decide (v' = v)) as [->|]; [eauto|]. rewrite Hm in H' by done. eauto. }
  assert (∀ v' o' i, v' ≠ v → w_objects w !! v' = Some o' → i ∈ states_of o' → i ∉ states_of o) as Hdis.
  { intros v' o' i Hne H' Hi Hi'. apply Hne. by eapply (own_state_unique w Hw). }
  split; simpl.
  - intros v' o' H'. destruct (Hcases v' o' H') as [[o0 ->]|[Hne Ho]].
    { rewrite native_of_moved_from. apply states_of_moved_from. }
    pose proof (own_native w Hw v' o' Ho) as Hx. destruct (native_of o') as [n|] eqn:E; [|done].
    destruct Hx as (N & HN & Hmt). exists N. split; [|done]. rewrite Hn, decide_False; [done|].
    intros He. apply Hne. by eapply (own_unique w Hw).
  - intros v1 v2 o1 o2 n H1 H2 Hn1 Hn2.
    destruct (Hcases v1 o1 H1) as [[o0 ->]|[? ?]]; [by rewrite native_of_moved_from in Hn1|].
    destruct (Hcases v2 o2 H2) as [[o0 ->]|[? ?]]; [by rewrite native_of_moved_from in Hn2|].
    by eapply (own_unique w Hw).
  - intros n N HN. rewrite Hn in HN. case_decide as Hne; [done|].
    destruct (own_no_leak w Hw n N HN) as (v' & o' & H' & Hn'). exists v', o'. split; [|done].
    rewrite Hm; [done|]. intros ->. congruence.
  - intros v' o' H'. destruct (Hcases v' o' H') as [[o0 ->]|[Hne Ho]]; [apply typed_moved_from|].
    eapply typed_states_mono; [|by eapply (own_typed w Hw)]. intros i Hi. rewrite Hs, decide_False; [done|]. by eapply Hdis.
  - intros v' o' H'. destruct (Hcases v' o' H') as [[o0 ->]|[Hne Ho]]; [rewrite states_of_moved_from; constructor|].
    by eapply (own_nodup w Hw).
  - intros v1 v2 o1 o2 i H1 H2 Hi1 Hi2.
    destruct (Hcases v1 o1 H1) as [[o0 ->]|[? ?]]; [rewrite states_of_moved_from in Hi1; set_solver|].
    destruct (Hcases v2 o2 H2) as [[o0 ->]|[? ?]]; [rewrite states_of_moved_from in Hi2; set_solver|].
    by eapply (own_state_unique w Hw).
  - intros i s Hi. rewrite Hs in Hi. case_decide as Hni; [done|].
    destruct (own_state_no_leak w Hw i s Hi) as (v' & o' & H' & Hi'). exists v', o'. split; [|done].
    rewrite Hm; [done|]. intros ->. congruence.
  - intros n N HN. rewrite Hn in HN. case_decide as Hne; [done|].
    eapply depends_ok_delete; [exact Hn| |by eapply (own_depends w Hw)].
    intros n' Hn' Hdep. eapply (not_used_by_native w Hw v o Hv Hrel n' Hn'). by exists n, N.
  - intros k Hk. destruct (own_fresh w Hw k Hk) as (F1 & F2 & F3). rewrite Hn, Hs, F1, F2.
    split; [by case_decide|]. split; [by case_decide|]. rewrite Hm; [done|]. intros ->. congruence.
Qed.

(** ** New objects of the library *)

Lemma depends_ok_insert natives n N N' : natives !! n = None → depends_ok natives N' → depends_ok (<[n := N]> natives) N'.
Proof.
  intros Hn. destruct N' as [|l [d|]| | |s]; simpl; try done.
  - intros H. rewrite lookup_insert_ne; [done|congruence].
  - intros (l & ms & H). exists l, ms. rewrite lookup_insert_ne; [done|congruence].
Qed.

Lemma owned_create w t n N o states next' :
  owned w → native_of o = Some n → matches o N → NoDup (states_of o) → typed_states states o →
  depends_ok (hp_natives (w_heap w)) N →
  (hp_next (w_heap w) ≤ n < next')%nat → (hp_next (w_heap w) ≤ t < next')%nat →
  (∀ i, i ∈ states_of o → (hp_next (w_heap w) ≤ i < next')%nat) →
  (∀ i, i ∉ states_of o → states !! i = hp_states (w_heap w) !! i) →
  owned (mkWorld (<[t := o]> (w_objects w)) (mkHeap (<[n := N]> (hp_natives (w_heap w))) states next')).
Proof.
  intros Hw Hn Hm Hnd Hty Hdep Hn' Ht Hst Heq.
  destruct (own_fresh w Hw n) as (Fn & _ & _); [lia|]. destruct (own_fresh w Hw t) as (_ & _ & Ft); [lia|].
  assert (∀ v o' i, w_objects w !! v = Some o' → i ∈ states_of o' → i ∉ states_of o) as Hdis.
  { intros v o' i Hv Hi Hi'. pose proof (own_typed w Hw v o' Hv) as Hx.
    destruct (typed_states_live _ _ i Hx Hi) as [s Hs]. destruct (own_fresh w Hw i) as (_ & F & _); [by apply Hst|]. congruence. }
  assert (∀ v o' n', w_objects w !! v = Some o' → native_of o' = Some n' → n' ≠ n) as Hnn.
  { intros v o' n' Hv He ->. pose proof (own_native w Hw v o' Hv) as Hx. rewrite He in Hx.
    destruct Hx as (? & ? & _). congruence. }
  split; simpl.
  - intros v o' Hv. apply lookup_insert_Some in Hv as [[<- <-]|[_ Hv]].
    { rewrite Hn. exists N. by rewrite lookup_insert_eq. }
    pose proof (own_native w Hw v o' Hv) as Hx. destruct (native_of o') as [n'|] eqn:E; [|done].
    destruct Hx as (N' & HN' & ?). exists N'. rewrite lookup_insert_ne; [done|congruence].
  - intros v1 v2 o1 o2 k H1 H2 K1 K2.
    apply lookup_insert_Some in H1 as [[<- <-]|[_ H1]]; apply lookup_insert_Some in H2 as [[<- <-]|[_ H2]];
      [done|destruct (Hnn _ _ _ H2 K2); congruence|destruct (Hnn _ _ _ H1 K1); congruence|].
    by eapply (own_unique w Hw).
  - intros k N' HN'. apply lookup_insert_Some in HN' as [[<- <-]|[_ HN']].
    { exists t, o. by rewrite lookup_insert_eq. }
    destruct (own_no_leak w Hw k N' HN') as (v & o' & Hv & ?). exists v, o'. rewrite lookup_insert_ne; [done|congruence].
  - intros v o' Hv. apply lookup_insert_Some in Hv as [[<- <-]|[_ Hv]]; [done|].
    eapply typed_states_mono; [|by eapply (own_typed w Hw)]. intros i Hi. apply Heq. by eapply Hdis.
  - intros v o' Hv. apply lookup_insert_Some in Hv as [[<- <-]|[_ Hv]]; [done|]. by eapply (own_nodup w Hw).
  - intros v1 v2 o1 o2 i H1 H2 K1 K2.
    apply lookup_insert_Some in H1 as [[<- <-]|[_ H1]]; apply lookup_insert_Some in H2 as [[<- <-]|[_ H2]];
      [done|exfalso; by eapply (Hdis _ _ _ H2 K2)|exfalso; by eapply (Hdis _ _ _ H1 K1)|].
    by eapply (own_state_unique w Hw).
  - intros i s Hi. destruct (decide (i ∈ states_of o)) as [Hin|Hout].
    { exists t, o. by rewrite lookup_insert_eq. }
    rewrite Heq in Hi by done. destruct (own_state_no_leak w Hw i s Hi) as (v & o' & Hv & ?).
    exists v, o'. rewrite lookup_insert_ne; [done|congruence].
  - intros k N' HN'. apply depends_ok_insert; [done|].
    apply lookup_insert_Some in HN' as [[<- <-]|[_ HN']]; [done|]. by eapply (own_depends w Hw).
  - intros k Hk. destruct (own_fresh w Hw k) as (F1 & F2 & F3); [lia|].
    rewrite !lookup_insert_ne by lia. rewrite Heq; [done|]. intros Hi. apply Hst in Hi. lia.
Qed.

(** A server's object of the library is exchanged for another. *)
Lemma depends_ok_server natives s l ms ms' N :
  natives !! s = Some (NServer l ms) → depends_ok natives N → depends_ok (<[s := NServer l ms']> natives) N.
Proof.
  intros Hs. destruct N as [|l' [d|]| | |s']; simpl; try done.
  - intros H. rewrite lookup_insert_ne; [done|congruence].
  - intros (l' & ms1 & H). destruct (decide (s = s')) as [<-|]; [rewrite lookup_insert_eq; eauto|].
    rewrite lookup_insert_ne; eauto.
Qed.

(** A registered method *)
Lemma owned_register w v s l ms callbacks :
  owned w → w_objects w !! v = Some (OServer (Some s) l ms) →
  let m := hp_next (w_heap w) in
  owned (mkWorld (<[v := OServer (Some s) l (ms ++ [m])]> (w_objects w))
    (mkHeap (<[s := NServer l (ms ++ [m])]> (hp_natives (w_heap w)))
      (<[m := MethodState callbacks]> (hp_states (w_heap w))) (S m))).
Proof.
  intros Hw Hv m. set (o := OServer (Some s) l (ms ++ [m])).
  pose proof (own_native w Hw v _ Hv) as (N & HN & Hm). destruct N as [| | |l' ms'|]; try done. destruct Hm as [<- <-].
  destruct (own_fresh w Hw m) as (Fn & Fs & Fo); [done|].
  assert (∀ v' o', w_objects w !! v' = Some o' → m ∉ states_of o') as Hfresh.
  { intros v' o' Hv' Hi. destruct (typed_states_live _ _ m (own_typed w Hw v' o' Hv') Hi). congruence. }
  assert (∀ i, i ∈ states_of o → i = m ∨ i ∈ states_of (OServer (Some s) l ms)) as Ho by (simpl; set_solver).
  (* an object now, as it was *)
  assert (∀ v' o', <[v := o]> (w_objects w) !! v' = Some o' → ∃ o1, w_objects w !! v' = Some o1 ∧
    native_of o' = native_of o1 ∧ (∀ i, i ∈ states_of o' → i = m ∧ v' = v ∨ i ∈ states_of o1)) as Hwas.
  { intros v' o' H. apply lookup_insert_Some in H as [[<- <-]|[_ H]]; [|by eauto].
    eexists. split; [exact Hv|]. split; [done|]. intros i Hi. destruct (Ho i Hi); eauto. }
  split; simpl.
  - intros v' o' H. apply lookup_insert_Some in H as [[<- <-]|[Hne H]].
    { simpl. exists (NServer l (ms ++ [m])). by rewrite lookup_insert_eq. }
    pose proof (own_native w Hw v' o' H) as Hx. destruct (native_of o') as [n'|] eqn:E; [|done].
    destruct Hx as (N' & HN' & ?). exists N'. rewrite lookup_insert_ne; [done|].
    intros <-. apply Hne. by eapply (own_unique w Hw).
  - intros v1 v2 o1 o2 k H1 H2 K1 K2. destruct (Hwas _ _ H1) as (p1 & P1 & Q1 & _).
    destruct (Hwas _ _ H2) as (p2 & P2 & Q2 & _). apply (own_unique w Hw v1 v2 p1 p2 k); congruence.
  - intros k N' HN'. apply lookup_insert_Some in HN' as [[<- <-]|[Hne HN']].
    { exists v, o. by rewrite lookup_insert_eq. }
    destruct (own_no_leak w Hw k N' HN') as (v' & o' & Hv' & Hk). exists v', o'. split; [|done].
    rewrite lookup_insert_ne; [done|]. intros <-. naive_solver.
  - intros v' o' H. apply lookup_insert_Some in H as [[<- <-]|[Hne H]].
    + pose proof (own_typed w Hw v _ Hv) as [Hl Hms]. split.
      * intros i Hi. rewrite lookup_insert_ne by naive_solver. by apply Hl.
      * intros i [Hi| ->%list_elem_of_singleton]%elem_of_app; [|rewrite lookup_insert_eq; eauto].
        destruct (Hms i Hi) as [c Hc]. exists c. rewrite lookup_insert_ne; [done|congruence].
    + eapply typed_states_mono; [|by eapply (own_typed w Hw)]. intros i Hi. rewrite lookup_insert_ne; [done|].
      intros <-. by eapply Hfresh.
  - intros v' o' H. apply lookup_insert_Some in H as [[<- <-]|[_ H]]; [|by eapply (own_nodup w Hw)].
    pose proof (own_nodup w Hw v _ Hv) as Hnd. simpl in *. rewrite <- app_assoc. apply NoDup_app in Hnd as (N1 & N2 & N3).
    pose proof (Hfresh v _ Hv) as Hf. simpl in Hf. apply NoDup_app. split; [done|]. split; [set_solver|].
    apply NoDup_cons. set_solver.
  - intros v1 v2 o1 o2 i H1 H2 I1 I2. destruct (Hwas _ _ H1) as (p1 & P1 & _ & Q1).
    destruct (Hwas _ _ H2) as (p2 & P2 & _ & Q2).
    destruct (Q1 i I1) as [[E1 V1]|J1], (Q2 i I2) as [[E2 V2]|J2];
      [congruence|rewrite E1 in J2; by destruct (Hfresh _ _ P2)|rewrite E2 in J1; by destruct (Hfresh _ _ P1)|].
    by eapply (own_state_unique w Hw).
  - intros i st Hi. apply lookup_insert_Some in Hi as [[<- <-]|[Hne Hi]].
    { exists v, o. rewrite lookup_insert_eq. split; [done|]. simpl. set_solver. }
    destruct (own_state_no_leak w Hw i st Hi) as (v' & o' & Hv' & Hi'). destruct (decide (v = v')) as [<-|Hvv].
    + exists v, o. rewrite lookup_insert_eq. split; [done|]. simplify_eq/=. set_solver.
    + exists v', o'. by rewrite lookup_insert_ne.
  - intros k N' HN'. eapply depends_ok_server; [done|].
    apply lookup_insert_Some in HN' as [[<- <-]|[_ HN']]; [done|]. by eapply (own_depends w Hw).
  - intros k Hk. destruct (own_fresh w Hw k) as (F1 & F2 & F3); [fold m; lia|].
    rewrite !lookup_insert_ne; [done|congruence|fold m; lia|congruence].
Qed.

(** ** Steps *)

(** The step is defined and keeps ownership. *)
Definition safe {A} (m : UB World A) (w : World) : Prop := ∃ a w', m w = Some (a, w') ∧ owned w'.

Lemma safe_ret {A} (a : A) w : owned w → safe (mret a) w.
Proof. intros Hw. by exists a, w. Qed.

Lemma safe_bind {A B} (m : UB World A) (k : A → UB World B) w a w' :
  m w = Some (a, w') → safe (k a) w' → safe (m ≫= k) w.
Proof. intros Hm (b & w2 & Hk & Hw). exists b, w2. split; [|done]. unfold mbind, ub_bind. by rewrite Hm. Qed.

Lemma safe_seq {A} (m : UB World A) (b : ()) w : safe m w → safe (_ ← m; mret b) w.
Proof. intros (a & w' & Hm & Hw). eapply safe_bind; [exact Hm|by apply safe_ret]. Qed.

Lemma on_heap_eq {A} (m : UB Heap A) w a h :
  m (w_heap w) = Some (a, h) → on_heap m w = Some (a, mkWorld (w_objects w) h).
Proof. intros Hm. unfold on_heap. rewrite Hm. by destruct w. Qed.

Lemma releasable_moved_from w v o : w_objects w !! v = Some (moved_from o) → releasable w v.
Proof. unfold releasable. intros ->. by destruct o. Qed.

Lemma safe_destroy_object v w : owned w → releasable w v → safe (destroy_object v) w.
Proof.
  intros Hw Hrel. unfold destroy_object. eapply safe_bind; [done|].
  destruct (w_objects w !! v) as [o|] eqn:Hv; [|by apply safe_ret].
  destruct (owned_destruct w v o (delete v (w_objects w)) Hw Hv Hrel) as (h & Hd & Hw').
  - intros v' Hne. by rewrite lookup_delete_ne.
  - intros o'. by rewrite lookup_delete_eq.
  - eapply safe_bind; [by apply on_heap_eq|]. eexists _, _. split; [done|exact Hw'].
Qed.

(** What a move assignment leaves in [other] *)
Lemma move_assign_spec this other w :
  owned w →
  (∀ o o', w_objects w !! this = Some o → w_objects w !! other = Some o' → this ≠ other → same_class o o' = true →
     releasable w this) →
  ∃ w', move_assign this other w = Some ((), w') ∧ owned w' ∧
    (w' = w ∨ ∃ o, w_objects w' !! other = Some (moved_from o)).
Proof.
  intros Hw Hrel. unfold move_assign, mbind, ub_bind, get_object.
  destruct (w_objects w !! this) as [o|] eqn:Ho; [|by exists w; eauto].
  destruct (w_objects w !! other) as [o'|] eqn:Ho'; [|by exists w; eauto].
  case_bool_decide as Heq; cbn [orb]; [by exists w; eauto|].
  destruct (same_class o o') eqn:Hc; cbn [negb]; [|by exists w; eauto].
  destruct (owned_destruct w this o (<[this := moved_from o]> (w_objects w)) Hw Ho) as (h & Hd & Hw').
  - by eapply Hrel.
  - intros v' Hne. by rewrite lookup_insert_ne.
  - intros o1. rewrite lookup_insert_eq. intros [= <-]. eauto.
  - rewrite (on_heap_eq _ _ _ _ Hd). eexists. split; [done|]. split.
    + pose proof (owned_transfer _ this other (moved_from o) o' Hw') as Ht. simpl in Ht.
      rewrite insert_insert_eq in Ht. apply Ht; [by rewrite lookup_insert_eq|apply native_of_moved_from| |done].
      by rewrite lookup_insert_ne.
    + right. exists o'. simpl. by rewrite lookup_insert_eq.
Qed.

Lemma assign_temporary_spec out o w0 :
  let t := hp_next (w_heap w0) in
  let w1 := mkWorld (<[t := o]> (w_objects w0)) ((w_heap w0) <| hp_next := S t |>) in
  owned w1 → releasable w1 t →
  (∀ o', w_objects w1 !! out = Some o' → same_class o' o = true → releasable w1 out) →
  safe (assign_temporary out o) w0.
Proof.
  intros t w1 Hw Ht Hout. unfold assign_temporary. eapply safe_bind; [done|]. fold t w1.
  destruct (move_assign_spec out t w1 Hw) as (w2 & Hm & Hw2 & Hcase).
  { intros o1 o2 H1 H2 _ Hc. simpl in H2. rewrite lookup_insert_eq in H2. simplify_eq. eauto. }
  eapply safe_bind; [exact Hm|]. apply safe_destroy_object; [done|].
  destruct Hcase as [->|[o' Ho']]; [done|by eapply releasable_moved_from].
Qed.

(** ** Creation *)

Lemma fresh_not_used w n N n' :
  owned w → (hp_next (w_heap w) ≤ n)%nat → depends_on N ≠ Some n →
  ¬ used_by_native n (<[n' := N]> (hp_natives (w_heap w))).
Proof.
  intros Hw Hn HN (k & N' & Hk & Hd). apply lookup_insert_Some in Hk as [[<- <-]|[_ Hk]]; [done|].
  pose proof (own_depends w Hw k N' Hk) as Ho. destruct (own_fresh w Hw n Hn) as (F & _ & _).
  destruct N' as [|l [r|]| | |s]; simplify_eq/=; naive_solver.
Qed.

Lemma not_used_insert w n N n' natives :
  hp_natives (w_heap w) = natives → depends_on N = None → ¬ used_by_native n natives →
  ¬ used_by_native n (<[n' := N]> natives).
Proof.
  intros <- HN Hu (k & N' & Hk & Hd). apply lookup_insert_Some in Hk as [[<- <-]|[_ Hk]]; [congruence|].
  apply Hu. by exists k, N'.
Qed.

(** The handles that others may depend on *)
Definition dependable (o : Object) : bool := match o with ORuntime _ | OServer _ _ _ => true | _ => false end.

Lemma releasable_not_dependable w v o : w_objects w !! v = Some o → dependable o = false → releasable w v.
Proof. unfold releasable. intros ->. by destruct o. Qed.

Section Create.
Context (w : World) (Hw : owned w) (states : gmap id UserData) (next : id).
Context (N : Native) (mk : id → Object) (out : id).
Context (Hnext : (hp_next (w_heap w) ≤ next)%nat).
Context (Hmk : ∀ n, native_of (mk n) = Some n ∧ matches (mk n) N ∧ NoDup (states_of (mk n)) ∧ typed_states states (mk n)).
Context (Hst : ∀ n i, i ∈ states_of (mk n) → (hp_next (w_heap w) ≤ i < next)%nat).
Context (Heq : ∀ n i, i ∉ states_of (mk n) → states !! i = hp_states (w_heap w) !! i).
Context (Hdep : depends_ok (hp_natives (w_heap w)) N).
Context (Hout : ∀ n, dependable (mk n) = true → depends_on N = None ∧ releasable w out).

Lemma depends_ok_live : Forall (λ d, is_Some (hp_natives (w_heap w) !! d)) (option_list (depends_on N)).
Proof. destruct N as [|l [r|]| | |s]; simpl in *; repeat constructor; [eauto|]. destruct Hdep as (? & ? & ?). eauto. Qed.

Lemma depends_on_live : depends_on N ≠ Some next.
Proof.
  intros Hd. pose proof depends_ok_live as H. rewrite Hd in H. simpl in H. apply Forall_cons in H as [[N' HN'] _].
  destruct (own_fresh w Hw next Hnext) as (F & _ & _). congruence.
Qed.

Lemma safe_create :
  safe (n ← on_heap (native_create N); _ ← assign_temporary out (mk n); mret Error_default)
    (mkWorld (w_objects w) (mkHeap (hp_natives (w_heap w)) states next)).
Proof.
  destruct (Hmk next) as (Hn & Hm & Hnd & Hty).
  eapply safe_bind.
  { apply on_heap_eq. unfold native_create. simpl. rewrite decide_True; [done|]. split; [|apply depends_ok_live].
    rewrite (matches_user_data (mk next) N next Hn Hm). apply Forall_forall. intros i Hi. by eapply typed_states_live. }
  simpl. set (w0 := mkWorld _ _).
  assert (safe (assign_temporary out (mk next)) w0) as (a & w' & Ha & Hw').
  { assert (¬ used_by_native next (<[next := N]> (hp_natives (w_heap w)))) as Hun.
    { apply fresh_not_used; [done|done|apply depends_on_live]. }
    assert (∀ o, native_of o = Some next → ∀ w1 v, w_objects w1 !! v = Some o →
      hp_natives (w_heap w1) = <[next := N]> (hp_natives (w_heap w)) → releasable w1 v) as Hrel.
    { intros o Ho w1 v Hv Hnat. unfold releasable. rewrite Hv, Hnat. destruct o; simpl in Ho; subst; done. }
    apply assign_temporary_spec; simpl.
    - apply owned_create; [done|done|done|done|done|done|lia|lia| |by apply Heq].
      intros i Hi. apply Hst in Hi. lia.
    - eapply Hrel; [exact Hn|simpl; by rewrite lookup_insert_eq|done].
    - intros o' Ho' Hc. apply lookup_insert_Some in Ho' as [[<- <-]|[Hne Ho']].
      { eapply Hrel; [exact Hn|simpl; by rewrite lookup_insert_eq|done]. }
      destruct (dependable (mk next)) eqn:Hd.
      + destruct (Hout next Hd) as [HdN Hr]. unfold releasable in *. simpl. rewrite Ho' in Hr.
        rewrite lookup_insert_ne, Ho' by done.
        destruct o' as [[k|]| | |[k|] l ms|]; try done; by eapply not_used_insert.
      + eapply releasable_not_dependable; [simpl; by rewrite lookup_insert_ne|].
        by destruct o', (mk next). }
  eapply safe_bind; [exact Ha|by apply safe_ret].
Qed.
End Create.

Lemma owned_next w next' :
  owned w → (hp_next (w_heap w) ≤ next')%nat → owned (w <| w_heap := (w_heap w) <| hp_next := next' |> |>).
Proof.
  intros Hw Hle. apply (owned_rename w (w_objects w) (λ x, x)); [done|eauto|done|eauto|done|].
  intros k Hk. apply own_objects_fresh; [done|lia].
Qed.

Lemma fresh_not_uses w i : owned w → (hp_next (w_heap w) ≤ i)%nat → ¬ uses_state i (hp_natives (w_heap w)).
Proof.
  intros Hw Hi (n & N & HN & Hu). destruct (own_no_leak w Hw n N HN) as (v & o & Hv & Hn).
  pose proof (own_native w Hw v o Hv) as Hm. rewrite Hn in Hm. destruct Hm as (N' & HN' & Hm). simplify_eq.
  rewrite (matches_user_data o N n Hn Hm) in Hu.
  destruct (typed_states_live _ _ i (own_typed w Hw v o Hv) Hu) as [s Hs].
  destruct (own_fresh w Hw i Hi) as (_ & F & _). congruence.
Qed.

(** A state that the library did not take is freed. *)
Lemma safe_refused {A} w s (a : A) :
  owned w →
  safe (_ ← on_heap (free_states [hp_next (w_heap w)]); mret a)
    (mkWorld (w_objects w) (mkHeap (hp_natives (w_heap w)) (<[hp_next (w_heap w) := s]> (hp_states (w_heap w)))
      (S (hp_next (w_heap w))))).
Proof.
  intros Hw. eapply safe_bind.
  { apply on_heap_eq. simpl. unfold mbind, ub_bind, free_state. simpl. rewrite decide_True; [done|].
    split; [rewrite lookup_insert_eq; eauto|]. by apply fresh_not_uses. }
  simpl. rewrite delete_insert_id by by apply (own_fresh w Hw).
  apply safe_ret. pose proof (owned_next w (S (hp_next (w_heap w))) Hw) as H. destruct w as [objs [nat st nx]].
  apply H. simpl. lia.
Qed.

Lemma safe_Runtime_Create out error w : owned w → releasable w out → safe (Runtime_Create out error) w.
Proof.
  intros Hw Hrel. unfold Runtime_Create. destruct (Error_ok _); cbn [negb]; [|by apply safe_ret].
  pose proof (safe_create w Hw (hp_states (w_heap w)) (hp_next (w_heap w)) NRuntime (λ n, ORuntime (Some n)) out) as H.
  destruct w as [objs [nat st nx]]. apply H; simpl; try done.
  - intros n. repeat split; constructor.
  - intros n i. set_solver.
Qed.

(** A logger that was not asked for, or a new one *)
Definition made_logger (w : World) (l : option id) (states : gmap id UserData) (next : id) : Prop :=
  l = None ∧ states = hp_states (w_heap w) ∧ next = hp_next (w_heap w) ∨
  l = Some (hp_next (w_heap w)) ∧ states = <[hp_next (w_heap w) := LoggerState]> (hp_states (w_heap w)) ∧
  next = S (hp_next (w_heap w)).

Lemma make_logger_spec logger w :
  ∃ l states next, make_logger logger (w_heap w) = Some (l, mkHeap (hp_natives (w_heap w)) states next) ∧
    made_logger w l states next.
Proof.
  destruct w as [objs [nat st nx]]. destruct logger; unfold make_logger.
  - eexists _, _, _. split; [done|]. right. done.
  - eexists _, _, _. split; [done|]. left. done.
Qed.

(** What is known of the states after [make_logger] *)
Lemma logger_states w l states next :
  made_logger w l states next →
  (hp_next (w_heap w) ≤ next)%nat ∧ NoDup (option_list l) ∧ (∀ i, l = Some i → states !! i = Some LoggerState) ∧
  (∀ i, i ∈ option_list l → (hp_next (w_heap w) ≤ i < next)%nat) ∧
  (∀ i, i ∉ option_list l → states !! i = hp_states (w_heap w) !! i).
Proof.
  intros [(-> & -> & ->)|(-> & -> & ->)]; simpl.
  - split; [done|]. split; [constructor|]. split; [done|]. split; [set_solver|done].
  - split; [lia|]. split; [apply NoDup_singleton|]. split; [intros i [= <-]; apply lookup_insert_eq|].
    split; [intros i ->%list_elem_of_singleton; lia|]. intros i Hi. rewrite lookup_insert_ne; [done|]. set_solver.
Qed.

Lemma safe_refused_logger {A} w l states next (a : A) :
  owned w →
  made_logger w l states next →
  safe (_ ← on_heap (free_states (option_list l)); mret a)
    (mkWorld (w_objects w) (mkHeap (hp_natives (w_heap w)) states next)).
Proof.
  intros Hw [(-> & -> & ->)|(-> & -> & ->)]; [|by apply safe_refused].
  eapply safe_bind; [by apply on_heap_eq|]. apply safe_ret. by destruct w as [objs [nat st nx]].
Qed.

Lemma safe_Channel_CreateManaged out runtime logger error w :
  owned w → safe (Channel_CreateManaged out runtime logger error) w.
Proof.
  intros Hw. unfold Channel_CreateManaged. destruct (make_logger_spec logger w) as (l & states & next & Hl & Hmade).
  eapply safe_bind; [apply on_heap_eq, Hl|].
  destruct (Error_ok _); cbn [negb]; [|by apply safe_refused_logger].
  eapply safe_bind; [done|]. set (r := match _ with Some _ => _ | None => None end).
  destruct (logger_states w l states next Hmade) as (Hle & Hnd & Hty & Hin & Hout).
  apply (safe_create w Hw states next (NChannel l r) (λ n, OChannel (Some n) l) out); try done.
  unfold r. simpl. destruct runtime as [v|]; [|done]. simpl. destruct (w_objects w !! v) as [[[k|]| | | |]|] eqn:E; try done.
  destruct (own_native w Hw v _ E) as (N & HN & Hm). by destruct N.
Qed.

Lemma safe_ClientStream_Open out callbacks error w : owned w → safe (ClientStream_Open out callbacks error) w.
Proof.
  intros Hw. unfold ClientStream_Open. eapply safe_bind; [by apply on_heap_eq|].
  destruct (Error_ok _); cbn [negb]; [|by apply safe_refused].
  apply (safe_create w Hw _ _ (NStream (hp_next (w_heap w)))
    (λ n, OClientStream (Some n) (Some (hp_next (w_heap w)))) out); simpl; try done.
  - lia.
  - intros n. split; [done|]. split; [done|]. split; [apply NoDup_singleton|]. intros i [= <-].
    rewrite lookup_insert_eq. eauto.
  - intros n i ->%list_elem_of_singleton. lia.
  - intros n i Hi. rewrite lookup_insert_ne; [done|]. set_solver.
Qed.

Lemma safe_Server_Create out logger error w : owned w → releasable w out → safe (Server_Create out logger error) w.
Proof.
  intros Hw Hrel. unfold Server_Create. destruct (make_logger_spec logger w) as (l & states & next & Hl & Hmade).
  eapply safe_bind; [apply on_heap_eq, Hl|].
  destruct (Error_ok _); cbn [negb]; [|by apply safe_refused_logger].
  destruct (logger_states w l states next Hmade) as (Hle & Hnd & Hty & Hin & Hout).
  apply (safe_create w Hw states next (NServer l []) (λ n, OServer (Some n) l []) out); try done.
  intros n. split; [done|]. split; [done|]. split; [done|]. split; [done|set_solver].
Qed.

Lemma safe_Server_RegisterStream this callbacks error w :
  owned w → safe (Server_RegisterStream this callbacks error) w.
Proof.
  intros Hw. unfold Server_RegisterStream. eapply safe_bind; [done|].
  destruct (w_objects w !! this) as [[| | |[s|] l ms|]|] eqn:E; try by apply safe_ret.
  eapply safe_bind; [by apply on_heap_eq|]. eapply safe_bind; [done|].
  destruct (Error_ok _) eqn:Eok; cbn [negb].
  - pose proof (own_native w Hw this _ E) as (N & HN & Hm). destruct N as [| | |l' ms'|]; try done. destruct Hm as [<- <-].
    eapply safe_bind.
    { apply on_heap_eq. unfold native_register. simpl. rewrite HN, decide_True; [done|]. rewrite lookup_insert_eq. eauto. }
    apply safe_ret. by apply (owned_register w this s l ms callbacks).
  - eapply safe_bind; [done|]. simpl. unfold set_object. simpl. rewrite insert_insert_eq, insert_id by done.
    by apply safe_refused.
Qed.

Lemma safe_ServerStream_Retain out server error w logger methods :
  owned w → hp_natives (w_heap w) !! server = Some (NServer logger methods) →
  safe (ServerStream_Retain out server error) w.
Proof.
  intros Hw Hs. unfold ServerStream_Retain. destruct (Error_ok _); cbn [negb]; [|by apply safe_ret].
  pose proof (safe_create w Hw (hp_states (w_heap w)) (hp_next (w_heap w)) (NCall server)
    (λ n, OServerCall (Some n)) out) as H.
  destruct w as [objs [nat st nx]]. apply H; simpl in *; try done; [|set_solver|eauto].
  intros n. repeat split; constructor.
Qed.

Lemma safe_ServerCall_Clone this out error w : owned w → safe (ServerCall_Clone this out error) w.
Proof.
  intros Hw. unfold ServerCall_Clone. eapply safe_bind; [done|].
  destruct (w_objects w !! this) as [[| | | |[c|]]|] eqn:E; try by apply safe_ret.
  pose proof (own_native w Hw this _ E) as (N & HN & Hm). destruct N as [| | | |server]; try done.
  destruct (own_depends w Hw c _ HN) as (logger & methods & Hs).
  eapply safe_bind; [apply on_heap_eq; unfold native_call_server; by rewrite HN|].
  change (mkWorld (w_objects w) (w_heap w)) with (mkWorld (w_objects w) (w_heap w)).
  pose proof (safe_ServerStream_Retain out server error w logger methods Hw Hs) as H. by destruct w.
Qed.

(** Every callback finds its [user_data], of the right type. *)
Lemma report_defined n N e w :
  owned w → hp_natives (w_heap w) !! n = Some N → report N e (w_heap w) = Some ((), w_heap w).
Proof.
  intros Hw HN. destruct (own_no_leak w Hw n N HN) as (v & o & Hv & Hn).
  pose proof (own_native w Hw v o Hv) as Hm. rewrite Hn in Hm. destruct Hm as (N' & HN' & Hm). simplify_eq.
  pose proof (own_typed w Hw v o Hv) as Hty.
  assert (∀ m c ms l, o = OServer (Some n) l ms → ms !! m = Some c →
    ∃ callbacks, hp_states (w_heap w) !! c = Some (MethodState callbacks)) as Hms.
  { intros m c ms l -> Hc. destruct Hty as [_ Hty]. apply Hty. by eapply list_elem_of_lookup_2. }
  destruct o as [r|c l|s c|s l ms|c], N as [|l' r'|c'|l' ms'|s']; simpl in Hm, Hn; try done; simplify_eq.
  - destruct e, l' as [l|]; try done. simpl. unfold Log, deref, mbind, ub_bind. by rewrite (Hty l eq_refl).
  - destruct (Hty c' eq_refl) as [cb Hcb]. destruct e; try done; simpl;
      unfold ClientStream_OnHeaders, ClientStream_OnMessage, ClientStream_OnRemoteEnd, ClientStream_OnWritable,
        ClientStream_OnTerminal, callback_state, deref, mbind, ub_bind; by rewrite Hcb.
  - destruct Hm as [<- <-]. destruct l as [l|], e as [| | | | | |m|m|m|m|m|m]; try done; simpl.
    { destruct Hty as [Hty _]. unfold Log, deref, mbind, ub_bind. by rewrite (Hty l eq_refl). }
    all: destruct (ms !! m) as [c|] eqn:Em; [|done]; destruct (Hms m c ms _ eq_refl Em) as [cb Hcb];
      unfold Server_OnStart, Server_OnMessage, Server_OnRemoteEnd, Server_OnWritable, Server_OnCancel,
        Server_OnTerminal, method_state, deref, mbind, ub_bind; by rewrite Hcb.
Qed.

Lemma safe_move_construct other w : owned w → safe (move_construct other) w.
Proof.
  intros Hw. unfold move_construct. eapply safe_bind; [done|].
  destruct (w_objects w !! other) as [o|] eqn:E; [|by apply safe_ret].
  set (t := hp_next (w_heap w)).
  assert (t ≠ other) as Hne.
  { intros <-. pose proof (own_objects_fresh w t Hw (le_n _)). congruence. }
  eapply safe_bind; [done|]. eapply safe_bind; [done|]. apply safe_ret. simpl.
  pose proof (owned_transfer _ t other (moved_from o) o (owned_new w o Hw)) as H. simpl in H.
  fold t in H. rewrite insert_insert_eq in H. rewrite insert_insert_ne by done. apply H.
  - by rewrite lookup_insert_eq.
  - apply native_of_moved_from.
  - by rewrite lookup_insert_ne.
  - done.
Qed.

Lemma step_safe l w : owned w → obeys_rules w l → safe (step l) w.
Proof.
  intros Hw Hr. destruct l as [o|other|this other|v|out e|out r lg e|out c e|out lg e|this c e|out s e|this out e|n e];
    simpl in Hr; cbn [step].
  - apply safe_seq. eexists _, _. split; [done|]. by apply owned_new.
  - by apply safe_move_construct.
  - destruct (move_assign_spec this other w Hw) as (w' & Hm & Hw' & _); [by intros; apply Hr|]. by exists (), w'.
  - by apply safe_destroy_object.
  - by apply safe_seq, safe_Runtime_Create.
  - by apply safe_seq, safe_Channel_CreateManaged.
  - by apply safe_seq, safe_ClientStream_Open.
  - by apply safe_seq, safe_Server_Create.
  - by apply safe_seq, safe_Server_RegisterStream.
  - destruct Hr as (logger & methods & Hs). by eapply safe_seq, safe_ServerStream_Retain.
  - by apply safe_seq, safe_ServerCall_Clone.
  - exists (), w. split; [|done]. assert (native_report n e (w_heap w) = Some ((), w_heap w)) as H.
    { unfold native_report. destruct (hp_natives (w_heap w) !! n) as [N|] eqn:E; [by eapply report_defined|done]. }
    rewrite (on_heap_eq _ _ _ _ H). by destruct w.
Qed.

Lemma run_owned ls w : owned w → keeps_rules w ls → ∃ w', run world_step w ls = Some w' ∧ owned w'.
Proof.
  revert w. induction ls as [|l ls IH]; intros w Hw Hr; [by exists w|]. destruct Hr as [Hl Hls].
  destruct (step_safe l w Hw Hl) as ([] & w1 & H1 & Hw1).
  assert (world_step w l = Some w1) as Hs by (unfold world_step; by rewrite H1).
  cbn [run]. rewrite Hs. apply IH; [done|]. by apply Hls.
Qed.

(** C30. In every program that keeps the rules of the interface, with callbacks on the
    library's threads at any time: no handle is destroyed twice or used after it
    was destroyed, no [user_data] is freed while the library uses it and every
    callback finds it.  Each live object of the library has an owner, a C++ object of
    the program of the matching class that holds its handle, and only one; each live
    [user_data] is owned by one C++ object; and the handle that a C++ object holds is
    alive.  So an object of the library is destroyed when its owner is, and nothing is
    left when the C++ objects are gone. *)
Theorem handles_owned_once ls :
  keeps_rules World_init ls →
  ∃ w, run world_step World_init ls = Some w ∧
    (∀ n N, hp_natives (w_heap w) !! n = Some N →
       Forall (λ i, is_Some (hp_states (w_heap w) !! i)) (user_data N) ∧
       ∃ v o, w_objects w !! v = Some o ∧ native_of o = Some n ∧ matches o N ∧
         ∀ v' o', w_objects w !! v' = Some o' → native_of o' = Some n → v' = v) ∧
    (∀ i s, hp_states (w_heap w) !! i = Some s →
       ∃ v o, w_objects w !! v = Some o ∧ i ∈ states_of o ∧
         ∀ v' o', w_objects w !! v' = Some o' → i ∈ states_of o' → v' = v) ∧
    (∀ v o n, w_objects w !! v = Some o → native_of o = Some n → is_Some (hp_natives (w_heap w) !! n)) ∧
    (w_objects w = ∅ → hp_natives (w_heap w) = ∅ ∧ hp_states (w_heap w) = ∅).
Proof.
  intros Hr. destruct (run_owned ls World_init owned_init Hr) as (w & Hrun & Hw).
  exists w. split; [done|]. split_and!.
  - intros n N HN. destruct (own_no_leak w Hw n N HN) as (v & o & Hv & Hn).
    pose proof (own_native w Hw v o Hv) as Hm. rewrite Hn in Hm. destruct Hm as (N' & HN' & Hm). simplify_eq. split.
    + rewrite (matches_user_data o N n Hn Hm). apply Forall_forall. intros i Hi.
      eapply typed_states_live; [by eapply (own_typed w Hw)|done].
    + exists v, o. split_and!; [done..|]. intros v' o' Hv' Hn'. by eapply (own_unique w Hw).
  - intros i s Hi. destruct (own_state_no_leak w Hw i s Hi) as (v & o & Hv & Ho). exists v, o. split_and!; [done..|].
    intros v' o' Hv' Ho'. by eapply (own_state_unique w Hw).
  - intros v o n Hv Hn. pose proof (own_native w Hw v o Hv) as Hm. rewrite Hn in Hm. destruct Hm as (N & HN & _). by exists N.
  - intros He. split; apply map_eq; intros k; rewrite lookup_empty.
    + destruct (hp_natives (w_heap w) !! k) as [N|] eqn:E; [|done].
      destruct (own_no_leak w Hw k N E) as (v & o & Hv & _). by rewrite He, lookup_empty in Hv.
    + destruct (hp_states (w_heap w) !! k) as [s|] eqn:E; [|done].
      destruct (own_state_no_leak w Hw k s E) as (v & o & Hv & _). by rewrite He, lookup_empty in Hv.
Qed.

#[export] Instance releasable_dec w v : Decision (releasable w v).
Proof. unfold releasable. destruct (w_objects w !! v) as [[[]| | |[] ? ?|]|]; apply _. Defined.

(** A server with a logger and a method, a call retained in a callback, a move of
    the server, and the end of everything *)
Definition example_callbacks : ServerStreamCallbacks :=
  mkServerStreamCallbacks true (Some (λ _ _, Pause)) true false true true.

Definition example_program : list Step :=
  [NewObject (OServer None None []); CreateServer 0 true ok; RegisterStream 0 example_callbacks ok;
   RegisterStream 0 example_callbacks invalid_state; NewObject (OServerCall None);
   Report 2 (EvServerMessage 0 "x" Identity); Retain 6 2 ok; Report 2 (EvLog 1 "call");
   NewObject (OServer None None []); EndObject 6; MoveAssign 9 0; Report 2 (EvServerTerminal 0 1 0);
   EndObject 0; EndObject 9].

Lemma handles_owned_once_witness :
  ∃ w, run world_step World_init example_program = Some w ∧ w_objects w = ∅ ∧
    hp_natives (w_heap w) = ∅ ∧ hp_states (w_heap w) = ∅.
Proof.
  destruct (handles_owned_once example_program) as (w & Hr & _ & _ & _ & He).
  { repeat (split;
      [first [exact I | intros _; apply (bool_decide_unpack _); vm_compute; exact I
             | apply (bool_decide_unpack _); vm_compute; exact I | eexists _, _; vm_compute; reflexivity]
      |intros w' Hw'; vm_compute in Hw'; injection Hw' as <-]). exact I. }
  exists w. assert (w_objects w = ∅) as Ho by (vm_compute in Hr; injection Hr as <-; reflexivity).
  split; [exact Hr|]. split; [exact Ho|]. exact (He Ho).
Defined.
