(* ===== verification/UbLogic.v ===== *)
(** * Programs that may be undefined

    A logic for the computations [UB] of [Prelude]: [wp m Q s] says that [m] is defined
    in state [s] and ends with a result and a state in [Q]. *)

From S2P Require Import Prelude.

(** An assertion of the code *)
Definition check {S} (b : bool) : UB S () := if b then mret () else undefined.

Definition modify {S} (f : S → S) : UB S () := s ← get; put (f s).

Lemma bind_step {S A B} (m : UB S A) (k : A → UB S B) s a s' : m s = Some (a, s') → (m ≫= k) s = k a s'.
Proof. intros H. unfold mbind, ub_bind. by rewrite H. Qed.

(** ** Total correctness *)

Definition wp {S A} (m : UB S A) (Q : A → S → Prop) (s : S) : Prop :=
  match m s with Some (a, s') => Q a s' | None => False end.

Lemma wp_then {S A B} (m : UB S A) (k : A → UB S B) Q s : wp m (λ a, wp (k a) Q) s → wp (m ≫= k) Q s.
Proof. unfold wp, mbind, ub_bind. by destruct (m s) as [[a s']|]. Qed.

Lemma wp_mono {S A} (m : UB S A) (P Q : A → S → Prop) s : wp m P s → (∀ a s', P a s' → Q a s') → wp m Q s.
Proof. unfold wp. destruct (m s) as [[a s']|]; [|done]. auto. Qed.

Lemma wp_Some {S A} (m : UB S A) Q s : wp m Q s → ∃ a s', m s = Some (a, s') ∧ Q a s'.
Proof. unfold wp. destruct (m s) as [[a s']|]; [|done]. eauto. Qed.

(** Prove the first part of a sequence by a lemma, and go on. *)
Tactic Notation "wp_step" uconstr(lem) "as" simple_intropattern(p) :=
  apply wp_then; eapply wp_mono; [eapply lem; eauto|intros ? ? p].

Lemma wp_ret {S A} (a : A) (Q : A → S → Prop) s : Q a s → wp (mret a) Q s.
Proof. done. Qed.

Lemma wp_modify {S} (f : S → S) (Q : () → S → Prop) s : Q () (f s) → wp (modify f) Q s.
Proof. done. Qed.

Lemma wp_get {S} (Q : S → S → Prop) s : Q s s → wp get Q s.
Proof. done. Qed.

Lemma wp_put {S} (s' : S) (Q : () → S → Prop) s : Q () s' → wp (put s') Q s.
Proof. done. Qed.

Lemma wp_check {S} b (Q : () → S → Prop) s : b = true → Q () s → wp (check b) Q s.
Proof. by intros ->. Qed.

(** Go through what the state alone decides. *)
Ltac wp_go :=
  repeat (lazymatch goal with
    | |- wp (get ≫= _) _ _ => apply wp_then, wp_get
    | |- wp (put _ ≫= _) _ _ => apply wp_then, wp_put
    | |- wp (modify _ ≫= _) _ _ => apply wp_then, wp_modify
    | |- wp (mret _ ≫= _) _ _ => apply wp_then, wp_ret
    end; cbv beta).
