(* ===== verification/ServerReactor.v ===== *)
(** * Connections and reactors of a server

    The connections of one reactor of [src/server.zig] from accepting to
    destruction, the listener, draining and stopping; the build without TLS.

    A connection is memory that is allocated and freed: [rx_conns] holds the ones
    that exist, and using another is undefined.  What the event loop still has to
    deliver for a connection ([ConnOps]) is kept apart from it, so that a callback
    after the connection was freed is undefined too; so is adding a completion that
    is active already, and a failed assertion.

    What nghttp2 does with the bytes of a peer is a list of events, and what it has to
    send a list of chunks; both are arguments, as are the results of allocations and
    system calls.  Application threads come in where the code takes the lock of the
    reactor: the shutdown requests of [rx_sched] are made there. *)

From S2P Require Import Prelude UbLogic.

Local Open Scope Z_scope.

(** ** Data *)

Inductive State : Set := Initialized | Starting | Running | Draining | Stopping | Stopped.
Inductive ShutdownRequest : Set := NoShutdown | Graceful | Immediate.
Inductive CloseReason : Set :=
  | PeerTransport | ProtocolLocal | PrefaceTimeout | IdleTimeout | GracefulDrain | ForcedShutdown.
Inductive ConnectionDeadlineKind : Set := CleartextPreface | Idle.

#[export] Instance State_eq_dec : EqDecision State.
Proof. solve_decision. Defined.
#[export] Instance ShutdownRequest_eq_dec : EqDecision ShutdownRequest.
Proof. solve_decision. Defined.
#[export] Instance ConnectionDeadlineKind_eq_dec : EqDecision ConnectionDeadlineKind.
Proof. solve_decision. Defined.

(** [write_queue] has the buffers, [streams] the streams by their ids, with whether
    one is streaming and has no trailers yet.  The last fields are ghost: how much of
    the first buffer the kernel has taken, what it was given in all, what the session
    has produced in all, and the length of the longest chunk of that. *)
Record Connection := mkConnection {
  owns_admission : bool;
  close_reason : option CloseReason;
  session : bool;
  streams : gmap Z bool;
  highest_accepted_stream_id : Z;
  local_goaway_submitted : bool;
  pending_writes : Z;
  queued_write_bytes : Z;
  draining : bool;
  close_after_writes : bool;
  closing : bool;
  read_active : bool;
  read_cancel_submitted : bool;
  write_cancel_submitted : bool;
  close_submitted : bool;
  close_completed : bool;
  write_queue : list (list Z);
  read_buffer : bool;
  connection_deadline : option ConnectionDeadlineKind;
  head_written : nat;
  sent : list Z;
  produced : list Z;
  longest : Z }.

#[export] Instance eta_Connection : Eta Connection := λ x,
  mkConnection (owns_admission x) (close_reason x) (session x) (streams x) (highest_accepted_stream_id x)
    (local_goaway_submitted x) (pending_writes x) (queued_write_bytes x) (draining x) (close_after_writes x) (closing x)
    (read_active x) (read_cancel_submitted x) (write_cancel_submitted x) (close_submitted x) (close_completed x)
    (write_queue x) (read_buffer x) (connection_deadline x) (head_written x) (sent x) (produced x) (longest x).

Definition Connection_init : Connection :=
  mkConnection false None false ∅ 0 false 0 0 false false false false false false false false [] false None 0 [] [] 0.

(** The completions of a connection that the event loop has: [op_write] is the one of
    the first buffer in the queue. *)
Record ConnOps := mkConnOps {
  op_read : bool; op_write : bool; op_read_cancel : bool; op_write_cancel : bool; op_close : bool }.

#[export] Instance eta_ConnOps : Eta ConnOps := λ o,
  mkConnOps (op_read o) (op_write o) (op_read_cancel o) (op_write_cancel o) (op_close o).

Definition no_ops : ConnOps := mkConnOps false false false false false.

Record Cell := mkCell { conn : Connection; ops : ConnOps }.

#[export] Instance eta_Cell : Eta Cell := λ e, mkCell (conn e) (ops e).

(** The listener, with its completions *)
Record Listener := mkListener {
  listener_initialized : bool;
  listener_accept_active : bool;
  listener_accept_cancel_submitted : bool;
  listener_close_submitted : bool;
  listener_closed : bool;
  op_accept : bool;
  op_accept_cancel : bool;
  op_listener_close : bool }.

#[export] Instance eta_Listener : Eta Listener := λ l,
  mkListener (listener_initialized l) (listener_accept_active l) (listener_accept_cancel_submitted l)
    (listener_close_submitted l) (listener_closed l) (op_accept l) (op_accept_cancel l) (op_listener_close l).

(** What the lock of a reactor protects, and whether [shutdown_async] was notified;
    [startup_error] is whether there was one.  [notify_lost] is ghost: a notification or
    the drain timer failed. *)
Record Shared := mkShared {
  state : State;
  shutdown_request : ShutdownRequest;
  drain_timeout_ns : Z;
  startup_error : bool;
  shutdown_notified : bool;
  notify_lost : bool }.

#[export] Instance eta_Shared : Eta Shared := λ s,
  mkShared (state s) (shutdown_request s) (drain_timeout_ns s) (startup_error s) (shutdown_notified s) (notify_lost s).

(** A shutdown request of another thread; [rq_notified] is whether [notify] succeeds. *)
Record Request := mkRequest { rq_request : ShutdownRequest; rq_timeout : Z; rq_notified : bool }.

Record Config := mkConfig {
  max_connections : Z;
  write_high_watermark_bytes : Z;
  write_low_watermark_bytes : Z;
  max_concurrent_streams_per_connection : Z }.

(** One reactor at work.  [rx_admitted] is the counter that all reactors share,
    [rx_claimed] whether an accept has claimed a connection that does not exist yet,
    [rx_failed] whether the loop has ended with an error, [rx_sched] the requests to come at the next points where the lock is taken. *)
Record Reactor := mkReactor {
  rx_conns : gmap nat Connection;
  rx_ops : gmap nat ConnOps;
  rx_connections : list nat;
  rx_dirty : list nat;
  rx_commands : list (nat * Z);
  rx_listener : Listener;
  rx_shared : Shared;
  rx_drain_started : bool;
  rx_drain_timer : bool;
  rx_stream_notified : bool;
  rx_stream_wait : bool;
  rx_loop_stopped : bool;
  rx_claimed : bool;
  rx_admitted : Z;
  rx_failed : bool;
  rx_sched : list (list Request) }.

#[export] Instance eta_Reactor : Eta Reactor := λ r,
  mkReactor (rx_conns r) (rx_ops r) (rx_connections r) (rx_dirty r) (rx_commands r) (rx_listener r) (rx_shared r)
    (rx_drain_started r) (rx_drain_timer r) (rx_stream_notified r) (rx_stream_wait r) (rx_loop_stopped r)
    (rx_claimed r) (rx_admitted r) (rx_failed r) (rx_sched r).

Definition ops_of (r : Reactor) (c : nat) : ConnOps := default no_ops (rx_ops r !! c).

(** ** Functions on one connection *)

Definition arm_read : UB Cell () :=
  e ← get; if op_read (ops e) then undefined else put (e <| ops := (ops e) <| op_read := true |> |>).
Definition arm_write : UB Cell () :=
  e ← get; if op_write (ops e) then undefined else put (e <| ops := (ops e) <| op_write := true |> |>).
Definition arm_read_cancel : UB Cell () :=
  e ← get; if op_read_cancel (ops e) then undefined else put (e <| ops := (ops e) <| op_read_cancel := true |> |>).
Definition arm_write_cancel : UB Cell () :=
  e ← get; if op_write_cancel (ops e) then undefined else put (e <| ops := (ops e) <| op_write_cancel := true |> |>).
Definition arm_close : UB Cell () :=
  e ← get; if op_close (ops e) then undefined else put (e <| ops := (ops e) <| op_close := true |> |>).

(** The connection itself *)
Definition self : UB Cell Connection := e ← get; mret (conn e).
Definition set_self (f : Connection → Connection) : UB Cell () := modify (λ e, e <| conn := f (conn e) |>).

Definition latchCloseReason (reason : CloseReason) : UB Cell () :=
  set_self (λ x, match close_reason x with None => x <| close_reason := Some reason |> | Some _ => x end).

(** The heap of deadlines is kept by [connection_deadline] alone. *)
Definition clearConnectionDeadline : UB Cell () := set_self (λ x, x <| connection_deadline := None |>).

Definition setConnectionDeadline (memory : bool) (kind : ConnectionDeadlineKind) : UB Cell bool :=
  if memory then _ ← set_self (λ x, x <| connection_deadline := Some kind |>); mret true else mret false.

Definition startRead (memory : bool) : UB Cell bool :=
  x ← self;
  if close_after_writes x || closing x || read_active x then mret true
  else if negb (read_buffer x) && negb memory then mret false
  else
    _ ← set_self (λ x, x <| read_buffer := true |> <| read_active := true |>);
    _ ← arm_read; mret true.

Definition submitCloseIfReady : UB Cell () :=
  x ← self;
  if close_submitted x || read_active x || negb (pending_writes x =? 0) then mret ()
  else _ ← set_self (λ x, x <| close_submitted := true |>); arm_close.

Definition completeQueuedWrite (queued length : Z) : UB Cell Z :=
  if length <=? queued then mret (queued - length) else undefined.

(** What is common to [onWrite] and [discardQueuedWrites]: the accounts for one
    buffer less; [pending_writes] is unsigned. *)
Definition account_write (bytes : list Z) : UB Cell () :=
  x ← self;
  _ ← check (0 <? pending_writes x);
  queued ← completeQueuedWrite (queued_write_bytes x) (Z.of_nat (length bytes));
  set_self (λ x, x <| pending_writes := pending_writes x - 1 |> <| queued_write_bytes := queued |>).

Fixpoint discard_loop (queue : list (list Z)) : UB Cell () :=
  match queue with
  | [] => mret ()
  | bytes :: rest =>
      _ ← set_self (λ x, x <| write_queue := rest |> <| head_written := 0%nat |>);
      _ ← account_write bytes; discard_loop rest
  end.

Definition discardQueuedWrites : UB Cell () := x ← self; discard_loop (write_queue x).

(** [closeOnLoop] after the check of [closing], without the streams *)
Definition close_ops : UB Cell () :=
  x ← self;
  _ ← (if read_active x then _ ← set_self (λ x, x <| read_cancel_submitted := true |>); arm_read_cancel else mret ());
  e ← get;
  _ ← (match write_queue (conn e) with
       | [] => mret ()
       | _ =>
           if op_write (ops e) then _ ← set_self (λ x, x <| write_cancel_submitted := true |>); arm_write_cancel
           else discardQueuedWrites
       end);
  submitCloseIfReady.

(** [queueOwnedSocketWrite]; [memory] is whether a request could be had.  The last
    part is [queueWrite] of libxev. *)
Definition queueOwnedSocketWrite (memory : bool) (bytes : list Z) : UB Cell bool :=
  if negb memory then mret false
  else
    x ← self;
    match add_usize (pending_writes x) 1, add_usize (queued_write_bytes x) (Z.of_nat (length bytes)) with
    | Some pending, Some queued =>
        _ ← (match write_queue x with [] => arm_write | _ => mret () end);
        _ ← set_self (λ x, x <| pending_writes := pending |> <| queued_write_bytes := queued |>
                             <| write_queue := write_queue x ++ [bytes] |>);
        mret true
    | _, _ => mret false
    end.

Definition canFlushWritesWithPending (queued pending high : Z) : bool := (queued <? high) && (pending <? high - queued).

Definition socket_write_batch_target : Z := 64 * 1024.

(** [CleartextWriteBatch.append]: the batch that is complete, if any, and the one that
    is being filled *)
Definition batch_append (batch chunk : list Z) : option (list Z) * list Z :=
  let len := Z.of_nat (length batch) in
  if negb (len =? 0) &&
     ((socket_write_batch_target <=? len) || (socket_write_batch_target - len <? Z.of_nat (length chunk)))
  then (Some batch, chunk) else (None, batch ++ chunk).

Definition batch_ready (batch : list Z) : bool := socket_write_batch_target <=? Z.of_nat (length batch).

(** ** The reactor around it *)

Definition on_conn {A} (c : nat) (m : UB Cell A) : UB Reactor A := λ r,
  match rx_conns r !! c with
  | None => None
  | Some x =>
      match m (mkCell x (ops_of r c)) with
      | None => None
      | Some (a, e) => Some (a, r <| rx_conns := <[c := conn e]> (rx_conns r) |> <| rx_ops := <[c := ops e]> (rx_ops r) |>)
      end
  end.

Definition conn_at (c : nat) : UB Reactor Connection := on_conn c self.

(** [notify() catch {}] *)
Definition notifyShutdown (notified : bool) (s : Shared) : Shared :=
  if notified then s <| shutdown_notified := true |> else s <| notify_lost := true |>.

Definition shutdownReactor (q : Request) (s : Shared) : Shared :=
  match state s with
  | Initialized => s <| state := Stopped |>
  | Starting =>
      if bool_decide (rq_request q = Immediate) || bool_decide (shutdown_request s = NoShutdown)
      then s <| shutdown_request := rq_request q |> <| drain_timeout_ns := rq_timeout q |> else s
  | Running =>
      notifyShutdown (rq_notified q)
        (s <| shutdown_request := rq_request q |> <| drain_timeout_ns := rq_timeout q |>
           <| state := if decide (rq_request q = Graceful) then Draining else Stopping |>)
  | Draining =>
      if decide (rq_request q = Immediate)
      then notifyShutdown (rq_notified q) (s <| shutdown_request := Immediate |> <| state := Stopping |>)
      else s
  | Stopping | Stopped => s
  end.

(** Taking the lock *)
Definition lock : UB Reactor Shared :=
  r ← get;
  match rx_sched r with
  | [] => mret (rx_shared r)
  | qs :: sched =>
      let s := foldl (λ s q, shutdownReactor q s) (rx_shared r) qs in
      _ ← put (r <| rx_sched := sched |> <| rx_shared := s |>); mret s
  end.

Definition removeDirtyConnection (c : nat) : UB Reactor () :=
  modify (λ r, r <| rx_dirty := filter (λ c', c' ≠ c) (rx_dirty r) |>).

Definition enqueueDirtyConnection (c : nat) : UB Reactor bool :=
  _ ← conn_at c;
  r ← get;
  if decide (c ∈ rx_dirty r) then mret false
  else _ ← put (r <| rx_dirty := rx_dirty r ++ [c] |>); mret (bool_decide (rx_dirty r = [])).

(** [discardStreamCommands] for the streams of [c] that [p] selects *)
Definition discard_commands (c : nat) (p : Z → bool) : UB Reactor () :=
  modify (λ r, r <| rx_commands := filter (λ t, ¬ (t.1 = c ∧ p t.2 = true)) (rx_commands r) |>).

(** [cancelStreaming] on the streams that are streaming and have no trailers yet *)
Definition cancel_streams (c : nat) : UB Reactor () :=
  x ← conn_at c; discard_commands c (λ id, bool_decide (streams x !! id = Some true)).

Definition closeOnLoop (c : nat) : UB Reactor () :=
  _ ← on_conn c (latchCloseReason ProtocolLocal);
  _ ← removeDirtyConnection c;
  _ ← on_conn c clearConnectionDeadline;
  x ← conn_at c;
  if closing x then mret ()
  else
    _ ← on_conn c (set_self (λ x, x <| closing := true |>));
    _ ← cancel_streams c;
    on_conn c close_ops.

Definition closeWithReason (c : nat) (reason : CloseReason) : UB Reactor () :=
  _ ← on_conn c (latchCloseReason reason); closeOnLoop c.

Definition closeGracefully (c : nat) : UB Reactor () :=
  x ← conn_at c;
  if closing x || close_after_writes x then mret ()
  else
    _ ← on_conn c (latchCloseReason ProtocolLocal);
    _ ← on_conn c (set_self (λ x, x <| close_after_writes := true |>));
    x ← conn_at c;
    if pending_writes x =? 0 then closeOnLoop c else mret ().

(** [want] is whether the session wants to read or to write. *)
Definition closeTerminatedSession (c : nat) (want : bool) : UB Reactor () :=
  x ← conn_at c;
  if local_goaway_submitted x || closing x || want then mret () else closeGracefully c.

Definition maybeCloseDrainedConnection (c : nat) : UB Reactor () :=
  x ← conn_at c;
  if draining x && negb (closing x) && bool_decide (streams x = ∅) && (pending_writes x =? 0) then
    _ ← on_conn c (latchCloseReason GracefulDrain); closeGracefully c
  else mret ().

Definition maybeStopLoop : UB Reactor () :=
  s ← lock;
  r ← get;
  if bool_decide (state s = Stopping) && listener_closed (rx_listener r) && bool_decide (rx_connections r = [])
  then put (r <| rx_loop_stopped := true |>) else mret ().

Definition finishDrainIfIdle : UB Reactor () :=
  s ← lock;
  r ← get;
  if bool_decide (state s = Draining) && bool_decide (rx_connections r = []) then
    _ ← lock;
    _ ← modify (λ r, r <| rx_shared := (rx_shared r) <| state := Stopping |> |>);
    maybeStopLoop
  else mret ().

(** [swapRemove] at the first place of [c] *)
Fixpoint index_of (c : nat) (l : list nat) : option nat :=
  match l with [] => None | c' :: l' => if decide (c' = c) then Some 0%nat else S <$> index_of c l' end.

Definition swapRemove (i : nat) (l : list nat) : list nat :=
  match last l with
  | None => l
  | Some z => if decide (S i = length l) then take i l else take (length l - 1) (<[i := z]> l)
  end.

Definition releaseConnection (cfg : Config) : UB Reactor () :=
  r ← get;
  _ ← check ((0 <? rx_admitted r) && (rx_admitted r <=? max_connections cfg));
  put (r <| rx_admitted := rx_admitted r - 1 |>).

Definition destroy_connection (c : nat) : UB Reactor () :=
  modify (λ r, r <| rx_conns := delete c (rx_conns r) |>).

(** [assert(retireStream(stream))] for all streams: a stream can be destroyed when no
    command refers to it.  These are the ones in the queue, as [processStreamCommands]
    has worked off the ones it took before a connection is destroyed. *)
Definition retire_streams (c : nat) : UB Reactor () :=
  _ ← discard_commands c (λ _, true);
  r ← get;
  check (forallb (λ t, negb (bool_decide (t.1 = c))) (rx_commands r)).

Definition finishCloseIfReady (cfg : Config) (c : nat) : UB Reactor () :=
  x ← conn_at c;
  if negb (close_completed x) || read_active x || negb (pending_writes x =? 0)
     || read_cancel_submitted x || write_cancel_submitted x then mret ()
  else
    _ ← removeDirtyConnection c;
    _ ← on_conn c clearConnectionDeadline;
    _ ← retire_streams c;
    _ ← check (bool_decide (write_queue x = []));
    r ← get;
    match index_of c (rx_connections r) with
    | None => undefined
    | Some i =>
        _ ← put (r <| rx_connections := swapRemove i (rx_connections r) |>);
        _ ← (if owns_admission x then releaseConnection cfg else mret ());
        _ ← destroy_connection c;
        _ ← finishDrainIfIdle;
        maybeStopLoop
    end.

(** ** Events of a session *)

(** In [StreamClosed], [memory] is whether the idle deadline can be stored. *)
Inductive StreamEvent : Set :=
  | StreamStarted (id : Z)
  | TrailersSubmitted (id : Z)
  | StreamClosed (id : Z) (memory : bool).

(** Events while the session receives: a request, the settings of the peer, a stream,
    and a failure after which a callback closes the connection *)
Inductive RecvEvent : Set :=
  | BeginHeaders (id : Z) (memory : bool)
  | SettingsReceived (memory : bool)
  | OnStream (e : StreamEvent)
  | CallbackCloses.

(** Where storing a chunk fails *)
Inductive Fault : Set := NoFault | AppendFails | QueueFails | ReadyFails.

(** One call of [nghttp2_session_mem_send2]; no data ends the loop. *)
Inductive SendStep : Set :=
  | SendFails
  | SendChunk (events : list StreamEvent) (data : list Z) (fault : Fault).

Record Flush := mkFlush { fl_steps : list SendStep; fl_memory : bool }.

Definition armIdleDeadline (c : nat) (memory : bool) : UB Reactor bool :=
  x ← conn_at c;
  if closing x || draining x || negb (bool_decide (streams x = ∅)) then mret true
  else
    s ← lock;
    if negb (bool_decide (state s = Running)) || negb (bool_decide (shutdown_request s = NoShutdown)) then mret true
    else on_conn c (setConnectionDeadline memory Idle).

(** The result of a callback is whether it succeeds. *)
Definition onBeginHeaders (cfg : Config) (c : nat) (id : Z) (memory : bool) : UB Reactor bool :=
  x ← conn_at c;
  if draining x then mret true
  else if max_concurrent_streams_per_connection cfg <=? Z.of_nat (size (streams x)) then mret true
  else if negb memory then mret false
  else
    _ ← on_conn c (set_self (λ x,
          x <| streams := <[id := false]> (streams x) |>
            <| connection_deadline := match connection_deadline x with Some Idle => None | d => d end |>
            <| highest_accepted_stream_id := Z.max (highest_accepted_stream_id x) id |>));
    mret true.

Definition onSettings (c : nat) (memory : bool) : UB Reactor bool :=
  x ← conn_at c;
  match connection_deadline x with
  | Some CleartextPreface => _ ← on_conn c clearConnectionDeadline; armIdleDeadline c memory
  | _ => mret true
  end.

Definition onStreamClose (c : nat) (id : Z) (memory : bool) : UB Reactor bool :=
  _ ← on_conn c (set_self (λ x, x <| streams := delete id (streams x) |>));
  _ ← discard_commands c (λ id', bool_decide (id' = id));
  x ← conn_at c;
  if draining x then _ ← finishDrainIfIdle; mret true
  else if bool_decide (streams x = ∅) then armIdleDeadline c memory
  else mret true.

Definition set_stream (id : Z) (streaming : bool) : UB Cell () :=
  set_self (λ x, match streams x !! id with
                 | Some _ => x <| streams := <[id := streaming]> (streams x) |>
                 | None => x
                 end).

Definition stream_event (c : nat) (e : StreamEvent) : UB Reactor bool :=
  match e with
  | StreamStarted id => _ ← on_conn c (set_stream id true); mret true
  | TrailersSubmitted id => _ ← on_conn c (set_stream id false); mret true
  | StreamClosed id memory => onStreamClose c id memory
  end.

Definition recv_event (cfg : Config) (c : nat) (e : RecvEvent) : UB Reactor bool :=
  match e with
  | BeginHeaders id memory => onBeginHeaders cfg c id memory
  | SettingsReceived memory => onSettings c memory
  | OnStream e => stream_event c e
  | CallbackCloses => _ ← closeWithReason c ProtocolLocal; mret true
  end.

(** Events in order, until a callback fails *)
Fixpoint all_events {E} (f : E → UB Reactor bool) (es : list E) : UB Reactor bool :=
  match es with
  | [] => mret true
  | e :: es' => ok ← f e; if ok : bool then all_events f es' else mret false
  end.

(** The rest of a round of [flush] once there is a chunk: the batch that is being
    filled, or [None] for an error *)
Definition flush_chunk (c : nat) (batch data : list Z) (fault : Fault) : UB Reactor (option (list Z)) :=
  let '(completed, batch') := batch_append batch data in
  match fault with
  | AppendFails => mret None
  | _ =>
      ok ← (match completed with
            | Some bytes => on_conn c (queueOwnedSocketWrite (match fault with QueueFails => false | _ => true end) bytes)
            | None => mret true
            end);
      if negb ok then mret None
      else if batch_ready batch' then
        ok ← on_conn c (queueOwnedSocketWrite (match fault with ReadyFails => false | _ => true end) batch');
        mret (if ok : bool then Some [] else None)
      else mret (Some batch')
  end.

Fixpoint flush_loop (cfg : Config) (c : nat) (steps : list SendStep) (batch : list Z) : UB Reactor (option (list Z)) :=
  match steps with
  | [] => mret (Some batch)
  | step :: steps' =>
      x ← conn_at c;
      if closing x then mret (Some batch)
      else if negb (canFlushWritesWithPending (queued_write_bytes x) (Z.of_nat (length batch))
                      (write_high_watermark_bytes cfg)) then mret (Some batch)
      else
        match step with
        | SendFails => mret None
        | SendChunk events data fault =>
            ok ← all_events (stream_event c) events;
            if negb ok then mret None
            else
              match data with
              | [] => mret (Some batch)
              | _ =>
                  _ ← on_conn c (set_self (λ x, x <| produced := produced x ++ data |> <| longest := Z.max (longest x) (Z.of_nat (length data)) |>));
                  b ← flush_chunk c batch data fault;
                  match b with None => mret None | Some batch' => flush_loop cfg c steps' batch' end
              end
        end
  end.

(** Whether it succeeded *)
Definition flush (cfg : Config) (c : nat) (f : Flush) : UB Reactor bool :=
  b ← flush_loop cfg c (fl_steps f) [];
  match b with
  | None => mret false
  | Some [] => mret true
  | Some batch => on_conn c (queueOwnedSocketWrite (fl_memory f) batch)
  end.

(** [... catch connection.closeOnLoop(loop)] *)
Definition or_close (c : nat) (m : UB Reactor bool) : UB Reactor () :=
  ok ← m; if ok : bool then mret () else closeOnLoop c.

(** ** The listener *)

Definition set_listener (f : Listener → Listener) : UB Reactor () := modify (λ r, r <| rx_listener := f (rx_listener r) |>).

Definition closeListener : UB Reactor () :=
  r ← get;
  let l := rx_listener r in
  if negb (listener_initialized l) || listener_close_submitted l then mret ()
  else if listener_accept_active l then
    if listener_accept_cancel_submitted l then mret ()
    else
      _ ← check (negb (op_accept_cancel l));
      set_listener (λ l, l <| listener_accept_cancel_submitted := true |> <| op_accept_cancel := true |>)
  else
    _ ← check (negb (op_listener_close l));
    set_listener (λ l, l <| listener_close_submitted := true |> <| op_listener_close := true |>).

Definition rearmListener : UB Reactor () :=
  r ← get;
  _ ← check (negb (op_accept (rx_listener r)));
  set_listener (λ l, l <| listener_accept_active := true |> <| op_accept := true |>).

Definition isAccepting : UB Reactor bool := s ← lock; mret (bool_decide (state s = Running)).

Definition tryClaimConnection (cfg : Config) : UB Reactor bool :=
  r ← get;
  if rx_admitted r <? max_connections cfg then _ ← put (r <| rx_admitted := rx_admitted r + 1 |>); mret true
  else mret false.

(** [onConnection] up to the claim; [accepted] is whether there is a socket.  The
    completion is not in the loop while its callback runs. *)
Definition onConnection_claim (cfg : Config) (accepted : bool) : UB Reactor () :=
  _ ← set_listener (λ l, l <| listener_accept_active := false |>);
  accepting ← isAccepting;
  if negb accepting then closeListener
  else if negb accepted then rearmListener
  else
    claimed ← tryClaimConnection cfg;
    if claimed : bool then modify (λ r, r <| rx_claimed := true |>) else rearmListener.

(** What happens to a claimed connection: [ad_address] is where it is allocated, if
    it is; [ad_session] whether the session exists and whether its set-up succeeds *)
Record Admit := mkAdmit {
  ad_nodelay : bool;
  ad_address : option nat;
  ad_append : bool;
  ad_session : bool * bool;
  ad_deadline : bool;
  ad_read : bool;
  ad_flush : Flush }.

Definition create_connection (c : nat) : UB Reactor () :=
  r ← get;
  match rx_conns r !! c with
  | Some _ => undefined
  | None =>
      put (r <| rx_conns := <[c := Connection_init]> (rx_conns r) |> <| rx_connections := rx_connections r ++ [c] |>)
  end.

(** The rest of [onConnection] *)
Definition onConnection_admitted (cfg : Config) (a : Admit) : UB Reactor () :=
  _ ← modify (λ r, r <| rx_claimed := false |>);
  if negb (ad_nodelay a) then _ ← releaseConnection cfg; rearmListener
  else
    match ad_address a with
    | None => _ ← releaseConnection cfg; rearmListener
    | Some c =>
        if negb (ad_append a) then _ ← releaseConnection cfg; rearmListener
        else
          _ ← create_connection c;
          _ ← on_conn c (set_self (λ x, x <| owns_admission := true |>));
          _ ← on_conn c (set_self (λ x, x <| session := (ad_session a).1 |>));
          if negb ((ad_session a).1 && (ad_session a).2) then _ ← closeOnLoop c; rearmListener
          else
            ok ← on_conn c (setConnectionDeadline (ad_deadline a) CleartextPreface);
            if negb ok then _ ← closeOnLoop c; rearmListener
            else
              _ ← or_close c (on_conn c (startRead (ad_read a)));
              _ ← or_close c (flush cfg c (ad_flush a));
              rearmListener
    end.

(** ** Draining and stopping *)

Fixpoint for_each (f : nat → UB Reactor ()) (l : list nat) : UB Reactor () :=
  match l with [] => mret () | c :: l' => _ ← f c; for_each f l' end.

Definition stopImmediately (reason : CloseReason) : UB Reactor () :=
  _ ← closeListener;
  r ← get;
  _ ← for_each (λ c, closeWithReason c reason) (rx_connections r);
  maybeStopLoop.

(** What happens to connection [c] in [beginDrain]: whether the GOAWAY can be
    submitted, and what there is to send *)
Record DrainEnv := mkDrainEnv { dr_goaway : nat → bool; dr_flush : nat → Flush }.

Definition drain_connection (cfg : Config) (d : DrainEnv) (c : nat) : UB Reactor () :=
  x ← conn_at c;
  if draining x || closing x || negb (session x) then mret ()
  else
    _ ← on_conn c (set_self (λ x, x <| draining := true |> <| local_goaway_submitted := true |>));
    if negb (dr_goaway d c) then closeOnLoop c else or_close c (flush cfg c (dr_flush d c)).

Definition beginDrain (cfg : Config) (d : DrainEnv) : UB Reactor () :=
  r ← get;
  _ ← for_each (λ c, on_conn c clearConnectionDeadline) (rx_connections r);
  r ← get;
  _ ← (if rx_drain_started r then mret ()
       else
         _ ← modify (λ r, r <| rx_drain_started := true |>);
         _ ← closeListener;
         modify (λ r, r <| rx_drain_timer := true |>));
  r ← get;
  if negb (listener_closed (rx_listener r)) then mret ()
  else
    _ ← for_each (drain_connection cfg d) (rx_connections r);
    _ ← for_each maybeCloseDrainedConnection (rx_connections r);
    finishDrainIfIdle.

(** ** Callbacks of the event loop *)

(** What a read gives: an error, or bytes, with the events they make, whether the
    session takes them all, what there is to send then, whether the session still
    wants anything, and whether a first buffer can be had *)
Inductive ReadResult : Type :=
  | ReadError
  | ReadBytes (events : list RecvEvent) (consumed : bool) (f : Flush) (want memory : bool).

(** The session takes the bytes, and what it has to send is sent. *)
Definition read_bytes (cfg : Config) (c : nat) (events : list RecvEvent) (consumed : bool) (f : Flush) (want memory : bool)
  : UB Reactor () :=
  ok ← all_events (recv_event cfg c) events;
  if negb (ok && consumed) then closeOnLoop c
  else
    _ ← or_close c (flush cfg c f);
    _ ← closeTerminatedSession c want;
    x ← conn_at c;
    if close_after_writes x then mret () else or_close c (on_conn c (startRead memory)).

Definition onRead (cfg : Config) (c : nat) (result : ReadResult) : UB Reactor () :=
  _ ← on_conn c (set_self (λ x, x <| read_active := false |>));
  match result with
  | ReadError =>
      _ ← closeWithReason c PeerTransport; _ ← on_conn c submitCloseIfReady; finishCloseIfReady cfg c
  | ReadBytes events consumed f want memory =>
      _ ← read_bytes cfg c events consumed f want memory;
      x ← conn_at c;
      _ ← (if closing x then on_conn c submitCloseIfReady else mret ());
      finishCloseIfReady cfg c
  end.

(** [onWrite] for a buffer that was written, or not; [notified] is whether
    [stream_async] can be notified. *)
Definition onWrite (cfg : Config) (c : nat) (bytes : list Z) (written notified : bool) : UB Reactor () :=
  _ ← on_conn c (account_write bytes);
  x ← conn_at c;
  if closing x then
    _ ← on_conn c discardQueuedWrites; _ ← on_conn c submitCloseIfReady; finishCloseIfReady cfg c
  else if negb written then _ ← closeWithReason c PeerTransport; finishCloseIfReady cfg c
  else if close_after_writes x && (pending_writes x =? 0) then _ ← closeOnLoop c; finishCloseIfReady cfg c
  else if queued_write_bytes x <? write_low_watermark_bytes cfg then
    first ← enqueueDirtyConnection c;
    if first : bool then
      if notified then modify (λ r, r <| rx_stream_notified := true |>)
      else _ ← removeDirtyConnection c; _ ← closeOnLoop c; finishCloseIfReady cfg c
    else mret ()
  else _ ← maybeCloseDrainedConnection c; finishCloseIfReady cfg c.

(** What the kernel does with the first buffer of the queue: takes some bytes but not
    all, takes the rest, or fails *)
Inductive WriteResult : Set := WritePartial (n : nat) | WriteAll | WriteFails.

(** The callback of libxev's [queueWrite]: after the one of the connection it starts
    the next buffer. *)
Definition write_callback (cfg : Config) (c : nat) (result : WriteResult) (notified : bool) : UB Reactor () :=
  x ← conn_at c;
  match write_queue x with
  | [] => undefined
  | bytes :: rest =>
      let left := drop (head_written x) bytes in
      match result with
      | WritePartial n =>
          let n := Nat.min n (length left - 1) in
          _ ← on_conn c (set_self (λ x, x <| head_written := (head_written x + n)%nat |> <| sent := sent x ++ take n left |>));
          on_conn c arm_write
      | _ =>
          let written := match result with WriteAll => true | _ => false end in
          _ ← on_conn c (set_self (λ x, x <| write_queue := rest |> <| head_written := 0%nat |>
                                          <| sent := if written then sent x ++ left else sent x |>));
          _ ← onWrite cfg c bytes written notified;
          x ← conn_at c;
          match write_queue x with [] => mret () | _ => on_conn c arm_write end
      end
  end.

Definition onReadCanceled (cfg : Config) (c : nat) : UB Reactor () :=
  _ ← on_conn c (set_self (λ x, x <| read_cancel_submitted := false |>));
  _ ← on_conn c submitCloseIfReady; finishCloseIfReady cfg c.

(** The write that was to be cancelled may still be active: then once more. *)
Definition onWriteCanceled (cfg : Config) (c : nat) (not_found : bool) : UB Reactor () :=
  e ← on_conn c get;
  if not_found && op_write (ops e) then on_conn c arm_write_cancel
  else
    _ ← on_conn c (set_self (λ x, x <| write_cancel_submitted := false |>));
    _ ← on_conn c submitCloseIfReady; finishCloseIfReady cfg c.

Definition onConnectionClosed (cfg : Config) (c : nat) : UB Reactor () :=
  _ ← on_conn c (set_self (λ x, x <| close_completed := true |>)); finishCloseIfReady cfg c.

Definition onShutdown (cfg : Config) (d : DrainEnv) : UB Reactor () :=
  s ← lock;
  match state s with
  | Draining => beginDrain cfg d
  | Stopping => stopImmediately ForcedShutdown
  | _ => mret ()
  end.

Definition onDrainTimeout (failed : bool) : UB Reactor () :=
  if failed then mret ()
  else
    s ← lock;
    _ ← (if decide (state s = Draining)
         then modify (λ r, r <| rx_shared := (rx_shared r) <| state := Stopping |> |>) else mret ());
    stopImmediately ForcedShutdown.

Definition onListenerAcceptCanceled : UB Reactor () :=
  _ ← set_listener (λ l, l <| listener_accept_active := false |> <| listener_accept_cancel_submitted := false |>);
  closeListener.

Definition onListenerClosed (cfg : Config) (d : DrainEnv) : UB Reactor () :=
  _ ← set_listener (λ l, l <| listener_closed := true |>);
  s ← lock;
  if decide (state s = Draining) then beginDrain cfg d else maybeStopLoop.

(** What drained connection [c] has to send, and whether its session wants anything *)
Record DirtyEnv := mkDirtyEnv { de_flush : nat → Flush; de_want : nat → bool }.

Definition drain_dirty (cfg : Config) (d : DirtyEnv) (c : nat) : UB Reactor () :=
  x ← conn_at c;
  if closing x || negb (session x) then mret ()
  else
    ok ← flush cfg c (de_flush d c);
    if negb ok then closeOnLoop c
    else
      _ ← closeTerminatedSession c (de_want d c);
      x ← conn_at c;
      if closing x then mret () else maybeCloseDrainedConnection c.

Fixpoint dirty_loop (fuel : nat) (cfg : Config) (d : DirtyEnv) : UB Reactor () :=
  match fuel with
  | O => undefined
  | S fuel' =>
      r ← get;
      match rx_dirty r with
      | [] => mret ()
      | c :: rest => _ ← put (r <| rx_dirty := rest |>); _ ← drain_dirty cfg d c; dirty_loop fuel' cfg d
      end
  end.

(** A connection is in the queue at most once, and none comes in while it is
    emptied. *)
Definition drainDirtyConnections (cfg : Config) (d : DirtyEnv) : UB Reactor () :=
  r ← get; dirty_loop (S (length (rx_dirty r))) cfg d.

(** Closing a connection in the middle of the work for a stream, or marking it *)
Definition touch (c : nat) (closes : bool) : UB Reactor () :=
  _ ← (if closes then closeWithReason c ProtocolLocal else mret ());
  _ ← enqueueDirtyConnection c; mret ().

(** [forceAbortStreaming] for the streams that asked for it; each may close the
    connection. *)
Fixpoint abort_loop (aborts : list (nat * Z * bool)) : UB Reactor () :=
  match aborts with
  | [] => mret ()
  | (c, id, closes) :: rest =>
      r ← get;
      _ ← (match rx_conns r !! c with
           | None => mret ()
           | Some x =>
               match streams x !! id with
               | None => mret ()
               | Some _ =>
                   _ ← discard_commands c (λ id', bool_decide (id' = id));
                   if closes : bool then closeWithReason c ProtocolLocal
                   else _ ← enqueueDirtyConnection c; mret ()
               end
           end);
      abort_loop rest
  end.

(** [closes] is whether processing a command closes the connection. *)
Fixpoint command_loop (closes : nat * Z → bool) (commands : list (nat * Z)) : UB Reactor () :=
  match commands with
  | [] => mret ()
  | t :: rest => _ ← touch t.1 (closes t); command_loop closes rest
  end.

Definition processStreamCommands (cfg : Config) (aborts : list (nat * Z * bool)) (closes : nat * Z → bool) (d : DirtyEnv)
  : UB Reactor () :=
  _ ← abort_loop aborts;
  _ ← lock;
  r ← get;
  _ ← put (r <| rx_commands := [] |>);
  _ ← command_loop closes (rx_commands r);
  drainDirtyConnections cfg d.

(** An expired deadline: of a connection, or of a stream of it *)
Inductive Expired : Type :=
  | ConnectionExpired (c : nat) (goaway : bool) (f : Flush) (all_queued : bool)
  | StreamExpired (c : nat) (id : Z) (closes : bool).

Definition connection_expired (cfg : Config) (c : nat) (goaway : bool) (f : Flush) (all_queued : bool) : UB Reactor () :=
  x ← conn_at c;
  match connection_deadline x with
  | None => mret ()
  | Some kind =>
      _ ← on_conn c clearConnectionDeadline;
      if closing x || negb (session x) then mret ()
      else
        s ← lock;
        if negb (bool_decide (state s = Running)) || negb (bool_decide (shutdown_request s = NoShutdown)) then mret ()
        else
          match kind with
          | CleartextPreface => closeWithReason c PrefaceTimeout
          | Idle =>
              if negb (bool_decide (streams x = ∅)) || draining x then mret ()
              else
                _ ← on_conn c (latchCloseReason IdleTimeout);
                _ ← on_conn c (set_self (λ x, x <| draining := true |> <| local_goaway_submitted := true |>));
                if negb goaway then closeOnLoop c
                else
                  ok ← flush cfg c f;
                  if negb ok then closeWithReason c ProtocolLocal
                  else if all_queued then closeGracefully c else closeWithReason c ProtocolLocal
          end
  end.

Definition stream_expired (c : nat) (id : Z) (closes : bool) : UB Reactor () :=
  x ← conn_at c;
  if closing x || negb (session x) then mret ()
  else
    _ ← discard_commands c (λ id', bool_decide (id' = id));
    _ ← (if closes then closeWithReason c ProtocolLocal else mret ());
    x ← conn_at c;
    if closing x then mret () else _ ← enqueueDirtyConnection c; mret ().

(** Deadlines are of connections and streams that exist: they are cleared with
    them. *)
Fixpoint expire_all (cfg : Config) (es : list Expired) : UB Reactor () :=
  match es with
  | [] => mret ()
  | ConnectionExpired c goaway f all_queued :: rest =>
      r ← get;
      _ ← (match rx_conns r !! c with None => mret () | Some _ => connection_expired cfg c goaway f all_queued end);
      expire_all cfg rest
  | StreamExpired c id closes :: rest =>
      r ← get;
      _ ← (match rx_conns r !! c ≫= λ x, streams x !! id with None => mret () | Some _ => stream_expired c id closes end);
      expire_all cfg rest
  end.

Definition onDeadlineTimer (cfg : Config) (es : list Expired) (d : DirtyEnv) : UB Reactor () :=
  _ ← expire_all cfg es; drainDirtyConnections cfg d.

(** [signalStarted] after a successful set-up, which goes on to [notifyShutdown] when
    there was a request already *)
Definition signalStarted (notified : bool) (s : Shared) : Shared :=
  match shutdown_request s with
  | NoShutdown => s <| state := Running |>
  | Graceful => notifyShutdown notified (s <| state := Draining |>)
  | Immediate => notifyShutdown notified (s <| state := Stopping |>)
  end.

(** [setupLoop] and [signalStarted] at the start of [runLoop] *)
Definition start_loop (setup_ok notified : bool) : UB Reactor () :=
  if setup_ok then
    _ ← set_listener (λ l, l <| listener_initialized := true |> <| listener_accept_active := true |> <| op_accept := true |>);
    _ ← modify (λ r, r <| rx_stream_wait := true |>);
    _ ← lock;
    modify (λ r, r <| rx_shared := signalStarted notified (rx_shared r) |>)
  else _ ← lock; modify (λ r, r <| rx_shared := (rx_shared r) <| state := Stopped |> <| startup_error := true |> |>).

(** [runLoop] after the loop, which was stopped or has [failed]: its error is logged, and
    what was in the loop stays as it is. *)
Definition end_loop (failed : bool) : UB Reactor () :=
  _ ← lock; modify (λ r, r <| rx_shared := (rx_shared r) <| state := Stopped |> |> <| rx_failed := failed |>).

(** ** Steps *)

(** What the thread of the reactor does next *)
Inductive Callback : Type :=
  | CbStart (setup_ok notified : bool)
  | CbAccept (accepted : bool)
  | CbAdmit (a : Admit)
  | CbAcceptCanceled
  | CbListenerClosed (d : DrainEnv)
  | CbRead (c : nat) (result : ReadResult)
  | CbWrite (c : nat) (result : WriteResult) (notified : bool)
  | CbReadCanceled (c : nat)
  | CbWriteCanceled (c : nat) (not_found : bool)
  | CbConnectionClosed (c : nat)
  | CbShutdown (d : DrainEnv)
  | CbStream (failed : bool) (aborts : list (nat * Z * bool)) (closes : nat * Z → bool) (d : DirtyEnv)
  | CbDeadline (es : list Expired) (d : DirtyEnv)
  | CbDrainTimeout (failed : bool)
  | CbEnd (failed : bool).

Definition loop_running (r : Reactor) : bool :=
  match state (rx_shared r) with Running | Draining | Stopping => true | _ => false end.

(** The loop delivers what is in it; an accept that has claimed a connection goes on
    first. *)
Definition enabled (r : Reactor) (cb : Callback) : bool :=
  match cb with
  | CbStart _ _ => bool_decide (state (rx_shared r) = Starting)
  | CbAdmit a =>
      loop_running r && rx_claimed r &&
      match ad_address a with Some c => bool_decide (rx_conns r !! c = None) | None => true end
  | _ =>
      loop_running r && negb (rx_claimed r) &&
      match cb with
      | CbAccept _ => op_accept (rx_listener r)
      | CbAcceptCanceled => op_accept_cancel (rx_listener r)
      | CbListenerClosed _ => op_listener_close (rx_listener r)
      | CbRead c _ => op_read (ops_of r c)
      | CbWrite c _ _ => op_write (ops_of r c)
      | CbReadCanceled c => op_read_cancel (ops_of r c)
      | CbWriteCanceled c _ => op_write_cancel (ops_of r c)
      | CbConnectionClosed c => op_close (ops_of r c)
      | CbStream _ _ _ _ => rx_stream_wait r
      | CbDrainTimeout _ => rx_drain_timer r
      | CbEnd failed => failed || rx_loop_stopped r
      | _ => true
      end
  end.

(** The completion of a connection leaves the loop and the callback runs; the
    connection is not looked at in between. *)
Definition deliver (c : nat) (f : ConnOps → ConnOps) : UB Reactor () :=
  modify (λ r, r <| rx_ops := <[c := f (ops_of r c)]> (rx_ops r) |>).

Definition callback (cfg : Config) (cb : Callback) : UB Reactor () :=
  match cb with
  | CbStart setup_ok notified => start_loop setup_ok notified
  | CbAccept accepted => _ ← set_listener (λ l, l <| op_accept := false |>); onConnection_claim cfg accepted
  | CbAdmit a => onConnection_admitted cfg a
  | CbAcceptCanceled => _ ← set_listener (λ l, l <| op_accept_cancel := false |>); onListenerAcceptCanceled
  | CbListenerClosed d => _ ← set_listener (λ l, l <| op_listener_close := false |>); onListenerClosed cfg d
  | CbRead c result => _ ← deliver c (λ o, o <| op_read := false |>); onRead cfg c result
  | CbWrite c result notified => _ ← deliver c (λ o, o <| op_write := false |>); write_callback cfg c result notified
  | CbReadCanceled c => _ ← deliver c (λ o, o <| op_read_cancel := false |>); onReadCanceled cfg c
  | CbWriteCanceled c not_found => _ ← deliver c (λ o, o <| op_write_cancel := false |>); onWriteCanceled cfg c not_found
  | CbConnectionClosed c => _ ← deliver c (λ o, o <| op_close := false |>); onConnectionClosed cfg c
  | CbShutdown d =>
      _ ← modify (λ r, r <| rx_shared := (rx_shared r) <| shutdown_notified := false |> |>); onShutdown cfg d
  | CbStream failed aborts closes d =>
      _ ← modify (λ r, r <| rx_stream_notified := false |> <| rx_stream_wait := negb failed |>);
      if failed then stopImmediately ProtocolLocal else processStreamCommands cfg aborts closes d
  | CbDeadline es d => onDeadlineTimer cfg es d
  | CbDrainTimeout failed =>
      _ ← modify (λ r, r <| rx_drain_timer := false |>
                         <| rx_shared := if failed : bool then (rx_shared r) <| notify_lost := true |> else rx_shared r |>);
      onDrainTimeout failed
  | CbEnd failed => end_loop failed
  end.

(** An application thread queues a command for a stream, which is locked and has not
    been closed. *)
Definition has_stream (r : Reactor) (c : nat) (id : Z) : bool :=
  match rx_conns r !! c with Some x => bool_decide (is_Some (streams x !! id)) | None => false end.

(** [enqueueStreamCommandLocked]: the first command wakes the loop, and is taken back
    when that fails; [stored] tells whether there was memory for it, [notified] whether
    the loop could be woken. *)
Definition queue_command (c : nat) (id : Z) (stored notified : bool) (r : Reactor) : Reactor :=
  if negb stored then r else
  match rx_commands r with
  | [] => if notified then r <| rx_commands := [(c, id)] |> <| rx_stream_notified := true |> else r
  | _ => r <| rx_commands := rx_commands r ++ [(c, id)] |>
  end.

Definition exec (cfg : Config) (cb : Callback) (sched : list (list Request)) (r : Reactor) : option Reactor :=
  match callback cfg cb (r <| rx_sched := sched |>) with
  | Some (_, r') => Some (r' <| rx_sched := [] |>)
  | None => None
  end.

Definition Listener_init : Listener := mkListener false false false false false false false false.

Definition Reactor_init : Reactor :=
  mkReactor ∅ ∅ [] [] [] Listener_init (mkShared Initialized NoShutdown 0 false false false) false false false false false false 0 false [].
