(* ===== verification/ServerFlush.v ===== *)
(** * Batches of writes

    [flush] of [src/server.zig] gathers what the session has to send in batches of
    about 64 KiB.  Whatever the chunks, and whatever streams end while the session
    produces them, this gives the connection the same bytes, and stops after the same
    chunk, as a loop that only counts bytes and queues nothing before its end. *)

From S2P Require Import Prelude UbLogic ServerReactor.

Local Open Scope Z_scope.

Abbreviation len l := (Z.of_nat (length l)).

(** The reference: chunks are taken as long as there are fewer bytes than the high
    watermark, and until there is none or what comes with one fails.  The result has
    the chunks, and whether nothing failed. *)
Fixpoint taken (high : Z) (c : nat) (queued : Z) (steps : list (list StreamEvent * list Z)) : UB Reactor (list (list Z) * bool) :=
  match steps with
  | [] => mret ([], true)
  | (events, chunk) :: rest =>
      if queued <? high then
        ok ← all_events (stream_event c) events;
        if negb ok then mret ([], false)
        else
          match chunk with
          | [] => mret ([], true)
          | _ => t ← taken high c (queued + len chunk) rest; mret (chunk :: t.1, t.2)
          end
      else mret ([], true)
  end.

(** What the session does in each of its rounds; no allocation for the writes fails. *)
Definition sends (steps : list (list StreamEvent * list Z)) : list SendStep := (λ t, SendChunk t.1 t.2 NoFault) <$> steps.

(** The connection once [chunks] were taken from the session and [bufs] queued *)
Definition queued_conn (bufs chunks : list (list Z)) (x : Connection) : Connection :=
  x <| pending_writes := pending_writes x + len bufs |>
    <| queued_write_bytes := queued_write_bytes x + len (concat bufs) |>
    <| write_queue := write_queue x ++ bufs |>
    <| produced := produced x ++ concat chunks |>
    <| longest := foldl (λ l chunk, Z.max l (len chunk)) (longest x) chunks |>.

Definition queued_ops (bufs : list (list Z)) (o : ConnOps) : ConnOps :=
  o <| op_write := op_write o || negb (bool_decide (bufs = [])) |>.

Definition queue_all (bufs chunks : list (list Z)) (e : Cell) : Cell := mkCell (queued_conn bufs chunks (conn e)) (queued_ops bufs (ops e)).

(** The reactor once that has happened to its connection [c], and nothing else *)
Definition with_writes (c : nat) (bufs chunks : list (list Z)) (r : Reactor) : Reactor :=
  r <| rx_conns := alter (queued_conn bufs chunks) c (rx_conns r) |> <| rx_ops := alter (queued_ops bufs) c (rx_ops r) |>.

(** The reactor with connection [c] in state [e] *)
Definition at_conn (c : nat) (e : Cell) (r : Reactor) : Reactor :=
  r <| rx_conns := <[c := conn e]> (rx_conns r) |> <| rx_ops := <[c := ops e]> (rx_ops r) |>.

Lemma on_conn_at {A} c (m : UB Cell A) e r a e' :
  m e = Some (a, e') → on_conn c m (at_conn c e r) = Some (a, at_conn c e' r).
Proof.
  intros Hm. unfold on_conn, at_conn, ops_of. simpl. rewrite !lookup_insert_eq. simpl.
  destruct e. simpl in *. by rewrite Hm, !insert_insert_eq.
Qed.

Lemma queue_all_nil e : queue_all [] [] e = e.
Proof. destruct e as [[] []]. unfold queue_all, queued_conn, queued_ops. simpl. rewrite orb_false_r, !app_nil_r, !Z.add_0_r. done. Qed.

Lemma queue_all_app bufs1 bufs2 chunks1 chunks2 e :
  queue_all bufs2 chunks2 (queue_all bufs1 chunks1 e) = queue_all (bufs1 ++ bufs2) (chunks1 ++ chunks2) e.
Proof.
  assert (negb (bool_decide (bufs1 ++ bufs2 = [])) = negb (bool_decide (bufs1 = [])) || negb (bool_decide (bufs2 = []))) as Hb
    by by destruct bufs1, bufs2.
  destruct e as [[] []]. unfold queue_all, queued_conn, queued_ops. simpl. rewrite Hb, orb_assoc.
  by rewrite !concat_app, !length_app, !app_assoc, foldl_app, !Nat2Z.inj_add, !Z.add_assoc.
Qed.

(** A connection that can take [n] more bytes *)
Record has_room (n : Z) (e : Cell) : Prop := {
  hr_open : closing (conn e) = false;
  hr_write : op_write (ops e) = negb (bool_decide (write_queue (conn e) = []));
  hr_pending : 0 ≤ pending_writes (conn e) ∧ pending_writes (conn e) + n ≤ usize_max;
  hr_queued : 0 ≤ queued_write_bytes (conn e) ∧ queued_write_bytes (conn e) + n ≤ usize_max }.

Definition nonempty (b : list Z) : Prop := b ≠ [].

Lemma queue_at b e n :
  nonempty b → has_room (len b + n) e → 0 ≤ n →
  queueOwnedSocketWrite true b e = Some (true, queue_all [b] [] e) ∧ has_room n (queue_all [b] [] e).
Proof.
  intros Hb [Ho Hw Hp Hq] Hn. assert (1 ≤ len b) as Hl by (destruct b; [done|simpl; lia]). split.
  - destruct e as [x o]. simpl in *. unfold queueOwnedSocketWrite. apply ub_bind_Some. exists x, (mkCell x o). split; [done|].
    unfold add_usize. rewrite !(proj2 (Z.leb_le _ _)) by lia.
    apply ub_bind_Some. exists (), (mkCell x (o <| op_write := true |>)). split.
    + destruct (write_queue x) eqn:E; [unfold arm_write; apply ub_bind_Some; exists (mkCell x o), (mkCell x o); simpl; by rewrite Hw|].
      by destruct o; simpl in *; subst.
    + destruct x, o. unfold queue_all, queued_conn, queued_ops. simpl in *. by rewrite orb_true_r, !app_nil_r.
  - split; simpl; rewrite ?app_nil_r; [done| |lia..]. rewrite Hw, orb_true_r. by destruct (write_queue (conn e)).
Qed.

Lemma has_room_weaken m n e : has_room m e → n ≤ m → has_room n e.
Proof. intros [] ?. split; [done..|lia|lia]. Qed.

(** A batch that is full is queued at once. *)
Lemma ready_at c r b e n :
  nonempty b → has_room (len b + n) e → 0 ≤ n →
  ∃ bufs batch', (if batch_ready b then
      ok ← on_conn c (queueOwnedSocketWrite true b); mret (if ok : bool then Some [] else None)
    else mret (Some b)) (at_conn c e r) = Some (Some batch', at_conn c (queue_all bufs [] e) r) ∧
    concat bufs ++ batch' = b ∧ len batch' < socket_write_batch_target ∧ Forall (eq b) bufs ∧
    has_room (len batch' + n) (queue_all bufs [] e).
Proof.
  intros Hb Hr Hn. unfold batch_ready. destruct (Z.leb_spec socket_write_batch_target (len b)) as [Hle|Hlt].
  - destruct (queue_at b e n Hb Hr Hn) as [Hq Hr']. exists [b], []. split_and!; try done; [|by simpl; rewrite !app_nil_r|repeat constructor].
    apply ub_bind_Some. exists true, (at_conn c (queue_all [b] [] e) r). split; [by apply on_conn_at|done].
  - exists [], b. by rewrite queue_all_nil.
Qed.

Lemma flush_chunk_at c r batch chunk e n :
  nonempty chunk → len batch < socket_write_batch_target → has_room (len batch + len chunk + n) e → 0 ≤ n →
  ∃ bufs batch', flush_chunk c batch chunk NoFault (at_conn c e r) = Some (Some batch', at_conn c (queue_all bufs [] e) r) ∧
    concat bufs ++ batch' = batch ++ chunk ∧ len batch' < socket_write_batch_target ∧
    Forall (λ b, nonempty b ∧ (len b ≤ socket_write_batch_target ∨ b = chunk)) bufs ∧
    has_room (len batch' + n) (queue_all bufs [] e).
Proof.
  intros Hc Hb Hr Hn. unfold flush_chunk, batch_append. rewrite (proj2 (Z.leb_gt _ _)) by done. simpl orb.
  destruct (Z.eqb_spec (len batch) 0) as [E0|E0]; [|destruct (Z.ltb_spec (socket_write_batch_target - len batch) (len chunk)) as [Hlt|Hle]]; cbn [negb andb].
  - destruct batch; [|simpl in E0; lia]. destruct (ready_at c r chunk e n) as (bufs & batch' & H1 & H2 & H3 & H4 & H5); [done..|].
    exists bufs, batch'. split_and!; [exact H1|done..| |done]. eapply Forall_impl; [exact H4|]. intros b <-. auto.
  - assert (nonempty batch) as Hne by (intros ->; done). rewrite <- Z.add_assoc in Hr.
    destruct (queue_at batch e (len chunk + n) Hne Hr) as [Hq Hr']; [lia|].
    destruct (ready_at c r chunk (queue_all [batch] [] e) n) as (bufs & batch' & H1 & H2 & H3 & H4 & H5); [done..|].
    rewrite queue_all_app in H1, H5. exists (batch :: bufs), batch'. split_and!; [|by simpl; rewrite <- app_assoc, H2|done| |done].
    + apply ub_bind_Some. exists true, (at_conn c (queue_all [batch] [] e) r). split; [by apply on_conn_at|exact H1].
    + constructor; [split; [done|left; lia]|]. eapply Forall_impl; [exact H4|]. intros b <-. auto.
  - destruct (ready_at c r (batch ++ chunk) e n) as (bufs & batch' & H1 & H2 & H3 & H4 & H5); [|by rewrite length_app, Nat2Z.inj_add|done|].
    { intros [? ?]%app_nil. done. }
    exists bufs, batch'. split_and!; [exact H1|done..| |done]. eapply Forall_impl; [exact H4|]. intros b <-.
    split; [intros [? ?]%app_nil; done|]. left. rewrite length_app. lia.
Qed.

(** ** Streams that end while the session sends *)

(** Connection [c] of the reactor *)
Definition holds (c : nat) (e : Cell) (r : Reactor) : Prop := rx_conns r !! c = Some (conn e) ∧ rx_ops r !! c = Some (ops e).

Lemma holds_at_conn c e r : holds c e r → at_conn c e r = r.
Proof. intros [H1 H2]. unfold at_conn. rewrite !insert_id by done. by destruct r. Qed.

Lemma holds_with_writes c e bufs chunks r :
  holds c e r → holds c (queue_all bufs chunks e) (with_writes c bufs chunks r) ∧
    with_writes c bufs chunks r = at_conn c (queue_all bufs chunks e) r.
Proof.
  intros [H1 H2]. assert (∀ {A} (m : gmap nat A) f x, m !! c = Some x → alter f c m = <[c := f x]> m) as Ha.
  { intros A m f x Hx. apply map_eq. intros i. destruct (decide (i = c)) as [->|].
    - by rewrite lookup_alter_eq, Hx, lookup_insert_eq.
    - by rewrite lookup_alter_ne, lookup_insert_ne by done. }
  split.
  - split; simpl; by rewrite lookup_alter_eq, ?H1, ?H2.
  - unfold with_writes, at_conn. by rewrite (Ha _ _ _ _ H1), (Ha _ _ _ _ H2).
Qed.

Lemma with_writes_app c bufs1 bufs2 chunks1 chunks2 e r :
  holds c e r → with_writes c bufs2 chunks2 (with_writes c bufs1 chunks1 r) = with_writes c (bufs1 ++ bufs2) (chunks1 ++ chunks2) r.
Proof.
  intros Hr. destruct (holds_with_writes c e bufs1 chunks1 r Hr) as [Hr1 E1].
  destruct (holds_with_writes c _ bufs2 chunks2 _ Hr1) as [_ ->]. destruct (holds_with_writes c e (bufs1 ++ bufs2) (chunks1 ++ chunks2) r Hr) as [_ ->].
  rewrite E1, queue_all_app. unfold at_conn. simpl. by rewrite !insert_insert_eq.
Qed.

(** Two states of a connection that differ in nothing that matters for writing *)
Definition same_writes (e e' : Cell) : Prop :=
  closing (conn e') = closing (conn e) ∧ write_queue (conn e') = write_queue (conn e) ∧
  pending_writes (conn e') = pending_writes (conn e) ∧ queued_write_bytes (conn e') = queued_write_bytes (conn e) ∧ ops e' = ops e.

(** [m] succeeds, does not touch the writes of connection [c] and does not depend on
    them. *)
Definition apart {A} (c : nat) (m : UB Reactor A) : Prop :=
  ∀ r e, holds c e r → ∃ a r' e', m r = Some (a, r') ∧ holds c e' r' ∧ same_writes e e' ∧
    ∀ bufs chunks, m (with_writes c bufs chunks r) = Some (a, with_writes c bufs chunks r').

Lemma same_writes_refl e : same_writes e e.
Proof. by unfold same_writes. Qed.

Section Apart.
Context {A B : Type} (c : nat).

Lemma apart_ret (a : A) : apart c (mret a : UB Reactor A).
Proof. intros r e Hr. exists a, r, e. pose proof (same_writes_refl e). auto. Qed.

Lemma apart_bind (m : UB Reactor A) (k : A → UB Reactor B) : apart c m → (∀ a, apart c (k a)) → apart c (m ≫= k).
Proof.
  intros Hm Hk r e Hr. unfold mbind, ub_bind. destruct (Hm r e Hr) as (a & r1 & e1 & -> & Hr1 & Hs1 & Hm1).
  destruct (Hk a r1 e1 Hr1) as (b & r2 & e2 & Ek & Hr2 & Hs2 & Hk2). exists b, r2, e2. do 2 (split; [done|]). split; [|intros bufs chunks; by rewrite Hm1].
  destruct Hs1 as (? & ? & ? & ? & ?), Hs2 as (? & ? & ? & ? & ?). unfold same_writes. split_and!; congruence.
Qed.

(** A change of the reactor that is not one of connection [c] *)
Lemma apart_modify f :
  (∀ r, rx_conns (f r) = rx_conns r ∧ rx_ops (f r) = rx_ops r) →
  (∀ bufs chunks r, f (with_writes c bufs chunks r) = with_writes c bufs chunks (f r)) → apart c (modify f).
Proof.
  intros Hf Hw r e Hr. exists (), (f r), e. destruct (Hf r) as [E1 E2]. unfold holds. rewrite E1, E2.
  pose proof (same_writes_refl e). do 3 (split; [done|]). intros bufs chunks. by rewrite <- Hw.
Qed.

(** A change of connection [c] that is not one of its writes *)
Lemma apart_set_self f :
  (∀ bufs chunks x, f (queued_conn bufs chunks x) = queued_conn bufs chunks (f x)) →
  (∀ x, closing (f x) = closing x ∧ write_queue (f x) = write_queue x ∧ pending_writes (f x) = pending_writes x ∧
     queued_write_bytes (f x) = queued_write_bytes x) → apart c (on_conn c (set_self f)).
Proof.
  intros Hw Hf r e Hr.
  assert (∀ r1 e1, holds c e1 r1 → on_conn c (set_self f) r1 = Some ((), at_conn c (mkCell (f (conn e1)) (ops e1)) r1)) as Hrun.
  { intros r1 e1 Hr1. rewrite <- (holds_at_conn c e1 r1 Hr1) at 1. erewrite on_conn_at; [reflexivity|]. by destruct e1. }
  set (e' := mkCell (f (conn e)) (ops e)). assert (holds c e' (at_conn c e' r)) as H3 by by split; simpl; rewrite lookup_insert_eq.
  exists (), (at_conn c e' r), e'. split; [by apply Hrun|]. split; [done|]. split; [destruct (Hf (conn e)) as (? & ? & ? & ?); by unfold same_writes|].
  intros bufs chunks. destruct (holds_with_writes c e bufs chunks r Hr) as [H1 H2]. rewrite (Hrun _ _ H1), H2.
  destruct (holds_with_writes c _ bufs chunks _ H3) as [_ ->]. unfold at_conn. simpl. by rewrite !insert_insert_eq, Hw.
Qed.

Lemma apart_look (k : Connection → UB Reactor B) :
  (∀ bufs chunks x, k (queued_conn bufs chunks x) = k x) → (∀ x, apart c (k x)) → apart c (conn_at c ≫= k).
Proof.
  intros Hw Hk r e Hr.
  assert (∀ r1 e1, holds c e1 r1 → (conn_at c ≫= k) r1 = k (conn e1) r1) as Hrun.
  { intros r1 e1 Hr1. apply bind_step. rewrite <- (holds_at_conn c e1 r1 Hr1). by apply on_conn_at. }
  destruct (Hk (conn e) r e Hr) as (b & r1 & e1 & Ek & Hr1 & Hs1 & Hk1). exists b, r1, e1. do 3 (split; [by rewrite ?(Hrun r e Hr)|]).
  intros bufs chunks. destruct (holds_with_writes c e bufs chunks r Hr) as [H1 _]. rewrite (Hrun _ _ H1). simpl. by rewrite Hw.
Qed.

Lemma apart_lock : apart c lock.
Proof.
  intros r e Hr. unfold lock, mbind, ub_bind, get, put, mret, ub_ret. destruct (rx_sched r) as [|qs sched] eqn:E.
  all: eexists _, _, e; (do 2 (split; [done|]); split; [apply same_writes_refl|intros bufs chunks; simpl; by rewrite E]).
Qed.

Lemma apart_get (k : Reactor → UB Reactor B) :
  (∀ bufs chunks r, k (with_writes c bufs chunks r) = k r) → (∀ r, apart c (k r)) → apart c (get ≫= k).
Proof.
  intros Hw Hk r e Hr. unfold mbind, ub_bind, get. destruct (Hk r r e Hr) as (b & r1 & e1 & Ek & Hr1 & Hs1 & Hk1).
  exists b, r1, e1. do 3 (split; [done|]). intros bufs chunks. by rewrite Hw.
Qed.
End Apart.

Lemma apart_ext {A} c (m m' : UB Reactor A) : (∀ r, m r = m' r) → apart c m' → apart c m.
Proof.
  intros E Hm r e Hr. destruct (Hm r e Hr) as (a & r1 & e1 & H & ? & ? & Hw). exists a, r1, e1. rewrite E. do 3 (split; [done|]).
  intros bufs chunks. by rewrite E.
Qed.

Lemma apart_maybeStopLoop c : apart c maybeStopLoop.
Proof.
  unfold maybeStopLoop. apply apart_bind; [apply apart_lock|]. intros s.
  apply (apart_ext _ _ (modify (λ r, if bool_decide (state s = Stopping) && listener_closed (rx_listener r) && bool_decide (rx_connections r = [])
    then r <| rx_loop_stopped := true |> else r))).
  - intros r. unfold modify, mbind, ub_bind, get, put. by destruct (_ && _).
  - apply apart_modify; [intros r; by case_match|intros bufs chunks r]. simpl. by case_match.
Qed.

Lemma apart_finishDrainIfIdle c : apart c finishDrainIfIdle.
Proof.
  unfold finishDrainIfIdle. apply apart_bind; [apply apart_lock|]. intros s. apply apart_get; [done|]. intros r.
  destruct (_ && _); [|apply apart_ret]. apply apart_bind; [apply apart_lock|]. intros _.
  apply apart_bind; [by apply apart_modify|]. intros _. apply apart_maybeStopLoop.
Qed.

Lemma apart_armIdleDeadline c memory : apart c (armIdleDeadline c memory).
Proof.
  unfold armIdleDeadline. apply apart_look; [done|]. intros x. destruct (_ || _); [apply apart_ret|].
  apply apart_bind; [apply apart_lock|]. intros s. destruct (_ || _); [apply apart_ret|].
  apply (apart_ext _ _ (_ ← on_conn c (set_self (λ x, if memory then x <| connection_deadline := Some Idle |> else x)); mret memory)).
  - intros r. unfold setConnectionDeadline, on_conn, mbind, ub_bind. destruct (rx_conns r !! c); [|done]. by destruct memory.
  - apply apart_bind; [|intros _; apply apart_ret]. apply apart_set_self; by destruct memory.
Qed.

Lemma apart_onStreamClose c id memory : apart c (onStreamClose c id memory).
Proof.
  unfold onStreamClose. apply apart_bind; [by apply apart_set_self|]. intros _. apply apart_bind; [by apply apart_modify|]. intros _.
  apply apart_look; [done|]. intros x. destruct (draining x).
  - apply apart_bind; [apply apart_finishDrainIfIdle|]. intros _. apply apart_ret.
  - case_bool_decide; [apply apart_armIdleDeadline|apply apart_ret].
Qed.

Lemma apart_stream_event c e : apart c (stream_event c e).
Proof.
  destruct e as [id|id|id memory]; [..|apply apart_onStreamClose].
  all: apply apart_bind; [apply apart_set_self|intros _; apply apart_ret].
  all: intros; simpl; by case_match.
Qed.

Lemma apart_events c es : apart c (all_events (stream_event c) es).
Proof.
  induction es as [|e es IH]; [apply apart_ret|]. simpl. apply apart_bind; [apply apart_stream_event|].
  intros [|]; [done|apply apart_ret].
Qed.

Lemma apart_taken high c queued steps : apart c (taken high c queued steps).
Proof.
  revert queued. induction steps as [|[events chunk] steps IH]; intros queued; [apply apart_ret|]. cbn [taken].
  destruct (_ <? _); [|apply apart_ret]. apply apart_bind; [apply apart_events|]. intros [|]; [|apply apart_ret]. simpl negb. cbv iota.
  destruct chunk; [apply apart_ret|]. apply apart_bind; [apply IH|]. intros t. apply apart_ret.
Qed.

(** ** The loop *)

Lemma has_room_same n e e' : same_writes e e' → has_room n e → has_room n e'.
Proof. intros (E1 & E2 & E3 & E4 & E5) []. split; rewrite ?E1, ?E2, ?E3, ?E4, ?E5; done. Qed.

Lemma flush_loop_round cfg c r e events chunk steps batch r1 ok :
  holds c e r → closing (conn e) = false → all_events (stream_event c) events r = Some (ok, r1) →
  flush_loop cfg c (sends ((events, chunk) :: steps)) batch r =
    if queued_write_bytes (conn e) + len batch <? write_high_watermark_bytes cfg then
      if negb ok then Some (None, r1)
      else
        match chunk with
        | [] => Some (Some batch, r1)
        | _ => match flush_chunk c batch chunk NoFault (with_writes c [] [chunk] r1) with
               | Some (Some batch', r') => flush_loop cfg c (sends steps) batch' r'
               | Some (None, r') => Some (None, r')
               | None => None
               end
        end
    else Some (Some batch, r).
Proof.
  intros Hr Hc He. cbn [sends fmap list_fmap flush_loop].
  rewrite (bind_step _ _ _ (conn e) r) by (rewrite <- (holds_at_conn c e r Hr); by apply on_conn_at). rewrite Hc.
  assert (canFlushWritesWithPending (queued_write_bytes (conn e)) (len batch) (write_high_watermark_bytes cfg) =
    (queued_write_bytes (conn e) + len batch <? write_high_watermark_bytes cfg)) as ->.
  { unfold canFlushWritesWithPending. apply eq_true_iff_eq. rewrite andb_true_iff, !Z.ltb_lt. lia. }
  destruct (_ <? _); cbn beta iota delta [negb fst snd]; [|done]. rewrite (bind_step _ _ _ ok r1) by done. destruct ok; [|done].
  cbn beta iota delta [negb]. destruct chunk as [|z chunk]; [done|].
  destruct (apart_events c events r e Hr) as (ok' & r1' & e1 & E & Hr1 & _). rewrite He in E. injection E as <- <-.
  rewrite (bind_step _ _ _ () (with_writes c [] [z :: chunk] r1)).
  2:{ destruct (holds_with_writes c e1 [] [z :: chunk] r1 Hr1) as [_ ->]. rewrite <- (holds_at_conn c e1 r1 Hr1) at 1. apply on_conn_at.
      destruct e1 as [[] []]. unfold queue_all, queued_conn, queued_ops. simpl. by rewrite !Z.add_0_r, !app_nil_r, orb_false_r. }
  unfold mbind at 1, ub_bind at 1. by destruct (flush_chunk _ _ _ _ _) as [[[]]|].
Qed.

Lemma flush_one c r batch chunk e n :
  nonempty chunk → holds c e r → len batch < socket_write_batch_target → has_room (len batch + len chunk + n) e → 0 ≤ n →
  ∃ bufs batch', flush_chunk c batch chunk NoFault (with_writes c [] [chunk] r) = Some (Some batch', with_writes c bufs [chunk] r) ∧
    concat bufs ++ batch' = batch ++ chunk ∧ len batch' < socket_write_batch_target ∧
    Forall (λ b, nonempty b ∧ (len b ≤ socket_write_batch_target ∨ b = chunk)) bufs ∧
    holds c (queue_all bufs [chunk] e) (with_writes c bufs [chunk] r) ∧ has_room (len batch' + n) (queue_all bufs [chunk] e).
Proof.
  intros Hc Hr Hb Hroom Hn. destruct (holds_with_writes c e [] [chunk] r Hr) as [_ E].
  assert (has_room (len batch + len chunk + n) (queue_all [] [chunk] e)) as Hroom1.
  { destruct Hroom. split; simpl; rewrite ?app_nil_r, ?orb_false_r; [done..|lia|lia]. }
  destruct (flush_chunk_at c r batch chunk _ n Hc Hb Hroom1 Hn) as (bufs & batch' & H1 & H2 & H3 & H4 & H5).
  rewrite queue_all_app in *. simpl app in *. exists bufs, batch'. destruct (holds_with_writes c e bufs [chunk] r Hr) as [Hr' E'].
  rewrite E. rewrite H1, E' in *. by split_and!; try apply Hr'.
Qed.

(** How the loop ends: the reference has taken [took], and the loop has queued [bufs] of
    that and keeps [batch']. *)
Record flushed (c : nat) (batch : list Z) (n : Z) (took : list (list Z)) (r1 : Reactor) (bufs : list (list Z)) (batch' : list Z) : Prop := {
  fl_bytes : concat bufs ++ batch' = batch ++ concat took;
  fl_batch : len batch' < socket_write_batch_target;
  fl_bufs : Forall (λ b, nonempty b ∧ (len b ≤ socket_write_batch_target ∨ b ∈ took)) bufs;
  fl_room : ∃ e1, holds c e1 r1 ∧ has_room (len batch' + n) (queue_all bufs took e1) }.

Lemma with_writes_nil c r : with_writes c [] [] r = r.
Proof.
  unfold with_writes. assert (∀ {A} (f : A → A) (m : gmap nat A), (∀ x, f x = x) → alter f c m = m) as Ha.
  { intros A f m Hf. apply map_eq. intros i. destruct (decide (i = c)) as [->|]; [|by rewrite lookup_alter_ne].
    rewrite lookup_alter_eq. destruct (m !! c); simpl; by rewrite ?Hf. }
  rewrite !Ha; [by destruct r|..].
  - intros []. unfold queued_conn. simpl. by rewrite !Z.add_0_r, !app_nil_r.
  - intros []. unfold queued_ops. simpl. by rewrite orb_false_r.
Qed.

Lemma holds_inj c e e' r : holds c e r → holds c e' r → e = e'.
Proof. intros [H1 H2] [H3 H4]. destruct e, e'. simpl in *. congruence. Qed.

Lemma flushed_nil c batch m n e r :
  holds c e r → len batch < socket_write_batch_target → has_room (len batch + m + n) e → 0 ≤ m → flushed c batch n [] r [] batch.
Proof.
  intros Hr Hb Hroom Hm. split; [by rewrite app_nil_r|done|done|]. exists e. split; [done|]. rewrite queue_all_nil.
  eapply has_room_weaken; [exact Hroom|lia].
Qed.

Lemma flushed_cons c batch batch1 n chunk took e r1 bufs1 bufs2 batch' :
  holds c e r1 → concat bufs1 ++ batch1 = batch ++ chunk →
  Forall (λ b, nonempty b ∧ (len b ≤ socket_write_batch_target ∨ b = chunk)) bufs1 →
  flushed c batch1 n took (with_writes c bufs1 [chunk] r1) bufs2 batch' → flushed c batch n (chunk :: took) r1 (bufs1 ++ bufs2) batch'.
Proof.
  intros Hr H1 Hf1 [H2 Hb2 Hf2 (e2 & Hr2 & Hroom)]. split; [|done| |].
  - rewrite concat_app, <- app_assoc, H2, app_assoc, H1. simpl. by rewrite <- app_assoc.
  - apply Forall_app. split; (eapply Forall_impl; [eassumption|]); intros b [? [?|Hin]]; (split; [done|]); auto; right; set_solver.
  - exists e. split; [done|]. destruct (holds_with_writes c e bufs1 [chunk] r1 Hr) as [Hr2' _].
    rewrite (holds_inj c e2 _ _ Hr2 Hr2'), queue_all_app in Hroom. exact Hroom.
Qed.

Lemma flush_loop_at cfg c steps : ∀ batch r e n,
  holds c e r → len batch < socket_write_batch_target → has_room (len batch + len (concat steps.*2) + n) e → 0 ≤ n →
  ∃ took ok r1 bufs batch',
    taken (write_high_watermark_bytes cfg) c (queued_write_bytes (conn e) + len batch) steps r = Some (took, ok, r1) ∧
    flush_loop cfg c (sends steps) batch r = Some (if ok : bool then Some batch' else None, with_writes c bufs took r1) ∧
    flushed c batch n took r1 bufs batch'.
Proof.
  induction steps as [|[events chunk] steps IH]; intros batch r e n Hr Hb Hroom Hn.
  { exists [], true, r, [], batch. rewrite with_writes_nil. split_and!; [done..|]. eapply flushed_nil; [done|done|exact Hroom|lia]. }
  destruct (apart_events c events r e Hr) as (ok & r1 & e1 & He & Hr1 & Hs & _).
  rewrite (flush_loop_round cfg c r e events chunk steps batch r1 ok Hr (hr_open _ _ Hroom) He). cbn [taken].
  pose proof (has_room_same _ _ _ Hs Hroom) as Hroom1.
  destruct (_ <? _) eqn:Ehigh.
  2: { exists [], true, r, [], batch. rewrite with_writes_nil. split_and!; [done..|]. eapply flushed_nil; [done|done|exact Hroom|lia]. }
  rewrite (bind_step _ _ _ ok r1 He). destruct ok; cbn [negb].
  2: { exists [], false, r1, [], batch. rewrite with_writes_nil. split_and!; [done..|]. eapply flushed_nil; [done|done|exact Hroom1|lia]. }
  destruct chunk as [|z chunk].
  { exists [], true, r1, [], batch. rewrite with_writes_nil. split_and!; [done..|]. eapply flushed_nil; [done|done|exact Hroom1|lia]. }
  destruct (flush_one c r1 batch (z :: chunk) e1 (len (concat steps.*2) + n)) as (bufs1 & batch1 & -> & H1 & Hb1 & Hf1 & Hr2 & Hroom2); [done..| |lia|].
  { eapply has_room_weaken; [exact Hroom1|]. cbn [fmap list_fmap concat snd]. rewrite length_app. lia. }
  rewrite Z.add_assoc in Hroom2.
  destruct (IH batch1 _ _ n Hr2 Hb1 Hroom2 Hn) as (took & ok & r3 & bufs2 & batch' & Ht & -> & Hfl).
  destruct (apart_taken (write_high_watermark_bytes cfg) c (queued_write_bytes (conn e) + len batch + len (z :: chunk)) steps r1 e1 Hr1)
    as ([took' ok'] & r3' & e3 & Et & Hr3 & _ & Hcomm).
  assert (queued_write_bytes (conn (queue_all bufs1 [z :: chunk] e1)) + len batch1 = queued_write_bytes (conn e) + len batch + len (z :: chunk)) as E.
  { apply (f_equal length) in H1. rewrite !length_app in H1. destruct Hs as (_ & _ & _ & Hs & _). simpl in *. lia. }
  rewrite E, Hcomm in Ht. injection Ht as <- <- <-.
  exists ((z :: chunk) :: took'), ok', r3', (bufs1 ++ bufs2), batch'. split_and!.
  - by rewrite (bind_step _ _ _ _ _ Et).
  - by rewrite (with_writes_app c _ _ _ _ e3 r3' Hr3).
  - by eapply flushed_cons.
Qed.

(** C19. Whatever the session produces, and as long as it and the allocations for the writes
    do not fail, [flush] does to the reactor what the reference does, which runs the
    events of the streams that come with the chunks ([onStreamClose] among them) and
    queues nothing; and it gives the connection the chunks that the reference takes: it
    queues exactly their bytes in order when it succeeds, and the beginning of them
    when an event fails.  Each buffer that it queues is not empty, and is a chunk or at
    most as long as a batch. *)
Theorem flush_equivalent cfg c r x o steps :
  rx_conns r !! c = Some x → rx_ops r !! c = Some o → has_room (len (concat steps.*2)) (mkCell x o) →
  ∃ took ok r1 bufs,
    taken (write_high_watermark_bytes cfg) c (queued_write_bytes x) steps r = Some (took, ok, r1) ∧
    flush cfg c (mkFlush (sends steps) true) r = Some (ok, with_writes c bufs took r1) ∧
    (if ok : bool then concat bufs = concat took else concat bufs `prefix_of` concat took) ∧
    Forall (λ b, nonempty b ∧ (len b ≤ socket_write_batch_target ∨ b ∈ took)) bufs.
Proof.
  intros Hx Ho Hroom. destruct (flush_loop_at cfg c steps [] r (mkCell x o) 0) as (took & ok & r1 & bufs & batch & H1 & H2 & [H3 H4 H5 (e1 & Hr1 & H6)]);
    [done|done|by rewrite Z.add_0_r|done|]. cbn [conn] in H1. change (len []) with 0 in H1. rewrite Z.add_0_r in H1, H6.
  unfold flush. cbn [fl_steps fl_memory]. rewrite (bind_step _ _ _ _ _ H2). destruct ok.
  2: { exists took, false, r1, bufs. split_and!; [done..| |done]. simpl in H3. rewrite <- H3. by apply prefix_app_r. }
  destruct batch as [|z batch].
  - exists took, true, r1, bufs. rewrite app_nil_r in H3. done.
  - destruct (queue_at (z :: batch) (queue_all bufs took e1) 0) as [Hq _]; [done|by rewrite Z.add_0_r|done|].
    exists took, true, r1, (bufs ++ [z :: batch]). destruct (holds_with_writes c e1 bufs took r1 Hr1) as [_ ->].
    destruct (holds_with_writes c e1 (bufs ++ [z :: batch]) took r1 Hr1) as [_ ->].
    rewrite (on_conn_at _ _ _ _ _ _ Hq), queue_all_app, app_nil_r. split_and!; [done|done| |].
    + rewrite concat_app. simpl. by rewrite app_nil_r, H3.
    + apply Forall_app. split; [done|]. apply Forall_singleton. split; [done|]. left. lia.
Qed.

Definition demo_open : Connection :=
  Connection_init <| write_queue := [[1; 2]] |> <| pending_writes := 1 |> <| queued_write_bytes := 2 |> <| streams := {[1 := true]} |>.
Definition demo_writes : Reactor :=
  Reactor_init <| rx_conns := {[0%nat := demo_open]} |> <| rx_ops := {[0%nat := no_ops <| op_write := true |>]} |>
    <| rx_connections := [0%nat] |> <| rx_commands := [(0%nat, 1)] |>.
Definition demo_steps : list (list StreamEvent * list Z) := [([], [3; 4; 5]); ([StreamClosed 1 true], [6; 7]); ([], [8])].

(** The watermark of 6 bytes is reached with the second chunk, and with it a stream
    ends. *)
Lemma flush_equivalent_witness :
  ∃ r1 bufs, flush (mkConfig 4 6 3 100) 0 (mkFlush (sends demo_steps) true) demo_writes = Some (true, with_writes 0 bufs [[3; 4; 5]; [6; 7]] r1) ∧
    concat bufs = [3; 4; 5; 6; 7] ∧ rx_commands r1 = [].
Proof.
  destruct (flush_equivalent (mkConfig 4 6 3 100) 0 demo_writes demo_open (no_ops <| op_write := true |>) demo_steps)
    as (took & ok & r1 & bufs & H1 & H2 & H3 & _); [reflexivity|reflexivity|split; [reflexivity|reflexivity|split; vm_compute; discriminate..]|].
  vm_compute in H1. injection H1 as <- <- <-. eexists _, bufs. split; [exact H2|]. split; [exact H3|reflexivity].
Defined.
