(* ===== verification/ServerInvariant.v ===== *)
(** * What a reactor keeps

    The invariant of [ServerReactor]: for each connection, the flags of the code and
    the completions that the event loop has agree, the accounts of queued writes are
    exact, and bytes are neither lost nor reordered; a connection that is closing has
    a completion outstanding until it is destroyed.  Every callback is defined in a
    state that has the invariant, and keeps it. *)

From S2P Require Import Prelude UbLogic ServerReactor.

Local Open Scope Z_scope.

(** ** One connection *)

Section Config.
Context {cfg : Config}.

Definition unsent (x : Connection) : list Z := drop (head_written x) (concat (write_queue x)).

(** What holds at any moment of a callback; [w] is whether it is the one of a write,
    [exact] whether nothing that the session produced was lost. *)
Record cell_mid (w exact : bool) (e : Cell) : Prop := {
  cm_read : op_read (ops e) = read_active (conn e);
  cm_read_cancel : op_read_cancel (ops e) = read_cancel_submitted (conn e);
  cm_write_cancel : op_write_cancel (ops e) = write_cancel_submitted (conn e);
  cm_close : op_close (ops e) = close_submitted (conn e) && negb (close_completed (conn e));
  cm_write : op_write (ops e) = negb w && negb (bool_decide (write_queue (conn e) = []));
  cm_pending : pending_writes (conn e) = Z.of_nat (length (write_queue (conn e)));
  cm_queued : queued_write_bytes (conn e) = Z.of_nat (length (concat (write_queue (conn e))));
  cm_completed : close_completed (conn e) = true → close_submitted (conn e) = true;
  cm_submitted : close_submitted (conn e) = true →
    closing (conn e) = true ∧ read_active (conn e) = false ∧ write_queue (conn e) = [];
  cm_cancel : read_cancel_submitted (conn e) = true ∨ write_cancel_submitted (conn e) = true → closing (conn e) = true;
  cm_head : (head_written (conn e) ≤ length (default [] (head (write_queue (conn e)))))%nat;
  cm_sent : sent (conn e) `prefix_of` produced (conn e);
  cm_prefix : w = false → sent (conn e) ++ unsent (conn e) `prefix_of` produced (conn e);
  cm_exact : exact = true → closing (conn e) = false → sent (conn e) ++ unsent (conn e) = produced (conn e);
  cm_bound : 0 ≤ longest (conn e) ∧ queued_write_bytes (conn e) < write_high_watermark_bytes cfg + longest (conn e) }.

(** Once it is closing, either its close was submitted, or a completion is outstanding
    after which it is; and it is destroyed with the last completion. *)
Record settled (x : Connection) : Prop := {
  se_owns : owns_admission x = true;
  se_session : session x = true ∨ closing x = true;
  se_closing : closing x = true → close_submitted x = false → read_active x = true ∨ write_queue x ≠ [];
  se_completed : close_completed x = true → read_cancel_submitted x = true ∨ write_cancel_submitted x = true }.

Record cell_ok (e : Cell) : Prop := { co_mid : cell_mid false true e; co_settled : settled (conn e) }.

(** Fields that none of this mentions *)
Definition same_core (x y : Connection) : Prop :=
  owns_admission x = owns_admission y ∧ session x = session y ∧
  pending_writes x = pending_writes y ∧ queued_write_bytes x = queued_write_bytes y ∧ closing x = closing y ∧
  read_active x = read_active y ∧ read_cancel_submitted x = read_cancel_submitted y ∧
  write_cancel_submitted x = write_cancel_submitted y ∧ close_submitted x = close_submitted y ∧
  close_completed x = close_completed y ∧ write_queue x = write_queue y ∧ head_written x = head_written y ∧
  sent x = sent y ∧ produced x = produced y ∧ longest x = longest y.

Lemma cell_mid_core w exact x y o : same_core x y → cell_mid w exact (mkCell x o) → cell_mid w exact (mkCell y o).
Proof. destruct x, y. unfold same_core. simpl. intros Hs []. destruct_and! Hs. subst. by split. Qed.

Lemma settled_core x y : same_core x y → settled x → settled y.
Proof. destruct x, y. unfold same_core. simpl. intros Hs []. destruct_and! Hs. subst. by split. Qed.

(** A connection that is closing only gets closer to its end. *)
Record winds (x y : Connection) : Prop := {
  wi_closing : closing y = true;
  wi_read : read_active y = true → read_active x = true;
  wi_write : write_queue x = [] → write_queue y = [];
  wi_read_cancel : read_cancel_submitted y = true → read_cancel_submitted x = true;
  wi_write_cancel : write_cancel_submitted y = true → write_cancel_submitted x = true;
  wi_submitted : close_submitted x = true → close_submitted y = true;
  wi_completed : close_completed x = true → close_completed y = true }.

Definition tame (x y : Connection) : Prop := closing x = true → winds x y.

#[export] Instance tame_preorder : PreOrder tame.
Proof.
  split.
  - by intros x Hc.
  - intros x y z Hxy Hyz Hc. destruct (Hxy Hc) as []. destruct (Hyz wi_closing0) as []. split; auto.
Qed.

Lemma same_core_tame x y : same_core x y → tame x y.
Proof. unfold same_core. intros Hs Hc. destruct_and! Hs. split; congruence. Qed.

Definition tamed (m m' : gmap nat Connection) : Prop := ∀ c, option_Forall2 tame (m !! c) (m' !! c).

#[export] Instance tamed_preorder : PreOrder tamed.
Proof. split; [by intros m c|]. intros m1 m2 m3 H12 H23 c. by transitivity (m2 !! c). Qed.

Lemma tamed_lookup m m' c x : tamed m m' → m !! c = Some x → ∃ y, m' !! c = Some y ∧ tame x y.
Proof. intros Hm Hx. specialize (Hm c). rewrite Hx in Hm. inversion Hm. eauto. Qed.

Lemma tamed_lookup_r m m' c y : tamed m m' → m' !! c = Some y → ∃ x, m !! c = Some x ∧ tame x y.
Proof. intros Hm Hx. specialize (Hm c). rewrite Hx in Hm. inversion Hm. eauto. Qed.

Lemma tamed_insert m c x y : m !! c = Some x → tame x y → tamed m (<[c := y]> m).
Proof.
  intros Hx Hxy c'. destruct (decide (c' = c)) as [->|Hne]; [|by rewrite lookup_insert_ne].
  rewrite Hx, lookup_insert_eq. by constructor.
Qed.

Lemma cell_mid_weaken w exact e : cell_mid w exact e → cell_mid w false e.
Proof. intros []. by split. Qed.

Lemma wp_set_self f Q e : Q () (mkCell (f (conn e)) (ops e)) → wp (set_self f) Q e.
Proof. done. Qed.

Lemma wp_self Q e : Q (conn e) e → wp self Q e.
Proof. done. Qed.

Lemma wp_arm_read Q e : op_read (ops e) = false → Q () (mkCell (conn e) ((ops e) <| op_read := true |>)) → wp arm_read Q e.
Proof. intros E HQ. unfold wp, arm_read, mbind, ub_bind, get. by rewrite E. Qed.

Lemma wp_arm_write Q e : op_write (ops e) = false → Q () (mkCell (conn e) ((ops e) <| op_write := true |>)) → wp arm_write Q e.
Proof. intros E HQ. unfold wp, arm_write, mbind, ub_bind, get. by rewrite E. Qed.

Lemma wp_arm_read_cancel Q e : op_read_cancel (ops e) = false → Q () (mkCell (conn e) ((ops e) <| op_read_cancel := true |>)) → wp arm_read_cancel Q e.
Proof. intros E HQ. unfold wp, arm_read_cancel, mbind, ub_bind, get. by rewrite E. Qed.

Lemma wp_arm_write_cancel Q e : op_write_cancel (ops e) = false → Q () (mkCell (conn e) ((ops e) <| op_write_cancel := true |>)) → wp arm_write_cancel Q e.
Proof. intros E HQ. unfold wp, arm_write_cancel, mbind, ub_bind, get. by rewrite E. Qed.

Lemma wp_arm_close Q e : op_close (ops e) = false → Q () (mkCell (conn e) ((ops e) <| op_close := true |>)) → wp arm_close Q e.
Proof. intros E HQ. unfold wp, arm_close, mbind, ub_bind, get. by rewrite E. Qed.

(** What the functions on completions and buffers leave alone *)
Record kept (x y : Connection) : Prop := {
  kp_owns : owns_admission y = owns_admission x;
  kp_session : session y = session x;
  kp_streams : streams y = streams x;
  kp_draining : draining y = draining x;
  kp_closing : closing y = closing x;
  kp_completed : close_completed y = close_completed x;
  kp_read_cancel : closing x = true → read_cancel_submitted y = read_cancel_submitted x;
  kp_write_cancel : closing x = true → write_cancel_submitted y = write_cancel_submitted x }.

Lemma kept_refl x : kept x x.
Proof. by split. Qed.

Lemma kept_trans x y z : kept x y → kept y z → kept x z.
Proof.
  intros [] []. split; try congruence; intros; etrans; eauto; match goal with H : _ → _ |- _ => apply H end; congruence.
Qed.

Lemma submitCloseIfReady_spec w exact e :
  cell_mid w exact e → closing (conn e) = true →
  wp submitCloseIfReady (λ _ e', cell_mid w exact e' ∧ kept (conn e) (conn e') ∧
    read_cancel_submitted (conn e') = read_cancel_submitted (conn e) ∧
    write_cancel_submitted (conn e') = write_cancel_submitted (conn e) ∧
    (close_submitted (conn e') = false → read_active (conn e') = true ∨ write_queue (conn e') ≠ []) ∧
    write_queue (conn e') = write_queue (conn e) ∧ tame (conn e) (conn e')) e.
Proof.
  intros Hm Hc. pose proof Hm as []. unfold submitCloseIfReady. apply wp_then, wp_self.
  destruct (close_submitted (conn e)) eqn:Ecs; simpl; [by split_and!; try apply kept_refl; try congruence|].
  destruct (read_active (conn e)) eqn:Era; simpl; [by split_and!; try apply kept_refl; auto|].
  destruct (Z.eqb_spec (pending_writes (conn e)) 0) as [E|E]; simpl.
  - assert (write_queue (conn e) = []) as Eq by (destruct (write_queue (conn e)); [done|simpl in *; lia]).
    apply wp_then, wp_set_self, wp_arm_close; [by simpl; rewrite cm_close0|]. split_and!; [|by split|done..].
    split; simpl; try done; try congruence.
    by destruct (close_completed (conn e)); [specialize (cm_completed0 eq_refl)|].
  - split_and!; try done; try apply kept_refl. right. intros Eq. rewrite Eq in cm_pending0. simpl in *. lia.
Qed.

(** The accounts with one buffer taken off the queue already *)
Lemma account_write_spec bytes e :
  pending_writes (conn e) = 1 + Z.of_nat (length (write_queue (conn e))) →
  queued_write_bytes (conn e) = Z.of_nat (length bytes) + Z.of_nat (length (concat (write_queue (conn e)))) →
  wp (account_write bytes) (λ _ e', e' = mkCell ((conn e) <| pending_writes := Z.of_nat (length (write_queue (conn e))) |>
    <| queued_write_bytes := Z.of_nat (length (concat (write_queue (conn e)))) |>) (ops e)) e.
Proof.
  intros Hp Hq. unfold account_write. apply wp_then, wp_self. rewrite Hp, Hq.
  apply wp_then. unfold wp at 1, check. rewrite (proj2 (Z.ltb_lt _ _)) by lia. cbn [mret ub_ret].
  apply wp_then. unfold wp at 1, completeQueuedWrite. rewrite (proj2 (Z.leb_le _ _)) by lia. cbn [mret ub_ret].
  apply wp_set_self. simpl. rewrite Hp.
  match goal with |- context [_ + ?q - _] => replace (_ + q - _) with q by lia end.
  by match goal with |- context [1 + ?p - 1] => replace (1 + p - 1) with p by lia end.
Qed.

Lemma discard_loop_spec exact q e :
  cell_mid true exact e → closing (conn e) = true → write_queue (conn e) = q →
  wp (discard_loop q) (λ _ e', cell_mid true exact e' ∧ kept (conn e) (conn e') ∧ write_queue (conn e') = [] ∧
    read_active (conn e') = read_active (conn e) ∧ close_submitted (conn e') = close_submitted (conn e) ∧
    tame (conn e) (conn e')) e.
Proof.
  revert e. induction q as [|bytes q IH]; intros e Hm Hc Hq; simpl; [by split_and!; [|apply kept_refl|..]|].
  apply wp_then, wp_set_self. apply wp_then. destruct Hm. rewrite Hq in *. simpl in *.
  eapply wp_mono.
  { apply account_write_spec; simpl; [lia|]. rewrite length_app in *. lia. }
  intros [] ? ->. simpl. eapply wp_mono; [apply IH; simpl; try done|].
  - split; simpl; try done; try lia.
    + intros H. by destruct (cm_submitted0 H) as (_ & _ & ?).
    + intros _ ?. congruence.
    + rewrite length_app in *. lia.
  - simpl. intros _ e' (H1 & H2 & H3 & H4 & H5 & H6). split_and!; try done; [by eapply kept_trans; [|exact H2]|].
    etrans; [|exact H6]. intros _. split; simpl; try done. congruence.
Qed.

Lemma cancel_read_spec w exact e :
  cell_mid w exact e → closing (conn e) = true → read_cancel_submitted (conn e) = false →
  wp (if read_active (conn e) then _ ← set_self (λ x, x <| read_cancel_submitted := true |>); arm_read_cancel else mret ())
    (λ _ e', cell_mid w exact e' ∧ conn e' = (conn e) <| read_cancel_submitted := read_active (conn e) |> ∧
       op_write (ops e') = op_write (ops e)) e.
Proof.
  intros Hm Hc Hr. destruct (read_active (conn e)) eqn:Era.
  - apply wp_then, wp_set_self, wp_arm_read_cancel; [simpl; by rewrite (cm_read_cancel _ _ _ Hm)|]. destruct Hm.
    by split_and!.
  - split_and!; [done| |done]. destruct e as [[] ?]. simpl in *. by subst.
Qed.

Lemma cancel_write_spec w exact e :
  cell_mid w exact e → closing (conn e) = true → write_cancel_submitted (conn e) = false →
  wp (match write_queue (conn e) with
      | [] => mret ()
      | _ =>
          if op_write (ops e) then _ ← set_self (λ x, x <| write_cancel_submitted := true |>); arm_write_cancel
          else discardQueuedWrites
      end)
    (λ _ e', cell_mid w exact e' ∧ owns_admission (conn e') = owns_admission (conn e) ∧ session (conn e') = session (conn e) ∧
       streams (conn e') = streams (conn e) ∧ draining (conn e') = draining (conn e) ∧ closing (conn e') = true ∧
       close_completed (conn e') = close_completed (conn e) ∧ read_active (conn e') = read_active (conn e) ∧
       close_submitted (conn e') = close_submitted (conn e) ∧ (w = true → write_queue (conn e') = [])) e.
Proof.
  intros Hm Hc Hw. destruct (write_queue (conn e)) as [|bytes q] eqn:Eq; [by split_and!|].
  pose proof (cm_write _ _ _ Hm) as Hop. rewrite Eq in Hop. simpl in Hop. rewrite andb_true_r in Hop.
  destruct w; simpl in Hop; rewrite Hop.
  - unfold discardQueuedWrites. apply wp_then, wp_self. eapply wp_mono; [by apply discard_loop_spec|].
    intros _ e' (H1 & [] & H3 & H4 & H5 & _). split_and!; try done. congruence.
  - apply wp_then, wp_set_self, wp_arm_write_cancel; [simpl; by rewrite (cm_write_cancel _ _ _ Hm)|].
    destruct Hm. by split_and!.
Qed.

(** A connection that has just begun to close *)
Lemma close_ops_spec w exact e :
  cell_mid w exact e → closing (conn e) = true → close_submitted (conn e) = false →
  read_cancel_submitted (conn e) = false → write_cancel_submitted (conn e) = false →
  wp close_ops (λ _ e', cell_mid w exact e' ∧ owns_admission (conn e') = owns_admission (conn e) ∧
    streams (conn e') = streams (conn e) ∧ draining (conn e') = draining (conn e) ∧ closing (conn e') = true ∧
    close_completed (conn e') = false ∧
    (close_submitted (conn e') = false → read_active (conn e') = true ∨ write_queue (conn e') ≠ []) ∧
    (w = true → write_queue (conn e') = [])) e.
Proof.
  intros Hm Hc Hs Hr Hw. unfold close_ops. apply wp_then, wp_self.
  apply wp_then. eapply wp_mono; [by apply cancel_read_spec|]. intros _ e1 (Hm1 & Ec1 & _). apply wp_then. red. simpl.
  apply wp_then. eapply wp_mono; [apply (cancel_write_spec w exact); [done|by rewrite Ec1..]|].
  intros _ e2 (Hm2 & H1 & H2 & H3 & H4 & H5 & H6 & H7 & H8 & H9). eapply wp_mono; [by apply submitCloseIfReady_spec|].
  intros _ e3 (Hm3 & [] & _ & _ & Hb & Hq & _). rewrite Ec1 in *. simpl in *. split_and!; try done; try congruence; try (by rewrite Hq).
  rewrite kp_completed0, H6. destruct (close_completed (conn e)) eqn:E; [|done].
  by rewrite (cm_completed _ _ _ Hm E) in Hs.
Qed.

Lemma startRead_spec w exact memory e :
  cell_mid w exact e →
  wp (startRead memory) (λ _ e', cell_mid w exact e' ∧ kept (conn e) (conn e') ∧
    (closing (conn e) = true → e' = e) ∧ write_queue (conn e') = write_queue (conn e) ∧
    close_submitted (conn e') = close_submitted (conn e) ∧
    (read_active (conn e) = true → read_active (conn e') = true)) e.
Proof.
  intros Hm. unfold startRead. apply wp_then, wp_self.
  destruct (close_after_writes (conn e)) eqn:E1; simpl; [by split_and!; [|apply kept_refl|..]|].
  destruct (closing (conn e)) eqn:E2; simpl; [by split_and!; [|apply kept_refl|..]|].
  destruct (read_active (conn e)) eqn:E3; simpl; [by split_and!; [|apply kept_refl|..]|].
  destruct (negb _ && negb memory); [by split_and!; [|apply kept_refl|..]|].
  apply wp_then, wp_set_self, wp_then, wp_arm_read; [simpl; by rewrite (cm_read _ _ _ Hm)|].
  destruct Hm. split_and!; try done. split; simpl; try done. intros H. by destruct (cm_submitted0 H) as (? & _ & _); congruence.
Qed.

Lemma unsent_app x bytes :
  (head_written x ≤ length (default [] (head (write_queue x))))%nat →
  unsent (x <| write_queue := write_queue x ++ [bytes] |>) = unsent x ++ bytes.
Proof.
  unfold unsent. simpl. intros H. rewrite concat_app, drop_app_le; simpl; [by rewrite app_nil_r|].
  destruct (write_queue x); simpl in *; [lia|]. rewrite length_app. lia.
Qed.

(** Queueing a buffer while more that was produced, [rest], is still to be queued *)
Lemma queueOwnedSocketWrite_spec memory bytes rest e :
  cell_mid false false e → closing (conn e) = false →
  sent (conn e) ++ unsent (conn e) ++ bytes ++ rest = produced (conn e) →
  queued_write_bytes (conn e) + Z.of_nat (length bytes) < write_high_watermark_bytes cfg + longest (conn e) →
  wp (queueOwnedSocketWrite memory bytes) (λ ok e', cell_mid false false e' ∧ kept (conn e) (conn e') ∧
    (ok = true → sent (conn e') ++ unsent (conn e') ++ rest = produced (conn e') ∧
       queued_write_bytes (conn e') = queued_write_bytes (conn e) + Z.of_nat (length bytes)) ∧
    longest (conn e') = longest (conn e)) e.
Proof.
  intros Hm Hc Hb Hq. unfold queueOwnedSocketWrite. destruct memory; [|by split_and!; [|apply kept_refl|..]].
  simpl. apply wp_then, wp_self. unfold add_usize.
  destruct (_ + 1 <=? _); [|by split_and!; [|apply kept_refl|..]].
  destruct (_ + _ <=? _); [|by split_and!; [|apply kept_refl|..]].
  assert (wp (match write_queue (conn e) with [] => arm_write | _ => mret () end)
    (λ _ e', e' = mkCell (conn e) ((ops e) <| op_write := true |>)) e) as Ha.
  { pose proof (cm_write _ _ _ Hm) as Ho. destruct (write_queue (conn e)); simpl in Ho.
    - by apply wp_arm_write. - destruct e as [? []]. simpl in *. by subst. }
  apply wp_then. eapply wp_mono; [exact Ha|]. intros _ ? ->. apply wp_then, wp_set_self. simpl. unfold wp. simpl.
  pose proof (unsent_app (conn e) bytes (cm_head _ _ _ Hm)) as Hu. destruct Hm.
  assert (∀ q b, unsent ((conn e) <| pending_writes := q |> <| queued_write_bytes := b |>
    <| write_queue := write_queue (conn e) ++ [bytes] |>) = unsent (conn e) ++ bytes) as Hu' by (intros; exact Hu).
  split_and!; try done.
  - split; simpl; try done; rewrite ?Hu'; rewrite ?length_app, ?concat_app, ?length_app; simpl; rewrite ?app_nil_r; try lia.
    + rewrite bool_decide_false; [done|]. by intros [_ ?]%app_nil.
    + intros H. destruct (cm_submitted0 H). congruence.
    + destruct (write_queue (conn e)); simpl in *; lia.
    + intros _. exists rest. simpl. rewrite <- Hb. by rewrite <- !(assoc_L (++)).
  - intros _. rewrite Hu'. split; [|done]. simpl. rewrite <- Hb. by rewrite <- !(assoc_L (++)).
Qed.

(** The completion of the first buffer, up to the accounts *)
Lemma write_pop_spec bytes rest written e :
  cell_mid true true e → sent (conn e) ++ unsent (conn e) `prefix_of` produced (conn e) →
  write_queue (conn e) = bytes :: rest →
  let x := (conn e) <| write_queue := rest |> <| head_written := 0%nat |>
    <| sent := if written : bool then sent (conn e) ++ drop (head_written (conn e)) bytes else sent (conn e) |> in
  wp (account_write bytes) (λ _ e', cell_mid true written e' ∧ kept (conn e) (conn e') ∧
    read_active (conn e') = read_active (conn e) ∧ close_submitted (conn e') = close_submitted (conn e) ∧
    tame x (conn e')) (mkCell x (ops e)).
Proof.
  intros Hm Hp Hq x. destruct Hm. unfold unsent in *. rewrite Hq in *. simpl in *. rewrite length_app in *.
  rewrite drop_app_le in Hp, cm_exact0 by done.
  eapply wp_mono; [apply account_write_spec; simpl; lia|]. intros _ ? ->. split_and!; try done.
  split; unfold unsent; simpl; try done; try lia.
  - intros H. by destruct (cm_submitted0 H) as (_ & _ & ?).
  - destruct written; [|done]. etrans; [|exact Hp]. rewrite (assoc_L (++)). by apply prefix_app_r.
  - intros -> Hc. rewrite drop_0, <- (assoc_L (++)). by apply cm_exact0.
Qed.

(** ** The reactor *)

(** The flags of the listener agree with its completions. *)
Record listener_inv (l : Listener) : Prop := {
  li_cancel : op_accept_cancel l = listener_accept_cancel_submitted l;
  li_close : op_listener_close l = listener_close_submitted l && negb (listener_closed l);
  li_closed : listener_closed l = true → listener_close_submitted l = true;
  li_active : listener_accept_active l = true → op_accept l = true }.

(** The listener is on its way to be closed. *)
Definition closing_listener (l : Listener) : Prop :=
  listener_close_submitted l = true ∨ listener_accept_active l = true ∧ listener_accept_cancel_submitted l = true.

(** What may be relied on in the middle of a callback: something about the listener;
    [md_pending] is whether the callback is the one that attends to a shutdown. *)
Record Mode := mkMode { md_listener :> Listener → Prop; md_pending : Prop }.

Definition listener_closing : Mode := mkMode closing_listener False.

Definition notice (s : Shared) : Prop := notify_lost s = true ∨ shutdown_notified s = true.

Definition noticed (lc : Mode) (s : Shared) : Prop := notice s ∨ md_pending lc.

(** A shutdown that was asked for is either still to be noticed, or under way. *)
Record prog (lc : Mode) (r : Reactor) : Prop := {
  pg_init : loop_running r = true → listener_initialized (rx_listener r) = true;
  pg_idle : state (rx_shared r) = Initialized ∨ state (rx_shared r) = Starting →
    rx_connections r = [] ∧ rx_drain_started r = false ∧ rx_claimed r = false ∧ op_accept (rx_listener r) = false;
  pg_started : rx_drain_started r = true →
    (state (rx_shared r) = Draining ∨ state (rx_shared r) = Stopping ∨ state (rx_shared r) = Stopped) ∧ lc (rx_listener r);
  pg_timer : rx_drain_started r = true → state (rx_shared r) = Draining →
    rx_drain_timer r = true ∨ notify_lost (rx_shared r) = true ∨ md_pending lc;
  pg_draining : state (rx_shared r) = Draining → noticed lc (rx_shared r) ∨ rx_drain_started r = true;
  pg_stopping : state (rx_shared r) = Stopping → noticed lc (rx_shared r) ∨
    lc (rx_listener r) ∧ ∀ c x, rx_conns r !! c = Some x → closing x = true;
  pg_claimed : rx_claimed r = true → rx_drain_started r = false ∧
    (state (rx_shared r) = Running ∨ notice (rx_shared r)) ∧
    op_accept (rx_listener r) = false ∧ listener_accept_active (rx_listener r) = false;
  pg_stopped : rx_loop_stopped r = true →
    (state (rx_shared r) = Stopping ∨ state (rx_shared r) = Stopped) ∧ rx_connections r = [] ∧ rx_claimed r = false ∧
    listener_closed (rx_listener r) = true;
  pg_final : state (rx_shared r) = Stopped → rx_claimed r = false ∧ (rx_failed r = true ∨ rx_connections r = []) }.

(** Everything but the connections themselves; [K] is how many of the admitted ones
    are of other reactors. *)
Record frame_inv (K : Z) (lc : Mode) (r : Reactor) : Prop := {
  fi_nodup : NoDup (rx_connections r);
  fi_dom : ∀ c, c ∈ rx_connections r ↔ is_Some (rx_conns r !! c);
  fi_ops : ∀ c, rx_conns r !! c = None → ops_of r c = no_ops;
  fi_dirty_nodup : NoDup (rx_dirty r);
  fi_dirty : ∀ c, c ∈ rx_dirty r → is_Some (rx_conns r !! c);
  fi_commands : ∀ c id, (c, id) ∈ rx_commands r → ∃ x, rx_conns r !! c = Some x ∧ is_Some (streams x !! id);
  fi_listener : listener_inv (rx_listener r);
  fi_admitted : rx_admitted r = K + Z.of_nat (length (rx_connections r)) + Z.b2z (rx_claimed r);
  fi_limit : 0 ≤ K ∧ rx_admitted r ≤ max_connections cfg;
  fi_prog : prog lc r }.

Definition cell_at (r : Reactor) (c : nat) (e : Cell) : Prop := rx_conns r !! c = Some (conn e) ∧ ops_of r c = ops e.

Definition upd (c : nat) (e : Cell) (r : Reactor) : Reactor :=
  r <| rx_conns := <[c := conn e]> (rx_conns r) |> <| rx_ops := <[c := ops e]> (rx_ops r) |>.

Definition others (c : nat) (r : Reactor) : Prop := ∀ c' e, c' ≠ c → cell_at r c' e → cell_ok e.

Definition all_ok (r : Reactor) : Prop := ∀ c e, cell_at r c e → cell_ok e.

Lemma cell_at_upd c e r : cell_at (upd c e r) c e.
Proof. unfold cell_at, upd, ops_of. simpl. by rewrite !lookup_insert_eq. Qed.

Lemma cell_at_upd_ne c c' e e' r : c' ≠ c → cell_at (upd c e r) c' e' ↔ cell_at r c' e'.
Proof. intros Hne. unfold cell_at, upd, ops_of. simpl. by rewrite !lookup_insert_ne. Qed.

Lemma cell_at_fun r c e e' : cell_at r c e → cell_at r c e' → e' = e.
Proof. destruct e, e'. unfold cell_at. simpl. intros [] []. simplify_eq. congruence. Qed.

Lemma others_upd c e r : others c r → others c (upd c e r).
Proof. intros H c' e' Hne Hc. apply (H c'); [done|]. by apply cell_at_upd_ne in Hc. Qed.

Lemma all_others c r : all_ok r → others c r.
Proof. intros H c' e _. apply H. Qed.

Lemma others_all c r e : others c r → cell_at r c e → cell_ok e → all_ok r.
Proof.
  intros H Hc He c' e' Hc'. destruct (decide (c' = c)) as [->|Hne]; [|by apply (H c')].
  by rewrite (cell_at_fun _ _ _ _ Hc Hc').
Qed.

Lemma cell_at_live r c x : rx_conns r !! c = Some x → cell_at r c (mkCell x (ops_of r c)).
Proof. done. Qed.

Lemma wp_on_conn {A} c (m : UB Cell A) P Q r e :
  cell_at r c e → wp m P e → (∀ a e', P a e' → Q a (upd c e' r)) → wp (on_conn c m) Q r.
Proof.
  intros [Hc Ho] Hm HQ. unfold wp, on_conn in *. rewrite Hc, Ho. destruct e as [x o]. simpl.
  destruct (m (mkCell x o)) as [[a e']|]; [|done]. by apply HQ.
Qed.

Lemma upd_id r c e : cell_at r c e → rx_ops r !! c = Some (ops e) → upd c e r = r.
Proof.
  intros [Hc Ho] Ho'. destruct r. unfold upd. simpl in *. cbn. by rewrite !insert_id by done.
Qed.

Lemma frame_upd_commands K lc c e e' r :
  frame_inv K lc r → cell_at r c e → (closing (conn e) = true → closing (conn e') = true) →
  (∀ id, (c, id) ∈ rx_commands r → is_Some (streams (conn e') !! id)) → frame_inv K lc (upd c e' r).
Proof.
  intros [] [Hc Ho] Hcl Hst. split; simpl; try done.
  - intros c'. rewrite fi_dom0. destruct (decide (c' = c)) as [->|]; [|by rewrite lookup_insert_ne].
    rewrite lookup_insert_eq, Hc. split; eauto.
  - intros c' Hn. unfold ops_of. simpl. destruct (decide (c' = c)) as [->|]; [by rewrite lookup_insert_eq in Hn|].
    rewrite lookup_insert_ne in Hn by done. rewrite lookup_insert_ne by done. by apply fi_ops0.
  - intros c' Hd%fi_dirty0. destruct (decide (c' = c)) as [->|]; [rewrite lookup_insert_eq; eauto|by rewrite lookup_insert_ne].
  - intros c' id Hin. destruct (decide (c' = c)) as [->|]; [rewrite lookup_insert_eq; eauto|].
    rewrite lookup_insert_ne by done. eauto.
  - destruct fi_prog0. split; simpl; try done. intros H. destruct (pg_stopping0 H) as [?|[? Hall]]; [by left|right].
    split; [done|]. intros c' x. destruct (decide (c' = c)) as [->|]; [|rewrite lookup_insert_ne by done; apply Hall].
    rewrite lookup_insert_eq. intros [= <-]. apply Hcl. by apply (Hall c).
Qed.

Lemma frame_upd K lc c e e' r :
  frame_inv K lc r → cell_at r c e → (closing (conn e) = true → closing (conn e') = true) →
  (∀ id, is_Some (streams (conn e) !! id) → is_Some (streams (conn e') !! id)) → frame_inv K lc (upd c e' r).
Proof.
  intros Hf Hc Hcl Hst. eapply frame_upd_commands; [done..|]. intros id Hin. apply Hst.
  destruct (fi_commands _ _ _ Hf c id Hin) as (x & Hx & Hid). destruct Hc as [Hc _]. rewrite Hc in Hx. by simplify_eq.
Qed.

(** ** Requests of other threads *)

Lemma notify_notice b s : notice (notifyShutdown b s).
Proof. destruct b; [by right|by left]. Qed.

Definition evolves : Shared → Shared → Prop := rtc (λ s s', ∃ q, s' = shutdownReactor q s).

Lemma shutdownReactor_cases q s :
  let s' := shutdownReactor q s in
  s' = s ∨
  (state s = Initialized ∧ state s' = Stopped) ∨
  (state s = Starting ∧ state s' = Starting) ∨
  (state s = Running ∧ state s' = Draining ∨ (state s = Running ∨ state s = Draining) ∧ state s' = Stopping) ∧ notice s' ∧
    (notify_lost s = true → notify_lost s' = true).
Proof.
  unfold shutdownReactor, notice, notifyShutdown. destruct (state s) eqn:E; simpl; [auto|..|by left|by left].
  - case_match; [|by left]. right; right; left. simpl. by rewrite E.
  - right; right; right. destruct (decide _), (rq_notified q); simpl; auto 7.
  - case_decide; [|by left]. right; right; right. destruct (rq_notified q); simpl; auto 8.
Qed.

Lemma prog_request lc q r : prog lc r → prog lc (r <| rx_shared := shutdownReactor q (rx_shared r) |>).
Proof.
  intros []. pose proof (shutdownReactor_cases q (rx_shared r)) as Hs. cbn zeta in Hs.
  set (s' := shutdownReactor q (rx_shared r)) in *. clearbody s'. unfold loop_running in *.
  destruct Hs as [->|[[E1 E2]|[[E1 E2]|(E & Hn & Hl)]]].
  - destruct r; done.
  - destruct (pg_idle0 (or_introl E1)) as (H1 & H2 & H3 & H4).
    split; unfold loop_running; simpl; rewrite ?E2, ?H2, ?H3; try done; [|auto]. intros H. destruct (pg_stopped0 H) as ([|] & _); congruence.
  - destruct (pg_idle0 (or_intror E1)) as (H1 & H2 & H3 & H4).
    split; unfold loop_running; simpl; rewrite ?E2, ?H2, ?H3; try done. intros H. destruct (pg_stopped0 H) as ([|] & _); congruence.
  - assert (state s' = Draining ∨ state s' = Stopping) as E' by (destruct E as [[_ ?]|[_ ?]]; auto).
    assert (state (rx_shared r) = Running ∨ state (rx_shared r) = Draining) as E0 by (destruct E as [[? _]|[? _]]; auto).
    split; unfold loop_running; simpl.
    + intros _. apply pg_init0. by destruct E0 as [-> | ->].
    + intros [H|H]; rewrite H in E'; by destruct E'.
    + intros H. destruct (pg_started0 H) as [_ ?]. split; [|done]. destruct E'; auto.
    + intros H1 H2. destruct E as [[H3 _]|[_ ?]]; [|congruence]. destruct (pg_started0 H1) as [[|[|]] _]; congruence.
    + by left; left.
    + by left; left.
    + intros H. destruct (pg_claimed0 H) as (H1 & _ & H3 & H4). split_and!; [done|by right|done..].
    + intros H. destruct (pg_stopped0 H) as ([|] & _), E0; congruence.
    + intros H. destruct E'; congruence.
Qed.

Lemma prog_evolves lc r s : prog lc r → evolves (rx_shared r) s → prog lc (r <| rx_shared := s |>).
Proof.
  intros Hp He. remember (rx_shared r) as s0 eqn:E. revert r Hp E. induction He as [s|s0 ? s [q ->] _ IH]; intros r Hp ->.
  - by destruct r.
  - exact (IH (r <| rx_shared := shutdownReactor q (rx_shared r) |>) (prog_request lc q r Hp) eq_refl).
Qed.

Lemma frame_shared K lc r s sched :
  frame_inv K lc r → evolves (rx_shared r) s → frame_inv K lc (r <| rx_sched := sched |> <| rx_shared := s |>).
Proof. intros [] He. split; try done. apply (prog_evolves lc r s) in He as []; [|done]. by split. Qed.

(** The same reactor, up to what other threads did *)
Definition after_lock (r r' : Reactor) : Prop :=
  ∃ sched s, evolves (rx_shared r) s ∧ r' = r <| rx_sched := sched |> <| rx_shared := s |>.

Lemma lock_spec K lc r : frame_inv K lc r → wp lock (λ s r', frame_inv K lc r' ∧ s = rx_shared r' ∧ after_lock r r') r.
Proof.
  intros Hf. unfold wp, lock, mbind, ub_bind, get, put, mret, ub_ret. destruct (rx_sched r) as [|qs sched] eqn:Es.
  - split_and!; try done. exists [], (rx_shared r). split; [by apply rtc_refl|]. destruct r. simpl in *. by subst.
  - set (s := foldl _ _ _). assert (evolves (rx_shared r) s) as He.
    { unfold s. clear Es s. generalize (rx_shared r) as s0. induction qs as [|q qs IH]; intros s0; simpl; [by apply rtc_refl|].
      eapply rtc_l; [exists q; reflexivity|apply IH]. }
    split_and!; [by apply frame_shared|done|]. by exists sched, s.
Qed.

Lemma after_lock_cells r r' : after_lock r r' → (∀ c e, cell_at r' c e ↔ cell_at r c e).
Proof. by intros (sched & s & _ & ->). Qed.

(** ** Working on one connection *)

(** Connection [c] is [e], and the others are as they should be. *)
Record focus (K : Z) (lc : Mode) (c : nat) (e : Cell) (r : Reactor) : Prop := {
  fo_frame : frame_inv K lc r; fo_cell : cell_at r c e; fo_others : others c r }.

(** What stays the same around it *)
Record near (r r' : Reactor) : Prop := {
  nr_connections : rx_connections r' = rx_connections r;
  nr_listener : rx_listener r' = rx_listener r;
  nr_started : rx_drain_started r' = rx_drain_started r;
  nr_timer : rx_drain_timer r' = rx_drain_timer r;
  nr_notified : rx_stream_notified r' = rx_stream_notified r;
  nr_wait : rx_stream_wait r' = rx_stream_wait r;
  nr_stopped : rx_loop_stopped r' = rx_loop_stopped r;
  nr_claimed : rx_claimed r' = rx_claimed r;
  nr_shared : evolves (rx_shared r) (rx_shared r');
  nr_conns : tamed (rx_conns r) (rx_conns r');
  nr_dirty : rx_dirty r' `sublist_of` rx_dirty r }.

#[export] Instance near_preorder : PreOrder near.
Proof.
  split.
  - intros r. by split.
  - intros r1 r2 r3 [] []. split; try congruence; by etrans.
Qed.

Lemma near_upd c e e' r : cell_at r c e → tame (conn e) (conn e') → near r (upd c e' r).
Proof. intros [Hc _] Ht. split; try done. by eapply tamed_insert. Qed.

(** The same, but for connection [c] *)
Definition without (c : nat) (r : Reactor) : Reactor := r <| rx_conns := delete c (rx_conns r) |>.

Definition near_but (c : nat) (r r' : Reactor) : Prop := near (without c r) (without c r').

#[export] Instance near_but_transitive c : Transitive (near_but c).
Proof. intros r1 r2 r3. unfold near_but. apply transitivity. Qed.

Lemma near_near_but c r r' : near r r' → near_but c r r'.
Proof.
  intros []. split; try done. simpl. intros c'. destruct (decide (c' = c)) as [->|Hne].
  - rewrite !lookup_delete_eq. constructor.
  - by rewrite !lookup_delete_ne.
Qed.

Lemma near_but_upd c e r : near_but c r (upd c e r).
Proof. split; try done. simpl. by rewrite delete_insert_eq. Qed.

Lemma near_but_near c e e' r r' :
  near_but c r r' → cell_at r c e → cell_at r' c e' → tame (conn e) (conn e') → near r r'.
Proof.
  intros [] [Hc _] [Hc' _] Ht. split; try done. intros c'. destruct (decide (c' = c)) as [->|Hne].
  - rewrite Hc, Hc'. by constructor.
  - specialize (nr_conns0 c'). simpl in nr_conns0. by rewrite !lookup_delete_ne in nr_conns0.
Qed.

Lemma near_lock r r' : after_lock r r' → near r r'.
Proof. intros (sched & s & He & ->). by split. Qed.

Lemma focus_upd K lc c e e' r :
  focus K lc c e r → (closing (conn e) = true → closing (conn e') = true) →
  (∀ id, is_Some (streams (conn e) !! id) → is_Some (streams (conn e') !! id)) → focus K lc c e' (upd c e' r).
Proof. intros [] Hc Hs. split; [by eapply frame_upd|apply cell_at_upd|by apply others_upd]. Qed.

Lemma focus_lock K lc c e r r' : focus K lc c e r → frame_inv K lc r' → after_lock r r' → focus K lc c e r'.
Proof.
  intros [] Hf Hl. pose proof (after_lock_cells _ _ Hl) as Hc. split; [done|by apply Hc|].
  intros c' e' Hne He%Hc. by apply (fo_others0 c').
Qed.

Lemma focus_connections K lc c e r : focus K lc c e r → rx_connections r ≠ [].
Proof. intros [Hf [Hc _] _] E. assert (c ∈ rx_connections r) as Hin by (apply (fi_dom _ _ _ Hf); eauto). rewrite E in Hin. by apply elem_of_nil in Hin. Qed.

(** While it is closing and its close was not submitted, something is outstanding. *)
Definition busy (e : Cell) : Prop :=
  close_submitted (conn e) = false → read_active (conn e) = true ∨ write_queue (conn e) ≠ [].

(** How a connection gets on during a callback *)
Record adv (w exact : bool) (e e' : Cell) : Prop := {
  ad_mid : cell_mid w exact e';
  ad_owns : owns_admission (conn e') = owns_admission (conn e);
  ad_sess : session (conn e) = true ∨ closing (conn e) = true → session (conn e') = true ∨ closing (conn e') = true;
  ad_closing : closing (conn e) = true → closing (conn e') = true;
  ad_completed : close_completed (conn e') = close_completed (conn e);
  ad_begun : closing (conn e) = false → closing (conn e') = true → busy e';
  ad_busy : closing (conn e) = true → busy e → busy e';
  ad_dropped : w = true → closing (conn e) = false → closing (conn e') = true → write_queue (conn e') = [];
  ad_empty : w = true → closing (conn e) = true → write_queue (conn e) = [] → write_queue (conn e') = [];
  ad_cancels : closing (conn e) = true → read_cancel_submitted (conn e') = read_cancel_submitted (conn e) ∧
    write_cancel_submitted (conn e') = write_cancel_submitted (conn e) }.

Lemma adv_refl w exact e : cell_mid w exact e → adv w exact e e.
Proof. intros H. split; try done; congruence. Qed.

Lemma adv_trans w x1 x2 e1 e2 e3 : adv w x1 e1 e2 → adv w x2 e2 e3 → adv w x2 e1 e3.
Proof.
  intros [] []. split; try done; try congruence; auto.
  - intros H1 H3. destruct (closing (conn e2)) eqn:E; auto.
  - intros Hw H1 H3. destruct (closing (conn e2)) eqn:E; auto.
  - intros H. destruct (ad_cancels0 H), (ad_cancels1 (ad_closing0 H)). split; congruence.
Qed.

(** A closing connection has lost nothing it still needs. *)
Lemma cell_mid_exact w e : cell_mid w false e → closing (conn e) = true → cell_mid w true e.
Proof. intros [] Hc. split; try done. intros _ ?. congruence. Qed.

Lemma adv_exact w e e' : adv w false e e' → closing (conn e') = true → adv w true e e'.
Proof. intros [] Hc. split; try done. by apply cell_mid_exact. Qed.

Lemma adv_core w exact e x : cell_mid w exact e → same_core (conn e) x → adv w exact e (mkCell x (ops e)).
Proof.
  intros Hm Hs. destruct e as [y o]. simpl in *. pose proof (cell_mid_core _ _ _ _ _ Hs Hm) as Hm'.
  unfold same_core in Hs. destruct_and! Hs. split; unfold busy; simpl; try done; try congruence.
  intros _ Hb Hcs. rewrite <- H4, <- H9. apply Hb. congruence.
Qed.

Lemma frame_dirty K lc r d : frame_inv K lc r → d `sublist_of` rx_dirty r → frame_inv K lc (r <| rx_dirty := d |>).
Proof.
  intros [] Hd. split; simpl; try done.
  - by eapply sublist_NoDup.
  - intros c Hc. apply fi_dirty0. by eapply elem_of_sublist.
  - by destruct fi_prog0.
Qed.

Lemma frame_commands K lc r cs : frame_inv K lc r → cs ⊆ rx_commands r → frame_inv K lc (r <| rx_commands := cs |>).
Proof. intros [] Hs. split; simpl; try done; [|by destruct fi_prog0]. intros c id Hin. by apply fi_commands0, Hs. Qed.

Lemma focus_dirty K lc c e r d :
  focus K lc c e r → d `sublist_of` rx_dirty r → focus K lc c e (r <| rx_dirty := d |>) ∧ near r (r <| rx_dirty := d |>).
Proof. intros [] Hd. split; [split; [by apply frame_dirty|done..]|by split]. Qed.

Lemma focus_commands K lc c e r cs :
  focus K lc c e r → cs ⊆ rx_commands r → focus K lc c e (r <| rx_commands := cs |>) ∧ near r (r <| rx_commands := cs |>).
Proof. intros [] Hd. split; [split; [by apply frame_commands|done..]|by split]. Qed.

Lemma conn_at_spec K lc c e r :
  focus K lc c e r → wp (conn_at c) (λ x r', x = conn e ∧ focus K lc c e r' ∧ near r r' ∧ rx_dirty r' = rx_dirty r) r.
Proof.
  intros Hf. eapply wp_on_conn; [apply Hf|by apply (wp_self (λ x e', x = conn e ∧ e' = e))|].
  intros x e' [-> ->]. split_and!; [done| |by eapply near_upd; [apply Hf|]|done]. by eapply focus_upd.
Qed.

(** A part of a callback that works on [c] *)
Lemma wp_focus {A} K lc c (m : UB Cell A) P Q r e :
  focus K lc c e r → wp m P e →
  (∀ a e', P a e' → tame (conn e) (conn e') ∧ streams (conn e') = streams (conn e)) →
  (∀ a e' r', P a e' → focus K lc c e' r' → near r r' → rx_dirty r' = rx_dirty r → Q a r') → wp (on_conn c m) Q r.
Proof.
  intros Hf Hm Hk HQ. eapply wp_on_conn; [apply Hf|exact Hm|]. intros a e' HP. destruct (Hk a e' HP) as [Hc Hs].
  apply (HQ a e'); [done| |by eapply near_upd; [apply Hf|]|done]. eapply focus_upd; [done|by intros []%Hc|]. by rewrite Hs.
Qed.

(** The same for a change to the connection alone *)
Lemma wp_focus_set K lc c f Q r e :
  focus K lc c e r → tame (conn e) (f (conn e)) → streams (f (conn e)) = streams (conn e) →
  (∀ r', focus K lc c (mkCell (f (conn e)) (ops e)) r' → near r r' → rx_dirty r' = rx_dirty r → Q () r') →
  wp (on_conn c (set_self f)) Q r.
Proof.
  intros Hf Hc Hs HQ. eapply (wp_focus _ _ _ _ (λ _ e', e' = mkCell (f (conn e)) (ops e))); [done|done| |].
  - by intros [] ? ->. - intros [] ? r' ->. by apply HQ.
Qed.

Lemma latch_core reason x :
  same_core x (match close_reason x with None => x <| close_reason := Some reason |> | Some _ => x end).
Proof. by destruct (close_reason x). Qed.

Lemma removeDirty_spec K lc c e r :
  focus K lc c e r → wp (removeDirtyConnection c) (λ _ r', focus K lc c e r' ∧ near r r' ∧ c ∉ rx_dirty r') r.
Proof.
  intros Hf. apply wp_modify. destruct (focus_dirty K lc c e r (filter (λ c', c' ≠ c) (rx_dirty r)) Hf) as [H1 H2].
  { apply sublist_filter. } split_and!; [done..|]. simpl. rewrite list_elem_of_filter. by intros [? _].
Qed.

Lemma discard_commands_spec K lc c e r p :
  focus K lc c e r → wp (discard_commands c p) (λ _ r', focus K lc c e r' ∧ near r r' ∧ rx_dirty r' = rx_dirty r ∧
    ∀ id, p id = true → (c, id) ∉ rx_commands r') r.
Proof.
  intros Hf. apply wp_modify. edestruct focus_commands as [H1 H2]; [exact Hf| |split_and!; [exact H1|exact H2|done|]].
  - intros t. rewrite list_elem_of_filter. by intros [_ ?].
  - simpl. intros id Hp [Hn _]%list_elem_of_filter. by apply Hn.
Qed.

Lemma cancel_streams_spec K lc c e r :
  focus K lc c e r → wp (cancel_streams c) (λ _ r', focus K lc c e r' ∧ near r r' ∧ rx_dirty r' = rx_dirty r) r.
Proof.
  intros Hf. unfold cancel_streams. wp_step conn_at_spec as (-> & Hf1 & Hn1 & Hd1).
  eapply wp_mono; [by eapply discard_commands_spec|]. intros _ r2 (Hf2 & Hn2 & Hd2 & _).
  split_and!; [done|by etrans|congruence].
Qed.

(** What the functions that close a connection do *)
Definition closed_to (w exact : bool) (K : Z) (lc : Mode) (c : nat) (e : Cell) (r r' : Reactor) : Prop :=
  ∃ e', focus K lc c e' r' ∧ adv w exact e e' ∧ streams (conn e') = streams (conn e) ∧ near r r'.

Lemma closed_to_trans w x1 x2 K lc c e r e' r' r'' :
  focus K lc c e' r' → adv w x1 e e' → streams (conn e') = streams (conn e) → near r r' →
  closed_to w x2 K lc c e' r' r'' → closed_to w x2 K lc c e r r''.
Proof.
  intros _ Ha Hs Hn (e2 & Hf2 & Ha2 & Hs2 & Hn2). exists e2.
  split_and!; [done|by eapply adv_trans|congruence|by etrans].
Qed.

Lemma closeOnLoop_spec w exact K lc c e r :
  focus K lc c e r → cell_mid w exact e →
  wp (closeOnLoop c) (λ _ r', ∃ e', focus K lc c e' r' ∧ adv w exact e e' ∧ streams (conn e') = streams (conn e) ∧
    near r r' ∧ closing (conn e') = true ∧ c ∉ rx_dirty r') r.
Proof.
  intros Hf Hm. unfold closeOnLoop, latchCloseReason, clearConnectionDeadline.
  apply wp_then. eapply wp_focus_set; [exact Hf|by destruct (close_reason _)|by destruct (close_reason _)|].
  intros r1 Hf1 Hn1 _. pose proof (adv_core w exact e _ Hm (latch_core ProtocolLocal (conn e))) as Ha1.
  set (x1 := match close_reason (conn e) with None => _ | Some _ => _ end) in *.
  assert (closing x1 = closing (conn e) ∧ streams x1 = streams (conn e)) as [Ec1 Es1] by (unfold x1; by destruct (close_reason _)).
  wp_step removeDirty_spec as (Hf2 & Hn2 & Hd2).
  apply wp_then. eapply wp_focus_set; [exact Hf2|done..|]. intros r3 Hf3 Hn3 Hd3. simpl in Hf3.
  pose proof (adv_core w exact _ (x1 <| connection_deadline := None |>) (ad_mid _ _ _ _ Ha1) ltac:(done)) as Ha3.
  set (e3 := mkCell (x1 <| connection_deadline := None |>) (ops e)) in *.
  pose proof (adv_trans _ _ _ _ _ _ Ha1 Ha3) as Ha13.
  assert (near r r3) as Hnr by (do 2 (etrans; [eassumption|]); done).
  wp_step conn_at_spec as (-> & Hf4 & Hn4 & Hd4). simpl. destruct (closing x1) eqn:Ecl.
  { exists e3. split_and!; try done; [by etrans|]. by rewrite Hd4, Hd3. }
  apply wp_then. eapply wp_focus_set; [exact Hf4|done..|]. intros r5 Hf5 Hn5 Hd5.
  wp_step cancel_streams_spec as (Hf6 & Hn6 & Hd6). pose proof (ad_mid _ _ _ _ Ha3) as Hm3.
  assert (close_submitted x1 = false) as Hsub.
  { destruct (close_submitted x1) eqn:E; [|done]. destruct (cm_submitted _ _ _ Hm3 E) as [H _]. simpl in H. congruence. }
  assert (read_cancel_submitted x1 = false ∧ write_cancel_submitted x1 = false) as [Hrc Hwc].
  { pose proof (cm_cancel _ _ _ Hm3) as H. simpl in H. split; apply not_true_is_false; intros ?; assert (closing x1 = true) by auto; congruence. }
  eapply wp_on_conn; [apply Hf6|apply (close_ops_spec w exact); simpl; try done|].
  - destruct Hm3. split; simpl; try done. intros H. destruct (cm_submitted0 H). congruence.
  - simpl. intros _ e' (Hm' & Ho & Hst & Hdr & Hcl & Hco & Hb & Hdrop). exists e'.
    assert (focus K lc c e' (upd c e' s'1)) as Hf7 by (eapply focus_upd; [exact Hf6|done|by rewrite Hst]).
    split_and!; try done; [|by rewrite Hst, <- Es1| |by simpl; rewrite Hd6, Hd5, Hd4, Hd3].
    + pose proof (ad_owns _ _ _ _ Ha13) as Ho13. simpl in *. split; try done; try congruence.
      * intros _. by right.
      * rewrite Hco. symmetry. apply not_true_is_false. intros H. rewrite <- (ad_completed _ _ _ _ Ha13) in H.
        apply (cm_completed _ _ _ Hm3) in H. simpl in H. congruence.
      * auto.
    + etrans; [exact Hnr|]. etrans; [exact Hn4|].
      apply (near_but_near c e3 e'); [|apply Hf4|apply Hf7|intros H; simpl in *; congruence].
      etrans; [by apply near_near_but|]. etrans; [by apply near_near_but|]. apply near_but_upd.
Qed.

Lemma closed_to_refl w exact K lc c e r : focus K lc c e r → cell_mid w exact e → closed_to w exact K lc c e r r.
Proof. intros Hf Hm. exists e. split_and!; [done|by apply adv_refl|done|done]. Qed.

(** A change to fields that nothing else depends on *)
Lemma wp_focus_core w exact K lc c f Q r e :
  focus K lc c e r → cell_mid w exact e → same_core (conn e) (f (conn e)) → streams (f (conn e)) = streams (conn e) →
  (∀ e' r', e' = mkCell (f (conn e)) (ops e) → focus K lc c e' r' → adv w exact e e' → near r r' → rx_dirty r' = rx_dirty r →
     Q () r') →
  wp (on_conn c (set_self f)) Q r.
Proof.
  intros Hf Hm Hc Hs HQ. pose proof (adv_core w exact e _ Hm Hc) as Ha.
  eapply wp_focus_set; [exact Hf|by apply same_core_tame|done|]. intros r' Hf' Hn Hd. by eapply HQ.
Qed.

Lemma latch_spec w exact K lc c e r reason :
  focus K lc c e r → cell_mid w exact e →
  wp (on_conn c (latchCloseReason reason)) (λ _ r', ∃ e', focus K lc c e' r' ∧ adv w exact e e' ∧
    streams (conn e') = streams (conn e) ∧ closing (conn e') = closing (conn e) ∧ draining (conn e') = draining (conn e) ∧
    close_after_writes (conn e') = close_after_writes (conn e) ∧ near r r' ∧ rx_dirty r' = rx_dirty r) r.
Proof.
  intros Hf Hm. eapply (wp_focus_core w exact); [exact Hf|done|apply latch_core|by destruct (close_reason _)|].
  intros e' r' -> Hf' Ha Hn Hd. eexists. split_and!; try done; simpl; by destruct (close_reason _).
Qed.

Lemma closeWithReason_spec w exact K lc c e r reason :
  focus K lc c e r → cell_mid w exact e →
  wp (closeWithReason c reason) (λ _ r', ∃ e', focus K lc c e' r' ∧ adv w exact e e' ∧ streams (conn e') = streams (conn e) ∧
    near r r' ∧ closing (conn e') = true ∧ c ∉ rx_dirty r') r.
Proof.
  intros Hf Hm. unfold closeWithReason. wp_step (latch_spec w exact) as (e1 & Hf1 & Ha1 & Hs1 & _ & _ & _ & Hn1 & _).
  eapply wp_mono; [apply (closeOnLoop_spec w exact); [exact Hf1|apply Ha1]|].
  intros _ r2 (e2 & Hf2 & Ha2 & Hs2 & Hn2 & Hc2 & Hd2). exists e2.
  split_and!; [done|by eapply adv_trans|congruence|by etrans|done..].
Qed.

Lemma closeGracefully_spec w exact K lc c e r :
  focus K lc c e r → cell_mid w exact e → wp (closeGracefully c) (λ _, closed_to w exact K lc c e r) r.
Proof.
  intros Hf Hm. unfold closeGracefully. wp_step conn_at_spec as (-> & Hf1 & Hn1 & _).
  destruct (closing (conn e) || close_after_writes (conn e)).
  { eapply closed_to_trans; [exact Hf1|by apply adv_refl|done|done|by apply closed_to_refl]. }
  wp_step (latch_spec w exact) as (e2 & Hf2 & Ha2 & Hs2 & _ & _ & _ & Hn2 & _). apply wp_then.
  eapply (wp_focus_core w exact); [exact Hf2|apply Ha2|done|done|]. intros e3 r3 -> Hf3 Ha3 Hn3 _.
  wp_step conn_at_spec as (-> & Hf4 & Hn4 & _).
  pose proof (adv_trans _ _ _ _ _ _ Ha2 Ha3) as Ha. assert (near r s'1) as Hn by (do 3 (etrans; [eassumption|]); done).
  case_match.
  - eapply wp_mono; [apply (closeOnLoop_spec w exact); [exact Hf4|apply Ha3]|].
    intros _ r5 (e5 & Hf5 & Ha5 & Hs5 & Hn5 & _). exists e5. simpl in *.
    split_and!; [done|by eapply adv_trans|congruence|by etrans].
  - eexists. split_and!; [exact Hf4|done|simpl; congruence|done].
Qed.

Lemma closeTerminatedSession_spec w exact K lc c e r want :
  focus K lc c e r → cell_mid w exact e → wp (closeTerminatedSession c want) (λ _, closed_to w exact K lc c e r) r.
Proof.
  intros Hf Hm. unfold closeTerminatedSession. wp_step conn_at_spec as (-> & Hf1 & Hn1 & _). case_match.
  - by exists e; split_and!; [|apply adv_refl|..].
  - eapply wp_mono; [by apply (closeGracefully_spec w exact)|]. intros ? r2 Hc.
    eapply closed_to_trans; [exact Hf1|by apply adv_refl|done..].
Qed.

Lemma maybeCloseDrained_spec w exact K lc c e r :
  focus K lc c e r → cell_mid w exact e → wp (maybeCloseDrainedConnection c) (λ _, closed_to w exact K lc c e r) r.
Proof.
  intros Hf Hm. unfold maybeCloseDrainedConnection. wp_step conn_at_spec as (-> & Hf1 & Hn1 & _). case_match.
  - wp_step (latch_spec w exact) as (e2 & Hf2 & Ha2 & Hs2 & _ & _ & _ & Hn2 & _).
    eapply wp_mono; [apply (closeGracefully_spec w exact); [exact Hf2|apply Ha2]|]. intros ? r3 Hc.
    eapply closed_to_trans; [exact Hf2|done|done|by etrans|done].
  - by exists e; split_and!; [|apply adv_refl|..].
Qed.

(** ** Events of the session *)

(** Only what the session keeps of its streams and deadlines changes. *)
Definition cored (K : Z) (lc : Mode) (c : nat) (e : Cell) (r r' : Reactor) : Prop :=
  ∃ e', focus K lc c e' r' ∧ same_core (conn e) (conn e') ∧ ops e' = ops e ∧ near r r' ∧ rx_dirty r' = rx_dirty r.

Lemma same_core_trans x y z : same_core x y → same_core y z → same_core x z.
Proof. unfold same_core. intros H1 H2. destruct_and! H1. destruct_and! H2. split_and!; congruence. Qed.

Lemma cored_adv w exact K lc c e r r' :
  cell_mid w exact e → cored K lc c e r r' → ∃ e', focus K lc c e' r' ∧ adv w exact e e' ∧
    closing (conn e') = closing (conn e) ∧ near r r'.
Proof.
  intros Hm (e' & Hf & Hc & Ho & Hn & _). exists e'. split_and!; try done; [|by unfold same_core in Hc; destruct_and! Hc].
  destruct e' as [x o]. simpl in *. subst o. by apply adv_core.
Qed.

Lemma cored_trans K lc c e r e' r' r'' :
  focus K lc c e' r' → same_core (conn e) (conn e') → ops e' = ops e → near r r' → rx_dirty r' = rx_dirty r →
  cored K lc c e' r' r'' → cored K lc c e r r''.
Proof.
  intros _ Hc Ho Hn Hd (e2 & Hf2 & Hc2 & Ho2 & Hn2 & Hd2). exists e2.
  split_and!; [done|by eapply same_core_trans|congruence|by etrans|congruence].
Qed.

Lemma cored_refl K lc c e r r' : focus K lc c e r' → near r r' → rx_dirty r' = rx_dirty r → cored K lc c e r r'.
Proof. intros Hf Hn Hd. by exists e. Qed.

(** A change of one connection that leaves the core alone *)
Lemma wp_cored {A} K lc c (m : UB Cell A) x r e :
  focus K lc c e r → wp m (λ _ e', e' = mkCell x (ops e)) e → same_core (conn e) x →
  (∀ id, is_Some (streams (conn e) !! id) → is_Some (streams x !! id)) →
  wp (on_conn c m) (λ _, cored K lc c e r) r.
Proof.
  intros Hf Hm Hc Hs. eapply wp_on_conn; [apply Hf|exact Hm|]. intros a ? ->. exists (mkCell x (ops e)).
  split_and!; try done; [|eapply near_upd; [apply Hf|by apply same_core_tame]].
  eapply focus_upd; [done| |done]. unfold same_core in Hc. destruct_and! Hc. simpl. congruence.
Qed.

Lemma finishDrain_live K lc c e r :
  focus K lc c e r → wp finishDrainIfIdle (λ _ r', focus K lc c e r' ∧ near r r' ∧ rx_dirty r' = rx_dirty r) r.
Proof.
  intros Hf. unfold finishDrainIfIdle. wp_step lock_spec as (Hfr & -> & Hl); [apply Hf|].
  pose proof (focus_lock _ _ _ _ _ _ Hf Hfr Hl) as Hf1. apply wp_then, wp_get.
  rewrite (bool_decide_false (rx_connections _ = [])) by by eapply focus_connections. rewrite andb_false_r.
  split_and!; [done|by apply near_lock|]. by destruct Hl as (? & ? & _ & ->).
Qed.

Lemma setDeadline_spec K lc c e r memory kind :
  focus K lc c e r → wp (on_conn c (setConnectionDeadline memory kind)) (λ _, cored K lc c e r) r.
Proof.
  intros Hf. unfold setConnectionDeadline. destruct memory.
  - by eapply wp_cored.
  - eapply (wp_cored _ _ _ _ (conn e)); [done|by destruct e|done..].
Qed.

Lemma armIdleDeadline_spec K lc c e r memory :
  focus K lc c e r → wp (armIdleDeadline c memory) (λ _, cored K lc c e r) r.
Proof.
  intros Hf. unfold armIdleDeadline. wp_step conn_at_spec as (-> & Hf1 & Hn1 & Hd1).
  case_match; [by apply cored_refl|]. wp_step lock_spec as (Hfr & -> & Hl); [apply Hf1|].
  pose proof (focus_lock _ _ _ _ _ _ Hf1 Hfr Hl) as Hf2. pose proof (near_lock _ _ Hl) as Hn2.
  assert (rx_dirty s'0 = rx_dirty s') as Hd2 by by destruct Hl as (? & ? & _ & ->).
  case_match; [apply cored_refl; [done|by etrans|congruence]|].
  eapply wp_mono; [apply (setDeadline_spec _ _ _ _ _ memory Idle Hf2)|]. intros ? r3 Hc.
  eapply cored_trans; [exact Hf2|done|done|by etrans|congruence|done].
Qed.

Lemma onBeginHeaders_spec K lc c e r id memory :
  focus K lc c e r → wp (onBeginHeaders cfg c id memory) (λ _, cored K lc c e r) r.
Proof.
  intros Hf. unfold onBeginHeaders. wp_step conn_at_spec as (-> & Hf1 & Hn1 & Hd1).
  do 3 (case_match; [by apply cored_refl|]). apply wp_then. eapply wp_mono.
  { eapply wp_cored; [exact Hf1|by apply wp_set_self|done|]. intros id' Hid. simpl.
    destruct (decide (id' = id)) as [->|]; [by rewrite lookup_insert_eq|by rewrite lookup_insert_ne]. }
  intros ? r2 Hc. by eapply cored_trans.
Qed.

Lemma onSettings_spec K lc c e r memory : focus K lc c e r → wp (onSettings c memory) (λ _, cored K lc c e r) r.
Proof.
  intros Hf. unfold onSettings. wp_step conn_at_spec as (-> & Hf1 & Hn1 & Hd1).
  destruct (connection_deadline (conn e)) as [[]|]; [|by apply cored_refl..]. apply wp_then. eapply wp_mono.
  { eapply wp_cored; [exact Hf1|by apply wp_set_self|done..]. }
  intros ? r2 (e2 & Hf2 & Hc2 & Ho2 & Hn2 & Hd2). eapply wp_mono; [by apply armIdleDeadline_spec|]. intros ? r3 Hc.
  eapply cored_trans; [exact Hf2|done|done|by etrans|congruence|done].
Qed.

Lemma onStreamClose_spec K lc c e r id memory :
  focus K lc c e r → wp (onStreamClose c id memory) (λ _, cored K lc c e r) r.
Proof.
  intros Hf. unfold onStreamClose. set (x := (conn e) <| streams := delete id (streams (conn e)) |>).
  apply wp_then. eapply wp_on_conn; [apply Hf|by apply (wp_set_self _ (λ _ e', e' = mkCell x (ops e)))|]. intros ? ? ->.
  apply wp_then, wp_modify. set (r1 := _ <| rx_commands := _ |>).
  assert (focus K lc c (mkCell x (ops e)) r1) as Hf1.
  { destruct Hf as [Hfr Hc Ho]. set (cs := rx_commands r1).
    assert (frame_inv K lc (r <| rx_commands := cs |>)) as Hf'.
    { apply frame_commands; [done|]. intros t Ht. unfold cs, r1 in Ht. simpl in Ht. by apply list_elem_of_filter in Ht as [_ ?]. }
    change r1 with (upd c (mkCell x (ops e)) (r <| rx_commands := cs |>)).
    split; [|apply cell_at_upd|by apply others_upd]. eapply frame_upd_commands; [done|exact Hc|done|].
    intros id' Hin. pose proof (fi_commands _ _ _ Hf' c id' Hin) as (y & Hy & Hid'). simpl in *. destruct Hc as [Hc _].
    rewrite Hc in Hy. simplify_eq. unfold cs, r1 in Hin. simpl in Hin. apply list_elem_of_filter in Hin as [Hne _].
    rewrite lookup_delete_ne; [done|]. intros ->. apply Hne. split; [done|]. by apply bool_decide_true. }
  assert (near r r1 ∧ rx_dirty r1 = rx_dirty r) as [Hn1 Hd1].
  { split; [|done]. etrans; [eapply (near_upd c e (mkCell x (ops e))); [apply Hf|by apply same_core_tame]|by split]. }
  assert (∀ r', cored K lc c (mkCell x (ops e)) r1 r' → cored K lc c e r r') as Hgo.
  { intros r'. by eapply cored_trans. }
  wp_step conn_at_spec as (-> & Hf2 & Hn2 & Hd2). simpl.
  assert (∀ r', cored K lc c (mkCell x (ops e)) s' r' → cored K lc c e r r') as Hgo2.
  { intros r' Hc. apply Hgo. by eapply cored_trans. }
  destruct (draining (conn e)).
  - wp_step finishDrain_live as (Hf3 & Hn3 & Hd3). by apply Hgo2, cored_refl.
  - case_match; [|by apply Hgo2, cored_refl]. eapply wp_mono; [by apply armIdleDeadline_spec|]. intros ? r3. apply Hgo2.
Qed.

Lemma stream_event_spec K lc c e r ev : focus K lc c e r → wp (stream_event c ev) (λ _, cored K lc c e r) r.
Proof.
  intros Hf. destruct ev as [id|id|id memory]; simpl; [| |by apply onStreamClose_spec].
  all: apply wp_then; eapply wp_mono; [|intros ? r1 Hc; exact Hc];
    eapply wp_cored; [done|by apply wp_set_self|by destruct (streams (conn e) !! id)|];
    intros id' Hid; destruct (streams (conn e) !! id); [|done]; simpl;
    (destruct (decide (id' = id)) as [->|]; [by rewrite lookup_insert_eq|by rewrite lookup_insert_ne]).
Qed.

Lemma all_events_spec {E} (f : E → UB Reactor bool) K lc c es e r :
  (∀ ev e r, focus K lc c e r → wp (f ev) (λ _, cored K lc c e r) r) →
  focus K lc c e r → wp (all_events f es) (λ _, cored K lc c e r) r.
Proof.
  intros Hev. revert e r. induction es as [|ev es IH]; intros e r Hf; simpl; [by apply cored_refl|].
  apply wp_then. eapply wp_mono; [by apply Hev|]. intros ok r1 (e1 & Hf1 & Hc1 & Ho1 & Hn1 & Hd1). destruct ok.
  - eapply wp_mono; [by apply IH|]. intros ? r2 Hc. by eapply cored_trans.
  - by exists e1.
Qed.

(** ** Sending *)

(** [batch] was produced and is not queued yet. *)
Record flushing (batch : list Z) (e : Cell) : Prop := {
  fl_mid : cell_mid false false e;
  fl_open : closing (conn e) = false;
  fl_bytes : sent (conn e) ++ unsent (conn e) ++ batch = produced (conn e);
  fl_bound : queued_write_bytes (conn e) + Z.of_nat (length batch) < write_high_watermark_bytes cfg + longest (conn e) }.

Lemma adv_kept w exact e e' : cell_mid w exact e' → kept (conn e) (conn e') → closing (conn e) = false → adv w exact e e'.
Proof. intros Hm [] Hc. split; try done; congruence. Qed.

Lemma queue_spec K lc c e r memory bytes rest :
  focus K lc c e r → flushing (bytes ++ rest) e →
  wp (on_conn c (queueOwnedSocketWrite memory bytes)) (λ ok r', ∃ e', focus K lc c e' r' ∧ adv false false e e' ∧
    closing (conn e') = false ∧ near r r' ∧ (ok = true → flushing rest e')) r.
Proof.
  intros Hf [Hm Hc Hb Hq]. rewrite length_app in Hq.
  eapply wp_focus; [exact Hf|apply (queueOwnedSocketWrite_spec memory bytes rest); [done..|lia]| |].
  - intros ok e' (_ & [] & _). split; congruence.
  - intros ok e' r' (Hm' & Hk & Hok & Hl) Hf' Hn _. exists e'. pose proof (kp_closing _ _ Hk).
    split_and!; [done|by apply adv_kept|congruence|done|]. intros ->. destruct (Hok eq_refl) as [H1 H2].
    split; [done|congruence|done|]. rewrite H2, Hl. lia.
Qed.

Lemma flush_chunk_spec K lc c e r batch data fault :
  focus K lc c e r → flushing (batch ++ data) e →
  wp (flush_chunk c batch data fault) (λ b r', ∃ e', focus K lc c e' r' ∧ adv false false e e' ∧
    closing (conn e') = false ∧ near r r' ∧ (∀ batch', b = Some batch' → flushing batch' e')) r.
Proof.
  intros Hf Hfl. unfold flush_chunk.
  assert (∃ completed batch', batch_append batch data = (completed, batch') ∧
    batch ++ data = default [] completed ++ batch') as (completed & batch' & -> & Hba).
  { unfold batch_append. case_match; eauto. }
  assert (wp (mret None) (λ (b : option (list Z)) r', ∃ e', focus K lc c e' r' ∧ adv false false e e' ∧ closing (conn e') = false ∧ near r r' ∧
    (∀ batch', b = Some batch' → flushing batch' e')) r) as Hnone.
  { exists e. split_and!; [done|apply adv_refl, Hfl|apply Hfl|done|done]. }
  destruct fault; [|exact Hnone|..]; rewrite Hba in Hfl.
  all: apply wp_then; eapply (wp_mono _ (λ ok r', ∃ e', focus K lc c e' r' ∧ adv false false e e' ∧ closing (conn e') = false ∧
    near r r' ∧ (ok = true → flushing batch' e')));
    [destruct completed as [bytes|]; [by apply queue_spec|exists e; split_and!; [done|apply adv_refl, Hfl|apply Hfl|done|done]]|].
  all: intros ok r1 (e1 & Hf1 & Ha1 & Hc1 & Hn1 & Hfl1); destruct ok; simpl; [|by exists e1].
  all: specialize (Hfl1 eq_refl); case_match; [|exists e1; split_and!; [done..|]; by intros ? [= <-]].
  all: apply wp_then; eapply wp_mono; [apply (queue_spec K lc c e1 r1 _ batch' []); [done|by rewrite app_nil_r]|].
  all: intros ok r2 (e2 & Hf2 & Ha2 & Hc2 & Hn2 & Hfl2); exists e2.
  all: split_and!; [done|by eapply adv_trans|done|by etrans|]; intros b Hb; destruct ok; [injection Hb as <-; auto|done].
Qed.

Lemma flushing_core batch e x : flushing batch e → same_core (conn e) x → flushing batch (mkCell x (ops e)).
Proof.
  intros [Hm Hc Hb Hq] Hs. split; [|destruct e as [[] ?], x; unfold same_core, unsent in *; simpl in *; destruct_and! Hs; by subst..].
  by apply adv_core with (x := x) in Hm as [].
Qed.

(** The session gives one more chunk. *)
Lemma flushing_produce batch chunk e :
  flushing batch e → queued_write_bytes (conn e) + Z.of_nat (length batch) < write_high_watermark_bytes cfg →
  flushing (batch ++ chunk) (mkCell ((conn e) <| produced := produced (conn e) ++ chunk |>
    <| longest := Z.max (longest (conn e)) (Z.of_nat (length chunk)) |>) (ops e)).
Proof.
  intros [[] Hc Hb Hq] Hlt. unfold unsent in *.
  split; unfold unsent; simpl; [|done|by rewrite <- Hb, <- !(assoc_L (++))|rewrite length_app; lia].
  split; unfold unsent; simpl; try done; try lia.
  - by apply prefix_app_r.
  - intros _. by apply prefix_app_r, cm_prefix0.
Qed.

Lemma flush_loop_spec K lc c steps batch e r :
  focus K lc c e r → flushing batch e →
  wp (flush_loop cfg c steps batch) (λ b r', ∃ e', focus K lc c e' r' ∧ adv false false e e' ∧
    closing (conn e') = false ∧ near r r' ∧ (∀ batch', b = Some batch' → flushing batch' e')) r.
Proof.
  revert batch e r. induction steps as [|step steps IH]; intros batch e r Hf Hfl; simpl.
  { exists e. split_and!; [done|apply adv_refl, Hfl|apply Hfl|done|by intros ? [= <-]]. }
  assert (∀ r' b, focus K lc c e r' → near r r' → b = None ∨ b = Some batch →
    ∃ e', focus K lc c e' r' ∧ adv false false e e' ∧ closing (conn e') = false ∧ near r r' ∧
      (∀ batch', b = Some batch' → flushing batch' e')) as Hstop.
  { intros r' b Hf' Hn' Hb. exists e. split_and!; [done|apply adv_refl, Hfl|apply Hfl|done|].
    intros b' ->. destruct Hb as [|[= <-]]; done. }
  wp_step conn_at_spec as (-> & Hf1 & Hn1 & _). rewrite (fl_open _ _ Hfl).
  destruct (canFlushWritesWithPending _ _ _) eqn:Ecan; simpl; [|apply Hstop; auto].
  destruct step as [|events data fault]; [apply Hstop; auto|].
  apply wp_then. eapply wp_mono; [apply (all_events_spec _ K lc c); [intros; by apply stream_event_spec|exact Hf1]|].
  intros ok r2 (e2 & Hf2 & Hc2 & Ho2 & Hn2 & _).
  assert (flushing batch e2) as Hfl2 by (destruct e2 as [x2 o2]; simpl in *; subst o2; by apply flushing_core).
  assert (adv false false e e2) as Ha2 by (destruct e2 as [x2 o2]; simpl in *; subst o2; apply adv_core; [apply Hfl|done]).
  assert (near r r2) as Hn02 by by etrans.
  assert (∀ b, b = None ∨ b = Some batch → ∃ e', focus K lc c e' r2 ∧ adv false false e e' ∧ closing (conn e') = false ∧
    near r r2 ∧ (∀ batch', b = Some batch' → flushing batch' e')) as Hstop2.
  { intros b Hb. exists e2. split_and!; [done..|apply Hfl2|done|]. intros b' ->. destruct Hb as [|[= <-]]; done. }
  destruct ok; simpl; [|apply Hstop2; auto]. destruct data as [|z data]; [apply Hstop2; auto|].
  apply wp_then. set (chunk := z :: data) in *.
  set (x3 := (conn e2) <| produced := produced (conn e2) ++ chunk |> <| longest := Z.max (longest (conn e2)) (Z.of_nat (length chunk)) |>).
  assert (flushing (batch ++ chunk) (mkCell x3 (ops e2))) as Hfl3.
  { apply flushing_produce; [done|]. unfold canFlushWritesWithPending in Ecan. unfold same_core in Hc2. destruct_and! Hc2.
    apply andb_true_iff in Ecan as [_ Hp%Z.ltb_lt]. lia. }
  eapply wp_focus_set; [exact Hf2|done|done|]. intros r3 Hf3 Hn3 _.
  apply wp_then. eapply wp_mono; [apply (flush_chunk_spec K lc c (mkCell x3 (ops e2))); [exact Hf3|exact Hfl3]|].
  intros b r4 (e4 & Hf4 & Ha4 & Hc4 & Hn4 & Hfl4).
  assert (adv false false e e4) as Ha.
  { eapply adv_trans; [exact Ha2|]. eapply adv_trans; [|exact Ha4]. apply adv_kept; [apply Hfl3|by split|apply Hfl2]. }
  assert (near r r4) as Hn by (do 2 (etrans; [eassumption|]); done).
  destruct b as [batch'|].
  - eapply wp_mono; [apply IH; [exact Hf4|by apply Hfl4]|]. intros b' r5 (e5 & Hf5 & Ha5 & Hc5 & Hn5 & Hfl5). exists e5.
    split_and!; [done|by eapply adv_trans|done|by etrans|done].
  - by exists e4.
Qed.

Lemma flush_spec K lc c e r f :
  focus K lc c e r → cell_mid false true e →
  wp (flush cfg c f) (λ ok r', ∃ e', focus K lc c e' r' ∧ adv false ok e e' ∧ closing (conn e') = closing (conn e) ∧
    near r r') r.
Proof.
  intros Hf Hm. unfold flush. destruct (closing (conn e)) eqn:Ec.
  - apply wp_then. eapply (wp_mono _ (λ b r', b = Some [] ∧ focus K lc c e r' ∧ near r r')).
    + destruct (fl_steps f); simpl; [by split_and!|]. wp_step conn_at_spec as (-> & Hf1 & Hn1 & _). by rewrite Ec.
    + intros ? r1 (-> & Hf1 & Hn1). exists e. split_and!; [done|by apply adv_refl|done..].
  - apply wp_then. eapply wp_mono; [apply (flush_loop_spec K lc c); [exact Hf|]|].
    { pose proof Hm as []. split; [by eapply cell_mid_weaken|done| |simpl; lia].
      rewrite app_nil_r. by apply cm_exact0. }
    intros b r1 (e1 & Hf1 & Ha1 & Hc1 & Hn1 & Hfl). destruct b as [batch|]; [|by exists e1].
    specialize (Hfl batch eq_refl).
    assert (∀ e', adv false false e e' → flushing [] e' → adv false true e e') as Hexact.
    { intros e' [] [[] Ho Hb _]. split; try done. split; try done. intros _ _. by rewrite app_nil_r in Hb. }
    destruct batch as [|z batch]; [by exists e1; split_and!; auto|].
    eapply wp_mono; [apply (queue_spec K lc c e1 r1 _ (z :: batch) []); [done|by rewrite app_nil_r]|].
    intros ok r2 (e2 & Hf2 & Ha2 & Hc2 & Hn2 & Hfl2). exists e2.
    pose proof (adv_trans _ _ _ _ _ _ Ha1 Ha2) as Ha. split_and!; [done| |done|by etrans]. destruct ok; auto.
Qed.

(** [... catch closeOnLoop] *)
Lemma or_close_spec w K lc c e r m :
  focus K lc c e r → 
  wp m (λ ok r', ∃ e', focus K lc c e' r' ∧ adv w ok e e' ∧ near r r') r →
  wp (or_close c m) (λ _ r', ∃ e', focus K lc c e' r' ∧ adv w true e e' ∧ near r r') r.
Proof.
  intros Hf Hm. unfold or_close. apply wp_then. eapply wp_mono; [exact Hm|].
  intros ok r1 (e1 & Hf1 & Ha1 & Hn1). destruct ok; [by exists e1|].
  eapply wp_mono; [apply (closeOnLoop_spec w false); [exact Hf1|apply Ha1]|].
  intros _ r2 (e2 & Hf2 & Ha2 & _ & Hn2 & Hc2 & _). exists e2.
  split_and!; [done| |by etrans]. apply adv_exact; [by eapply adv_trans|done].
Qed.

(** What a callback has made of its connection *)
Definition moved (w : bool) (K : Z) (lc : Mode) (c : nat) (e : Cell) (r r' : Reactor) : Prop :=
  ∃ e', focus K lc c e' r' ∧ adv w true e e' ∧ near r r'.

Lemma moved_trans w x K lc c e r e' r' r'' :
  focus K lc c e' r' → adv w x e e' → near r r' → moved w K lc c e' r' r'' → moved w K lc c e r r''.
Proof. intros _ Ha Hn (e2 & Hf2 & Ha2 & Hn2). exists e2. split_and!; [done|by eapply adv_trans|by etrans]. Qed.

Lemma closed_to_moved w K lc c e r r' : closed_to w true K lc c e r r' → moved w K lc c e r r'.
Proof. intros (e' & ? & ? & _ & ?). by exists e'. Qed.

Lemma cored_moved w K lc c e r r' : cell_mid w true e → cored K lc c e r r' → moved w K lc c e r r'.
Proof. intros Hm Hc. destruct (cored_adv w true _ _ _ _ _ _ Hm Hc) as (e' & ? & ? & _ & ?). by exists e'. Qed.

Lemma recv_event_spec w K lc c e r ev :
  focus K lc c e r → cell_mid w true e → wp (recv_event cfg c ev) (λ _, moved w K lc c e r) r.
Proof.
  intros Hf Hm. destruct ev as [id memory|memory|ev|]; simpl.
  1-3: eapply wp_mono; [by (apply onBeginHeaders_spec || apply onSettings_spec || apply stream_event_spec)|];
    intros ? r1 Hc; by apply cored_moved.
  apply wp_then. eapply wp_mono; [by apply (closeWithReason_spec w true)|]. intros _ r1 (e1 & ? & ? & _ & ? & _). by exists e1.
Qed.

Lemma recv_events_spec w K lc c es e r :
  focus K lc c e r → cell_mid w true e → wp (all_events (recv_event cfg c) es) (λ _, moved w K lc c e r) r.
Proof.
  revert e r. induction es as [|ev es IH]; intros e r Hf Hm; simpl; [by exists e; split_and!; [|apply adv_refl|]|].
  apply wp_then. eapply wp_mono; [by apply (recv_event_spec w)|]. intros ok r1 (e1 & Hf1 & Ha1 & Hn1). destruct ok; [|by exists e1].
  eapply wp_mono; [apply IH; [exact Hf1|apply Ha1]|]. intros ? r2. by eapply moved_trans.
Qed.

(** ** The end of a callback *)

(** When the last thing that the loop waited for is gone, the loop was stopped. *)
Definition stopok (r : Reactor) : Prop :=
  state (rx_shared r) = Stopping → notice (rx_shared r) ∨
  (listener_closed (rx_listener r) = true → rx_connections r = [] → rx_loop_stopped r = true).

(** The same, whether there is anything to be noticed or not *)
Definition halts (r : Reactor) : Prop :=
  state (rx_shared r) = Stopping → listener_closed (rx_listener r) = true → rx_connections r = [] → rx_loop_stopped r = true.

Lemma halts_stopok r : halts r → stopok r.
Proof. intros H Hs. right. by apply H. Qed.

(** A connection that waits to be flushed has been announced. *)
Definition wake (r : Reactor) : Prop := rx_dirty r ≠ [] → rx_stream_notified r = true.

Record inv (K : Z) (r : Reactor) : Prop := {
  iv_frame : frame_inv K listener_closing r; iv_cells : all_ok r; iv_stop : stopok r; iv_wake : wake r }.

Lemma evolves_stopping s s' : evolves s s' → s' = s ∨ (state s' = Stopping → notice s').
Proof.
  revert s'. apply rtc_ind_r; [by left|]. intros s1 s2 _ [q ->] IH.
  destruct (shutdownReactor_cases q s1) as [->|[[_ E]|[[_ E]|(_ & Hn & _)]]]; [done|right..]; [congruence..|done].
Qed.

(** There is nothing more to ask for then. *)
Lemma evolves_stopped s s' : evolves s s' → state s = Stopping → s' = s.
Proof.
  revert s'. apply (rtc_ind_r (λ s', state s = Stopping → s' = s)); [done|].
  intros s1 s2 _ [q ->] IH Hs. rewrite (IH Hs). unfold shutdownReactor. by rewrite Hs.
Qed.

Lemma evolves_draining s s' : evolves s s' → state s = Draining → state s' = Draining ∨ state s' = Stopping.
Proof.
  revert s'. apply (rtc_ind_r (λ s', state s = Draining → state s' = Draining ∨ state s' = Stopping)); [by left|].
  intros s1 s2 _ [q ->] IH Hs. destruct (shutdownReactor_cases q s1) as [->|[[E1 E]|[[E1 E]|([[E1 E]|[E1 E]] & _)]]]; auto;
    destruct (IH Hs); auto; congruence.
Qed.

Lemma near_stopok r r' : near r r' → stopok r → stopok r'.
Proof.
  intros [] Hs. unfold stopok in *. rewrite nr_connections0, nr_listener0, nr_stopped0.
  destruct (evolves_stopping _ _ nr_shared0) as [->|H]; [done|]. intros E. left. auto.
Qed.

Lemma near_wake r r' : near r r' → wake r → wake r'.
Proof.
  intros [] Hw Hd. rewrite nr_notified0. apply Hw. intros E. rewrite E in nr_dirty0. by apply sublist_nil_r in nr_dirty0.
Qed.

(** The same up to the lock and the decision to stop *)
Record beside (r r' : Reactor) : Prop := {
  bs_conns : rx_conns r' = rx_conns r;
  bs_ops : rx_ops r' = rx_ops r;
  bs_connections : rx_connections r' = rx_connections r;
  bs_dirty : rx_dirty r' = rx_dirty r;
  bs_listener : rx_listener r' = rx_listener r;
  bs_notified : rx_stream_notified r' = rx_stream_notified r;
  bs_claimed : rx_claimed r' = rx_claimed r;
  bs_started : rx_drain_started r' = rx_drain_started r;
  bs_timer : rx_drain_timer r' = rx_drain_timer r;
  bs_stopped : rx_loop_stopped r = true → rx_loop_stopped r' = true;
  bs_shared : state (rx_shared r) = Stopping → rx_shared r' = rx_shared r }.

#[export] Instance beside_preorder : PreOrder beside.
Proof.
  split; [by split|]. intros r1 r2 r3 [] []. split; try congruence; [auto|]. intros H. rewrite <- (bs_shared0 H) in H |- *. auto.
Qed.

Lemma beside_lock r r' : after_lock r r' → beside r r'.
Proof. intros (sched & s & He & ->). split; try done. by apply evolves_stopped. Qed.

Lemma beside_cells r r' c e : beside r r' → cell_at r' c e ↔ cell_at r c e.
Proof. intros []. unfold cell_at, ops_of. by rewrite bs_conns0, bs_ops0. Qed.

Lemma maybeStopLoop_spec K lc r :
  frame_inv K lc r → rx_claimed r = false → wp maybeStopLoop (λ _ r', frame_inv K lc r' ∧ beside r r' ∧ halts r') r.
Proof.
  intros Hf Hcl. unfold maybeStopLoop. wp_step lock_spec as (Hf1 & -> & Hl). apply wp_then, wp_get.
  pose proof (beside_lock _ _ Hl) as Hb. destruct (_ && _) eqn:E.
  - unfold wp, put. split_and!; [|by destruct Hb|done]. destruct Hf1. split; try done. destruct fi_prog0. split; try done.
    simpl. intros _. rewrite !andb_true_iff, !bool_decide_eq_true in E. destruct E as [[? ?] ?].
    split_and!; [by left|done|by rewrite (bs_claimed _ _ Hb)|done].
  - split_and!; [done..|]. intros Hs H1 H2. rewrite Hs, H1, H2 in E. done.
Qed.

Lemma finishDrain_spec K lc r :
  frame_inv K lc r → rx_claimed r = false → wp finishDrainIfIdle (λ _ r', frame_inv K lc r' ∧ beside r r' ∧ (stopok r → stopok r')) r.
Proof.
  intros Hf Hcl. unfold finishDrainIfIdle. wp_step lock_spec as (Hf1 & -> & Hl). apply wp_then, wp_get.
  pose proof (beside_lock _ _ Hl) as Hb1. destruct (_ && _) eqn:E; [|split_and!; [done..|by apply near_stopok, near_lock]].
  apply andb_true_iff in E as [Hd%bool_decide_eq_true Hc%bool_decide_eq_true].
  wp_step lock_spec as (Hf2 & _ & Hl2). pose proof (beside_lock _ _ Hl2) as Hb2. apply wp_then, wp_modify.
  assert (state (rx_shared s'0) = Draining ∨ state (rx_shared s'0) = Stopping) as Hst.
  { destruct Hl2 as (? & ? & He & ->). by eapply evolves_draining. }
  set (r3 := s'0 <| rx_shared := _ |>). assert (beside s'0 r3) as Hb3.
  { split; try done. simpl. destruct (rx_shared s'0). simpl. by intros ->. }
  assert (frame_inv K lc r3) as Hf3.
  { assert (∀ c, rx_conns s'0 !! c = None) as Hno.
    { intros c. apply eq_None_not_Some. rewrite <- (fi_dom _ _ _ Hf2), (bs_connections _ _ Hb2), Hc. by apply not_elem_of_nil. }
    destruct Hf2. split; try done. destruct fi_prog0. split; unfold loop_running in *; simpl; try done.
    - intros _. apply pg_init0. by destruct Hst as [-> | ->].
    - by intros [].
    - intros H. split; [auto|]. by apply pg_started0.
    - intros _. destruct Hst as [H|H].
      + destruct (pg_draining0 H) as [|Hs]; [by left|right]. split; [by apply pg_started0|]. intros c x. by rewrite Hno.
      + by apply pg_stopping0.
    - rewrite (bs_claimed _ _ Hb2), (bs_claimed _ _ Hb1). congruence.
    - intros H. destruct (pg_stopped0 H) as (_ & ?). auto. }
  assert (rx_claimed r3 = false) as Hcl3 by (rewrite (bs_claimed _ _ Hb3), (bs_claimed _ _ Hb2), (bs_claimed _ _ Hb1); done).
  eapply wp_mono; [by apply maybeStopLoop_spec|]. intros _ r4 (Hf4 & Hb4 & Hs4%halts_stopok). split_and!; [done| |done].
  do 3 (etrans; [eassumption|]). done.
Qed.

Lemma index_of_lookup c l : c ∈ l → ∃ i, index_of c l = Some i ∧ l !! i = Some c.
Proof.
  induction l as [|c' l IH]; [by intros ?%elem_of_nil|]. simpl. destruct (decide (c' = c)) as [->|Hne]; [by exists 0%nat|].
  intros [->|Hin]%elem_of_cons; [done|]. destruct (IH Hin) as (i & -> & Hi). by exists (S i).
Qed.

Lemma swapRemove_perm i c l : l !! i = Some c → c :: swapRemove i l ≡ₚ l.
Proof.
  intros Hi. pose proof (lookup_lt_Some _ _ _ Hi) as Hlt. destruct l as [|z l _] using rev_ind; [done|].
  unfold swapRemove. rewrite last_snoc, length_app. simpl. replace (length l + 1 - 1)%nat with (length l) by lia.
  destruct (decide (S i = (length l + 1)%nat)) as [E|E].
  - assert (i = length l) as -> by lia. rewrite take_app_length. rewrite lookup_app_r, Nat.sub_diag in Hi by lia.
    injection Hi as ->. by rewrite Permutation_app_comm.
  - assert (i < length l)%nat as Hl by (rewrite length_app in Hlt; simpl in *; lia). rewrite lookup_app_l in Hi by done.
    rewrite insert_app_l, take_app_le, take_ge by (rewrite ?length_insert; lia).
    rewrite insert_take_drop by done. rewrite <- (take_drop_middle l i c Hi) at 3. rewrite <- !Permutation_middle. simpl.
    rewrite Permutation_swap. constructor. by rewrite app_nil_r.
Qed.

End Config.
