(* ===== verification/ServerCallbacks.v ===== *)
(** * The callbacks of a reactor

    Every callback of [ServerReactor] is defined in a state that has the invariant of
    [ServerInvariant], and keeps it; and it brings the connections that are closing
    no further away from their end. *)

From S2P Require Import Prelude UbLogic ServerReactor ServerInvariant.

Local Open Scope Z_scope.

Section Config.
Context {cfg : Config}.

Local Abbreviation cell_mid := (@cell_mid cfg).
Local Abbreviation cell_ok := (@cell_ok cfg).
Local Abbreviation frame_inv := (@frame_inv cfg).
Local Abbreviation others := (@others cfg).
Local Abbreviation all_ok := (@all_ok cfg).
Local Abbreviation focus := (@focus cfg).
Local Abbreviation adv := (@adv cfg).
Local Abbreviation moved := (@moved cfg).
Local Abbreviation inv := (@inv cfg).

(** ** The end of a connection *)

(** No connection is new, and the ones that are closing get on. *)
Definition shrinks (r r' : Reactor) : Prop :=
  ∀ c y, rx_conns r' !! c = Some y → ∃ x, rx_conns r !! c = Some x ∧ tame x y.

#[export] Instance shrinks_preorder : PreOrder shrinks.
Proof.
  split.
  - intros r c x Hx. by exists x.
  - intros r1 r2 r3 H12 H23 c z Hz. destruct (H23 c z Hz) as (y & Hy & Hyz). destruct (H12 c y Hy) as (x & Hx & Hxy).
    exists x. split; [done|by etrans].
Qed.

Lemma near_shrinks r r' : near r r' → shrinks r r'.
Proof. intros [] c y Hy. by eapply tamed_lookup_r. Qed.

(** As [near], but connections may become dirty. *)
Definition about (r r' : Reactor) : Prop := near (r <| rx_dirty := [] |>) (r' <| rx_dirty := [] |>).

#[export] Instance about_preorder : PreOrder about.
Proof. split; [by intros r|]. intros r1 r2 r3. unfold about. apply transitivity. Qed.

Lemma near_about r r' : near r r' → about r r'.
Proof. intros []. by split. Qed.

Lemma about_shrinks r r' : about r r' → shrinks r r'.
Proof. intros Ha. exact (near_shrinks _ _ Ha). Qed.

Lemma about_stopok r r' : about r r' → stopok r → stopok r'.
Proof. intros Ha. exact (near_stopok _ _ Ha). Qed.

Lemma about_claimed r r' : about r r' → rx_claimed r' = rx_claimed r.
Proof. by intros []. Qed.

Lemma about_notified r r' : about r r' → rx_stream_notified r' = rx_stream_notified r.
Proof. by intros []. Qed.

(** Once a reactor is stopping, nothing is asked of it any more, and its listener is
    not used again. *)
Definition steady (r r' : Reactor) : Prop :=
  state (rx_shared r) = Stopping → rx_shared r' = rx_shared r ∧ rx_claimed r' = rx_claimed r ∧
  (closing_listener (rx_listener r) → rx_listener r' = rx_listener r) ∧ (halts r → halts r').

#[export] Instance steady_preorder : PreOrder steady.
Proof.
  split; [done|]. intros r1 r2 r3 H12 H23 Hs. destruct (H12 Hs) as (E1 & Ec1 & E2 & Hh1). rewrite <- E1 in Hs.
  destruct (H23 Hs) as (E3 & Ec2 & E4 & Hh2). split_and!; [congruence..| |auto]. intros Hc. specialize (E2 Hc). rewrite <- E2 in Hc |- *. auto.
Qed.

Lemma near_steady r r' : near r r' → steady r r'.
Proof.
  intros [] Hs. split_and!; [by apply evolves_stopped|done|done|]. unfold halts.
  by rewrite (evolves_stopped _ _ nr_shared Hs), nr_connections, nr_listener, nr_stopped.
Qed.

Lemma beside_steady r r' : beside r r' → steady r r'.
Proof.
  intros [] Hs. split_and!; [auto|done|done|]. unfold halts. rewrite (bs_shared Hs), bs_connections, bs_listener. auto.
Qed.

Definition settles (r r' : Reactor) : Prop := shrinks r r' ∧ steady r r'.

#[export] Instance settles_preorder : PreOrder settles.
Proof. split; [by intros r|]. intros r1 r2 r3 [] []. split; by etrans. Qed.

Lemma near_settles r r' : near r r' → settles r r'.
Proof. split; [by apply near_shrinks|by apply near_steady]. Qed.

Lemma beside_settles r r' : beside r r' → settles r r'.
Proof. intros Hb. split; [|by apply beside_steady]. intros c y. rewrite (bs_conns _ _ Hb). intros Hy. by exists y. Qed.

Lemma about_settles r r' : about r r' → settles r r'.
Proof. intros Ha. exact (near_settles _ _ Ha). Qed.

Definition ends (K : Z) (r r' : Reactor) : Prop := inv K r' ∧ settles r r'.

Lemma ends_near K r1 r2 r3 : near r1 r2 → ends K r2 r3 → ends K r1 r3.
Proof. intros Hn%near_settles [Hi Hs]. split; [done|by etrans]. Qed.

(** Connection [c] was like [x], and has got on if it was closing. *)
Definition after (c : nat) (x : Connection) (r' : Reactor) : Prop := ∀ y, rx_conns r' !! c = Some y → tame x y.

Lemma shrinks_after c e r r' : cell_at r c e → shrinks r r' → after c (conn e) r'.
Proof. intros [Hc _] Hs y Hy. destruct (Hs c y Hy) as (x & Hx & Ht). rewrite Hc in Hx. by simplify_eq. Qed.

(** What a callback needs to have done with its connection in the end *)
Record done_with (w : bool) (e : Cell) : Prop := {
  dw_mid : cell_mid w true e;
  dw_owns : owns_admission (conn e) = true;
  dw_session : session (conn e) = true ∨ closing (conn e) = true;
  dw_busy : closing (conn e) = true → busy e }.

Definition finished (e : Cell) : bool :=
  close_completed (conn e) && negb (read_active (conn e)) && (pending_writes (conn e) =? 0) &&
  negb (read_cancel_submitted (conn e)) && negb (write_cancel_submitted (conn e)).

Lemma done_settled w e : done_with w e → finished e = false → settled (conn e).
Proof.
  intros [Hm Ho Hs Hb] Hf. split; [done|done|exact Hb|]. intros Hc. unfold finished in Hf. rewrite Hc in Hf.
  destruct (cm_submitted _ _ _ Hm (cm_completed _ _ _ Hm Hc)) as (_ & Hr & Hq). rewrite Hr in Hf.
  rewrite (cm_pending _ _ _ Hm), Hq in Hf. simpl in Hf.
  destruct (read_cancel_submitted (conn e)); [by left|]. destruct (write_cancel_submitted (conn e)); [by right|done].
Qed.

Lemma finish_not w K lc c e r :
  focus K lc c e r → done_with w e → finished e = false →
  wp (finishCloseIfReady cfg c) (λ _ r', focus K lc c e r' ∧ near r r' ∧ rx_dirty r' = rx_dirty r) r.
Proof.
  intros Hf Hd Hn. unfold finishCloseIfReady. wp_step conn_at_spec as (-> & Hf1 & Hn1 & Hd1). unfold finished in Hn.
  replace (_ || _) with true; [by split_and!|].
  destruct (close_completed (conn e)), (read_active (conn e)), (pending_writes (conn e) =? 0),
    (read_cancel_submitted (conn e)), (write_cancel_submitted (conn e)); done.
Qed.

(** The state without connection [c] *)
Lemma frame_destroy K lc c e r i :
  focus K lc c e r → ops e = no_ops → c ∉ rx_dirty r → (∀ id, (c, id) ∉ rx_commands r) →
  rx_connections r !! i = Some c →
  frame_inv K lc (r <| rx_connections := swapRemove i (rx_connections r) |> <| rx_admitted := rx_admitted r - 1 |>
                    <| rx_conns := delete c (rx_conns r) |>).
Proof.
  intros [[] [Hc Ho] _] Hops Hnd Hnc Hi. pose proof (swapRemove_perm i c _ Hi) as Hp.
  assert (∀ c', c' ∈ rx_connections r ↔ c' = c ∨ c' ∈ swapRemove i (rx_connections r)) as Hmem.
  { intros c'. by rewrite <- elem_of_cons, Hp. }
  assert (NoDup (c :: swapRemove i (rx_connections r))) as [Hcn Hnd']%NoDup_cons by by rewrite Hp.
  split; simpl; try done.
  - intros c'. destruct (decide (c' = c)) as [->|Hne].
    + rewrite lookup_delete_eq. split; [done|by intros []].
    + rewrite lookup_delete_ne by done. rewrite <- fi_dom, Hmem. naive_solver.
  - intros c' Hn. destruct (decide (c' = c)) as [->|Hne]; [unfold ops_of in *; simpl; congruence|].
    rewrite lookup_delete_ne in Hn by done. by apply fi_ops.
  - intros c' Hd. assert (c' ≠ c) by by intros ->. rewrite lookup_delete_ne by done. auto.
  - intros c' id Hin. assert (c' ≠ c) by by intros ->; eapply Hnc. rewrite lookup_delete_ne by done. auto.
  - rewrite fi_admitted. apply Permutation_length in Hp. simpl in Hp. lia.
  - lia.
  - destruct fi_prog. split; simpl; try done.
    + intros H. destruct (pg_idle H) as (H1 & _). by rewrite H1 in Hi.
    + intros H. destruct (pg_stopping H) as [|[? Hall]]; [by left|right]. split; [done|]. intros c' x [_ Hx]%lookup_delete_Some. eauto.
    + intros H. destruct (pg_stopped H) as (_ & H1 & _). by rewrite H1 in Hi.
    + intros H. destruct (pg_final H) as [? [?|H1]]; [auto|]. by rewrite H1 in Hi.
Qed.

Lemma commands_retired c r :
  (∀ id, true = true → (c, id) ∉ rx_commands r) → forallb (λ t, negb (bool_decide (t.1 = c))) (rx_commands r) = true.
Proof.
  intros Hc. apply forallb_forall. intros [c' id] Hin%list_elem_of_In. simpl. apply negb_true_iff, bool_decide_eq_false.
  intros ->. by apply (Hc id).
Qed.

Lemma finish_destroy K c e r :
  focus K listener_closing c e r → done_with false e → finished e = true → rx_claimed r = false → wake r →
  wp (finishCloseIfReady cfg c) (λ _, ends K r) r.
Proof.
  intros Hf Hd Hfin Hcl Hw. unfold finished in Hfin. rewrite !andb_true_iff, !negb_true_iff in Hfin.
  destruct Hfin as [[[[Hco Hra] Hpe] Hrc] Hwc].
  destruct Hd as [Hm Hown _ _]. destruct (cm_submitted _ _ _ Hm (cm_completed _ _ _ Hm Hco)) as (_ & _ & Hq).
  assert (ops e = no_ops) as Hops.
  { pose proof Hm as []. rewrite Hra in cm_read. rewrite Hrc in cm_read_cancel. rewrite Hwc in cm_write_cancel.
    rewrite Hco, andb_false_r in cm_close. rewrite Hq in cm_write. simpl in cm_write. destruct (ops e). simpl in *. by subst. }
  unfold finishCloseIfReady. wp_step conn_at_spec as (-> & Hf1 & Hn1 & Hd1). rewrite Hco, Hra, Hpe, Hrc, Hwc. simpl.
  wp_step removeDirty_spec as (Hf2 & Hn2 & Hd2). apply wp_then. unfold clearConnectionDeadline.
  eapply wp_focus_set; [exact Hf2|done|done|]. intros r3 Hf3 Hn3 Hd3.
  apply wp_then. unfold retire_streams. wp_step discard_commands_spec as (Hf4 & Hn4 & Hd4 & Hnc). rename s'1 into r4.
  apply wp_then, wp_get, wp_check; [by eapply commands_retired|].
  assert (near r r4) as Hn by (do 3 (etrans; [eassumption|]); done).
  apply wp_then, wp_check; [by apply bool_decide_true|]. apply wp_then, wp_get. pose proof Hf4 as [[] _ Hoth].
  destruct (index_of_lookup c (rx_connections r4)) as (i & -> & Hi); [apply fi_dom; destruct Hf4 as [_ [H _] _]; eauto|].
  assert (rx_claimed r4 = false) as Hcl4 by by rewrite (nr_claimed _ _ Hn).
  pose proof (lookup_lt_Some _ _ _ Hi) as Hlen. rewrite Hcl4 in fi_admitted. simpl in fi_admitted.
  apply wp_then, wp_put. apply wp_then. rewrite Hown. unfold releaseConnection. apply wp_then, wp_get.
  apply wp_then, wp_check; [by simpl; rewrite (proj2 (Z.ltb_lt _ _)), (proj2 (Z.leb_le _ _)) by lia|]. apply wp_put.
  unfold destroy_connection. apply wp_then, wp_modify.
  pose proof (frame_destroy K listener_closing c _ r4 i Hf4 Hops ltac:(by rewrite Hd4, Hd3) ltac:(intros; by apply Hnc) Hi) as Hfr.
  set (r5 := _ <| rx_conns := _ |>) in *. fold r5. 
  wp_step finishDrain_spec as (Hf6 & Hb6 & _).
  eapply wp_mono; [eapply maybeStopLoop_spec; [done|by rewrite (bs_claimed _ _ Hb6)]|].
  intros _ r7 (Hf7 & Hb7 & Hs7). pose proof (halts_stopok _ Hs7). assert (beside r5 r7) as Hb by by etrans. split; [split; [done| |done|]|].
  - intros c' e' Hc'%(beside_cells _ _ c' e' Hb). apply (Hoth c'); [intros ->|]; destruct Hc' as [Hx Ho]; unfold r5 in *; simpl in *.
    + by rewrite lookup_delete_eq in Hx. + split; [by apply lookup_delete_Some in Hx as [_ ?]|done].
  - unfold wake. rewrite (bs_dirty _ _ Hb), (bs_notified _ _ Hb). by apply (near_wake r r4).
  - etrans; [by apply near_settles|]. split.
    + intros c' y. rewrite (bs_conns _ _ Hb). unfold r5. simpl. intros [_ Hy]%lookup_delete_Some. by exists y.
    + intros Hst. split_and!; [by apply (bs_shared _ _ Hb)|apply (bs_claimed _ _ Hb)|intros _; apply (bs_listener _ _ Hb)|done].
Qed.


(** What a callback may count on besides *)
Record ctx (r : Reactor) : Prop := { cx_claimed : rx_claimed r = false; cx_stop : stopok r; cx_wake : wake r }.

Lemma near_ctx r r' : near r r' → ctx r → ctx r'.
Proof. intros Hn []. split; [by rewrite (nr_claimed _ _ Hn)|by eapply near_stopok|by eapply near_wake]. Qed.

Lemma focus_inv K c e r : focus K listener_closing c e r → cell_ok e → stopok r → wake r → inv K r.
Proof. intros [Hf Hc Ho] He Hs Hw. split; [done| |done..]. by eapply others_all. Qed.

Lemma focus_ends K c e r r' : focus K listener_closing c e r' → cell_ok e → ctx r → near r r' → ends K r r'.
Proof.
  intros Hf He [_ Hs Hw] Hn. split; [|by apply near_settles].
  by eapply focus_inv; [| |eapply near_stopok|eapply near_wake].
Qed.

Lemma done_ok e : done_with false e → finished e = false → cell_ok e.
Proof. intros Hd Hf. split; [apply Hd|by eapply done_settled]. Qed.

Lemma finish_spec K c e r :
  focus K listener_closing c e r → done_with false e → ctx r → wp (finishCloseIfReady cfg c) (λ _, ends K r) r.
Proof.
  intros Hf Hd Hx. destruct (finished e) eqn:E; [by eapply finish_destroy; [..|apply Hx|apply Hx]|].
  eapply wp_mono; [by apply (finish_not false K listener_closing c e)|]. intros _ r' (Hf' & Hn & _).
  eapply focus_ends; [done|by apply done_ok|done..].
Qed.

Lemma submit_spec w K lc c e r :
  focus K lc c e r → cell_mid w true e → closing (conn e) = true →
  wp (on_conn c submitCloseIfReady) (λ _ r', ∃ e', focus K lc c e' r' ∧ cell_mid w true e' ∧ near r r' ∧
    rx_dirty r' = rx_dirty r ∧ owns_admission (conn e') = owns_admission (conn e) ∧ closing (conn e') = true ∧ busy e' ∧
    close_completed (conn e') = close_completed (conn e)) r.
Proof.
  intros Hf Hm Hc. eapply wp_focus; [exact Hf|by eapply (submitCloseIfReady_spec w true)| |].
  - intros _ e' (_ & [] & _ & _ & _ & _ & Ht). by split.
  - intros _ e' r' (Hm' & [] & _ & _ & Hb & _) Hf' Hn Hd. exists e'. split_and!; try done; congruence.
Qed.

(** The end of most callbacks *)
Lemma submit_finish_spec K c e r :
  focus K listener_closing c e r → cell_mid false true e → owns_admission (conn e) = true → closing (conn e) = true →
  ctx r → wp (_ ← on_conn c submitCloseIfReady; finishCloseIfReady cfg c) (λ _, ends K r) r.
Proof.
  intros Hf Hm Ho Hc Hx. apply wp_then. eapply wp_mono; [by eapply (submit_spec false)|].
  intros _ r1 (e1 & Hf1 & Hm1 & Hn1 & _ & Ho1 & Hc1 & Hb1 & _).
  eapply wp_mono; [eapply (finish_spec K c e1); [done| |by eapply near_ctx]|intros ? ?; by apply ends_near].
  split; [done|congruence|by right|done].
Qed.

(** ** Callbacks of one connection *)

Lemma deliver_spec K c e f r :
  inv K r → cell_at r c e →
  wp (deliver c f) (λ _ r', focus K listener_closing c (mkCell (conn e) (f (ops e))) r' ∧ near r r') r.
Proof.
  intros [Hf Ha _ _] Hc. unfold deliver. apply wp_modify. destruct Hc as [Hc Ho]. rewrite Ho.
  assert (r <| rx_ops := <[c := f (ops e)]> (rx_ops r) |> = upd c (mkCell (conn e) (f (ops e))) r) as ->.
  { unfold upd. cbn [conn ops]. rewrite (insert_id (rx_conns r)) by done. by destruct r. }
  split; [|by apply (near_upd _ e)]. apply (focus_upd _ _ _ e); [|done..]. split; [done|by split|by apply all_others].
Qed.

Lemma inv_live K r c : inv K r → ops_of r c ≠ no_ops → ∃ e, cell_at r c e ∧ cell_ok e.
Proof.
  intros [Hf Ha _ _] Hne. destruct (rx_conns r !! c) as [x|] eqn:E; [|by rewrite (fi_ops _ _ _ Hf c E) in Hne].
  exists (mkCell x (ops_of r c)). split; [done|]. by apply (Ha c).
Qed.

Lemma start_read_spec w K lc c e r memory :
  focus K lc c e r → cell_mid w true e →
  wp (on_conn c (startRead memory)) (λ ok r', ∃ e', focus K lc c e' r' ∧ adv w ok e e' ∧ near r r') r.
Proof.
  intros Hf Hm. eapply wp_focus; [exact Hf|by eapply (startRead_spec w true memory e)| |].
  - intros ok e' (_ & [] & He & _). split; [|congruence]. intros Hc. by rewrite (He Hc).
  - intros ok e' r' (Hm' & Hk & He & _) Hf' Hn _. exists e'. split_and!; [done| |done].
    assert (cell_mid w ok e') by (destruct ok; [done|by eapply cell_mid_weaken]).
    destruct (closing (conn e)) eqn:Ec; [rewrite (He eq_refl) in *; by apply adv_refl|by apply adv_kept].
Qed.

Lemma read_bytes_spec K c e r events consumed f want memory :
  focus K listener_closing c e r → cell_mid false true e →
  wp (read_bytes cfg c events consumed f want memory)
    (λ _, moved false K listener_closing c e r) r.
Proof.
  intros Hf Hm. unfold read_bytes. apply wp_then. eapply wp_mono; [by eapply (recv_events_spec false)|]. intros ok r1 (e1 & Hf1 & Ha1 & Hn1).
  case_match.
  { eapply wp_mono; [eapply (closeOnLoop_spec false true); [exact Hf1|apply Ha1]|]. intros _ r2 (e2 & Hf2 & Ha2 & _ & Hn2 & _).
    exists e2. split_and!; [done|by eapply adv_trans|by etrans]. }
  apply wp_then. eapply wp_mono; [eapply (or_close_spec false K listener_closing c e1 _ _ Hf1)|].
  { eapply wp_mono; [eapply flush_spec; [exact Hf1|apply Ha1]|]. intros ok' r2 (e2 & ? & ? & _ & ?). by exists e2. }
  intros _ r2 (e2 & Hf2 & Ha2 & Hn2). apply wp_then.
  eapply wp_mono; [eapply (closeTerminatedSession_spec false true); [exact Hf2|apply Ha2]|].
  intros _ r3 (e3 & Hf3 & Ha3 & _ & Hn3). wp_step conn_at_spec as (-> & Hf4 & Hn4 & _).
  assert (adv false true e e3) as Ha by (eapply adv_trans; [exact Ha1|]; by eapply adv_trans).
  assert (near r s') as Hn by (do 3 (etrans; [eassumption|]); done). case_match; [by exists e3|].
  eapply wp_mono; [eapply (or_close_spec false K listener_closing c e3 _ _ Hf4)|].
  { eapply start_read_spec; [exact Hf4|apply Ha3]. }
  intros _ r5 (e5 & Hf5 & Ha5 & Hn5). exists e5. split_and!; [done|by eapply adv_trans|by etrans].
Qed.

Lemma onRead_spec K c e r result :
  focus K listener_closing c e r → cell_mid false true (mkCell ((conn e) <| read_active := false |>) (ops e)) →
  owns_admission (conn e) = true → session (conn e) = true ∨ closing (conn e) = true → ctx r →
  wp (onRead cfg c result) (λ _ r', ends K r r' ∧ after c ((conn e) <| read_active := false |>) r') r.
Proof.
  intros Hf Hm Ho Hs Hx. unfold onRead. apply wp_then. eapply wp_focus_set; [exact Hf|done|done|]. intros r1 Hf1 Hn1 _.
  set (e1 := mkCell ((conn e) <| read_active := false |>) (ops e)) in *.
  apply (wp_mono _ (λ _ r', ends K r1 r')).
  2: { intros ? r' He. split; [by eapply ends_near|]. apply (shrinks_after c e1 r1); [apply Hf1|apply He]. }
  destruct result as [|events consumed f want memory].
  - apply wp_then. eapply wp_mono; [by eapply (closeWithReason_spec false true)|].
    intros _ r2 (e2 & Hf2 & Ha2 & _ & Hn2 & Hc2 & _).
    eapply wp_mono; [eapply submit_finish_spec; [exact Hf2|apply Ha2|by rewrite (ad_owns _ _ _ _ Ha2)|done|]|].
    + by do 2 (eapply near_ctx; [eassumption|]). + intros ? ?. by apply ends_near.
  - apply wp_then. eapply wp_mono; [by eapply read_bytes_spec|].
    intros _ r2 (e2 & Hf2 & Ha2 & Hn2). wp_step conn_at_spec as (-> & Hf3 & Hn3 & _).
    assert (ctx s') as Hx3 by by do 3 (eapply near_ctx; [eassumption|]).
    assert (owns_admission (conn e2) = true) as Ho2 by by rewrite (ad_owns _ _ _ _ Ha2).
    eapply wp_mono; [|intros ? ?; apply ends_near; by etrans].
    destruct (closing (conn e2)) eqn:Ec; [by eapply submit_finish_spec; [exact Hf3|apply Ha2|..]|].
    apply wp_then. red. simpl. eapply finish_spec; [exact Hf3| |done].
    split; [apply Ha2|done|by apply (ad_sess _ _ _ _ Ha2)|congruence].
Qed.

(** What [onWrite] leaves: if the connection is closing, nothing is queued. *)
Record written_to (K : Z) (c : nat) (r r' : Reactor) : Prop := {
  wt_focus : ∃ e, focus K listener_closing c e r' ∧ done_with true e ∧ finished e = false ∧
    (closing (conn e) = true → write_queue (conn e) = []);
  wt_ctx : ctx r';
  wt_settles : settles r r' }.

Lemma not_finished e : close_completed (conn e) = false → finished e = false.
Proof. unfold finished. by intros ->. Qed.

Lemma written_finish K c e r0 r :
  settles r0 r → focus K listener_closing c e r → done_with true e → close_completed (conn e) = false →
  (closing (conn e) = true → write_queue (conn e) = []) → ctx r → wp (finishCloseIfReady cfg c) (λ _, written_to K c r0) r.
Proof.
  intros Hsh Hf Hd Hc Hq Hx. pose proof (not_finished _ Hc) as Hnf.
  eapply wp_mono; [by apply (finish_not true K listener_closing c e)|]. intros _ r' (Hf' & Hn & _).
  split; [by exists e|by eapply near_ctx|]. etrans; [done|by apply near_settles].
Qed.

(** A part of [onWrite] that may close the connection *)
Lemma written_adv w' K c e e' r0 r r' :
  settles r0 r → focus K listener_closing c e' r' → adv true w' e e' → near r r' → owns_admission (conn e) = true →
  session (conn e) = true → closing (conn e) = false → close_completed (conn e) = false →
  (w' = true ∨ closing (conn e') = true) → ctx r → wp (finishCloseIfReady cfg c) (λ _, written_to K c r0) r'.
Proof.
  intros Hsh Hf Ha Hn Ho Hs Hc Hco Hw Hx. apply (written_finish K c e').
  - etrans; [done|by apply near_settles].
  - done.
  - split.
    + destruct Hw as [->|Hcl]; [apply Ha|]. destruct w'; [apply Ha|]. apply cell_mid_exact; [apply Ha|done].
    + by rewrite (ad_owns _ _ _ _ Ha).
    + apply (ad_sess _ _ _ _ Ha). by left.
    + by apply (ad_begun _ _ _ _ Ha).
  - by rewrite (ad_completed _ _ _ _ Ha).
  - by apply (ad_dropped _ _ _ _ Ha).
  - by eapply near_ctx.
Qed.

Lemma written_closing K c e r0 r written :
  settles r0 r → focus K listener_closing c e r → cell_mid true written e → owns_admission (conn e) = true → closing (conn e) = true →
  close_completed (conn e) = false → ctx r →
  wp (_ ← on_conn c discardQueuedWrites; _ ← on_conn c submitCloseIfReady; finishCloseIfReady cfg c) (λ _, written_to K c r0) r.
Proof.
  intros Hsh Hf Hm Ho Hc Hco Hx. apply wp_then. eapply wp_focus; [exact Hf| | |].
  { unfold discardQueuedWrites. apply wp_then, wp_self. by eapply (discard_loop_spec written). }
  - intros _ e1 (_ & [] & _ & _ & _ & Ht). by split.
  - intros _ e1 r1 (Hm1 & [] & Hq1 & _) Hf1 Hn1 _. apply wp_then.
    assert (cell_mid true true e1) as Hm1' by (apply cell_mid_exact; [by eapply cell_mid_weaken|congruence]).
    eapply wp_focus; [exact Hf1|eapply (submitCloseIfReady_spec true true); [done|congruence]| |].
    + intros _ e2 (_ & [] & _ & _ & _ & _ & Ht). by split.
    + intros _ e2 r2 (Hm2 & [] & _ & _ & Hb2 & Hq2 & _) Hf2 Hn2 _.
      apply (written_finish K c e2); [etrans; [done|apply near_settles; by etrans]|done| |congruence|congruence|by do 2 (eapply near_ctx; [eassumption|])].
      split; [done|congruence|right; congruence|done].
Qed.

Lemma enqueueDirty_spec K lc c e r :
  focus K lc c e r →
  wp (enqueueDirtyConnection c) (λ first r', focus K lc c e r' ∧ about r r' ∧
    (if first : bool then rx_dirty r = [] ∧ rx_dirty r' = [c] else rx_dirty r ≠ [])) r.
Proof.
  intros Hf. unfold enqueueDirtyConnection. wp_step conn_at_spec as (-> & Hf1 & Hn1 & Hd1). apply wp_then, wp_get.
  apply near_about in Hn1 as Ha1. rewrite Hd1. case_decide as Hin.
  - split_and!; [done..|]. by intros E; rewrite E in Hin; apply elem_of_nil in Hin.
  - apply wp_then, wp_put. split; [|split; [done|]].
    + destruct Hf1 as [[] Hc Ho]. split; [|done..]. split; simpl; try done.
      * apply NoDup_app. split_and!; [by rewrite <- Hd1|intros c' Hc' ->%list_elem_of_singleton; done|apply NoDup_singleton].
      * intros c'. rewrite elem_of_app, list_elem_of_singleton. intros [?| ->]; [apply fi_dirty; by rewrite Hd1|].
        destruct Hc as [Hc _]. eauto.
      * by destruct fi_prog.
    + destruct (bool_decide (rx_dirty r = [])) eqn:E; simpl.
      * apply bool_decide_eq_true in E. by rewrite E.
      * by apply bool_decide_eq_false in E.
Qed.

Lemma onWrite_spec K c e r bytes written notified e0 :
  focus K listener_closing c e r →
  wp (account_write bytes) (λ _ e', cell_mid true written e' ∧ kept e0 (conn e') ∧ read_active (conn e') = read_active e0 ∧
    close_submitted (conn e') = close_submitted e0 ∧ tame (conn e) (conn e')) e →
  closing (conn e) = closing e0 → streams (conn e) = streams e0 →
  owns_admission e0 = true → session e0 = true ∨ closing e0 = true → close_completed e0 = false → ctx r →
  wp (onWrite cfg c bytes written notified) (λ _, written_to K c r) r.
Proof.
  intros Hf Hacc Ecl Est Ho Hs Hco Hx. unfold onWrite. apply wp_then. eapply wp_focus; [exact Hf|exact Hacc| |].
  { intros _ e' (_ & [] & _ & _ & Ht). split; [done|congruence]. }
  intros _ e1 r1 (Hm1 & Hk1 & _) Hf1 Hn1 _. pose proof Hk1 as []. assert (ctx r1) as Hx1 by by eapply near_ctx.
  wp_step conn_at_spec as (-> & Hf2 & Hn2 & _). assert (ctx s') as Hx2 by by eapply near_ctx. 
  assert (settles r s') as Hsh by (apply near_settles; by etrans). clear Hf1 Hn2.
  destruct (closing (conn e1)) eqn:Ec; [by apply (written_closing K c e1 _ _ written); [done..|congruence|congruence|congruence|]|].
  assert (session (conn e1) = true) as Hs1 by (destruct Hs; congruence).
  destruct written; simpl.
  2: { apply wp_then. eapply wp_mono; [by eapply (closeWithReason_spec true false)|].
       intros _ r3 (e3 & Hf3 & Ha3 & _ & Hn3 & Hc3 & _). apply (written_adv false K c e1 e3 r s'); try done; [congruence..|by right]. }
  destruct (close_after_writes (conn e1) && (pending_writes (conn e1) =? 0)).
  { apply wp_then. eapply wp_mono; [by eapply (closeOnLoop_spec true true)|].
    intros _ r3 (e3 & Hf3 & Ha3 & _ & Hn3 & Hc3 & _). apply (written_adv true K c e1 e3 r s'); try done; [congruence..|by left]. }
  case_match.
  2: { apply wp_then. eapply wp_mono; [by eapply (maybeCloseDrained_spec true true)|].
       intros _ r3 (e3 & Hf3 & Ha3 & _ & Hn3). apply (written_adv true K c e1 e3 r s'); try done; [congruence..|by left]. }
  apply wp_then. eapply wp_mono; [by eapply enqueueDirty_spec|]. intros first r3 (Hf3 & Hb3 & Hd3).
  assert (settles r r3) as Hsh3 by (etrans; [done|by apply about_settles]).
  assert (done_with true e1) as Hdw1 by (split; [done|congruence|by left|congruence]).
  assert (finished e1 = false) as Hnf1 by (apply not_finished; congruence).
  destruct Hx2 as [Hx2a Hx2b Hx2c]. destruct first.
  - destruct Hd3 as [Hd3 Hd3']. destruct notified.
    + apply wp_modify. split; [exists e1; split_and!; [|done|done|congruence]| |].
      * destruct Hf3 as [[] ? ?]. split; [|done..]. split; try done. by destruct fi_prog.
      * split; [|exact (about_stopok _ _ Hb3 Hx2b)|done]. simpl. by rewrite (about_claimed _ _ Hb3).
      * done.
    + wp_step removeDirty_spec as (Hf4 & Hn4 & Hd4). apply wp_then.
      eapply wp_mono; [by eapply (closeOnLoop_spec true true)|]. intros _ r5 (e5 & Hf5 & Ha5 & _ & Hn5 & Hc5 & _).
      assert (ctx s'0) as Hx4.
      { split; [by rewrite (nr_claimed _ _ Hn4), (about_claimed _ _ Hb3)|by eapply near_stopok, about_stopok|].
        intros Hne. destruct (rx_dirty s'0) as [|c' l] eqn:E; [done|]. destruct Hd4.
        pose proof (nr_dirty _ _ Hn4) as Hsub. rewrite Hd3', E in Hsub.
        assert (c' ∈ [c]) as ->%list_elem_of_singleton by (eapply elem_of_sublist; [|exact Hsub]; left). left. }
      apply (written_adv true K c e1 e5 r s'0); try done; [by etrans; [|apply near_settles]|congruence..|by left].
  - split; [exists e1; split_and!; [done..|congruence]| |done]. split; [by rewrite (about_claimed _ _ Hb3)|by eapply about_stopok|].
    intros _. rewrite (about_notified _ _ Hb3). by apply Hx2c.
Qed.

Lemma delivered_write x o : cell_ok (mkCell x o) → op_write o = true →
  cell_mid true true (mkCell x (o <| op_write := false |>)) ∧ write_queue x ≠ [] ∧ close_completed x = false.
Proof.
  intros [Hm _] Ho. pose proof Hm as []. simpl in *. rewrite Ho in cm_write.
  assert (write_queue x ≠ []) as Hq by (intros E; by rewrite E in cm_write). split_and!; [by split|done|].
  apply not_true_is_false. intros H. by destruct (cm_submitted (cm_completed H)) as (_ & _ & ?).
Qed.

(** The kernel took a part of the first buffer. *)
Lemma partial_ok x o bytes rest n :
  cell_ok (mkCell x o) → op_write o = true → write_queue x = bytes :: rest →
  (n ≤ length (drop (head_written x) bytes))%nat →
  cell_ok (mkCell (x <| head_written := (head_written x + n)%nat |> <| sent := sent x ++ take n (drop (head_written x) bytes) |>) o).
Proof.
  intros [Hm Hs] Ho Hq Hn. split; [|by destruct Hs]. pose proof Hm as [].
  assert ((sent x ++ take n (drop (head_written x) bytes)) ++ drop (head_written x + n) (concat (write_queue x)) =
    sent x ++ unsent x) as Hb.
  { unfold unsent. rewrite Hq. simpl in *. rewrite Hq in cm_head. simpl in cm_head. rewrite length_drop in Hn.
    rewrite <- (assoc_L (++)), <- drop_drop, (drop_app_le bytes _ (head_written x)) by lia. f_equal.
    rewrite drop_app_le by (rewrite length_drop; lia). by rewrite (assoc_L (++)), take_drop. }
  split; unfold unsent; simpl in *; try done.
  - rewrite Hq in cm_head |- *. simpl in *. rewrite length_drop in Hn. lia.
  - etrans; [|exact (cm_prefix eq_refl)]. rewrite <- Hb. by apply prefix_app_r.
  - intros _. rewrite Hb. by apply cm_prefix.
  - intros _ Hc. rewrite Hb. by apply cm_exact.
Qed.

(** After [onWrite], the next buffer is started. *)
Lemma next_write_spec K c r0 r :
  written_to K c r0 r →
  wp (x ← conn_at c; match write_queue x with [] => mret () | _ => on_conn c arm_write end)
    (λ _ r', ends K r0 r' ∧ ∀ y, rx_conns r' !! c = Some y → closing y = true → write_queue y = []) r.
Proof.
  intros [(e & Hf & Hd & Hnf & Hq) Hx Hsh]. wp_step conn_at_spec as (-> & Hf1 & Hn1 & _).
  pose proof (done_settled _ _ Hd Hnf) as Hse. destruct Hd as [Hm _ _ _]. pose proof Hm as [].
  assert (∀ e' r', focus K listener_closing c e' r' → near s' r' → conn e' = conn e → cell_ok e' → ends K r0 r' ∧
    ∀ y, rx_conns r' !! c = Some y → closing y = true → write_queue y = []) as Hend.
  { intros e' r' Hf' Hn' He' Hok. split.
    - destruct (focus_ends K c e' r r') as [? Hs']; [done..|by etrans|]. split; [done|by etrans].
    - destruct Hf' as [_ [Hc _] _]. rewrite Hc, He'. by intros ? [= <-]. }
  destruct (write_queue (conn e)) as [|bytes rest] eqn:Eq.
  - apply (Hend e); [done..|]. split; [|done]. split; try done.
    + by rewrite cm_write, Eq.
    + by rewrite Eq. + by rewrite Eq. + by rewrite Eq. + by rewrite Eq.
    + intros _. unfold unsent. rewrite Eq. simpl. by rewrite drop_nil, app_nil_r.
  - assert (closing (conn e) = false) as Hc by (apply not_true_is_false; intros H; by specialize (Hq H)).
    eapply wp_focus; [exact Hf1|by apply (wp_arm_write (λ _ e', e' = mkCell (conn e) ((ops e) <| op_write := true |>)))|by intros _ ? ->|].
    intros _ ? r2 -> Hf2 Hn2 _. eapply Hend; [exact Hf2|done|done|]. split; [|done]. split; simpl; try done.
    + by rewrite Eq. + by rewrite Eq. + by rewrite Eq. + by rewrite Eq. + by rewrite Eq.
    + intros _. by rewrite cm_exact.
Qed.

Lemma write_callback_spec K c x o r result notified :
  focus K listener_closing c (mkCell x (o <| op_write := false |>)) r → cell_ok (mkCell x o) → op_write o = true → ctx r →
  wp (write_callback cfg c result notified) (λ _ r', ends K r r' ∧
    match result with
    | WritePartial _ => True
    | _ => ∀ y, rx_conns r' !! c = Some y → closing y = true → write_queue y = []
    end) r.
Proof.
  intros Hf He Ho Hx. destruct (delivered_write x o He Ho) as (Hm & Hne & Hco). pose proof (co_settled _ He) as Hs.
  unfold write_callback. wp_step conn_at_spec as (-> & Hf1 & Hn1 & _). simpl in *.
  destruct (write_queue x) as [|bytes rest] eqn:Eq; [done|]. assert (ctx s') as Hx1 by by eapply near_ctx.
  assert (∀ written : bool, wp (_ ← on_conn c (set_self (λ y, y <| write_queue := rest |> <| head_written := 0%nat |>
      <| sent := if written then sent y ++ drop (head_written x) bytes else sent y |>));
    _ ← onWrite cfg c bytes written notified; x ← conn_at c; match write_queue x with [] => mret () | _ => on_conn c arm_write end)
    (λ _ r', ends K r r' ∧ ∀ y, rx_conns r' !! c = Some y → closing y = true → write_queue y = []) s') as Hall.
  { intros written. apply wp_then. eapply wp_focus_set; [exact Hf1|intros ?; split; simpl; try done; congruence|done|].
    intros r2 Hf2 Hn2 _. simpl in Hf2. apply wp_then.
    eapply wp_mono; [eapply (onWrite_spec K c _ r2 bytes written notified x);
      [exact Hf2| |done|done|apply Hs|apply Hs|done|by eapply near_ctx]|].
    - eapply (write_pop_spec bytes rest written (mkCell x (o <| op_write := false |>)) Hm); [by apply (co_mid _ He)|done].
    - intros ? r3 Hw. eapply wp_mono; [exact (next_write_spec K c _ _ Hw)|]. intros ? r4 [He4 Hq4]. split; [|done].
      eapply ends_near; [|exact He4]. by etrans. }
  destruct result as [n| |]; [|exact (Hall true)|exact (Hall false)].
  set (k := Nat.min n _). apply wp_then. eapply wp_focus_set; [exact Hf1|done|done|]. intros r2 Hf2 Hn2 _. simpl in Hf2.
  eapply wp_focus; [exact Hf2|by apply (wp_arm_write (λ _ e', e' = mkCell (x <| head_written := (head_written x + k)%nat |>
    <| sent := sent x ++ take k (drop (head_written x) bytes) |>) o)); destruct o; simpl in *; subst|by intros _ ? ->|].
  intros _ ? r3 -> Hf3 Hn3 _. split; [|done]. eapply focus_ends; [exact Hf3| |done|do 2 (etrans; [eassumption|]); done].
  apply (partial_ok x o bytes rest); [done..|]. unfold k. lia.
Qed.

(** ** The completions of a connection *)

(** What a connection that is closing still has before it *)
Definition weight (x : Connection) : nat :=
  Nat.b2n (read_active x) + Nat.b2n (negb (bool_decide (write_queue x = []))) + Nat.b2n (read_cancel_submitted x) +
  Nat.b2n (write_cancel_submitted x) + Nat.b2n (negb (close_submitted x)) + Nat.b2n (negb (close_completed x)).

Lemma b2n_le b b' : (b = true → b' = true) → (Nat.b2n b ≤ Nat.b2n b')%nat.
Proof. destruct b, b'; simpl; intros H; [lia|by specialize (H eq_refl)|lia|lia]. Qed.

Lemma weight_parts x y : winds x y →
  (Nat.b2n (read_active y) ≤ Nat.b2n (read_active x) ∧
   Nat.b2n (negb (bool_decide (write_queue y = []))) ≤ Nat.b2n (negb (bool_decide (write_queue x = []))) ∧
   Nat.b2n (read_cancel_submitted y) ≤ Nat.b2n (read_cancel_submitted x) ∧
   Nat.b2n (write_cancel_submitted y) ≤ Nat.b2n (write_cancel_submitted x) ∧
   Nat.b2n (negb (close_submitted y)) ≤ Nat.b2n (negb (close_submitted x)) ∧
   Nat.b2n (negb (close_completed y)) ≤ Nat.b2n (negb (close_completed x)))%nat.
Proof.
  intros []. split_and!; apply b2n_le; try done; rewrite !negb_true_iff.
  - rewrite !bool_decide_eq_false. naive_solver.
  - intros H. apply not_true_is_false. intros ?%wi_submitted. congruence.
  - intros H. apply not_true_is_false. intros ?%wi_completed. congruence.
Qed.

Lemma weight_le x y : winds x y → (weight y ≤ weight x)%nat.
Proof. intros H%weight_parts. unfold weight. lia. Qed.

(** Connection [c], if it was closing, is closer to its end, or gone. *)
Definition drops (c : nat) (r r' : Reactor) : Prop :=
  ∀ x y, rx_conns r !! c = Some x → rx_conns r' !! c = Some y → closing x = true → (weight y < weight x)%nat.

Definition progress (K : Z) (c : nat) (r r' : Reactor) : Prop := ends K r r' ∧ drops c r r'.

Lemma after_drops K c x' r1 r r' x :
  near r r1 → rx_conns r !! c = Some x → ends K r1 r' → after c x' r' → closing x' = closing x → (weight x' < weight x)%nat →
  progress K c r r'.
Proof.
  intros Hn Hx He Ha Hc Hw. split; [by eapply ends_near|]. intros x0 y Hx0 Hy Hcl. rewrite Hx in Hx0. simplify_eq.
  destruct (Ha y Hy) as []; [congruence|]. pose proof (weight_le x' y ltac:(by split)). lia.
Qed.

(** The start of these callbacks *)
Lemma deliver_start K c r (op : ConnOps → bool) f (P : () → Reactor → Prop) (m : UB Reactor ()) :
  inv K r → rx_claimed r = false → op no_ops = false → op (ops_of r c) = true →
  (∀ x o r1, cell_at r c (mkCell x o) → cell_ok (mkCell x o) → op o = true →
     focus K listener_closing c (mkCell x (f o)) r1 → near r r1 → ctx r1 → wp m P r1) →
  wp (_ ← deliver c f; m) P r.
Proof.
  intros Hi Hcl Hno Hop HP. destruct (inv_live K r c Hi) as ([x o] & Hc & He); [intros E; congruence|].
  wp_step deliver_spec as (Hf & Hn). pose proof Hc as [_ Ho]. simpl in *. rewrite Ho in Hop.
  apply (HP x o s'); try done. eapply near_ctx; [done|]. by destruct Hi.
Qed.

Lemma cb_read K c r result :
  inv K r → rx_claimed r = false → op_read (ops_of r c) = true →
  wp (_ ← deliver c (λ o, o <| op_read := false |>); onRead cfg c result) (λ _, progress K c r) r.
Proof.
  intros Hi Hcl Hop. eapply (deliver_start K c r op_read); [done..|]. intros x o r1 Hc [Hm Hs] Ho Hf Hn Hx.
  pose proof Hm as []. simpl in *. assert (read_active x = true) as Hra by congruence.
  eapply wp_mono; [eapply (onRead_spec K c _ r1 result Hf); simpl; [|apply Hs|apply Hs|done]|].
  - split; try done. simpl. intros H. destruct (cm_submitted H) as (_ & ? & _). congruence.
  - intros ? r' [He Ha]. destruct Hc as [Hc _]. eapply (after_drops K c _ r1); [done..|]. unfold weight. simpl. rewrite Hra. simpl. lia.
Qed.

Lemma cb_write K c r result notified :
  inv K r → rx_claimed r = false → op_write (ops_of r c) = true →
  wp (_ ← deliver c (λ o, o <| op_write := false |>); write_callback cfg c result notified)
    (λ _ r', ends K r r' ∧ match result with WritePartial _ => True | _ => drops c r r' end) r.
Proof.
  intros Hi Hcl Hop. eapply (deliver_start K c r op_write); [done..|]. intros x o r1 [Hc _] He Ho Hf Hn Hx. simpl in Hc.
  destruct (delivered_write x o He Ho) as (_ & Hne & _).
  eapply wp_mono; [by eapply (write_callback_spec K c x o r1 result notified Hf)|]. intros ? r' [He' Hq].
  assert (ends K r r') as Hend by by eapply ends_near. split; [done|].
  assert ((∀ y, rx_conns r' !! c = Some y → closing y = true → write_queue y = []) → drops c r r') as Hd.
  { intros Hq' x' y Hx' Hy Hcx. rewrite Hc in Hx'. simplify_eq. destruct Hend as [_ [Hs _]].
    destruct (Hs c y Hy) as (x1 & Hx1 & Ht). rewrite Hc in Hx1. simplify_eq. pose proof (Ht Hcx) as Hw.
    specialize (Hq' y Hy (wi_closing _ _ Hw)). pose proof (weight_parts _ _ Hw). unfold weight.
    rewrite (bool_decide_true (write_queue y = [])), (bool_decide_false (write_queue x1 = [])) by done. simpl. lia. }
  destruct result; [done|by apply Hd..].
Qed.

Lemma cb_read_canceled K c r :
  inv K r → rx_claimed r = false → op_read_cancel (ops_of r c) = true →
  wp (_ ← deliver c (λ o, o <| op_read_cancel := false |>); onReadCanceled cfg c) (λ _, progress K c r) r.
Proof.
  intros Hi Hcl Hop. eapply (deliver_start K c r op_read_cancel); [done..|]. intros x o r1 [Hc _] [Hm Hs] Ho Hf Hn Hx.
  pose proof Hm as []. simpl in *. assert (read_cancel_submitted x = true) as Hrc by congruence.
  assert (closing x = true) as Hcx by auto.
  unfold onReadCanceled. apply wp_then. eapply wp_focus_set; [exact Hf|by intros ?|done|]. intros r2 Hf2 Hn2 _. simpl in Hf2.
  eapply wp_mono; [eapply (submit_finish_spec K c _ r2 Hf2); [|apply Hs|done|by eapply near_ctx]|].
  - by split; try done.
  - intros ? r' He. eapply (after_drops K c _ r2); [by etrans|done|done|eapply shrinks_after; [apply Hf2|apply He]|done|].
    unfold weight. simpl. rewrite Hrc. simpl. lia.
Qed.

Lemma cb_write_canceled K c r not_found :
  inv K r → rx_claimed r = false → op_write_cancel (ops_of r c) = true →
  wp (_ ← deliver c (λ o, o <| op_write_cancel := false |>); onWriteCanceled cfg c not_found)
    (λ _ r', ends K r r' ∧ (not_found && op_write (ops_of r c) = false → drops c r r')) r.
Proof.
  intros Hi Hcl Hop. eapply (deliver_start K c r op_write_cancel); [done..|]. intros x o r1 [Hc Hoc] [Hm Hs] Ho Hf Hn Hx.
  pose proof Hm as []. simpl in *. assert (write_cancel_submitted x = true) as Hrc by congruence.
  assert (closing x = true) as Hcx by auto. rewrite Hoc.
  unfold onWriteCanceled. apply wp_then. set (e1 := mkCell x (o <| op_write_cancel := false |>)) in *.
  eapply wp_focus; [exact Hf|exact (wp_get (λ e e', e = e1 ∧ e' = e1) e1 (conj eq_refl eq_refl))|by intros ? ? [_ ->]|].
  intros ? ? r2 [-> ->] Hf2 Hn2 _. simpl. destruct (not_found && op_write o).
  - eapply wp_focus; [exact Hf2|by apply (wp_arm_write_cancel (λ _ e', e' = mkCell x o)); destruct o; simpl in *; subst|by intros _ ? ->|].
    intros _ ? r3 -> Hf3 Hn3 _. split; [|done]. eapply ends_near; [exact Hn|].
    eapply focus_ends; [exact Hf3|done|done|by etrans].
  - apply wp_then. eapply wp_focus_set; [exact Hf2|by intros ?|done|]. intros r3 Hf3 Hn3 _. simpl in Hf3.
    assert (near r r3) as Hnr by (do 2 (etrans; [eassumption|]); done).
    eapply wp_mono; [eapply (submit_finish_spec K c _ r3 Hf3); [|apply Hs|done|exact (near_ctx _ _ Hn3 (near_ctx _ _ Hn2 Hx))]|].
    + by split; try done.
    + intros ? r' He. assert (progress K c r r') as [? ?]; [|done].
      eapply (after_drops K c _ r3); [done|done|done|eapply shrinks_after; [apply Hf3|apply He]|done|].
      unfold weight. simpl. rewrite Hrc. simpl. lia.
Qed.

Lemma cb_connection_closed K c r :
  inv K r → rx_claimed r = false → op_close (ops_of r c) = true →
  wp (_ ← deliver c (λ o, o <| op_close := false |>); onConnectionClosed cfg c) (λ _, progress K c r) r.
Proof.
  intros Hi Hcl Hop. eapply (deliver_start K c r op_close); [done..|]. intros x o r1 [Hc _] [Hm Hs] Ho Hf Hn Hx.
  pose proof Hm as []. simpl in *. rewrite Ho in cm_close. symmetry in cm_close.
  apply andb_true_iff in cm_close as [Hsub Hco%negb_true_iff]. destruct (cm_submitted Hsub) as (Hcx & Hra & Hq).
  unfold onConnectionClosed. apply wp_then. eapply wp_focus_set; [exact Hf|by intros ?|done|]. intros r2 Hf2 Hn2 _. simpl in Hf2.
  eapply wp_mono; [eapply (finish_spec K c _ r2 Hf2); [|by eapply near_ctx]|].
  - split; simpl; [|apply Hs|by right|by intros _; unfold busy; simpl; rewrite Hsub].
    split; try done. simpl. by rewrite andb_false_r.
  - intros ? r' He. eapply (after_drops K c _ r2); [by etrans|done|done|eapply shrinks_after; [apply Hf2|apply He]|done|].
    unfold weight. simpl. rewrite Hco. simpl. lia.
Qed.

End Config.
