(* ===== verification/ServerLifecycle.v ===== *)
(** * The life of a reactor

    The callbacks that are not about one connection: accepting, draining, stopping,
    the commands of the application and the deadlines; then all of them together. *)

From S2P Require Import Prelude UbLogic ServerReactor ServerInvariant ServerCallbacks.

Local Open Scope Z_scope.

Section Config.
Context {cfg : Config}.

Local Abbreviation cell_mid := (@cell_mid cfg).
Local Abbreviation cell_ok := (@cell_ok cfg).
Local Abbreviation frame_inv := (@frame_inv cfg).
Local Abbreviation others := (@others cfg).
Local Abbreviation all_ok := (@all_ok cfg).
Local Abbreviation focus := (@focus cfg).
Local Abbreviation adv := (@adv cfg).
Local Abbreviation moved := (@moved cfg).
Local Abbreviation inv := (@inv cfg).
Local Abbreviation ends := (@ends cfg).

(** ** Between the connections *)

Record calm (K : Z) (lc : Mode) (r : Reactor) : Prop := { ca_frame : frame_inv K lc r; ca_ok : all_ok r }.

Lemma adv_ok e e' : cell_ok e → adv false true e e' → cell_ok e'.
Proof.
  intros [Hm [So Ss Sc Sd]] Ha. pose proof Ha as []. split; [done|]. split.
  - by rewrite ad_owns.
  - auto.
  - intros H. destruct (closing (conn e)) eqn:E; [apply ad_busy; [done|exact (Sc eq_refl)]|by apply ad_begun].
  - rewrite ad_completed. intros H. destruct (cm_submitted _ _ _ Hm (cm_completed _ _ _ Hm H)) as [Hc _].
    destruct (ad_cancels Hc) as [-> ->]. auto.
Qed.

Lemma calm_focus K lc r c : calm K lc r → is_Some (rx_conns r !! c) → ∃ e, focus K lc c e r ∧ cell_ok e.
Proof.
  intros [Hf Ha] [x Hx]. exists (mkCell x (ops_of r c)). split; [|by apply (Ha c)]. split; [done|done|by apply all_others].
Qed.

Lemma focus_calm K lc c e r : focus K lc c e r → cell_ok e → calm K lc r.
Proof. intros [Hf Hc Ho] He. split; [done|by eapply others_all]. Qed.

Lemma moved_calm K lc c e r r' : cell_ok e → moved false K lc c e r r' → calm K lc r' ∧ near r r'.
Proof. intros He (e' & Hf & Ha & Hn). split; [|done]. eapply focus_calm; [done|by eapply adv_ok]. Qed.

Lemma near_live r r' c : near r r' → is_Some (rx_conns r !! c) → is_Some (rx_conns r' !! c).
Proof. intros [] [x Hx]. destruct (tamed_lookup _ _ _ _ nr_conns Hx) as (y & Hy & _). eauto. Qed.

Lemma calm_live K lc r c : calm K lc r → c ∈ rx_connections r ↔ is_Some (rx_conns r !! c).
Proof. intros [Hf _]. apply Hf. Qed.

(** A loop over connections *)
Lemma for_each_spec K lc f (P : nat → Reactor → Prop) l r :
  (∀ c r, calm K lc r → is_Some (rx_conns r !! c) → wp (f c) (λ _ r', calm K lc r' ∧ near r r' ∧ P c r') r) →
  (∀ c r r', near r r' → P c r → P c r') →
  calm K lc r → (∀ c, c ∈ l → is_Some (rx_conns r !! c)) →
  wp (for_each f l) (λ _ r', calm K lc r' ∧ near r r' ∧ ∀ c, c ∈ l → P c r') r.
Proof.
  intros Hstep Hmono. revert r. induction l as [|c l IH]; intros r Hr Hl; simpl.
  { split_and!; [done..|]. by intros c ?%elem_of_nil. }
  apply wp_then. eapply wp_mono; [apply Hstep; [done|]|].
  { apply Hl. left. }
  intros ? r1 (Hr1 & Hn1 & HP1). eapply wp_mono; [apply IH; [done|]|].
  { intros c' Hc'. eapply near_live; [done|]. apply Hl. by right. }
  intros ? r2 (Hr2 & Hn2 & HP2). split_and!; [done|by etrans|].
  intros c' [->|Hc']%elem_of_cons; [by eapply Hmono|auto].
Qed.

(** Something done to one connection, whatever it is *)
Lemma each_moved K lc (m : UB Reactor ()) c r :
  (∀ e r, focus K lc c e r → cell_mid false true e → wp m (λ _, moved false K lc c e r) r) →
  calm K lc r → is_Some (rx_conns r !! c) → wp m (λ _ r', calm K lc r' ∧ near r r' ∧ True) r.
Proof.
  intros Hm Hr Hc. destruct (calm_focus K lc r c Hr Hc) as (e & Hf & He).
  eapply wp_mono; [apply Hm; [done|apply He]|]. intros ? r' H. destruct (moved_calm _ _ _ _ _ _ He H). done.
Qed.

(** Connection [c] is closing, and nothing is left to be sent on it. *)
Definition shut (c : nat) (r : Reactor) : Prop :=
  (c ∉ rx_dirty r) ∧ ∀ x, rx_conns r !! c = Some x → closing x = true.

Lemma shut_near c r r' : near r r' → shut c r → shut c r'.
Proof.
  intros [] [Hd H]. split; [intros Hin; apply Hd; by eapply elem_of_sublist|]. intros y Hy.
  destruct (tamed_lookup_r _ _ _ _ nr_conns Hy) as (x & Hx & Ht). by destruct (Ht (H x Hx)).
Qed.

Lemma close_each K lc c reason r :
  calm K lc r → is_Some (rx_conns r !! c) →
  wp (closeWithReason c reason) (λ _ r', calm K lc r' ∧ near r r' ∧ shut c r') r.
Proof.
  intros Hr Hc. destruct (calm_focus K lc r c Hr Hc) as (e & Hf & He).
  eapply wp_mono; [eapply (closeWithReason_spec false true); [exact Hf|apply He]|].
  intros ? r' (e' & Hf' & Ha & _ & Hn & Hcl & Hd). split_and!; [|done|split; [done|]].
  - eapply focus_calm; [done|by eapply adv_ok].
  - destruct Hf' as [_ [Hx _] _]. rewrite Hx. by intros ? [= <-].
Qed.

(** ** The listener *)

Lemma frame_listener K lc (lc' : Mode) l r :
  frame_inv K lc r → listener_inv l → (md_pending lc → md_pending lc') →
  (loop_running r = true → listener_initialized l = true) →
  (state (rx_shared r) = Initialized ∨ state (rx_shared r) = Starting → op_accept l = false) →
  (rx_drain_started r = true → lc' l) →
  (state (rx_shared r) = Stopping → noticed lc' (rx_shared r) ∨ lc' l ∧ ∀ c x, rx_conns r !! c = Some x → closing x = true) →
  (rx_claimed r = true → op_accept l = false ∧ listener_accept_active l = false) →
  (rx_loop_stopped r = true → listener_closed l = true) →
  frame_inv K lc' (r <| rx_listener := l |>).
Proof.
  intros [] Hl Hp Hi Ho Hd Hs Hc Hst. split; try done. destruct fi_prog. split; unfold noticed in *; simpl; try done.
  - intros H. destruct (pg_idle H) as (? & ? & ? & _). auto.
  - intros H. split; [by apply pg_started|auto].
  - intros H1 H2. destruct (pg_timer H1 H2) as [|[|]]; auto.
  - intros H. destruct (pg_draining H) as [[|]|]; auto.
  - intros H. destruct (pg_claimed H) as (? & ? & _). destruct (Hc H). auto.
  - intros H. destruct (pg_stopped H) as (? & ? & ? & _). auto.
Qed.

(** Another mode, where it is right as well *)
Lemma frame_mode K lc (lc' : Mode) r :
  frame_inv K lc r → (rx_drain_started r = true → lc' (rx_listener r)) →
  (rx_drain_started r = true → state (rx_shared r) = Draining →
     rx_drain_timer r = true ∨ notify_lost (rx_shared r) = true ∨ md_pending lc') →
  (state (rx_shared r) = Draining → noticed lc' (rx_shared r) ∨ rx_drain_started r = true) →
  (state (rx_shared r) = Stopping → noticed lc' (rx_shared r) ∨
     lc' (rx_listener r) ∧ ∀ c x, rx_conns r !! c = Some x → closing x = true) →
  frame_inv K lc' r.
Proof.
  intros [] Hl Ht Hd Hs. split; try done. destruct fi_prog. split; try done. intros H. split; [by apply pg_started|auto].
Qed.

Definition closing_mode (lc : Mode) : Mode := mkMode closing_listener (md_pending lc).

Lemma closeListener_spec K lc r :
  frame_inv K lc r → listener_initialized (rx_listener r) = true →
  wp closeListener (λ _ r', ∃ l, r' = r <| rx_listener := l |> ∧ closing_listener l ∧
    (closing_listener (rx_listener r) → l = rx_listener r) ∧ listener_closed l = listener_closed (rx_listener r) ∧
    (listener_accept_active (rx_listener r) = false → listener_close_submitted l = true ∧
       listener_accept_cancel_submitted l = listener_accept_cancel_submitted (rx_listener r) ∧
       op_accept l = op_accept (rx_listener r)) ∧ frame_inv K (closing_mode lc) r') r.
Proof.
  intros Hf Hini. unfold closeListener. apply wp_then, wp_get. pose proof (fi_listener _ _ _ Hf) as Hli. pose proof Hli as [].
  pose proof (fi_prog _ _ _ Hf) as [].
  assert (∀ l, closing_listener l → listener_initialized l = true → op_accept l = op_accept (rx_listener r) →
    listener_accept_active l = listener_accept_active (rx_listener r) →
    listener_closed l = listener_closed (rx_listener r) → listener_inv l →
    frame_inv K (closing_mode lc) (r <| rx_listener := l |>)) as Hgo.
  { intros l H1 H2 H3 H4 H5 H6. eapply frame_listener; [exact Hf|done|done|done|..].
    - intros H. rewrite H3. by apply pg_idle.
    - done.
    - intros H. destruct (pg_stopping H) as [|[_ ?]]; [by left|by right].
    - intros H. rewrite H3, H4. by apply pg_claimed.
    - intros H. rewrite H5. by apply pg_stopped. }
  assert (closing_listener (rx_listener r) → wp (mret ()) (λ _ r', ∃ l, r' = r <| rx_listener := l |> ∧ closing_listener l ∧
    (closing_listener (rx_listener r) → l = rx_listener r) ∧ listener_closed l = listener_closed (rx_listener r) ∧
    (listener_accept_active (rx_listener r) = false → listener_close_submitted l = true ∧
       listener_accept_cancel_submitted l = listener_accept_cancel_submitted (rx_listener r) ∧
       op_accept l = op_accept (rx_listener r)) ∧ frame_inv K (closing_mode lc) r') r) as Hsame.
  { intros H. exists (rx_listener r). split; [by destruct r|]. split_and!; try done.
    { intros E. destruct H as [|[? _]]; [done|congruence]. }
    eapply frame_mode; [exact Hf|done|done|done|]. intros Hs. destruct (pg_stopping Hs) as [|[_ ?]]; [by left|by right]. }
  rewrite Hini. cbn [negb orb]. destruct (listener_close_submitted (rx_listener r)) eqn:Ec; [by apply Hsame; left|].
  destruct (listener_accept_active (rx_listener r)) eqn:Ea.
  - destruct (listener_accept_cancel_submitted (rx_listener r)) eqn:Ex; [by apply Hsame; right|].
    apply wp_then, wp_check; [by rewrite li_cancel|]. apply wp_modify.
    eexists. split_and!; [done|by right|intros [|[_ ?]]; congruence|done..|].
    apply Hgo; simpl; try done; [by right|]. split; simpl; try done; rewrite ?Ec, ?Ea; auto.
  - apply wp_then, wp_check; [by rewrite li_close|]. apply wp_modify.
    assert (listener_closed (rx_listener r) = false) as Hnc by (apply not_true_is_false; intros H; specialize (li_closed H); congruence).
    eexists. split_and!; [done|by left|intros [|[? _]]; congruence|done..|].
    apply Hgo; simpl; try done; [by left|]. split; simpl; try done; rewrite ?Ea, ?Hnc; auto.
Qed.

(** ** Stopping *)

Lemma evolves_noticed s s' : evolves s s' → s' = s ∨ (state s' = Draining ∨ state s' = Stopping → notice s').
Proof.
  revert s'. apply rtc_ind_r; [by left|]. intros s1 s2 _ [q ->] IH.
  destruct (shutdownReactor_cases q s1) as [->|[[_ E]|[[_ E]|(_ & Hn & _)]]]; [done|right..]; [intros []; congruence..|done].
Qed.

Lemma evolves_running s s' : evolves s s' → state s' = Running → s' = s.
Proof.
  revert s'. apply (rtc_ind_r (λ s', state s' = Running → s' = s)); [done|]. intros s1 s2 _ [q ->] IH Hs.
  destruct (shutdownReactor_cases q s1) as [E|[[_ E]|[[_ E]|([[_ E]|[_ E]] & _ & _)]]]; try congruence.
  rewrite E in *. auto.
Qed.

Lemma evolves_same s s' : evolves s s' → state s' = Draining → s' = s ∨ state s = Running.
Proof.
  revert s'. apply (rtc_ind_r (λ s', state s' = Draining → s' = s ∨ state s = Running)); [by left|].
  intros s1 s2 H1 [q ->] IH Hs.
  destruct (shutdownReactor_cases q s1) as [E|[[_ E]|[[_ E]|([[E1 E]|[_ E]] & _ & _)]]]; try congruence.
  - rewrite E in *. auto.
  - right. by rewrite <- (evolves_running _ _ H1 E1).
Qed.

(** A drain that was asked for is not forgotten. *)
Record attended (r : Reactor) : Prop := {
  at_draining : state (rx_shared r) = Draining → notice (rx_shared r) ∨ rx_drain_started r = true;
  at_timer : rx_drain_started r = true → state (rx_shared r) = Draining →
    rx_drain_timer r = true ∨ notify_lost (rx_shared r) = true }.

Lemma near_attended K lc r r' : frame_inv K lc r → near r r' → attended r → attended r'.
Proof.
  intros Hf [] [Hd Ht]. split.
  - rewrite nr_started. intros H. destruct (evolves_noticed _ _ nr_shared) as [E|]; [rewrite E in *; auto|left; auto].
  - rewrite nr_started, nr_timer. intros H1 H2. destruct (evolves_same _ _ nr_shared H2) as [E|E]; [rewrite E in *; auto|].
    destruct (pg_started _ _ (fi_prog _ _ _ Hf) H1) as [[|[|]] _]; congruence.
Qed.

Lemma frame_attended K r : frame_inv K listener_closing r → attended r.
Proof.
  intros Hf. destruct (fi_prog _ _ _ Hf). split.
  - intros H. destruct (pg_draining H) as [[|[]]|]; auto.
  - intros H1 H2. destruct (pg_timer H1 H2) as [|[|[]]]; auto.
Qed.

(** Everything is on its way to be closed. *)
Record wound (r : Reactor) : Prop := {
  wo_listener : closing_listener (rx_listener r);
  wo_closing : ∀ c x, rx_conns r !! c = Some x → closing x = true;
  wo_claimed : rx_claimed r = false;
  wo_halts : halts r }.

Lemma stopImmediately_spec K lc reason r :
  calm K lc r → rx_claimed r = false → listener_initialized (rx_listener r) = true → attended r →
  wp (stopImmediately reason) (λ _ r', ends K r r' ∧ wound r') r.
Proof.
  intros [Hf Ha] Hcl Hini Hat. unfold stopImmediately. apply wp_then.
  eapply wp_mono; [by eapply closeListener_spec|]. intros ? r1 (l & Er1 & Hlc & Hsame & Hlcd & _ & Hf1).
  assert (calm K (closing_mode lc) r1) as Hr1 by (subst; split; done).
  apply wp_then, wp_get, wp_then. eapply wp_mono.
  { eapply (for_each_spec K (closing_mode lc) _ shut); [|apply shut_near|done|].
    - intros. by eapply close_each. - intros c. by apply (calm_live _ _ _ _ Hr1). }
  intros ? r2 (Hr2 & Hn2 & Hc2). pose proof Hn2 as [].
  assert (∀ c, is_Some (rx_conns r2 !! c) → shut c r2) as Hshut.
  { intros c Hc. apply Hc2. rewrite <- nr_connections. by apply (calm_live _ _ _ _ Hr2). }
  assert (∀ c x, rx_conns r2 !! c = Some x → closing x = true) as Hall by (intros c x Hx; apply (Hshut c); eauto).
  assert (attended r2) as [Hatd Hatt] by (eapply near_attended; [exact Hf1|done|subst; by destruct Hat]).
  assert (closing_listener (rx_listener r2)) as Hl2 by by rewrite nr_listener, Er1.
  assert (frame_inv K listener_closing r2) as Hf2.
  { eapply frame_mode; [apply Hr2|done|..].
    - intros H1 H2. destruct (Hatt H1 H2); auto.
    - intros H. destruct (Hatd H); [by left; left|by right].
    - intros _. by right. }
  eapply wp_mono; [by eapply maybeStopLoop_spec; [|rewrite nr_claimed, Er1]|]. intros ? r3 (Hf3 & Hb3 & Hs3).
  assert (rx_claimed r3 = false) as Hcl3 by by rewrite (bs_claimed _ _ Hb3), nr_claimed, Er1.
  split; [split; [split; [done| |by apply halts_stopok|]|]|
    by split; [rewrite (bs_listener _ _ Hb3)|rewrite (bs_conns _ _ Hb3)|..]].
  - intros c e Hc. apply (ca_ok _ _ _ Hr2 c). by apply (beside_cells _ _ c e Hb3).
  - unfold wake. rewrite (bs_dirty _ _ Hb3). destruct (rx_dirty r2) as [|c d] eqn:Ed; [done|]. destruct (Hshut c) as [Hn _].
    + apply (fi_dirty _ _ _ (ca_frame _ _ _ Hr2)). rewrite Ed. left. + destruct Hn. rewrite Ed. left.
  - transitivity r1; [|etrans; [by apply near_settles|by apply beside_settles]]. subst.
    split; [intros c x Hx; by exists x|intros _]. split_and!; [done..|]. intros Hh. unfold halts in *. simpl.
    by rewrite Hlcd.
Qed.

(** ** Draining *)

Lemma evolves_from_draining s s' :
  evolves s s' → state s = Draining → state s' = Draining ∧ s' = s ∨ state s' = Stopping ∧ notice s'.
Proof.
  intros He Hs. destruct (evolves_draining _ _ He Hs) as [H|H].
  - left. destruct (evolves_same _ _ He H); [done|congruence].
  - right. destruct (evolves_noticed _ _ He) as [->|Hn]; [congruence|auto].
Qed.

Lemma drain_connection_spec K lc d c e r :
  focus K lc c e r → cell_mid false true e → wp (drain_connection cfg d c) (λ _, moved false K lc c e r) r.
Proof.
  intros Hf Hm. unfold drain_connection. wp_step conn_at_spec as (-> & Hf1 & Hn1 & _).
  case_match; [exists e; split_and!; [done|by apply adv_refl|done]|]. apply wp_then.
  eapply (wp_focus_core false true); [exact Hf1|done|done|done|]. intros e2 r2 -> Hf2 Ha2 Hn2 _.
  assert (near r r2) as Hn by by etrans. case_match.
  - eapply wp_mono; [eapply (closeOnLoop_spec false true); [exact Hf2|apply Ha2]|].
    intros ? r3 (e3 & Hf3 & Ha3 & _ & Hn3 & _). exists e3. split_and!; [done|by eapply adv_trans|by etrans].
  - eapply wp_mono; [eapply (or_close_spec false K lc c _ r2 _ Hf2)|].
    + eapply wp_mono; [eapply flush_spec; [exact Hf2|apply Ha2]|]. intros ok r3 (e3 & ? & ? & _ & ?). by exists e3.
    + intros ? r3 (e3 & Hf3 & Ha3 & Hn3). exists e3. split_and!; [done|by eapply adv_trans|by etrans].
Qed.

Lemma clear_spec K lc c e r :
  focus K lc c e r → cell_mid false true e → wp (on_conn c clearConnectionDeadline) (λ _, moved false K lc c e r) r.
Proof.
  intros Hf Hm. eapply (wp_focus_core false true); [exact Hf|done|done|done|]. intros e2 r2 -> Hf2 Ha2 Hn2 _. by eexists.
Qed.

(** The first part of [beginDrain] *)
Lemma begin_listener K lc r :
  calm K lc r → rx_claimed r = false → listener_initialized (rx_listener r) = true →
  (∀ l, lc l → closing_listener l) →
  state (rx_shared r) = Draining ∨ state (rx_shared r) = Stopping ∧ notice (rx_shared r) →
  (rx_drain_started r = true → state (rx_shared r) = Draining → rx_drain_timer r = true ∨ notify_lost (rx_shared r) = true) →
  wp (if rx_drain_started r then mret ()
      else
        _ ← modify (λ r, r <| rx_drain_started := true |>);
        _ ← closeListener;
        modify (λ r, r <| rx_drain_timer := true |>))
    (λ _ r', calm K listener_closing r' ∧ ∃ l, r' = r <| rx_listener := l |> <| rx_drain_started := true |>
       <| rx_drain_timer := rx_drain_timer r' |>) r.
Proof.
  intros [Hf Ha] Hcl Hini Hlc Hst Ht. destruct (rx_drain_started r) eqn:Ed.
  - split; [|exists (rx_listener r); destruct r; simpl in *; by subst]. split; [|done].
    pose proof (fi_prog _ _ _ Hf) as []. eapply frame_mode; [exact Hf|..].
    + intros H. by apply Hlc, pg_started.
    + intros H1 H2. destruct (Ht eq_refl H2); auto.
    + by right.
    + intros H. left; left. destruct Hst as [|[]]; [congruence|done].
  - apply wp_then, wp_modify.
    assert (frame_inv K (mkMode (λ _, True) True) (r <| rx_drain_started := true |>)) as Hf1.
    { destruct Hf. split; try done. destruct fi_prog. split; unfold noticed; simpl; try done; try tauto.
      - intros H. destruct Hst as [|[]], H; congruence.
      - congruence. }
    apply wp_then. eapply wp_mono; [by eapply closeListener_spec|]. intros ? r2 (l & -> & Hl & _ & _ & _ & Hf2). apply wp_modify.
    split; [split; [|done]|by exists l]. destruct Hf2. split; try done. destruct fi_prog. split; unfold noticed; simpl; try done; try tauto.
    intros H. left; left. destruct Hst as [|[]]; [congruence|done].
Qed.

Lemma begin_shutdown_state r r' :
  near r r' → state (rx_shared r) = Draining ∨ state (rx_shared r) = Stopping ∧ notice (rx_shared r) →
  state (rx_shared r') = Draining ∧ rx_shared r' = rx_shared r ∨ state (rx_shared r') = Stopping ∧ notice (rx_shared r').
Proof.
  intros [] [H|[H1 H2]]; [by apply evolves_from_draining|]. right. by rewrite (evolves_stopped _ _ nr_shared H1).
Qed.

Lemma beginDrain_spec K lc d r :
  calm K lc r → rx_claimed r = false → listener_initialized (rx_listener r) = true → (∀ l, lc l → closing_listener l) →
  state (rx_shared r) = Draining → wake r →
  (rx_drain_started r = true → rx_drain_timer r = true ∨ notify_lost (rx_shared r) = true) →
  wp (beginDrain cfg d) (λ _, ends K r) r.
Proof.
  intros Hr Hcl Hini Hlc Hst Hw Ht. unfold beginDrain. apply wp_then, wp_get, wp_then. eapply wp_mono.
  { eapply (for_each_spec K lc _ (λ _ _, True)); [|done|done|by intros c; apply (calm_live _ _ _ _ Hr)].
    intros c r0 Hr0 Hc0. eapply each_moved; [|done|done]. intros. by apply clear_spec. }
  intros ? r1 (Hr1 & Hn1 & _). apply wp_then, wp_get. pose proof (begin_shutdown_state _ _ Hn1 (or_introl Hst)) as Hst1.
  apply wp_then. eapply wp_mono.
  { eapply (begin_listener K lc r1); [done|by rewrite (nr_claimed _ _ Hn1)|by rewrite (nr_listener _ _ Hn1)|done| |].
    - destruct Hst1 as [[]|]; auto.
    - rewrite (nr_started _ _ Hn1), (nr_timer _ _ Hn1). intros H1 H2. destruct Hst1 as [[_ ->]|[]]; [auto|congruence]. }
  intros ? r2 [Hr2 [l E2]]. apply wp_then, wp_get.
  assert (rx_conns r2 = rx_conns r1 ∧ rx_shared r2 = rx_shared r1 ∧ rx_dirty r2 = rx_dirty r1 ∧
    rx_stream_notified r2 = rx_stream_notified r1 ∧ rx_claimed r2 = false) as (Ec2 & Es2 & Ed2 & En2 & Ecl2).
  { rewrite E2. simpl. by rewrite (nr_claimed _ _ Hn1). }
  assert (∀ r', shrinks r2 r' → settles r r') as Hset.
  { intros r' Hs'. split; [|intros H; congruence]. etrans; [by apply near_shrinks|]. intros c y Hy. destruct (Hs' c y Hy) as (x & Hx & ?).
    exists x. by rewrite <- Ec2. }
  assert (wake r2) as Hw2 by (unfold wake; rewrite Ed2, En2; by apply (near_wake r r1)).
  destruct (listener_closed (rx_listener r2)) eqn:Elc; simpl.
  2: { split; [split; [apply Hr2|apply Hr2| |done]|by apply Hset]. intros _. right. congruence. }
  apply wp_then. eapply wp_mono.
  { eapply (for_each_spec K listener_closing _ (λ _ _, True)); [|done|done|by intros c; apply (calm_live _ _ _ _ Hr2)].
    intros c r0 Hr0 Hc0. eapply each_moved; [|done|done]. intros. by apply drain_connection_spec. }
  intros ? r3 (Hr3 & Hn3 & _). apply wp_then. eapply wp_mono.
  { eapply (for_each_spec K listener_closing _ (λ _ _, True)); [|done|done|].
    - intros c r0 Hr0 Hc0. eapply each_moved; [|done|done]. intros. eapply wp_mono; [by eapply (maybeCloseDrained_spec false true)|].
      intros ? ?. apply closed_to_moved.
    - intros c Hc. eapply near_live; [done|]. by apply (calm_live _ _ _ _ Hr2). }
  intros ? r4 (Hr4 & Hn4 & _). assert (near r2 r4) as Hn24 by by etrans.
  assert (stopok r4) as Hs4.
  { intros Hs. left. destruct (begin_shutdown_state r2 r4) as [[? _]|[_ ?]]; [done| |congruence|done].
    rewrite Es2. destruct Hst1 as [[]|]; auto. }
  eapply wp_mono; [eapply finishDrain_spec; [apply Hr4|by rewrite (nr_claimed _ _ Hn24)]|]. intros ? r5 (Hf5 & Hb5 & Hs5).
  split; [split; [done| |by apply Hs5|]|].
  - intros c e Hc. apply (ca_ok _ _ _ Hr4 c). by apply (beside_cells _ _ c e Hb5).
  - unfold wake. rewrite (bs_dirty _ _ Hb5), (bs_notified _ _ Hb5). by apply (near_wake r2 r4).
  - apply Hset. etrans; [by apply near_shrinks|by apply beside_settles].
Qed.

(** ** Callbacks about shutting down *)

Lemma inv_initialized K r : inv K r → loop_running r = true → listener_initialized (rx_listener r) = true.
Proof. intros [Hf _ _ _]. apply Hf. Qed.

Lemma inv_calm K r : inv K r → calm K listener_closing r.
Proof. by intros []. Qed.

(** The state in which a callback attends to the shutdown *)
Definition attending : Mode := mkMode closing_listener True.

(** [shutdown_async] is delivered. *)
Definition heard (r : Reactor) : Reactor := r <| rx_shared := (rx_shared r) <| shutdown_notified := false |> |>.

Lemma heard_calm K r : inv K r → rx_claimed r = false → calm K attending (heard r).
Proof.
  intros [Hf Ha _ _] Hcl. split; [|done]. destruct Hf. split; try done. destruct fi_prog.
  split; unfold noticed, loop_running in *; simpl; try done; try tauto. congruence.
Qed.

Lemma cb_shutdown K d r :
  inv K r → loop_running r = true → rx_claimed r = false → 
  wp (onShutdown cfg d) (λ _ r', ends K (heard r) r' ∧ (state (rx_shared r) = Stopping → wound r')) (heard r).
Proof.
  intros Hi Hrun Hcl. pose proof (heard_calm K r Hi Hcl) as [Hf1 Ha1]. pose proof (inv_initialized _ _ Hi Hrun) as Hini.
  pose proof (frame_attended K r (iv_frame _ _ Hi)) as [_ Hat]. unfold onShutdown.
  wp_step lock_spec as (Hf2 & -> & Hl). pose proof (near_lock _ _ Hl) as Hn2. rename s' into r2.
  assert (calm K attending r2) as Hr2 by (split; [done|]; intros c e Hc; apply (Ha1 c); by apply (after_lock_cells _ _ Hl)).
  pose proof Hn2 as []. assert (wake r2) as Hw2 by (apply (near_wake _ _ Hn2), Hi).
  destruct (state (rx_shared r2)) eqn:Es.
  1-3, 6: split; [|intros H; rewrite (evolves_stopped _ _ nr_shared) in Es by done; simpl in Es; congruence].
  1-4: split; [split; [|apply Hr2| |done]|by apply near_settles]; [|intros ?; congruence].
  1-4: eapply frame_mode; [exact Hf2|intros H; by apply (pg_started _ _ (fi_prog _ _ _ Hf2))|congruence..].
  - eapply wp_mono; [eapply (beginDrain_spec K attending d r2); try done; [by rewrite nr_claimed|by rewrite nr_listener|]|].
    2: { intros ? ? ?. split; [by eapply ends_near|]. intros Hst. rewrite (evolves_stopped _ _ nr_shared) in Es by done. simpl in Es. congruence. }
    rewrite nr_started, nr_timer. intros H. destruct (evolves_same _ _ nr_shared Es) as [E|E].
    + rewrite E in Es |- *. simpl in *. by apply Hat.
    + destruct (pg_started _ _ (fi_prog _ _ _ Hf1) H) as [[|[|]] _]; congruence.
  - eapply wp_mono; [eapply (stopImmediately_spec K attending ForcedShutdown r2); try done;
      [by rewrite nr_claimed|by rewrite nr_listener|split; congruence]|intros ? ? [? ?]; split; [by eapply ends_near|done]].
Qed.

Definition timer_gone (failed : bool) (r : Reactor) : Reactor :=
  r <| rx_drain_timer := false |> <| rx_shared := if failed then (rx_shared r) <| notify_lost := true |> else rx_shared r |>.

Lemma cb_drain_timeout K failed r :
  inv K r → loop_running r = true → rx_claimed r = false →
  wp (onDrainTimeout failed) (λ _ r', ends K (timer_gone failed r) r' ∧ (failed = false → wound r' ∧
    (state (rx_shared r) = Draining ∨ state (rx_shared r) = Stopping → state (rx_shared r') = Stopping))) (timer_gone failed r).
Proof.
  intros Hi Hrun Hcl. pose proof (inv_initialized _ _ Hi Hrun) as Hini. pose proof Hi as [Hf Ha Hs Hw]. unfold onDrainTimeout. destruct failed.
  { split; [|done]. split; [|done]. split; [|done|by left; left|done]. destruct Hf. split; try done. destruct fi_prog.
    split; unfold noticed, notice, loop_running in *; simpl; try done; try tauto. }
  assert (frame_inv K attending (timer_gone false r)) as Hf1.
  { destruct Hf. split; try done. destruct fi_prog. split; unfold noticed in *; simpl; try done; try tauto. }
  wp_step lock_spec as (Hf2 & -> & Hl). pose proof (near_lock _ _ Hl) as Hn2. rename s' into r2.
  assert (all_ok r2) as Ha2 by (intros c e Hc; apply (Ha c); by apply (after_lock_cells _ _ Hl)).
  pose proof Hn2 as []. assert (wake r2) as Hw2 by by apply (near_wake _ _ Hn2). apply wp_then.
  case_decide as Ed; [apply wp_modify|].
  - set (r3 := r2 <| rx_shared := _ |>). assert (frame_inv K attending r3) as Hf3.
    { destruct Hf2. split; try done. destruct fi_prog. split; unfold noticed, loop_running in *; simpl; try done; try tauto.
      - intros _. apply pg_init. by rewrite Ed. - by intros [].
      - rewrite nr_claimed. simpl. congruence. }
    eapply wp_mono; [eapply (stopImmediately_spec K attending ForcedShutdown r3); try done;
      [by simpl; rewrite nr_claimed|by simpl; rewrite nr_listener]|].
    intros ? r4 [[Hi4 [Hsh Hst]] Hwo]. split; [split; [done|]|intros _; split; [done|intros _; by destruct (Hst eq_refl) as [-> _]]]. split; [etrans; [by apply near_shrinks|exact Hsh]|].
    intros H. rewrite (evolves_stopped _ _ nr_shared H) in Ed. congruence.
  - change (wp (stopImmediately ForcedShutdown) (λ _ r', ends K (timer_gone false r) r' ∧ (false = false → wound r' ∧
      (state (rx_shared r) = Draining ∨ state (rx_shared r) = Stopping → state (rx_shared r') = Stopping))) r2).
    eapply wp_mono; [eapply (stopImmediately_spec K attending ForcedShutdown r2); try done;
      [by rewrite nr_claimed|by rewrite nr_listener]|].
    intros ? r' [He Hwo]. split; [by eapply ends_near|]. intros _. split; [done|]. intros Hst.
    assert (state (rx_shared r2) = Stopping) as H2.
    { destruct Hst as [H|H]; [destruct (evolves_draining _ _ nr_shared H); done|by rewrite (evolves_stopped _ _ nr_shared H)]. }
    destruct He as [_ [_ Hs']]. by destruct (Hs' H2) as [-> _].
Qed.

(** ** Callbacks of the listener *)

(** What a listener that is being closed still has before it *)
Definition lweight (l : Listener) : nat :=
  Nat.b2n (op_accept l) + Nat.b2n (listener_accept_cancel_submitted l) + Nat.b2n (negb (listener_close_submitted l)) +
  Nat.b2n (negb (listener_closed l)).

Definition listens (K : Z) (r r' : Reactor) : Prop :=
  inv K r' ∧ shrinks r r' ∧
  (state (rx_shared r) = Stopping → closing_listener (rx_listener r) →
   rx_shared r' = rx_shared r ∧ rx_claimed r' = rx_claimed r ∧ closing_listener (rx_listener r') ∧ (halts r → halts r') ∧
   (lweight (rx_listener r') < lweight (rx_listener r))%nat).

Lemma cb_listener_closed K d r :
  inv K r → loop_running r = true → rx_claimed r = false → op_listener_close (rx_listener r) = true →
  wp (_ ← set_listener (λ l, l <| op_listener_close := false |>); onListenerClosed cfg d) (λ _, listens K r) r.
Proof.
  intros Hi Hrun Hcl Hop. pose proof (inv_initialized _ _ Hi Hrun) as Hini. pose proof Hi as [Hf Ha Hs Hw].
  pose proof (fi_listener _ _ _ Hf) as []. rewrite Hop in li_close. symmetry in li_close.
  apply andb_true_iff in li_close as [Hsub Hcd%negb_true_iff].
  apply wp_then, wp_modify. unfold onListenerClosed. apply wp_then, wp_modify. set (r1 := _ <| rx_listener := _ |>). fold r1.
  assert (calm K listener_closing r1) as Hr1.
  { split; [|done]. pose proof (fi_prog _ _ _ Hf) as [].
    apply (frame_listener K listener_closing listener_closing _ r Hf); simpl; try done.
    - split; simpl; try done. by rewrite andb_false_r.
    - intros H. by apply pg_idle.
    - by left.
    - intros H. by apply pg_claimed. }
  assert (∀ r', ends K r1 r' → (state (rx_shared r) = Stopping → halts r') → listens K r r') as Hend.
  { intros r' [Hi' [Hsh Hst]] Hh. split_and!; [done|exact Hsh|]. intros Hs' _. destruct (Hst Hs') as (E1 & E2 & Hl & _).
    rewrite Hl by by left. split_and!; [done|done|by left|auto|]. unfold lweight. simpl. rewrite Hcd, Hsub. simpl. lia. }
  wp_step lock_spec as (Hf2 & -> & Hl); [apply Hr1|]. pose proof (near_lock _ _ Hl) as Hn2. pose proof Hn2 as [].
  assert (calm K listener_closing s') as Hr2.
  { split; [done|]. intros c e Hc. apply (ca_ok _ _ _ Hr1 c). by apply (after_lock_cells _ _ Hl). }
  assert (wake s') as Hw2 by by apply (near_wake _ _ Hn2). case_decide as Ed.
  - eapply wp_mono; [eapply (beginDrain_spec K listener_closing d s'); try done; [by rewrite nr_claimed|by rewrite nr_listener|]|].
    + intros H. by apply (frame_attended K).
    + intros ? r' He. apply Hend; [by eapply ends_near|]. intros H. rewrite (evolves_stopped _ _ nr_shared H) in Ed. simpl in Ed. congruence.
  - eapply wp_mono; [by eapply maybeStopLoop_spec; [|rewrite nr_claimed]|]. intros ? r3 (Hf3 & Hb3 & Hs3). apply Hend; [|done].
    eapply ends_near; [done|]. split; [|by apply beside_settles]. split; [done| |by apply halts_stopok|].
    + intros c e Hc. apply (ca_ok _ _ _ Hr2 c). by apply (beside_cells _ _ c e Hb3).
    + unfold wake. by rewrite (bs_dirty _ _ Hb3), (bs_notified _ _ Hb3).
Qed.

(** The listener is not accepting, and is closed if it is not yet. *)
Lemma close_rest K l r0 r :
  frame_inv K (mkMode (λ _, True) False) (r <| rx_listener := l |>) → all_ok r → stopok r → wake r →
  listener_initialized l = true → listener_accept_active l = false → listener_closed l = listener_closed (rx_listener r) →
  shrinks r0 r → steady r0 r → rx_listener r = rx_listener r0 →
  (closing_listener (rx_listener r0) → (lweight l < lweight (rx_listener r0))%nat) →
  wp closeListener (λ _, listens K r0) (r <| rx_listener := l |>).
Proof.
  intros Hf Ha Hs Hw Hini Hact Hcd Hsh Hst El Hlt. eapply wp_mono; [by eapply closeListener_spec|].
  intros ? r' (l' & -> & Hcl & _ & Hc' & Hk & Hf'). destruct (Hk Hact) as (Hk0 & Hk1 & Hk2). simpl in *. split_and!.
  - split; [exact Hf'|done| |done]. intros H. destruct (Hs H) as [|H2]; [by left|right]. simpl in *. rewrite Hc', Hcd. done.
  - done.
  - intros H1 H2. destruct (Hst H1) as (E & Ec & _ & Hh). split_and!; [exact E|exact Ec|done| |].
    { intros H. specialize (Hh H). unfold halts in *. simpl. by rewrite Hc', Hcd. }
    specialize (Hlt H2). unfold lweight in *. simpl. rewrite Hc', Hk1, Hk2.
    rewrite Hk0. simpl. destruct (listener_close_submitted l); simpl in *; lia.
Qed.

Lemma cb_accept_canceled K r :
  inv K r → loop_running r = true → rx_claimed r = false → op_accept_cancel (rx_listener r) = true →
  wp (_ ← set_listener (λ l, l <| op_accept_cancel := false |>); onListenerAcceptCanceled) (λ _, listens K r) r.
Proof.
  intros Hi Hrun Hcl Hop. pose proof (inv_initialized _ _ Hi Hrun) as Hini. pose proof Hi as [Hf Ha Hs Hw].
  pose proof (fi_listener _ _ _ Hf) as []. rewrite Hop in li_cancel. symmetry in li_cancel.
  apply wp_then, wp_modify. unfold onListenerAcceptCanceled. apply wp_then, wp_modify.
  apply (close_rest K ((rx_listener r) <| op_accept_cancel := false |> <| listener_accept_active := false |>
    <| listener_accept_cancel_submitted := false |>) r r); try done.
  - pose proof (fi_prog _ _ _ Hf) as []. eapply frame_listener; [exact Hf|by split|done|done|..]; simpl; try done.
    + intros H. by apply pg_idle.
    + intros H. destruct (pg_stopping H) as [|[_ ?]]; [by left|by right].
    + congruence.
    + intros H. by apply pg_stopped.
  - intros _. unfold lweight. simpl. rewrite li_cancel. simpl. lia.
Qed.

Lemma rearm_spec K r :
  frame_inv K listener_closing r → loop_running r = true → op_accept (rx_listener r) = false → rx_claimed r = false →
  rx_drain_started r = false → (state (rx_shared r) = Stopping → notice (rx_shared r)) →
  wp rearmListener (λ _ r', frame_inv K listener_closing r' ∧ ∃ l, r' = r <| rx_listener := l |>) r.
Proof.
  intros Hf Hrun Hop Hcl Hd Hn. unfold rearmListener. apply wp_then, wp_get, wp_then, wp_check; [by rewrite Hop|]. apply wp_modify.
  split; [|by eexists]. pose proof (fi_prog _ _ _ Hf) as []. pose proof (fi_listener _ _ _ Hf) as [].
  eapply frame_listener; [exact Hf|by split|done|..]; simpl; try done; try congruence.
  - unfold loop_running in Hrun. intros [H|H]; by rewrite H in Hrun.
  - intros H. left; left; auto.
  - intros H. by apply pg_stopped.
Qed.

Lemma cb_accept K accepted r :
  inv K r → loop_running r = true → rx_claimed r = false → op_accept (rx_listener r) = true →
  wp (_ ← set_listener (λ l, l <| op_accept := false |>); onConnection_claim cfg accepted) (λ _, listens K r) r.
Proof.
  intros Hi Hrun Hcl Hop. pose proof (inv_initialized _ _ Hi Hrun) as Hini. pose proof Hi as [Hf Ha Hs Hw].
  pose proof (fi_listener _ _ _ Hf) as []. apply wp_then, wp_modify. unfold onConnection_claim. apply wp_then, wp_modify.
  set (l1 := (rx_listener r) <| op_accept := false |> <| listener_accept_active := false |>).
  set (r1 := _ <| rx_listener := _ |>). fold r1. change r1 with (r <| rx_listener := l1 |>). clear r1.
  assert (frame_inv K (mkMode (λ _, True) False) (r <| rx_listener := l1 |>)) as Hf1.
  { pose proof (fi_prog _ _ _ Hf) as []. eapply frame_listener; [exact Hf|by split|done|done|..]; simpl; try done.
    - intros H. destruct (pg_stopping H) as [|[_ ?]]; [by left|by right].
    - intros H. by apply pg_stopped. }
  apply wp_then. unfold isAccepting. wp_step lock_spec as (Hf2 & -> & Hl). cbn [mret ub_ret wp].
  destruct Hl as (sched & s & He & ->). set (r2 := r <| rx_sched := sched |> <| rx_shared := s |>).
  change (r <| rx_listener := l1 |> <| rx_sched := sched |> <| rx_shared := s |>) with (r2 <| rx_listener := l1 |>) in *.
  assert (near r r2) as Hn2 by (apply near_lock; by exists sched, s).
  simpl. destruct (bool_decide (state s = Running)) eqn:Er; simpl.
  2: { apply (close_rest K l1 r r2); try done; [by eapply near_stopok|by apply near_shrinks|by apply near_steady|].
       intros _. unfold lweight. simpl. rewrite Hop. simpl. lia. }
  apply bool_decide_eq_true in Er. set (r3 := r2 <| rx_listener := l1 |>) in *.
  assert (rx_drain_started r = false) as Hd.
  { apply not_true_is_false. intros H. destruct (pg_started _ _ (fi_prog _ _ _ Hf2) H) as [[|[|]] _]; simpl in *; congruence. }
  assert (frame_inv K listener_closing r3) as Hf3 by (eapply frame_mode; [exact Hf2|..]; simpl; congruence).
  assert (∀ r', frame_inv K listener_closing r' → rx_conns r' = rx_conns r → rx_ops r' = rx_ops r → rx_dirty r' = rx_dirty r →
    rx_stream_notified r' = rx_stream_notified r → rx_shared r' = s → listens K r r') as Hend.
  { intros r' Hf' E1 E2 E3 E4 E5. split_and!.
    - split; [done| |intros ?; congruence|unfold wake; by rewrite E3, E4].
      intros c e. unfold cell_at, ops_of. rewrite E1, E2. apply Ha.
    - intros c y. rewrite E1. intros Hy. by exists y.
    - intros H. rewrite (evolves_stopped _ _ He H) in Er. simpl in Er. congruence. }
  assert (wp rearmListener (λ _, listens K r) r3) as Hrearm.
  { eapply wp_mono; [eapply (rearm_spec K r3); try done; simpl; [unfold loop_running; simpl; by rewrite Er|congruence]|].
    intros ? r' [Hf' [l ->]]. by apply Hend. }
  destruct accepted; [|done]. unfold tryClaimConnection. apply wp_then, wp_then, wp_get.
  destruct (rx_admitted r3 <? max_connections cfg) eqn:Em; [|done]. apply wp_then, wp_put.
  change (wp (modify (λ r, r <| rx_claimed := true |>)) (λ _, listens K r) (r3 <| rx_admitted := rx_admitted r3 + 1 |>)).
  apply wp_modify. apply Hend; try done. destruct Hf3. split; try done; simpl in *.
  - rewrite Hcl in fi_admitted. simpl in *. lia.
  - lia.
  - destruct fi_prog. split; try done; simpl in *.
    + intros [|]; congruence.
    + intros _. split_and!; [done|by left|done..].
    + intros H. destruct (pg_stopped H) as [[|] _]; congruence.
    + congruence.
Qed.

(** ** A new connection *)

Lemma evolves_loop s s' :
  evolves s s' → state s = Running ∨ state s = Draining ∨ state s = Stopping →
  state s' = Running ∨ state s' = Draining ∨ state s' = Stopping.
Proof.
  intros He Hs. revert s' He. apply rtc_ind_r; [done|]. intros s1 s2 _ [q ->] IH.
  destruct (shutdownReactor_cases q s1) as [E|[[E1 E]|[[E1 E]|([[E1 E]|[E1 E]] & _)]]]; [by rewrite E|..].
  1-2: destruct IH as [|[|]]; congruence.
  all: auto.
Qed.

Lemma running_states r :
  loop_running r = true ↔ state (rx_shared r) = Running ∨ state (rx_shared r) = Draining ∨ state (rx_shared r) = Stopping.
Proof. unfold loop_running. destruct (state (rx_shared r)); naive_solver. Qed.

(** The accept that claimed a connection is still going on. *)
Record accepting (r : Reactor) : Prop := {
  ac_running : loop_running r = true;
  ac_state : state (rx_shared r) = Running ∨ notice (rx_shared r);
  ac_started : rx_drain_started r = false;
  ac_op : op_accept (rx_listener r) = false;
  ac_claimed : rx_claimed r = false;
  ac_wake : wake r }.

Lemma near_accepting r r' : near r r' → accepting r → accepting r'.
Proof.
  intros Hn [Hr Hs Hd Ho Hc Hw]. pose proof Hn as [].
  pose proof (evolves_loop _ _ nr_shared (proj1 (running_states r) Hr)) as Hl. split.
  - by apply running_states.
  - destruct (evolves_noticed _ _ nr_shared) as [->|H]; [done|]. destruct Hl as [|]; [by left|right; auto].
  - by rewrite nr_started. - by rewrite nr_listener. - by rewrite nr_claimed. - by eapply near_wake.
Qed.

Lemma rearm_inv K r : calm K listener_closing r → accepting r → wp rearmListener (λ _, inv K) r.
Proof.
  intros [Hf Ha] [Hrun Hst Hd Hop Hcl Hw]. assert (state (rx_shared r) = Stopping → notice (rx_shared r)) as Hn.
  { intros H. destruct Hst; [congruence|done]. }
  eapply wp_mono; [by eapply rearm_spec|]. intros ? r' [Hf' [l ->]]. split; [done|done|intros H; left; by apply Hn|done].
Qed.

(** Giving the claim back *)
Lemma releaseConnection_spec K r :
  frame_inv K listener_closing r → rx_claimed r = true → all_ok r → accepting (r <| rx_claimed := false |>) →
  wp (_ ← releaseConnection cfg; rearmListener) (λ _, inv K) (r <| rx_claimed := false |>).
Proof.
  intros Hf Hcl Ha Hac. pose proof (fi_admitted _ _ _ Hf) as Had. pose proof (fi_limit _ _ _ Hf) as Hlim.
  rewrite Hcl in Had. simpl in Had. unfold releaseConnection. apply wp_then, wp_then, wp_get, wp_then, wp_check.
  { simpl. rewrite (proj2 (Z.ltb_lt _ _)), (proj2 (Z.leb_le _ _)) by lia. done. }
  apply wp_put. eapply rearm_inv.
  - split; [|done]. destruct Hf. split; try done; simpl; [lia..|]. destruct fi_prog. split; try done; simpl.
    + intros H. destruct (pg_idle H) as (? & ? & ? & ?). auto.
    + intros H. destruct (pg_stopped H) as (? & ? & ? & ?). auto.
    + intros H. destruct (pg_final H). auto.
  - destruct Hac. by split.
Qed.

Lemma create_spec K c r :
  frame_inv K listener_closing r → rx_claimed r = true → all_ok r → accepting (r <| rx_claimed := false |>) →
  rx_conns r !! c = None →
  wp (create_connection c) (λ _ r', focus K listener_closing c (mkCell Connection_init no_ops) r' ∧ accepting r')
    (r <| rx_claimed := false |>).
Proof.
  intros Hf Hcl Ha Hac Hc. pose proof Hac as [Hrun Hst Hd Hop Hcl' Hw]. unfold create_connection. apply wp_then, wp_get. simpl. rewrite Hc. apply wp_put.
  split; [|by split]. pose proof (fi_ops _ _ _ Hf c Hc) as Hops. split.
  - destruct Hf. rewrite Hcl in *. simpl in *. assert (c ∉ rx_connections r) as Hnin by (rewrite fi_dom, Hc; by intros []).
    split; simpl; try done.
    + apply NoDup_app. split_and!; [done| |apply NoDup_singleton]. by intros c' Hc' ->%list_elem_of_singleton.
    + intros c'. rewrite elem_of_app, list_elem_of_singleton, fi_dom. destruct (decide (c' = c)) as [->|Hne].
      * rewrite lookup_insert_eq. naive_solver.
      * rewrite lookup_insert_ne by done. naive_solver.
    + intros c' Hn. apply fi_ops. destruct (decide (c' = c)) as [->|Hne]; [done|]. by rewrite lookup_insert_ne in Hn.
    + intros c' Hdi. destruct (fi_dirty c' Hdi) as [x Hx]. assert (c' ≠ c) by congruence. rewrite lookup_insert_ne by done. eauto.
    + intros c' id Hin. destruct (fi_commands c' id Hin) as (x & Hx & ?). assert (c' ≠ c) by congruence.
      rewrite lookup_insert_ne by done. eauto.
    + rewrite length_app. simpl. lia.
    + apply running_states in Hrun. simpl in *. destruct fi_prog. split; simpl; try done.
      * intros H. destruct Hrun as [|[|]], H; congruence.
      * intros H. left; left. destruct Hst; [congruence|done].
      * intros H. destruct (pg_stopped H) as (_ & _ & ? & _). congruence.
      * intros H. destruct Hrun as [|[|]]; congruence.
  - split; simpl; [by rewrite lookup_insert_eq|done].
  - intros c' e Hne [Hx Ho]. simpl in *. rewrite lookup_insert_ne in Hx by done. by apply (Ha c').
Qed.

Lemma fresh_ok e e' :
  adv false true e e' → closing (conn e) = false → owns_admission (conn e) = true → close_completed (conn e) = false →
  session (conn e) = true ∨ closing (conn e') = true → cell_ok e'.
Proof.
  intros Ha Hc Ho Hco Hs. pose proof Ha as []. split; [done|]. split; [congruence| |by apply ad_begun|congruence].
  destruct Hs as [Hs|]; [apply ad_sess|]; auto.
Qed.

(** The connection was closed at once. *)
Lemma reject_spec K c e r :
  focus K listener_closing c e r → cell_mid false true e → closing (conn e) = false → owns_admission (conn e) = true →
  close_completed (conn e) = false → accepting r →
  wp (_ ← closeOnLoop c; rearmListener) (λ _, inv K) r.
Proof.
  intros Hf Hm Hc Ho Hco Hac. apply wp_then. eapply wp_mono; [by eapply (closeOnLoop_spec false true)|].
  intros ? r1 (e1 & Hf1 & Ha1 & _ & Hn1 & Hc1 & _). eapply rearm_inv; [|by eapply near_accepting].
  eapply focus_calm; [done|]. eapply fresh_ok; [exact Ha1|done..|by right].
Qed.

Lemma cb_admit K a r :
  0 < write_high_watermark_bytes cfg → inv K r → loop_running r = true → rx_claimed r = true →
  (∀ c, ad_address a = Some c → rx_conns r !! c = None) → wp (onConnection_admitted cfg a) (λ _, inv K) r.
Proof.
  intros Hhigh [Hf Ha Hs Hw] Hrun Hcl Hfresh. unfold onConnection_admitted. apply wp_then, wp_modify.
  assert (accepting (r <| rx_claimed := false |>)) as Hac.
  { destruct (pg_claimed _ _ (fi_prog _ _ _ Hf) Hcl) as (? & ? & ? & _). by split. }
  destruct (ad_nodelay a); simpl; [|by apply releaseConnection_spec]. destruct (ad_address a) as [c|]; [|by apply releaseConnection_spec].
  destruct (ad_append a); simpl; [|by apply releaseConnection_spec].
  apply wp_then. eapply wp_mono; [by eapply create_spec; auto|]. intros ? r1 [Hf1 Hac1].
  apply wp_then. eapply wp_focus_set; [exact Hf1|done|done|]. intros r2 Hf2 Hn2 _. simpl in Hf2.
  apply wp_then. eapply wp_focus_set; [exact Hf2|done|done|]. intros r3 Hf3 Hn3 _. simpl in Hf3.
  set (x := Connection_init <| owns_admission := true |> <| session := (ad_session a).1 |>) in *.
  assert (cell_mid false true (mkCell x no_ops)) as Hm by (split; unfold unsent; simpl; try done; try lia; by intros []).
  assert (accepting r3) as Hac3 by (eapply near_accepting; [exact Hn3|]; by eapply near_accepting).
  destruct ((ad_session a).1 && (ad_session a).2) eqn:Es; simpl; [|by eapply reject_spec].
  apply andb_true_iff in Es as [Es _].
  apply wp_then. eapply wp_mono; [by eapply setDeadline_spec|]. intros ok r4 (e4 & Hf4 & Hc4 & Ho4 & Hn4 & _).
  assert (cell_mid false true e4) as Hm4 by (destruct e4; simpl in *; subst; by eapply cell_mid_core).
  assert (accepting r4) as Hac4 by by eapply near_accepting.
  assert (closing (conn e4) = false ∧ owns_admission (conn e4) = true ∧ close_completed (conn e4) = false ∧
    session (conn e4) = true) as (E1 & E2 & E3 & E4).
  { unfold same_core in Hc4. destruct_and! Hc4. simpl in *. split_and!; congruence. }
  destruct ok; simpl; [|by eapply reject_spec].
  apply wp_then. eapply wp_mono; [eapply (or_close_spec false K listener_closing c e4 _ _ Hf4); by eapply start_read_spec|].
  intros ? r5 (e5 & Hf5 & Ha5 & Hn5). apply wp_then.
  eapply wp_mono; [eapply (or_close_spec false K listener_closing c e5 _ _ Hf5)|].
  { eapply wp_mono; [eapply flush_spec; [exact Hf5|apply Ha5]|]. intros ok r6 (e6 & ? & ? & _ & ?). by exists e6. }
  intros ? r6 (e6 & Hf6 & Ha6 & Hn6). eapply rearm_inv.
  - eapply focus_calm; [done|]. eapply fresh_ok; [exact (adv_trans _ _ _ _ _ _ Ha5 Ha6)|done|done|done|by left].
  - eapply near_accepting; [exact Hn6|]. by eapply near_accepting.
Qed.

End Config.
