(* ===== verification/ServerSafety.v ===== *)
(** * What a server keeps and how it ends

    Commands of the application and deadlines, the start and the end of the loop, and
    all callbacks together: a reactor is never in an undefined state.  Several
    reactors share the counter of admitted connections; each of them, once it stops,
    ends after a bounded number of completions. *)

From S2P Require Import Prelude UbLogic ServerReactor ServerInvariant ServerCallbacks ServerLifecycle.

Local Open Scope Z_scope.

Section Config.
Context {cfg : Config}.

Local Abbreviation cell_mid := (@cell_mid cfg).
Local Abbreviation cell_ok := (@cell_ok cfg).
Local Abbreviation frame_inv := (@frame_inv cfg).
Local Abbreviation all_ok := (@all_ok cfg).
Local Abbreviation focus := (@focus cfg).
Local Abbreviation adv := (@adv cfg).
Local Abbreviation moved := (@moved cfg).
Local Abbreviation inv := (@inv cfg).
Local Abbreviation ends := (@ends cfg).
Local Abbreviation calm := (@calm cfg).
Local Abbreviation listens := (@listens cfg).

(** ** Commands and deadlines *)

(** The connections go on, and some become dirty. *)
Definition works (K : Z) (r r' : Reactor) : Prop := calm K listener_closing r' ∧ about r r'.

Lemma works_trans K r1 r2 r3 : works K r1 r2 → works K r2 r3 → works K r1 r3.
Proof. intros [_ H12] [Hc H23]. split; [done|by etrans]. Qed.

Lemma near_works K r r' : calm K listener_closing r' → near r r' → works K r r'.
Proof. intros Hc Hn. split; [done|by apply near_about]. Qed.

Lemma about_live r r' c : about r r' → is_Some (rx_conns r !! c) → is_Some (rx_conns r' !! c).
Proof. intros Ha. exact (near_live _ _ c Ha). Qed.

(** A part that works on one connection *)
Lemma one_works K (m : UB Reactor ()) c r :
  (∀ e r, focus K listener_closing c e r → cell_mid false true e → wp m (λ _, moved false K listener_closing c e r) r) →
  calm K listener_closing r → is_Some (rx_conns r !! c) → wp m (λ _ r', works K r r' ∧ near r r') r.
Proof.
  intros Hm Hr Hc. eapply wp_mono; [by eapply each_moved|]. intros ? r' (Hr' & Hn & _). split; [by apply near_works|done].
Qed.

Lemma close_works K c reason r :
  calm K listener_closing r → is_Some (rx_conns r !! c) → wp (closeWithReason c reason) (λ _, works K r) r.
Proof. intros Hr Hc. eapply wp_mono; [by eapply close_each|]. intros ? r' (Hr' & Hn & _). by apply near_works. Qed.

Lemma enqueue_works K c r :
  calm K listener_closing r → is_Some (rx_conns r !! c) → wp (_ ← enqueueDirtyConnection c; mret ()) (λ _, works K r) r.
Proof.
  intros Hr Hc. destruct (calm_focus K _ r c Hr Hc) as (e & Hf & He). apply wp_then.
  eapply wp_mono; [by eapply enqueueDirty_spec|]. intros ? r' (Hf' & Ha & _). split; [by eapply focus_calm|done].
Qed.

Lemma discard_works K c p r :
  calm K listener_closing r → is_Some (rx_conns r !! c) → wp (discard_commands c p) (λ _, works K r) r.
Proof.
  intros Hr Hc. destruct (calm_focus K _ r c Hr Hc) as (e & Hf & He).
  eapply wp_mono; [by eapply discard_commands_spec|]. intros ? r' (Hf' & Hn & _). apply near_works; [by eapply focus_calm|done].
Qed.

Lemma touch_works K c closes r :
  calm K listener_closing r → is_Some (rx_conns r !! c) → wp (touch c closes) (λ _, works K r) r.
Proof.
  intros Hr Hc. unfold touch. apply wp_then. apply (wp_mono _ (λ _, works K r)).
  { destruct closes; [by apply close_works|done]. }
  intros ? r1 [Hr1 Ha1]. eapply wp_mono; [apply enqueue_works; [done|by eapply about_live]|].
  intros ? r2. by apply works_trans.
Qed.

Lemma abort_loop_works K aborts r : calm K listener_closing r → wp (abort_loop aborts) (λ _, works K r) r.
Proof.
  revert r. induction aborts as [|[[c id] closes] aborts IH]; intros r Hr; simpl; [done|]. apply wp_then, wp_get, wp_then.
  apply (wp_mono _ (λ _, works K r)).
  - destruct (rx_conns r !! c) as [x|] eqn:Ex; [|done]. destruct (streams x !! id); [|done].
    assert (is_Some (rx_conns r !! c)) as Hc by eauto. apply wp_then. eapply wp_mono; [by apply discard_works|].
    intros ? r1 [Hr1 Ha1]. assert (is_Some (rx_conns r1 !! c)) as Hc1 by by eapply about_live.
    destruct closes; (eapply wp_mono; [by (apply close_works || apply enqueue_works)|]); intros ? r2; by apply works_trans.
  - intros ? r1 [Hr1 Ha1]. eapply wp_mono; [by apply IH|]. intros ? r2. by apply works_trans.
Qed.

Lemma command_loop_works K closes commands r :
  calm K listener_closing r → (∀ t, t ∈ commands → is_Some (rx_conns r !! t.1)) →
  wp (command_loop closes commands) (λ _, works K r) r.
Proof.
  revert r. induction commands as [|t commands IH]; intros r Hr Hl; simpl; [done|]. apply wp_then.
  eapply wp_mono; [apply touch_works; [done|apply Hl; left]|]. intros ? r1 [Hr1 Ha1].
  eapply wp_mono; [apply IH; [done|]|].
  - intros t' Ht'. eapply about_live; [done|]. apply Hl. by right.
  - intros ? r2. by apply works_trans.
Qed.

Lemma drain_dirty_spec K lc d c e r :
  focus K lc c e r → cell_mid false true e → wp (drain_dirty cfg d c) (λ _, moved false K lc c e r) r.
Proof.
  intros Hf Hm. unfold drain_dirty. wp_step conn_at_spec as (-> & Hf1 & Hn1 & _).
  case_match; [exists e; split_and!; [done|by apply adv_refl|done]|].
  apply wp_then. eapply wp_mono; [by eapply flush_spec|]. intros ok r2 (e2 & Hf2 & Ha2 & _ & Hn2).
  assert (near r r2) as Hn02 by by etrans. destruct ok; simpl.
  2: { eapply wp_mono; [eapply (closeOnLoop_spec false false); [exact Hf2|apply Ha2]|].
       intros ? r3 (e3 & Hf3 & Ha3 & _ & Hn3 & Hc3 & _). exists e3. split_and!; [done| |by etrans].
       apply adv_exact; [by eapply adv_trans|done]. }
  apply wp_then. eapply wp_mono; [eapply (closeTerminatedSession_spec false true); [exact Hf2|apply Ha2]|].
  intros ? r3 (e3 & Hf3 & Ha3 & _ & Hn3). wp_step conn_at_spec as (-> & Hf4 & Hn4 & _).
  assert (adv false true e e3) as Ha by by eapply adv_trans.
  assert (near r s'0) as Hn by (do 2 (etrans; [eassumption|]); done). case_match; [by exists e3|].
  eapply wp_mono; [eapply (maybeCloseDrained_spec false true); [exact Hf4|apply Ha]|].
  intros ? r5 (e5 & Hf5 & Ha5 & _ & Hn5). exists e5. split_and!; [done|by eapply adv_trans|by etrans].
Qed.

(** The loop empties the queue, and its fuel is enough. *)
Lemma dirty_loop_works K d fuel r :
  calm K listener_closing r → (length (rx_dirty r) < fuel)%nat →
  wp (dirty_loop fuel cfg d) (λ _ r', works K r r' ∧ rx_dirty r' = []) r.
Proof.
  revert r. induction fuel as [|fuel IH]; intros r Hr Hlen; [lia|]. simpl. apply wp_then, wp_get.
  destruct (rx_dirty r) as [|c rest] eqn:Ed; [done|]. simpl in Hlen. apply wp_then, wp_put.
  assert (is_Some (rx_conns r !! c)) as Hc by (apply (fi_dirty _ _ _ (ca_frame _ _ _ Hr)); rewrite Ed; left).
  destruct (calm_focus K _ r c Hr Hc) as (e & Hf & He).
  destruct (focus_dirty K listener_closing c e r rest Hf) as [Hf1 Hn1]; [rewrite Ed; by apply sublist_cons|].
  apply wp_then. eapply wp_mono; [eapply (one_works K _ c); [intros; by eapply drain_dirty_spec|by eapply focus_calm|done]|].
  intros ? r2 [[Hr2 Ha2] Hn2]. eapply wp_mono; [apply IH; [done|]|].
  - pose proof (sublist_length _ _ (nr_dirty _ _ Hn2)). simpl in *. lia.
  - intros ? r3 [Hw Hd]. split; [|done]. eapply works_trans; [|exact Hw]. apply near_works; [done|]. by etrans.
Qed.

Lemma drainDirty_works K d r :
  calm K listener_closing r → wp (drainDirtyConnections cfg d) (λ _ r', works K r r' ∧ rx_dirty r' = []) r.
Proof. intros Hr. unfold drainDirtyConnections. apply wp_then, wp_get. apply dirty_loop_works; [done|lia]. Qed.

Lemma works_ends K r r' : works K r r' → rx_dirty r' = [] → stopok r → ends K r r'.
Proof.
  intros [[Hf Ho] Ha] Hd Hs. split; [|by apply about_settles].
  split; [done|done|by eapply about_stopok|]. intros H. congruence.
Qed.

Lemma process_works K aborts closes d r :
  calm K listener_closing r →
  wp (processStreamCommands cfg aborts closes d) (λ _ r', works K r r' ∧ rx_dirty r' = []) r.
Proof.
  intros Hr. unfold processStreamCommands. apply wp_then. eapply wp_mono; [by apply abort_loop_works|]. intros ? r1 [Hr1 Ha1].
  wp_step lock_spec as (Hf2 & _ & Hl); [apply Hr1|]. rename s' into r2. pose proof (near_lock _ _ Hl) as Hn2.
  assert (calm K listener_closing r2) as Hr2.
  { split; [done|]. intros c e Hc. apply (ca_ok _ _ _ Hr1 c). by apply (after_lock_cells _ _ Hl). }
  apply wp_then, wp_get, wp_then, wp_put.
  assert (calm K listener_closing (r2 <| rx_commands := [] |>)) as Hr3.
  { split; [|apply Hr2]. apply frame_commands; [apply Hr2|]. by intros ? ?%elem_of_nil. }
  apply wp_then. eapply wp_mono; [apply (command_loop_works K closes); [done|]|].
  - intros [c id] Hin. destruct (fi_commands _ _ _ Hf2 c id Hin) as (x & Hx & _). simpl. eauto.
  - intros ? r4 [Hr4 Ha4]. eapply wp_mono; [by apply drainDirty_works|]. intros ? r5 [[Hr5 Ha5] Hd5]. split; [|done].
    split; [done|]. etrans; [exact Ha1|]. etrans; [by apply near_about|]. etrans; [|exact Ha5]. etrans; [|exact Ha4]. by split.
Qed.

Lemma connection_expired_spec K lc c goaway f all_queued e r :
  focus K lc c e r → cell_mid false true e →
  wp (connection_expired cfg c goaway f all_queued) (λ _, moved false K lc c e r) r.
Proof.
  intros Hf Hm. unfold connection_expired. wp_step conn_at_spec as (-> & Hf1 & Hn1 & _).
  assert (∀ e' r', focus K lc c e' r' → adv false true e e' → near r r' → moved false K lc c e r r') as Hmv.
  { intros e' r' ? ? ?. by exists e'. }
  destruct (connection_deadline (conn e)) as [kind|]; [|by apply (Hmv e); [|apply adv_refl|]].
  apply wp_then. eapply (wp_focus_core false true); [exact Hf1|done|done|done|]. intros e2 r2 E2 Hf2 Ha2 Hn2 _.
  case_match; [apply (Hmv e2); [done|done|by etrans]|].
  wp_step lock_spec as (Hf3' & -> & Hl); [apply Hf2|]. rename s'0 into r3.
  pose proof (focus_lock _ _ _ _ _ _ Hf2 Hf3' Hl) as Hf3. pose proof (near_lock _ _ Hl) as Hn3.
  assert (near r r3) as Hn03 by (do 2 (etrans; [eassumption|]); done). case_match; [by apply (Hmv e2)|].
  assert (∀ x e' r0 reason, focus K lc c e' r0 → adv false x e e' → near r r0 →
    wp (closeWithReason c reason) (λ _, moved false K lc c e r) r0) as Hclose.
  { intros x e' r0 reason Hf0 Ha0 Hn0. eapply wp_mono; [eapply (closeWithReason_spec false x); [exact Hf0|apply Ha0]|].
    intros ? r' (e'' & Hf' & Ha' & _ & Hn' & Hc' & _). apply (Hmv e''); [done| |by etrans].
    destruct x; [by eapply adv_trans|]. apply adv_exact; [by eapply adv_trans|done]. }
  destruct kind; [by eapply Hclose|]. case_match; [by apply (Hmv e2)|].
  apply wp_then. eapply wp_mono; [eapply (latch_spec false true); [exact Hf3|apply Ha2]|].
  intros ? r4 (e4 & Hf4 & Ha4 & _ & _ & _ & _ & Hn4 & _). apply wp_then.
  eapply (wp_focus_core false true); [exact Hf4|apply Ha4|done|done|]. intros e5 r5 E5 Hf5 Ha5 Hn5 _.
  assert (adv false true e e5) as Ha05 by (eapply adv_trans; [exact Ha2|]; by eapply adv_trans).
  assert (near r r5) as Hn05 by (do 2 (etrans; [eassumption|]); done). destruct goaway; simpl.
  2: { eapply wp_mono; [eapply (closeOnLoop_spec false true); [exact Hf5|apply Ha05]|].
       intros ? r6 (e6 & Hf6 & Ha6 & _ & Hn6 & _). apply (Hmv e6); [done|by eapply adv_trans|by etrans]. }
  apply wp_then. eapply wp_mono; [eapply flush_spec; [exact Hf5|apply Ha05]|]. intros ok r6 (e6 & Hf6 & Ha6 & _ & Hn6).
  assert (adv false ok e e6) as Ha06 by by eapply adv_trans. assert (near r r6) as Hn06 by by etrans.
  destruct ok; simpl; [|by eapply Hclose]. destruct all_queued; [|by eapply Hclose].
  eapply wp_mono; [eapply (closeGracefully_spec false true); [exact Hf6|apply Ha06]|].
  intros ? r7 (e7 & Hf7 & Ha7 & _ & Hn7). apply (Hmv e7); [done|by eapply adv_trans|by etrans].
Qed.

Lemma stream_expired_works K c id closes r :
  calm K listener_closing r → is_Some (rx_conns r !! c) → wp (stream_expired c id closes) (λ _, works K r) r.
Proof.
  assert (∀ r (m : Connection → UB Reactor ()), calm K listener_closing r → is_Some (rx_conns r !! c) →
    (∀ x r', works K r r' → wp (m x) (λ _, works K r) r') → wp (conn_at c ≫= m) (λ _, works K r) r) as Hat.
  { intros r0 m Hr0 Hc0 Hm. destruct (calm_focus K _ r0 c Hr0 Hc0) as (e & Hf & He).
    wp_step conn_at_spec as (-> & Hf1 & Hn1 & _). apply Hm, near_works; [by eapply focus_calm|done]. }
  intros Hr Hc. unfold stream_expired. apply Hat; [done..|]. intros x r1 [Hr1 Ha1].
  assert (is_Some (rx_conns r1 !! c)) as Hc1 by by eapply about_live. case_match; [done|].
  apply wp_then. eapply wp_mono; [by apply discard_works|]. intros ? r2 [Hr2 Ha2].
  assert (is_Some (rx_conns r2 !! c)) as Hc2 by by eapply about_live.
  apply wp_then. apply (wp_mono _ (λ _, works K r2)); [destruct closes; [by apply close_works|done]|]. intros ? r3 [Hr3 Ha3].
  assert (is_Some (rx_conns r3 !! c)) as Hc3 by by eapply about_live.
  assert (works K r r3) as Hw3 by (split; [done|]; do 2 (etrans; [eassumption|]); done).
  eapply wp_mono; [apply Hat; [done..|]|intros ? r5; by apply works_trans]. intros y r4 Hw4. case_match; [done|].
  assert (is_Some (rx_conns r4 !! c)) as Hc4 by (eapply about_live; [apply Hw4|done]).
  eapply wp_mono; [by apply enqueue_works; [apply Hw4|]|]. intros ? r5. by apply works_trans.
Qed.

Lemma expire_all_works K es r : calm K listener_closing r → wp (expire_all cfg es) (λ _, works K r) r.
Proof.
  revert r. induction es as [|ev es IH]; intros r Hr; [done|].
  assert (∀ m : UB Reactor (), wp m (λ _, works K r) r → wp (_ ← m; expire_all cfg es) (λ _, works K r) r) as Hstep.
  { intros m Hm. apply wp_then. eapply wp_mono; [exact Hm|]. intros ? r1 [Hr1 Ha1].
    eapply wp_mono; [by apply IH|]. intros ? r2. by apply works_trans. }
  destruct ev as [c goaway f all_queued|c id closes]; simpl; apply wp_then, wp_get, Hstep.
  - destruct (rx_conns r !! c) eqn:Ec; [|done].
    eapply wp_mono; [eapply (one_works K _ c); [intros; by eapply connection_expired_spec|done|eauto]|]. by intros ? r' [? _].
  - destruct (rx_conns r !! c ≫= _) eqn:Ec; [|done]. apply stream_expired_works; [done|].
    destruct (rx_conns r !! c); [eauto|done].
Qed.

Lemma cb_deadline K es d r : inv K r → wp (onDeadlineTimer cfg es d) (λ _, ends K r) r.
Proof.
  intros Hi. unfold onDeadlineTimer. apply wp_then. eapply wp_mono; [apply expire_all_works, inv_calm, Hi|].
  intros ? r1 [Hr1 Ha1]. eapply wp_mono; [by apply drainDirty_works|]. intros ? r2 [Hw2 Hd2].
  apply works_ends; [by eapply works_trans; [split|]|done|apply Hi].
Qed.

(** [stream_async] is delivered. *)
Definition stream_heard (failed : bool) (r : Reactor) : Reactor :=
  r <| rx_stream_notified := false |> <| rx_stream_wait := negb failed |>.

Lemma stream_heard_calm K failed r : inv K r → calm K listener_closing (stream_heard failed r).
Proof. intros [Hf Ha _ _]. split; [|done]. destruct Hf. split; try done. by destruct fi_prog. Qed.

Lemma cb_stream K (failed : bool) aborts closes d r :
  inv K r → loop_running r = true → rx_claimed r = false →
  wp (if failed : bool then stopImmediately ProtocolLocal else processStreamCommands cfg aborts closes d)
    (λ _, ends K (stream_heard failed r)) (stream_heard failed r).
Proof.
  intros Hi Hrun Hcl. pose proof (stream_heard_calm K failed r Hi) as Hr1. destruct failed.
  - eapply wp_mono; [eapply stopImmediately_spec; [done|done|exact (inv_initialized _ _ Hi Hrun)|]|by intros ? r' [? _]].
    pose proof (frame_attended K r (iv_frame _ _ Hi)) as []. by split.
  - eapply wp_mono; [by apply process_works|]. intros ? r' [Hw Hd]. apply works_ends; [done|done|]. apply Hi.
Qed.

(** ** The start and the end of the loop *)

Lemma evolves_starting s s' : evolves s s' → state s = Starting → state s' = Starting.
Proof.
  intros He Hs. revert s' He. apply rtc_ind_r; [done|]. intros s1 s2 _ [q ->] IH.
  destruct (shutdownReactor_cases q s1) as [E|[[E1 E]|[[E1 E]|([[E1 E]|[[E1|E1] E]] & _)]]]; congruence.
Qed.

Lemma signalStarted_cases notified s :
  let s' := signalStarted notified s in
  state s' = Running ∨ (state s' = Draining ∨ state s' = Stopping) ∧ notice s'.
Proof.
  unfold signalStarted. destruct (shutdown_request s); simpl; [by left|right..]; (split; [|apply notify_notice]);
    destruct notified; simpl; auto.
Qed.

(** The shared part of a reactor that has not begun or that ends *)
Lemma inv_shared K l w s r :
  inv K r → rx_connections r = [] → rx_claimed r = false → rx_loop_stopped r = true ∨ rx_drain_started r = false →
  listener_inv l → listener_closed l = listener_closed (rx_listener r) →
  (state s = Stopped ∨ rx_loop_stopped r = false ∧ listener_initialized l = true ∧
    (state s = Running ∨ (state s = Draining ∨ state s = Stopping) ∧ notice s)) →
  (rx_drain_started r = true → state s = Stopped ∧ closing_listener l) →
  inv K (r <| rx_listener := l |> <| rx_stream_wait := w |> <| rx_shared := s |>).
Proof.
  intros [Hf Ha Hs Hw] Hco Hcl Hst Hl Hlc Hcase Hds. split; [|done| |done].
  - destruct Hf. split; try done. destruct fi_prog. split; unfold loop_running, noticed in *; simpl; try done.
    + destruct Hcase as [->|(_ & ? & _)]; done.
    + intros H. destruct Hcase as [|(_ & _ & [|[[|] _]])], H; congruence.
    + intros H. destruct (Hds H). auto.
    + intros H1 H2. destruct (Hds H1). congruence.
    + intros H. destruct Hcase as [|(_ & _ & [|[_ ?]])]; [congruence..|auto].
    + intros H. destruct Hcase as [|(_ & _ & [|[_ ?]])]; [congruence..|auto].
    + congruence.
    + intros H. destruct Hcase as [Hs'|(E & _)]; [|congruence]. destruct (pg_stopped H) as (_ & ? & ? & ?).
      split_and!; [auto|done|done|by rewrite Hlc].
    + auto.
  - intros H. simpl in *. destruct Hcase as [|(_ & _ & [|[_ ?]])]; [congruence..|by left].
Qed.

Lemma inv_sched K sched r : inv K r → inv K (r <| rx_sched := sched |>).
Proof. intros [Hf Ha Hs Hw]. split; [|done..]. destruct Hf. split; try done. by destruct fi_prog. Qed.

Lemma cb_start K setup_ok notified r :
  inv K r → state (rx_shared r) = Starting → wp (start_loop setup_ok notified) (λ _, inv K) r.
Proof.
  intros Hi Hst. pose proof Hi as [Hf Ha Hs Hw]. pose proof (fi_prog _ _ _ Hf) as [].
  destruct (pg_idle (or_intror Hst)) as (Hco & Hd & Hcl & _). pose proof (fi_listener _ _ _ Hf) as Hli.
  assert (rx_loop_stopped r = false) as Hnl by (apply not_true_is_false; intros H; destruct (pg_stopped H) as [[|] _]; congruence).
  assert (∀ l w, wp lock (λ _ r', ∃ sched s, state s = Starting ∧
    r' = r <| rx_listener := l |> <| rx_stream_wait := w |> <| rx_sched := sched |> <| rx_shared := s |>)
    (r <| rx_listener := l |> <| rx_stream_wait := w |>)) as Hlock.
  { intros l w. unfold lock, wp, mbind, ub_bind, get. simpl. destruct (rx_sched r) as [|qs sched] eqn:E; simpl.
    - exists [], (rx_shared r). split; [done|]. destruct r. simpl in *. by subst.
    - exists sched, (foldl (λ s q, shutdownReactor q s) (rx_shared r) qs). split; [|done].
      eapply evolves_starting; [|exact Hst]. clear. generalize (rx_shared r) as s0.
      induction qs as [|q qs IH]; intros s0; simpl; [by apply rtc_refl|]. eapply rtc_l; [exists q; reflexivity|apply IH]. }
  unfold start_loop. destruct setup_ok.
  - apply wp_then, wp_modify, wp_then, wp_modify, wp_then.
    set (l := (rx_listener r) <| listener_initialized := true |> <| listener_accept_active := true |> <| op_accept := true |>).
    eapply wp_mono; [exact (Hlock l true)|]. intros ? r' (sched & s & Hss & ->). apply wp_modify.
    assert (inv K (r <| rx_listener := l |> <| rx_stream_wait := true |> <| rx_shared := signalStarted notified s |>)) as Hi'.
    { apply inv_shared; try done; [by right|by destruct Hli| |congruence].
      right. split_and!; [done|done|]. apply signalStarted_cases. }
    exact (inv_sched K sched _ Hi').
  - apply wp_then. pose proof (Hlock (rx_listener r) (rx_stream_wait r)) as Hl0.
    replace (r <| rx_listener := rx_listener r |> <| rx_stream_wait := rx_stream_wait r |>) with r in Hl0 by by destruct r.
    eapply wp_mono; [exact Hl0|]. intros ? r' (sched & s & Hss & ->). apply wp_modify.
    assert (inv K (r <| rx_listener := rx_listener r |> <| rx_stream_wait := rx_stream_wait r |>
      <| rx_shared := s <| state := Stopped |> <| startup_error := true |> |>)) as Hi'.
    { apply inv_shared; try done; [by right|by left|congruence]. }
    exact (inv_sched K sched _ Hi').
Qed.

Lemma cb_end K failed r :
  inv K r → rx_claimed r = false → failed || rx_loop_stopped r = true →
  wp (end_loop failed) (λ _ r', inv K r' ∧ state (rx_shared r') = Stopped ∧ rx_conns r' = rx_conns r ∧ rx_listener r' = rx_listener r) r.
Proof.
  intros Hi Hcl Hst. unfold end_loop. wp_step lock_spec as (Hf1 & -> & Hl); [apply Hi|]. rename s' into r1. apply wp_modify.
  assert (rx_claimed r1 = false ∧ rx_loop_stopped r1 = rx_loop_stopped r ∧ rx_conns r1 = rx_conns r ∧ rx_listener r1 = rx_listener r)
    as (Hcl1 & Est & Ec & El) by by destruct Hl as (? & ? & _ & ->).
  split; [|done]. destruct Hi as [_ Ha Hs Hw]. split; [| |done|by apply (near_wake _ _ (near_lock _ _ Hl))].
  - destruct Hf1. split; try done. destruct fi_prog. split; unfold loop_running; simpl; try done; try congruence.
    + by intros [|].
    + intros H. split; [auto|]. by apply pg_started.
    + intros H. destruct (pg_stopped H) as (_ & ? & ? & ?). auto.
    + intros _. split; [done|]. apply orb_true_iff in Hst as [->|Hst]; [by left|right]. apply pg_stopped. congruence.
  - intros c e Hc. apply (Ha c). by apply (after_lock_cells _ _ Hl).
Qed.

(** ** Winding down *)

(** What is left to be done before the loop can stop *)
Definition total (m : gmap nat Connection) : nat := map_fold (λ _ x n, (weight x + n)%nat) 0%nat m.

Definition rank (r : Reactor) : nat := total (rx_conns r) + lweight (rx_listener r).

(** Callbacks that leave less to be done; the others are of writes and cancellations
    that are started again, of timers and of notifications. *)
Definition productive (r : Reactor) (cb : Callback) : bool :=
  match cb with
  | CbAccept _ | CbAcceptCanceled | CbListenerClosed _ | CbRead _ _ | CbReadCanceled _ | CbConnectionClosed _ => true
  | CbWrite _ (WritePartial _) _ => false
  | CbWrite _ _ _ => true
  | CbWriteCanceled c not_found => negb (not_found && op_write (ops_of r c))
  | _ => false
  end.

(** The reactor is stopping, and has taken notice of it. *)
Record winding (r : Reactor) : Prop := { wd_state : state (rx_shared r) = Stopping; wd_wound : wound r }.

Lemma total_forget m c x : m !! c = Some x → total m = (weight x + total (delete c m))%nat.
Proof. intros Hx. unfold total. apply (map_fold_delete_L (λ _ x n, (weight x + n)%nat)); [intros; lia|done]. Qed.

Lemma total_le m m' :
  (∀ c y, m' !! c = Some y → ∃ x, m !! c = Some x ∧ (weight y ≤ weight x)%nat) → (total m' ≤ total m)%nat.
Proof.
  revert m. induction m' as [|c y m' Hc IH] using map_ind; intros m Hm; [unfold total at 1; rewrite map_fold_empty; lia|].
  destruct (Hm c y) as (x & Hx & Hw); [by rewrite lookup_insert_eq|].
  rewrite (total_forget m c x Hx), (total_forget (<[c:=y]> m') c y) by by rewrite lookup_insert_eq.
  rewrite delete_insert_id by done. assert (total m' ≤ total (delete c m))%nat; [|lia]. apply IH. intros c' y' Hy'.
  assert (c' ≠ c) by congruence. destruct (Hm c' y') as (x' & Hx' & ?); [by rewrite lookup_insert_ne|].
  exists x'. by rewrite lookup_delete_ne.
Qed.

Lemma shrinks_total r r' : wound r → shrinks r r' → (total (rx_conns r') ≤ total (rx_conns r))%nat.
Proof.
  intros Hw Hs. apply total_le. intros c y Hy. destruct (Hs c y Hy) as (x & Hx & Ht). exists x. split; [done|].
  apply weight_le, Ht. by apply (wo_closing _ Hw c).
Qed.

Lemma drops_total c x r r' :
  wound r → shrinks r r' → drops c r r' → rx_conns r !! c = Some x → (0 < weight x)%nat →
  (total (rx_conns r') < total (rx_conns r))%nat.
Proof.
  intros Hw Hs Hd Hx Hpos. rewrite (total_forget _ _ _ Hx). pose proof (wo_closing _ Hw c x Hx) as Hc.
  assert (total (delete c (rx_conns r')) ≤ total (delete c (rx_conns r)))%nat as Hle.
  { apply total_le. intros c' y [Hne Hy]%lookup_delete_Some. destruct (Hs c' y Hy) as (x' & Hx' & Ht). exists x'.
    split; [by apply lookup_delete_Some|]. apply weight_le, Ht. by apply (wo_closing _ Hw c'). }
  destruct (rx_conns r' !! c) as [y|] eqn:Ey.
  - rewrite (total_forget _ _ _ Ey). specialize (Hd x y Hx Ey Hc). lia.
  - rewrite (delete_id _ _ Ey) in Hle. lia.
Qed.

Lemma shrinks_closing r r' : wound r → shrinks r r' → ∀ c y, rx_conns r' !! c = Some y → closing y = true.
Proof. intros Hw Hs c y Hy. destruct (Hs c y Hy) as (x & Hx & Ht). apply Ht. by apply (wo_closing _ Hw c). Qed.

Lemma ends_winding K r r' : winding r → ends K r r' → winding r' ∧ rx_listener r' = rx_listener r ∧ (rank r' ≤ rank r)%nat.
Proof.
  intros [Hst Hw] [_ [Hsh Hs]]. destruct (Hs Hst) as (E1 & E2 & E3 & Hh). specialize (E3 (wo_listener _ Hw)).
  split_and!; [|done|unfold rank; rewrite E3; pose proof (shrinks_total _ _ Hw Hsh); lia].
  split; [by rewrite E1|]. split; [rewrite E3; apply Hw|by eapply shrinks_closing|rewrite E2; apply Hw|apply Hh, Hw].
Qed.

Lemma progress_winding K c x r r' :
  winding r → ends K r r' → drops c r r' → rx_conns r !! c = Some x → (0 < weight x)%nat → winding r' ∧ (rank r' + 1 ≤ rank r)%nat.
Proof.
  intros Hwd He Hd Hx Hpos. destruct (ends_winding K r r' Hwd He) as (Hwd' & El & _). split; [done|].
  unfold rank. rewrite El. destruct He as [_ [Hsh _]]. pose proof (drops_total c x r r' (wd_wound _ Hwd) Hsh Hd Hx Hpos). lia.
Qed.

Lemma listens_winding K r r' : winding r → listens K r r' → winding r' ∧ (rank r' + 1 ≤ rank r)%nat.
Proof.
  intros [Hst Hw] (_ & Hsh & Hl). destruct (Hl Hst (wo_listener _ Hw)) as (E1 & E2 & Hcl & Hh & Hlt). split.
  - split; [by rewrite E1|]. split; [done|by eapply shrinks_closing|rewrite E2; apply Hw|apply Hh, Hw].
  - unfold rank. pose proof (shrinks_total _ _ Hw Hsh). lia.
Qed.

(** While a connection exists, something is left to be done for it. *)
Lemma settled_weight x : settled x → (0 < weight x)%nat.
Proof.
  intros []. unfold weight. destruct (close_completed x); [|simpl; lia].
  destruct (se_completed eq_refl) as [-> | ->]; simpl; lia.
Qed.

Lemma live_op K r c op : inv K r → op no_ops = false → op (ops_of r c) = true → ∃ x, rx_conns r !! c = Some x ∧ (0 < weight x)%nat.
Proof.
  intros Hi Hno Hop. destruct (inv_live K r c Hi) as (e & [Hc _] & He); [intros E; congruence|].
  exists (conn e). split; [done|]. apply settled_weight, He.
Qed.

(** ** All callbacks *)

(** A step keeps the invariant, and a reactor that winds down goes on with that. *)
Definition steps (K : Z) (cb : Callback) (r r' : Reactor) : Prop :=
  inv K r' ∧ (winding r → (match cb with CbEnd _ => state (rx_shared r') = Stopped | _ => winding r' end) ∧
    (rank r' + Nat.b2n (productive r cb) ≤ rank r)%nat).

Lemma not_end (P Q : Prop) cb : (∀ b, cb ≠ CbEnd b) → Q → match cb with CbEnd _ => P | _ => Q end.
Proof. intros Hne HQ. destruct cb; try done. exfalso. by eapply Hne. Qed.

Lemma ends_steps K cb r0 r r' :
  ends K r0 r' → (winding r → winding r0) → rank r0 = rank r → productive r cb = false → (∀ b, cb ≠ CbEnd b) → steps K cb r r'.
Proof.
  intros He Hw Hr Hp Hne. split; [apply He|]. intros Hwd. destruct (ends_winding K r0 r' (Hw Hwd) He) as (Hwd' & _ & Hle).
  rewrite Hp. simpl. split; [by apply not_end|lia].
Qed.

Lemma drops_steps K cb c x r r' :
  ends K r r' → (productive r cb = true → drops c r r') → rx_conns r !! c = Some x → (0 < weight x)%nat → (∀ b, cb ≠ CbEnd b) →
  steps K cb r r'.
Proof.
  intros He Hd Hx Hpos Hne. split; [apply He|]. intros Hwd. destruct (productive r cb) eqn:Ep.
  - destruct (progress_winding K c x r r' Hwd He (Hd eq_refl) Hx Hpos). split; [by apply not_end|done].
  - destruct (ends_winding K r r' Hwd He) as (? & _ & ?). split; [by apply not_end|simpl; lia].
Qed.

Lemma listens_steps K cb r r' : listens K r r' → (∀ b, cb ≠ CbEnd b) → steps K cb r r'.
Proof.
  intros Hl Hne. split; [apply Hl|]. intros Hwd. destruct (listens_winding K r r' Hwd Hl) as [? ?].
  split; [by apply not_end|]. destruct (productive r cb); simpl; lia.
Qed.

Lemma idle_steps K cb r r' : inv K r' → ¬ winding r → steps K cb r r'.
Proof. by split. Qed.

Lemma claimed_not_winding r : rx_claimed r = true → ¬ winding r.
Proof. intros H [_ Hw]. rewrite (wo_claimed _ Hw) in H. done. Qed.

Lemma callback_spec K cb r :
  0 < write_high_watermark_bytes cfg → inv K r → enabled r cb = true → wp (callback cfg cb) (λ _, steps K cb r) r.
Proof.
  intros Hhigh Hi He.
  assert (∀ b, loop_running r && negb (rx_claimed r) && b = true → loop_running r = true ∧ rx_claimed r = false ∧ b = true) as Hen.
  { intros b. rewrite !andb_true_iff, negb_true_iff. tauto. }
  destruct cb as [setup_ok notified|accepted|a| |d|c result|c result notified|c|c not_found|c|d|failed aborts closes d|es d|failed|failed].
  all: simpl in He; try (apply Hen in He as (Hrun & Hcl & Hop)); simpl.
  - apply bool_decide_eq_true in He. eapply wp_mono; [by eapply cb_start|]. intros ? r' ?. apply idle_steps; [done|]. intros []. congruence.
  - eapply wp_mono; [by eapply cb_accept|]. intros ? r' Hl. by apply listens_steps.
  - rewrite !andb_true_iff in He. destruct He as [[Hrun Hcl] Ha]. eapply wp_mono; [apply cb_admit; try done|].
    + intros c Hc. rewrite Hc in Ha. by apply bool_decide_eq_true in Ha.
    + intros ? r' ?. apply idle_steps; [done|by apply claimed_not_winding].
  - eapply wp_mono; [by eapply cb_accept_canceled|]. intros ? r' Hl. by apply listens_steps.
  - eapply wp_mono; [by eapply cb_listener_closed|]. intros ? r' Hl. by apply listens_steps.
  - destruct (live_op K r c op_read Hi eq_refl Hop) as (x & Hx & Hpos). eapply wp_mono; [by eapply cb_read|].
    intros ? r' [? ?]. by eapply drops_steps.
  - destruct (live_op K r c op_write Hi eq_refl Hop) as (x & Hx & Hpos). eapply wp_mono; [by eapply cb_write|].
    intros ? r' [? ?]. eapply drops_steps; [done| |done..]. by destruct result.
  - destruct (live_op K r c op_read_cancel Hi eq_refl Hop) as (x & Hx & Hpos). eapply wp_mono; [by eapply cb_read_canceled|].
    intros ? r' [? ?]. by eapply drops_steps.
  - destruct (live_op K r c op_write_cancel Hi eq_refl Hop) as (x & Hx & Hpos). eapply wp_mono; [by eapply cb_write_canceled|].
    intros ? r' [? Hd]. eapply drops_steps; [done| |done..]. simpl. intros Hp%negb_true_iff. by apply Hd.
  - destruct (live_op K r c op_close Hi eq_refl Hop) as (x & Hx & Hpos). eapply wp_mono; [by eapply cb_connection_closed|].
    intros ? r' [? ?]. by eapply drops_steps.
  - apply wp_then, wp_modify. eapply wp_mono; [by eapply cb_shutdown|]. intros ? r' [? _].
    eapply ends_steps; [done| |done|done|done]. intros [? []]. by split.
  - apply wp_then, wp_modify. eapply wp_mono; [by eapply cb_stream|]. intros ? r' Hend.
    eapply ends_steps; [exact Hend| |done|done|done]. intros [? []]. by split.
  - eapply wp_mono; [by eapply cb_deadline|]. intros ? r' Hend. by eapply ends_steps; [exact Hend|..].
  - apply wp_then, wp_modify. eapply wp_mono; [by eapply cb_drain_timeout|]. intros ? r' [? _].
    eapply ends_steps; [done| |done|done|done]. intros [? []]. unfold timer_gone. destruct failed; by split.
  - eapply wp_mono; [by eapply cb_end|]. intros ? r' (Hi' & Est & E1 & E2). split; [done|]. intros Hwd. split; [done|].
    unfold rank. rewrite E1, E2. simpl. lia.
Qed.

End Config.
