(* ===== verification/ServerRequests.v ===== *)
(** * No shutdown request is lost

    What a reactor has heard of a shutdown only grows, whatever its callbacks do. *)

From S2P Require Import Prelude UbLogic ServerReactor ServerInvariant ServerCallbacks ServerLifecycle ServerSafety.

Local Open Scope Z_scope.

Definition request_level (q : ShutdownRequest) : nat := match q with NoShutdown => 0 | Graceful => 1 | Immediate => 2 end.

(** How far a reactor is with shutting down *)
Definition level (s : Shared) : nat :=
  match state s with
  | Initialized | Running => 0
  | Starting => request_level (shutdown_request s)
  | Draining => 1
  | Stopping | Stopped => 2
  end.

Lemma request_level_le q : (request_level q ≤ 2)%nat.
Proof. destruct q; simpl; lia. Qed.

Lemma level_le s : (level s ≤ 2)%nat.
Proof. unfold level. pose proof (request_level_le (shutdown_request s)). destruct (state s); lia. Qed.

Lemma level_notify b s : level (notifyShutdown b s) = level s.
Proof. by destruct b. Qed.

Lemma level_request q s :
  (level s ≤ level (shutdownReactor q s) ∧ (rq_request q ≠ NoShutdown → request_level (rq_request q) ≤ level (shutdownReactor q s)))%nat.
Proof.
  pose proof (request_level_le (rq_request q)). pose proof (request_level_le (shutdown_request s)).
  unfold shutdownReactor. destruct (state s) eqn:Es.
  - unfold level. rewrite Es. simpl. lia.
  - destruct (rq_request q), (shutdown_request s) eqn:Er; unfold level; simpl; rewrite ?Es, ?Er; simpl; split; intros; try lia; done.
  - rewrite level_notify. unfold level. rewrite Es. simpl. destruct (rq_request q); simpl; split; intros; try lia; done.
  - destruct (rq_request q); simpl; rewrite ?level_notify; unfold level; simpl; rewrite ?Es; split; intros; try lia; done.
  - unfold level. rewrite Es. lia.
  - unfold level. rewrite Es. lia.
Qed.

Lemma level_evolves s s' : evolves s s' → (level s ≤ level s')%nat.
Proof. revert s'. apply rtc_ind_r; [done|]. intros s1 s2 _ [q ->] IH. pose proof (level_request q s1). lia. Qed.

(** [m] does not go below level [n]. *)
Definition keeps {A} (n : nat) (m : UB Reactor A) : Prop :=
  ∀ r, (n ≤ level (rx_shared r))%nat → match m r with Some (_, r') => (n ≤ level (rx_shared r'))%nat | None => True end.

Create HintDb keeps.

Section Rules.
Context {A B : Type} (n : nat).

Lemma keep_ret (a : A) : keeps n (mret a).
Proof. by intros r Hr. Qed.

Lemma keeps_undefined : keeps n (undefined : UB Reactor A).
Proof. by intros r Hr. Qed.

Lemma keep_bind (m : UB Reactor A) (k : A → UB Reactor B) : keeps n m → (∀ a, keeps n (k a)) → keeps n (m ≫= k).
Proof.
  intros Hm Hk r Hr. unfold mbind, ub_bind. specialize (Hm r Hr). destruct (m r) as [[a r1]|]; [|done]. by apply Hk.
Qed.

Lemma keeps_get (k : Reactor → UB Reactor B) :
  (∀ r, (n ≤ level (rx_shared r))%nat → keeps n (k r)) → keeps n (get ≫= k).
Proof. intros Hk r Hr. exact (Hk r Hr r Hr). Qed.

Lemma keeps_put r : (n ≤ level (rx_shared r))%nat → keeps n (put r).
Proof. by intros Hr r' _. Qed.

Lemma keep_modify f : (∀ r, (n ≤ level (rx_shared r) → n ≤ level (rx_shared (f r)))%nat) → keeps n (modify f).
Proof. intros Hf r Hr. exact (Hf r Hr). Qed.

Lemma keeps_on_conn c (m : UB Cell A) : keeps n (on_conn c m).
Proof. intros r Hr. unfold on_conn. destruct (rx_conns r !! c); [|done]. by destruct (m _) as [[a e]|]. Qed.

Lemma keeps_check b : keeps n (check b).
Proof. by destruct b; intros r Hr. Qed.

Lemma keeps_lock : keeps n lock.
Proof.
  intros r Hr. unfold lock, mbind, ub_bind, get, put, mret, ub_ret. destruct (rx_sched r) as [|qs sched]; [done|]. simpl.
  etrans; [exact Hr|]. clear. generalize (rx_shared r) as s. induction qs as [|q qs IH]; intros s; simpl; [done|].
  etrans; [|apply IH]. apply level_request.
Qed.

Lemma keeps_stop f : (∀ s, state (f s) = Stopping ∨ state (f s) = Stopped) → keeps n (modify (λ r, r <| rx_shared := f (rx_shared r) |>)).
Proof.
  intros Hf. apply keep_modify. intros r Hr. simpl. pose proof (level_le (rx_shared r)). unfold level at 1.
  destruct (Hf (rx_shared r)) as [-> | ->]; lia.
Qed.
End Rules.

#[export] Hint Resolve keep_ret keeps_undefined keeps_put keeps_on_conn keeps_check keeps_lock : keeps.

(** Through the structure of a function; what it calls is in the database. *)
Ltac keeps :=
  repeat match goal with
  | |- ∀ _, _ => intros ?
  | |- keeps _ (get ≫= _) => apply keeps_get
  | |- keeps _ (_ ≫= _) => apply keep_bind
  | |- keeps _ (modify (λ r, r <| rx_shared := _ |>)) => solve [apply keeps_stop; auto]
  | |- keeps _ (modify _) => by apply keep_modify
  | |- keeps _ (put _) => by apply keeps_put
  | |- keeps _ (match ?x with _ => _ end) => destruct x
  | |- _ => progress eauto with keeps
  end.

(** ** The functions of a reactor *)

Lemma keeps_conn_at n c : keeps n (conn_at c).
Proof. unfold conn_at. keeps. Qed.
#[export] Hint Resolve keeps_conn_at : keeps.

Lemma keeps_removeDirtyConnection n c : keeps n (removeDirtyConnection c).
Proof. unfold removeDirtyConnection. keeps. Qed.
#[export] Hint Resolve keeps_removeDirtyConnection : keeps.

Lemma keeps_enqueueDirtyConnection n c : keeps n (enqueueDirtyConnection c).
Proof. unfold enqueueDirtyConnection. keeps. Qed.
#[export] Hint Resolve keeps_enqueueDirtyConnection : keeps.

Lemma keeps_discard_commands n c p : keeps n (discard_commands c p).
Proof. unfold discard_commands. keeps. Qed.
#[export] Hint Resolve keeps_discard_commands : keeps.

Lemma keeps_cancel_streams n c : keeps n (cancel_streams c).
Proof. unfold cancel_streams. keeps. Qed.
#[export] Hint Resolve keeps_cancel_streams : keeps.

Lemma keeps_closeOnLoop n c : keeps n (closeOnLoop c).
Proof. unfold closeOnLoop. keeps. Qed.
#[export] Hint Resolve keeps_closeOnLoop : keeps.

Lemma keeps_closeWithReason n c reason : keeps n (closeWithReason c reason).
Proof. unfold closeWithReason. keeps. Qed.
#[export] Hint Resolve keeps_closeWithReason : keeps.

Lemma keeps_closeGracefully n c : keeps n (closeGracefully c).
Proof. unfold closeGracefully. keeps. Qed.
#[export] Hint Resolve keeps_closeGracefully : keeps.

Lemma keeps_closeTerminatedSession n c want : keeps n (closeTerminatedSession c want).
Proof. unfold closeTerminatedSession. keeps. Qed.
#[export] Hint Resolve keeps_closeTerminatedSession : keeps.

Lemma keeps_maybeCloseDrainedConnection n c : keeps n (maybeCloseDrainedConnection c).
Proof. unfold maybeCloseDrainedConnection. keeps. Qed.
#[export] Hint Resolve keeps_maybeCloseDrainedConnection : keeps.

Lemma keeps_maybeStopLoop n : keeps n (maybeStopLoop).
Proof. unfold maybeStopLoop. keeps. Qed.
#[export] Hint Resolve keeps_maybeStopLoop : keeps.

Lemma keeps_finishDrainIfIdle n : keeps n (finishDrainIfIdle).
Proof. unfold finishDrainIfIdle. keeps. Qed.
#[export] Hint Resolve keeps_finishDrainIfIdle : keeps.

Lemma keeps_releaseConnection n cfg : keeps n (releaseConnection cfg).
Proof. unfold releaseConnection. keeps. Qed.
#[export] Hint Resolve keeps_releaseConnection : keeps.

Lemma keeps_destroy_connection n c : keeps n (destroy_connection c).
Proof. unfold destroy_connection. keeps. Qed.
#[export] Hint Resolve keeps_destroy_connection : keeps.

Lemma keeps_retire_streams n c : keeps n (retire_streams c).
Proof. unfold retire_streams. keeps. Qed.
#[export] Hint Resolve keeps_retire_streams : keeps.

Lemma keeps_finishCloseIfReady n cfg c : keeps n (finishCloseIfReady cfg c).
Proof. unfold finishCloseIfReady. keeps. Qed.
#[export] Hint Resolve keeps_finishCloseIfReady : keeps.

Lemma keeps_armIdleDeadline n c memory : keeps n (armIdleDeadline c memory).
Proof. unfold armIdleDeadline. keeps. Qed.
#[export] Hint Resolve keeps_armIdleDeadline : keeps.

Lemma keeps_onBeginHeaders n cfg c id memory : keeps n (onBeginHeaders cfg c id memory).
Proof. unfold onBeginHeaders. keeps. Qed.
#[export] Hint Resolve keeps_onBeginHeaders : keeps.

Lemma keeps_onSettings n c memory : keeps n (onSettings c memory).
Proof. unfold onSettings. keeps. Qed.
#[export] Hint Resolve keeps_onSettings : keeps.

Lemma keeps_onStreamClose n c id memory : keeps n (onStreamClose c id memory).
Proof. unfold onStreamClose. keeps. Qed.
#[export] Hint Resolve keeps_onStreamClose : keeps.

Lemma keeps_stream_event n c e : keeps n (stream_event c e).
Proof. unfold stream_event. keeps. Qed.
#[export] Hint Resolve keeps_stream_event : keeps.

Lemma keeps_recv_event n cfg c e : keeps n (recv_event cfg c e).
Proof. unfold recv_event. keeps. Qed.
#[export] Hint Resolve keeps_recv_event : keeps.

Lemma keeps_all_events {E} n (f : E → UB Reactor bool) es : (∀ e, keeps n (f e)) → keeps n (all_events f es).
Proof. intros Hf. induction es; simpl; keeps. Qed.
#[export] Hint Resolve keeps_all_events : keeps.

Lemma keeps_flush_chunk n c batch data fault : keeps n (flush_chunk c batch data fault).
Proof. unfold flush_chunk. destruct (batch_append batch data). keeps. Qed.
#[export] Hint Resolve keeps_flush_chunk : keeps.

Lemma keeps_flush_loop n cfg c steps batch : keeps n (flush_loop cfg c steps batch).
Proof. revert batch. induction steps as [|[] ? ?]; intros batch; simpl; keeps. Qed.
#[export] Hint Resolve keeps_flush_loop : keeps.

Lemma keeps_flush n cfg c f : keeps n (flush cfg c f).
Proof. unfold flush. keeps. Qed.
#[export] Hint Resolve keeps_flush : keeps.

Lemma keeps_or_close n c m : keeps n m → keeps n (or_close c m).
Proof. intros Hm. unfold or_close. keeps. Qed.
#[export] Hint Resolve keeps_or_close : keeps.

Lemma keeps_set_listener n f : keeps n (set_listener f).
Proof. unfold set_listener. keeps. Qed.
#[export] Hint Resolve keeps_set_listener : keeps.

Lemma keeps_closeListener n : keeps n (closeListener).
Proof. unfold closeListener. keeps. Qed.
#[export] Hint Resolve keeps_closeListener : keeps.

Lemma keeps_rearmListener n : keeps n (rearmListener).
Proof. unfold rearmListener. keeps. Qed.
#[export] Hint Resolve keeps_rearmListener : keeps.

Lemma keeps_isAccepting n : keeps n (isAccepting).
Proof. unfold isAccepting. keeps. Qed.
#[export] Hint Resolve keeps_isAccepting : keeps.

Lemma keeps_tryClaimConnection n cfg : keeps n (tryClaimConnection cfg).
Proof. unfold tryClaimConnection. keeps. Qed.
#[export] Hint Resolve keeps_tryClaimConnection : keeps.

Lemma keeps_onConnection_claim n cfg accepted : keeps n (onConnection_claim cfg accepted).
Proof. unfold onConnection_claim. keeps. Qed.
#[export] Hint Resolve keeps_onConnection_claim : keeps.

Lemma keeps_create_connection n c : keeps n (create_connection c).
Proof. unfold create_connection. keeps. Qed.
#[export] Hint Resolve keeps_create_connection : keeps.

Lemma keeps_onConnection_admitted n cfg a : keeps n (onConnection_admitted cfg a).
Proof. unfold onConnection_admitted. keeps. Qed.
#[export] Hint Resolve keeps_onConnection_admitted : keeps.

Lemma keeps_for_each n f l : (∀ c, keeps n (f c)) → keeps n (for_each f l).
Proof. intros Hf. induction l; simpl; keeps. Qed.
#[export] Hint Resolve keeps_for_each : keeps.

Lemma keeps_stopImmediately n reason : keeps n (stopImmediately reason).
Proof. unfold stopImmediately. keeps. Qed.
#[export] Hint Resolve keeps_stopImmediately : keeps.

Lemma keeps_drain_connection n cfg d c : keeps n (drain_connection cfg d c).
Proof. unfold drain_connection. keeps. Qed.
#[export] Hint Resolve keeps_drain_connection : keeps.

Lemma keeps_beginDrain n cfg d : keeps n (beginDrain cfg d).
Proof. unfold beginDrain. keeps. Qed.
#[export] Hint Resolve keeps_beginDrain : keeps.

Lemma keeps_read_bytes n cfg c events consumed f want memory : keeps n (read_bytes cfg c events consumed f want memory).
Proof. unfold read_bytes. keeps. Qed.
#[export] Hint Resolve keeps_read_bytes : keeps.

Lemma keeps_onRead n cfg c result : keeps n (onRead cfg c result).
Proof. unfold onRead. keeps. Qed.
#[export] Hint Resolve keeps_onRead : keeps.

Lemma keeps_onWrite n cfg c bytes written notified : keeps n (onWrite cfg c bytes written notified).
Proof. unfold onWrite. keeps. Qed.
#[export] Hint Resolve keeps_onWrite : keeps.

Lemma keeps_write_callback n cfg c result notified : keeps n (write_callback cfg c result notified).
Proof. unfold write_callback. keeps. Qed.
#[export] Hint Resolve keeps_write_callback : keeps.

Lemma keeps_onReadCanceled n cfg c : keeps n (onReadCanceled cfg c).
Proof. unfold onReadCanceled. keeps. Qed.
#[export] Hint Resolve keeps_onReadCanceled : keeps.

Lemma keeps_onWriteCanceled n cfg c not_found : keeps n (onWriteCanceled cfg c not_found).
Proof. unfold onWriteCanceled. keeps. Qed.
#[export] Hint Resolve keeps_onWriteCanceled : keeps.

Lemma keeps_onConnectionClosed n cfg c : keeps n (onConnectionClosed cfg c).
Proof. unfold onConnectionClosed. keeps. Qed.
#[export] Hint Resolve keeps_onConnectionClosed : keeps.

Lemma keeps_onShutdown n cfg d : keeps n (onShutdown cfg d).
Proof. unfold onShutdown. keeps. Qed.
#[export] Hint Resolve keeps_onShutdown : keeps.

Lemma keeps_onDrainTimeout n failed : keeps n (onDrainTimeout failed).
Proof. unfold onDrainTimeout. keeps. Qed.
#[export] Hint Resolve keeps_onDrainTimeout : keeps.

Lemma keeps_onListenerAcceptCanceled n : keeps n (onListenerAcceptCanceled).
Proof. unfold onListenerAcceptCanceled. keeps. Qed.
#[export] Hint Resolve keeps_onListenerAcceptCanceled : keeps.

Lemma keeps_onListenerClosed n cfg d : keeps n (onListenerClosed cfg d).
Proof. unfold onListenerClosed. keeps. Qed.
#[export] Hint Resolve keeps_onListenerClosed : keeps.

Lemma keeps_drain_dirty n cfg d c : keeps n (drain_dirty cfg d c).
Proof. unfold drain_dirty. keeps. Qed.
#[export] Hint Resolve keeps_drain_dirty : keeps.

Lemma keeps_dirty_loop n fuel cfg d : keeps n (dirty_loop fuel cfg d).
Proof. induction fuel; simpl; keeps. Qed.
#[export] Hint Resolve keeps_dirty_loop : keeps.

Lemma keeps_drainDirtyConnections n cfg d : keeps n (drainDirtyConnections cfg d).
Proof. unfold drainDirtyConnections. keeps. Qed.
#[export] Hint Resolve keeps_drainDirtyConnections : keeps.

Lemma keeps_touch n c closes : keeps n (touch c closes).
Proof. unfold touch. keeps. Qed.
#[export] Hint Resolve keeps_touch : keeps.

Lemma keeps_abort_loop n aborts : keeps n (abort_loop aborts).
Proof. induction aborts as [|[[] ?] ? ?]; simpl; keeps. Qed.
#[export] Hint Resolve keeps_abort_loop : keeps.

Lemma keeps_command_loop n closes commands : keeps n (command_loop closes commands).
Proof. induction commands; simpl; keeps. Qed.
#[export] Hint Resolve keeps_command_loop : keeps.

Lemma keeps_processStreamCommands n cfg aborts closes d : keeps n (processStreamCommands cfg aborts closes d).
Proof. unfold processStreamCommands. keeps. Qed.
#[export] Hint Resolve keeps_processStreamCommands : keeps.

Lemma keeps_connection_expired n cfg c goaway f all_queued : keeps n (connection_expired cfg c goaway f all_queued).
Proof. unfold connection_expired. keeps. Qed.
#[export] Hint Resolve keeps_connection_expired : keeps.

Lemma keeps_stream_expired n c id closes : keeps n (stream_expired c id closes).
Proof. unfold stream_expired. keeps. Qed.
#[export] Hint Resolve keeps_stream_expired : keeps.

Lemma keeps_expire_all n cfg es : keeps n (expire_all cfg es).
Proof. induction es as [|[] ? ?]; simpl; keeps. Qed.
#[export] Hint Resolve keeps_expire_all : keeps.

Lemma keeps_onDeadlineTimer n cfg es d : keeps n (onDeadlineTimer cfg es d).
Proof. unfold onDeadlineTimer. keeps. Qed.
#[export] Hint Resolve keeps_onDeadlineTimer : keeps.

Lemma keeps_end_loop n failed : keeps n (end_loop failed).
Proof.
  unfold end_loop. keeps. apply keep_modify. intros r Hr. pose proof (level_le (rx_shared r)). unfold level. simpl. lia.
Qed.
#[export] Hint Resolve keeps_end_loop : keeps.

Lemma keeps_deliver n c f : keeps n (deliver c f).
Proof. unfold deliver. keeps. Qed.
#[export] Hint Resolve keeps_deliver : keeps.

(** ** All callbacks *)

Lemma level_signal notified s : state s = Starting → level (signalStarted notified s) = level s.
Proof.
  intros Hs. unfold signalStarted. destruct (shutdown_request s) eqn:E; rewrite ?level_notify; unfold level; simpl; rewrite Hs, E; done.
Qed.

Lemma lock_starting r s r' : lock r = Some (s, r') → state (rx_shared r) = Starting → state (rx_shared r') = Starting.
Proof.
  unfold lock, mbind, ub_bind, get, put, mret, ub_ret. destruct (rx_sched r) as [|qs sched]; [congruence|].
  intros [= <- <-] Hs. simpl. eapply evolves_starting; [|exact Hs]. clear Hs. generalize (rx_shared r) as s0.
  induction qs as [|q qs IH]; intros s0; simpl; [by apply rtc_refl|]. eapply rtc_l; [exists q; reflexivity|apply IH].
Qed.

Lemma start_level setup_ok notified r r' :
  state (rx_shared r) = Starting → start_loop setup_ok notified r = Some ((), r') →
  (level (rx_shared r) ≤ level (rx_shared r'))%nat.
Proof.
  intros Hs. unfold start_loop. destruct setup_ok.
  - unfold mbind, ub_bind, set_listener, modify, get, put. simpl.
    match goal with |- context [lock ?r0] => set (r1 := r0); pose proof (keeps_lock (level (rx_shared r)) r1 (le_n _)) as Hk end.
    destruct (lock r1) as [[s r2]|] eqn:E; [|done]. intros [= <-]. simpl. by rewrite level_signal by by eapply lock_starting.
  - pose proof (level_le (rx_shared r)). unfold mbind, ub_bind, modify, get, put. destruct (lock r) as [[s r1]|]; [|done]. intros [= <-].
    simpl. unfold level at 2. simpl. lia.
Qed.

Lemma callback_level cfg cb r r' :
  enabled r cb = true → callback cfg cb r = Some ((), r') → (level (rx_shared r) ≤ level (rx_shared r'))%nat.
Proof.
  intros He Hc. assert (keeps (level (rx_shared r)) (callback cfg cb) ∨ ∃ b1 b2, cb = CbStart b1 b2) as [Hk|(b1 & b2 & ->)].
  { destruct cb; simpl; [right; eauto|left..]; keeps.
    apply keep_modify. intros r0 Hr0. simpl. by destruct failed. }
  - specialize (Hk r (le_n _)). by rewrite Hc in Hk.
  - simpl in He. apply bool_decide_eq_true in He. by eapply start_level.
Qed.
