(* ===== verification/ServerCoordinator.v ===== *)
(** * The coordinator of a server

    Starting, shutting down and waiting for a server with several reactors, from
    [src/server.zig]: the threads that call [start], [shutdown] or
    [shutdownGracefully] and [wait], and the threads of the reactors, in small steps.
    A step is what a thread does between two points where it takes a lock or waits.

    The reactors share [admitted_connections]; a step of one of them sees the value
    that the others left.  [start] and [wait] are not called at the same time, which
    [grpc_lite.h] requires.  In the middle of a callback, requests may come at every
    point where the lock of the reactor is taken (the argument [sched] of a step). *)

From S2P Require Import Prelude UbLogic ServerReactor.

Local Open Scope Z_scope.

(** Where the thread that called [start] is: about to launch a reactor, to tell one that
    was launched of an earlier request to shut down, or to wait for one to come up; or
    undoing everything after an error, which shuts reactors down and then waits for
    their threads *)
Inductive StartPc : Set :=
  | NoStart
  | Launching (index : nat)
  | Telling (index : nat)
  | Awaiting (index : nat)
  | Rolling (rest : list nat)
  | Joining (rest : list nat).

(** [sv_requests] has the calls of [requestShutdown] that have left the lock of the
    coordinator, with the reactors that each still has to shut down. *)
Record Server := mkServer {
  sv_reactors : list Reactor;
  admitted_connections : Z;
  sv_state : State;
  sv_shutdown_request : ShutdownRequest;
  sv_drain_timeout_ns : Z;
  launched_count : nat;
  start_in_progress : bool;
  sv_start : StartPc;
  sv_requests : list (ShutdownRequest * Z * list nat) }.

#[export] Instance eta_Server : Eta Server := λ s,
  mkServer (sv_reactors s) (admitted_connections s) (sv_state s) (sv_shutdown_request s) (sv_drain_timeout_ns s)
    (launched_count s) (start_in_progress s) (sv_start s) (sv_requests s).

(** [Server.init] with [n] reactors *)
Definition Server_init (n : nat) : Server := mkServer (replicate n Reactor_init) 0 Initialized NoShutdown 0 0 false NoStart [].

Definition set_reactor (i : nat) (f : Reactor → Reactor) (s : Server) : Server :=
  s <| sv_reactors := alter f i (sv_reactors s) |>.

Definition reactor_state (s : Server) (i : nat) : option State := state ∘ rx_shared <$> sv_reactors s !! i.

(** [shutdownReactor] on reactor [i] *)
Definition shutdown_reactor (i : nat) (q : Request) : Server → Server :=
  set_reactor i (λ r, r <| rx_shared := shutdownReactor q (rx_shared r) |>).

(** ** [start] *)

Definition start_begin (s : Server) : Server :=
  match sv_state s with
  | Initialized => s <| sv_state := Starting |> <| start_in_progress := true |> <| sv_start := Launching 0 |>
  | _ => s
  end.

(** [rollbackStart] up to the first reactor *)
Definition rollbackStart (s : Server) : Server :=
  s <| sv_shutdown_request := Immediate |> <| sv_state := Stopped |> <| start_in_progress := false |>
    <| sv_start := Rolling (seq 0 (launched_count s)) |>.

(** All reactors are up. *)
Definition start_finish (s : Server) : Server :=
  s <| start_in_progress := false |>
    <| sv_state := match sv_shutdown_request s with NoShutdown => Running | Graceful => Draining | Immediate => Stopping end |>
    <| sv_start := NoStart |>.

(** [startReactor] up to where it leaves the lock of the reactor *)
Definition startReactor (i : nat) (spawned : bool) (s : Server) : option Server :=
  match reactor_state s i with
  | Some Initialized =>
      if negb spawned then Some (rollbackStart s)
      else if negb (launched_count s =? i)%nat then None
      else
        let s1 := set_reactor i (λ r, r <| rx_shared := (rx_shared r) <| state := Starting |> |>) s in
        Some (s1 <| launched_count := S i |>
                 <| sv_start := match sv_shutdown_request s with NoShutdown => Awaiting i | _ => Telling i end |>)
  | Some _ => Some (rollbackStart s)
  | None => None
  end.

(** Its rest; the lock of the coordinator is held to the end, so that the request is
    still the one it has read. *)
Definition tell_reactor (i : nat) (notified : bool) (s : Server) : Server :=
  shutdown_reactor i (mkRequest (sv_shutdown_request s) (sv_drain_timeout_ns s) notified) (s <| sv_start := Awaiting i |>).

(** [waitForReactorStartup] and the check of the address *)
Definition awaited (i : nat) (same_address : bool) (s : Server) : option Server :=
  match sv_reactors s !! i with
  | None => None
  | Some r => Some (if startup_error (rx_shared r) || negb same_address then rollbackStart s else s <| sv_start := Launching (S i) |>)
  end.

(** ** [requestShutdown] *)

(** Its part under the lock of the coordinator *)
Definition requestShutdown (q : ShutdownRequest) (timeout : Z) (s : Server) : Server :=
  let st :=
    match sv_state s with
    | Initialized => Stopped
    | Starting | Running => if decide (q = Graceful) then Draining else Stopping
    | Draining => if decide (q = Immediate) then Stopping else Draining
    | Stopping => Stopping
    | Stopped => Stopped
    end in
  let s1 := s <| sv_state := st |> in
  let s2 :=
    if bool_decide (q = Immediate) || bool_decide (sv_shutdown_request s = NoShutdown)
    then s1 <| sv_shutdown_request := q |> <| sv_drain_timeout_ns := timeout |> else s1 in
  let initialized := bool_decide (st = Stopped) && negb (start_in_progress s) && (launched_count s =? 0)%nat in
  let targets := seq 0 (if initialized then length (sv_reactors s) else launched_count s) in
  s2 <| sv_requests := sv_requests s ++ [(q, timeout, targets)] |>.

(** One reactor of the [k]-th outstanding request *)
Definition deliver_request (k : nat) (notified : bool) (s : Server) : Server :=
  match sv_requests s !! k with
  | Some (q, timeout, i :: rest) =>
      shutdown_reactor i (mkRequest q timeout notified) (s <| sv_requests := <[k := (q, timeout, rest)]> (sv_requests s) |>)
  | _ => s
  end.

(** ** [wait] *)

Definition reactor_stopped (s : Server) (i : nat) : bool := bool_decide (reactor_state s i = Some Stopped).

(** After all threads were joined *)
Definition wait_end (s : Server) : option Server :=
  if admitted_connections s =? 0
  then Some (match sv_state s with Initialized | Stopped => s | _ => s <| sv_state := Stopped |> end) else None.

(** ** Steps *)

Inductive Label : Type :=
  | LStart
  | LLaunch (spawned : bool)
  | LTell (notified : bool)
  | LAwaited (same_address : bool)
  | LRoll (notified : bool)
  | LJoin
  | LRequest (q : ShutdownRequest) (timeout : Z)
  | LDeliver (k : nat) (notified : bool)
  | LWait
  | LReactor (i : nat) (cb : Callback) (sched : list (list Request))
  | LCommand (i c : nat) (id : Z) (stored notified : bool).

(** Whether queueing a command notifies a loop that is no longer there: the first command
    notifies [stream_async] without asking whether [runLoop] has released it. *)
Definition notifies_released (stored : bool) (r : Reactor) : bool :=
  stored && bool_decide (rx_commands r = []) && bool_decide (state (rx_shared r) = Stopped).

(** The reactor as its thread sees it *)
Definition reactor_view (s : Server) (r : Reactor) : Reactor := r <| rx_admitted := admitted_connections s |>.

Definition server_enabled (s : Server) (l : Label) : bool :=
  match l with
  | LStart => match sv_start s with NoStart => true | _ => false end
  | LLaunch _ => match sv_start s with Launching _ => true | _ => false end
  | LTell _ => match sv_start s with Telling _ => true | _ => false end
  | LAwaited _ => match sv_start s with Awaiting i => negb (bool_decide (reactor_state s i = Some Starting)) | _ => false end
  | LRoll _ => match sv_start s with Rolling _ => true | _ => false end
  | LJoin => match sv_start s with Joining (i :: _) => reactor_stopped s i | Joining [] => true | _ => false end
  | LRequest q _ => negb (bool_decide (q = NoShutdown)) && match sv_start s with Telling _ => false | _ => true end
  | LDeliver k _ => match sv_requests s !! k with Some (_, _, _ :: _) => true | _ => false end
  | LWait =>
      match sv_start s with
      | NoStart => negb (start_in_progress s) && forallb (reactor_stopped s) (seq 0 (launched_count s))
      | _ => false
      end
  | LReactor i cb _ => match sv_reactors s !! i with Some r => enabled (reactor_view s r) cb | None => false end
  | LCommand i c id _ _ => match sv_reactors s !! i with Some r => has_stream r c id | None => false end
  end.

Definition server_step (cfg : Config) (s : Server) (l : Label) : option Server :=
  match l with
  | LStart => Some (start_begin s)
  | LLaunch spawned =>
      match sv_start s with
      | Launching i => if (i =? length (sv_reactors s))%nat then Some (start_finish s) else startReactor i spawned s
      | _ => None
      end
  | LTell notified => match sv_start s with Telling i => Some (tell_reactor i notified s) | _ => None end
  | LAwaited same_address => match sv_start s with Awaiting i => awaited i same_address s | _ => None end
  | LRoll notified =>
      match sv_start s with
      | Rolling (i :: rest) => Some (shutdown_reactor i (mkRequest Immediate 0 notified) s <| sv_start := Rolling rest |>)
      | Rolling [] => Some (s <| sv_start := Joining (seq 0 (launched_count s)) |>)
      | _ => None
      end
  | LJoin =>
      match sv_start s with
      | Joining (_ :: rest) => Some (s <| sv_start := Joining rest |>)
      | Joining [] => Some (s <| sv_start := NoStart |>)
      | _ => None
      end
  | LRequest q timeout => Some (requestShutdown q timeout s)
  | LDeliver k notified => Some (deliver_request k notified s)
  | LWait => wait_end s
  | LReactor i cb sched =>
      match sv_reactors s !! i with
      | None => None
      | Some r =>
          match exec cfg cb sched (reactor_view s r) with
          | None => None
          | Some r' =>
              Some (s <| sv_reactors := <[i := r']> (sv_reactors s) |> <| admitted_connections := rx_admitted r' |>)
          end
      end
  | LCommand i c id stored notified =>
      match sv_reactors s !! i with
      | None => None
      | Some r => if notifies_released stored r then None else Some (set_reactor i (queue_command c id stored notified) s)
      end
  end.

(** A run: every step is one that can be taken. *)
Inductive reach (cfg : Config) (s : Server) : Server → Prop :=
  | reach_refl : reach cfg s s
  | reach_step s1 l s2 : reach cfg s s1 → server_enabled s1 l = true → server_step cfg s1 l = Some s2 → reach cfg s s2.
