(* ===== verification/ServerRuns.v ===== *)
(** * Runs of a server

    The invariant of [ServerCoordinator] and what follows from it for every run: a step
    that can be taken is defined, the counter of admitted connections is exact, requests
    to shut down reach every reactor, and a reactor that stops ends. *)

From S2P Require Import Prelude UbLogic ServerReactor ServerInvariant ServerCallbacks ServerLifecycle ServerSafety ServerRequests ServerCoordinator.

Local Open Scope Z_scope.

(** The connections that a reactor has admitted *)
Definition own (r : Reactor) : nat := length (rx_connections r) + Nat.b2n (rx_claimed r).

Section Config.
Context {cfg : Config} (Hmax : 0 ≤ max_connections cfg) (Hhigh : 0 < write_high_watermark_bytes cfg).

Local Abbreviation inv := (@inv cfg).

(** A request is still on its way to reactor [i]. *)
Definition on_its_way (s : Server) (n i : nat) : Prop :=
  (∃ q timeout rest, (q, timeout, rest) ∈ sv_requests s ∧ (n ≤ request_level q)%nat ∧ i ∈ rest) ∨
  match sv_start s with Rolling rest => i ∈ rest | Telling j => i = j | _ => False end.

Record server_inv (s : Server) : Prop := {
  si_reactors : ∀ i r, sv_reactors s !! i = Some r → inv (admitted_connections s - Z.of_nat (own r)) (reactor_view s r);
  si_admitted : admitted_connections s = Z.of_nat (sum_list_with own (sv_reactors s));
  si_limit : admitted_connections s ≤ max_connections cfg;
  si_launched : (launched_count s ≤ length (sv_reactors s))%nat;
  si_new : ∀ i r, sv_reactors s !! i = Some r → (launched_count s ≤ i)%nat → state (rx_shared r) = Initialized ∨ state (rx_shared r) = Stopped;
  si_start : match sv_start s with
    | Launching i => launched_count s = i ∧ sv_state s ≠ Initialized
    | Telling i => launched_count s = S i ∧ sv_state s ≠ Initialized ∧ sv_shutdown_request s ≠ NoShutdown
    | Awaiting i => launched_count s = S i ∧ sv_state s ≠ Initialized
    | Rolling _ => sv_shutdown_request s = Immediate
    | _ => True
    end;
  si_initial : sv_state s = Initialized → launched_count s = 0%nat;
  si_requests : ∀ q timeout rest, (q, timeout, rest) ∈ sv_requests s → q ≠ NoShutdown;
  si_level : ∀ i r, sv_reactors s !! i = Some r → (i < launched_count s)%nat →
    (request_level (sv_shutdown_request s) ≤ level (rx_shared r))%nat ∨ on_its_way s (request_level (sv_shutdown_request s)) i }.

(** ** The reactors *)

Lemma inv_admitted K a d r :
  inv K r → a = rx_admitted r + d → 0 ≤ K + d → a ≤ max_connections cfg → inv (K + d) (r <| rx_admitted := a |>).
Proof.
  intros [Hf Ha Hs Hw] -> HK Hm. split; [|done..]. destruct Hf. split; try done; simpl; [lia..|]. by destruct fi_prog.
Qed.

Lemma inv_own K r : inv K r → rx_admitted r = K + Z.of_nat (own r).
Proof. intros [[] _ _ _]. unfold own. rewrite fi_admitted. destruct (rx_claimed r); simpl; lia. Qed.

Lemma sum_insert {A} (f : A → nat) l i x y :
  l !! i = Some x → (sum_list_with f (<[i := y]> l) + f x = sum_list_with f l + f y)%nat.
Proof.
  revert i. induction l as [|z l IH]; intros [|i] Hx; simpl in *; simplify_eq; [lia|]. specialize (IH i Hx). lia.
Qed.

Lemma sum_elem {A} (f : A → nat) l i x : l !! i = Some x → (f x ≤ sum_list_with f l)%nat.
Proof. revert i. induction l as [|z l IH]; intros [|i] Hx; simpl in *; simplify_eq; [lia|]. specialize (IH i Hx). lia. Qed.

(** A reactor changes, and with it the counter. *)
Lemma change_reactor s i r r' :
  server_inv s → sv_reactors s !! i = Some r → inv (admitted_connections s - Z.of_nat (own r)) r' →
  let s' := s <| sv_reactors := <[i := r']> (sv_reactors s) |> <| admitted_connections := rx_admitted r' |> in
  (∀ j r, sv_reactors s' !! j = Some r → inv (admitted_connections s' - Z.of_nat (own r)) (reactor_view s' r)) ∧
  admitted_connections s' = Z.of_nat (sum_list_with own (sv_reactors s')) ∧ admitted_connections s' ≤ max_connections cfg.
Proof.
  intros [] Hr Hi. pose proof (inv_own _ _ Hi) as Ho. pose proof (sum_insert own _ i r r' Hr) as Hs.
  pose proof (fi_limit _ _ _ (iv_frame _ _ Hi)) as [_ Hlim]. simpl. split_and!; [|lia|done].
  intros j r1 Hj. destruct (decide (j = i)) as [->|Hne].
  - rewrite list_lookup_insert_eq in Hj by by eapply lookup_lt_Some. simplify_eq.
    replace (rx_admitted r1 - Z.of_nat (own r1)) with (admitted_connections s - Z.of_nat (own r)) by lia. by destruct r1.
  - rewrite list_lookup_insert_ne in Hj by done. specialize (si_reactors0 j r1 Hj).
    assert (own r1 ≤ sum_list_with own (<[i := r']> (sv_reactors s)))%nat.
    { eapply (sum_elem own _ j). by rewrite list_lookup_insert_ne. }
    pose proof (inv_admitted (admitted_connections s - Z.of_nat (own r1)) (rx_admitted r') (rx_admitted r' - admitted_connections s)
      _ si_reactors0) as Hgo.
    replace (admitted_connections s - Z.of_nat (own r1) + (rx_admitted r' - admitted_connections s)) with
      (rx_admitted r' - Z.of_nat (own r1)) in Hgo by lia.
    apply Hgo; simpl; lia.
Qed.

(** The same when the counter does not change *)
Lemma alter_reactor s i f :
  server_inv s →
  (∀ r, sv_reactors s !! i = Some r → own (f r) = own r ∧ ∀ K, inv K (reactor_view s r) → inv K (reactor_view s (f r))) →
  let s' := set_reactor i f s in
  (∀ j r, sv_reactors s' !! j = Some r → inv (admitted_connections s' - Z.of_nat (own r)) (reactor_view s' r)) ∧
  admitted_connections s' = Z.of_nat (sum_list_with own (sv_reactors s')).
Proof.
  intros [] Hf. simpl. split.
  - intros j r Hj. change (reactor_view (set_reactor i f s) r) with (reactor_view s r). destruct (decide (j = i)) as [->|Hne].
    + rewrite list_lookup_alter_eq in Hj. destruct (sv_reactors s !! i) as [r0|] eqn:E; simplify_eq. simpl in Hj. simplify_eq.
      destruct (Hf r0 eq_refl) as [-> Hi]. by apply Hi, (si_reactors0 i).
    + rewrite list_lookup_alter_ne in Hj by done. by apply (si_reactors0 j).
  - rewrite si_admitted0. clear -Hf. f_equal. revert i Hf. induction (sv_reactors s) as [|r l IH]; intros [|i] Hf; simpl; try done.
    + by destruct (Hf r eq_refl) as [-> _].
    + by rewrite (IH i) by apply Hf.
Qed.

Lemma inv_request K q r : inv K r → inv K (r <| rx_shared := shutdownReactor q (rx_shared r) |>).
Proof.
  intros [Hf Ha Hs Hw].
  assert (near r (r <| rx_shared := shutdownReactor q (rx_shared r) |>)) as Hn.
  { split; try done. by apply rtc_once; exists q. }
  split; [|done|by eapply near_stopok|done]. destruct Hf. split; try done. by apply prog_request.
Qed.

Lemma inv_starting K r :
  inv K r → state (rx_shared r) = Initialized → inv K (r <| rx_shared := (rx_shared r) <| state := Starting |> |>).
Proof.
  intros [Hf Ha Hs Hw] Hst. split; [|done|done|done]. destruct Hf. split; try done. destruct fi_prog.
  destruct (pg_idle (or_introl Hst)) as (H1 & H2 & H3 & H4). split; unfold loop_running in *; simpl; try done; try congruence.
  intros H. destruct (pg_stopped H) as ([|] & _); congruence.
Qed.

Lemma queue_command_cases c id stored notified r :
  queue_command c id stored notified r = r ∨
  ∃ woken, queue_command c id stored notified r =
    r <| rx_commands := rx_commands r ++ [(c, id)] |> <| rx_stream_notified := rx_stream_notified r || woken |>.
Proof.
  unfold queue_command. destruct stored; [|by left]. simpl. destruct (rx_commands r) eqn:E; [destruct notified; [|by left]|]; right.
  - exists true. by rewrite orb_true_r. - exists false. rewrite orb_false_r. by destruct r.
Qed.

Lemma inv_command K c id stored notified r :
  inv K r → has_stream r c id = true → inv K (queue_command c id stored notified r).
Proof.
  intros Hi Hst. destruct (queue_command_cases c id stored notified r) as [->|[woken ->]]; [done|]. destruct Hi as [Hf Ha Hs Hw].
  split; [|done|done|intros H; simpl; by rewrite Hw]. destruct Hf. split; try done; [|by destruct fi_prog].
  intros c' id'. simpl. rewrite elem_of_app, list_elem_of_singleton. intros [?|[= -> ->]]; [auto|].
  unfold has_stream in Hst. destruct (rx_conns r !! c) as [x|]; [|done]. exists x. split; [done|]. by apply bool_decide_eq_true in Hst.
Qed.

Lemma queue_command_shared c id stored notified r : rx_shared (queue_command c id stored notified r) = rx_shared r.
Proof. by destruct (queue_command_cases c id stored notified r) as [->|[woken ->]]. Qed.

Lemma inv_init : inv 0 Reactor_init.
Proof.
  split; [|intros c e [H _]; simpl in H; by rewrite lookup_empty in H|intros ?; done|by intros ?]. split; try done; simpl.
  - constructor. - intros c. rewrite elem_of_nil. split; [done|by intros []]. - constructor. - intros c ?%elem_of_nil. done.
  - by intros c id ?%elem_of_nil.
Qed.

Lemma server_inv_init n : server_inv (Server_init n).
Proof.
  split; simpl; try done.
  - intros i r Hr. apply lookup_replicate in Hr as [-> _]. exact inv_init.
  - induction n; simpl; [done|]. by rewrite <- IHn.
  - lia.
  - intros i r Hr _. apply lookup_replicate in Hr as [-> _]. by left.
  - by intros q timeout rest ?%elem_of_nil.
  - lia.
Qed.

(** ** The other threads *)

Lemma lookup_set_reactor s i f j :
  sv_reactors (set_reactor i f s) !! j = if decide (j = i) then f <$> sv_reactors s !! j else sv_reactors s !! j.
Proof.
  simpl. destruct (decide (j = i)) as [->|Hne]; [by rewrite list_lookup_alter_eq|by rewrite list_lookup_alter_ne].
Qed.

Lemma shutdown_new q s :
  state s = Initialized ∨ state s = Stopped → state (shutdownReactor q s) = Initialized ∨ state (shutdownReactor q s) = Stopped.
Proof. unfold shutdownReactor. intros [H|H]; rewrite H; auto. Qed.

Lemma inv_shutdown s i q : server_inv s → server_inv (shutdown_reactor i q s).
Proof.
  intros Hs. destruct (alter_reactor s i (λ r, r <| rx_shared := shutdownReactor q (rx_shared r) |>) Hs) as [Hr Ha].
  { intros r _. split; [done|]. intros K HK. exact (inv_request K q _ HK). }
  destruct Hs. split; try done.
  - simpl. by rewrite length_alter.
  - intros j r. unfold shutdown_reactor. rewrite lookup_set_reactor. simpl. case_decide; [|apply si_new0].
    destruct (sv_reactors s !! j) as [r0|] eqn:E; [|done]. intros [= <-] Hj. simpl. eapply shutdown_new, si_new0; done.
  - intros j r. unfold shutdown_reactor. rewrite lookup_set_reactor. simpl. case_decide; [|apply si_level0].
    destruct (sv_reactors s !! j) as [r0|] eqn:E; [|done]. intros [= <-] Hj. simpl.
    destruct (si_level0 j r0 E Hj) as [H1|H1]; [|by right]. left. pose proof (level_request q (rx_shared r0)). lia.
Qed.

(** How far reactor [i] is *)
Definition reached (s : Server) (i : nat) : Prop :=
  ∀ r, sv_reactors s !! i = Some r → (request_level (sv_shutdown_request s) ≤ level (rx_shared r))%nat.

Lemma shutdown_reached s i q :
  rq_request q ≠ NoShutdown → (request_level (sv_shutdown_request s) ≤ request_level (rq_request q))%nat →
  reached (shutdown_reactor i q s) i.
Proof.
  intros Hq Hle r. unfold shutdown_reactor. rewrite lookup_set_reactor, decide_True by done.
  destruct (sv_reactors s !! i) as [r0|]; [|done]. intros [= <-]. simpl. pose proof (level_request q (rx_shared r0)) as [_ H].
  specialize (H Hq). lia.
Qed.

(** A change that leaves the reactors alone *)
Lemma inv_control s s' :
  server_inv s → sv_reactors s' = sv_reactors s → admitted_connections s' = admitted_connections s →
  launched_count s' = launched_count s →
  match sv_start s' with
  | Launching i => launched_count s = i ∧ sv_state s' ≠ Initialized
  | Telling i => launched_count s = S i ∧ sv_state s' ≠ Initialized ∧ sv_shutdown_request s' ≠ NoShutdown
  | Awaiting i => launched_count s = S i ∧ sv_state s' ≠ Initialized
  | Rolling _ => sv_shutdown_request s' = Immediate
  | _ => True
  end →
  (sv_state s' = Initialized → launched_count s = 0%nat) →
  (∀ q timeout rest, (q, timeout, rest) ∈ sv_requests s' → q ≠ NoShutdown) →
  (∀ i r, sv_reactors s !! i = Some r → (i < launched_count s)%nat →
     (request_level (sv_shutdown_request s') ≤ level (rx_shared r))%nat ∨ on_its_way s' (request_level (sv_shutdown_request s')) i) →
  server_inv s'.
Proof.
  intros [] E1 E2 E3 Hst Hin Hq Hl. split; rewrite ?E1, ?E2, ?E3; try done.
  intros i r Hr. unfold reactor_view. rewrite E2. exact (si_reactors0 i r Hr).
Qed.

Lemma inv_rollback s : server_inv s → server_inv (rollbackStart s).
Proof.
  intros Hs. apply (inv_control s); try done; [exact (si_requests _ Hs)|]. intros i r Hr Hi. right. right.
  simpl. apply elem_of_seq. lia.
Qed.

Lemma way_same s s' n i :
  sv_requests s' = sv_requests s → match sv_start s with Rolling rest => i ∉ rest | Telling j => i ≠ j | _ => True end →
  on_its_way s n i → on_its_way s' n i.
Proof. intros E Hr [?|H]; [left; by rewrite E|]. by destruct (sv_start s). Qed.

Lemma inv_begin s : server_inv s → sv_start s = NoStart → server_inv (start_begin s).
Proof.
  intros Hs Hst. unfold start_begin. destruct (sv_state s) eqn:E; try done. pose proof (si_initial _ Hs E) as H0.
  apply (inv_control s); try done; [exact (si_requests _ Hs)|]. intros i r Hr Hi. lia.
Qed.

Lemma inv_finish s i : server_inv s → sv_start s = Launching i → server_inv (start_finish s).
Proof.
  intros Hs Hst. apply (inv_control s); try done; simpl.
  - by destruct (sv_shutdown_request s).
  - exact (si_requests _ Hs).
  - intros j r Hr Hj. destruct (si_level _ Hs j r Hr Hj); [by left|right]. apply (way_same s); [done|by rewrite Hst|done].
Qed.

Lemma inv_launch s i spawned :
  server_inv s → sv_start s = Launching i → (i < length (sv_reactors s))%nat →
  ∃ s', startReactor i spawned s = Some s' ∧ server_inv s'.
Proof.
  intros Hs Hst Hi. unfold startReactor, reactor_state. apply lookup_lt_is_Some in Hi as [r Hr]. rewrite Hr. simpl.
  destruct (state (rx_shared r)) eqn:Est; try (eexists; split; [done|by apply inv_rollback]).
  destruct spawned; simpl; [|eexists; split; [done|by apply inv_rollback]].
  pose proof (si_start _ Hs) as Hl. rewrite Hst in Hl. destruct Hl as [Hl Hni]. rewrite (proj2 (Nat.eqb_eq _ _) Hl). simpl. eexists. split; [done|].
  destruct (alter_reactor s i (λ r, r <| rx_shared := (rx_shared r) <| state := Starting |> |>) Hs) as [Hr' Ha'].
  { intros r0 Hr0. rewrite Hr in Hr0. injection Hr0 as <-. split; [done|]. intros K HK. exact (inv_starting K _ HK Est). }
  split; simpl; try done.
  - apply Hs.
  - rewrite length_alter. by apply lookup_lt_Some in Hr.
  - intros j r0 Hj Hlt. rewrite list_lookup_alter_ne in Hj by lia. apply (si_new _ Hs j); [done|lia].
  - by destruct (sv_shutdown_request s).
  - apply (si_requests _ Hs).
  - intros j r0 Hj Hlt. destruct (decide (j = i)) as [->|Hne].
    + destruct (sv_shutdown_request s); [left; simpl; lia|right; by right..].
    + rewrite list_lookup_alter_ne in Hj by done. destruct (si_level _ Hs j r0 Hj) as [|Hw]; [lia|by left|right].
      apply (way_same s); [done|by rewrite Hst|exact Hw].
Qed.

Lemma inv_tell s i notified : server_inv s → sv_start s = Telling i → server_inv (tell_reactor i notified s).
Proof.
  intros Hs Hst. unfold tell_reactor. set (q := mkRequest _ _ _). pose proof (inv_shutdown s i q Hs) as H1.
  pose proof (si_start _ Hs) as H. rewrite Hst in H. destruct H as (Hl & Hni & Hq).
  apply (inv_control _ _ H1); try done; [apply (si_requests _ Hs)|].
  intros j r Hj Hlt. destruct (decide (j = i)) as [->|Hne]; [left; by apply (shutdown_reached s i q)|].
  destruct (si_level _ H1 j r Hj Hlt) as [|[?|H2]]; [by left|by right; left|]. simpl in H2. by rewrite Hst in H2.
Qed.

Lemma inv_awaited s i same_address :
  server_inv s → sv_start s = Awaiting i → ∃ s', awaited i same_address s = Some s' ∧ server_inv s'.
Proof.
  intros Hs Hst. unfold awaited. pose proof (si_start _ Hs) as Hl. rewrite Hst in Hl. destruct Hl as [Hl Hni].
  pose proof (si_launched _ Hs). destruct (lookup_lt_is_Some_2 (sv_reactors s) i) as [r Hr]; [lia|]. rewrite Hr. eexists. split; [done|].
  case_match; [by apply inv_rollback|]. apply (inv_control s); try done; [apply (si_requests _ Hs)|].
  intros j r0 Hj Hlt. destruct (si_level _ Hs j r0 Hj Hlt); [by left|right]. apply (way_same s); [done|by rewrite Hst|done].
Qed.

Lemma inv_roll s i rest notified :
  server_inv s → sv_start s = Rolling (i :: rest) →
  server_inv (shutdown_reactor i (mkRequest Immediate 0 notified) (s <| sv_start := Rolling rest |>)).
Proof.
  intros Hs Hst. set (q := mkRequest _ _ _). pose proof (inv_shutdown s i q Hs) as H1.
  pose proof (si_start _ Hs) as Hq. rewrite Hst in Hq.
  apply (inv_control _ _ H1); try done; [apply (si_initial _ Hs)|apply (si_requests _ Hs)|].
  intros j r Hj Hlt. destruct (decide (j = i)) as [->|Hne].
  - left. apply (shutdown_reached s i q); [done|apply request_level_le|done].
  - destruct (si_level _ H1 j r Hj Hlt) as [|[?|H2]]; [by left|by right; left|right; right].
    simpl in *. rewrite Hst in H2. by apply elem_of_cons in H2 as [|].
Qed.

Lemma inv_delivered s k notified : server_inv s → server_inv (deliver_request k notified s).
Proof.
  intros Hs. unfold deliver_request. destruct (sv_requests s !! k) as [[[q timeout] [|i rest]]|] eqn:Ek; try done.
  set (rq := mkRequest _ _ _). pose proof (inv_shutdown s i rq Hs) as H1.
  assert (∀ e, e ∈ <[k := (q, timeout, rest)]> (sv_requests s) → e = (q, timeout, rest) ∨ e ∈ sv_requests s) as Hin.
  { intros e [k' He]%list_elem_of_lookup. apply list_lookup_insert_Some in He as [(_ & <- & _)|[_ He]]; [by left|right].
    by eapply list_elem_of_lookup_2. }
  assert (q ≠ NoShutdown) as Hq by (eapply (si_requests _ Hs q timeout), list_elem_of_lookup_2, Ek).
  apply (inv_control _ _ H1); try done; [apply (si_start _ Hs)|apply (si_initial _ Hs)|..].
  { intros q' t' rest' H. simpl in H. apply Hin in H as [[= -> -> ->]|H]; [done|]. by eapply (si_requests _ Hs). }
  intros j r Hj Hlt. destruct (si_level _ H1 j r Hj Hlt) as [|[(q' & t' & rest' & H2 & H3 & H4)|?]]; [by left| |by right; right].
  simpl in H2, H3. apply list_elem_of_lookup in H2 as [k' H2]. destruct (decide (k' = k)) as [->|Hk].
  - rewrite Ek in H2. injection H2 as <- <- <-. apply elem_of_cons in H4 as [->|H4].
    + left. by apply (shutdown_reached s i rq).
    + right. left. exists q, timeout, rest. split_and!; [|done|done].
      apply (list_elem_of_lookup_2 _ k). simpl. rewrite list_lookup_insert_eq; [done|by eapply lookup_lt_Some].
  - right. left. exists q', t', rest'. split_and!; [|done|done].
    apply (list_elem_of_lookup_2 _ k'). simpl. by rewrite list_lookup_insert_ne.
Qed.

Lemma inv_requested s q timeout :
  server_inv s → q ≠ NoShutdown → match sv_start s with Telling _ => False | _ => True end → server_inv (requestShutdown q timeout s).
Proof.
  intros Hs Hq Hpc. unfold requestShutdown. set (st := match sv_state s with Initialized => Stopped | _ => _ end).
  assert (st ≠ Initialized) as Hst by (unfold st; destruct (sv_state s); repeat case_decide; done).
  set (targets := seq 0 _).
  assert (∀ j, (j < launched_count s)%nat → j ∈ targets) as Ht.
  { intros j Hj. unfold targets. pose proof (si_launched _ Hs). apply elem_of_seq. destruct (bool_decide _ && _ && _); lia. }
  assert (∀ e, e ∈ sv_requests s ++ [(q, timeout, targets)] ↔ e ∈ sv_requests s ∨ e = (q, timeout, targets)) as Hin.
  { intros e. by rewrite elem_of_app, list_elem_of_singleton. }
  assert (∀ j n, (j < launched_count s)%nat → (n ≤ request_level q)%nat → ∀ s', sv_requests s' = sv_requests s ++ [(q, timeout, targets)] →
    on_its_way s' n j) as Hway.
  { intros j n Hj Hn s' E. left. exists q, timeout, targets. rewrite E, Hin. auto. }
  pose proof (si_start _ Hs) as Hstart. destruct (_ || _) eqn:Eb.
  - apply (inv_control s); try done; simpl.
    + destruct (sv_start s); try done; try (by destruct Hstart). rewrite Hstart in Eb. by destruct q.
    + intros q' t' rest' [H|[= -> -> ->]]%Hin; [by eapply (si_requests _ Hs)|done].
    + intros j r Hj Hlt. right. by eapply Hway.
  - apply (inv_control s); try done; simpl.
    + destruct (sv_start s); try done; by destruct Hstart.
    + intros q' t' rest' [H|[= -> -> ->]]%Hin; [by eapply (si_requests _ Hs)|done].
    + intros j r Hj Hlt. destruct (si_level _ Hs j r Hj Hlt) as [|[(q' & t' & rest' & H1 & H2)|?]]; [by left|right; left|by right; right].
      exists q', t', rest'. split; [|done]. simpl. rewrite Hin. by left.
Qed.

(** ** Waiting *)

(** The loop of a reactor has failed with connections in it. *)
Definition stranded (r : Reactor) : bool := rx_failed r && negb (bool_decide (rx_connections r = [])).

(** A reactor that was not launched or has stopped has no connections, unless it is
    stranded. *)
Lemma stopped_own K r a :
  inv K (r <| rx_admitted := a |>) → state (rx_shared r) = Initialized ∨ state (rx_shared r) = Stopped →
  own r = if stranded r then length (rx_connections r) else 0%nat.
Proof.
  intros [[] _ _ _] Hst. destruct fi_prog. simpl in *. unfold own, stranded. destruct Hst as [H|H].
  - destruct (pg_idle (or_introl H)) as (-> & _ & -> & _). by rewrite andb_false_r.
  - destruct (pg_final H) as [-> [->| ->]]; [|by rewrite andb_false_r]. simpl. case_bool_decide as E; [by rewrite E|simpl; lia].
Qed.

Lemma all_stopped s :
  server_inv s → (∀ i, (i < launched_count s)%nat → reactor_stopped s i = true) →
  admitted_connections s = Z.of_nat (sum_list_with (λ r, if stranded r then length (rx_connections r) else 0%nat) (sv_reactors s)).
Proof.
  intros Hs Hall. rewrite (si_admitted _ Hs). f_equal.
  assert (∀ i r, sv_reactors s !! i = Some r → own r = if stranded r then length (rx_connections r) else 0%nat) as H0.
  { intros i r Hr. eapply (stopped_own _ r); [exact (si_reactors _ Hs i r Hr)|].
    destruct (decide (i < launched_count s)%nat) as [Hlt|]; [|apply (si_new _ Hs i r Hr); lia].
    specialize (Hall i Hlt). unfold reactor_stopped, reactor_state in Hall. rewrite Hr in Hall.
    apply bool_decide_eq_true in Hall. simpl in Hall. right. congruence. }
  clear -H0. revert H0. induction (sv_reactors s) as [|r l IH]; intros H0; [done|]. simpl. rewrite (H0 0%nat r eq_refl). f_equal.
  apply IH. intros i. apply (H0 (S i)).
Qed.

Lemma stranded_sum l :
  sum_list_with (λ r, if stranded r then length (rx_connections r) else 0%nat) l ≠ 0%nat ↔ existsb stranded l = true.
Proof.
  induction l as [|r l IH]; simpl; [done|]. rewrite orb_true_iff, <- IH. unfold stranded. destruct (rx_failed r); simpl; [|lia].
  case_bool_decide as E; simpl; [lia|]. destruct (rx_connections r); [done|]. simpl. lia.
Qed.

Lemma stranded_true r : stranded r = true ↔ rx_failed r = true ∧ rx_connections r ≠ [].
Proof. unfold stranded. by rewrite andb_true_iff, negb_true_iff, bool_decide_eq_false. Qed.

Lemma exists_stranded l : existsb stranded l = true ↔ ∃ r, r ∈ l ∧ rx_failed r = true ∧ rx_connections r ≠ [].
Proof. rewrite existsb_exists. by setoid_rewrite stranded_true; setoid_rewrite list_elem_of_In. Qed.

Lemma sum_stranded l :
  sum_list_with (λ r, if stranded r then length (rx_connections r) else 0%nat) l =
  sum_list_with (λ r, if rx_failed r then length (rx_connections r) else 0%nat) l.
Proof.
  induction l as [|r l IH]; simpl; [done|]. rewrite IH. f_equal. unfold stranded. destruct (rx_failed r); [|done].
  simpl. case_bool_decide as E; [by rewrite E|done].
Qed.

(** The assertion of [wait] *)
Lemma wait_end_cases s :
  server_inv s → server_enabled s LWait = true →
  (wait_end s = None ↔ existsb stranded (sv_reactors s) = true) ∧ ∀ s', wait_end s = Some s' → server_inv s'.
Proof.
  intros Hs He. simpl in He. destruct (sv_start s) eqn:Est; try done. apply andb_true_iff in He as [_ Hf]. split.
  - rewrite <- stranded_sum. unfold wait_end. rewrite (all_stopped s Hs).
    + case_match eqn:E; [apply Z.eqb_eq in E|apply Z.eqb_neq in E]; split; intros H; try done; lia.
    + intros i Hi. rewrite forallb_forall in Hf. apply Hf, in_seq. lia.
  - unfold wait_end. intros s' H. destruct (_ =? _); [|done]. injection H as <-. destruct (sv_state s) eqn:E; try done.
    all: apply (inv_control s); try done; simpl; [by rewrite Est|exact (si_requests _ Hs)|].
    all: intros j r Hj Hlt; exact (si_level _ Hs j r Hj Hlt).
Qed.

(** A stream outlives the loop only when the loop has failed. *)
Lemma released_stranded s i r c id :
  server_inv s → sv_reactors s !! i = Some r → has_stream r c id = true → state (rx_shared r) = Stopped → stranded r = true.
Proof.
  intros Hs Hr Hst Hstop. destruct (si_reactors _ Hs i r Hr) as [[] _ _ _]. destruct (pg_final _ _ fi_prog Hstop) as [_ Hf].
  unfold has_stream in Hst. destruct (rx_conns r !! c) as [x|] eqn:Ec; [|done].
  assert (c ∈ rx_connections r) as Hin by by apply fi_dom; exists x.
  unfold stranded. destruct Hf as [E|E]; simpl in E; [|rewrite E in Hin; by apply elem_of_nil in Hin].
  rewrite E, bool_decide_false; [done|]. intros E'. rewrite E' in Hin. by apply elem_of_nil in Hin.
Qed.

(** ** All steps *)

Lemma winding_sched sched r : winding (r <| rx_sched := sched |>) ↔ winding r.
Proof. split; intros [H []]; by split. Qed.

Lemma exec_spec K cb sched r :
  inv K r → enabled r cb = true →
  ∃ r', exec cfg cb sched r = Some r' ∧ @steps cfg K cb r r' ∧ (level (rx_shared r) ≤ level (rx_shared r'))%nat.
Proof.
  intros Hi He. pose proof (inv_sched K sched r Hi) as Hi'.
  assert (enabled (r <| rx_sched := sched |>) cb = true) as He' by by destruct cb.
  destruct (wp_Some _ _ _ (callback_spec K cb _ Hhigh Hi' He')) as ([] & r' & Hc & Hst & Hw).
  unfold exec. rewrite Hc. exists (r' <| rx_sched := [] |>). split; [done|]. split.
  - split; [by apply inv_sched|]. intros Hwd. destruct (Hw (proj2 (winding_sched sched r) Hwd)) as [Hw1 Hw2].
    split; [|by destruct cb]. destruct cb; try done; by apply winding_sched.
  - exact (callback_level cfg cb _ _ He' Hc).
Qed.

Lemma inv_reactor s i r r' cb :
  server_inv s → sv_reactors s !! i = Some r → enabled (reactor_view s r) cb = true →
  @steps cfg (admitted_connections s - Z.of_nat (own r)) cb (reactor_view s r) r' →
  (level (rx_shared r) ≤ level (rx_shared r'))%nat →
  server_inv (s <| sv_reactors := <[i := r']> (sv_reactors s) |> <| admitted_connections := rx_admitted r' |>).
Proof.
  intros Hs Hr He [Hi _] Hl. destruct (change_reactor s i r r' Hs Hr Hi) as (H1 & H2 & H3). pose proof Hs as []. split; try done; simpl.
  - by rewrite length_insert.
  - intros j r0 Hj Hlt. destruct (decide (j = i)) as [->|Hne]; [|rewrite list_lookup_insert_ne in Hj by done; eauto].
    exfalso. destruct (si_new0 i r Hr Hlt) as [H|H]; destruct cb; simpl in He; unfold loop_running in He; simpl in He; rewrite H in He; done.
  - intros j r0 Hj Hlt. destruct (decide (j = i)) as [->|Hne].
    + rewrite list_lookup_insert_eq in Hj by by eapply lookup_lt_Some. simplify_eq.
      destruct (si_level0 i r Hr Hlt) as [|]; [left; lia|by right].
    + rewrite list_lookup_insert_ne in Hj by done. exact (si_level0 j r0 Hj Hlt).
Qed.

Lemma own_command c id stored notified r : own (queue_command c id stored notified r) = own r.
Proof. by destruct (queue_command_cases c id stored notified r) as [->|[woken ->]]. Qed.

Lemma view_command s c id stored notified r :
  reactor_view s (queue_command c id stored notified r) = queue_command c id stored notified (reactor_view s r).
Proof. unfold queue_command. simpl. by destruct (negb stored), (rx_commands r), notified. Qed.

Lemma inv_commanded s i c id stored notified r :
  server_inv s → sv_reactors s !! i = Some r → has_stream r c id = true → server_inv (set_reactor i (queue_command c id stored notified) s).
Proof.
  intros Hs Hr Hst. destruct (alter_reactor s i (queue_command c id stored notified) Hs) as [H1 H2].
  { intros r0 Hr0. rewrite Hr in Hr0. injection Hr0 as <-. split; [by rewrite own_command|]. intros K HK.
    rewrite view_command. exact (inv_command K c id stored notified _ HK Hst). }
  pose proof Hs as []. split; try done; simpl; [by rewrite length_alter|..].
  all: intros j r0 Hj; pose proof (lookup_set_reactor s i (queue_command c id stored notified) j) as E; simpl in E; rewrite E in Hj.
  all: destruct (decide (j = i)) as [->|]; [rewrite Hr in Hj; injection Hj as <-; simpl; rewrite ?queue_command_shared|]; eauto.
Qed.

(** The steps that are not defined: waiting for a server with a stranded reactor, and
    queueing a command on a stream of such a reactor *)
Definition lost (s : Server) (l : Label) : Prop :=
  match l with
  | LWait => existsb stranded (sv_reactors s) = true
  | LCommand i _ _ stored _ => ∃ r, sv_reactors s !! i = Some r ∧ stranded r = true ∧ notifies_released stored r = true
  | _ => False
  end.

Lemma server_step_inv s l :
  server_inv s → server_enabled s l = true → lost s l ∧ server_step cfg s l = None ∨ ∃ s', server_step cfg s l = Some s' ∧ server_inv s'.
Proof.
  intros Hs He.
  assert (∀ pc, (match sv_start s with Rolling (_ :: _) | Telling _ => False | _ => True end) → (match pc with NoStart | Joining _ => True | _ => False end) →
    server_inv (s <| sv_start := pc |>)) as Hpc.
  { intros pc Hr Hp. apply (inv_control s); try done; simpl; [by destruct pc|apply (si_initial _ Hs)|apply (si_requests _ Hs)|].
    intros j r Hj Hlt. destruct (si_level _ Hs j r Hj Hlt); [by left|right]. apply (way_same s); [done| |done].
    destruct (sv_start s) as [| | | |[]|]; try done. apply not_elem_of_nil. }
  destruct l as [|spawned|notified|same_address|notified| |q timeout|k notified| |i cb sched|i c id stored notified].
  9: { destruct (wait_end_cases s Hs He) as [Hn Hsome]. simpl. destruct (wait_end s) as [s'|]; [right; eauto|left; by rewrite <- Hn]. }
  all: simpl in *.
  1-9: right.
  - eexists. split; [done|]. apply inv_begin; [done|]. by destruct (sv_start s).
  - destruct (sv_start s) as [|i| | | |] eqn:Est; try done. destruct (Nat.eqb_spec i (length (sv_reactors s))) as [E|E].
    + eexists. split; [done|]. by eapply inv_finish.
    + apply inv_launch; [done|done|]. pose proof (si_start _ Hs) as H. rewrite Est in H. pose proof (si_launched _ Hs). lia.
  - destruct (sv_start s) eqn:Est; try done. eexists. split; [done|]. by apply inv_tell.
  - destruct (sv_start s) eqn:Est; try done. by apply inv_awaited.
  - destruct (sv_start s) as [| | | |[|i rest]|] eqn:Est; try done; eexists; (split; [done|]).
    + by apply Hpc. + by apply inv_roll.
  - destruct (sv_start s) as [| | | | |[|i rest]] eqn:Est; try done; eexists; (split; [done|]); by apply Hpc.
  - apply andb_true_iff in He as [He%negb_true_iff%bool_decide_eq_false Hpc']. eexists. split; [done|].
    apply inv_requested; [done|done|]. by destruct (sv_start s).
  - eexists. split; [done|]. by apply inv_delivered.
  - destruct (sv_reactors s !! i) as [r|] eqn:Er; [|done].
    destruct (exec_spec _ cb sched _ (si_reactors _ Hs i r Er) He) as (r' & -> & Hst & Hl). eexists. split; [done|]. by eapply inv_reactor.
  - destruct (sv_reactors s !! i) as [r|] eqn:Er; [|done]. destruct (notifies_released stored r) eqn:En; [left|right].
    + split; [|done]. exists r. split_and!; [done| |done]. unfold notifies_released in En.
      apply andb_true_iff in En as [_ En%bool_decide_eq_true]. by eapply released_stranded.
    + eexists. split; [done|]. by eapply inv_commanded.
Qed.

Lemma reach_inv n s : reach cfg (Server_init n) s → server_inv s.
Proof.
  induction 1 as [|s1 l s2 _ IH He Hst]; [by apply server_inv_init|].
  destruct (server_step_inv s1 l IH He) as [[_ H]|(s' & H & Hi)]; by simplify_eq.
Qed.

End Config.
