(* ===== verification/ServerShutdown.v ===== *)
(** * How a server shuts down

    The theorems on the server of [ServerCoordinator]: in every run no step is
    undefined and the accounts are exact; a request to shut down reaches every reactor,
    is noticed, and ends the reactor after a bounded number of completions. *)

From S2P Require Import Prelude UbLogic ServerReactor ServerInvariant ServerCallbacks ServerLifecycle ServerSafety ServerRequests ServerCoordinator ServerRuns.

Local Open Scope Z_scope.

(** ** A reactor that winds down *)

(** The completions in a step that leave less to be done for reactor [i] *)
Definition productive_label (i : nat) (s : Server) (l : Label) : nat :=
  match l with
  | LReactor j cb _ =>
      if decide (j = i) then match sv_reactors s !! i with Some r => Nat.b2n (productive r cb) | None => 0 end else 0
  | _ => 0
  end.

(** A run, with how many of them there are *)
Inductive run (cfg : Config) (i : nat) (s : Server) : nat → Server → Prop :=
  | run_refl : run cfg i s 0 s
  | run_step n s1 l s2 : run cfg i s n s1 → server_enabled s1 l = true → server_step cfg s1 l = Some s2 →
      run cfg i s (n + productive_label i s1 l) s2.

Section Config.
Context {cfg : Config} (Hmax : 0 ≤ max_connections cfg) (Hhigh : 0 < write_high_watermark_bytes cfg).

Local Abbreviation inv := (@inv cfg).
Local Abbreviation server_inv := (@server_inv cfg).

Lemma weight_le_6 x : (weight x ≤ 6)%nat.
Proof.
  unfold weight. assert (∀ b, (Nat.b2n b ≤ 1)%nat) as Hb by by intros []; simpl; lia.
  pose proof (Hb (read_active x)). pose proof (Hb (negb (bool_decide (write_queue x = [])))).
  pose proof (Hb (read_cancel_submitted x)). pose proof (Hb (write_cancel_submitted x)).
  pose proof (Hb (negb (close_submitted x))). pose proof (Hb (negb (close_completed x))). lia.
Qed.

Lemma total_bound m : (total m ≤ 6 * size m)%nat.
Proof.
  induction m as [|c x m Hc IH] using map_ind; [unfold total; rewrite map_fold_empty; lia|].
  rewrite (total_forget _ c x) by by rewrite lookup_insert_eq. rewrite delete_insert_id, map_size_insert_None by done.
  pose proof (weight_le_6 x). lia.
Qed.

Lemma size_connections K lc r : @frame_inv cfg K lc r → size (rx_conns r) = length (rx_connections r).
Proof.
  intros Hf. rewrite <- size_dom, <- (size_list_to_set (C := gset nat)) by apply Hf. f_equal.
  apply set_eq. intros c. rewrite elem_of_dom, elem_of_list_to_set. symmetry. apply Hf.
Qed.

Lemma rank_bound K r : inv K r → (rank r ≤ 6 * length (rx_connections r) + 4)%nat.
Proof.
  intros Hi. unfold rank, lweight. rewrite <- (size_connections _ _ _ (iv_frame _ _ Hi)). pose proof (total_bound (rx_conns r)).
  assert (∀ b, (Nat.b2n b ≤ 1)%nat) as Hb by by intros []; simpl; lia. set (l := rx_listener r).
  pose proof (Hb (op_accept l)). pose proof (Hb (listener_accept_cancel_submitted l)).
  pose proof (Hb (negb (listener_close_submitted l))). pose proof (Hb (negb (listener_closed l))). lia.
Qed.

(** The loop still has something to deliver for a connection that is closing. *)
Lemma closing_productive r c x :
  loop_running r = true → rx_claimed r = false → @cell_ok cfg (mkCell x (ops_of r c)) → closing x = true →
  ∃ cb, enabled r cb = true ∧ productive r cb = true.
Proof.
  intros Hrun Hcl [[] []] Hc. simpl in *.
  assert (∀ cb op, (∀ r', enabled r' cb = loop_running r' && negb (rx_claimed r') && op (ops_of r' c)) → op (ops_of r c) = true →
    enabled r cb = true) as Hen by by intros cb op -> ->; rewrite Hrun, Hcl.
  destruct (close_submitted x) eqn:Ecs.
  - destruct (close_completed x) eqn:Eco.
    + destruct (se_completed eq_refl) as [E|E]; rewrite E in *.
      * exists (CbReadCanceled c). split; [by apply (Hen _ op_read_cancel)|done].
      * exists (CbWriteCanceled c false). split; [by apply (Hen _ op_write_cancel)|done].
    + exists (CbConnectionClosed c). split; [by apply (Hen _ op_close)|done].
  - destruct (se_closing Hc eq_refl) as [E|E].
    + exists (CbRead c ReadError). split; [apply (Hen _ op_read); [done|congruence]|done].
    + exists (CbWrite c WriteAll true). split; [|done]. apply (Hen _ op_write); [done|].
      rewrite cm_write. simpl. by rewrite bool_decide_false.
Qed.

Lemma winding_productive K r :
  inv K r → winding r → rx_loop_stopped r = true ∨ ∃ cb, enabled r cb = true ∧ productive r cb = true.
Proof.
  intros Hi [Hst [Hl Hcl Hnc Hh]]. assert (loop_running r = true) as Hrun by (unfold loop_running; by rewrite Hst).
  pose proof Hi as [Hf Ha _ _]. destruct (rx_connections r) as [|c l] eqn:Ec.
  - destruct (listener_closed (rx_listener r)) eqn:Elc; [by left; apply Hh|right].
    pose proof (fi_listener _ _ _ Hf) as []. destruct Hl as [Hs|[_ Hs]].
    + exists (CbListenerClosed (mkDrainEnv (λ _, true) (λ _, mkFlush [] true))). simpl. by rewrite Hrun, Hnc, li_close, Hs, Elc.
    + exists CbAcceptCanceled. simpl. by rewrite Hrun, Hnc, li_cancel, Hs.
  - right. assert (c ∈ rx_connections r) as [x Hx]%(fi_dom _ _ _ Hf) by (rewrite Ec; left).
    apply (closing_productive r c x); [done|done|by apply (Ha c)|by apply (Hcl c)].
Qed.

(** The callbacks that begin to close everything *)
Lemma begins_spec K cb r :
  inv K r → enabled r cb = true →
  match cb with
  | CbShutdown _ => state (rx_shared r) = Stopping
  | CbDrainTimeout failed => failed = false ∧ (state (rx_shared r) = Draining ∨ state (rx_shared r) = Stopping)
  | _ => False
  end → wp (callback cfg cb) (λ _, winding) r.
Proof.
  intros Hi He Hcb. destruct cb as [| | | | | | | | | |d| | |failed|]; try done; simpl in He;
    rewrite !andb_true_iff, negb_true_iff in He; destruct He as [[Hrun Hcl] _]; apply wp_then, wp_modify.
  - eapply wp_mono; [by eapply cb_shutdown|]. intros ? r' [[_ [_ Hs]] Hw]. split; [|by apply Hw]. by destruct (Hs Hcb) as [-> _].
  - destruct Hcb as [-> Hst]. eapply wp_mono; [by eapply (cb_drain_timeout K false)|]. intros ? r' [_ Hw].
    destruct (Hw eq_refl) as [H1 H2]. split; [by apply H2|done].
Qed.

(** Reactor [r] is ending, or has ended. *)
Definition ending (r : Reactor) : Prop := winding r ∨ state (rx_shared r) = Stopped.

Lemma ending_shutdown q r : ending r → r <| rx_shared := shutdownReactor q (rx_shared r) |> = r.
Proof. intros Hr. destruct r. unfold shutdownReactor. destruct Hr as [[E _]|E]; simpl in *; by rewrite E. Qed.

Lemma ending_shutdown_reactor s i j q r :
  sv_reactors s !! i = Some r → ending r → sv_reactors (shutdown_reactor j q s) !! i = Some r.
Proof.
  intros Hr He. unfold shutdown_reactor. rewrite lookup_set_reactor, Hr. case_decide; [|done]. simpl. by rewrite ending_shutdown.
Qed.

Lemma launch_ending s i j spawned s' r :
  startReactor j spawned s = Some s' → sv_reactors s !! i = Some r → ending r → sv_reactors s' !! i = Some r.
Proof.
  intros Hst Hr He. unfold startReactor, reactor_state in Hst. destruct (sv_reactors s !! j) as [rj|] eqn:Ej; [|done]. simpl in Hst.
  destruct (state (rx_shared rj)) eqn:Es; try (by simplify_eq).
  destruct spawned; simpl in Hst; [|by simplify_eq]. destruct (_ =? _)%nat; [|done]. simpl in Hst.
  assert (j ≠ i) as Hne.
  { intros ->. rewrite Hr in Ej. simplify_eq. destruct He as [[? _]|?]; congruence. }
  simplify_eq. simpl. by rewrite list_lookup_alter_ne.
Qed.

(** What a step of the server does to such a reactor [i] *)
Lemma step_ending s l s' i r :
  server_inv s → server_enabled s l = true → server_step cfg s l = Some s' → sv_reactors s !! i = Some r → ending r →
  ∃ r', sv_reactors s' !! i = Some r' ∧ ending r' ∧ (productive_label i s l + rank r' ≤ rank r)%nat.
Proof.
  intros Hs He Hst Hr Hw. assert (sv_reactors s' !! i = Some r → productive_label i s l = 0%nat →
    ∃ r', sv_reactors s' !! i = Some r' ∧ ending r' ∧ (productive_label i s l + rank r' ≤ rank r)%nat) as Hsame.
  { intros H ->. by exists r. }
  destruct l as [|spawned|notified|same_address|notified| |q timeout|k notified| |j cb sched|j c id stored notified]; simpl in He, Hst.
  - apply Hsame; [|done]. unfold start_begin in Hst. by destruct (sv_state s); simplify_eq.
  - apply Hsame; [|done]. destruct (sv_start s); try done. case_match; [by simplify_eq|]. by eapply launch_ending.
  - apply Hsame; [|done]. destruct (sv_start s); try done. simplify_eq. by apply ending_shutdown_reactor.
  - apply Hsame; [|done]. destruct (sv_start s); try done. unfold awaited in Hst. case_match; [|done]. by case_match; simplify_eq.
  - apply Hsame; [|done]. destruct (sv_start s) as [| | | |[|j rest]|]; try done; simplify_eq; [done|]. by apply ending_shutdown_reactor.
  - apply Hsame; [|done]. by destruct (sv_start s) as [| | | | |[|j rest]]; simplify_eq.
  - apply Hsame; [|done]. simplify_eq. unfold requestShutdown. by destruct (_ || _).
  - apply Hsame; [|done]. simplify_eq. unfold deliver_request. destruct (sv_requests s !! k) as [[[? ?] []]|]; try done.
    by apply ending_shutdown_reactor.
  - apply Hsame; [|done]. unfold wait_end in Hst. destruct (_ =? _); [|done]. by destruct (sv_state s); simplify_eq.
  - destruct (sv_reactors s !! j) as [rj|] eqn:Ej; [|done]. destruct (decide (j = i)) as [->|Hne].
    + rewrite Hr in Ej. injection Ej as <-. destruct Hw as [Hw|Hw].
      2: { exfalso. destruct cb; simpl in He; unfold loop_running in He; simpl in He; rewrite Hw in He; done. }
      destruct (exec_spec Hhigh _ cb sched _ (si_reactors _ Hs i r Hr) He) as (r' & E & [_ Hsteps] & _). rewrite E in Hst. simplify_eq.
      assert (winding (reactor_view s r)) as Hv by (destruct Hw as [? []]; by split). destruct (Hsteps Hv) as [H1 H2].
      exists r'. simpl. rewrite list_lookup_insert_eq by by eapply lookup_lt_Some. split_and!; [done| |].
      * destruct cb; by (left + right).
      * rewrite decide_True, Hr by done. change (productive r cb) with (productive (reactor_view s r) cb). change (rank r) with (rank (reactor_view s r)). lia.
    + apply Hsame; [|simpl; by rewrite decide_False]. destruct (exec _ _ _ _); simplify_eq. simpl. by rewrite list_lookup_insert_ne.
  - destruct (sv_reactors s !! j) as [rj|]; [|done]. destruct (notifies_released _ _); [done|]. simplify_eq.
    rewrite lookup_set_reactor, Hr. simpl. case_decide; [|by exists r]. exists (queue_command c id stored notified r).
    destruct (queue_command_cases c id stored notified r) as [->|[woken ->]]; split_and!; try done.
    destruct Hw as [[? []]|]; [left|by right]. by split.
Qed.

End Config.

(** ** Theorems *)

(** C4. In every run of a server that takes connections and buffers bytes, each step that
    can be taken is defined: no callback uses a connection that was destroyed, no
    completion is added to the loop twice, and no assertion fails, whatever peers,
    system calls, allocations and other threads do.  The only exceptions come after a
    loop has failed with connections in it ([stranded]): [wait] for such a server, and
    the first command queued on a stream of such a reactor, which notifies a loop that
    was released. *)
Theorem server_defined cfg n s l :
  0 ≤ max_connections cfg → 0 < write_high_watermark_bytes cfg → reach cfg (Server_init n) s →
  server_enabled s l = true →
  (∃ s', server_step cfg s l = Some s') ∨
  match l with
  | LWait => ∃ r, r ∈ sv_reactors s ∧ rx_failed r = true ∧ rx_connections r ≠ []
  | LCommand i _ _ stored _ =>
      stored = true ∧ ∃ r, sv_reactors s !! i = Some r ∧ rx_failed r = true ∧ state (rx_shared r) = Stopped ∧
        rx_connections r ≠ [] ∧ rx_commands r = []
  | _ => False
  end.
Proof.
  intros Hm Hh Hr He. destruct (server_step_inv Hh s l) as [[Hl _]|(s' & H & _)]; [by eapply reach_inv|done|right|left; by exists s'].
  destruct l; try done; simpl in Hl.
  - apply existsb_exists in Hl as (r & Hin%list_elem_of_In & Hl). exists r. split; [done|]. by apply stranded_true.
  - destruct Hl as (r & Hi & [Hf Hc]%stranded_true & Hn). unfold notifies_released in Hn.
    rewrite !andb_true_iff, !bool_decide_eq_true in Hn. destruct Hn as [[-> ?] ?]. split; [done|]. by exists r.
Qed.

(** C20. The counter that the reactors share is the number of connections that exist or are
    being accepted, and it is within the limit.  Once all reactors that were launched
    have stopped, it is the number of connections left in loops that have failed, so
    that it is zero when no loop has; and the assertion of [wait] that it is zero fails
    exactly when a loop has failed with connections in it. *)
Theorem admitted_exact cfg n s :
  0 ≤ max_connections cfg → 0 < write_high_watermark_bytes cfg → reach cfg (Server_init n) s →
  admitted_connections s = Z.of_nat (sum_list_with own (sv_reactors s)) ∧ admitted_connections s ≤ max_connections cfg ∧
  ((∀ i, (i < launched_count s)%nat → reactor_stopped s i = true) →
    admitted_connections s =
      Z.of_nat (sum_list_with (λ r, if rx_failed r then length (rx_connections r) else 0%nat) (sv_reactors s)) ∧
    (wait_end s = None ↔ ∃ r, r ∈ sv_reactors s ∧ rx_failed r = true ∧ rx_connections r ≠ [])).
Proof.
  intros Hm Hh Hr. pose proof (reach_inv Hm Hh n s Hr) as Hs. split_and!; [apply Hs|apply Hs|]. intros Hall.
  pose proof (all_stopped s Hs Hall) as E. split; [rewrite E; f_equal; apply sum_stranded|].
  unfold wait_end. rewrite E. rewrite <- exists_stranded, <- stranded_sum.
  case_match eqn:E0; [apply Z.eqb_eq in E0|apply Z.eqb_neq in E0]; split; intros H; try done; lia.
Qed.

(** What reactor [r] has heard of request [q] *)
Definition obeys (q : ShutdownRequest) (r : Reactor) : Prop :=
  let st := state (rx_shared r) in
  match q with
  | NoShutdown => True
  | Graceful => st = Draining ∨ st = Stopping ∨ st = Stopped ∨ st = Starting ∧ shutdown_request (rx_shared r) ≠ NoShutdown
  | Immediate => st = Stopping ∨ st = Stopped ∨ st = Starting ∧ shutdown_request (rx_shared r) = Immediate
  end.

(** C5. A request to shut down gets to every reactor, also to one that is launched later or
    is still starting, and in whatever order requests, starts and failures of starts
    come: when no request is on its way any more, every reactor that was launched obeys
    the strongest request there was. *)
Theorem request_reaches cfg n s i r :
  0 ≤ max_connections cfg → 0 < write_high_watermark_bytes cfg → reach cfg (Server_init n) s →
  (∀ q timeout rest, (q, timeout, rest) ∈ sv_requests s → rest = []) →
  match sv_start s with Telling _ | Rolling (_ :: _) => False | _ => True end →
  sv_reactors s !! i = Some r → (i < launched_count s)%nat → obeys (sv_shutdown_request s) r.
Proof.
  intros Hm Hh Hr Hq Hroll Hi Hlt. pose proof (reach_inv Hm Hh n s Hr) as Hs. destruct (si_level _ Hs i r Hi Hlt) as [Hl|[(q & t & rest & H1 & _ & H2)|H]].
  - unfold obeys, level in *. destruct (sv_shutdown_request s), (state (rx_shared r)); simpl in Hl; try lia; auto.
    all: destruct (shutdown_request (rx_shared r)) eqn:E; simpl in Hl; try lia; auto 6.
  - rewrite (Hq _ _ _ H1) in H2. by apply elem_of_nil in H2.
  - destruct (sv_start s) as [| | | |[]|]; try done. by apply elem_of_nil in H.
Qed.

(** C17. As long as notifying a loop and its drain timer work, a reactor that was told to
    shut down does not miss it.  A reactor that drains has the notification to come, or
    has started its drain timer and is closing its listener; one that stops has the
    notification to come, or is closing its listener and all its connections, and is
    not accepting one. *)
Theorem shutdown_noticed cfg n s i r :
  0 ≤ max_connections cfg → 0 < write_high_watermark_bytes cfg → reach cfg (Server_init n) s →
  sv_reactors s !! i = Some r → notify_lost (rx_shared r) = false →
  (state (rx_shared r) = Draining → shutdown_notified (rx_shared r) = true ∨
     rx_drain_timer r = true ∧ closing_listener (rx_listener r)) ∧
  (state (rx_shared r) = Stopping → shutdown_notified (rx_shared r) = true ∨ winding r).
Proof.
  intros Hm Hh Hr Hi Hlost. pose proof (si_reactors _ (reach_inv Hm Hh n s Hr) i r Hi) as [Hf _ Hstop _].
  destruct (fi_prog _ _ _ Hf). unfold noticed, notice in *. simpl in *. rewrite Hlost in *. split; intros Hst.
  - destruct (pg_draining Hst) as [[[?|?]|[]]|Hd]; [done|by left|right].
    destruct (pg_timer Hd Hst) as [|[|[]]]; [|done]. split; [done|]. by apply pg_started.
  - destruct (pg_stopping Hst) as [[[?|?]|[]]|[Hl Hc]]; [done|by left|]. destruct (shutdown_notified (rx_shared r)) eqn:En; [by left|right].
    split; [done|]. split; [done|done| |].
    + apply not_true_is_false. intros H. destruct (pg_claimed H) as (_ & [?|[?|?]] & _); congruence.
    + intros _. destruct (Hstop Hst) as [[?|?]|H]; simpl in *; [congruence..|done].
Qed.

(** Once the notification is delivered to a reactor that is to stop, or its drain timer
    expires, everything it has is being closed. *)
Lemma shutdown_begins cfg n s i r cb sched r' :
  0 ≤ max_connections cfg → 0 < write_high_watermark_bytes cfg → reach cfg (Server_init n) s →
  sv_reactors s !! i = Some r → enabled (reactor_view s r) cb = true → exec cfg cb sched (reactor_view s r) = Some r' →
  match cb with
  | CbShutdown _ => state (rx_shared r) = Stopping
  | CbDrainTimeout failed => failed = false ∧ (state (rx_shared r) = Draining ∨ state (rx_shared r) = Stopping)
  | _ => False
  end → winding r'.
Proof.
  intros Hm Hh Hr Hi He Hx Hcb. pose proof (si_reactors _ (reach_inv Hm Hh n s Hr) i r Hi) as Hinv.
  apply (inv_sched _ sched) in Hinv. pose proof (begins_spec _ cb _ Hinv ltac:(by destruct cb) Hcb) as Hw.
  unfold exec in Hx. unfold wp in Hw. destruct (callback cfg cb _) as [[a r1]|]; [|done]. simplify_eq. by apply winding_sched.
Qed.

(** C16. A reactor that is closing everything ends: whatever else happens in a run, each of
    its completions that is not started again leaves less to be done, there are at most
    six of them for a connection and four for the listener, and until the loop has
    stopped there is always one to come. *)
Theorem winding_ends cfg n s i r k s' :
  0 ≤ max_connections cfg → 0 < write_high_watermark_bytes cfg → reach cfg (Server_init n) s →
  sv_reactors s !! i = Some r → winding r → run cfg i s k s' →
  (k ≤ 6 * length (rx_connections r) + 4)%nat ∧
  ∃ r', sv_reactors s' !! i = Some r' ∧ (k + rank r' ≤ rank r)%nat ∧
    (state (rx_shared r') = Stopped ∨ rx_loop_stopped r' = true ∨
     ∃ cb, enabled (reactor_view s' r') cb = true ∧ productive r' cb = true).
Proof.
  intros Hm Hh Hr Hi Hw Hrun. pose proof (reach_inv Hm Hh n s Hr) as Hs.
  assert (@server_inv cfg s' ∧ ∃ r', sv_reactors s' !! i = Some r' ∧ ending r' ∧ (k + rank r' ≤ rank r)%nat) as (Hs' & r' & Hi' & He & Hk).
  { induction Hrun as [|k s1 l s2 _ (Hs1 & r1 & Hi1 & He1 & Hk1) Hen Hst]; [split; [done|]; exists r; split_and!; [done|by left|lia]|].
    destruct (server_step_inv Hh s1 l Hs1 Hen) as [[_ E]|(s2' & E & Hs2)]; simplify_eq. split; [done|].
    destruct (step_ending Hh s1 l s2 i r1 Hs1 Hen Hst Hi1 He1) as (r2 & ? & ? & ?). exists r2. split_and!; [done..|lia]. }
  split; [pose proof (rank_bound _ _ (si_reactors _ Hs i r Hi)) as H; change (rank (reactor_view s r)) with (rank r) in H; simpl in H; lia|].
  exists r'. split_and!; [done..|]. destruct He as [He|]; [right|by left].
  apply (winding_productive _ _ (si_reactors _ Hs' i r' Hi')). destruct He as [? []]. by split.
Qed.

(** C18. What a connection has given to the kernel is always the beginning of what its
    session produced, in order and without gaps; while it is not closing, the rest of
    that is in its queue.  The accounts of the queue are exact, and less than the
    longest chunk above the high watermark. *)
Theorem written_in_order cfg n s i r c x :
  0 ≤ max_connections cfg → 0 < write_high_watermark_bytes cfg → reach cfg (Server_init n) s →
  sv_reactors s !! i = Some r → rx_conns r !! c = Some x →
  sent x `prefix_of` produced x ∧ (closing x = false → sent x ++ unsent x = produced x) ∧
  pending_writes x = Z.of_nat (length (write_queue x)) ∧
  queued_write_bytes x = Z.of_nat (length (concat (write_queue x))) ∧
  queued_write_bytes x < write_high_watermark_bytes cfg + longest x.
Proof.
  intros Hm Hh Hr Hi Hx. pose proof (si_reactors _ (reach_inv Hm Hh n s Hr) i r Hi) as [_ Ha _ _].
  destruct (Ha c (mkCell x (ops_of r c))) as [[] _]; [done|]. simpl in *. split_and!; try done; [by apply cm_exact|by apply cm_bound].
Qed.

(** ** A run *)

Fixpoint play (cfg : Config) (s : Server) (ls : list Label) : option Server :=
  match ls with
  | [] => Some s
  | l :: ls' => if server_enabled s l then server_step cfg s l ≫= λ s', play cfg s' ls' else None
  end.

Lemma play_reach cfg s0 ls s s' : reach cfg s0 s → play cfg s ls = Some s' → reach cfg s0 s'.
Proof.
  revert s. induction ls as [|l ls IH]; intros s Hr Hp; simpl in Hp; [by simplify_eq|].
  destruct (server_enabled s l) eqn:He; [|done]. destruct (server_step cfg s l) as [s1|] eqn:Hs; [|done].
  apply (IH s1); [|done]. by eapply reach_step.
Qed.

Definition demo_cfg : Config := mkConfig 4 1000 500 100.
Definition silent : Flush := mkFlush [] true.
Definition no_dirty : DirtyEnv := mkDirtyEnv (λ _, silent) (λ _, true).
Definition goaway : DrainEnv := mkDrainEnv (λ _, true) (λ _, mkFlush [SendChunk [] [7] NoFault] true).

(** One reactor starts, accepts a connection, and gets a request on it. *)
Definition opening : list Label :=
  let at0 cb := LReactor 0 cb [] in
  [LStart; LLaunch true; at0 (CbStart true true); LAwaited true; LLaunch true;
   at0 (CbAccept true);
   at0 (CbAdmit (mkAdmit true (Some 0%nat) true (true, true) true true (mkFlush [SendChunk [] [4] NoFault] true)));
   at0 (CbWrite 0 WriteAll true); at0 (CbStream false [] (λ _, false) no_dirty);
   at0 (CbRead 0 (ReadBytes [SettingsReceived true; BeginHeaders 1 true] true silent true true))].

(** Then the server is shut down gracefully. *)
Definition draining_labels : list Label :=
  let at0 cb := LReactor 0 cb [] in
  [LRequest Graceful 1000; LDeliver 0 true; at0 (CbShutdown goaway); at0 CbAcceptCanceled; at0 (CbListenerClosed goaway);
   at0 (CbWrite 0 WriteAll true); at0 (CbStream false [] (λ _, false) no_dirty)].

(** The peer resets the only stream. *)
Definition reset : Label := LReactor 0 (CbRead 0 (ReadBytes [OnStream (StreamClosed 1 true)] true silent true true)) [].

Definition demo (ls : list Label) : Server := default (Server_init 1) (play demo_cfg (Server_init 1) ls).
Definition demo_reactor (ls : list Label) : Reactor := default Reactor_init (sv_reactors (demo ls) !! 0%nat).

Lemma demo_reach ls : is_Some (play demo_cfg (Server_init 1) ls) → reach demo_cfg (Server_init 1) (demo ls).
Proof. intros [s E]. unfold demo. rewrite E. eapply play_reach; [constructor|exact E]. Qed.

Definition stopping_labels : list Label :=
  opening ++ draining_labels ++ [LRequest Immediate 0; LDeliver 1 true; LReactor 0 (CbShutdown goaway) []].

(** ** The theorems at these states *)

Lemma demo_cfg_ok : 0 ≤ max_connections demo_cfg ∧ 0 < write_high_watermark_bytes demo_cfg.
Proof. done. Qed.

Lemma server_defined_witness :
  ∃ s', server_step demo_cfg (demo (opening ++ draining_labels)) reset = Some s'.
Proof.
  destruct (server_defined demo_cfg 1 (demo (opening ++ draining_labels)) reset) as [H|[]];
    [apply demo_cfg_ok|apply demo_cfg_ok|apply demo_reach; vm_compute; eauto|vm_compute; reflexivity|exact H].
Defined.

Lemma admitted_exact_witness :
  let s := demo (opening ++ [LReactor 0 (CbEnd true) []]) in
  admitted_connections s = 1 ∧ wait_end s = None.
Proof.
  destruct (admitted_exact demo_cfg 1 (demo (opening ++ [LReactor 0 (CbEnd true) []]))) as (_ & _ & H);
    [apply demo_cfg_ok|apply demo_cfg_ok|apply demo_reach; vm_compute; eauto|].
  destruct H as [H1 H2].
  - intros i Hi. assert (i = 0%nat) as -> by (vm_compute in Hi; lia). vm_compute. reflexivity.
  - split; [rewrite H1; vm_compute; reflexivity|]. apply H2.
    exists (demo_reactor (opening ++ [LReactor 0 (CbEnd true) []])).
    split_and!; [apply (list_elem_of_lookup_2 _ 0); vm_compute; reflexivity|vm_compute; reflexivity|vm_compute; discriminate].
Defined.

(** Two reactors, and a request between their launches *)
Definition late_labels : list Label :=
  [LStart; LLaunch true; LRequest Graceful 1000; LDeliver 0 true; LReactor 0 (CbStart true true) []; LAwaited true; LLaunch true; LTell true].
Definition late : Server := default (Server_init 2) (play demo_cfg (Server_init 2) late_labels).

Lemma request_reaches_witness : obeys (sv_shutdown_request late) (default Reactor_init (sv_reactors late !! 1%nat)).
Proof.
  apply (request_reaches demo_cfg 2 late 1); [apply demo_cfg_ok|apply demo_cfg_ok| |..].
  - apply (play_reach demo_cfg (Server_init 2) late_labels (Server_init 2)); [constructor|vm_compute; reflexivity].
  - assert (Forall (λ e, e.2 = []) (sv_requests late)) as Hall by (vm_compute; repeat constructor).
    rewrite Forall_forall in Hall. intros q timeout rest H. exact (Hall _ H).
  - vm_compute. exact I.
  - vm_compute. reflexivity.
  - vm_compute. lia.
Defined.

Lemma shutdown_noticed_witness :
  let r := demo_reactor (opening ++ draining_labels) in
  (state (rx_shared r) = Draining → shutdown_notified (rx_shared r) = true ∨
     rx_drain_timer r = true ∧ closing_listener (rx_listener r)) ∧
  (state (rx_shared r) = Stopping → shutdown_notified (rx_shared r) = true ∨ winding r).
Proof.
  apply (shutdown_noticed demo_cfg 1 (demo (opening ++ draining_labels)) 0);
    [apply demo_cfg_ok|apply demo_cfg_ok|apply demo_reach; vm_compute; eauto|vm_compute; reflexivity..].
Defined.

Lemma demo_winding : winding (demo_reactor stopping_labels).
Proof.
  split; [vm_compute; reflexivity|]. split; [left; vm_compute; reflexivity| |vm_compute; reflexivity|].
  - assert (bool_decide (map_Forall (λ _ x, closing x = true) (rx_conns (demo_reactor stopping_labels))) = true) as H by (vm_compute; reflexivity).
    apply bool_decide_eq_true in H. exact H.
  - intros _ _ H. vm_compute in H. discriminate H.
Qed.

Lemma winding_ends_witness :
  let s' := default (Server_init 1) (server_step demo_cfg (demo stopping_labels) (LReactor 0 (CbRead 0 ReadError) [])) in
  (1 ≤ 6 * length (rx_connections (demo_reactor stopping_labels)) + 4)%nat ∧
  ∃ r', sv_reactors s' !! 0%nat = Some r' ∧ (1 + rank r' ≤ rank (demo_reactor stopping_labels))%nat ∧
    (state (rx_shared r') = Stopped ∨ rx_loop_stopped r' = true ∨
     ∃ cb, enabled (reactor_view s' r') cb = true ∧ productive r' cb = true).
Proof.
  apply (winding_ends demo_cfg 1 (demo stopping_labels));
    [apply demo_cfg_ok|apply demo_cfg_ok|apply demo_reach; vm_compute; eauto|vm_compute; reflexivity|apply demo_winding|].
  apply (run_step demo_cfg 0 (demo stopping_labels) 0 (demo stopping_labels) (LReactor 0 (CbRead 0 ReadError) []));
    [constructor|vm_compute; reflexivity|vm_compute; reflexivity].
Defined.

Lemma written_in_order_witness :
  ∃ x, rx_conns (demo_reactor (opening ++ draining_labels)) !! 0%nat = Some x ∧ sent x = [4; 7] ∧ sent x `prefix_of` produced x.
Proof.
  destruct (rx_conns (demo_reactor (opening ++ draining_labels)) !! 0%nat) as [x|] eqn:E; [|vm_compute in E; discriminate E].
  exists x. split; [reflexivity|]. split; [vm_compute in E; injection E as <-; reflexivity|].
  apply (written_in_order demo_cfg 1 (demo (opening ++ draining_labels)) 0 (demo_reactor (opening ++ draining_labels)) 0 x);
    [apply demo_cfg_ok|apply demo_cfg_ok|apply demo_reach; vm_compute; eauto|vm_compute; reflexivity|exact E].
Defined.
