(* ===== verification/ServerLinger.v ===== *)
(** * A drained connection that nothing closes

    A connection of a reactor that drains, whose last stream has ended by something the
    peer sent while nothing was to be sent: nothing that the server does on its own
    closes it before the drain timer expires. *)

From S2P Require Import Prelude UbLogic ServerReactor ServerInvariant ServerCallbacks ServerLifecycle ServerSafety ServerRequests ServerCoordinator ServerRuns ServerShutdown.

Local Open Scope Z_scope.

(** Connection [c] is [x], with nothing to do for it and one read that waits. *)
Record lingers (c : nat) (x : Connection) (r : Reactor) : Prop := {
  lg_conn : rx_conns r !! c = Some x;
  lg_ops : ops_of r c = mkConnOps true false false false false;
  lg_draining : draining x = true;
  lg_streams : streams x = ∅;
  lg_writes : pending_writes x = 0;
  lg_open : closing x = false ∧ close_after_writes x = false;
  lg_deadline : connection_deadline x = None;
  lg_dirty : c ∉ rx_dirty r;
  lg_listener : listener_closed (rx_listener r) = true;
  lg_state : state (rx_shared r) = Draining;
  lg_notified : shutdown_notified (rx_shared r) = false }.

Definition not_immediate (q : Request) : Prop := rq_request q ≠ Immediate.

(** What of it holds in the middle of a callback *)
Record quiet (c : nat) (x : Connection) (o : ConnOps) (r : Reactor) : Prop := {
  qt_conn : rx_conns r !! c = Some x;
  qt_ops : ops_of r c = o;
  qt_streams : streams x = ∅;
  qt_deadline : connection_deadline x = None;
  qt_dirty : c ∉ rx_dirty r;
  qt_commands : ∀ id, (c, id) ∉ rx_commands r;
  qt_connections : c ∈ rx_connections r;
  qt_listener : listener_closed (rx_listener r) = true ∧ listener_close_submitted (rx_listener r) = true;
  qt_state : state (rx_shared r) = Draining ∧ shutdown_notified (rx_shared r) = false;
  qt_sched : Forall (Forall not_immediate) (rx_sched r) }.

(** [m] leaves connection [c] alone. *)
Definition spares {A} (c : nat) (x : Connection) (o : ConnOps) (m : UB Reactor A) : Prop :=
  ∀ r, quiet c x o r → match m r with Some (_, r') => quiet c x o r' | None => True end.

Create HintDb spares.

Section Rules.
Context {A B : Type} (c : nat) (x : Connection) (o : ConnOps).

Local Abbreviation spares m := (spares c x o m).
Local Abbreviation quiet := (quiet c x o).

Lemma spares_ret (a : A) : spares (mret a : UB Reactor A).
Proof. by intros r Hr. Qed.

Lemma spares_undefined : spares (undefined : UB Reactor A).
Proof. by intros r Hr. Qed.

Lemma spares_bind (m : UB Reactor A) (k : A → UB Reactor B) : spares m → (∀ a, spares (k a)) → spares (m ≫= k).
Proof.
  intros Hm Hk r Hr. unfold mbind, ub_bind. specialize (Hm r Hr). destruct (m r) as [[a r1]|]; [|done]. by apply Hk.
Qed.

Lemma spares_get (k : Reactor → UB Reactor B) : (∀ r, quiet r → spares (k r)) → spares (get ≫= k).
Proof. intros Hk r Hr. exact (Hk r Hr r Hr). Qed.

Lemma spares_put r : quiet r → spares (put r).
Proof. by intros Hr r' _. Qed.

Lemma spares_modify f : (∀ r, quiet r → quiet (f r)) → spares (modify f).
Proof. intros Hf r Hr. exact (Hf r Hr). Qed.

Lemma spares_check b : spares (check b).
Proof. by destruct b; intros r Hr. Qed.

Lemma quiet_other c' e r :
  c' ≠ c → quiet r → quiet (r <| rx_conns := <[c' := conn e]> (rx_conns r) |> <| rx_ops := <[c' := ops e]> (rx_ops r) |>).
Proof.
  intros Hne []. split; try done; simpl; [by rewrite lookup_insert_ne|]. unfold ops_of in *. simpl. by rewrite lookup_insert_ne.
Qed.

Lemma spares_on_conn c' (m : UB Cell A) : c' ≠ c → spares (on_conn c' m).
Proof.
  intros Hne r Hr. unfold on_conn. destruct (rx_conns r !! c'); [|done]. destruct (m _) as [[a e]|]; [|done].
  by apply quiet_other.
Qed.

(** Looking at a connection, which may be [c] *)
Lemma spares_look c' (k : Connection → UB Reactor B) :
  (∀ y, (c' = c → y = x) → spares (k y)) → spares (conn_at c' ≫= k).
Proof.
  intros Hk r Hr. unfold mbind, ub_bind, conn_at, on_conn, self. simpl.
  destruct (rx_conns r !! c') as [y|] eqn:E; [|done]. simpl. apply Hk.
  - intros ->. rewrite (qt_conn _ _ _ _ Hr) in E. congruence.
  - destruct (decide (c' = c)) as [->|Hne]; [|by apply (quiet_other c' (mkCell y (ops_of r c')))].
    destruct Hr. split; try done; simpl.
    + rewrite lookup_insert_eq. congruence.
    + unfold ops_of. simpl. by rewrite lookup_insert_eq.
Qed.

Lemma quiet_request q r : not_immediate q → quiet r → shutdownReactor q (rx_shared r) = rx_shared r.
Proof. intros Hq [_ _ _ _ _ _ _ _ [E _] _]. unfold shutdownReactor. rewrite E. by rewrite decide_False. Qed.

Lemma quiet_requests qs r :
  Forall not_immediate qs → quiet r → foldl (λ s q, shutdownReactor q s) (rx_shared r) qs = rx_shared r.
Proof. intros Hqs Hr. induction Hqs as [|q qs Hq _ IH]; [done|]. simpl. by rewrite quiet_request. Qed.

Lemma spares_lock (k : Shared → UB Reactor B) : (∀ s, state s = Draining → spares (k s)) → spares (lock ≫= k).
Proof.
  intros Hk r Hr. unfold lock, mbind, ub_bind, get, put, mret, ub_ret. pose proof (qt_sched _ _ _ _ Hr) as Hs.
  destruct (rx_sched r) as [|qs sched] eqn:E; simpl.
  - apply Hk; [apply Hr|done].
  - apply Forall_cons in Hs as [Hqs Hs]. rewrite (quiet_requests qs r Hqs Hr). apply Hk; [apply Hr|]. by destruct Hr.
Qed.
End Rules.

#[export] Hint Resolve spares_ret spares_undefined spares_put spares_check spares_on_conn : spares.

(** A change of the reactor that does not matter *)
Ltac quiet_done := intros; match goal with H : quiet _ _ _ _ |- _ => destruct H; split; simpl; 
      try match goal with |- ∀ _ : Z, _ => intros ? end;
      solve [done | auto | by rewrite lookup_delete_ne | rewrite ?list_elem_of_filter, ?elem_of_app, ?list_elem_of_singleton; naive_solver]
  end.

(** Through the structure of a function, as in [keeps] *)
Ltac spares :=
  repeat match goal with
  | |- ∀ _, _ => intros ?
  | |- spares _ _ _ (get ≫= _) => apply spares_get
  | |- spares _ _ _ (lock ≫= _) => apply spares_lock
  | |- spares _ _ _ (conn_at _ ≫= _) => apply spares_look
  | |- spares _ _ _ (_ ≫= _) => apply spares_bind
  | |- spares _ _ _ (modify _) => solve [apply spares_modify; quiet_done]
  | |- spares _ _ _ (put _) => solve [apply spares_put; quiet_done]
  | |- spares _ _ _ (match ?x with _ => _ end) => destruct x
  | |- _ => progress eauto with spares
  end.

Lemma index_of_Some c l i : index_of c l = Some i → l !! i = Some c.
Proof.
  revert i. induction l as [|c' l IH]; intros i; simpl; [done|]. case_decide; [by intros [= <-]; subst|].
  destruct (index_of c l) as [j|]; [|done]. intros [= <-]. by apply IH.
Qed.

(** ** Work for another connection *)

Section Other.
Context (c : nat) (x : Connection) (o : ConnOps) (c' : nat) (Hne : c' ≠ c).

Local Abbreviation spares m := (spares c x o m).

Lemma spares_removeDirtyConnection : spares (removeDirtyConnection c').
Proof. unfold removeDirtyConnection. spares. Qed.
#[local] Hint Resolve spares_removeDirtyConnection : spares.

Lemma spares_enqueueDirtyConnection : spares (enqueueDirtyConnection c').
Proof. unfold enqueueDirtyConnection. spares. Qed.
#[local] Hint Resolve spares_enqueueDirtyConnection : spares.

Lemma spares_discard_commands p : spares (discard_commands c' p).
Proof. unfold discard_commands. spares. Qed.
#[local] Hint Resolve spares_discard_commands : spares.

Lemma spares_cancel_streams : spares (cancel_streams c').
Proof. unfold cancel_streams. spares. Qed.
#[local] Hint Resolve spares_cancel_streams : spares.

Lemma spares_closeOnLoop : spares (closeOnLoop c').
Proof. unfold closeOnLoop. spares. Qed.
#[local] Hint Resolve spares_closeOnLoop : spares.

Lemma spares_closeWithReason reason : spares (closeWithReason c' reason).
Proof. unfold closeWithReason. spares. Qed.
#[local] Hint Resolve spares_closeWithReason : spares.

Lemma spares_closeGracefully : spares (closeGracefully c').
Proof. unfold closeGracefully. spares. Qed.
#[local] Hint Resolve spares_closeGracefully : spares.

Lemma spares_closeTerminatedSession want : spares (closeTerminatedSession c' want).
Proof. unfold closeTerminatedSession. spares. Qed.
#[local] Hint Resolve spares_closeTerminatedSession : spares.

Lemma spares_maybeCloseDrainedConnection : spares (maybeCloseDrainedConnection c').
Proof. unfold maybeCloseDrainedConnection. spares. Qed.
#[local] Hint Resolve spares_maybeCloseDrainedConnection : spares.

Lemma spares_maybeStopLoop : spares maybeStopLoop.
Proof. unfold maybeStopLoop. spares. Qed.
#[local] Hint Resolve spares_maybeStopLoop : spares.

Lemma spares_finishDrainIfIdle : spares finishDrainIfIdle.
Proof.
  unfold finishDrainIfIdle. apply spares_lock. intros s Hs. apply spares_get. intros r Hr.
  rewrite (bool_decide_false (rx_connections r = [])), andb_false_r; [apply spares_ret|]. intros E.
  pose proof (qt_connections _ _ _ _ Hr) as H. rewrite E in H. by apply elem_of_nil in H.
Qed.
#[local] Hint Resolve spares_finishDrainIfIdle : spares.

Lemma spares_releaseConnection cfg : spares (releaseConnection cfg).
Proof. unfold releaseConnection. spares. Qed.
#[local] Hint Resolve spares_releaseConnection : spares.

Lemma spares_destroy_connection : spares (destroy_connection c').
Proof. unfold destroy_connection. spares. Qed.
#[local] Hint Resolve spares_destroy_connection : spares.

Lemma spares_retire_streams : spares (retire_streams c').
Proof. unfold retire_streams. spares. Qed.
#[local] Hint Resolve spares_retire_streams : spares.

Lemma spares_finishCloseIfReady cfg : spares (finishCloseIfReady cfg c').
Proof.
  unfold finishCloseIfReady. apply spares_look. intros y _. case_match; [by spares|]. do 4 (apply spares_bind; [by spares|intros _]).
  apply spares_get. intros r Hr. destruct (index_of c' (rx_connections r)) as [i|] eqn:Ei; [|by spares].
  assert (c ∈ swapRemove i (rx_connections r)) as Hin.
  { pose proof (qt_connections _ _ _ _ Hr) as Hc. rewrite <- (swapRemove_perm i c') in Hc by by apply index_of_Some.
    by apply elem_of_cons in Hc as [->|]. }
  spares.
Qed.
#[local] Hint Resolve spares_finishCloseIfReady : spares.

Lemma spares_armIdleDeadline memory : spares (armIdleDeadline c' memory).
Proof. unfold armIdleDeadline. spares. Qed.
#[local] Hint Resolve spares_armIdleDeadline : spares.

Lemma spares_onBeginHeaders cfg id memory : spares (onBeginHeaders cfg c' id memory).
Proof. unfold onBeginHeaders. spares. Qed.
#[local] Hint Resolve spares_onBeginHeaders : spares.

Lemma spares_onSettings memory : spares (onSettings c' memory).
Proof. unfold onSettings. spares. Qed.
#[local] Hint Resolve spares_onSettings : spares.

Lemma spares_onStreamClose id memory : spares (onStreamClose c' id memory).
Proof. unfold onStreamClose. spares. Qed.
#[local] Hint Resolve spares_onStreamClose : spares.

Lemma spares_stream_event e : spares (stream_event c' e).
Proof. unfold stream_event. spares. Qed.
#[local] Hint Resolve spares_stream_event : spares.

Lemma spares_recv_event cfg e : spares (recv_event cfg c' e).
Proof. unfold recv_event. spares. Qed.
#[local] Hint Resolve spares_recv_event : spares.

Lemma spares_all_events {E} (f : E → UB Reactor bool) es : (∀ e, spares (f e)) → spares (all_events f es).
Proof. intros Hf. induction es; simpl; spares. Qed.
#[local] Hint Resolve spares_all_events : spares.

Lemma spares_or_close m : spares m → spares (or_close c' m).
Proof. intros Hm. unfold or_close. spares. Qed.
#[local] Hint Resolve spares_or_close : spares.

Lemma spares_flush_chunk batch data fault : spares (flush_chunk c' batch data fault).
Proof. unfold flush_chunk. destruct (batch_append batch data). spares. Qed.
#[local] Hint Resolve spares_flush_chunk : spares.

Lemma spares_flush_loop cfg steps batch : spares (flush_loop cfg c' steps batch).
Proof. revert batch. induction steps as [|[] ? ?]; intros batch; simpl; spares. Qed.
#[local] Hint Resolve spares_flush_loop : spares.

Lemma spares_flush cfg f : spares (flush cfg c' f).
Proof. unfold flush. spares. Qed.
#[local] Hint Resolve spares_flush : spares.

Lemma spares_closeListener : spares closeListener.
Proof.
  unfold closeListener. apply spares_get. intros r Hr. destruct (qt_listener _ _ _ _ Hr) as [_ ->].
  rewrite orb_true_r. apply spares_ret.
Qed.
#[local] Hint Resolve spares_closeListener : spares.

Lemma spares_rearmListener : spares rearmListener.
Proof. unfold rearmListener, set_listener. spares. Qed.
#[local] Hint Resolve spares_rearmListener : spares.

Lemma spares_onConnection_claim cfg accepted : spares (onConnection_claim cfg accepted).
Proof. unfold onConnection_claim, isAccepting, tryClaimConnection, set_listener. spares. Qed.
#[local] Hint Resolve spares_onConnection_claim : spares.

Lemma spares_read_bytes cfg events consumed f want memory : spares (read_bytes cfg c' events consumed f want memory).
Proof. unfold read_bytes. spares. Qed.
#[local] Hint Resolve spares_read_bytes : spares.

Lemma spares_onRead cfg result : spares (onRead cfg c' result).
Proof. unfold onRead. spares. Qed.
#[local] Hint Resolve spares_onRead : spares.

Lemma spares_onWrite cfg bytes written notified : spares (onWrite cfg c' bytes written notified).
Proof. unfold onWrite. spares. Qed.
#[local] Hint Resolve spares_onWrite : spares.

Lemma spares_write_callback cfg result notified : spares (write_callback cfg c' result notified).
Proof. unfold write_callback. spares. Qed.
#[local] Hint Resolve spares_write_callback : spares.

Lemma spares_onReadCanceled cfg : spares (onReadCanceled cfg c').
Proof. unfold onReadCanceled. spares. Qed.
#[local] Hint Resolve spares_onReadCanceled : spares.

Lemma spares_onWriteCanceled cfg not_found : spares (onWriteCanceled cfg c' not_found).
Proof. unfold onWriteCanceled. spares. Qed.
#[local] Hint Resolve spares_onWriteCanceled : spares.

Lemma spares_onConnectionClosed cfg : spares (onConnectionClosed cfg c').
Proof. unfold onConnectionClosed. spares. Qed.
#[local] Hint Resolve spares_onConnectionClosed : spares.

Lemma spares_drain_dirty cfg d : spares (drain_dirty cfg d c').
Proof. unfold drain_dirty. spares. Qed.
#[local] Hint Resolve spares_drain_dirty : spares.

Lemma spares_touch closes : spares (touch c' closes).
Proof. unfold touch. spares. Qed.
#[local] Hint Resolve spares_touch : spares.

Lemma spares_deliver f : spares (deliver c' f).
Proof.
  apply spares_modify. intros r []. split; try done. unfold ops_of in *. simpl. by rewrite lookup_insert_ne.
Qed.
#[local] Hint Resolve spares_deliver : spares.

Lemma spares_stream_expired id closes : spares (stream_expired c' id closes).
Proof. unfold stream_expired. spares. Qed.
#[local] Hint Resolve spares_stream_expired : spares.

Lemma spares_connection_expired cfg goaway f all_queued : spares (connection_expired cfg c' goaway f all_queued).
Proof. unfold connection_expired. spares. Qed.
#[local] Hint Resolve spares_connection_expired : spares.

End Other.

#[export] Hint Resolve spares_removeDirtyConnection spares_enqueueDirtyConnection spares_discard_commands spares_cancel_streams
  spares_closeOnLoop spares_closeWithReason spares_closeGracefully spares_closeTerminatedSession
  spares_maybeCloseDrainedConnection spares_maybeStopLoop spares_finishDrainIfIdle
  spares_releaseConnection spares_destroy_connection spares_finishCloseIfReady spares_armIdleDeadline
  spares_onBeginHeaders spares_onSettings spares_onStreamClose spares_stream_event spares_recv_event
  spares_all_events spares_or_close spares_flush_chunk spares_flush_loop spares_flush
  spares_closeListener spares_rearmListener spares_onConnection_claim spares_read_bytes spares_onRead
  spares_onWrite spares_write_callback spares_onReadCanceled spares_onWriteCanceled
  spares_onConnectionClosed spares_drain_dirty spares_touch spares_deliver spares_stream_expired
  spares_connection_expired : spares.

(** ** Whole callbacks *)

Section Callbacks.
Context (c : nat) (x : Connection) (o : ConnOps) (Hx : streams x = ∅ ∧ connection_deadline x = None).

Local Abbreviation spares m := (spares c x o m).

(** Only connections in the queue are flushed. *)
Lemma spares_dirty_loop fuel cfg d : spares (dirty_loop fuel cfg d).
Proof.
  induction fuel as [|fuel IH]; simpl; [by spares|]. apply spares_get. intros r Hr.
  destruct (rx_dirty r) as [|c' rest] eqn:E; [by spares|]. pose proof (qt_dirty _ _ _ _ Hr) as Hd. rewrite E in Hd.
  apply not_elem_of_cons in Hd as [Hne Hd]. apply spares_bind; [apply spares_put; by destruct Hr|]. spares.
Qed.

Lemma spares_drainDirtyConnections cfg d : spares (drainDirtyConnections cfg d).
Proof. unfold drainDirtyConnections. apply spares_get. intros r _. apply spares_dirty_loop. Qed.

Lemma spares_abort_loop aborts : spares (abort_loop aborts).
Proof.
  induction aborts as [|[[c' id] closes] rest IH]; simpl; [by spares|]. apply spares_get. intros r Hr.
  apply spares_bind; [|done]. destruct (decide (c' = c)) as [->|]; [|by spares].
  rewrite (qt_conn _ _ _ _ Hr), (proj1 Hx), lookup_empty. by spares.
Qed.

Lemma spares_command_loop closes commands : (∀ id, (c, id) ∉ commands) → spares (command_loop closes commands).
Proof.
  induction commands as [|[c' id] rest IH]; simpl; intros Hc; [by spares|]. apply spares_bind; [|intros _; apply IH].
  - apply spares_touch. intros ->. apply (Hc id). left.
  - intros id' H. apply (Hc id'). by right.
Qed.

Lemma spares_processStreamCommands cfg aborts closes d : spares (processStreamCommands cfg aborts closes d).
Proof.
  unfold processStreamCommands. apply spares_bind; [apply spares_abort_loop|intros _]. apply spares_lock. intros s _.
  apply spares_get. intros r Hr. apply spares_bind.
  - apply spares_put. destruct Hr. split; try done. intros id. apply not_elem_of_nil.
  - intros _. apply spares_bind; [apply spares_command_loop, Hr|intros _; apply spares_drainDirtyConnections].
Qed.

Lemma spares_expire_all cfg es : spares (expire_all cfg es).
Proof.
  induction es as [|[c' goaway f all_queued|c' id closes] es IH]; simpl; [by spares|..];
    apply spares_get; intros r Hr; (apply spares_bind; [|done]); destruct (decide (c' = c)) as [->|]; try by spares.
  - rewrite (qt_conn _ _ _ _ Hr). unfold connection_expired. apply spares_look. intros y Hy. rewrite (Hy eq_refl), (proj2 Hx). by spares.
  - rewrite (qt_conn _ _ _ _ Hr). simpl. rewrite (proj1 Hx), lookup_empty. by spares.
Qed.

Lemma spares_onDeadlineTimer cfg es d : spares (onDeadlineTimer cfg es d).
Proof. unfold onDeadlineTimer. apply spares_bind; [apply spares_expire_all|intros _; apply spares_drainDirtyConnections]. Qed.

Lemma spares_create_connection c' : c' ≠ c → spares (create_connection c').
Proof.
  intros Hne. unfold create_connection. apply spares_get. intros r Hr. destruct (rx_conns r !! c'); [by spares|].
  apply spares_put. destruct Hr. split; try done; simpl; [by rewrite lookup_insert_ne|]. apply elem_of_app. by left.
Qed.

Lemma spares_onConnection_admitted cfg a : ad_address a ≠ Some c → spares (onConnection_admitted cfg a).
Proof.
  intros Ha. unfold onConnection_admitted. destruct (ad_address a) as [c'|]; [|by spares].
  assert (c' ≠ c) as Hne by congruence. pose proof (spares_create_connection c' Hne). by spares.
Qed.

End Callbacks.

(** ** Steps *)

(** Not what the peer of connection [c] sends, the drain timer, a failure of the loop or
    of waiting on it, or a notification that was not sent *)
Definition calm_callback (c : nat) (r : Reactor) (cb : Callback) : Prop :=
  match cb with
  | CbRead c' _ => c' ≠ c
  | CbShutdown _ => shutdown_notified (rx_shared r) = true
  | CbStream failed _ _ _ => failed = false
  | CbDrainTimeout failed => failed = true
  | CbEnd failed => failed = false
  | _ => True
  end.

(** Nor a request to reactor [i] to stop at once *)
Definition calm (i c : nat) (s : Server) (l : Label) : Prop :=
  match l with
  | LTell _ => sv_start s = Telling i → sv_shutdown_request s ≠ Immediate
  | LRoll _ => match sv_start s with Rolling (j :: _) => j ≠ i | _ => True end
  | LDeliver k _ => match sv_requests s !! k with Some (q, _, j :: _) => j = i → q ≠ Immediate | _ => True end
  | LReactor j cb sched =>
      j = i → Forall (Forall not_immediate) sched ∧ match sv_reactors s !! i with Some r => calm_callback c r cb | None => True end
  | _ => True
  end.

Inductive calm_run (cfg : Config) (i c : nat) (s : Server) : Server → Prop :=
  | calm_refl : calm_run cfg i c s s
  | calm_step s1 l s2 : calm_run cfg i c s s1 → server_enabled s1 l = true → calm i c s1 l → server_step cfg s1 l = Some s2 →
      calm_run cfg i c s s2.

Section Config.
Context {cfg : Config}.

Local Abbreviation reading := (mkConnOps true false false false false).

Lemma lingers_quiet K c x r :
  @inv cfg K r → lingers c x r → Forall (Forall not_immediate) (rx_sched r) → quiet c x reading r.
Proof.
  intros [[] _ _ _] [] Hs. split; try done.
  - intros id (y & Hy & Hid)%fi_commands. rewrite lg_conn0 in Hy. simplify_eq. rewrite lg_streams0, lookup_empty in Hid. by destruct Hid.
  - apply fi_dom. by exists x.
  - split; [done|]. by apply fi_listener.
Qed.

Lemma quiet_lingers c x r r' : lingers c x r → quiet c x reading r' → lingers c x r'.
Proof. intros [] [? ? ? ? ? ? ? [] []]. by split. Qed.

Lemma callback_calm K c x r cb :
  @inv cfg K r → lingers c x r → Forall (Forall not_immediate) (rx_sched r) → enabled r cb = true → calm_callback c r cb →
  match callback cfg cb r with Some (_, r') => quiet c x reading r' | None => True end.
Proof.
  intros Hi Hl Hs He Hcalm. pose proof (lingers_quiet K c x r Hi Hl Hs) as Hq. pose proof (lg_state _ _ _ Hl) as Hst.
  assert (∀ c' op, op reading = false → op (ops_of r c') = true → c' ≠ c) as Hother.
  { intros c' op Hop Ho ->. rewrite (lg_ops _ _ _ Hl) in Ho. congruence. }
  assert (streams x = ∅ ∧ connection_deadline x = None) as Hx by by destruct Hl.
  cut (spares c x reading (callback cfg cb)); [intros H; exact (H r Hq)|]. clear Hq.
  destruct cb as [setup_ok notified|accepted|a| |d|c' result|c' result notified|c'|c' not_found|c'|d|failed aborts closes d|es d|failed|failed];
    simpl in He, Hcalm; unfold loop_running in He; rewrite Hst in He; simpl in He; simpl.
  - done.
  - unfold set_listener. spares.
  - apply spares_onConnection_admitted. intros E. rewrite E in He. apply andb_true_iff in He as [_ He%bool_decide_eq_true].
    rewrite (lg_conn _ _ _ Hl) in He. done.
  - unfold set_listener, onListenerAcceptCanceled, set_listener. spares.
  - apply andb_true_iff in He as [_ He]. destruct (iv_frame _ _ Hi) as [_ _ _ _ _ _ Hli _ _ _].
    rewrite (li_close _ Hli), (lg_listener _ _ _ Hl), andb_false_r in He. done.
  - spares.
  - apply andb_true_iff in He as [_ He]. pose proof (Hother c' op_write eq_refl He). spares.
  - apply andb_true_iff in He as [_ He]. pose proof (Hother c' op_read_cancel eq_refl He). spares.
  - apply andb_true_iff in He as [_ He]. pose proof (Hother c' op_write_cancel eq_refl He). spares.
  - apply andb_true_iff in He as [_ He]. pose proof (Hother c' op_close eq_refl He). spares.
  - rewrite (lg_notified _ _ _ Hl) in Hcalm. done.
  - rewrite Hcalm. apply spares_bind; [by spares|]. intros _. by apply spares_processStreamCommands.
  - by apply spares_onDeadlineTimer.
  - rewrite Hcalm. by spares.
  - rewrite Hcalm in He. apply andb_true_iff in He as [_ He]. destruct (fi_prog _ _ _ (iv_frame _ _ Hi)).
    destruct (pg_stopped He) as ([|] & _); congruence.
Qed.

(** ** Runs *)

Context (Hmax : 0 ≤ max_connections cfg) (Hhigh : 0 < write_high_watermark_bytes cfg).

Lemma lingers_request c x q r : rq_request q ≠ Immediate → lingers c x r → r <| rx_shared := shutdownReactor q (rx_shared r) |> = r.
Proof. intros Hq []. unfold shutdownReactor. rewrite lg_state0, decide_False by done. by destruct r. Qed.

Lemma lingers_shutdown s i c x j q r :
  sv_reactors s !! i = Some r → lingers c x r → (j = i → rq_request q ≠ Immediate) →
  sv_reactors (shutdown_reactor j q s) !! i = Some r.
Proof.
  intros Hr Hl Hq. unfold shutdown_reactor. rewrite lookup_set_reactor, Hr. case_decide; [|done]. subst. simpl.
  by rewrite (lingers_request c x) by auto.
Qed.

Lemma lingers_launch s i c x j spawned s' r :
  startReactor j spawned s = Some s' → sv_reactors s !! i = Some r → lingers c x r → sv_reactors s' !! i = Some r.
Proof.
  intros Hst Hr Hl. unfold startReactor, reactor_state in Hst. destruct (sv_reactors s !! j) as [rj|] eqn:Ej; [|done]. simpl in Hst.
  destruct (state (rx_shared rj)) eqn:Es; try (by simplify_eq).
  destruct spawned; simpl in Hst; [|by simplify_eq]. destruct (_ =? _)%nat; [|done]. simpl in Hst.
  assert (j ≠ i) as Hne by (intros ->; rewrite Hr in Ej; simplify_eq; destruct Hl; congruence).
  simplify_eq. simpl. by rewrite list_lookup_alter_ne.
Qed.

Lemma lingers_command c x c' id stored notified r :
  lingers c x r → lingers c x (queue_command c' id stored notified r).
Proof. intros []. destruct (queue_command_cases c' id stored notified r) as [->|[woken ->]]; by split. Qed.

Lemma lingers_exec K c x r cb sched r' :
  @inv cfg K r → lingers c x r → Forall (Forall not_immediate) sched → enabled r cb = true → calm_callback c r cb →
  exec cfg cb sched r = Some r' → lingers c x r'.
Proof.
  intros Hi Hl Hs He Hc Hx. unfold exec in Hx.
  assert (lingers c x (r <| rx_sched := sched |>)) as Hl' by by destruct Hl.
  pose proof (callback_calm K c x _ cb (inv_sched K sched r Hi) Hl' Hs) as H.
  destruct (callback cfg cb _) as [[[] r1]|]; [|done]. simplify_eq.
  assert (lingers c x r1) as [] by (apply (quiet_lingers c x r); [done|]; apply H; [by destruct cb|by destruct cb]).
  by split.
Qed.

Lemma lingers_step s l s' i c x r :
  @server_inv cfg s → server_enabled s l = true → calm i c s l → server_step cfg s l = Some s' →
  sv_reactors s !! i = Some r → lingers c x r → ∃ r', sv_reactors s' !! i = Some r' ∧ lingers c x r'.
Proof.
  intros Hs He Hc Hst Hr Hl.
  destruct l as [|spawned|notified|same_address|notified| |q timeout|k notified| |j cb sched|j c' id stored notified]; simpl in He, Hc, Hst.
  1-9: exists r; split; [|done].
  - unfold start_begin in Hst. by destruct (sv_state s); simplify_eq.
  - destruct (sv_start s); try done. case_match; [by simplify_eq|]. by eapply lingers_launch.
  - destruct (sv_start s); try done. simplify_eq. unfold tell_reactor. eapply lingers_shutdown; [done|done|]. simpl. intros ->. by apply Hc.
  - destruct (sv_start s); try done. unfold awaited in Hst. case_match; [|done]. by case_match; simplify_eq.
  - destruct (sv_start s) as [| | | |[|j rest]|]; try done; simplify_eq; [done|]. by eapply lingers_shutdown.
  - by destruct (sv_start s) as [| | | | |[|j rest]]; simplify_eq.
  - simplify_eq. unfold requestShutdown. by destruct (_ || _).
  - simplify_eq. unfold deliver_request. destruct (sv_requests s !! k) as [[[? ?] []]|]; try done. by eapply lingers_shutdown.
  - unfold wait_end in Hst. destruct (_ =? _); [|done]. by destruct (sv_state s); simplify_eq.
  - destruct (sv_reactors s !! j) as [rj|] eqn:Ej; [|done]. destruct (exec cfg cb sched _) as [r'|] eqn:Ex; [|done]. simplify_eq. simpl.
    destruct (decide (j = i)) as [->|Hne]; [|exists r; by rewrite list_lookup_insert_ne].
    rewrite list_lookup_insert_eq by by eapply lookup_lt_Some. exists r'. split; [done|]. rewrite Hr in Ej. simplify_eq.
    rewrite Hr in Hc. destruct (Hc eq_refl) as [Hsched Hcb].
    eapply (lingers_exec _ c x _ cb sched); [exact (si_reactors _ Hs i rj Hr)| |done|done| |done]; [by destruct Hl|by destruct cb].
  - destruct (sv_reactors s !! j) as [rj|]; [|done]. destruct (notifies_released _ _); [done|]. simplify_eq.
    rewrite lookup_set_reactor, Hr. simpl. case_decide; [|by exists r]. eexists. split; [done|]. by apply lingers_command.
Qed.

End Config.


